(* ===== verification/_CoqProject ===== *)
-Q . S2P
Prelude.v
GoTime.v
Prog.v
Compose.v
GoStrings.v
Encoding.v
Multiaddr.v
Files.v
Packet.v
Dedup.v
Router.v
Queue.v
Json.v
JsonCodec.v
Presence.v
Manager.v
RelaySpec.v
Mesh.v
Rendezvous.v
RvGossip.v
Config.v
Network.v
Invite.v
Card.v
PeerMemory.v
Host.v
Ping.v
Server.v
Node.v
Lifecycle.v
Handlers.v
ApiSpec.v
System.v
SystemSpec.v
Delivery.v
Nodes.v
Races.v
