(* ===== verification/Prelude.v ===== *)
(** * Plural Star Node: a verification development

    Plural Star Node ([src/], Go) is a relay for messaging apps. Apps connect to
    a node over HTTP and WebSocket; nodes form a libp2p network, learn by gossip
    which app is at which node, forward packets to it, and hold packets for apps
    that are away. A node also keeps a rendezvous directory, exchanges signed
    cards of networks, and can belong to a private network that is joined with
    an invite. This library translates the Go code into Rocq definitions and
    proves what makes it correct; it also proves the places where it is not.

    ** The parts, and the files that model them

    - Foundations: Prelude.v (bytes, the order of Go's map iteration, generic
      lemmas, a generic encoding used by concrete instances), GoTime.v ([time],
      with 64-bit durations), Prog.v (goroutines as sequences of atomic
      sections, their interleaving [cstep], the rule for invariants, error
      results, loops), Compose.v (a component as a part of a larger state: lenses,
      programs run on a part, simulation by the part), GoStrings.v ([strings],
      [encoding/binary]), Encoding.v ([encoding/base64], [encoding/hex]), Json.v
      ([encoding/json] at the level of values), JsonCodec.v (its text: printing,
      parsing, UTF-8), Files.v ([os.ReadFile], [os.WriteFile], failures included),
      Multiaddr.v and Packet.v (the interfaces of the libp2p libraries).
    - Relay ([internal/relay]): Packet.v ([packet.go], [codec.go]), Dedup.v
      ([dedup.go]), Router.v ([router.go], [router_view.go]), Queue.v
      ([queue.go]), Presence.v ([presence.go]), Manager.v ([manager.go]: [Route],
      [FlushQueued], [AppConnected], [handleStream] and the callbacks, as programs
      over the record [Manager]). RelaySpec.v holds the theorems about one
      manager, Mesh.v those about many managers joined by streams.
    - Rendezvous: Rendezvous.v (the store of [internal/api/rendezvous.go], with its
      two locks and its file) and RvGossip.v ([internal/relay/rendezvous.go] and
      its wiring in [server.go]).
    - Configuration and networks: Config.v ([internal/config]), Network.v
      ([network.go]), Invite.v ([invite.go], [invite_apply.go]), Card.v
      ([card.go], [store.go], [networks.go]).
    - The libp2p side: PeerMemory.v ([internal/host/peers.go]), Host.v
      ([internal/host/host.go], [persistentReconnectLoop]), Ping.v
      ([internal/ping]), Node.v (what a start of [cmd/node] decides,
      [discovery.go], [cmd/gencard]), Lifecycle.v ([run] of [cmd/node/main.go] call
      by call, with the libraries that can fail and the deferred calls).
    - HTTP API ([internal/api]): Server.v (the sockets: [wsclient.go], the client
      methods of [server.go], [events.go], registration and removal in
      [handleWS]), Handlers.v ([auth.go] and every endpoint, over the record
      [Node], one request at a time), ApiSpec.v (theorems from one end of a request
      to the other).
    - The whole node: System.v (every handler again as a goroutine over the record
      [Node], the callbacks between components, and the loops), SystemSpec.v (what
      holds of every interleaving of them), Delivery.v (which socket gets which
      packet), Nodes.v (many nodes joined by their streams), Races.v (schedules that
      go wrong).

    Definitions keep the names of the Go functions. A method that takes a lock
    once is a function of the state the lock protects; a method of several
    sections is a [prog], run alone by [run] and interleaved by [cstep]. Time is
    part of the state and moves in environment steps. Go's map iteration is the
    class [MapRange]: theorems hold for every order.

    ** How the parts interact

    [handleSend] builds a packet and calls [Route]; [Route] asks the
    de-duplication cache, then delivers to a local app (its closure sends an
    event to the app's sockets, [sendToApp]), forwards over a stream ([forwardTo];
    the other node's [handleStream] calls [Route] again), or queues. A socket that
    opens registers its app ([AppConnected]: announce, flush, refresh until
    [AppDisconnected]); an announcement that arrives ([on_presence]) updates the
    routing table and flushes the queue. The routing table is used by the
    presence code through the class [RouteTable]. [handleRendezvousRegister] puts
    a record into the store and announces it; the receiving node filters it
    ([rendezvous_receive]) and calls [putRemote]. [handleInviteAccept] writes the
    key, changes the configuration and saves it; [start] reads both at the next
    start and decides what the node takes part in; [run_node] takes those steps
    one call at a time. In System.v a handler that uses a component runs that
    component's program on its part of the node ([zoom]), and the callbacks a
    component was given run on the parts they reach ([weave]); so what is proved of
    a component alone carries over to the node through [sim].

    ** What the theorems show

    - One relay: under every interleaving packets reach only the right apps,
      tables stay consistent and bounded ([relay_safe], [queue_bounded]), whatever
      lifetime an announcement claims ([effective_ttl_range]); what becomes of a routed packet ([route_fate]) and of held ones
      ([flush_loses_nothing]); the queue, the routing table and the cache refine
      histories of their calls ([take_returns_newest], [router_refines_history],
      [duplicate_suppressed]).
    - Many relays, with arbitrary, possibly circular routing tables: relaying
      ends, no node dispatches a packet twice, and a packet arrives along a path
      of routes ([relaying_terminates], [dispatched_at_most_once],
      [path_delivery]); presence keeps routes alive ([announce_then_route],
      [refresh_keeps_route]).
    - Rendezvous: bounded, convergent, durable, contained against hostile gossip,
      and replicated end to end ([rendezvous_bounded], [putRemote_converges],
      [restart_roundtrip], [gossip_contained], [register_replicates]).
    - Networks: what a start opens in which mode ([start_by_mode]), that a restart
      gives the same node ([restart_same_node], [load_heals]), that an invite
      brings a node into its network ([invite_joins], [decode_invite_exact]),
      that a signed card is accepted as it was sent and cannot be altered, down to
      the bytes of its JSON ([signed_card_on_the_wire]), that only verified cards
      are stored and that their flooding ends and converges
      ([store_only_verified], [flooding_ends], [card_gossip_converges],
      [gencard_prints_valid]).
    - Start-up: the calls of [run] do what [start] says ([run_is_start]), and what
      was opened is closed on every path ([run_cleans_up]).
    - The mesh heals through remembered peers ([mesh_heals],
      [connect_peers_spec]).
    - The API: who may call what ([auth_gate], [operator_only_local]), that an
      error leaves nothing behind ([errors_change_nothing]), that sockets are
      never sent to after they are closed and get events in order ([ws_safe]),
      that apps with sockets are those the relay knows ([ws_registered]), and
      that a packet posted to [/send] reaches the sockets of its recipient
      ([send_reaches_sockets]).
    - The whole node, with any number of requests, sockets, streams, messages and
      loops running at once: what happens to each component is a run of that
      component ([node_refines_parts]), so its invariants hold ([node_safe]); a
      socket is only ever given packets for its app ([sockets_get_own_packets]);
      and a request that runs alone does what Handlers.v says ([serve_alone]).
    - Many whole nodes: every packet on a socket was asked for by a request to some
      node, or came from outside, with this recipient and this payload
      ([packets_have_origins]); and a packet posted at one node gets to the sockets
      at the end of a path of nodes ([send_across_nodes]).
    - Where the code fails its intent, as theorems about reachable states or
      concrete runs: [stale_flush_overwrites_newer], [failed_flush_restarts_ttl],
      [late_snapshot_loses_put], [reconnect_unregisters], [limit_can_be_passed],
      [late_measure_revives], [empty_invite_bricks], [accept_failure_loses_key],
      [fetch_directory_spec], [concurrent_accepts_split], [reconnect_loses_packets],
      [damaged_card_rejected].

    ** Bounds and fuel

    No definition of the program needs fuel: loops over lists and maps are
    structural, and an endless loop is a program that is given the signals of its
    ticker, or what its subscription returned so far. The JSON parser has fuel,
    twice the length of the text and two more; more of it changes nothing
    ([read_fuel]). Runs of the mesh are arbitrary sequences
    of [mesh_step]; [relaying_terminates] bounds the steps of a run by a measure
    of its first state, in which each node may dispatch each packet once. Integers that can overflow are
    wrapped at 64 bits (GoTime.v) or rejected at the width of the field (Json.v);
    lengths in invites are two bytes.

    ** Libraries as parameters

    Code that is not in the repository is a class, with what the code relies on
    as a second class of laws: peer identifiers ([PeerLib], [PeerLaws]), msgpack
    ([Msgpack], [MsgpackLaws]), streams ([StreamNet]), multiaddresses
    ([MultiaddrLib]), signatures ([Crypto], [CryptoLaws]), private keys
    ([KeyCodec], [KeyCodecLaws]), YAML ([Yaml], [YamlLaws]), base58 ([Base58],
    [Base58Laws]), bbolt ([Bolt]), URL, address and
    media type parsers ([NetLib]), dialling ([Dialer]), starting libraries
    ([Runtime], [Libs]), and the failures of files ([OSEnv], [FileSystem]). Each has a
    concrete instance, with its laws proved, on which the theorems are
    evaluated.

    ** What is not modelled

    Message bodies and files of components other than cards are JSON values, not
    texts: for them the replacement of invalid UTF-8 is left out, and so is a
    [null] inside an array that a repeated key fills; the difference between
    absent and empty lists in a configuration; the bytes of HTTP and WebSocket
    frames, deadlines and pongs; what libp2p does inside: the host, the DHT,
    GossipSub, mDNS and advertising are library calls that succeed or fail
    (Lifecycle.v) and messages and peers that arrive (System.v); flags, signals and
    logging. In Server.v [broadcast] and [Shutdown] take the set of clients when
    the lock is taken.

    ** What could be added

    Gossip as messages between the nodes of Nodes.v, where it is arbitrary now, and
    the rendezvous store and the cards replicated among them; the liveness of
    delivery under fair scheduling; message bodies as texts throughout. *)

From stdpp Require Export base tactics option list fin_maps gmap strings.
From stdpp Require Export sorting.
From Stdlib Require Export ZArith Lia.

#[export] Set Default Goal Selector "!".
#[export] Set Warnings "-clear-no-such-hyp".

(** ** Notations of the development *)

Declare Scope go_scope.
Delimit Scope go_scope with go.

(** Go strings and byte slices are both sequences of bytes; the conversions
    [[]byte(s)] and [string(b)] copy the bytes, so one type serves for both. *)
Abbreviation bytes := string (only parsing).

(** [peer.ID] is declared in go-libp2p as [type ID string]: the bytes of a
    multihash. *)
Abbreviation peerID := string (only parsing).

(** [len(s)] of a Go string or byte slice, in bytes. *)
Definition slen (s : string) : Z := Z.of_nat (String.length s).

(** The address of a sender that is not known: the empty [peer.ID]. *)
Abbreviation no_peer := ""%string.

(** ** Iteration over Go maps

    [for k, v := range m] visits every entry of [m] once, in an order the
    language leaves open. [range] is that order: every definition that iterates
    is parametrised by it and every theorem holds for all of them. *)
Class MapRange := {
  range : ∀ {K V : Type} `{Countable K}, gmap K V → list (K * V);
  range_perm : ∀ {K V : Type} `{Countable K} (m : gmap K V), range m ≡ₚ map_to_list m
}.

(** One possible order, used to evaluate the definitions on concrete inputs. *)
#[global] Instance map_to_list_range : MapRange | 100 := {|
  range := λ K V _ _ m, map_to_list m;
  range_perm := λ K V _ _ m, reflexivity _
|}.

(** ** Generic lemmas *)

Section range_lemmas.
Context `{MapRange} {K V : Type} `{Countable K}.
Implicit Types (m : gmap K V).

Lemma elem_of_range m k v : (k, v) ∈ range m ↔ m !! k = Some v.
Proof. rewrite range_perm. apply elem_of_map_to_list. Qed.

Lemma NoDup_fst_range m : NoDup (range m).*1.
Proof. rewrite range_perm. apply NoDup_fst_map_to_list. Qed.

Lemma NoDup_range m : NoDup (range m).
Proof. rewrite range_perm. apply NoDup_map_to_list. Qed.

Lemma length_range m : length (range m) = size m.
Proof. rewrite range_perm. apply length_map_to_list. Qed.

Lemma range_empty : range (∅ : gmap K V) = [].
Proof. apply Permutation_nil. symmetry. rewrite range_perm. by rewrite map_to_list_empty. Qed.

Lemma fst_in_range m k : k ∈ (range m).*1 ↔ is_Some (m !! k).
Proof.
  rewrite list_elem_of_fmap. split.
  - intros [[k' v] [-> Hin]]. apply elem_of_range in Hin. by eexists.
  - intros [v Hv]. exists (k, v). by rewrite elem_of_range.
Qed.
End range_lemmas.

(** Filtering a map by a property of its values: what [delete] inside a
    [range] loop amounts to. *)
Section keep.
Context {K V : Type} `{Countable K} (P : V → bool).

Definition keep (m : gmap K V) : gmap K V := filter (λ kv, P kv.2 = true) m.

Lemma lookup_keep m k v : keep m !! k = Some v ↔ m !! k = Some v ∧ P v = true.
Proof. unfold keep. by rewrite map_lookup_filter_Some. Qed.

Lemma lookup_keep_None m k :
  keep m !! k = None ↔ m !! k = None ∨ ∃ v, m !! k = Some v ∧ P v = false.
Proof.
  unfold keep. rewrite map_lookup_filter_None. split.
  - intros [?|Hn]; [by left|]. destruct (m !! k) as [v|] eqn:E; [right|by left].
    exists v. split; [done|]. specialize (Hn v eq_refl). cbn in Hn. by destruct (P v).
  - intros [?|(v & E & HP)]; [by left|right]. intros v' E'. simplify_eq. cbn. congruence.
Qed.

Lemma lookup_keep_Some_eq m k v :
  m !! k = Some v → keep m !! k = if P v then Some v else None.
Proof.
  intros E. destruct (P v) eqn:HP.
  - by apply lookup_keep.
  - apply lookup_keep_None. eauto.
Qed.

Lemma keep_subseteq m : keep m ⊆ m.
Proof. apply map_filter_subseteq. Qed.

Lemma size_keep_le m : size (keep m) ≤ size m.
Proof. apply map_subseteq_size, keep_subseteq. Qed.
End keep.

Lemma size_insert_le {K V : Type} `{Countable K} (m : gmap K V) k v :
  size (<[k:=v]> m) ≤ S (size m).
Proof. rewrite map_size_insert. case_match; cbn; lia. Qed.

Lemma size_insert_present {K V : Type} `{Countable K} (m : gmap K V) k v :
  is_Some (m !! k) → size (<[k:=v]> m) = size m.
Proof. intros [x Hx]. rewrite map_size_insert, Hx. done. Qed.

Lemma size_pos_lookup {K V : Type} `{Countable K} (m : gmap K V) :
  m ≠ ∅ ↔ ∃ k v, m !! k = Some v.
Proof.
  split.
  - apply map_choose.
  - intros (k & v & Hk) ->. by rewrite lookup_empty in Hk.
Qed.

Lemma length_omap_le {A B} (f : A → option B) (l : list A) : length (omap f l) ≤ length l.
Proof. induction l as [|x l IH]; cbn; [done|]. destruct (f x); cbn; lia. Qed.

(** ** A concrete encoding of countable types

    The bits of stdpp's code, as text. It instantiates the codecs the program
    takes from libraries, so that the definitions evaluate on concrete inputs. *)
Definition zero_char : Ascii.ascii := Ascii.ascii_of_nat 48.
Definition one_char : Ascii.ascii := Ascii.ascii_of_nat 49.

Fixpoint bits_of_pos (p : positive) : string :=
  match p with
  | xH => ""
  | xO p => String zero_char (bits_of_pos p)
  | xI p => String one_char (bits_of_pos p)
  end.

Fixpoint pos_of_bits (s : string) : option positive :=
  match s with
  | "" => Some xH
  | String a s => p ← pos_of_bits s; if Ascii.eqb a zero_char then Some (xO p) else Some (xI p)
  end%string.

Definition pack {A} `{Countable A} (a : A) : string := bits_of_pos (encode a).
Definition unpack {A} `{Countable A} (s : string) : option A := pos_of_bits s ≫= decode.

Lemma pos_of_bits_of_pos p : pos_of_bits (bits_of_pos p) = Some p.
Proof. by induction p as [p IH|p IH|]; cbn; rewrite ?IH. Qed.

Lemma unpack_pack {A} `{Countable A} (a : A) : unpack (pack a) = Some a.
Proof.
  unfold unpack, pack. rewrite pos_of_bits_of_pos. cbn [mbind option_bind]. apply decode_encode.
Qed.

(** Comparisons stay folded, so that [zbool] below recognises them. *)
#[global] Arguments Nat.ltb : simpl never.
#[global] Arguments Nat.leb : simpl never.
#[global] Arguments Z.ltb : simpl never.
#[global] Arguments Z.leb : simpl never.

(** ** Tactics of the development *)

(** Case on every boolean guard of the goal, in the order the code tests them. *)
Ltac guards :=
  repeat match goal with
  | |- context [if ?b then _ else _] => destruct b eqn:?
  end.

(** Turn the boolean integer tests of the code into the facts they decide. *)
Ltac zbool :=
  repeat match goal with
  | H : (_ <? _)%Z = true |- _ => apply Z.ltb_lt in H
  | H : (_ <? _)%Z = false |- _ => apply Z.ltb_ge in H
  | H : (_ <=? _)%Z = true |- _ => apply Z.leb_le in H
  | H : (_ <=? _)%Z = false |- _ => apply Z.leb_gt in H
  | H : (_ =? _)%Z = true |- _ => apply Z.eqb_eq in H
  | H : (_ =? _)%Z = false |- _ => apply Z.eqb_neq in H
  | H : (_ <? _)%nat = true |- _ => apply Nat.ltb_lt in H
  | H : (_ <? _)%nat = false |- _ => apply Nat.ltb_ge in H
  | H : (_ <=? _)%nat = true |- _ => apply Nat.leb_le in H
  | H : (_ <=? _)%nat = false |- _ => apply Nat.leb_gt in H
  | H : negb _ = true |- _ => apply negb_true_iff in H
  | H : negb _ = false |- _ => apply negb_false_iff in H
  | H : andb _ _ = true |- _ => apply andb_true_iff in H as [? ?]
  | H : orb _ _ = false |- _ => apply orb_false_iff in H as [? ?]
  | H : String.eqb _ _ = true |- _ => apply String.eqb_eq in H
  | H : String.eqb _ _ = false |- _ => apply String.eqb_neq in H
  end.

Tactic Notation "zsolve" := zbool; lia.
