(* ===== verification/GoTime.v ===== *)
(** * Go's [time] package, as far as the node uses it

    An instant is the number of nanoseconds since the Unix epoch; a
    [time.Duration] is an [int64] number of nanoseconds, with its wrap-around
    written out. *)

From S2P Require Import Prelude.

#[local] Open Scope Z_scope.

(** [time.Time]: nanoseconds since 1970-01-01 00:00:00 UTC. *)
Abbreviation Instant := Z (only parsing).
(** [time.Duration]: nanoseconds, an [int64]. *)
Abbreviation Duration := Z (only parsing).

Definition minInt64 : Z := - 2 ^ 63.
Definition maxInt64 : Z := 2 ^ 63 - 1.

(** Two's complement wrap-around of an [int64] operation. *)
Definition wrap64 (z : Z) : Z := (z + 2 ^ 63) mod 2 ^ 64 - 2 ^ 63.

Definition is_int64 (z : Z) : Prop := minInt64 <= z <= maxInt64.

Definition Millisecond : Duration := 1000000.
Definition Second : Duration := 1000 * Millisecond.
Definition Minute : Duration := 60 * Second.
Definition Hour : Duration := 60 * Minute.

(** [time.Duration(n) * time.Second]: a wrapping [int64] product. *)
Definition seconds (n : Z) : Duration := wrap64 (n * Second).

Module Time.
(** [t.Add(d)]: a [time.Time] has 64 bits of whole seconds, so adding a
    [Duration] (at most 292 years) to a present-day instant is exact. *)
Definition Add (t : Instant) (d : Duration) : Instant := t + d.

(** [t.Sub(u)] saturates at the bounds of [Duration]. *)
Definition Sub (t u : Instant) : Duration :=
  if t - u <? minInt64 then minInt64
  else if maxInt64 <? t - u then maxInt64
  else t - u.

Definition After (t u : Instant) : bool := u <? t.
Definition Before (t u : Instant) : bool := t <? u.

(** [time.Until(t)] at the instant [now]. *)
Definition Until (now t : Instant) : Duration := Sub t now.

(** [t.Unix()] and [t.UnixMilli()]: whole seconds and milliseconds, rounded
    towards the past, as a [Time] keeps a non-negative nanosecond part. *)
Definition Unix (t : Instant) : Z := t / Second.
Definition UnixMilli (t : Instant) : Z := t / Millisecond.

(** Seconds between year 1 and 1970, added to a Unix second count to get the
    internal one. *)
Definition unixToInternal : Z := 62135596800.

(** [time.Unix(sec, 0)]: the conversion to the internal epoch wraps. *)
Definition of_Unix (sec : Z) : Instant :=
  (wrap64 (sec + unixToInternal) - unixToInternal) * Second.

(** [time.UnixMilli(ms)]: [ms / 1000] leaves room for the offset. *)
Definition of_UnixMilli (ms : Z) : Instant := ms * Millisecond.
End Time.

(** ** Histories: timed sequences of calls, oldest first *)

(** The instants of a history never go back, and start no earlier than [t]. *)
Fixpoint timed {A} (t : Instant) (h : list (Instant * A)) : Prop :=
  match h with
  | [] => True
  | (u, _) :: h => t <= u ∧ timed u h
  end.

(** The instant of the last call of a history that starts at [t]. *)
Fixpoint ends {A} (t : Instant) (h : list (Instant * A)) : Instant :=
  match h with
  | [] => t
  | (u, _) :: h => ends u h
  end.

(** ** Lemmas *)

Lemma wrap64_id z : is_int64 z → wrap64 z = z.
Proof.
  unfold is_int64, minInt64, maxInt64, wrap64. intros ?.
  rewrite Z.mod_small by lia. lia.
Qed.

Lemma wrap64_bounds z : is_int64 (wrap64 z).
Proof.
  unfold is_int64, minInt64, maxInt64, wrap64.
  pose proof (Z.mod_pos_bound (z + 2 ^ 63) (2 ^ 64) ltac:(lia)). lia.
Qed.

Lemma seconds_small n : -9223372036 <= n <= 9223372036 → seconds n = n * Second.
Proof.
  intros ?. unfold seconds. apply wrap64_id.
  unfold is_int64, minInt64, maxInt64, Second, Millisecond. lia.
Qed.

Lemma Sub_gt t u d : minInt64 <= d < maxInt64 → (d <? Time.Sub t u) = (d <? t - u).
Proof.
  unfold Time.Sub, minInt64, maxInt64. intros ?.
  guards; zbool; apply eq_true_iff_eq; rewrite !Z.ltb_lt; lia.
Qed.

Lemma Until_small now t : is_int64 (t - now) → Time.Until now t = t - now.
Proof.
  unfold is_int64, Time.Until, Time.Sub. intros ?. guards; zbool; lia.
Qed.

Lemma Until_le_0 now t : (Time.Until now t <=? 0) = (t <=? now).
Proof.
  unfold Time.Until, Time.Sub, minInt64, maxInt64.
  apply eq_true_iff_eq. rewrite !Z.leb_le. guards; zbool; lia.
Qed.

Lemma UnixMilli_bounds t :
  Time.of_UnixMilli (Time.UnixMilli t) <= t < Time.of_UnixMilli (Time.UnixMilli t) + Millisecond.
Proof.
  unfold Time.of_UnixMilli, Time.UnixMilli, Millisecond.
  pose proof (Z.div_mod t 1000000 ltac:(lia)).
  pose proof (Z.mod_pos_bound t 1000000 ltac:(lia)). lia.
Qed.

(** A persisted instant comes back rounded down to the whole second. *)
Lemma of_Unix_Unix t :
  is_int64 (Time.Unix t + Time.unixToInternal) →
  Time.of_Unix (Time.Unix t) = t / Second * Second.
Proof. intros ?. unfold Time.of_Unix. rewrite wrap64_id by done. unfold Time.Unix. lia. Qed.

Lemma div_Second_bounds t : t / Second * Second <= t < t / Second * Second + Second.
Proof.
  unfold Second, Millisecond.
  pose proof (Z.div_mod t (1000 * 1000000) ltac:(lia)).
  pose proof (Z.mod_pos_bound t (1000 * 1000000) ltac:(lia)). lia.
Qed.

Lemma timed_ends {A} t (h : list (Instant * A)) : timed t h → t <= ends t h.
Proof.
  revert t. induction h as [|[u o] h IH]; cbn; intros t; [lia|].
  intros [? ?%IH]. lia.
Qed.

Lemma timed_snoc {A} t (h : list (Instant * A)) u (o : A) :
  timed t (h ++ [(u, o)]) ↔ timed t h ∧ ends t h <= u.
Proof.
  revert t. induction h as [|[v o'] h IH]; cbn; intros t; [tauto|].
  rewrite IH. tauto.
Qed.

Lemma ends_snoc {A} t (h : list (Instant * A)) u (o : A) : ends t (h ++ [(u, o)]) = u.
Proof. revert t. induction h as [|[v o'] h IH]; cbn; intros t; [done|apply IH]. Qed.
