(* ===== verification/Prog.v ===== *)
(** * Goroutines as programs over a shared state

    A Go function that takes and releases locks is a sequence of atomic
    sections separated by points where other goroutines may run. [prog S A] is
    such a function over the shared state [S] with result [A]: [Ret a] returns,
    [Step f k] runs the atomic section [f] and goes on with [k], which is given
    the state the section started from. [run] executes a program alone;
    [cstep] interleaves the atomic sections of any number of goroutines with
    each other and with the environment. *)

From S2P Require Import Prelude.
From stdpp Require Export relations.

Inductive prog (S A : Type) : Type :=
| Ret (a : A)
| Step (f : S → S) (k : S → prog S A).
Arguments Ret {S A} _.
Arguments Step {S A} _ _.

(** The program run alone, without interference. *)
Fixpoint run {S A} (p : prog S A) (s : S) {struct p} : S * A :=
  match p with
  | Ret a => (s, a)
  | Step f k => run (k s) (f s)
  end.

Fixpoint prog_bind_def {S A B} (k : A → prog S B) (p : prog S A) {struct p} : prog S B :=
  match p with
  | Ret a => k a
  | Step f k' => Step f (λ s, prog_bind_def k (k' s))
  end.

#[export] Instance prog_ret {S} : MRet (prog S) := λ A, Ret.
#[export] Instance prog_bind {S} : MBind (prog S) := λ A B, prog_bind_def.

(** An atomic section that changes the state. *)
Definition modify {S} (f : S → S) : prog S unit := Step f (λ _, Ret tt).

(** An atomic section that reads the state. *)
Definition gets {S A} (g : S → A) : prog S A := Step id (λ s, Ret (g s)).

(** An atomic section that changes the state and returns a value. *)
Definition atomic {S A} (f : S → S * A) : prog S A :=
  Step (λ s, (f s).1) (λ s, Ret (f s).2).

(** [for _, x := range l { body(x) }] *)
Fixpoint for_each {S A} (l : list A) (body : A → prog S unit) : prog S unit :=
  match l with
  | [] => Ret tt
  | x :: l => body x;; for_each l body
  end.

(** What a loop that waits on a context and a ticker sees. *)
Inductive signal := Tick | Done.

(** [for { select { case <-ctx.Done(): return; case <-ticker.C: body } }], for a
    goroutine that has seen these signals so far. *)
Fixpoint ticker_loop {S} (body : prog S unit) (sigs : list signal) : prog S unit :=
  match sigs with
  | Tick :: sigs => body;; ticker_loop body sigs
  | _ => Ret tt
  end.

(** [for { msg, err := sub.Next(ctx); if err != nil { return }; body(msg) }],
    for what [Next] returned so far; [None] is an error. *)
Fixpoint read_loop {S M} (body : M → prog S unit) (next : list (option M)) : prog S unit :=
  match next with
  | Some msg :: next => body msg;; read_loop body next
  | _ => Ret tt
  end.

(** ** Fallible functions: a Go pair of a value and an [error] *)

Inductive res (E A : Type) : Type :=
| Ok (a : A)
| Err (e : E).
Arguments Ok {E A} _.
Arguments Err {E A} _.

(** [if err != nil { return wrap(err) }] *)
Definition wrap_err {E E' A} (wrap : E → E') (r : res E A) : res E' A :=
  match r with Ok a => Ok a | Err e => Err (wrap e) end.

Definition try {S E A B} (p : prog S (res E A)) (k : A → prog S (res E B)) : prog S (res E B) :=
  r ← p;
  match r with
  | Ok a => k a
  | Err e => mret (Err e)
  end.

Notation "x ←? p ; k" := (try p (λ x, k)) (at level 20, p at level 100, k at level 200, right associativity) : go_scope.
#[global] Open Scope go_scope.

(** The final state of a program run alone. *)
Definition exec {S A} (p : prog S A) (s : S) : S := (run p s).1.
(** The result of a program run alone. *)
Definition result {S A} (p : prog S A) (s : S) : A := (run p s).2.

(** ** Equations of [run] *)

Lemma run_ret {S A} (a : A) (s : S) : run (mret a) s = (s, a).
Proof. done. Qed.

Lemma run_bind {S A B} (p : prog S A) (k : A → prog S B) s :
  run (p ≫= k) s = run (k (run p s).2) (run p s).1.
Proof. revert s. induction p as [a|f k' IH]; intros s; [done|]. apply IH. Qed.

Lemma run_modify {S} (f : S → S) s : run (modify f) s = (f s, tt).
Proof. done. Qed.

Lemma run_gets {S A} (g : S → A) s : run (gets g) s = (s, g s).
Proof. done. Qed.

Lemma run_atomic {S A} (f : S → S * A) s : run (atomic f) s = f s.
Proof. unfold atomic. cbn. by destruct (f s). Qed.

Lemma run_for_each {S A} (l : list A) (body : A → prog S unit) s :
  (run (for_each l body) s).1 = foldl (λ s x, (run (body x) s).1) s l.
Proof.
  revert s. induction l as [|x l IH]; intros s; [done|]. cbn [for_each foldl].
  by rewrite run_bind, IH.
Qed.

Lemma run_ticker_loop {S} (body : prog S unit) sigs s :
  (run (ticker_loop body sigs) s).1 =
    match sigs with Tick :: sigs => (run (ticker_loop body sigs) (run body s).1).1 | _ => s end.
Proof. destruct sigs as [|[] sigs]; [done| |done]. cbn [ticker_loop]. by rewrite run_bind. Qed.

(** Running up to and past a section that reads the state. *)
Ltac go_gets := rewrite run_bind, run_gets; cbn [fst snd].

(** ** Interleavings *)

Section interleaving.
Context {S : Type}.

(** What other parties do to the shared state between two sections: time
    passing, tickers firing. *)
Variable env : S → S → Prop.
(** The programs that may be started at any time. *)
Variable call : prog S unit → Prop.

(** The shared state and the goroutines in flight. *)
Definition config : Type := S * list (prog S unit).

Inductive cstep : config → config → Prop :=
| cstep_env s s' ts : env s s' → cstep (s, ts) (s', ts)
| cstep_go s ts p : call p → cstep (s, ts) (s, ts ++ [p])
| cstep_section s ts i f k :
    ts !! i = Some (Step f k) → cstep (s, ts) (f s, <[i := k s]> ts).

Variable I : S → Prop.

(** [safe I Q p]: started at any time in a state satisfying [I], with other
    goroutines free to run between its sections as long as they keep [I],
    every section of [p] keeps [I] and the result satisfies [Q]. *)
Inductive safe {A} (Q : A → Prop) : prog S A → Prop :=
| safe_Ret a : Q a → safe Q (Ret a)
| safe_Step f k :
    (∀ s, I s → I (f s)) → (∀ s, I s → safe Q (k s)) → safe Q (Step f k).

Definition stable {A} (p : prog S A) : Prop := safe (λ _, True) p.

Lemma safe_bind {A B} (P : A → Prop) (Q : B → Prop) (p : prog S A) (k : A → prog S B) :
  safe P p → (∀ a, P a → safe Q (k a)) → safe Q (p ≫= k).
Proof.
  intros Hp Hk. induction Hp as [a Ha|f k' Hf _ IH]; [by apply Hk|].
  apply safe_Step; [done|exact IH].
Qed.

Lemma safe_weaken {A} (P Q : A → Prop) (p : prog S A) :
  (∀ a, P a → Q a) → safe P p → safe Q p.
Proof. intros HPQ. induction 1; constructor; auto. Qed.

Lemma safe_gets {A} (Q : A → Prop) (g : S → A) : (∀ s, I s → Q (g s)) → safe Q (gets g).
Proof. constructor; [done|]. intros. by constructor; auto. Qed.

Lemma safe_atomic {A} (Q : A → Prop) (f : S → S * A) :
  (∀ s, I s → I (f s).1 ∧ Q (f s).2) → safe Q (atomic f).
Proof. intros Hf. constructor; [apply Hf|]. intros. constructor. by apply Hf. Qed.

Lemma stable_ret {A} (a : A) : stable (mret a).
Proof. by constructor. Qed.

Lemma stable_bind {A B} (p : prog S A) (k : A → prog S B) :
  stable p → (∀ a, stable (k a)) → stable (p ≫= k).
Proof. intros Hp Hk. apply (safe_bind _ _ _ _ Hp). intros a _. apply Hk. Qed.

Lemma stable_for_each {A} (l : list A) (body : A → prog S unit) :
  (∀ x, x ∈ l → stable (body x)) → stable (for_each l body).
Proof.
  induction l as [|x l IH]; intros Hb; [by constructor|].
  apply stable_bind; [|intros []; apply IH; intros y ?]; apply Hb; set_solver.
Qed.

Lemma stable_ticker (body : prog S unit) sigs : stable body → stable (ticker_loop body sigs).
Proof. intros Hb. induction sigs as [|[] sigs IH]; [apply stable_ret| |apply stable_ret]. by apply stable_bind. Qed.

Lemma stable_reader {M} (body : M → prog S unit) next : (∀ msg, stable (body msg)) → stable (read_loop body next).
Proof. intros Hb. induction next as [|[msg|] next IH]; [apply stable_ret| |apply stable_ret]. by apply stable_bind. Qed.

Lemma stable_modify f : (∀ s, I s → I (f s)) → stable (modify f).
Proof. constructor; [done|by constructor]. Qed.

Lemma stable_gets {A} (g : S → A) : stable (gets g).
Proof. by apply safe_gets. Qed.

Lemma stable_atomic {A} (f : S → S * A) :
  (∀ s, I s → I (f s).1) → stable (atomic f).
Proof. intros. apply safe_atomic. auto. Qed.

Lemma run_safe {A} (Q : A → Prop) (p : prog S A) s :
  safe Q p → I s → I (run p s).1 ∧ Q (run p s).2.
Proof. intros Hp. revert s. induction Hp; cbn; auto. Qed.

(** An invariant kept by every section of every program and by the
    environment holds in every reachable configuration, whatever the
    schedule. *)
Lemma reachable_invariant (c c' : config) :
  (∀ s s', env s s' → I s → I s') →
  (∀ p, call p → stable p) →
  rtc cstep c c' →
  I c.1 → Forall stable c.2 →
  I c'.1 ∧ Forall stable c'.2.
Proof.
  intros Henv Hcall. induction 1 as [|c1 c2 c3 Hstep _ IH]; [done|].
  intros HI Hts. apply IH; clear IH.
  - destruct Hstep as [s s' ts He|s ts p Hp|s ts i f k Hi]; cbn in *; eauto.
    assert (Hs : stable (Step f k)) by (eapply Forall_lookup_1; eauto).
    inversion Hs; subst; auto.
  - destruct Hstep as [s s' ts He|s ts p Hp|s ts i f k Hi]; cbn in *; eauto.
    + apply Forall_app. auto.
    + apply Forall_insert; [done|].
      assert (Hs : stable (Step f k)) by (eapply Forall_lookup_1; eauto).
      inversion Hs; subst. unfold stable. auto.
Qed.

(** Any number of goroutines can be started. *)
Lemma go_all s ts ps : Forall call ps → rtc cstep (s, ts) (s, ts ++ ps).
Proof.
  revert ts. induction ps as [|p ps IH]; intros ts Hps; [by rewrite app_nil_r|].
  apply Forall_cons in Hps as [Hp Hps].
  eapply rtc_l; [by apply (cstep_go s ts p)|].
  replace (ts ++ p :: ps) with ((ts ++ [p]) ++ ps) by (by rewrite <- app_assoc). by apply IH.
Qed.

(** A schedule given as the list of goroutines that run their next section. *)
Fixpoint sched (order : list nat) (c : config) : config :=
  match order with
  | [] => c
  | i :: order =>
      sched order
        match c.2 !! i with
        | Some (Step f k) => (f c.1, <[i := k c.1]> c.2)
        | _ => c
        end
  end.

Lemma sched_reachable order c : rtc cstep c (sched order c).
Proof.
  revert c. induction order as [|i order IH]; intros [s ts]; [done|]. cbn [sched fst snd].
  destruct (ts !! i) as [[a|f k]|] eqn:E; [apply IH| |apply IH].
  eapply rtc_l; [by apply cstep_section with (f := f) (k := k)|apply IH].
Qed.

(** Every finite run of one goroutine alone is one of its interleavings. *)
Lemma run_reachable (p : prog S unit) s ts1 ts2 :
  rtc cstep (s, ts1 ++ p :: ts2) ((run p s).1, ts1 ++ Ret (run p s).2 :: ts2).
Proof.
  revert s. induction p as [a|f k IH]; intros s; [done|]. cbn [run].
  eapply rtc_l; [|apply IH].
  assert (Hts : ts1 ++ k s :: ts2 = <[length ts1 := k s]> (ts1 ++ Step f k :: ts2)).
  { rewrite insert_app_r_alt, Nat.sub_diag by lia. done. }
  rewrite Hts. apply (cstep_section _ _ _ f k).
  rewrite lookup_app_r, Nat.sub_diag by lia. done.
Qed.
End interleaving.

(** Proving [stable] goals section by section; what is left are the sections
    that change the state. *)
Create HintDb stable.
#[export] Hint Resolve stable_ret stable_bind stable_for_each stable_gets : stable.

Ltac stable_step :=
  match goal with
  | |- stable _ (Ret _) => apply stable_ret
  | |- stable _ (mret _) => apply stable_ret
  | |- stable _ (_ ≫= _) => apply stable_bind; [|intros ?]
  | |- stable _ (for_each _ _) => apply stable_for_each; intros ? ?
  | |- stable _ (gets _) => apply stable_gets
  | |- stable _ (modify _) => apply stable_modify; intros ? ?
  | |- stable _ (atomic _) => apply stable_atomic; intros ? ?
  | |- stable _ (match ?x with _ => _ end) => destruct x
  | |- stable _ _ => solve [eauto with stable]
  end.
