(* ===== verification/Compose.v ===== *)
(** * Programs over a part of a larger state

    A node is made of components, each with its own state, locks and methods.
    This file puts them together: [weave] runs a method of one component inside
    the state of the whole, calling back into other components when the method
    does; [sim] says that a program of the whole makes, for one component, a
    sequence of calls of its methods; [cstep_project] is the theorem that makes
    everything proved about a component alone true of it inside the whole. *)

From S2P Require Import Prelude Prog.

(** ** Parts *)

Record lens (T S : Type) := mkLens { view : T → S; put_in : S → T → T }.
Arguments mkLens {T S} _ _.
Arguments view {T S} _ _.
Arguments put_in {T S} _ _ _.

Class LensLaws {T S} (l : lens T S) := {
  view_put s t : view l (put_in l s t) = s;
  put_put s s' t : put_in l s (put_in l s' t) = put_in l s t
}.

(** Two parts that have nothing in common. *)
Class Apart {T S U} (l : lens T S) (l' : lens T U) := {
  view_other u t : view l (put_in l' u t) = view l t;
  view_other' s t : view l' (put_in l s t) = view l' t;
  put_other s u t : put_in l' u (put_in l s t) = put_in l s (put_in l' u t)
}.

(** ** What holds of every section of a program *)

Inductive all_sections {S} (P : (S → S) → Prop) {A} : prog S A → Prop :=
| all_Ret a : all_sections P (Ret a)
| all_Step f k : P f → (∀ s, all_sections P (k s)) → all_sections P (Step f k).

Section all_sections.
Context {S : Type} (P : (S → S) → Prop).

Lemma all_ret {A} (a : A) : all_sections P (mret a).
Proof. constructor. Qed.

Lemma all_bind {A B} (p : prog S A) (k : A → prog S B) :
  all_sections P p → (∀ a, all_sections P (k a)) → all_sections P (p ≫= k).
Proof. intros Hp Hk. induction Hp as [a|f k' Hf _ IH]; [apply Hk|]. by constructor. Qed.

Lemma all_modify f : P f → all_sections P (modify f).
Proof. constructor; [done|constructor]. Qed.

Lemma all_gets {A} (g : S → A) : P id → all_sections P (gets g).
Proof. constructor; [done|constructor]. Qed.

Lemma all_atomic {A} (f : S → S * A) : P (λ s, (f s).1) → all_sections P (atomic f).
Proof. constructor; [done|constructor]. Qed.

Lemma all_for_each {A} (l : list A) (body : A → prog S unit) :
  (∀ x, all_sections P (body x)) → all_sections P (for_each l body).
Proof. intros Hb. induction l as [|x l IH]; [constructor|]. apply all_bind; [apply Hb|done]. Qed.

Lemma all_ticker (body : prog S unit) sigs : all_sections P body → all_sections P (ticker_loop body sigs).
Proof. intros Hb. induction sigs as [|[] sigs IH]; [constructor| |constructor]. by apply all_bind. Qed.

Lemma all_reader {M} (body : M → prog S unit) next :
  (∀ msg, all_sections P (body msg)) → all_sections P (read_loop body next).
Proof. intros Hb. induction next as [|[msg|] next IH]; [constructor| |constructor]. by apply all_bind. Qed.
End all_sections.

Create HintDb sections.
#[export] Hint Resolve all_ret all_bind all_modify all_gets all_atomic all_for_each all_ticker all_reader : sections.

(** ** A method of a part, run in the whole

    [log] is what the part has done to the outside so far, and [on] the code of
    the whole that runs for each thing it does: what a section adds to the log
    is handled before the next section. *)
Section weave.
Context {T S E : Type} (l : lens T S) (log : S → list E) (on : E → prog T unit).

Definition news (s s' : S) : list E := drop (length (log s)) (log s').

Fixpoint weave {A} (p : prog S A) : prog T A :=
  match p with
  | Ret a => Ret a
  | Step f k =>
      Step (λ t, put_in l (f (view l t)) t)
        (λ t, for_each (news (view l t) (f (view l t))) on;; weave (k (view l t)))
  end.
End weave.

(** A method that does nothing to the outside. *)
Definition zoom {T S A} (l : lens T S) (p : prog S A) : prog T A :=
  weave l (λ _, @nil unit) (λ _, Ret tt) p.

(** ** Running alone *)

Section run_weave.
Context {T S E : Type} (l : lens T S) `{!LensLaws l} (log : S → list E) (on : E → prog T unit).

(** The log only grows. *)
Definition appends (f : S → S) : Prop := ∀ s, ∃ evs, log (f s) = log s ++ evs.

Lemma appends_same f : (∀ s, log (f s) = log s) → appends f.
Proof. intros Hf s. exists []. by rewrite Hf, app_nil_r. Qed.

Lemma run_appends {A} (p : prog S A) s :
  all_sections appends p → ∃ evs, log (run p s).1 = log s ++ evs.
Proof.
  intros Hp. revert s. induction Hp as [a|f k Hf _ IH]; intros s; [by exists []; rewrite app_nil_r|].
  destruct (Hf s) as [evs He]. destruct (IH s (f s)) as [evs' He']. exists (evs ++ evs').
  cbn [run]. by rewrite He', He, (assoc_L app).
Qed.

Lemma news_app (s s1 s2 : S) evs evs' :
  log s1 = log s ++ evs → log s2 = log s1 ++ evs' → news log s s2 = news log s s1 ++ news log s1 s2.
Proof.
  intros H1 H2. unfold news. rewrite H2, drop_app_length, H1, drop_app_length.
  by rewrite <- (assoc_L app), drop_app_length.
Qed.

(** A callback runs beside the part, without touching or reading it. *)
Definition beside : Prop :=
  ∀ e, (∀ t, view l (run (on e) t).1 = view l t) ∧
       (∀ s t, (run (on e) (put_in l s t)).1 = put_in l s (run (on e) t).1).

Definition callbacks (evs : list E) (t : T) : T := foldl (λ t e, (run (on e) t).1) t evs.

Lemma callbacks_beside evs s t :
  beside →
  view l (callbacks evs t) = view l t ∧ callbacks evs (put_in l s t) = put_in l s (callbacks evs t).
Proof.
  intros Hon. unfold callbacks. revert t. induction evs as [|e evs IH]; intros t; [done|]. cbn [foldl].
  destruct (Hon e) as [Hv Hp]. rewrite Hp. destruct (IH (run (on e) t).1) as [-> ->]. done.
Qed.

(** Alone, a method run in the whole does what it does to its part, and the
    callbacks for what it did to the outside follow, in order. *)
Lemma run_weave {A} (p : prog S A) t :
  beside → all_sections appends p → put_in l (view l t) t = t →
  let s := view l t in
  run (weave l log on p) t = (callbacks (news log s (run p s).1) (put_in l (run p s).1 t), (run p s).2).
Proof.
  intros Hon Hp. cbn zeta. revert t. induction Hp as [a|f k Hf Hk IH]; intros t Ht.
  { cbn. unfold news. by rewrite drop_all, Ht. }
  cbn [weave run]. rewrite run_bind. set (v := view l t) in *.
  rewrite run_for_each. fold (callbacks (news log v (f v)) (put_in l (f v) t)).
  set (ev1 := news log v (f v)).
  destruct (callbacks_beside ev1 (f v) t Hon) as [Hv1 Hp1].
  destruct (callbacks_beside ev1 (f v) (put_in l (f v) t) Hon) as [Hv2 _]. rewrite view_put in Hv2.
  rewrite IH, Hv2 by (rewrite Hp1, view_put; apply put_put). f_equal.
  rewrite Hp1, put_put.
  destruct (callbacks_beside ev1 (run (k v) (f v)).1 t Hon) as [_ Hp2]. rewrite <- Hp2.
  destruct (Hf v) as [evs He]. destruct (run_appends (k v) (f v)) as [evs' He']; [apply Hk|].
  rewrite (news_app _ _ _ _ _ He He'). fold ev1. unfold callbacks. by rewrite foldl_app.
Qed.
End run_weave.

Lemma run_zoom {T S A} (l : lens T S) `{!LensLaws l} (p : prog S A) t :
  put_in l (view l t) t = t →
  run (zoom l p) t = (put_in l (run p (view l t)).1 t, (run p (view l t)).2).
Proof.
  intros Ht. unfold zoom. rewrite (run_weave l (λ _, @nil unit) (λ _, Ret tt)); [done|done| |done].
  clear Ht. induction p as [a|f k IH]; constructor; [by apply appends_same|done].
Qed.

(** A callback that runs a method of another part is beside this one. *)
Lemma zoom_beside {T S U E} (l : lens T S) (l' : lens T U) `{!LensLaws l', !Apart l l'} (q : E → prog U unit) :
  beside l (λ e, zoom l' (q e)).
Proof.
  intros e. unfold zoom. split.
  - induction (q e) as [a|f k IH]; intros t; [done|]. cbn [weave run]. rewrite run_bind. cbn.
    by rewrite IH, view_other.
  - induction (q e) as [a|f k IH]; intros s t; [done|]. cbn [weave run]. rewrite !run_bind. cbn.
    by rewrite view_other', put_other, IH.
Qed.

(** ** What the whole does to one part *)

Section simulation.
Context {T S : Type} (view : T → S) (call : prog S unit → Prop).

(** A section that leaves the part alone. *)
Definition away (f : T → T) : Prop := ∀ t, view (f t) = view t.

(** [sim P o]: the sections of [P] do to the part what the call [o] does that
    is under way, and then what further calls do, one at a time. *)
Inductive sim {A} : prog T A → option (prog S unit) → Prop :=
| sim_ret a o : sim (Ret a) o
| sim_away f k o : away f → (∀ t, sim (k t) o) → sim (Step f k) o
| sim_step f k g h :
    (∀ t, view (f t) = g (view t)) → (∀ t, sim (k t) (Some (h (view t)))) →
    sim (Step f k) (Some (Step g h))
| sim_call P q o : call q → sim P (Some q) → sim P o.

(** What needs no call under way can follow any. *)
Lemma sim_any {A} (P : prog T A) o : sim P None → sim P o.
Proof.
  assert (Hgen : ∀ o', sim P o' → o' = None → sim P o); [|by eauto].
  induction 1 as [a o'|f k o' Hf _ IH|f k g h _ _ _|P q o' Hq HP _]; intros Ho;
    [constructor| |done|by eapply sim_call].
  constructor; [done|]. intros t. by apply IH.
Qed.

Lemma sim_bind {A B} (p : prog T A) (K : A → prog T B) o :
  sim p o → (∀ a, sim (K a) None) → sim (p ≫= K) o.
Proof.
  intros Hp HK. induction Hp as [a o|f k o Hf _ IH|f k g h Hf _ IH|P q o Hq _ IH].
  - exact (sim_any (K a) o (HK a)).
  - by apply sim_away.
  - by apply sim_step.
  - by eapply sim_call.
Qed.

Lemma sim_away_bind {A B} (p : prog T A) (K : A → prog T B) o :
  all_sections away p → (∀ a, sim (K a) o) → sim (p ≫= K) o.
Proof. intros Hp HK. induction Hp as [a|f k Hf _ IH]; [apply HK|]. by constructor. Qed.

Lemma sim_away_all {A} (p : prog T A) o : all_sections away p → sim p o.
Proof. induction 1; by constructor. Qed.

(** The same, under another bind. *)
Lemma sim_away_bind2 {A B C} (p : prog T A) (b : A → prog T B) (K : B → prog T C) o :
  all_sections away p → (∀ a, sim (b a ≫= K) o) → sim ((p ≫= b) ≫= K) o.
Proof. intros Hp HK. induction Hp as [a|f k Hf _ IH]; [apply HK|]. by constructor. Qed.

Lemma sim_ticker (body : prog T unit) sigs : sim body None → sim (ticker_loop body sigs) None.
Proof. intros Hb. induction sigs as [|[] sigs IH]; [constructor| |constructor]. by apply sim_bind. Qed.

Lemma sim_reader {M} (body : M → prog T unit) next :
  (∀ msg, sim (body msg) None) → sim (read_loop body next) None.
Proof. intros Hb. induction next as [|[msg|] next IH]; [constructor| |constructor]. by apply sim_bind. Qed.

Lemma sim_for_each {X} (xs : list X) (body : X → prog T unit) :
  (∀ x, sim (body x) None) → sim (for_each xs body) None.
Proof. intros Hb. induction xs; [constructor|]. by apply sim_bind. Qed.
End simulation.

(** A method of the part, run in the whole, is that method. *)
Section sim_weave.
Context {T S E : Type} (l : lens T S) `{!LensLaws l} (call : prog S unit → Prop).
Context (log : S → list E) (on : E → prog T unit).
Context (Hon : ∀ e, all_sections (away (view l)) (on e)).

Lemma sim_weave_step {A B} (p : prog S A) (K : A → prog T B) (g : A → prog S unit) :
  (∀ a, sim (view l) call (K a) (Some (g a))) →
  sim (view l) call (weave l log on p ≫= K) (Some (p ≫= g)).
Proof.
  intros HK. induction p as [a|f k IH]; [apply HK|].
  apply sim_step; [intros t; apply view_put|]. intros t.
  apply sim_away_bind2; [by apply all_for_each|]. intros _. apply IH.
Qed.

(** A program of the part that makes calls. *)
Lemma sim_weave_bind {A B} (p : prog S A) (K : A → prog T B) o :
  sim (λ s, s) call p o → (∀ a, sim (view l) call (K a) None) → sim (view l) call (weave l log on p ≫= K) o.
Proof.
  intros Hp HK.
  assert (Hk : ∀ t f (q : prog S A) o, sim (view l) call (weave l log on q ≫= K) o →
    sim (view l) call ((for_each (news log (view l t) (f (view l t))) on;; weave l log on q) ≫= K) o).
  { intros. apply sim_away_bind2; [by apply all_for_each|]. by intros _. }
  induction Hp as [a o|f k o Hf _ IH|f k g h Hf _ IH|p q o Hq _ IH].
  - exact (sim_any _ _ (K a) o (HK a)).
  - apply sim_away; [intros t; cbn; by rewrite view_put|]. intros t. apply Hk, IH.
  - apply sim_step; [intros t; cbn; by rewrite view_put, Hf|]. intros t. apply Hk, IH.
  - by eapply sim_call.
Qed.

Lemma sim_weave {A} (p : prog S A) o : sim (λ s, s) call p o → sim (view l) call (weave l log on p) o.
Proof.
  induction 1 as [a o|f k o Hf _ IH|f k g h Hf _ IH|p q o Hq _ IH].
  - constructor.
  - apply sim_away; [intros t; cbn; by rewrite view_put|]. intros t. apply sim_away_bind; [by apply all_for_each|by intros _].
  - apply sim_step; [intros t; cbn; by rewrite view_put, Hf|]. intros t.
    apply sim_away_bind; [by apply all_for_each|by intros _].
  - by eapply sim_call.
Qed.
End sim_weave.

(** A call of the part is a program of the part that makes one call. *)
Section calls.
Context {S : Type} (call : prog S unit → Prop).

Lemma sim_self {A} (p : prog S A) (g : A → prog S unit) : sim (λ s, s) call p (Some (p ≫= g)).
Proof. induction p as [a|f k IH]; [constructor|]. by apply sim_step. Qed.

Lemma sim_self_unit (p : prog S unit) : call p → sim (λ s, s) call p None.
Proof. intros Hp. eapply sim_call; [exact Hp|]. clear Hp. induction p as [a|f k IH]; [constructor|]. by apply sim_step. Qed.

Lemma sim_self_value {A} (p : prog S A) : call (_ ← p; mret tt) → sim (λ s, s) call p None.
Proof. intros Hp. eapply sim_call; [exact Hp|]. apply sim_self. Qed.

Lemma sim_gets {A} (g : S → A) : sim (λ s, s) call (gets g) None.
Proof. apply sim_away; [by intros t|]. constructor. Qed.
End calls.

(** The methods of another part leave this one alone. *)
Lemma zoom_away {T S U A} (l : lens T S) (l' : lens T U) `{!Apart l l'} (p : prog U A) :
  all_sections (away (view l)) (zoom l' p).
Proof.
  unfold zoom. induction p as [a|f k IH]; [constructor|]. constructor; [intros t; apply view_other|]. intros t. apply IH.
Qed.

Lemma weave_away {T S U E A} (l : lens T S) (l' : lens T U) `{!Apart l l'} (log : U → list E) (on : E → prog T unit)
    (p : prog U A) :
  (∀ e, all_sections (away (view l)) (on e)) → all_sections (away (view l)) (weave l' log on p).
Proof.
  intros Hon. induction p as [a|f k IH]; [constructor|]. constructor; [intros t; apply view_other|].
  intros t. apply all_bind; [by apply all_for_each|done].
Qed.

(** Their callbacks may call this one. *)
Section callback_calls.
Context {T S U E : Type} (l : lens T S) (l' : lens T U) `{!Apart l l'} (call : prog S unit → Prop).
Context (log : U → list E) (on : E → prog T unit).
Context (Hon : ∀ e, sim (view l) call (on e) None).

Lemma sim_callbacks {A} (p : prog U A) : sim (view l) call (weave l' log on p) None.
Proof.
  induction p as [a|f k IH]; [constructor|]. apply sim_away; [intros t; apply view_other|].
  intros t. apply sim_bind; [by apply sim_for_each|by intros _].
Qed.
End callback_calls.

(** ** Invariants of a part *)

Section part_invariant.
Context {T S : Type} (l : lens T S) `{!LensLaws l} (I : S → Prop).

#[local] Abbreviation of_part := (λ t, I (view l t)).

Lemma stable_away {A} (p : prog T A) : all_sections (away (view l)) p → stable of_part p.
Proof.
  induction 1 as [a|f k Hf _ IH]; [by apply stable_ret|].
  apply safe_Step; [intros t; by rewrite Hf|intros t _; apply IH].
Qed.

Lemma safe_weave {E A} (log : S → list E) (on : E → prog T unit) (Q : A → Prop) (p : prog S A) :
  (∀ e, all_sections (away (view l)) (on e)) → safe I Q p → safe of_part Q (weave l log on p).
Proof.
  intros Hon Hp. induction Hp as [a Ha|f k Hf _ IH]; [by constructor|].
  constructor; [intros t Ht; rewrite view_put; by apply Hf|]. intros t Ht.
  eapply safe_bind; [apply stable_away; by apply all_for_each|]. intros _ _. by apply IH.
Qed.
End part_invariant.

(** ** Projection *)

Section projection.
Context {T S : Type} (view : T → S).
Context (envT : T → T → Prop) (callT : prog T unit → Prop).
Context (envS : S → S → Prop) (callS : prog S unit → Prop).
Context (Henv : ∀ t t', envT t t' → view t' = view t ∨ envS (view t) (view t')).
Context (Hcall : ∀ P, callT P → sim view callS P None).
Context (s0 : S).

(** The part can get into [s] with the goroutines [M], in any order. *)
Definition gets_to (s : S) (M : list (prog S unit)) : Prop :=
  ∃ ts, ts ≡ₚ M ∧ rtc (cstep envS callS) (s0, []) (s, ts).

#[local] Instance gets_to_Proper s : Proper ((≡ₚ) ==> iff) (gets_to s).
Proof. intros M M' HM. unfold gets_to. by setoid_rewrite HM. Qed.

Lemma gets_to_env s s' M : gets_to s M → envS s s' → gets_to s' M.
Proof.
  intros (ts & Hts & Hr) He. exists ts. split; [done|]. eapply rtc_r; [exact Hr|]. by constructor.
Qed.

Lemma gets_to_call s M q : gets_to s M → callS q → gets_to s (q :: M).
Proof.
  intros (ts & Hts & Hr) Hq. exists (ts ++ [q]). split; [by rewrite Hts, Permutation_app_comm|].
  eapply rtc_r; [exact Hr|]. by constructor.
Qed.

Lemma gets_to_section s M f k : gets_to s (Step f k :: M) → gets_to (f s) (k s :: M).
Proof.
  intros (ts & Hts & Hr).
  assert (Hin : Step f k ∈ ts) by (rewrite Hts; by left).
  apply list_elem_of_lookup in Hin as [i Hi]. exists (<[i := k s]> ts). split.
  - rewrite <- (take_drop_middle ts i _ Hi) in Hts.
    rewrite insert_take_drop by (by eapply lookup_lt_Some).
    rewrite <- Permutation_middle in Hts. apply Permutation_cons_inv in Hts.
    by rewrite <- Permutation_middle, Hts.
  - eapply rtc_r; [exact Hr|]. by apply cstep_section with (f := f) (k := k).
Qed.

(** The calls under way are those of the goroutines of the whole; others have
    been left. *)
Lemma sim_section {A} f (k : T → prog T A) o t M :
  sim view callS (Step f k) o → gets_to (view t) (option_list o ++ M) →
  ∃ o' left, sim view callS (k t) o' ∧ gets_to (view (f t)) (option_list o' ++ left ++ M).
Proof.
  intros Hs. remember (Step f k) as P eqn:EP. revert M EP.
  induction Hs as [a o|f' k' o Hf Hk _|f' k' g h Hf Hk _|P q o Hq _ IH]; intros M EP Hg; [done| | |].
  - injection EP as -> ->. exists o, []. split; [apply Hk|]. by rewrite Hf.
  - injection EP as -> ->. exists (Some (h (view t))), []. split; [apply Hk|]. rewrite Hf.
    by apply (gets_to_section _ _ g h).
  - destruct (IH (option_list o ++ M) EP) as (o' & left & Ho' & Hg').
    + cbn. by apply gets_to_call.
    + exists o', (left ++ option_list o). split; [done|]. by rewrite <- (assoc_L app).
Qed.

Definition under_way (slots : list (option (prog S unit))) : list (prog S unit) := slots ≫= option_list.

Lemma under_way_at slots i o :
  slots !! i = Some o → under_way slots ≡ₚ option_list o ++ (under_way (take i slots) ++ under_way (drop (Datatypes.S i) slots)).
Proof.
  intros Hi. rewrite <- (take_drop_middle slots i o Hi) at 1. unfold under_way.
  rewrite bind_app, bind_cons. rewrite !(assoc_L app). by rewrite (Permutation_app_comm (_ ≫= _) (option_list o)).
Qed.

Definition follows (c : config (S := T)) : Prop :=
  ∃ slots left, Forall2 (sim view callS) c.2 slots ∧ gets_to (view c.1) (under_way slots ++ left).

Lemma follows_step c c' : cstep envT callT c c' → follows c → follows c'.
Proof.
  intros Hstep (slots & left & HF & Hg). destruct Hstep as [t t' Ts He|t Ts P HP|t Ts i f k Hi]; unfold follows; cbn [fst snd] in *.
  - exists slots, left. split; [done|]. destruct (Henv _ _ He) as [Hv|Hs]; [by rewrite Hv|]. by eapply gets_to_env.
  - exists (slots ++ [None]), left. split; [apply Forall2_app; [done|]; constructor; [by apply Hcall|constructor]|].
    unfold under_way in *. rewrite bind_app. cbn. by rewrite app_nil_r.
  - destruct (Forall2_lookup_l _ _ _ _ _ HF Hi) as (o & Ho & Hs).
    rewrite (under_way_at _ _ _ Ho), <- (assoc_L app) in Hg.
    destruct (sim_section _ _ _ _ _ Hs Hg) as (o' & dead & Hs' & Hg').
    exists (<[i := o']> slots), (dead ++ left). split; [by apply Forall2_insert|].
    assert (Hi' : <[i := o']> slots !! i = Some o') by (apply list_lookup_insert_eq; by eapply lookup_lt_Some).
    rewrite (under_way_at _ _ _ Hi'), take_insert_ge, drop_insert_lt by lia.
    revert Hg'. rewrite <- !(assoc_L app). intros Hg'. eapply gets_to_Proper; [|exact Hg'].
    f_equiv. rewrite (Permutation_app_swap_app dead). f_equiv. symmetry. apply Permutation_app_swap_app.
Qed.

(** A part of a whole can only get where it can get alone: what every
    configuration reachable for the component satisfies, its state satisfies
    inside the whole. *)
Theorem cstep_project t0 t Ts :
  view t0 = s0 → rtc (cstep envT callT) (t0, []) (t, Ts) → ∃ ts, rtc (cstep envS callS) (s0, []) (view t, ts).
Proof.
  intros H0 Hr.
  assert (Hf : follows (t, Ts)).
  { eapply (rtc_ind_r (follows)); [|intros c c' _ Hs Hf; by eapply follows_step|exact Hr].
    exists [], []. split; [constructor|]. cbn. rewrite H0. exists []. split; [done|apply rtc_refl]. }
  destruct Hf as (slots & left & _ & ts & _ & Hts). by exists ts.
Qed.
End projection.

(** ** Facts that last

    [from s0 p]: whenever [p] is started in a state at or after [s0], each of its
    sections keeps the invariant [I] and moves on in the order [le]. What held
    in [s0], and lasts, can be used in every section. *)
Section lasting.
Context {S : Type} (I : S → Prop) (le : S → S → Prop) `{!PreOrder le}.

Inductive from {A} (s0 : S) : prog S A → Prop :=
| from_Ret a : from s0 (Ret a)
| from_Step f k :
    (∀ s, le s0 s → I s → I (f s)) → (∀ s, le s0 s → I s → le s (f s)) →
    (∀ s, le s0 s → I s → from (f s) (k s)) → from s0 (Step f k).

Lemma from_later {A} s0 s1 (p : prog S A) : le s0 s1 → from s0 p → from s1 p.
Proof. intros Hle. destruct 1 as [a|f k HI Hf Hk]; [constructor|]. constructor; intros s Hs; [apply HI|apply Hf|apply Hk]; by etrans. Qed.

Lemma from_bind {A B} s0 (p : prog S A) (K : A → prog S B) :
  from s0 p → (∀ a s, le s0 s → from s (K a)) → from s0 (p ≫= K).
Proof.
  intros Hp. induction Hp as [s0 a|s0 f k HI Hf _ IH]; intros HK; [by apply HK|].
  constructor; [done|done|]. intros s Hs Hi. apply IH; [done|done|]. intros a s' Hs'. apply HK.
  etrans; [exact Hs|]. etrans; [by apply Hf|done].
Qed.

Lemma from_for_each {X} s0 (l : list X) (body : X → prog S unit) :
  (∀ x s, x ∈ l → le s0 s → from s (body x)) → from s0 (for_each l body).
Proof.
  revert s0. induction l as [|x l IH]; intros s0 Hb; [constructor|]. cbn [for_each].
  apply from_bind; [apply Hb; [by left|done]|]. intros _ s Hs. apply IH. intros y s' Hy Hs'.
  apply Hb; [by right|by etrans].
Qed.

Lemma from_gets {A} s0 (g : S → A) : from s0 (gets g).
Proof. constructor; [by intros|by intros|]. intros. constructor. Qed.

(** Sections that need no such fact. *)
Definition keeps_on (f : S → S) : Prop := ∀ s, I s → I (f s) ∧ le s (f s).

Lemma from_all {A} s0 (p : prog S A) : all_sections keeps_on p → from s0 p.
Proof.
  intros Hp. revert s0. induction Hp as [a|f k Hf _ IH]; intros s0; [constructor|].
  constructor; [intros s _ Hs; by apply Hf..|]. intros s _ _. apply IH.
Qed.

(** The invariant holds in every reachable configuration, and what lasts,
    lasts. *)
Lemma reachable_from (env : S → S → Prop) (call : prog S unit → Prop) s0 s ts :
  (∀ s s', env s s' → I s → I s' ∧ le s s') → (∀ p s, call p → from s p) →
  I s0 → rtc (cstep env call) (s0, []) (s, ts) → I s ∧ le s0 s.
Proof.
  intros Henv Hcall H0 Hr.
  assert (Hgen : ∀ c, rtc (cstep env call) (s0, []) c → I c.1 ∧ le s0 c.1 ∧ Forall (from c.1) c.2).
  { apply rtc_ind_r; [by split_and!|]. clear Hr s ts. intros c c' _ Hstep (HI & Hle & Hts).
    destruct Hstep as [s s' ts He|s ts p Hp|s ts i f k Hi]; cbn [fst snd] in *.
    - destruct (Henv _ _ He HI) as [HI' Hle']. split_and!; [done|by etrans|].
      eapply Forall_impl; [exact Hts|]. intros p. by apply from_later.
    - split_and!; [done|done|]. apply Forall_app. split; [done|]. constructor; [by apply Hcall|constructor].
    - assert (Hs : from s (Step f k)) by (eapply Forall_lookup_1; eauto).
      inversion Hs as [|? ? HI' Hf Hk]; subst. split_and!; [by apply HI'|etrans; [exact Hle|by apply Hf]|].
      apply Forall_insert; [|by apply Hk]. eapply Forall_impl; [exact Hts|]. intros p. apply from_later. by apply Hf. }
  destruct (Hgen _ Hr) as (? & ? & _). done.
Qed.
End lasting.
