(* ===== verification/GoStrings.v ===== *)
(** * Go's [strings], [bytes], [encoding/binary] and [encoding/hex], as far as
    the node uses them *)

From S2P Require Import Prelude.
From Stdlib Require Import Ascii String.

#[local] Open Scope list_scope.
#[local] Open Scope nat_scope.

(** ** Bytes *)

(** [byte(n)]: the low eight bits. *)
Definition to_byte (n : N) : ascii := ascii_of_N (n mod 256).
Definition of_byte (a : ascii) : N := N_of_ascii a.

(** [binary.BigEndian.PutUint16] and [Uint16] on two bytes. *)
Definition PutUint16 (v : N) : string :=
  String (to_byte (N.shiftr v 8)) (String (to_byte v) EmptyString).
Definition Uint16 (hi lo : ascii) : N := N.lor (of_byte lo) (N.shiftl (of_byte hi) 8).

(** The first [n] bytes and the rest, if there are as many. *)
Fixpoint split_at (n : nat) (s : string) : option (string * string) :=
  match n, s with
  | O, _ => Some (EmptyString, s)
  | S n, String a s => '(x, y) ← split_at n s; Some (String a x, y)
  | S _, EmptyString => None
  end.

(** ** Prefixes *)

(** [strings.HasPrefix(s, p)] and [strings.TrimPrefix(s, p)]: the rest of [s]
    after [p], if [s] starts with it. *)
Fixpoint cut_prefix (p s : string) : option string :=
  match p, s with
  | EmptyString, _ => Some s
  | String a p, String b s => if Ascii.eqb a b then cut_prefix p s else None
  | String _ _, EmptyString => None
  end.

(** [strings.Contains(s, sub)] *)
Fixpoint Contains (s sub : string) : bool :=
  match cut_prefix sub s with
  | Some _ => true
  | None => match s with EmptyString => false | String _ s => Contains s sub end
  end.

(** ** [strings.TrimSpace]

    White space is what [unicode.IsSpace] says, in UTF-8: one byte for the ASCII
    ones, two for U+0085 and U+00A0, three for the others. *)
Definition space1 (a : ascii) : bool :=
  let n := of_byte a in ((9 <=? n) && (n <=? 13) || (n =? 32))%N.
Definition space2 (a b : ascii) : bool :=
  ((of_byte a =? 194) && ((of_byte b =? 133) || (of_byte b =? 160)))%N.
Definition space3 (a b c : ascii) : bool :=
  let b' := of_byte b in let c' := of_byte c in
  ((of_byte a =? 225) && (b' =? 154) && (c' =? 128)
   || (of_byte a =? 226) && (b' =? 128)
        && ((128 <=? c') && (c' <=? 138) || (c' =? 168) || (c' =? 169) || (c' =? 175))
   || (of_byte a =? 226) && (b' =? 129) && (c' =? 159)
   || (of_byte a =? 227) && (b' =? 128) && (c' =? 128))%N.

(** Dropping white space at the front, for a given notion of it. *)
Section trim.
Variables (one : ascii → bool) (two : ascii → ascii → bool) (three : ascii → ascii → ascii → bool).

Fixpoint trim_front (l : list ascii) : list ascii :=
  match l with
  | [] => []
  | a :: l1 =>
      if one a then trim_front l1
      else
        match l1 with
        | [] => l
        | b :: l2 =>
            if two a b then trim_front l2
            else match l2 with
                 | [] => l
                 | c :: l3 => if three a b c then trim_front l3 else l
                 end
        end
  end.
End trim.

Definition TrimSpace (s : string) : string :=
  let l := trim_front space1 space2 space3 (list_ascii_of_string s) in
  let r := trim_front space1 (λ b a, space2 a b) (λ c b a, space3 a b c) (reverse l) in
  string_of_list_ascii (reverse r).

(** One white space character. *)
Definition is_space (s : string) : bool :=
  match list_ascii_of_string s with
  | [a] => space1 a
  | [a; b] => space2 a b
  | [a; b; c] => space3 a b c
  | _ => false
  end.

Fixpoint concat_strings (l : list string) : string :=
  match l with [] => EmptyString | s :: l => String.append s (concat_strings l) end.

(** ** Lemmas *)

Lemma of_to_byte n : (n < 256)%N → of_byte (to_byte n) = n.
Proof. intros ?. unfold of_byte, to_byte. rewrite N.mod_small by done. by apply N_ascii_embedding. Qed.

Lemma of_byte_lt a : (of_byte a < 256)%N.
Proof. apply N_ascii_bounded. Qed.

Lemma Uint16_PutUint16 v :
  (v <= 65535)%N → Uint16 (to_byte (N.shiftr v 8)) (to_byte v) = v.
Proof.
  intros ?. unfold Uint16.
  assert (Hlo : of_byte (to_byte v) = (v mod 256)%N).
  { unfold of_byte, to_byte. apply N_ascii_embedding. by apply N.mod_lt. }
  rewrite Hlo, of_to_byte by (rewrite N.shiftr_div_pow2; apply N.Div0.div_lt_upper_bound; lia).
  change 256%N with (2 ^ 8)%N. rewrite <- N.land_ones, N.lor_comm. apply N.bits_inj. intros i.
  rewrite N.lor_spec, N.land_spec.
  destruct (N.ltb_spec i 8).
  - rewrite N.ones_spec_low, N.shiftl_spec_low by done. by rewrite andb_true_r.
  - rewrite N.ones_spec_high, N.shiftl_spec_high' by done. rewrite N.shiftr_spec'.
    replace (i - 8 + 8)%N with i by lia. by rewrite andb_false_r, orb_false_r.
Qed.

Lemma to_of_byte a : to_byte (of_byte a) = a.
Proof.
  unfold to_byte. rewrite N.mod_small by apply of_byte_lt. unfold of_byte. apply ascii_N_embedding.
Qed.

Lemma PutUint16_Uint16 hi lo : PutUint16 (Uint16 hi lo) = String hi (String lo EmptyString).
Proof.
  unfold PutUint16, Uint16. pose proof (of_byte_lt hi). pose proof (of_byte_lt lo).
  assert (Hhi : N.shiftr (N.lor (of_byte lo) (N.shiftl (of_byte hi) 8)) 8 = of_byte hi).
  { rewrite N.shiftr_lor, N.shiftr_shiftl_l, N.shiftl_0_r by lia.
    rewrite (N.shiftr_div_pow2 (of_byte lo)), N.div_small by (cbn; lia). by rewrite N.lor_0_l. }
  assert (Hlo : (N.lor (of_byte lo) (N.shiftl (of_byte hi) 8) mod 256 = of_byte lo)%N).
  { change 256%N with (2 ^ 8)%N. rewrite <- N.land_ones, N.land_lor_distr_l, !N.land_ones.
    rewrite N.shiftl_mul_pow2, N.Div0.mod_mul, N.lor_0_r. by apply N.mod_small. }
  rewrite Hhi, to_of_byte. f_equal. f_equal. unfold to_byte. rewrite Hlo. apply ascii_N_embedding.
Qed.

Lemma append_cons a s t : String.append (String a s) t = String a (String.append s t).
Proof. done. Qed.

Lemma split_at_append s t : split_at (String.length s) (String.append s t) = Some (s, t).
Proof.
  induction s as [|a s IH]; [by destruct t|]. rewrite append_cons. cbn [String.length split_at].
  by rewrite IH.
Qed.

Lemma split_at_Some n s x y :
  split_at n s = Some (x, y) → s = String.append x y ∧ String.length x = n.
Proof.
  revert s x. induction n as [|n IH]; intros s x; cbn; [by intros [= <- <-]|].
  destruct s as [|a s]; [done|]. destruct (split_at n s) as [[x' y']|] eqn:E; [|done].
  intros [= <- <-]. apply IH in E as [-> <-]. done.
Qed.

Lemma cut_prefix_append p s : cut_prefix p (String.append p s) = Some s.
Proof. induction p as [|a p IH]; [by destruct s|]. rewrite append_cons. cbn. by rewrite Ascii.eqb_refl. Qed.

Lemma cut_prefix_Some p s r : cut_prefix p s = Some r → s = String.append p r.
Proof.
  revert s. induction p as [|a p IH]; intros s; cbn; [by intros [= <-]|].
  destruct s as [|b s]; [done|]. destruct (Ascii.eqb_spec a b) as [->|]; [|done].
  intros ->%IH. done.
Qed.

Lemma append_assoc s t u : String.append (String.append s t) u = String.append s (String.append t u).
Proof. induction s as [|a s IH]; [done|]. rewrite ?append_cons. cbn. by rewrite IH. Qed.

Lemma append_empty_r s : String.append s EmptyString = s.
Proof. induction s as [|a s IH]; [done|]. rewrite ?append_cons. cbn. by rewrite IH. Qed.

Lemma length_append s t : String.length (String.append s t) = String.length s + String.length t.
Proof. induction s as [|a s IH]; [done|]. rewrite ?append_cons. cbn. by rewrite IH. Qed.

Lemma list_of_append s t :
  list_ascii_of_string (String.append s t) = list_ascii_of_string s ++ list_ascii_of_string t.
Proof. induction s as [|a s IH]; [done|]. rewrite ?append_cons. cbn. by rewrite IH. Qed.

Lemma list_ascii_inj s t : list_ascii_of_string s = list_ascii_of_string t → s = t.
Proof.
  intros Heq. rewrite <- (string_of_list_ascii_of_string s), <- (string_of_list_ascii_of_string t).
  by rewrite Heq.
Qed.

Lemma append_inj_l p s t : String.append p s = String.append p t → s = t.
Proof.
  intros Heq%(f_equal list_ascii_of_string). rewrite !list_of_append in Heq.
  by apply list_ascii_inj, (app_inv_head (list_ascii_of_string p)).
Qed.

Lemma append_inj_r s t p : String.append s p = String.append t p → s = t.
Proof.
  intros Heq%(f_equal list_ascii_of_string). rewrite !list_of_append in Heq.
  by apply list_ascii_inj, (app_inv_tail (list_ascii_of_string p)).
Qed.

Section trim_lemmas.
Variables (one : ascii → bool) (two : ascii → ascii → bool) (three : ascii → ascii → ascii → bool).
Hypothesis two_not_one : ∀ a b, two a b = true → one a = false.
Hypothesis three_not : ∀ a b c, three a b c = true → one a = false ∧ two a b = false.

(** One white space character in front is dropped. *)
Definition space_of (l : list ascii) : bool :=
  match l with
  | [a] => one a | [a; b] => two a b | [a; b; c] => three a b c | _ => false
  end.

Lemma trim_front_space w l :
  space_of w = true → trim_front one two three (w ++ l) = trim_front one two three l.
Proof.
  destruct w as [|a [|b [|c [|? ?]]]]; cbn [space_of]; [done|intros H..|done].
  - cbn. by rewrite H.
  - cbn. rewrite (two_not_one _ _ H), H. done.
  - destruct (three_not _ _ _ H) as [H1 H2]. cbn. rewrite H1, H2, H. done.
Qed.

Lemma trim_front_spaces ws l :
  Forall (λ w, space_of w = true) ws →
  trim_front one two three (mjoin ws ++ l) = trim_front one two three l.
Proof.
  induction 1 as [|w ws Hw _ IH]; [done|]. cbn. rewrite <- (assoc_L app).
  rewrite trim_front_space by done. apply IH.
Qed.

Lemma trim_front_stop a l :
  one a = false → (∀ b, two a b = false) → (∀ b c, three a b c = false) →
  trim_front one two three (a :: l) = a :: l.
Proof. intros H1 H2 H3. cbn. rewrite H1. destruct l as [|b [|c l]]; by rewrite ?H2, ?H3. Qed.
End trim_lemmas.

(** A printable ASCII character. *)
Definition printable (a : ascii) : bool := (33 <=? of_byte a)%N && (of_byte a <=? 126)%N.

Lemma printable_not_space a :
  printable a = true →
  space1 a = false ∧ (∀ b, space2 a b = false) ∧ (∀ b c, space3 a b c = false) ∧
  (∀ b, space2 b a = false) ∧ (∀ b c, space3 c b a = false).
Proof.
  unfold printable, space1, space2, space3. intros [H1%N.leb_le H2%N.leb_le]%andb_true_iff.
  assert (Heq : ∀ k, (126 < k)%N → (of_byte a =? k)%N = false) by (intros k ?; apply N.eqb_neq; lia).
  assert (Hle : (128 <=? of_byte a)%N = false) by (apply N.leb_gt; lia).
  split_and!; intros; rewrite ?Heq, ?Hle by lia; rewrite ?andb_false_r; try done.
  rewrite (proj2 (N.leb_gt (of_byte a) 13)), (proj2 (N.eqb_neq _ _)) by lia. by rewrite andb_false_r.
Qed.

Lemma space2_inv a b : space2 a b = true → of_byte a = 194%N ∧ (of_byte b = 133%N ∨ of_byte b = 160%N).
Proof.
  unfold space2. rewrite andb_true_iff, orb_true_iff, !N.eqb_eq. done.
Qed.

Lemma space3_inv a b c :
  space3 a b c = true →
  (225 <= of_byte a <= 227)%N ∧ (128 <= of_byte b <= 154)%N ∧ (128 <= of_byte c <= 175)%N.
Proof.
  unfold space3. rewrite !orb_true_iff, !andb_true_iff, !orb_true_iff, !andb_true_iff, !N.eqb_eq, !N.leb_le.
  lia.
Qed.

Lemma space1_high a : (127 < of_byte a)%N → space1 a = false.
Proof.
  intros ?. unfold space1. rewrite (proj2 (N.leb_gt _ 13)), (proj2 (N.eqb_neq _ _)) by lia.
  by rewrite andb_false_r.
Qed.

Lemma list_of_concat ws :
  list_ascii_of_string (concat_strings ws) = mjoin (list_ascii_of_string <$> ws).
Proof. induction ws as [|w ws IH]; [done|]. cbn [concat_strings]. by rewrite list_of_append, IH. Qed.

Lemma reverse_mjoin {A} (ls : list (list A)) : reverse (mjoin ls) = mjoin (reverse (reverse <$> ls)).
Proof.
  induction ls as [|l ls IH]; [done|]. rewrite fmap_cons, reverse_cons, join_app, <- IH.
  change (mjoin (l :: ls)) with (l ++ mjoin ls). rewrite reverse_app. f_equal.
  symmetry. apply app_nil_r.
Qed.

(** White space around a text that starts and ends with printable characters is
    dropped, and nothing else is. *)
Lemma TrimSpace_around (ws1 ws2 : list string) (s : string) (a z : ascii) (m : list ascii) :
  Forall (λ w, is_space w = true) ws1 → Forall (λ w, is_space w = true) ws2 →
  list_ascii_of_string s = a :: m → last (a :: m) = Some z →
  printable a = true → printable z = true →
  TrimSpace (String.append (concat_strings ws1) (String.append s (concat_strings ws2))) = s.
Proof.
  intros H1 H2 Hs [l' Hl]%last_Some Ha Hz. unfold TrimSpace.
  rewrite !list_of_append, !list_of_concat, Hs.
  apply printable_not_space in Ha as (Ha1 & Ha2 & Ha3 & _ & _).
  apply printable_not_space in Hz as (Hz1 & _ & _ & Hz2 & Hz3).
  assert (Hsp : ∀ x, space_of space1 space2 space3 (list_ascii_of_string x) = is_space x) by done.
  rewrite trim_front_spaces.
  - change ((a :: m) ++ mjoin (list_ascii_of_string <$> ws2))
      with (a :: (m ++ mjoin (list_ascii_of_string <$> ws2))).
    rewrite trim_front_stop by done.
    change (a :: (m ++ mjoin (list_ascii_of_string <$> ws2)))
      with ((a :: m) ++ mjoin (list_ascii_of_string <$> ws2)).
    rewrite reverse_app, reverse_mjoin, Hl, reverse_snoc, trim_front_spaces.
    + rewrite trim_front_stop by done.
      rewrite reverse_cons, reverse_involutive, <- Hl, <- Hs. apply string_of_list_ascii_of_string.
    + intros x y [Hx Hy]%space2_inv. apply space1_high. lia.
    + intros x y w Hx%space3_inv. split; [apply space1_high; lia|].
      destruct (space2 y x) eqn:E; [|done]. apply space2_inv in E. lia.
    + apply Forall_reverse, Forall_fmap, Forall_fmap. eapply Forall_impl; [exact H2|]. intros x Hx.
      revert Hx. unfold is_space, compose.
      by destruct (list_ascii_of_string x) as [|? [|? [|? [|? ?]]]].
  - intros x y [Hx Hy]%space2_inv. apply space1_high. lia.
  - intros x y w Hx%space3_inv. split; [apply space1_high; lia|].
    destruct (space2 x y) eqn:E; [|done]. apply space2_inv in E. lia.
  - by apply Forall_fmap.
Qed.
