(* ===== verification/Encoding.v ===== *)
(** * Go's [encoding/base64] (the standard encoding) and [encoding/hex] *)

From S2P Require Import Prelude GoStrings.
From Stdlib Require Import Ascii String.

#[local] Open Scope string_scope.
#[local] Open Scope list_scope.
#[local] Open Scope N_scope.

(** ** Base64 *)

(** The character of a six-bit value, and back. *)
Definition b64_char (n : N) : ascii :=
  ascii_of_N (if n <? 26 then 65 + n
              else if n <? 52 then 97 + (n - 26)
              else if n <? 62 then 48 + (n - 52)
              else if n =? 62 then 43 else 47).

Definition b64_value (a : ascii) : option N :=
  let n := of_byte a in
  if (65 <=? n) && (n <=? 90) then Some (n - 65)
  else if (97 <=? n) && (n <=? 122) then Some (n - 97 + 26)
  else if (48 <=? n) && (n <=? 57) then Some (n - 48 + 52)
  else if n =? 43 then Some 62
  else if n =? 47 then Some 63
  else None.

Definition padChar : ascii := ascii_of_N 61.

(** [base64.StdEncoding.EncodeToString]: 24 bits at a time. *)
Fixpoint b64_encode (l : list ascii) : list ascii :=
  match l with
  | [] => []
  | [a] =>
      let v := N.shiftl (of_byte a) 16 in
      [b64_char (N.land (N.shiftr v 18) 63); b64_char (N.land (N.shiftr v 12) 63); padChar; padChar]
  | [a; b] =>
      let v := N.lor (N.shiftl (of_byte a) 16) (N.shiftl (of_byte b) 8) in
      [b64_char (N.land (N.shiftr v 18) 63); b64_char (N.land (N.shiftr v 12) 63);
       b64_char (N.land (N.shiftr v 6) 63); padChar]
  | a :: b :: c :: l =>
      let v := N.lor (N.lor (N.shiftl (of_byte a) 16) (N.shiftl (of_byte b) 8)) (of_byte c) in
      b64_char (N.land (N.shiftr v 18) 63) :: b64_char (N.land (N.shiftr v 12) 63) ::
      b64_char (N.land (N.shiftr v 6) 63) :: b64_char (N.land v 63) :: b64_encode l
  end.

Definition base64_EncodeToString (b : bytes) : string :=
  string_of_list_ascii (b64_encode (list_ascii_of_string b)).

(** The [dlen]-character quantum [x], [y], [z], [w] as three bytes. *)
Definition b64_quantum (x y z w : N) : ascii * ascii * ascii :=
  let v := N.lor (N.lor (N.lor (N.shiftl x 18) (N.shiftl y 12)) (N.shiftl z 6)) w in
  (to_byte (N.shiftr v 16), to_byte (N.shiftr v 8), to_byte v).

(** [StdEncoding.DecodeString]: line breaks are skipped; padding ends the text;
    the bits that padding makes unused are not checked. *)
Fixpoint b64_decode (l : list ascii) : option (list ascii) :=
  match l with
  | [] => Some []
  | x :: y :: z :: w :: l =>
      x ← b64_value x; y ← b64_value y;
      if Ascii.eqb w padChar then
        match l with
        | _ :: _ => None
        | [] =>
            if Ascii.eqb z padChar then
              let '(a, _, _) := b64_quantum x y 0 0 in Some [a]
            else z ← b64_value z; let '(a, b, _) := b64_quantum x y z 0 in Some [a; b]
        end
      else
        z ← b64_value z; w ← b64_value w;
        let '(a, b, c) := b64_quantum x y z w in
        rest ← b64_decode l; Some (a :: b :: c :: rest)
  | _ => None
  end.

Definition line_break (a : ascii) : bool := (of_byte a =? 10) || (of_byte a =? 13).

Definition base64_DecodeString (s : string) : option bytes :=
  l ← b64_decode (filter (λ a, line_break a = false) (list_ascii_of_string s));
  Some (string_of_list_ascii l).

(** ** Hexadecimal *)

Definition hex_char (n : N) : ascii := ascii_of_N (if n <? 10 then 48 + n else 97 + (n - 10)).

Definition hex_value (a : ascii) : option N :=
  let n := of_byte a in
  if (48 <=? n) && (n <=? 57) then Some (n - 48)
  else if (97 <=? n) && (n <=? 102) then Some (n - 97 + 10)
  else if (65 <=? n) && (n <=? 70) then Some (n - 65 + 10)
  else None.

(** [hex.EncodeToString] and [hex.DecodeString]. *)
Fixpoint hex_EncodeToString (b : bytes) : string :=
  match b with
  | EmptyString => EmptyString
  | String a b =>
      String (hex_char (N.shiftr (of_byte a) 4))
        (String (hex_char (N.land (of_byte a) 15)) (hex_EncodeToString b))
  end.

Fixpoint hex_DecodeString (s : string) : option bytes :=
  match s with
  | EmptyString => Some EmptyString
  | String _ EmptyString => None
  | String p (String q s) =>
      a ← hex_value p; b ← hex_value q;
      r ← hex_DecodeString s;
      Some (String (to_byte (N.lor (N.shiftl a 4) b)) r)
  end.

(** ** Lemmas *)

(** Facts about all values below a bound, by evaluation. *)
Lemma below (n : N) (k : nat) (P : N → bool) :
  forallb P (N.of_nat <$> seq 0 k) = true → n < N.of_nat k → P n = true.
Proof.
  rewrite forallb_forall. intros Hall Hn. apply Hall, list_elem_of_In, list_elem_of_fmap.
  exists (N.to_nat n). rewrite N2Nat.id. split; [done|]. apply elem_of_seq. lia.
Qed.

Lemma b64_value_char n : n < 64 → b64_value (b64_char n) = Some n.
Proof.
  intros Hn. apply (bool_decide_unpack (b64_value (b64_char n) = Some n)).
  apply Is_true_true, (below n 64 (λ n, bool_decide (b64_value (b64_char n) = Some n))); [reflexivity|lia].
Qed.

Lemma b64_char_plain n : n < 64 → Ascii.eqb (b64_char n) padChar = false ∧ line_break (b64_char n) = false.
Proof.
  intros Hn. apply (bool_decide_unpack (_ ∧ _)).
  apply Is_true_true, (below n 64 (λ n, bool_decide (Ascii.eqb (b64_char n) padChar = false ∧ line_break (b64_char n) = false)));
    [reflexivity|lia].
Qed.

Lemma hex_value_char n : n < 16 → hex_value (hex_char n) = Some n.
Proof.
  intros Hn. apply (bool_decide_unpack (hex_value (hex_char n) = Some n)).
  apply Is_true_true, (below n 16 (λ n, bool_decide (hex_value (hex_char n) = Some n))); [reflexivity|lia].
Qed.

Lemma land_63_lt n : N.land n 63 < 64.
Proof. change 63 with (N.ones 6). rewrite N.land_ones. by apply N.mod_lt. Qed.

(** Splitting 24 bits into sextets and putting them together again. *)
Lemma sextets v :
  v < 2 ^ 24 →
  N.lor (N.lor (N.lor (N.shiftl (N.land (N.shiftr v 18) 63) 18)
                      (N.shiftl (N.land (N.shiftr v 12) 63) 12))
               (N.shiftl (N.land (N.shiftr v 6) 63) 6)) (N.land v 63) = v.
Proof.
  intros Hv. change 63 with (N.ones 6). apply N.bits_inj. intros i.
  rewrite !N.lor_spec.
  assert (Hb : ∀ k, N.testbit (N.shiftl (N.land (N.shiftr v k) (N.ones 6)) k) i =
    (k <=? i) && (i <? k + 6) && N.testbit v i).
  { intros k. destruct (N.leb_spec k i) as [Hk|Hk].
    - rewrite N.shiftl_spec_high' by done. rewrite N.land_spec, N.shiftr_spec'.
      replace (i - k + k) with i by lia. destruct (N.ltb_spec i (k + 6)).
      + rewrite N.ones_spec_low by lia. by rewrite andb_true_r.
      + rewrite N.ones_spec_high by lia. by rewrite andb_false_r.
    - by rewrite N.shiftl_spec_low. }
  rewrite !Hb. specialize (Hb 0). rewrite N.shiftr_0_r, N.shiftl_0_r in Hb. rewrite Hb.
  destruct (N.ltb_spec i 24) as [Hi|Hi].
  - destruct (N.testbit v i); [|by rewrite !andb_false_r]. rewrite !andb_true_r.
    apply orb_true_iff. repeat rewrite orb_true_iff. rewrite !andb_true_iff, !N.leb_le, !N.ltb_lt. lia.
  - assert (Hz : N.testbit v i = false).
    { destruct (decide (v = 0)) as [->|Hnz]; [apply N.bits_0|]. apply N.bits_above_log2.
      apply N.log2_lt_pow2; [lia|]. apply (N.lt_le_trans _ (2 ^ 24)); [done|].
      apply N.pow_le_mono_r; lia. }
    rewrite Hz. by rewrite !andb_false_r.
Qed.

(** Appending a byte to a number, and taking it off again. *)
Lemma push_byte_shiftr x a : N.shiftr (N.lor (N.shiftl x 8) (of_byte a)) 8 = x.
Proof.
  pose proof (of_byte_lt a).
  rewrite N.shiftr_lor, N.shiftr_shiftl_l, N.shiftl_0_r by lia.
  rewrite (N.shiftr_div_pow2 (of_byte a)), N.div_small by (cbn; lia). apply N.lor_0_r.
Qed.

Lemma push_byte_low x a : to_byte (N.lor (N.shiftl x 8) (of_byte a)) = a.
Proof.
  rewrite <- (to_of_byte a) at 2. unfold to_byte. f_equal. change 256 with (2 ^ 8).
  rewrite <- !N.land_ones, N.land_lor_distr_l, (N.land_ones (N.shiftl x 8)), N.shiftl_mul_pow2.
  by rewrite N.Div0.mod_mul, N.lor_0_l.
Qed.

(** Three bytes as 24 bits. *)
Lemma three_bytes a b c :
  let v := N.lor (N.lor (N.shiftl (of_byte a) 16) (N.shiftl (of_byte b) 8)) (of_byte c) in
  v < 2 ^ 24 ∧ to_byte (N.shiftr v 16) = a ∧ to_byte (N.shiftr v 8) = b ∧ to_byte v = c.
Proof.
  cbn zeta.
  assert (Hv : N.lor (N.shiftl (of_byte a) 16) (N.shiftl (of_byte b) 8) =
    N.shiftl (N.lor (N.shiftl (of_byte a) 8) (of_byte b)) 8).
  { by rewrite N.shiftl_lor, N.shiftl_shiftl. }
  rewrite Hv. change 16 with (8 + 8) at 1. rewrite <- N.shiftr_shiftr, !push_byte_shiftr, !push_byte_low.
  split_and!; [|by rewrite to_of_byte|done|done].
  apply N.div_small_iff; [done|]. rewrite <- N.shiftr_div_pow2. change 24 with (8 + (8 + 8)).
  rewrite <- !N.shiftr_shiftr, !push_byte_shiftr, N.shiftr_div_pow2. apply N.div_small, of_byte_lt.
Qed.

Lemma quantum_sextets a b c :
  let v := N.lor (N.lor (N.shiftl (of_byte a) 16) (N.shiftl (of_byte b) 8)) (of_byte c) in
  b64_quantum (N.land (N.shiftr v 18) 63) (N.land (N.shiftr v 12) 63) (N.land (N.shiftr v 6) 63)
    (N.land v 63) = (a, b, c).
Proof.
  cbn zeta. destruct (three_bytes a b c) as (Hv & Ha & Hb & Hc). unfold b64_quantum.
  by rewrite sextets, Ha, Hb, Hc.
Qed.

(** A byte list in steps of three. *)
Lemma three_ind (P : list ascii → Prop) :
  P [] → (∀ a, P [a]) → (∀ a b, P [a; b]) → (∀ a b c l, P l → P (a :: b :: c :: l)) → ∀ l, P l.
Proof.
  intros H0 H1 H2 H3.
  enough (Hall : ∀ l, P l ∧ (∀ a, P (a :: l)) ∧ (∀ a b, P (a :: b :: l))) by apply Hall.
  induction l as [|x l (IH & IH1 & IH2)]; [done|]. split_and!; auto.
Qed.

Lemma b64_decode_encode l : b64_decode (b64_encode l) = Some l.
Proof.
  induction l as [|a|a b|a b c l IH] using three_ind; [done|..].
  - pose proof (quantum_sextets a zero zero) as Hq. cbn zeta in Hq.
    change (of_byte zero) with 0 in Hq. rewrite N.shiftl_0_l, !N.lor_0_r in Hq.
    assert (Hz : N.land (N.shiftr (N.shiftl (of_byte a) 16) 6) 63 = 0 ∧ N.land (N.shiftl (of_byte a) 16) 63 = 0).
    { change 63 with (N.ones 6). rewrite N.shiftr_shiftl_l, !N.land_ones, !N.shiftl_mul_pow2 by lia.
      change (2 ^ (16 - 6)) with (16 * 2 ^ 6). change (2 ^ 16) with (1024 * 2 ^ 6).
      by rewrite !N.mul_assoc, !N.Div0.mod_mul. }
    destruct Hz as [Hz1 Hz2]. rewrite Hz1, Hz2 in Hq. cbn [b64_encode b64_decode].
    rewrite !b64_value_char by apply land_63_lt. rewrite Ascii.eqb_refl. cbn [mbind option_bind]. by rewrite Hq.
  - pose proof (quantum_sextets a b zero) as Hq. cbn zeta in Hq.
    change (of_byte zero) with 0 in Hq. rewrite N.lor_0_r in Hq. set (v := N.lor _ _) in *.
    assert (Hz : N.land v 63 = 0).
    { change 63 with (N.ones 6). subst v. rewrite N.land_ones.
      assert (Hv : N.lor (N.shiftl (of_byte a) 16) (N.shiftl (of_byte b) 8) =
        N.shiftl (N.lor (N.shiftl (of_byte a) 8) (of_byte b)) 8) by (by rewrite N.shiftl_lor, N.shiftl_shiftl).
      rewrite Hv, N.shiftl_mul_pow2. change (2 ^ 8) with (4 * 2 ^ 6). by rewrite N.mul_assoc, N.Div0.mod_mul. }
    rewrite Hz in Hq. cbn [b64_encode]. fold v. cbn [b64_decode].
    rewrite !b64_value_char by apply land_63_lt. rewrite Ascii.eqb_refl. cbn [mbind option_bind].
    destruct (b64_char_plain (N.land (N.shiftr v 6) 63)) as [-> _]; [apply land_63_lt|].
    cbn [mbind option_bind]. by rewrite Hq.
  - pose proof (quantum_sextets a b c) as Hq. cbn zeta in Hq. cbn [b64_encode]. set (v := N.lor _ _) in *.
    cbn [b64_decode]. rewrite !b64_value_char by apply land_63_lt. cbn [mbind option_bind].
    destruct (b64_char_plain (N.land v 63)) as [-> _]; [apply land_63_lt|].
    cbn [mbind option_bind]. by rewrite Hq, IH.
Qed.

Lemma b64_encode_no_break l : Forall (λ a, line_break a = false) (b64_encode l).
Proof.
  assert (Hc : ∀ v, line_break (b64_char (N.land v 63)) = false).
  { intros v. apply b64_char_plain, land_63_lt. }
  induction l as [|a|a b|a b c l IH] using three_ind; cbn [b64_encode]; repeat (constructor; [done|]); done.
Qed.

Lemma filter_all {A} (P : A → Prop) `{∀ x, Decision (P x)} l : Forall P l → filter P l = l.
Proof. induction 1 as [|x l Hx _ IH]; [done|]. by rewrite filter_cons_True, IH. Qed.

Lemma base64_roundtrip b : base64_DecodeString (base64_EncodeToString b) = Some b.
Proof.
  unfold base64_DecodeString, base64_EncodeToString. rewrite list_ascii_of_string_of_list_ascii.
  rewrite filter_all by apply b64_encode_no_break.
  rewrite b64_decode_encode. cbn. by rewrite string_of_list_ascii_of_string.
Qed.

Lemma hex_roundtrip b : hex_DecodeString (hex_EncodeToString b) = Some b.
Proof.
  induction b as [|a b IH]; [done|]. cbn [hex_EncodeToString hex_DecodeString].
  assert (Hhi : N.shiftr (of_byte a) 4 < 16).
  { rewrite N.shiftr_div_pow2. apply N.Div0.div_lt_upper_bound. pose proof (of_byte_lt a). cbn. lia. }
  assert (Hlo : N.land (of_byte a) 15 < 16).
  { change 15 with (N.ones 4). rewrite N.land_ones. by apply N.mod_lt. }
  rewrite !hex_value_char by done. cbn [mbind option_bind]. rewrite IH. cbn [mbind option_bind].
  assert (Heq : N.lor (N.shiftl (N.shiftr (of_byte a) 4) 4) (N.land (of_byte a) 15) = of_byte a).
  { change 15 with (N.ones 4). rewrite N.land_ones, N.shiftl_mul_pow2, N.shiftr_div_pow2, N.lor_comm.
    apply N.bits_inj. intros i. rewrite N.lor_spec. destruct (N.ltb_spec i 4).
    - rewrite N.mod_pow2_bits_low, N.mul_pow2_bits_low by done. by rewrite orb_false_r.
    - rewrite N.mod_pow2_bits_high by done. replace i with (i - 4 + 4) at 1 by lia.
      rewrite N.mul_pow2_bits_add, N.div_pow2_bits. replace (i - 4 + 4) with i by lia. done. }
  by rewrite Heq, to_of_byte.
Qed.

Lemma length_hex b : String.length (hex_EncodeToString b) = (2 * String.length b)%nat.
Proof. induction b as [|a b IH]; [done|]. cbn. rewrite IH. lia. Qed.
