(* ===== verification/Multiaddr.v ===== *)
(** * go-multiaddr, and the functions of go-libp2p's [core/peer] on addresses *)

From S2P Require Import Prelude.

Class MultiaddrLib := {
  Multiaddr : Type;
  ma_Bytes : Multiaddr → bytes;
  ma_String : Multiaddr → string;
  NewMultiaddrBytes : bytes → option Multiaddr;
  NewMultiaddr : string → option Multiaddr;
  (** [peer.AddrInfoFromP2pAddr]: the peer named by the last component, and the
      address in front of it, if there is one. *)
  AddrInfoFromP2pAddr : Multiaddr → option (peerID * list Multiaddr)
}.

(** [peer.AddrInfo] *)
Record AddrInfo `{MultiaddrLib} := mkAddrInfo { ai_ID : peerID; ai_Addrs : list Multiaddr }.

(** An address that survives its binary form, as every one a parser returned
    does. *)
Definition addr_ok `{MultiaddrLib} (a : Multiaddr) : Prop := NewMultiaddrBytes (ma_Bytes a) = Some a.

(** A concrete library: addresses are the non-empty strings; the peer of an
    address is the address itself. *)
Definition non_empty (s : string) : option string := match s with "" => None | _ => Some s end%string.

Definition plain_multiaddr : MultiaddrLib := {|
  Multiaddr := string; ma_Bytes := id; ma_String := id;
  NewMultiaddrBytes := non_empty; NewMultiaddr := non_empty;
  AddrInfoFromP2pAddr a := Some (a, [a])
|}.
