(* ===== verification/Files.v ===== *)
(** * Files ([os.ReadFile], [os.WriteFile], [os.Rename])

    The part of the file system the node touches, as a map from paths to
    contents. Which operations fail is left open: an environment [OSEnv]
    decides for the [n]-th operation, and what a failed write leaves behind. *)

From S2P Require Import Prelude Prog.

(** The files, and how many operations were made so far. *)
Record FS := mkFS { files : gmap string bytes; ops : nat }.

(** What a failed write leaves at its path: the old content, or some other. *)
Inductive Leftover := Untouched | Left (content : bytes).

Class OSEnv := {
  (** the [n]-th operation, a read of this path, fails although the file exists *)
  read_fails : nat → string → bool;
  (** the [n]-th operation, a write of this path, fails and leaves this *)
  write_fails : nat → string → option Leftover;
  (** the [n]-th operation, a rename, fails *)
  rename_fails : nat → bool
}.

(** [os.IsNotExist(err)] or not. *)
Inductive ReadError := NotExist | OtherReadError.

Section files.
Context `{OSEnv}.

Definition ReadFile (path : string) : prog FS (res ReadError bytes) :=
  atomic (λ fs,
    (mkFS (files fs) (S (ops fs)),
     match files fs !! path with
     | None => Err NotExist
     | Some b => if read_fails (ops fs) path then Err OtherReadError else Ok b
     end)).

Definition WriteFile (path : string) (b : bytes) : prog FS (res unit unit) :=
  atomic (λ fs,
    match write_fails (ops fs) path with
    | None => (mkFS (<[path := b]> (files fs)) (S (ops fs)), Ok tt)
    | Some Untouched => (mkFS (files fs) (S (ops fs)), Err tt)
    | Some (Left c) => (mkFS (<[path := c]> (files fs)) (S (ops fs)), Err tt)
    end).

Definition Rename (old new : string) : prog FS (res unit unit) :=
  atomic (λ fs,
    match files fs !! old with
    | Some b =>
        if rename_fails (ops fs) then (mkFS (files fs) (S (ops fs)), Err tt)
        else (mkFS (<[new := b]> (delete old (files fs))) (S (ops fs)), Ok tt)
    | None => (mkFS (files fs) (S (ops fs)), Err tt)
    end).
End files.

(** An environment in which nothing fails. *)
Definition reliable : OSEnv := {|
  read_fails _ _ := false; write_fails _ _ := None; rename_fails _ := false
|}.

(** ** Lemmas *)

Section files_lemmas.
Context `{OSEnv}.

Lemma run_try {S E A B} (p : prog S (res E A)) (k : A → prog S (res E B)) s :
  run (try p k) s =
    match run p s with
    | (s', Ok a) => run (k a) s'
    | (s', Err e) => (s', Err e)
    end.
Proof. unfold try. rewrite run_bind. by destruct (run p s) as [s' [a|e]]. Qed.

Lemma run_ReadFile path fs :
  run (ReadFile path) fs =
    (mkFS (files fs) (S (ops fs)),
     match files fs !! path with
     | None => Err NotExist
     | Some b => if read_fails (ops fs) path then Err OtherReadError else Ok b
     end).
Proof. unfold ReadFile. by rewrite run_atomic. Qed.

Lemma run_WriteFile path b fs :
  run (WriteFile path b) fs =
    match write_fails (ops fs) path with
    | None => (mkFS (<[path := b]> (files fs)) (S (ops fs)), Ok tt)
    | Some Untouched => (mkFS (files fs) (S (ops fs)), Err tt)
    | Some (Left c) => (mkFS (<[path := c]> (files fs)) (S (ops fs)), Err tt)
    end.
Proof. unfold WriteFile. by rewrite run_atomic. Qed.

(** A write that succeeds leaves what was written; any write leaves other
    paths alone. *)
Lemma WriteFile_ok path b fs fs' :
  run (WriteFile path b) fs = (fs', Ok tt) → files fs' = <[path := b]> (files fs).
Proof. rewrite run_WriteFile. by destruct (write_fails _ _) as [[]|]; intros [= <-]. Qed.

Lemma WriteFile_other path b fs other :
  other ≠ path → files (exec (WriteFile path b) fs) !! other = files fs !! other.
Proof.
  intros Hne. unfold exec. rewrite run_WriteFile.
  destruct (write_fails _ _) as [[]|]; cbn [fst files]; rewrite ?lookup_insert_ne by done; done.
Qed.
End files_lemmas.

(** Running up to and past a read. *)
Ltac go_read := rewrite run_bind, run_ReadFile; cbn [fst snd].
