(* ===== verification/Packet.v ===== *)
(** * Relay packets, and the libraries the relay is built on

    [internal/relay/packet.go] and [codec.go], with the interfaces of
    go-libp2p's [core/peer], of msgpack and of the libp2p stream layer that the
    code calls. *)

From S2P Require Import Prelude GoTime.

#[local] Open Scope Z_scope.

(** ** Constants of [packet.go] *)

Definition RelayProtocol : string := "/plural-star/relay/1.0.0".
Definition PresenceTTL : Duration := 60 * Second.
Definition PresenceRefreshInterval : Duration := 45 * Second.
Definition DedupCacheTTL : Duration := 10 * Second.
Definition DedupCacheEvictInterval : Duration := 5 * Second.
Definition RoutingTablePruneTicker : Duration := 30 * Second.

(** [type Packet struct]; [ID] is a [[16]byte]. *)
Record Packet := mkPacket {
  ID : bytes;
  SenderID : bytes;
  RecipientID : bytes;
  Payload : bytes;
  Timestamp : Z
}.

#[export] Instance Packet_eq_dec : EqDecision Packet.
Proof. solve_decision. Defined.

(** [NewPacketID]: [rand.Read] fills the array or fails; [None] is its error. *)
Definition NewPacketID (rand_Read : option bytes) : option bytes :=
  match rand_Read with
  | None => None
  | Some id => Some id
  end.

(** ** go-libp2p: [core/peer] *)
Class PeerLib := {
  (** [peer.IDFromBytes]: casts the bytes to an ID if they are a multihash. *)
  IDFromBytes : bytes → option peerID;
  (** [peer.Decode]: parses the base58 or CID text of an ID. *)
  Decode : string → option peerID;
  (** [ID.String]: the base58 text. *)
  IDString : peerID → string
}.

(** What the code relies on: a cast keeps the bytes, and printing an ID and
    decoding the text gives it back. *)
Class PeerLaws (L : PeerLib) := {
  IDFromBytes_bytes b i : IDFromBytes b = Some i → i = b;
  Decode_valid s i : Decode s = Some i → IDFromBytes i = Some i;
  Decode_String i : IDFromBytes i = Some i → Decode (IDString i) = Some i
}.

(** ** msgpack, at the type [Packet] *)
Class Msgpack := {
  msgpack_Marshal : Packet → option bytes;
  msgpack_Unmarshal : bytes → option Packet
}.

Class MsgpackLaws (M : Msgpack) := {
  msgpack_roundtrip p b : msgpack_Marshal p = Some b → msgpack_Unmarshal b = Some p
}.

(** [codec.go] *)
Definition Marshal `{Msgpack} (p : Packet) : option bytes := msgpack_Marshal p.

Definition UnmarshalPacket `{Msgpack} (b : bytes) : option Packet :=
  match msgpack_Unmarshal b with
  | None => None
  | Some p => Some p
  end.

(** ** libp2p streams: what happens to the [n]-th attempt to send a message to
    a peer. *)
Inductive StreamOutcome := OpenFailed | WriteFailed | Written.

Class StreamNet := {
  stream_outcome : nat → peerID → StreamOutcome
}.

(** ** Concrete libraries, to evaluate the model on concrete inputs *)

(** Identifiers are the non-empty byte strings, and are their own text. *)
Definition plain_id (b : bytes) : option peerID :=
  match b with EmptyString => None | _ => Some b end.

Definition plain_peers : PeerLib := {|
  IDFromBytes := plain_id; Decode := plain_id; IDString := id
|}.

Lemma plain_id_Some b i : plain_id b = Some i → i = b ∧ plain_id i = Some i.
Proof. destruct b; [done|]. intros [= <-]. done. Qed.

#[export] Instance plain_peers_laws : PeerLaws plain_peers.
Proof.
  split; cbn; [apply plain_id_Some|apply plain_id_Some|done].
Qed.

(** Packets as the encoding of the tuple of their fields. *)
Definition packet_tuple (p : Packet) : bytes * bytes * bytes * bytes * Z :=
  (ID p, SenderID p, RecipientID p, Payload p, Timestamp p).

Definition plain_msgpack : Msgpack := {|
  msgpack_Marshal p := Some (pack (packet_tuple p));
  msgpack_Unmarshal b := (λ '(i, s, r, l, t), mkPacket i s r l t) <$> unpack b
|}.

#[export] Instance plain_msgpack_laws : MsgpackLaws plain_msgpack.
Proof.
  split. intros p b [= <-]. cbn [msgpack_Unmarshal plain_msgpack].
  rewrite unpack_pack. by destruct p.
Qed.

(** A network on which every send succeeds, and one on which every send fails. *)
Definition all_written : StreamNet := {| stream_outcome _ _ := Written |}.
Definition none_open : StreamNet := {| stream_outcome _ _ := OpenFailed |}.
