(* ===== verification/Dedup.v ===== *)
(** * The packet de-duplication cache ([internal/relay/dedup.go])

    One lock protects the map, so each method is one atomic section and is
    modelled as a function of the cache and of the instant [time.Now()]
    returned. *)

From S2P Require Import Prelude GoTime.

#[local] Open Scope Z_scope.

(** [type DedupCache struct]: when each packet ID was first seen. *)
Record DedupCache := mkDedupCache {
  dedup_m : gmap bytes Instant;
  dedup_ttl : Duration
}.

Definition NewDedupCache (ttl : Duration) : DedupCache := mkDedupCache ∅ ttl.

Definition SeenOrAdd (now : Instant) (id : bytes) (d : DedupCache) : DedupCache * bool :=
  match dedup_m d !! id with
  | Some _ => (d, true)
  | None => (mkDedupCache (<[id := now]> (dedup_m d)) (dedup_ttl d), false)
  end.

Definition Len (d : DedupCache) : nat := size (dedup_m d).

Definition evict (now : Instant) (d : DedupCache) : DedupCache :=
  mkDedupCache
    (keep (λ seen_at, negb (dedup_ttl d <? Time.Sub now seen_at)) (dedup_m d))
    (dedup_ttl d).

(** ** Runs of the cache *)

(** A call made on the cache: a packet offered, or the eviction ticker. *)
Inductive dedup_op := Offer (id : bytes) | EvictTick.

Definition dedup_step (now : Instant) (o : dedup_op) (d : DedupCache) : DedupCache :=
  match o with
  | Offer id => (SeenOrAdd now id d).1
  | EvictTick => evict now d
  end.

(** The cache after a history of timed calls, oldest first. *)
Definition dedup_run (h : list (Instant * dedup_op)) (d : DedupCache) : DedupCache :=
  foldl (λ d io, dedup_step io.1 io.2 d) d h.

(** ** Lemmas *)

Section dedup.
Implicit Types (d : DedupCache) (id : bytes) (now : Instant).

Lemma SeenOrAdd_true now id d :
  (SeenOrAdd now id d).2 = true ↔ is_Some (dedup_m d !! id).
Proof.
  unfold SeenOrAdd. destruct (dedup_m d !! id); cbn; split; eauto; [done|].
  by intros [? ?].
Qed.

Lemma SeenOrAdd_false now id d :
  (SeenOrAdd now id d).2 = false ↔ dedup_m d !! id = None.
Proof. unfold SeenOrAdd. destruct (dedup_m d !! id); cbn; split; done. Qed.

Lemma SeenOrAdd_lookup now id d : is_Some (dedup_m (SeenOrAdd now id d).1 !! id).
Proof.
  unfold SeenOrAdd. destruct (dedup_m d !! id) eqn:E; cbn; [by rewrite E|].
  by rewrite lookup_insert_eq.
Qed.

Lemma dedup_step_ttl now o d : dedup_ttl (dedup_step now o d) = dedup_ttl d.
Proof. destruct o; cbn; [unfold SeenOrAdd; by case_match|done]. Qed.

(** An entry keeps the instant it was made at, until an eviction finds it
    older than the time to live. *)
Lemma dedup_step_keeps now o d id at0 :
  dedup_m d !! id = Some at0 → minInt64 <= dedup_ttl d < maxInt64 → now - at0 <= dedup_ttl d →
  dedup_m (dedup_step now o d) !! id = Some at0.
Proof.
  intros Hd Httl Hage. destruct o as [id'|]; cbn.
  - unfold SeenOrAdd. destruct (dedup_m d !! id') eqn:E; cbn; [done|].
    rewrite lookup_insert_ne; [done|]. congruence.
  - apply lookup_keep. split; [done|]. rewrite Sub_gt by done.
    apply negb_true_iff, Z.ltb_ge. lia.
Qed.

Lemma dedup_run_keeps h t d id at0 :
  timed t h → dedup_m d !! id = Some at0 → minInt64 <= dedup_ttl d < maxInt64 →
  ends t h - at0 <= dedup_ttl d →
  dedup_m (dedup_run h d) !! id = Some at0.
Proof.
  revert t d. induction h as [|[u o] h IH]; cbn; intros t d; [done|].
  intros [Htu Htimed] Hd Httl Hend. pose proof (timed_ends u h Htimed).
  apply (IH u); rewrite ?dedup_step_ttl; try done.
  apply dedup_step_keeps; [done|done|lia].
Qed.
End dedup.

(** ** Theorems *)


