(* ===== verification/Router.v ===== *)
(** * The routing table ([internal/relay/router.go] and [router_view.go])

    Which node an app peer was last announced at, and until when. Every method
    is one section of the table's lock. *)

From S2P Require Import Prelude GoTime.

#[local] Open Scope Z_scope.

Record RoutingEntry := mkRoutingEntry { ViaNode : peerID; ExpiresAt : Instant }.

(** [type Router struct]: the table. *)
Abbreviation Router := (gmap peerID RoutingEntry).

Definition NewRouter : Router := ∅.

Definition Upsert (now : Instant) (target via : peerID) (ttl : Duration) (r : Router) : Router :=
  <[target := mkRoutingEntry via (Time.Add now ttl)]> r.

Definition Remove (target : peerID) (r : Router) : Router := delete target r.

Definition Lookup (now : Instant) (target : peerID) (r : Router) : option peerID :=
  match r !! target with
  | None => None
  | Some e => if Time.After now (ExpiresAt e) then None else Some (ViaNode e)
  end.

Definition Online `{MapRange} (now : Instant) (r : Router) : list peerID :=
  omap (λ '(id, e), if Time.Before now (ExpiresAt e) then Some id else None) (range r).

Definition prune (now : Instant) (r : Router) : Router :=
  keep (λ e, negb (Time.After now (ExpiresAt e))) r.

Record PeerRoute := mkPeerRoute { Peer : peerID; Via : peerID }.

Definition Snapshot `{MapRange} (now : Instant) (r : Router) : list PeerRoute :=
  omap (λ '(id, e), if Time.Before now (ExpiresAt e) then Some (mkPeerRoute id (ViaNode e)) else None)
    (range r).

(** ** The interface the presence protocol uses

    Presence only inserts, removes and (through the manager) looks up routes;
    this is what a table must promise for that. *)
Class RouteTable (R : Type) := {
  rt_Upsert : Instant → peerID → peerID → Duration → R → R;
  rt_Remove : peerID → R → R;
  rt_Lookup : Instant → peerID → R → option peerID;
  rt_hit now t target via ttl r :
    t <= now + ttl → rt_Lookup t target (rt_Upsert now target via ttl r) = Some via;
  rt_expired now t target via ttl r :
    now + ttl < t → rt_Lookup t target (rt_Upsert now target via ttl r) = None;
  rt_upsert_other now t target other via ttl r :
    target ≠ other → rt_Lookup t other (rt_Upsert now target via ttl r) = rt_Lookup t other r;
  rt_removed t target r : rt_Lookup t target (rt_Remove target r) = None;
  rt_remove_other t target other r :
    target ≠ other → rt_Lookup t other (rt_Remove target r) = rt_Lookup t other r
}.

(** ** Histories of a routing table and their meaning *)

Inductive router_op :=
| OpUpsert (target via : peerID) (ttl : Duration)
| OpRemove (target : peerID)
| OpPrune.

Definition router_step (now : Instant) (o : router_op) (r : Router) : Router :=
  match o with
  | OpUpsert target via ttl => Upsert now target via ttl r
  | OpRemove target => Remove target r
  | OpPrune => prune now r
  end.

Definition router_run (h : list (Instant * router_op)) (r : Router) : Router :=
  foldl (λ r io, router_step io.1 io.2 r) r h.

(** The abstract specification: the last announcement about [target] that no
    tombstone followed. Pruning plays no part in it. *)
Definition announced (target : peerID) (h : list (Instant * router_op)) : option RoutingEntry :=
  foldl (λ cur io,
    match io.2 with
    | OpUpsert x via ttl => if decide (x = target) then Some (mkRoutingEntry via (io.1 + ttl)) else cur
    | OpRemove x => if decide (x = target) then None else cur
    | OpPrune => cur
    end) None h.

Definition route_spec (now : Instant) (target : peerID) (h : list (Instant * router_op)) : option peerID :=
  e ← announced target h; if ExpiresAt e <? now then None else Some (ViaNode e).

(** ** Lemmas *)

Section router.
Implicit Types (r : Router) (now t : Instant).

Lemma Lookup_Upsert now t target via ttl r :
  Lookup t target (Upsert now target via ttl r) = if now + ttl <? t then None else Some via.
Proof. unfold Lookup, Upsert. by rewrite lookup_insert_eq. Qed.

Lemma Lookup_Upsert_ne now t target other via ttl r :
  target ≠ other → Lookup t other (Upsert now target via ttl r) = Lookup t other r.
Proof. intros ?. unfold Lookup, Upsert. by rewrite lookup_insert_ne. Qed.

Lemma Lookup_Remove t target r : Lookup t target (Remove target r) = None.
Proof. unfold Lookup, Remove. by rewrite lookup_delete_eq. Qed.

Lemma Lookup_Remove_ne t target other r :
  target ≠ other → Lookup t other (Remove target r) = Lookup t other r.
Proof. intros ?. unfold Lookup, Remove. by rewrite lookup_delete_ne. Qed.

(** Pruning never changes what a later lookup sees. *)
Lemma Lookup_prune now t target r :
  now <= t → Lookup t target (prune now r) = Lookup t target r.
Proof.
  intros ?. unfold Lookup, prune. destruct (r !! target) as [e|] eqn:E.
  - rewrite (lookup_keep_Some_eq _ _ _ _ E). unfold Time.After.
    destruct (ExpiresAt e <? now) eqn:Hx; cbn; [|done].
    destruct (ExpiresAt e <? t) eqn:Ht; [done|zsolve].
  - destruct (keep _ r !! target) eqn:E'; [|done].
    apply lookup_keep in E' as [E' _]. congruence.
Qed.

Lemma announced_snoc target h io :
  announced target (h ++ [io]) =
    match io.2 with
    | OpUpsert x via ttl =>
        if decide (x = target) then Some (mkRoutingEntry via (io.1 + ttl)) else announced target h
    | OpRemove x => if decide (x = target) then None else announced target h
    | OpPrune => announced target h
    end.
Proof. unfold announced. by rewrite foldl_app. Qed.

Lemma router_run_snoc h io r :
  router_run (h ++ [io]) r = router_step io.1 io.2 (router_run h r).
Proof. unfold router_run. by rewrite foldl_app. Qed.

Lemma in_Snapshot `{MapRange} now r pr :
  pr ∈ Snapshot now r ↔
    ∃ e, r !! Peer pr = Some e ∧ Via pr = ViaNode e ∧ now < ExpiresAt e.
Proof.
  unfold Snapshot. rewrite list_elem_of_omap. split.
  - intros ([id e] & Hin & Hpr). apply elem_of_range in Hin.
    unfold Time.Before in Hpr. destruct (now <? ExpiresAt e) eqn:Hx; [|done].
    simplify_eq. exists e. cbn. split_and!; [done|done|zsolve].
  - intros (e & Hr & Hv & Hx). exists (Peer pr, e). rewrite elem_of_range. split; [done|].
    unfold Time.Before. rewrite (proj2 (Z.ltb_lt _ _) Hx), <- Hv. by destruct pr.
Qed.
End router.

#[export] Program Instance Router_table : RouteTable Router := {|
  rt_Upsert := Upsert;
  rt_Remove := Remove;
  rt_Lookup := Lookup
|}.
Next Obligation. intros. rewrite Lookup_Upsert. guards; [zsolve|done]. Qed.
Next Obligation. intros. rewrite Lookup_Upsert. guards; [done|zsolve]. Qed.
Next Obligation. intros. by apply Lookup_Upsert_ne. Qed.
Next Obligation. intros. apply Lookup_Remove. Qed.
Next Obligation. intros. by apply Lookup_Remove_ne. Qed.

(** ** Theorems *)

(** C13. The routing table refines its abstract specification: after any timed
    history of announcements, tombstones and prunes, a lookup answers with the
    last announcement that no tombstone followed and whose time to live has not
    run out. In particular the moment a prune runs is never observable. *)
Theorem router_refines_history (h : list (Instant * router_op)) (t0 now : Instant) (target : peerID)
    (Htimed : timed t0 h) (Hnow : ends t0 h <= now) :
  Lookup now target (router_run h NewRouter) = route_spec now target h.
Proof.
  revert now Hnow. induction h as [|[u o] h IH] using rev_ind; intros now Hnow; [done|].
  apply timed_snoc in Htimed as [Htimed Hu]. rewrite ends_snoc in Hnow.
  rewrite router_run_snoc. unfold route_spec. rewrite announced_snoc. cbn [fst snd].
  specialize (IH Htimed). destruct o as [x via ttl|x|]; cbn [router_step].
  - case_decide as Hx; [subst x; by rewrite Lookup_Upsert|].
    rewrite Lookup_Upsert_ne by done. apply IH. lia.
  - case_decide as Hx; [subst x; by rewrite Lookup_Remove|].
    rewrite Lookup_Remove_ne by done. apply IH. lia.
  - rewrite Lookup_prune by lia. apply IH. lia.
Qed.

(** [Snapshot] and [Lookup] agree away from the instant of expiry: the
    listed routes are exactly the routes a lookup returns, except those that
    expire at this very instant, which [Lookup] still serves and [Snapshot]
    no longer lists; and no peer is listed twice. *)
Theorem snapshot_spec `{MapRange} (now : Instant) (r : Router) :
  NoDup (Peer <$> Snapshot now r) ∧
  ∀ p v, mkPeerRoute p v ∈ Snapshot now r ↔
    Lookup now p r = Some v ∧ ∀ e, r !! p = Some e → ExpiresAt e ≠ now.
Proof.
  split.
  - unfold Snapshot. pose proof (NoDup_fst_range r) as Hnd.
    induction (range r) as [|[id e] l IH]; cbn; [constructor|].
    cbn in Hnd. apply NoDup_cons in Hnd as [Hnin Hnd].
    guards; [|by apply IH]. cbn. constructor; [|by apply IH].
    intros Hin. apply Hnin. apply list_elem_of_fmap in Hin as (pr & -> & Hin).
    apply list_elem_of_omap in Hin as ([id' e'] & Hin & Hpr).
    destruct (Time.Before now (ExpiresAt e')); simplify_eq. cbn.
    apply list_elem_of_fmap. by exists (id', e').
  - intros p v. rewrite in_Snapshot. cbn. unfold Lookup, Time.After. split.
    + intros (e & -> & -> & Hx). split; [|intros ? [= <-]; lia].
      destruct (ExpiresAt e <? now) eqn:?; [zsolve|done].
    + destruct (r !! p) as [e|] eqn:E; [|by intros []].
      intros [Hl Hne]. specialize (Hne e eq_refl).
      destruct (ExpiresAt e <? now) eqn:?; [done|]. simplify_eq.
      exists e. split_and!; [done|done|zsolve].
Qed.

Lemma router_refines_history_witness :
  Lookup 20 "app" (router_run [(1, OpUpsert "app" "n1" 10); (5, OpUpsert "app" "n2" 15); (12, OpPrune)] NewRouter)
  = route_spec 20 "app" [(1, OpUpsert "app" "n1" 10); (5, OpUpsert "app" "n2" 15); (12, OpPrune)].
Proof.
  apply (router_refines_history
    [(1, OpUpsert "app" "n1" 10); (5, OpUpsert "app" "n2" 15); (12, OpPrune)] 0).
  - cbn. lia.
  - cbn. lia.
Defined.
