(* ===== verification/Queue.v ===== *)
(** * Store-and-forward queue ([internal/relay/queue.go])

    The newest undeliverable packet per (recipient, sender). One lock protects
    the map, so each method is one atomic section. *)

From S2P Require Import Prelude GoTime Packet.

#[local] Open Scope Z_scope.

Definition QueueEntryTTL : Duration := 7 * 24 * Hour.
Definition QueueMaxSenders : nat := 500.
Definition QueueSweepInterval : Duration := 30 * Minute.

Record queuedPacket := mkQueued { pkt : Packet; at_ : Instant }.

(** [type Queue struct]: for each recipient, the bucket of its senders. *)
Abbreviation Queue := (gmap peerID (gmap bytes queuedPacket)).

Definition NewQueue : Queue := ∅.

(** [entry.at.Before(cutoff)] with [cutoff := time.Now().Add(-QueueEntryTTL)]. *)
Definition expired_entry (now : Instant) (e : queuedPacket) : bool :=
  Time.Before (at_ e) (Time.Add now (- QueueEntryTTL)).

Definition Put (now : Instant) (recipient : peerID) (p : option Packet) (q : Queue) : Queue :=
  match p with
  | None => q
  | Some p =>
      let sender := SenderID p in
      let bucket := default ∅ (q !! recipient) in
      let q := match q !! recipient with None => <[recipient := ∅]> q | Some _ => q end in
      match bucket !! sender with
      | None =>
          if (QueueMaxSenders <=? size bucket)%nat then q
          else <[recipient := <[sender := mkQueued p now]> bucket]> q
      | Some _ => <[recipient := <[sender := mkQueued p now]> bucket]> q
      end
  end.

Definition Take `{MapRange} (now : Instant) (recipient : peerID) (q : Queue) : Queue * list Packet :=
  match q !! recipient with
  | None => (q, [])
  | Some bucket =>
      (delete recipient q,
       omap (λ '(_, entry), if expired_entry now entry then None else Some (pkt entry)) (range bucket))
  end.

Definition Len (recipient : peerID) (q : Queue) : nat :=
  size (default ∅ (q !! recipient)).

Definition sweep (now : Instant) (q : Queue) : Queue :=
  filter (λ rb, rb.2 ≠ ∅) (keep (λ e, negb (expired_entry now e)) <$> q).

(** ** The view of a queue its users have: what is held for a pair. *)
Definition held (q : Queue) (recipient : peerID) (sender : bytes) : option queuedPacket :=
  b ← q !! recipient; b !! sender.

(** Whether [Put] stores a packet or drops it. *)
Definition accepts (q : Queue) (recipient : peerID) (sender : bytes) : bool :=
  match held q recipient sender with
  | Some _ => true
  | None => (Len recipient q <? QueueMaxSenders)%nat
  end.

(** ** Well-formed queues *)
Definition bucket_wf (r : peerID) (b : gmap bytes queuedPacket) : Prop :=
  b ≠ ∅ ∧ (size b <= QueueMaxSenders)%nat ∧
  ∀ s e, b !! s = Some e → SenderID (pkt e) = s.

Definition queue_wf (q : Queue) : Prop := map_Forall bucket_wf q.

(** ** Histories and the abstract specification *)

Inductive queue_op :=
| OpPut (recipient : peerID) (p : Packet)
| OpTake (recipient : peerID)
| OpSweep.

Definition queue_step `{MapRange} (now : Instant) (o : queue_op) (q : Queue) : Queue :=
  match o with
  | OpPut r p => Put now r (Some p) q
  | OpTake r => (Take now r q).1
  | OpSweep => sweep now q
  end.

Definition queue_run `{MapRange} (h : list (Instant * queue_op)) (q : Queue) : Queue :=
  foldl (λ q io, queue_step io.1 io.2 q) q h.

(** The last packet put for a pair since the recipient was last taken from. *)
Definition newest (r : peerID) (s : bytes) (h : list (Instant * queue_op)) : option queuedPacket :=
  foldl (λ cur io,
    match io.2 with
    | OpPut x p => if decide (x = r ∧ SenderID p = s) then Some (mkQueued p io.1) else cur
    | OpTake x => if decide (x = r) then None else cur
    | OpSweep => cur
    end) None h.

(** The senders that ever put a packet for [r]. *)
Definition senders (r : peerID) (h : list (Instant * queue_op)) : gset bytes :=
  list_to_set (omap (λ io,
    match io.2 with
    | OpPut x p => if decide (x = r) then Some (SenderID p) else None
    | _ => None
    end) h).

(** ** Lemmas *)

Section queue.
Context `{MapRange}.
Implicit Types (q : Queue) (r : peerID) (s : bytes) (now : Instant) (p : Packet).

Lemma expired_later now t e : now <= t → expired_entry now e = true → expired_entry t e = true.
Proof. unfold expired_entry, Time.Before, Time.Add. intros ? ?. apply Z.ltb_lt. zsolve. Qed.

Lemma Len_held q r : Len r q = size (default ∅ (q !! r)).
Proof. done. Qed.

Lemma held_insert q r (b : gmap bytes queuedPacket) r' s' :
  held (<[r := b]> q) r' s' = if decide (r = r') then b !! s' else held q r' s'.
Proof. unfold held. rewrite lookup_insert. by case_decide. Qed.

(** Storing in the recipient's bucket, on the pair view. *)
Lemma held_store now r p q r' s' :
  held (<[r := <[SenderID p := mkQueued p now]> (default ∅ (q !! r))]> q) r' s' =
    if decide (r = r' ∧ SenderID p = s') then Some (mkQueued p now) else held q r' s'.
Proof.
  rewrite held_insert, lookup_insert. unfold held.
  repeat case_decide; try tauto; subst; by destruct (q !! r').
Qed.

(** [Put] on the pair view: the new packet replaces the old one, unless the
    sender is new and the recipient's slots are all taken. *)
Lemma held_Put now r p q r' s' :
  held (Put now r (Some p) q) r' s' =
    if decide (r = r' ∧ SenderID p = s' ∧ accepts q r (SenderID p) = true)
    then Some (mkQueued p now) else held q r' s'.
Proof.
  assert (Hyes : accepts q r (SenderID p) = true →
    Put now r (Some p) q = <[r := <[SenderID p := mkQueued p now]> (default ∅ (q !! r))]> q).
  { unfold Put, accepts, held, Len. destruct (q !! r) as [b|] eqn:Eq; cbn.
    - destruct (b !! SenderID p); [done|]. intros Hlt.
      destruct (Nat.leb_spec QueueMaxSenders (size b)); [zsolve|done].
    - intros _. by rewrite lookup_empty, insert_insert_eq. }
  assert (Hno : accepts q r (SenderID p) = false → Put now r (Some p) q = q).
  { unfold Put, accepts, held, Len. destruct (q !! r) as [b|] eqn:Eq; cbn; [|done].
    destruct (b !! SenderID p); [done|]. intros Hlt.
    destruct (Nat.leb_spec QueueMaxSenders (size b)); [done|zsolve]. }
  destruct (accepts q r (SenderID p)) eqn:Ea.
  - rewrite (Hyes eq_refl), held_store. repeat case_decide; tauto.
  - rewrite (Hno eq_refl), decide_False; [done|]. by intros (_ & _ & ?).
Qed.

Lemma held_Take now r q r' s' :
  held (Take now r q).1 r' s' = if decide (r = r') then None else held q r' s'.
Proof.
  unfold held, Take. destruct (q !! r) as [b|] eqn:Eq; cbn.
  - case_decide as Hr; [subst; by rewrite lookup_delete_eq|by rewrite lookup_delete_ne].
  - case_decide as Hr; [subst; by rewrite Eq|done].
Qed.

Lemma held_sweep now q r s :
  held (sweep now q) r s =
    e ← held q r s; if expired_entry now e then None else Some e.
Proof.
  unfold held, sweep.
  destruct (q !! r) as [b|] eqn:Eq; cbn.
  - set (b' := keep (λ e, negb (expired_entry now e)) b).
    assert (Hb : ∀ s, b' !! s = e ← b !! s; if expired_entry now e then None else Some e).
    { intros s0. destruct (b !! s0) as [e|] eqn:E; cbn.
      - unfold b'. rewrite (lookup_keep_Some_eq _ _ _ _ E). by destruct (expired_entry now e).
      - apply lookup_keep_None. by left. }
    destruct (decide (b' = ∅)) as [He|He].
    + rewrite <- Hb, He, lookup_empty. destruct (filter _ _ !! r) as [x|] eqn:Ef; [|done].
      apply map_lookup_filter_Some in Ef as [Ef Hne].
      rewrite lookup_fmap, Eq in Ef. cbn in Ef. injection Ef as <-. done.
    + rewrite <- Hb. rewrite (map_lookup_filter_Some_2 _ _ r b'); [done| |done].
      by rewrite lookup_fmap, Eq.
  - destruct (filter _ _ !! r) as [x|] eqn:Ef; [|done].
    apply map_lookup_filter_Some in Ef as [Ef _]. by rewrite lookup_fmap, Eq in Ef.
Qed.

(** What [Take] hands out. *)
Lemma in_Take now r q p :
  p ∈ (Take now r q).2 ↔
    ∃ s e, held q r s = Some e ∧ pkt e = p ∧ expired_entry now e = false.
Proof.
  unfold Take, held. destruct (q !! r) as [b|] eqn:Eq; cbn.
  - rewrite list_elem_of_omap. split.
    + intros ([s e] & Hin & Hp). apply elem_of_range in Hin.
      destruct (expired_entry now e) eqn:Hx; simplify_eq. eauto.
    + intros (s & e & Hb & <- & Hx). exists (s, e). by rewrite elem_of_range, Hx.
  - split; [by intros ?%not_elem_of_nil|by intros (? & ? & ? & _)].
Qed.

Lemma Take_NoDup_senders now r q : queue_wf q → NoDup (SenderID <$> (Take now r q).2).
Proof.
  intros Hwf. unfold Take. destruct (q !! r) as [b|] eqn:Eq; cbn; [|constructor].
  destruct (Hwf r b Eq) as (_ & _ & Hs).
  assert (Hl : ∀ s e, (s, e) ∈ range b → SenderID (pkt e) = s).
  { intros s e ?%elem_of_range. auto. }
  pose proof (NoDup_fst_range b) as Hnd.
  induction (range b) as [|[s e] l IH]; cbn; [constructor|].
  cbn in Hnd. apply NoDup_cons in Hnd as [Hnin Hnd].
  assert (IH' : NoDup (SenderID <$> omap
    (λ '(_, entry), if expired_entry now entry then None else Some (pkt entry)) l)).
  { apply IH; [|done]. intros; apply Hl. by right. }
  guards; [done|]. cbn. constructor; [|done].
  rewrite list_elem_of_fmap. intros (p & Hp & Hin).
  apply list_elem_of_omap in Hin as ([s' e'] & Hin & He).
  destruct (expired_entry now e'); simplify_eq.
  apply Hnin. rewrite <- (Hl s e), Hp, (Hl s' e') by set_solver.
  apply list_elem_of_fmap. by exists (s', e').
Qed.

Lemma Len_Put_le now r p q : (Len r (Put now r (Some p) q) <= S (Len r q))%nat.
Proof.
  unfold Len, Put. destruct (q !! r) as [b|] eqn:Eq; cbn.
  - pose proof (size_insert_le b (SenderID p) (mkQueued p now)).
    destruct (b !! SenderID p); [by rewrite lookup_insert_eq|].
    guards; [rewrite Eq; cbn; lia|by rewrite lookup_insert_eq].
  - rewrite lookup_empty, map_size_empty. change (QueueMaxSenders <=? 0)%nat with false.
    rewrite insert_insert_eq, lookup_insert_eq. cbn [default from_option].
    pose proof (size_insert_le (∅ : gmap bytes queuedPacket) (SenderID p) (mkQueued p now)) as Hle.
    by rewrite map_size_empty in Hle.
Qed.

(** [Take] empties the recipient, and returns no more than it could hold. *)
Lemma Take_length now r q :
  queue_wf q →
  (Len r (Take now r q).1 + length (Take now r q).2 <= QueueMaxSenders)%nat ∧
  Len r (Take now r q).1 = 0%nat.
Proof.
  intros Hwf. unfold Take, Len. destruct (q !! r) as [b|] eqn:Eq; cbn [fst snd].
  - rewrite lookup_delete_eq. cbn [default from_option]. rewrite map_size_empty.
    split; [|done]. etrans; [apply length_omap_le|]. rewrite length_range.
    apply (Hwf r b Eq).
  - rewrite Eq. cbn [default from_option]. rewrite map_size_empty. cbn.
    unfold QueueMaxSenders. lia.
Qed.

(** ** Every operation keeps a queue well formed *)

Lemma NewQueue_wf : queue_wf NewQueue.
Proof. apply map_Forall_empty. Qed.

Lemma bucket_insert_wf r (b : gmap bytes queuedPacket) p now :
  (∀ s e, b !! s = Some e → SenderID (pkt e) = s) →
  (size (<[SenderID p := mkQueued p now]> b) <= QueueMaxSenders)%nat →
  bucket_wf r (<[SenderID p := mkQueued p now]> b).
Proof.
  intros Hs Hsz. split_and!; [apply insert_non_empty|done|].
  intros s e. rewrite lookup_insert. case_decide; [intros; by simplify_eq|apply Hs].
Qed.

Lemma Put_wf now r (p : option Packet) q : queue_wf q → queue_wf (Put now r p q).
Proof.
  intros Hwf. destruct p as [p|]; [|done]. cbn.
  destruct (q !! r) as [b|] eqn:Eq; cbn.
  - destruct (Hwf r b Eq) as (_ & Hsz & Hs).
    destruct (b !! SenderID p) as [e|] eqn:Eb.
    + apply map_Forall_insert_2; [|done]. apply bucket_insert_wf; [done|].
      rewrite size_insert_present; [done|by eexists].
    + guards; [done|]. apply map_Forall_insert_2; [|done].
      apply bucket_insert_wf; [done|].
      pose proof (size_insert_le b (SenderID p) (mkQueued p now)). zsolve.
  - rewrite lookup_empty. cbn. rewrite insert_insert_eq.
    apply map_Forall_insert_2; [|done]. apply bucket_insert_wf.
    + intros s e. by rewrite lookup_empty.
    + pose proof (size_insert_le (∅ : gmap bytes queuedPacket) (SenderID p) (mkQueued p now)) as Hle.
      rewrite map_size_empty in Hle. unfold QueueMaxSenders. lia.
Qed.

Lemma Take_wf now r q : queue_wf q → queue_wf (Take now r q).1.
Proof.
  intros Hwf. unfold Take. destruct (q !! r); cbn; [|done]. by apply map_Forall_delete.
Qed.

Lemma sweep_wf now q : queue_wf q → queue_wf (sweep now q).
Proof.
  intros Hwf r b Hb. unfold sweep in Hb. apply map_lookup_filter_Some in Hb as [Hb Hne].
  rewrite lookup_fmap in Hb. destruct (q !! r) as [b0|] eqn:Eq; [|done].
  cbn in *. simplify_eq. destruct (Hwf r b0 Eq) as (_ & Hsz & Hs). split_and!; [done| |].
  - etrans; [apply size_keep_le|done].
  - intros s e [? _]%lookup_keep. auto.
Qed.

Lemma queue_step_wf now o q : queue_wf q → queue_wf (queue_step now o q).
Proof. destruct o; [apply Put_wf|apply Take_wf|apply sweep_wf]. Qed.

Lemma queue_run_snoc h io q : queue_run (h ++ [io]) q = queue_step io.1 io.2 (queue_run h q).
Proof. unfold queue_run. by rewrite foldl_app. Qed.

Lemma queue_run_wf h q : queue_wf q → queue_wf (queue_run h q).
Proof.
  intros Hq. induction h as [|io h IH] using rev_ind; [done|].
  rewrite queue_run_snoc. by apply queue_step_wf.
Qed.

Lemma newest_snoc r s h io :
  newest r s (h ++ [io]) =
    match io.2 with
    | OpPut x p =>
        if decide (x = r ∧ SenderID p = s) then Some (mkQueued p io.1) else newest r s h
    | OpTake x => if decide (x = r) then None else newest r s h
    | OpSweep => newest r s h
    end.
Proof. unfold newest. by rewrite foldl_app. Qed.

Lemma senders_snoc r h io :
  senders r (h ++ [io]) =
    senders r h ∪
    match io.2 with OpPut x p => if decide (x = r) then {[SenderID p]} else ∅ | _ => ∅ end.
Proof.
  unfold senders. rewrite omap_app, list_to_set_app_L. f_equal.
  destruct io as [u [x p|x|]]; cbn; [case_decide; cbn|..]; set_solver.
Qed.

(** Everything held for [r] was put there by one of its senders. *)
Lemma held_senders h r s :
  is_Some (held (queue_run h NewQueue) r s) → s ∈ senders r h.
Proof.
  induction h as [|[u o] h IH] using rev_ind; [by intros []|].
  rewrite queue_run_snoc, senders_snoc. destruct o as [x p|x|]; cbn [fst snd queue_step].
  - rewrite held_Put. case_decide as Hd; [|set_solver].
    intros _. destruct Hd as (-> & <- & _). rewrite decide_True by done. set_solver.
  - rewrite held_Take. case_decide; [by intros []|set_solver].
  - rewrite held_sweep. intros [e He]. apply elem_of_union_l, IH.
    destruct (held _ r s); [eauto|done].
Qed.

(** A recipient with at most [QueueMaxSenders] senders in all never has a
    packet dropped for want of a slot. *)
Lemma accepts_few h r p u :
  (size (senders r (h ++ [(u, OpPut r p)])) <= QueueMaxSenders)%nat →
  accepts (queue_run h NewQueue) r (SenderID p) = true.
Proof.
  intros Hsz. unfold accepts. destruct (held _ r (SenderID p)) eqn:Eh; [done|].
  apply Nat.ltb_lt. eapply Nat.lt_le_trans; [|exact Hsz]. unfold Len.
  rewrite <- size_dom. apply (subset_size (C := gset bytes)). split.
  - intros s [e He]%elem_of_dom. rewrite senders_snoc. apply elem_of_union_l, held_senders.
    unfold held. destruct (queue_run h NewQueue !! r); cbn in *; [by eexists|done].
  - intros Hsub. assert (Hin : SenderID p ∈ dom (default ∅ (queue_run h NewQueue !! r))).
    { apply Hsub. rewrite senders_snoc. cbn. rewrite decide_True by done. set_solver. }
    apply elem_of_dom in Hin as [e He]. unfold held in Eh.
    destruct (queue_run h NewQueue !! r); cbn in Eh, He; [congruence|by rewrite lookup_empty in He].
Qed.

(** The queue holds the newest packet of every pair, except that entries past
    their time to live may already have been swept. *)
Lemma held_newest h t0 r s :
  timed t0 h → (size (senders r h) <= QueueMaxSenders)%nat →
  held (queue_run h NewQueue) r s = newest r s h ∨
  (held (queue_run h NewQueue) r s = None ∧
   ∃ e, newest r s h = Some e ∧ expired_entry (ends t0 h) e = true).
Proof.
  induction h as [|[u o] h IH] using rev_ind; [by left|].
  intros [Htimed Hu]%timed_snoc Hsz. rewrite ends_snoc.
  assert (Hsz' : (size (senders r h) <= QueueMaxSenders)%nat).
  { etrans; [|exact Hsz]. apply subseteq_size. rewrite senders_snoc. set_solver. }
  rewrite queue_run_snoc, newest_snoc. destruct o as [x p|x|]; cbn [fst snd queue_step].
  - rewrite held_Put. destruct (decide (x = r ∧ SenderID p = s)) as [[-> <-]|Hne].
    + left. by rewrite decide_True by eauto using accepts_few.
    + rewrite decide_False by tauto.
      destruct (IH Htimed Hsz') as [?|(? & e & ? & ?)]; [by left|right].
      eauto using expired_later.
  - rewrite held_Take. case_decide; [by left|].
    destruct (IH Htimed Hsz') as [?|(? & e & ? & ?)]; [by left|right].
    eauto using expired_later.
  - rewrite held_sweep. destruct (IH Htimed Hsz') as [->|(-> & e & ? & ?)].
    + destruct (newest r s h) as [e|]; cbn; [|by left].
      destruct (expired_entry u e) eqn:Hx; [right|by left]. eauto.
    + right. eauto using expired_later.
Qed.
End queue.

(** ** Theorems *)

(** C12. The queue refines "newest packet per (recipient, sender)": after any
    timed history of puts, takes and sweeps, taking from a recipient with at
    most [QueueMaxSenders] senders returns exactly, for each sender, the last
    packet put since the previous take that is not older than
    [QueueEntryTTL], never two packets of one sender, and leaves nothing held
    for the recipient. *)
Theorem take_returns_newest `{MapRange} (h : list (Instant * queue_op)) (t0 now : Instant) (r : peerID)
    (Htimed : timed t0 h) (Hnow : ends t0 h <= now)
    (Hfew : (size (senders r h) <= QueueMaxSenders)%nat) :
  let out := (Take now r (queue_run h NewQueue)).2 in
  NoDup (SenderID <$> out) ∧
  (∀ p, p ∈ out ↔ ∃ s e, newest r s h = Some e ∧ pkt e = p ∧ expired_entry now e = false) ∧
  Len r (Take now r (queue_run h NewQueue)).1 = 0%nat.
Proof.
  cbn zeta. split_and!.
  - apply Take_NoDup_senders, queue_run_wf, NewQueue_wf.
  - intros p. rewrite in_Take.
    split; intros (s & e & He & Hp & Hx); exists s, e; (split; [|done]).
    + destruct (held_newest h t0 r s Htimed Hfew) as [<-|[Hn _]]; [done|congruence].
    + destruct (held_newest h t0 r s Htimed Hfew) as [->|(Hn & e' & He' & Hx')]; [done|].
      simplify_eq. by rewrite (expired_later _ _ _ Hnow Hx') in Hx.
  - unfold Len, Take. destruct (queue_run h NewQueue !! r) eqn:Eq; cbn.
    + by rewrite lookup_delete_eq.
    + by rewrite Eq.
Qed.

(** Every history keeps the queue within its bounds: no recipient ever
    holds more than [QueueMaxSenders] packets, no empty bucket is kept, and
    every entry sits under its own packet's sender. *)
Theorem queue_bounded `{MapRange} (h : list (Instant * queue_op)) :
  queue_wf (queue_run h NewQueue) ∧
  ∀ r, (Len r (queue_run h NewQueue) <= QueueMaxSenders)%nat.
Proof.
  assert (Hwf : queue_wf (queue_run h NewQueue)) by apply queue_run_wf, NewQueue_wf.
  split; [done|]. intros r. unfold Len.
  destruct (queue_run h NewQueue !! r) as [b|] eqn:Eq; cbn; [by apply (Hwf r b Eq)|].
  rewrite map_size_empty. unfold QueueMaxSenders. lia.
Qed.

(** A full bucket: [Put] from a sender without a slot changes nothing when
    [QueueMaxSenders] other senders hold one, and a sender that has a slot is
    always served, whatever the occupancy. *)
Theorem put_at_capacity (now : Instant) (r : peerID) (p : Packet) (q : Queue)
    (Hfull : Len r q = QueueMaxSenders) :
  (held q r (SenderID p) = None → Put now r (Some p) q = q) ∧
  (is_Some (held q r (SenderID p)) →
     held (Put now r (Some p) q) r (SenderID p) = Some (mkQueued p now) ∧
     Len r (Put now r (Some p) q) = QueueMaxSenders).
Proof.
  unfold Put, held, Len in *. destruct (q !! r) as [b|] eqn:Eq; cbn in *.
  - rewrite Hfull. split.
    + intros ->. done.
    + intros [e He]. rewrite He, !lookup_insert_eq. cbn.
      by rewrite lookup_insert_eq, size_insert_present by eauto.
  - by rewrite map_size_empty in Hfull.
Qed.

Definition sample_packet (v : string) : Packet := mkPacket v "alice" "bob" v 0.

Lemma take_returns_newest_witness :
  let h := [(1, OpPut "bob" (sample_packet "v1")); (2, OpPut "bob" (sample_packet "v2")); (3, OpSweep)] in
  let out := (Take 4 "bob" (queue_run h NewQueue)).2 in
  NoDup (SenderID <$> out) ∧
  (∀ p, p ∈ out ↔ ∃ s e, newest "bob" s h = Some e ∧ pkt e = p ∧ expired_entry 4 e = false) ∧
  Len "bob" (Take 4 "bob" (queue_run h NewQueue)).1 = 0%nat.
Proof.
  apply (take_returns_newest
    [(1, OpPut "bob" (sample_packet "v1")); (2, OpPut "bob" (sample_packet "v2")); (3, OpSweep)] 0 4 "bob").
  - cbn. lia.
  - cbn. lia.
  - vm_compute. lia.
Defined.

(** A queue in which [QueueMaxSenders] senders hold a slot for ["bob"]. *)
Definition full_queue : Queue :=
  foldr (λ i q, Put 0 "bob" (Some (mkPacket "id" (bits_of_pos (Pos.of_succ_nat i)) "bob" "" 0)) q) NewQueue (seq 0 QueueMaxSenders).

Lemma put_at_capacity_witness :
  let p := mkPacket "id" "newcomer" "bob" "" 0 in
  (held full_queue "bob" "newcomer" = None → Put 1 "bob" (Some p) full_queue = full_queue) ∧
  (is_Some (held full_queue "bob" "newcomer") →
     held (Put 1 "bob" (Some p) full_queue) "bob" "newcomer" = Some (mkQueued p 1) ∧
     Len "bob" (Put 1 "bob" (Some p) full_queue) = QueueMaxSenders).
Proof.
  apply (put_at_capacity 1 "bob" (mkPacket "id" "newcomer" "bob" "" 0) full_queue).
  vm_compute. reflexivity.
Defined.
