(* ===== verification/Json.v ===== *)
(** * [encoding/json], at the level of JSON values

    A message body is the JSON value its text denotes, or [None] when the text is
    not JSON; JsonCodec.v models the text, and shows that a value whose strings
    are valid UTF-8 is read as it was printed. Here is what [json.Unmarshal] does
    with a value when it fills a Go struct: keys are matched case-insensitively,
    unknown keys are skipped, the last duplicate wins, [null] leaves a field as
    it is, absent fields keep their zero value, and a value of the wrong type is
    an error. *)

From S2P Require Import Prelude GoTime.

#[local] Open Scope Z_scope.

#[local] Set Warnings "-register-all".

Inductive json :=
| JNull
| JBool (b : bool)
| JInt (z : Z)                     (* a number literal without fraction or exponent *)
| JNum                             (* any other number literal *)
| JStr (s : string)
| JArr (l : list json)
| JObj (kvs : list (string * json)).

(** ** Matching keys to struct fields

    [foldName] maps a key to the smallest key [bytes.EqualFold] to it. The
    field names of this program are ASCII; besides the ASCII letters, only U+017F
    (long s) and U+212A (Kelvin sign) fold to ASCII. *)

Definition upper_ascii (a : Ascii.ascii) : Ascii.ascii :=
  let n := Ascii.nat_of_ascii a in
  if ((97 <=? n) && (n <=? 122))%nat then Ascii.ascii_of_nat (n - 32) else a.

Definition byte (n : nat) : Ascii.ascii := Ascii.ascii_of_nat n.

Fixpoint foldName (s : string) : string :=
  match s with
  | EmptyString => EmptyString
  | String a rest =>
      match rest with
      | String b rest' =>
          if Ascii.eqb a (byte 197) && Ascii.eqb b (byte 191)      (* C5 BF *)
          then String (byte 83) (foldName rest')
          else
            match rest' with
            | String c rest'' =>
                if Ascii.eqb a (byte 226) && Ascii.eqb b (byte 132) && Ascii.eqb c (byte 170)  (* E2 84 AA *)
                then String (byte 75) (foldName rest'')
                else String (upper_ascii a) (foldName rest)
            | EmptyString => String (upper_ascii a) (foldName rest)
            end
      | EmptyString => String (upper_ascii a) EmptyString
      end
  end.

(** The values an object gives to the field [name], in the order of the text. *)
Definition obj_values (name : string) (kvs : list (string * json)) : list json :=
  omap (λ '(k, v), if String.eqb (foldName k) (foldName name) then Some v else None) kvs.

(** ** Filling a field: fold over the values given to it *)

Definition fill {A} (zero : A) (conv : json → option A) (vs : list json) : option A :=
  foldl (λ acc v, cur ← acc; match v with JNull => Some cur | _ => conv v end) (Some zero) vs.

Definition to_string (v : json) : option string :=
  match v with JStr s => Some s | _ => None end.

(** An [int] or [int64] field: integer literals in range only. *)
Definition to_int (v : json) : option Z :=
  match v with
  | JInt z => if (minInt64 <=? z) && (z <=? maxInt64) then Some z else None
  | _ => None
  end.

Definition to_bool (v : json) : option bool :=
  match v with JBool b => Some b | _ => None end.

(** Elements of a [[]string]: [null] leaves the zero string. *)
Definition to_element (v : json) : option string :=
  match v with JStr s => Some s | JNull => Some ""%string | _ => None end.

Definition to_strings (v : json) : option (list string) :=
  match v with JArr l => mapM to_element l | _ => None end.

Definition dec_string (name : string) (kvs : list (string * json)) : option string :=
  fill ""%string to_string (obj_values name kvs).
Definition dec_int (name : string) (kvs : list (string * json)) : option Z :=
  fill 0 to_int (obj_values name kvs).
Definition dec_bool (name : string) (kvs : list (string * json)) : option bool :=
  fill false to_bool (obj_values name kvs).
(** A slice field distinguishes [nil] ([None]) from an empty slice; a [null]
    makes it [nil]. *)
Definition dec_slice (name : string) (kvs : list (string * json)) : option (option (list string)) :=
  foldl (λ acc v, _ ← acc; match v with JNull => Some None | _ => Some <$> to_strings v end)
    (Some None) (obj_values name kvs).

(** [json.Unmarshal(data, &v)] into a zeroed struct: [null] is accepted and
    does nothing, any other value that is not an object is an error. *)
Definition dec_struct {A} (zero : A) (fields : list (string * json) → option A) (v : json) : option A :=
  match v with
  | JNull => Some zero
  | JObj kvs => fields kvs
  | _ => None
  end.

(** ** Encoding *)

(** A field tagged [omitempty] is left out when it has its zero value. *)
Definition omitempty (name : string) (zero : bool) (v : json) : list (string * json) :=
  if zero then [] else [(name, v)].

Definition enc_slice (l : option (list string)) : json :=
  match l with None => JNull | Some l => JArr (JStr <$> l) end.

(** ** Lemmas *)

Lemma to_int_in z : is_int64 z → to_int (JInt z) = Some z.
Proof.
  intros [? ?]. cbn.
  by rewrite (proj2 (Z.leb_le _ _)), (proj2 (Z.leb_le _ _)) by done.
Qed.

Lemma mapM_elements (l : list string) : mapM to_element (JStr <$> l) = Some l.
Proof. induction l as [|s l IH]; [done|]. cbn. rewrite IH. done. Qed.

(** The key tests of a concrete object evaluate. *)
Ltac json_keys :=
  repeat match goal with
  | |- context [obj_values ?n ?kvs] =>
      let x := eval vm_compute in (obj_values n kvs) in
      change (obj_values n kvs) with x
  end.
