(* ===== verification/JsonCodec.v ===== *)
(** * The text of JSON ([encoding/json], Go 1.25)

    [json_Marshal] prints a value as [json.Marshal] does: no white space, the
    characters that matter in HTML escaped, and each byte that is not part of
    valid UTF-8 replaced by U+FFFD. [json_Unmarshal] reads a text as the decoder
    does, up to the value it denotes; Json.v fills structs with it. *)

From S2P Require Import Prelude GoStrings Json.
From stdpp Require Import pretty.
From Stdlib Require Import Ascii.

#[local] Open Scope list_scope.
#[local] Open Scope N_scope.

Definition text : Type := list ascii.
Definition to_text (s : string) : text := String.list_ascii_of_string s.
Definition of_text (t : text) : string := String.string_of_list_ascii t.

Definition in_range (lo hi : N) (a : ascii) : bool := (lo <=? of_byte a) && (of_byte a <=? hi).

(** ** UTF-8 ([unicode/utf8]) *)

(** The second byte that may follow a first one, and how many bytes the rune has;
    [None] for a byte that cannot come first. *)
Definition first_byte (a : ascii) : option (N * N * nat) :=
  let x := of_byte a in
  if x <? 128 then Some (128, 191, 1%nat)
  else if (194 <=? x) && (x <=? 223) then Some (128, 191, 2%nat)
  else if x =? 224 then Some (160, 191, 3%nat)
  else if x =? 237 then Some (128, 159, 3%nat)
  else if (225 <=? x) && (x <=? 239) then Some (128, 191, 3%nat)
  else if x =? 240 then Some (144, 191, 4%nat)
  else if (241 <=? x) && (x <=? 243) then Some (128, 191, 4%nat)
  else if x =? 244 then Some (128, 143, 4%nat)
  else None.

(** The bytes of the rune at the head and what follows it; [None] is
    [RuneError] of width 1. *)
Definition rune (t : text) : option (text * text) :=
  match t with
  | [] => None
  | a :: t =>
      match first_byte a with
      | None => None
      | Some (lo, hi, 1%nat) => Some ([a], t)
      | Some (lo, hi, n) =>
          match t with
          | b :: t =>
              if negb (in_range lo hi b) then None
              else
                match n with
                | 2%nat => Some ([a; b], t)
                | 3%nat =>
                    match t with
                    | c :: t => if in_range 128 191 c then Some ([a; b; c], t) else None
                    | [] => None
                    end
                | _ =>
                    match t with
                    | c :: d :: t => if in_range 128 191 c && in_range 128 191 d then Some ([a; b; c; d], t) else None
                    | _ => None
                    end
                end
          | [] => None
          end
      end
  end.

(** U+FFFD *)
Definition replacement : text := [byte 239; byte 191; byte 189].

(** A string as [range] goes over it: the bytes of a rune, or a byte that
    belongs to none. *)
Fixpoint runes (fuel : nat) (t : text) : list (text + ascii) :=
  match fuel, t with
  | S fuel, a :: t' =>
      match rune t with
      | Some (r, rest) => inl r :: runes fuel rest
      | None => inr a :: runes fuel t'
      end
  | _, _ => []
  end.
Definition runes_of (s : string) : list (text + ascii) := runes (String.length s) (to_text s).

(** What a rune, or a byte that belongs to none, becomes. *)
Definition fixed (r : text + ascii) : text := match r with inl r => r | inr _ => replacement end.

(** The string with every byte outside of a rune replaced. *)
Definition clean (s : string) : string := of_text (runes_of s ≫= fixed).

(** [utf8.ValidString] *)
Definition utf8_Valid (s : string) : bool := forallb (λ r, match r with inl _ => true | inr _ => false end) (runes_of s).

(** ** Printing strings *)

Definition hex_digit (n : N) : ascii := if n <? 10 then to_byte (48 + n) else to_byte (87 + n).
Definition quote : ascii := byte 34.
Definition backslash : ascii := byte 92.

(** The loop of [appendString] with [escapeHTML]. *)
Definition escape_ascii (a : ascii) : text :=
  let x := of_byte a in
  if (x =? 34) || (x =? 92) then [backslash; a]
  else if x =? 8 then [backslash; byte 98]
  else if x =? 12 then [backslash; byte 102]
  else if x =? 10 then [backslash; byte 110]
  else if x =? 13 then [backslash; byte 114]
  else if x =? 9 then [backslash; byte 116]
  else if (x <? 32) || (x =? 60) || (x =? 62) || (x =? 38)
  then [backslash; byte 117; byte 48; byte 48; hex_digit (N.shiftr x 4); hex_digit (N.land x 15)]
  else [a].

Definition escape (r : text + ascii) : text :=
  match r with
  | inl [a] => escape_ascii a
  | inl [a; b; c] =>
      (* U+2028 and U+2029 *)
      if (of_byte a =? 226) && (of_byte b =? 128) && in_range 168 169 c
      then [backslash; byte 117; byte 50; byte 48; byte 50; hex_digit (N.land (of_byte c) 15)]
      else [a; b; c]
  | inl r => r
  | inr _ => [backslash; byte 117; byte 102; byte 102; byte 102; byte 100]
  end.

Definition print_string (s : string) : text := quote :: (runes_of s ≫= escape) ++ [quote].

(** ** Printing values *)

Definition comma : ascii := byte 44.
Definition colon : ascii := byte 58.

(** [Join] on texts. *)
Fixpoint separated (sep : ascii) (l : list text) : text :=
  match l with
  | [] => []
  | [x] => x
  | x :: l => x ++ sep :: separated sep l
  end.

(** A value without fraction or exponent: the program has no field of a
    floating-point type, so it never prints a [JNum]. *)
Fixpoint print (v : json) : text :=
  match v with
  | JNull => to_text "null"
  | JBool b => to_text (if b then "true" else "false")
  | JInt z => to_text (pretty z)
  | JNum => []
  | JStr s => print_string s
  | JArr l => byte 91 :: separated comma (print <$> l) ++ [byte 93]
  | JObj kvs => byte 123 :: separated comma ((λ kv, print_string kv.1 ++ colon :: print kv.2) <$> kvs) ++ [byte 125]
  end.

(** [json.Marshal] *)
Definition json_Marshal (v : json) : bytes := of_text (print v).

(** ** Reading *)

Definition is_space (a : ascii) : bool :=
  let x := of_byte a in (x =? 32) || (x =? 9) || (x =? 13) || (x =? 10).

Fixpoint skip_ws (t : text) : text :=
  match t with
  | a :: t' => if is_space a then skip_ws t' else t
  | [] => []
  end.

Definition hex_val (a : ascii) : option N :=
  let x := of_byte a in
  if in_range 48 57 a then Some (x - 48)
  else if in_range 97 102 a then Some (x - 87)
  else if in_range 65 70 a then Some (x - 55)
  else None.

(** [getu4], on the four digits *)
Definition getu4 (a b c d : ascii) : option N :=
  x ← hex_val a; y ← hex_val b; z ← hex_val c; w ← hex_val d;
  Some (((x * 16 + y) * 16 + z) * 16 + w).

(** [utf8.AppendRune], of a code point that is not a surrogate *)
Definition encode_rune (n : N) : text :=
  if n <? 128 then [to_byte n]
  else if n <? 2048 then [to_byte (192 + N.shiftr n 6); to_byte (128 + N.land n 63)]
  else if n <? 65536
  then [to_byte (224 + N.shiftr n 12); to_byte (128 + N.land (N.shiftr n 6) 63); to_byte (128 + N.land n 63)]
  else [to_byte (240 + N.shiftr n 18); to_byte (128 + N.land (N.shiftr n 12) 63);
        to_byte (128 + N.land (N.shiftr n 6) 63); to_byte (128 + N.land n 63)].

Definition high_surrogate (n : N) : bool := (55296 <=? n) && (n <? 56320).
Definition low_surrogate (n : N) : bool := (56320 <=? n) && (n <? 57344).

Definition simple_escape (a : ascii) : option ascii :=
  let x := of_byte a in
  if (x =? 34) || (x =? 92) || (x =? 47) then Some a
  else if x =? 98 then Some (byte 8)
  else if x =? 102 then Some (byte 12)
  else if x =? 110 then Some (byte 10)
  else if x =? 114 then Some (byte 13)
  else if x =? 116 then Some (byte 9)
  else None.

Definition push (x : text) (r : option (text * text)) : option (text * text) :=
  '(y, t) ← r; Some (x ++ y, t).

(** The bytes a string literal denotes, after its opening quote, and what
    follows it: [unquoteBytes] without its last case, the replacement of bytes
    that are no UTF-8, which does not depend on the others. *)
Fixpoint unquote (t : text) : option (text * text) :=
  match t with
  | [] => None
  | a :: t =>
      if Ascii.eqb a quote then Some ([], t)
      else if Ascii.eqb a backslash then
        match t with
        | [] => None
        | b :: t =>
            match simple_escape b with
            | Some c => push [c] (unquote t)
            | None =>
                if negb (of_byte b =? 117) then None
                else
                  match t with
                  | x :: y :: z :: w :: t =>
                      match getu4 x y z w with
                      | None => None
                      | Some n =>
                          if high_surrogate n || low_surrogate n then
                            match t with
                            | e :: u :: x' :: y' :: z' :: w' :: t' =>
                                match (if Ascii.eqb e backslash && (of_byte u =? 117) then getu4 x' y' z' w' else None) with
                                | Some m =>
                                    if high_surrogate n && low_surrogate m
                                    then push (encode_rune (65536 + N.shiftl (n - 55296) 10 + (m - 56320))) (unquote t')
                                    else push replacement (unquote t)
                                | None => push replacement (unquote t)
                                end
                            | _ => push replacement (unquote t)
                            end
                          else push (encode_rune n) (unquote t)
                      end
                  | _ => None
                  end
            end
        end
      else if of_byte a <? 32 then None
      else push [a] (unquote t)
  end.

(** A string literal after its opening quote. *)
Definition read_string (t : text) : option (string * text) :=
  '(raw, t) ← unquote t; Some (clean (of_text raw), t).

Definition is_digit (a : ascii) : bool := in_range 48 57 a.

Fixpoint span_digits (t : text) : text * text :=
  match t with
  | a :: t' => if is_digit a then let '(ds, r) := span_digits t' in (a :: ds, r) else ([], t)
  | [] => ([], [])
  end.

Definition digits_val (ds : text) : N := foldl (λ acc a, acc * 10 + (of_byte a - 48)) 0 ds.

(** One or more digits, skipped. *)
Definition some_digits (t : text) : option text :=
  match span_digits t with ([], _) => None | (_, t) => Some t end.

(** The parts of a number literal; a leading zero stands alone. *)
Definition integer_part (t : text) : option (text * text) :=
  match t with
  | a :: t' =>
      if of_byte a =? 48 then Some ([a], t')
      else if is_digit a then Some (span_digits t) else None
  | [] => None
  end.

Definition fraction_part (t : text) : option (bool * text) :=
  match t with
  | a :: t' => if of_byte a =? 46 then pair true <$> some_digits t' else Some (false, t)
  | [] => Some (false, t)
  end.

Definition skip_sign (t : text) : text :=
  match t with
  | s :: t' => if (of_byte s =? 43) || (of_byte s =? 45) then t' else t
  | [] => t
  end.

Definition exponent_part (t : text) : option (bool * text) :=
  match t with
  | a :: t' =>
      if (of_byte a =? 101) || (of_byte a =? 69) then pair true <$> some_digits (skip_sign t')
      else Some (false, t)
  | [] => Some (false, t)
  end.

(** A number literal after its sign. *)
Definition read_unsigned (neg : bool) (t : text) : option (json * text) :=
  '(ds, t) ← integer_part t;
  '(frac, t) ← fraction_part t;
  '(expo, t) ← exponent_part t;
  let n := Z.of_N (digits_val ds) in
  Some (if frac || expo then JNum else JInt (if neg then Z.opp n else n), t).

Definition read_number (t : text) : option (json * text) :=
  match t with
  | a :: t' => if of_byte a =? 45 then read_unsigned true t' else read_unsigned false t
  | [] => None
  end.

(** What follows a given word. *)
Fixpoint after (w t : text) : option text :=
  match w, t with
  | [], _ => Some t
  | a :: w, b :: t => if Ascii.eqb a b then after w t else None
  | _, [] => None
  end.

(** A value at the head of a text and what follows it. [d] is how many arrays and
    objects may still be opened ([maxNestingDepth]). *)
Fixpoint read_value (fuel : nat) (d : N) (t : text) : option (json * text) :=
  match fuel with
  | O => None
  | S fuel =>
      match skip_ws t with
      | [] => None
      | a :: t' =>
          let x := of_byte a in
          if x =? 123 then
            if d =? 0 then None
            else
              match skip_ws t' with
              | b :: t'' =>
                  if of_byte b =? 125 then Some (JObj [], t'')
                  else '(kvs, r) ← read_members fuel (N.pred d) t'; Some (JObj kvs, r)
              | [] => None
              end
          else if x =? 91 then
            if d =? 0 then None
            else
              match skip_ws t' with
              | b :: t'' =>
                  if of_byte b =? 93 then Some (JArr [], t'')
                  else '(vs, r) ← read_elements fuel (N.pred d) t'; Some (JArr vs, r)
              | [] => None
              end
          else if x =? 34 then '(s, r) ← read_string t'; Some (JStr s, r)
          else if x =? 110 then pair JNull <$> after (to_text "ull") t'
          else if x =? 116 then pair (JBool true) <$> after (to_text "rue") t'
          else if x =? 102 then pair (JBool false) <$> after (to_text "alse") t'
          else read_number (a :: t')
      end
  end
with read_elements (fuel : nat) (d : N) (t : text) : option (list json * text) :=
  match fuel with
  | O => None
  | S fuel =>
      '(v, t) ← read_value fuel d t;
      match skip_ws t with
      | a :: t =>
          if of_byte a =? 44 then '(vs, r) ← read_elements fuel d t; Some (v :: vs, r)
          else if of_byte a =? 93 then Some ([v], t)
          else None
      | [] => None
      end
  end
with read_members (fuel : nat) (d : N) (t : text) : option (list (string * json) * text) :=
  match fuel with
  | O => None
  | S fuel =>
      match skip_ws t with
      | q :: t =>
          if negb (of_byte q =? 34) then None
          else
            '(k, t) ← read_string t;
            match skip_ws t with
            | c :: t =>
                if negb (of_byte c =? 58) then None
                else
                  '(v, t) ← read_value fuel d t;
                  match skip_ws t with
                  | a :: t =>
                      if of_byte a =? 44 then '(kvs, r) ← read_members fuel d t; Some ((k, v) :: kvs, r)
                      else if of_byte a =? 125 then Some ([(k, v)], t)
                      else None
                  | [] => None
                  end
            | [] => None
            end
      | [] => None
      end
  end.

Definition maxNestingDepth : N := 10000.
Definition fuel_for (t : text) : nat := S (S (2 * length t)).

(** The value [json.Unmarshal] fills its argument with: the whole text is one value. *)
Definition json_Unmarshal (s : bytes) : option json :=
  let t := to_text s in
  '(v, r) ← read_value (fuel_for t) maxNestingDepth t;
  match skip_ws r with [] => Some v | _ => None end.

(** The first value of a stream, as [Decoder.Decode] takes it: what follows is
    not looked at. *)
Definition json_Decode (s : bytes) : option json :=
  fst <$> read_value (fuel_for (to_text s)) maxNestingDepth (to_text s).

(** ** Lemmas *)

#[local] Arguments rune : simpl never.
#[local] Arguments first_byte : simpl never.

Lemma to_of_text (t : text) : to_text (of_text t) = t.
Proof. apply String.list_ascii_of_string_of_list_ascii. Qed.
Lemma of_to_text (s : string) : of_text (to_text s) = s.
Proof. apply String.string_of_list_ascii_of_string. Qed.
Lemma length_to_text (s : string) : length (to_text s) = String.length s.
Proof. unfold to_text. induction s as [|a s IH]; [done|]. cbn. by rewrite IH. Qed.
Lemma to_text_app (a b : string) : to_text (String.append a b) = to_text a ++ to_text b.
Proof.
  unfold to_text. induction a as [|x a IH]; [done|].
  change (String x a +:+ b) with (String x (a +:+ b)). cbn [String.list_ascii_of_string]. by rewrite IH.
Qed.

(** *** UTF-8 *)

Definition complete (r : text) : Prop := rune r = Some (r, []).

Lemma rune_spec t r rest : rune t = Some (r, rest) → t = r ++ rest ∧ r ≠ [] ∧ ∀ t', rune (r ++ t') = Some (r, t').
Proof.
  unfold rune. destruct t as [|a t]; [done|].
  destruct (first_byte a) as [[[lo hi] n]|] eqn:Ef; [|done]. intros Hr.
  repeat match type of Hr with
  | context [match ?x with _ => _ end] =>
      lazymatch x with context [match _ with _ => _ end] => fail | _ => destruct x eqn:? end
  end; try discriminate Hr; injection Hr as <- <-; (split; [done|split; [done|]]); intros t';
    cbn [app]; rewrite Ef; by repeat (match goal with H : _ = _ |- _ => rewrite H end; cbn [negb]).
Qed.

Lemma rune_complete t r rest : rune t = Some (r, rest) → complete r.
Proof. intros (_ & _ & H)%rune_spec. unfold complete. by rewrite <- (app_nil_r r) at 1. Qed.

Lemma complete_app r t : complete r → rune (r ++ t) = Some (r, t).
Proof. by intros (_ & _ & H)%rune_spec. Qed.

Lemma complete_nonempty r : complete r → r ≠ [].
Proof. by intros (_ & H & _)%rune_spec. Qed.

Lemma first_byte_low a : of_byte a < 128 → first_byte a = Some (128, 191, 1%nat).
Proof. intros Ha. unfold first_byte. by rewrite (proj2 (N.ltb_lt _ _)). Qed.

Lemma complete_low a : of_byte a < 128 → complete [a].
Proof. intros Ha. unfold complete, rune. by rewrite first_byte_low. Qed.

Lemma runes_fuel n m t : (length t ≤ n)%nat → (length t ≤ m)%nat → runes n t = runes m t.
Proof.
  revert m t. induction n as [|n IH]; intros [|m] [|a t] Hn Hm; cbn in *; try done; try lia.
  destruct (rune (a :: t)) as [[r rest]|] eqn:Er.
  - apply rune_spec in Er as (Heq & Hne & _). f_equal. destruct r as [|b r]; [done|].
    apply (f_equal length) in Heq. cbn in Heq. rewrite length_app in Heq. apply IH; lia.
  - f_equal. apply IH; lia.
Qed.

Definition all_runes (t : text) : list (text + ascii) := runes (length t) t.

Lemma runes_of_text t : runes_of (of_text t) = all_runes t.
Proof. unfold runes_of, all_runes. by rewrite <- length_to_text, to_of_text. Qed.

Lemma all_runes_app r t : complete r → all_runes (r ++ t) = inl r :: all_runes t.
Proof.
  intros Hr. pose proof (complete_app r t Hr) as Hrt. destruct r as [|a r]; [by apply complete_nonempty in Hr|].
  unfold all_runes. cbn [app length runes]. cbn [app] in Hrt. rewrite Hrt. f_equal.
  apply runes_fuel; rewrite ?length_app; lia.
Qed.

Lemma all_runes_concat rs : Forall complete rs → all_runes (concat rs) = inl <$> rs.
Proof. induction 1 as [|r rs Hr _ IH]; [done|]. cbn [concat fmap list_fmap]. by rewrite all_runes_app, IH. Qed.

Definition whole (r : text + ascii) : Prop := match r with inl r => complete r | inr _ => True end.

Lemma runes_whole n t : Forall whole (runes n t).
Proof.
  revert t. induction n as [|n IH]; intros [|a t]; cbn; try constructor.
  destruct (rune (a :: t)) as [[r rest]|] eqn:Er; constructor; try apply IH; [|done].
  by eapply rune_complete.
Qed.

Lemma fixed_complete r : whole r → complete (fixed r).
Proof. by destruct r. Qed.

Lemma bind_fixed rs : rs ≫= fixed = concat (fixed <$> rs).
Proof. induction rs as [|r rs IH]; [done|]. cbn. by rewrite <- IH. Qed.

Lemma runes_of_clean s : runes_of (clean s) = inl <$> (fixed <$> runes_of s).
Proof.
  unfold clean. rewrite runes_of_text. rewrite bind_fixed.
  apply all_runes_concat, Forall_fmap. eapply Forall_impl; [apply runes_whole|]. apply fixed_complete.
Qed.

Lemma clean_valid s : utf8_Valid (clean s) = true.
Proof. unfold utf8_Valid. rewrite runes_of_clean. generalize (fixed <$> runes_of s). by induction l. Qed.

Lemma concat_runes n t : (length t ≤ n)%nat → runes n t ≫= (λ r, match r with inl r => r | inr a => [a] end) = t.
Proof.
  revert t. induction n as [|n IH]; intros [|a t] Hn; cbn in Hn |- *; try done; try lia.
  destruct (rune (a :: t)) as [[r rest]|] eqn:Er.
  - apply rune_spec in Er as (Heq & Hne & _). rewrite Heq. cbn. rewrite IH; [done|].
    destruct r; [done|]. apply (f_equal length) in Heq. cbn in Heq. rewrite length_app in Heq. lia.
  - cbn. by rewrite IH by lia.
Qed.

Lemma valid_clean s : utf8_Valid s = true → clean s = s.
Proof.
  unfold utf8_Valid, clean. intros Hv. rewrite <- (of_to_text s) at 2. f_equal.
  rewrite <- (concat_runes (String.length s) (to_text s)) by (by rewrite length_to_text).
  fold (runes_of s). revert Hv. generalize (runes_of s).
  induction l as [|[r|a] l IH]; cbn; [done| |done]. intros Hv. by rewrite IH.
Qed.

Lemma clean_clean s : clean (clean s) = clean s.
Proof. apply valid_clean, clean_valid. Qed.

(** *** String literals *)

Lemma push_some x y t : push x (Some (y, t)) = Some (x ++ y, t).
Proof. done. Qed.

Lemma unquote_plain a t :
  of_byte a ≠ 34 → of_byte a ≠ 92 → 32 ≤ of_byte a → unquote (a :: t) = push [a] (unquote t).
Proof.
  intros H1 H2 H3. cbn [unquote].
  destruct (Ascii.eqb_spec a quote) as [->|_]; [done|].
  destruct (Ascii.eqb_spec a backslash) as [->|_]; [done|].
  by rewrite (proj2 (N.ltb_ge _ _)).
Qed.

Lemma unquote_high r t : Forall (λ a, 128 ≤ of_byte a) r → unquote (r ++ t) = push r (unquote t).
Proof.
  induction 1 as [|a r Ha _ IH]; cbn [app]; [destruct (unquote t) as [[??]|]; done|].
  rewrite unquote_plain by lia. rewrite IH. by destruct (unquote t) as [[??]|].
Qed.

Lemma unquote_escape_ascii a t : of_byte a < 128 → unquote (escape_ascii a ++ t) = push [a] (unquote t).
Proof. destruct a as [[] [] [] [] [] [] [] []]; solve [reflexivity|discriminate]. Qed.

Lemma complete_cases r :
  complete r → (∃ a, r = [a] ∧ of_byte a < 128) ∨ ((2 ≤ length r)%nat ∧ Forall (λ a, 128 ≤ of_byte a) r).
Proof.
  unfold complete, rune, in_range. destruct r as [|a t]; [done|].
  unfold first_byte.
  destruct (of_byte a <? 128) eqn:E; [apply N.ltb_lt in E|apply N.ltb_ge in E]; intros Hr.
  { left. injection Hr as ->. by exists a. }
  right.
  repeat match type of Hr with
  | context [match ?x with _ => _ end] =>
      lazymatch x with context [match _ with _ => _ end] => fail | _ => destruct x eqn:? end
  end; try discriminate Hr; simplify_eq; (split; [cbn; lia|]);
    repeat match goal with H : negb _ = false |- _ => apply negb_false_iff in H
    | H : _ && _ = true |- _ => apply andb_true_iff in H as [??] | H : (_ <=? _) = true |- _ => apply N.leb_le in H end;
    repeat constructor; lia.
Qed.

Lemma of_byte_eq a n : of_byte a = n → a = to_byte n.
Proof. intros <-. by rewrite to_of_byte. Qed.

Lemma unquote_escape r t : whole r → unquote (escape r ++ t) = push (fixed r) (unquote t).
Proof.
  destruct r as [r|a]; cbn [whole fixed]; [|reflexivity].
  intros Hr. destruct (complete_cases r Hr) as [(a & -> & Ha)|[Hlen Hhigh]]; [by apply unquote_escape_ascii|].
  destruct r as [|a [|b [|c [|d r]]]]; try (cbn in Hlen; lia); cbn [escape]; try by apply unquote_high.
  destruct (_ && _ && _) eqn:E; [|by apply unquote_high].
  unfold in_range in E. rewrite !andb_true_iff, !N.eqb_eq, !N.leb_le in E.
  destruct E as [[->%of_byte_eq ->%of_byte_eq] [Hlo Hhi]].
  assert (Hc : of_byte c = 168 ∨ of_byte c = 169) by lia.
  destruct Hc as [->%of_byte_eq| ->%of_byte_eq]; reflexivity.
Qed.

Lemma unquote_print rs t :
  Forall whole rs → unquote ((rs ≫= escape) ++ quote :: t) = Some (rs ≫= fixed, t).
Proof.
  induction 1 as [|r rs Hr _ IH]; [done|].
  cbn [mbind list_bind]. fold (mbind (M := list) escape rs). rewrite <- !app_assoc, unquote_escape, IH by done. done.
Qed.

(** What is printed for a string reads back as that string, but for bytes that
    are no UTF-8. *)
Lemma read_print_string s t : ∃ t', print_string s ++ t = quote :: t' ∧ read_string t' = Some (clean s, t).
Proof.
  eexists. unfold print_string. cbn [app]. split; [done|].
  unfold read_string. rewrite <- app_assoc. cbn [app]. rewrite unquote_print by apply runes_whole.
  cbn [mbind option_bind]. fold (clean s). by rewrite clean_clean.
Qed.

(** *** Numbers *)

Lemma pretty_char_val x : x < 10 → of_byte (pretty_N_char x) = 48 + x.
Proof.
  intros Hx. assert (Hc : x = 0 ∨ x = 1 ∨ x = 2 ∨ x = 3 ∨ x = 4 ∨ x = 5 ∨ x = 6 ∨ x = 7 ∨ x = 8 ∨ x = 9) by lia.
  by destruct Hc as [->|[->|[->|[->|[->|[->|[->|[->|[->| ->]]]]]]]]].
Qed.

Lemma is_digit_iff a : is_digit a = true ↔ 48 ≤ of_byte a ≤ 57.
Proof. unfold is_digit, in_range. rewrite andb_true_iff, !N.leb_le. done. Qed.

Lemma pretty_char_digit x : x < 10 → is_digit (pretty_N_char x) = true.
Proof. intros Hx. apply is_digit_iff. rewrite pretty_char_val by done. lia. Qed.

(** The digits of a positive number: its value, and no leading zero. *)
Definition decimal (x : N) (ds : text) : Prop :=
  Forall (λ a, is_digit a = true) ds ∧ digits_val ds = x ∧ ∃ a ds', ds = a :: ds' ∧ of_byte a ≠ 48.

Lemma digit_step x : x `div` 10 * 10 + (48 + x `mod` 10 - 48) = x.
Proof.
  pose proof (N.div_mod' x 10) as Hx. generalize dependent (x `mod` 10). generalize (x `div` 10). lia.
Qed.

Lemma pretty_go_decimal x : 0 < x → ∃ ds, decimal x ds ∧ ∀ s, to_text (pretty_N_go x s) = ds ++ to_text s.
Proof.
  induction (N.lt_wf_0 x) as [x _ IH]. intros Hx.
  assert (Hmod : x `mod` 10 < 10) by (by apply N.mod_lt).
  destruct (N.lt_ge_cases x 10) as [Hlt|Hge].
  - exists [pretty_N_char x]. split.
    + split_and!; [by repeat constructor; apply pretty_char_digit| |].
      * unfold digits_val. cbn [foldl]. rewrite pretty_char_val by done. lia.
      * exists (pretty_N_char x), []. rewrite pretty_char_val by done. split; [done|lia].
    + intros s. rewrite pretty_N_go_step by done.
      by rewrite N.div_small, N.mod_small, pretty_N_go_0.
  - destruct (IH (x `div` 10)) as (ds & (Hd & Hv & a & ds' & -> & Ha) & Hs).
    { by apply N.div_lt. } { apply N.div_str_pos. lia. }
    exists ((a :: ds') ++ [pretty_N_char (x `mod` 10)]). split.
    + split_and!.
      * apply Forall_app. split; [done|]. by repeat constructor; apply pretty_char_digit.
      * unfold digits_val in *. rewrite foldl_app, Hv. cbn [foldl]. rewrite pretty_char_val by done.
        apply digit_step.
      * by exists a, (ds' ++ [pretty_N_char (x `mod` 10)]).
    + intros s. rewrite pretty_N_go_step by done. rewrite Hs. by rewrite <- app_assoc.
Qed.

(** What may follow a number, for it to end there. *)
Definition ends (t : text) : Prop :=
  match t with [] => True | a :: _ => of_byte a = 44 ∨ of_byte a = 93 ∨ of_byte a = 125 end.

Lemma span_digits_app ds t :
  Forall (λ a, is_digit a = true) ds → ends t → span_digits (ds ++ t) = (ds, t).
Proof.
  intros Hds Ht. induction Hds as [|a ds Ha _ IH]; cbn [app span_digits].
  - destruct t as [|a t]; [done|]. cbn [span_digits].
    destruct (is_digit a) eqn:E; [|done]. apply is_digit_iff in E. cbn in Ht. lia.
  - by rewrite Ha, IH.
Qed.

Lemma ends_not a t x : ends (a :: t) → x ≠ 44 → x ≠ 93 → x ≠ 125 → (of_byte a =? x) = false.
Proof. intros Ht ? ? ?. apply N.eqb_neq. cbn in Ht. lia. Qed.

Lemma integer_only t : ends t → fraction_part t = Some (false, t) ∧ exponent_part t = Some (false, t).
Proof.
  intros Ht. destruct t as [|a t]; [done|]. unfold fraction_part, exponent_part.
  by rewrite (ends_not a t 46), (ends_not a t 101), (ends_not a t 69) by done.
Qed.

Lemma read_digits neg ds n t :
  decimal n ds → ends t →
  read_unsigned neg (ds ++ t) = Some (JInt (if neg then Z.opp (Z.of_N n) else Z.of_N n), t).
Proof.
  intros (Hd & Hv & a & ds' & -> & Ha) Ht.
  pose proof (span_digits_app _ _ Hd Ht) as Hspan. destruct (integer_only t Ht) as [Hf He].
  apply Forall_cons_1 in Hd as [Hda Hd']. unfold read_unsigned, integer_part. cbn [app] in *.
  rewrite (proj2 (N.eqb_neq (of_byte a) 48)) by done. rewrite Hda, Hspan. cbn [mbind option_bind].
  rewrite Hf. cbn [mbind option_bind]. rewrite He. cbn [mbind option_bind]. by rewrite Hv.
Qed.

Lemma read_zero t : ends t → read_number (byte 48 :: t) = Some (JInt 0, t).
Proof.
  intros [Hf He]%integer_only. unfold read_number, read_unsigned, integer_part.
  change (of_byte (byte 48) =? 45) with false. change (of_byte (byte 48) =? 48) with true. cbn [mbind option_bind].
  rewrite Hf. cbn [mbind option_bind]. by rewrite He.
Qed.

(** A printed integer reads back, and starts with a digit or a minus. *)
Lemma read_print_int z t :
  ends t →
  ∃ a t', to_text (pretty z) ++ t = a :: t' ∧ (of_byte a = 45 ∨ 48 ≤ of_byte a ≤ 57) ∧
          read_number (a :: t') = Some (JInt z, t).
Proof.
  intros Ht.
  assert (Hpos : ∀ p, ∃ ds, decimal (Npos p) ds ∧ to_text (pretty (Npos p)) = ds).
  { intros p. destruct (pretty_go_decimal (Npos p)) as (ds & Hds & Hs); [done|].
    exists ds. split; [done|]. specialize (Hs ""%string). by rewrite app_nil_r in Hs. }
  destruct z as [|p|p].
  - exists (byte 48), t. split_and!; [done| |by apply read_zero]. right. by vm_compute.
  - destruct (Hpos p) as (ds & Hds & Hp). change (pretty (Z.pos p)) with (pretty (Npos p)). rewrite Hp.
    pose proof (read_digits false ds _ t Hds Ht) as Hread.
    destruct Hds as (Hd & _ & a & ds' & -> & _). apply Forall_cons_1 in Hd as [Ha%is_digit_iff _].
    exists a, (ds' ++ t). split_and!; [done|by right|]. unfold read_number.
    by rewrite (proj2 (N.eqb_neq (of_byte a) 45)) by lia.
  - destruct (Hpos p) as (ds & Hds & Hp).
    change (to_text (pretty (Z.neg p))) with (byte 45 :: to_text (pretty (Npos p))). rewrite Hp.
    exists (byte 45), (ds ++ t). split_and!; [done|by left|]. exact (read_digits true ds _ t Hds Ht).
Qed.

(** *** Values *)

Lemma json_ind_nested (P : json → Prop) :
  P JNull → (∀ b, P (JBool b)) → (∀ z, P (JInt z)) → P JNum → (∀ s, P (JStr s)) →
  (∀ l, Forall P l → P (JArr l)) → (∀ kvs, Forall (λ kv, P kv.2) kvs → P (JObj kvs)) → ∀ v, P v.
Proof.
  intros ????? Harr Hobj. fix IH 1. intros [|b|z| |s|l|kvs]; try (clear IH; done).
  - apply Harr. induction l; constructor; [apply IH|done].
  - apply Hobj. induction kvs as [|[k v] kvs IHl]; constructor; [apply IH|done].
Qed.

(** What a value is after a trip over the wire. *)
Fixpoint clean_json (v : json) : json :=
  match v with
  | JStr s => JStr (clean s)
  | JArr l => JArr (clean_json <$> l)
  | JObj kvs => JObj ((λ kv, (clean kv.1, clean_json kv.2)) <$> kvs)
  | _ => v
  end.

(** Values that Go values print to: integers only, and no more nesting than is
    read. *)
Fixpoint printable (d : N) (v : json) : bool :=
  match v with
  | JNum => false
  | JArr l => negb (d =? 0) && forallb (printable (N.pred d)) l
  | JObj kvs => negb (d =? 0) && forallb (λ kv, printable (N.pred d) kv.2) kvs
  | _ => true
  end.

Lemma skip_ws_not a t : is_space a = false → skip_ws (a :: t) = a :: t.
Proof. intros Ha. cbn. by rewrite Ha. Qed.

Lemma number_head a : of_byte a = 45 ∨ 48 ≤ of_byte a ≤ 57 →
  is_space a = false ∧ ∀ x, x ≠ 45 → x < 48 ∨ 57 < x → (of_byte a =? x) = false.
Proof.
  intros Ha. assert (Hne : ∀ x, x ≠ 45 → x < 48 ∨ 57 < x → (of_byte a =? x) = false).
  { intros x ? ?. apply N.eqb_neq. lia. }
  split; [|done]. unfold is_space. by rewrite !Hne by lia.
Qed.

(** A value starts with a character that is no space and closes nothing. *)
Lemma print_head d v : printable d v = true →
  ∃ a t, print v = a :: t ∧ is_space a = false ∧ (of_byte a =? 93) = false.
Proof.
  destruct v as [|b|z| |s|l|kvs]; intros Hv; cbn [print]; try done.
  - by eexists _, _.
  - by destruct b; eexists _, _.
  - destruct (read_print_int z []) as (a & t & Heq & Ha & _); [done|]. rewrite app_nil_r in Heq.
    apply number_head in Ha as [Hs Hne]. exists a, t. split_and!; [done|done|]. apply Hne; lia.
  - by eexists _, _.
  - by eexists _, _.
  - by eexists _, _.
Qed.

(** The text of [v] reads back, whatever comes after it. *)
Definition reads_back (v : json) : Prop :=
  ∀ n d t, printable d v = true → ends t → (2 * length (print v ++ t) < n)%nat →
  read_value n d (print v ++ t) = Some (clean_json v, t).

#[local] Arguments separated : simpl never.

Lemma separated_one sep x : separated sep [x] = x.
Proof. done. Qed.
Lemma separated_cons sep x y l t : separated sep (x :: y :: l) ++ t = x ++ sep :: separated sep (y :: l) ++ t.
Proof. unfold separated at 1. by rewrite <- app_assoc. Qed.

Lemma read_print_elements d l n t :
  Forall reads_back l → l ≠ [] → forallb (printable d) l = true →
  (S (2 * length (separated comma (print <$> l) ++ byte 93 :: t)) < n)%nat →
  read_elements n d (separated comma (print <$> l) ++ byte 93 :: t) = Some (clean_json <$> l, t).
Proof.
  intros Hl. revert n. induction Hl as [|v l Hv Hl IH]; intros [|n] Hne Hp Hn; try done; [lia|].
  cbn [forallb] in Hp. apply andb_true_iff in Hp as [Hpv Hpl].
  destruct l as [|w l]; cbn [fmap list_fmap read_elements] in Hn |- *.
  - rewrite separated_one in *. rewrite (Hv n d) by first [done|lia|by cbn; auto]. done.
  - rewrite separated_cons in Hn |- *.
    rewrite (Hv n d) by first [done|lia|by cbn; auto]. cbn [mbind option_bind].
    rewrite skip_ws_not by done. change (of_byte comma =? 44) with true. cbn match.
    cbn [fmap list_fmap] in IH. rewrite IH; [done|done|done|].
    rewrite length_app in Hn. cbn [length] in Hn. lia.
Qed.

Definition print_member (kv : string * json) : text := print_string kv.1 ++ colon :: print kv.2.

(** A member is read, and then what follows it. *)
Lemma read_member n d k v r :
  reads_back v → printable d v = true → ends r → (2 * length (print_member (k, v) ++ r) < n)%nat →
  read_members (S n) d (print_member (k, v) ++ r) =
    match skip_ws r with
    | a :: t =>
        if of_byte a =? 44 then '(kvs, r) ← read_members n d t; Some ((clean k, clean_json v) :: kvs, r)
        else if of_byte a =? 125 then Some ([(clean k, clean_json v)], t)
        else None
    | [] => None
    end.
Proof.
  intros Hv Hp Hr Hlen. unfold print_member in Hlen |- *. cbn [fst snd] in Hlen |- *.
  rewrite <- app_assoc in Hlen |- *. cbn [app] in Hlen |- *.
  destruct (read_print_string k (colon :: print v ++ r)) as (t & -> & Ht).
  cbn [read_members]. rewrite skip_ws_not by done. change (negb (of_byte quote =? 34)) with false. cbn match.
  rewrite Ht. cbn [mbind option_bind]. rewrite skip_ws_not by done.
  change (negb (of_byte colon =? 58)) with false. cbn match.
  rewrite Hv; [done|done|done|]. rewrite length_app in Hlen. cbn [length] in Hlen. lia.
Qed.

Lemma read_print_members d kvs n t :
  Forall (λ kv, reads_back kv.2) kvs → kvs ≠ [] → forallb (λ kv, printable d kv.2) kvs = true →
  (S (2 * length (separated comma (print_member <$> kvs) ++ byte 125 :: t)) < n)%nat →
  read_members n d (separated comma (print_member <$> kvs) ++ byte 125 :: t) =
    Some ((λ kv, (clean kv.1, clean_json kv.2)) <$> kvs, t).
Proof.
  intros Hl. revert n. induction Hl as [|[k v] kvs Hv Hl IH]; intros [|n] Hne Hp Hn; try done; [lia|].
  cbn [forallb] in Hp. apply andb_true_iff in Hp as [Hpv Hpl]. cbn [snd] in Hv, Hpv.
  destruct kvs as [|kw kvs]; cbn [fmap list_fmap] in Hn |- *.
  - rewrite separated_one in *. rewrite read_member by first [done|lia|by cbn; auto]. done.
  - rewrite separated_cons in Hn |- *. rewrite read_member by first [done|lia|by cbn; auto].
    rewrite length_app in Hn. cbn [length] in Hn.
    rewrite skip_ws_not by done. change (of_byte comma =? 44) with true. cbn match.
    cbn [fmap list_fmap] in IH. rewrite IH; [done|done|done|lia].
Qed.

Lemma read_object n d a t t' :
  skip_ws t = a :: t' → (of_byte a =? 125) = false → 0 < d →
  read_value (S n) d (byte 123 :: t) = '(kvs, r) ← read_members n (N.pred d) t; Some (JObj kvs, r).
Proof.
  intros Ht Ha Hd. cbn [read_value]. rewrite skip_ws_not by done. change (of_byte (byte 123)) with 123. cbn match.
  by rewrite (proj2 (N.eqb_neq d 0)) by lia; rewrite Ht, Ha.
Qed.

Lemma read_array n d a t t' :
  skip_ws t = a :: t' → (of_byte a =? 93) = false → 0 < d →
  read_value (S n) d (byte 91 :: t) = '(vs, r) ← read_elements n (N.pred d) t; Some (JArr vs, r).
Proof.
  intros Ht Ha Hd. cbn [read_value]. rewrite skip_ws_not by done. change (of_byte (byte 91)) with 91. cbn match.
  by rewrite (proj2 (N.eqb_neq d 0)) by lia; rewrite Ht, Ha.
Qed.

Lemma separated_head sep a x l t : ∃ t', separated sep ((a :: x) :: l) ++ t = a :: t'.
Proof. destruct l; eexists; [by rewrite separated_one|by rewrite separated_cons]. Qed.

Lemma array_reads_back l : Forall reads_back l → reads_back (JArr l).
Proof.
  intros Hl [|n] d t Hp Ht Hn; [lia|]. cbn [printable] in Hp.
  apply andb_true_iff in Hp as [Hd%negb_true_iff%N.eqb_neq Hp].
  cbn [print clean_json app] in Hn |- *. rewrite <- app_assoc in Hn |- *. cbn [length app] in Hn |- *.
  destruct l as [|v l].
  - cbn [read_value]. rewrite skip_ws_not by done. change (of_byte (byte 91)) with 91. cbn match.
    by rewrite (proj2 (N.eqb_neq d 0)).
  - assert (Hhead : ∃ a t', skip_ws (separated comma (print <$> v :: l) ++ byte 93 :: t) = a :: t' ∧ (of_byte a =? 93) = false).
    { cbn [forallb] in Hp. apply andb_true_iff in Hp as [(a & x & Hx & Hs & Ha)%print_head _].
      cbn [fmap list_fmap]. rewrite Hx. edestruct (separated_head comma a x) as [t' ->].
      exists a, t'. by rewrite skip_ws_not. }
    destruct Hhead as (a & t' & Hhead & Ha). erewrite read_array by (done || lia).
    rewrite read_print_elements by (done || lia). done.
Qed.

Lemma object_reads_back kvs : Forall (λ kv, reads_back kv.2) kvs → reads_back (JObj kvs).
Proof.
  intros Hkvs [|n] d t Hp Ht Hn; [lia|]. cbn [printable] in Hp.
  apply andb_true_iff in Hp as [Hd%negb_true_iff%N.eqb_neq Hp].
  change (print (JObj kvs)) with (byte 123 :: separated comma (print_member <$> kvs) ++ [byte 125]) in Hn |- *.
  cbn [clean_json app] in Hn |- *.
  rewrite <- app_assoc in Hn |- *. cbn [length app] in Hn |- *.
  destruct kvs as [|kv kvs].
  - cbn [read_value]. rewrite skip_ws_not by done. change (of_byte (byte 123)) with 123. cbn match.
    by rewrite (proj2 (N.eqb_neq d 0)).
  - assert (Hhead : ∃ t', separated comma (print_member <$> kv :: kvs) ++ byte 125 :: t = quote :: t').
    { cbn [fmap list_fmap]. edestruct separated_head as [t' Ht']. exists t'. apply Ht'. }
    destruct Hhead as [t' Hhead]. erewrite read_object; [|rewrite Hhead; by apply skip_ws_not|done|lia].
    rewrite read_print_members by (done || lia). done.
Qed.

Lemma print_reads_back v : reads_back v.
Proof.
  induction v as [|b|z| |s|l Hl|kvs Hkvs] using json_ind_nested; try (intros [|n] d t Hp Ht Hn; try done; try lia).
  - by destruct b.
  - destruct (read_print_int z t Ht) as (a & t' & Heq & [Hs Hne]%number_head & Hread). cbn [print clean_json].
    rewrite Heq. cbn [read_value]. rewrite skip_ws_not by done. rewrite !Hne by lia. done.
  - cbn [print clean_json]. destruct (read_print_string s t) as (t' & -> & Hread).
    cbn [read_value]. rewrite skip_ws_not by done. change (of_byte quote) with 34. cbn match. by rewrite Hread.
  - by apply array_reads_back.
  - by apply object_reads_back.
Qed.

(** What is printed reads back, but for bytes that are no UTF-8. *)
Lemma unmarshal_marshal v :
  printable maxNestingDepth v = true → json_Unmarshal (json_Marshal v) = Some (clean_json v).
Proof.
  intros Hv. unfold json_Unmarshal, json_Marshal. rewrite to_of_text. rewrite <- (app_nil_r (print v)) at 2.
  rewrite print_reads_back; [done|done|done|]. unfold fuel_for. rewrite app_nil_r. lia.
Qed.

(** *** Reading ends: each step leaves a shorter text *)

Lemma skip_ws_length t : (length (skip_ws t) ≤ length t)%nat.
Proof. induction t as [|a t IH]; [done|]. cbn [skip_ws]. destruct (is_space a); cbn [length]; lia. Qed.

Lemma skip_ws_cons t a t' : skip_ws t = a :: t' → (length t' < length t)%nat.
Proof. intros Ht. pose proof (skip_ws_length t) as Hlen. rewrite Ht in Hlen. cbn in Hlen. lia. Qed.

Lemma push_inv x o y r : push x o = Some (y, r) → ∃ y', o = Some (y', r).
Proof. destruct o as [[y' r']|]; [|done]. intros [= <- <-]. by exists y'. Qed.

Lemma unquote_shorter_aux n t y r : (length t ≤ n)%nat → unquote t = Some (y, r) → (length r < length t)%nat.
Proof.
  revert t y. induction n as [|n IH]; intros [|a t] y Hn; cbn [length] in Hn |- *; try done; try lia.
  cbn [unquote]. intros Ht.
  repeat match type of Ht with
  | (match ?x with _ => _ end) = Some _ => destruct x; try discriminate Ht
  end.
  all: first [by injection Ht as <- <-; lia
             |apply push_inv in Ht as [? Ht]; apply IH in Ht; cbn [length] in *; lia].
Qed.

Lemma unquote_shorter t y r : unquote t = Some (y, r) → (length r < length t)%nat.
Proof. by apply unquote_shorter_aux with (n := length t). Qed.

Lemma read_string_shorter t s r : read_string t = Some (s, r) → (length r < length t)%nat.
Proof.
  unfold read_string. destruct (unquote t) as [[y r']|] eqn:E; [|done]. intros [= <- <-]. by eapply unquote_shorter.
Qed.

Lemma after_length w t r : after w t = Some r → (length r ≤ length t)%nat.
Proof.
  revert t. induction w as [|a w IH]; intros [|b t]; cbn [after]; try done; [by intros [= <-]..|].
  destruct (Ascii.eqb a b); [|done]. intros ?%IH. cbn. lia.
Qed.

Lemma span_digits_length t : (length (span_digits t).2 ≤ length t)%nat.
Proof.
  induction t as [|a t IH]; [done|]. cbn [span_digits]. destruct (is_digit a); [|done].
  destruct (span_digits t). cbn in *. lia.
Qed.

Lemma some_digits_length t r : some_digits t = Some r → (length r ≤ length t)%nat.
Proof.
  unfold some_digits. pose proof (span_digits_length t) as Hlen.
  destruct (span_digits t) as [[|d ds] r']; [done|]. by intros [= <-].
Qed.

Lemma integer_part_shorter t ds r : integer_part t = Some (ds, r) → (length r < length t)%nat.
Proof.
  unfold integer_part. destruct t as [|a t]; [done|]. destruct (of_byte a =? 48); [intros [= <- <-]; cbn; lia|].
  cbn [span_digits]. destruct (is_digit a); [|done]. pose proof (span_digits_length t).
  destruct (span_digits t). intros [= <- <-]. cbn in *. lia.
Qed.

Lemma fraction_part_length t b r : fraction_part t = Some (b, r) → (length r ≤ length t)%nat.
Proof.
  unfold fraction_part. destruct t as [|a t]; [by intros [= <- <-]|]. destruct (of_byte a =? 46); [|by intros [= <- <-]].
  destruct (some_digits t) eqn:E; [|done]. intros [= <- <-]. apply some_digits_length in E. cbn. lia.
Qed.

Lemma exponent_part_length t b r : exponent_part t = Some (b, r) → (length r ≤ length t)%nat.
Proof.
  unfold exponent_part. destruct t as [|a t]; [by intros [= <- <-]|]. destruct (_ || _); [|by intros [= <- <-]].
  destruct (some_digits (skip_sign t)) eqn:E; [|done]. intros [= <- <-]. apply some_digits_length in E.
  unfold skip_sign in E. destruct t as [|s t]; [cbn in *; lia|]. destruct (_ || _); cbn in *; lia.
Qed.

(** The first step of a computation that succeeds. *)
#[local] Tactic Notation "step" hyp(H) "as" simple_intropattern(p) "eqn" ident(E) :=
  match type of H with
  | (?m ≫= _) = Some _ => destruct m as [p|] eqn:E; cbn [mbind option_bind] in H; [|discriminate H]
  | (_ <$> ?m) = Some _ => destruct m as [p|] eqn:E; cbn [fmap option_fmap option_map] in H; [|discriminate H]
  end.

Lemma read_number_spec t v r :
  read_number t = Some (v, r) → (length r < length t)%nat ∧ (v = JNum ∨ ∃ z, v = JInt z).
Proof.
  assert (Hun : ∀ neg t, read_unsigned neg t = Some (v, r) → (length r < length t)%nat ∧ (v = JNum ∨ ∃ z, v = JInt z)).
  { intros neg u Hr. unfold read_unsigned in Hr.
    step Hr as [ds t1] eqn E1. step Hr as [fr t2] eqn E2. step Hr as [ex t3] eqn E3.
    apply integer_part_shorter in E1. apply fraction_part_length in E2. apply exponent_part_length in E3.
    injection Hr as <- <-. split; [lia|]. destruct (fr || ex); eauto. }
  unfold read_number. destruct t as [|a t]; [done|]. destruct (of_byte a =? 45); intros [Hlen Hv]%Hun; [|done].
  split; [cbn; lia|done].
Qed.

(** A value as it is read: its strings are valid UTF-8, and it is not nested too
    deeply. *)
Fixpoint wf_json (d : N) (v : json) : bool :=
  match v with
  | JStr s => utf8_Valid s
  | JArr l => negb (d =? 0) && forallb (wf_json (N.pred d)) l
  | JObj kvs => negb (d =? 0) && forallb (λ kv, utf8_Valid kv.1 && wf_json (N.pred d) kv.2) kvs
  | _ => true
  end.

(** Every number is an integer. *)
Fixpoint integers (v : json) : bool :=
  match v with
  | JNum => false
  | JArr l => forallb integers l
  | JObj kvs => forallb (λ kv, integers kv.2) kvs
  | _ => true
  end.

Lemma wf_printable v : ∀ d, wf_json d v = true → integers v = true → printable d v = true.
Proof.
  induction v as [|b|z| |s|l Hl|kvs Hkvs] using json_ind_nested; intros d; cbn [wf_json integers printable]; try done;
    rewrite !andb_true_iff, !forallb_forall; intros [Hd Hwf] Hi; (split; [done|]).
  - rewrite Forall_forall in Hl. intros v Hv. apply Hl; [by apply list_elem_of_In|auto..].
  - rewrite Forall_forall in Hkvs. intros kv Hkv. specialize (Hwf _ Hkv). apply andb_true_iff in Hwf as [_ Hwf].
    apply Hkvs; [by apply list_elem_of_In|auto..].
Qed.

Lemma wf_clean v : ∀ d, wf_json d v = true → clean_json v = v.
Proof.
  induction v as [|b|z| |s|l Hl|kvs Hkvs] using json_ind_nested; intros d; cbn [wf_json clean_json]; try done.
  - intros Hs. by rewrite valid_clean.
  - intros [_ Hwf]%andb_true_iff. f_equal. rewrite <- (map_id l) at 2. apply map_ext_in.
    rewrite forallb_forall in Hwf. rewrite Forall_forall in Hl. intros v Hv.
    by eapply Hl; [apply list_elem_of_In|apply Hwf].
  - intros [_ Hwf]%andb_true_iff. f_equal. rewrite <- (map_id kvs) at 2. apply map_ext_in.
    rewrite forallb_forall in Hwf. rewrite Forall_forall in Hkvs. intros [k v] Hkv.
    pose proof (Hwf _ Hkv) as [Hk Hv]%andb_true_iff. cbn [fst snd] in *. rewrite valid_clean by done.
    f_equal. by eapply (Hkvs (k, v)); [apply list_elem_of_In|].
Qed.

Lemma read_string_valid t s r : read_string t = Some (s, r) → utf8_Valid s = true.
Proof. unfold read_string. intros Hs. step Hs as [y r'] eqn E. injection Hs as <- _. apply clean_valid. Qed.

Lemma word_spec w t (v : json) r v' : pair v <$> after w t = Some (v', r) → (length r ≤ length t)%nat ∧ v' = v.
Proof. intros Hw. step Hw as r' eqn E. injection Hw as <- <-. split; [by eapply after_length|done]. Qed.

(** What a reader that succeeds gives. *)
Definition reads {A} (wf : A → bool) (t : text) (o : option (A * text)) : Prop :=
  ∀ v r, o = Some (v, r) → (length r < length t)%nat ∧ wf v = true.

Section read_wf.
Context (n : nat)
  (Hvalue : ∀ d t, reads (wf_json d) t (read_value n d t))
  (Helements : ∀ d t, reads (forallb (wf_json d)) t (read_elements n d t))
  (Hmembers : ∀ d t, reads (forallb (λ kv, utf8_Valid kv.1 && wf_json d kv.2)) t (read_members n d t)).

Lemma read_value_wf_step d t : reads (wf_json d) t (read_value (S n) d t).
Proof using Helements Hmembers.
  intros v r Hr. cbn [read_value] in Hr. destruct (skip_ws t) as [|a u] eqn:Et; [done|].
  pose proof (skip_ws_cons t a u Et) as Hlen.
  assert (Hopen : ∀ o, (if d =? 0 then None else o) = Some (v, r) → (d =? 0) = false ∧ o = Some (v, r)).
  { intros o. destruct (d =? 0); done. }
  destruct (of_byte a =? 123).
  { apply Hopen in Hr as [Hd Hr]. destruct (skip_ws u) as [|b w] eqn:Eu; [done|]. pose proof (skip_ws_cons u b w Eu).
    destruct (of_byte b =? 125); [injection Hr as <- <-; cbn; rewrite Hd; split; [lia|done]|].
    step Hr as [kvs r'] eqn E. injection Hr as <- <-. apply Hmembers in E as [? Hwf]. cbn. rewrite Hd. split; [lia|done]. }
  destruct (of_byte a =? 91).
  { apply Hopen in Hr as [Hd Hr]. destruct (skip_ws u) as [|b w] eqn:Eu; [done|]. pose proof (skip_ws_cons u b w Eu).
    destruct (of_byte b =? 93); [injection Hr as <- <-; cbn; rewrite Hd; split; [lia|done]|].
    step Hr as [vs r'] eqn E. injection Hr as <- <-. apply Helements in E as [? Hwf]. cbn. rewrite Hd. split; [lia|done]. }
  destruct (of_byte a =? 34).
  { step Hr as [s r'] eqn E. injection Hr as <- <-. pose proof (read_string_shorter _ _ _ E).
    split; [lia|by eapply read_string_valid]. }
  destruct (of_byte a =? 110); [apply word_spec in Hr as [? ->]; split; [lia|done]|].
  destruct (of_byte a =? 116); [apply word_spec in Hr as [? ->]; split; [lia|done]|].
  destruct (of_byte a =? 102); [apply word_spec in Hr as [? ->]; split; [lia|done]|].
  pose proof (skip_ws_length t) as Hskip. rewrite Et in Hskip.
  apply read_number_spec in Hr as [? [->|[z ->]]]; (split; [lia|done]).
Qed.

Lemma read_elements_wf_step d t : reads (forallb (wf_json d)) t (read_elements (S n) d t).
Proof using Hvalue Helements.
  intros vs r Hr. cbn [read_elements] in Hr. step Hr as [v t1] eqn E1. apply Hvalue in E1 as [Hlen Hv].
  destruct (skip_ws t1) as [|a t2] eqn:Et; [done|]. apply skip_ws_cons in Et.
  destruct (of_byte a =? 44).
  - step Hr as [vs' r'] eqn E2. injection Hr as <- <-. apply Helements in E2 as [? Hvs]. cbn. rewrite Hv. split; [lia|done].
  - destruct (of_byte a =? 93); [|done]. injection Hr as <- <-. cbn. rewrite Hv. split; [lia|done].
Qed.

Lemma read_members_wf_step d t :
  reads (forallb (λ kv, utf8_Valid kv.1 && wf_json d kv.2)) t (read_members (S n) d t).
Proof using Hvalue Hmembers.
  intros kvs r Hr. cbn [read_members] in Hr. destruct (skip_ws t) as [|q t1] eqn:E1; [done|].
  apply skip_ws_cons in E1. destruct (negb _); [done|]. step Hr as [k t2] eqn E2.
  pose proof (read_string_shorter _ _ _ E2). apply read_string_valid in E2.
  destruct (skip_ws t2) as [|c t3] eqn:E3; [done|]. apply skip_ws_cons in E3. destruct (negb _); [done|].
  step Hr as [v t4] eqn E4. apply Hvalue in E4 as [? Hv].
  destruct (skip_ws t4) as [|a t5] eqn:E5; [done|]. apply skip_ws_cons in E5.
  destruct (of_byte a =? 44).
  - step Hr as [kvs' r'] eqn E6. injection Hr as <- <-. apply Hmembers in E6 as [? Hkvs].
    cbn [forallb fst snd]. rewrite E2, Hv. split; [lia|done].
  - destruct (of_byte a =? 125); [|done]. injection Hr as <- <-. cbn [forallb fst snd]. rewrite E2, Hv. split; [lia|done].
Qed.
End read_wf.

Lemma read_wf n :
  (∀ d t, reads (wf_json d) t (read_value n d t)) ∧
  (∀ d t, reads (forallb (wf_json d)) t (read_elements n d t)) ∧
  (∀ d t, reads (forallb (λ kv, utf8_Valid kv.1 && wf_json d kv.2)) t (read_members n d t)).
Proof.
  induction n as [|n (Hv & He & Hm)]; [done|].
  split_and!; intros d t; [by apply read_value_wf_step|by apply read_elements_wf_step|by apply read_members_wf_step].
Qed.

Lemma unmarshal_wf s v : json_Unmarshal s = Some v → wf_json maxNestingDepth v = true.
Proof.
  unfold json_Unmarshal. intros Hs. step Hs as [v' r] eqn E. apply read_wf in E as [_ Hv].
  destruct (skip_ws r); [|done]. by injection Hs as <-.
Qed.

(** *** The fuel is enough: more of it changes nothing *)

Lemma bind_ext {A B} (o o' : option A) (f g : A → option B) :
  o = o' → (∀ x, o = Some x → f x = g x) → o ≫= f = o' ≫= g.
Proof. intros <- Hfg. destruct o as [x|]; [by apply Hfg|done]. Qed.

Lemma read_value_fuel_step n m d t :
  (∀ d t, (S (2 * length t) < n)%nat → (S (2 * length t) < m)%nat → read_elements n d t = read_elements m d t) →
  (∀ d t, (S (2 * length t) < n)%nat → (S (2 * length t) < m)%nat → read_members n d t = read_members m d t) →
  (2 * length t < S n)%nat → (2 * length t < S m)%nat → read_value (S n) d t = read_value (S m) d t.
Proof.
  intros He Hm Hn Hm'. cbn [read_value]. destruct (skip_ws t) as [|a u] eqn:Et; [done|].
  pose proof (skip_ws_cons t a u Et) as Hlen. rewrite He, Hm by lia. done.
Qed.

Lemma read_elements_fuel_step n m d t :
  (∀ d t, (2 * length t < n)%nat → (2 * length t < m)%nat → read_value n d t = read_value m d t) →
  (∀ d t, (S (2 * length t) < n)%nat → (S (2 * length t) < m)%nat → read_elements n d t = read_elements m d t) →
  (S (2 * length t) < S n)%nat → (S (2 * length t) < S m)%nat → read_elements (S n) d t = read_elements (S m) d t.
Proof.
  intros Hv He Hn Hm. cbn [read_elements]. apply bind_ext; [apply Hv; lia|]. intros [v t1] E1.
  apply read_wf in E1 as [Hlen _]. destruct (skip_ws t1) as [|a t2] eqn:E2; [done|]. apply skip_ws_cons in E2.
  by rewrite He by lia.
Qed.

Lemma read_members_fuel_step n m d t :
  (∀ d t, (2 * length t < n)%nat → (2 * length t < m)%nat → read_value n d t = read_value m d t) →
  (∀ d t, (S (2 * length t) < n)%nat → (S (2 * length t) < m)%nat → read_members n d t = read_members m d t) →
  (S (2 * length t) < S n)%nat → (S (2 * length t) < S m)%nat → read_members (S n) d t = read_members (S m) d t.
Proof.
  intros Hv Hmem Hn Hm. cbn [read_members]. destruct (skip_ws t) as [|q t1] eqn:E1; [done|]. apply skip_ws_cons in E1.
  destruct (negb _); [done|]. apply bind_ext; [done|]. intros [k t2] E2%read_string_shorter.
  destruct (skip_ws t2) as [|c t3] eqn:E3; [done|]. apply skip_ws_cons in E3. destruct (negb _); [done|].
  apply bind_ext; [apply Hv; lia|]. intros [v t4] E4. apply read_wf in E4 as [Hlen _].
  destruct (skip_ws t4) as [|a t5] eqn:E5; [done|]. apply skip_ws_cons in E5. by rewrite Hmem by lia.
Qed.

Lemma read_fuel n :
  (∀ m d t, (2 * length t < n)%nat → (2 * length t < m)%nat → read_value n d t = read_value m d t) ∧
  (∀ m d t, (S (2 * length t) < n)%nat → (S (2 * length t) < m)%nat → read_elements n d t = read_elements m d t) ∧
  (∀ m d t, (S (2 * length t) < n)%nat → (S (2 * length t) < m)%nat → read_members n d t = read_members m d t).
Proof.
  induction n as [|n (Hv & He & Hm)]; [split_and!; intros; lia|].
  split_and!; intros [|m] d t Hn Hm'; try lia;
    [apply read_value_fuel_step|apply read_elements_fuel_step|apply read_members_fuel_step]; auto.
Qed.

(** ** What the messages of the program rely on *)

(** A value whose strings are valid UTF-8 is read as it was printed. *)
Lemma marshal_unmarshal v :
  wf_json maxNestingDepth v = true → integers v = true → json_Unmarshal (json_Marshal v) = Some v.
Proof.
  intros Hwf Hi. rewrite unmarshal_marshal by (by apply wf_printable). f_equal. by eapply wf_clean.
Qed.

Lemma marshal_inj v w :
  wf_json maxNestingDepth v = true → integers v = true → wf_json maxNestingDepth w = true → integers w = true →
  json_Marshal v = json_Marshal w → v = w.
Proof.
  intros Hv Hvi Hw Hwi Heq. apply (f_equal json_Unmarshal) in Heq. rewrite !marshal_unmarshal in Heq by done.
  by injection Heq.
Qed.

(** The decoder of a stream takes the same value, whatever follows it. *)
Lemma decode_marshal v s :
  printable maxNestingDepth v = true → ends (to_text s) →
  json_Decode (String.append (json_Marshal v) s) = Some (clean_json v).
Proof.
  intros Hv Hs. unfold json_Decode, json_Marshal. rewrite to_text_app, to_of_text.
  rewrite print_reads_back; [done|done|done|]. unfold fuel_for. lia.
Qed.
