(* ===== verification/Presence.v ===== *)
(** * Presence gossip ([internal/relay/presence.go])

    A node announces its app peers on a gossip topic; every other node updates
    its routing table from the announcements and tells its callback. The
    table is used through the interface [RouteTable] of Router.v. *)

From S2P Require Import Prelude GoTime Packet Router Json.

#[local] Open Scope string_scope.
#[local] Open Scope list_scope.
#[local] Open Scope Z_scope.

(** [type presenceMsg struct] *)
Record presenceMsg := mkPresenceMsg {
  pm_PeerID : string;
  pm_ViaNode : string;
  pm_TTLSeconds : Z;
  pm_Timestamp : Z;
  pm_Tombstone : bool
}.

Definition zero_presenceMsg : presenceMsg := mkPresenceMsg "" "" 0 0 false.

(** [json.Marshal] and [json.Unmarshal] at this type. *)
Definition enc_presenceMsg (m : presenceMsg) : json :=
  JObj ([("peer_id", JStr (pm_PeerID m)); ("via_node", JStr (pm_ViaNode m))]
    ++ omitempty "ttl_seconds" (pm_TTLSeconds m =? 0) (JInt (pm_TTLSeconds m))
    ++ omitempty "timestamp" (pm_Timestamp m =? 0) (JInt (pm_Timestamp m))
    ++ omitempty "tombstone" (negb (pm_Tombstone m)) (JBool (pm_Tombstone m))).

Definition dec_presenceMsg (v : json) : option presenceMsg :=
  dec_struct zero_presenceMsg (λ kvs,
    p ← dec_string "peer_id" kvs;
    n ← dec_string "via_node" kvs;
    t ← dec_int "ttl_seconds" kvs;
    s ← dec_int "timestamp" kvs;
    b ← dec_bool "tombstone" kvs;
    Some (mkPresenceMsg p n t s b)) v.

(** A message of a gossip topic: who it came from, and its body. *)
Record gossipMsg := mkGossipMsg { ReceivedFrom : peerID; Data : option json }.

(** A call of the [onPeer] callback. *)
Record PeerEvent := mkPeerEvent { ev_peer : peerID; ev_via : peerID; ev_online : bool }.

Section presence.
Context `{PeerLib}.

(** [Presence.Announce] and [Presence.Tombstone]: the message published. *)
Definition Announce (self : peerID) (ttl : Duration) (now : Instant) (appPeer : peerID) : presenceMsg :=
  {| pm_PeerID := IDString appPeer;
     pm_ViaNode := IDString self;
     pm_TTLSeconds := Z.quot ttl Second;
     pm_Timestamp := Time.UnixMilli now;
     pm_Tombstone := false |}.

Definition Tombstone (self : peerID) (appPeer : peerID) : presenceMsg :=
  {| pm_PeerID := IDString appPeer;
     pm_ViaNode := IDString self;
     pm_TTLSeconds := 0;
     pm_Timestamp := 0;
     pm_Tombstone := true |}.

(** The time to live an announcement gets. *)
Definition effective_ttl (default_ttl : Duration) (ttlSeconds : Z) : Duration :=
  let ttl := seconds ttlSeconds in
  if ttl <=? 0 then default_ttl else ttl.

(** One iteration of [readLoop] after [sub.Next] returned a message: the new
    table and the calls of [onPeer]. *)
Definition presence_receive {R} `{RouteTable R} (self : peerID) (default_ttl : Duration)
    (now : Instant) (msg : gossipMsg) (r : R) : R * list PeerEvent :=
  if decide (ReceivedFrom msg = self) then (r, [])
  else
    match v ← Data msg; dec_presenceMsg v with
    | None => (r, [])
    | Some m =>
        match Decode (pm_PeerID m) with
        | None => (r, [])
        | Some appPeer =>
            match Decode (pm_ViaNode m) with
            | None => (r, [])
            | Some via =>
                if pm_Tombstone m then
                  (rt_Remove appPeer r, [mkPeerEvent appPeer via false])
                else
                  (rt_Upsert now appPeer via (effective_ttl default_ttl (pm_TTLSeconds m)) r,
                   [mkPeerEvent appPeer via true])
            end
        end
    end.

(** The app peer a message is about, if the node acts on it. *)
Definition subject (self : peerID) (msg : gossipMsg) : option peerID :=
  if decide (ReceivedFrom msg = self) then None
  else v ← Data msg; m ← dec_presenceMsg v; p ← Decode (pm_PeerID m);
       _ ← Decode (pm_ViaNode m); Some p.

(** The table after a history of received messages. *)
Definition presence_run {R} `{RouteTable R} (self : peerID) (default_ttl : Duration)
    (h : list (Instant * gossipMsg)) (r : R) : R :=
  foldl (λ r im, (presence_receive self default_ttl im.1 im.2 r).1) r h.

(** A history in which every message about [app] is an announcement published
    by [node] with the standard time to live, none arriving later than
    [PresenceTTL] after the one before ([last]). *)
Fixpoint kept_alive (self node app : peerID) (last : Instant) (h : list (Instant * gossipMsg)) : Prop :=
  match h with
  | [] => True
  | (u, msg) :: h =>
      if decide (subject self msg = Some app) then
        (∃ sent, is_int64 (Time.UnixMilli sent) ∧
           Data msg = Some (enc_presenceMsg (Announce node PresenceTTL sent app))) ∧
        u - last <= PresenceTTL ∧ kept_alive self node app u h
      else kept_alive self node app last h
  end.

(** When [app] was last announced. *)
Fixpoint last_announced (self app : peerID) (last : Instant) (h : list (Instant * gossipMsg)) : Instant :=
  match h with
  | [] => last
  | (u, msg) :: h =>
      last_announced self app (if decide (subject self msg = Some app) then u else last) h
  end.
End presence.

(** ** Lemmas *)

Lemma dec_enc_presenceMsg (m : presenceMsg) :
  is_int64 (pm_TTLSeconds m) → is_int64 (pm_Timestamp m) →
  dec_presenceMsg (enc_presenceMsg m) = Some m.
Proof.
  destruct m as [p n t s b]. intros Ht Hs. cbn in Ht, Hs.
  unfold enc_presenceMsg, dec_presenceMsg, omitempty. cbn [pm_PeerID pm_ViaNode pm_TTLSeconds pm_Timestamp pm_Tombstone].
  destruct (t =? 0) eqn:Et, (s =? 0) eqn:Es, b; zbool; subst;
    cbn [negb app dec_struct]; unfold dec_string, dec_int, dec_bool; json_keys;
    unfold fill; cbn -[to_int]; rewrite ?to_int_in by done; done.
Qed.

Section presence_lemmas.
Context `{L : PeerLib} `{!PeerLaws L} {R : Type} `{RT : RouteTable R}.
Implicit Types (r : R) (now t u : Instant).

Lemma effective_ttl_standard d : effective_ttl d (Z.quot PresenceTTL Second) = PresenceTTL.
Proof. reflexivity. Qed.

(** What receiving a published announcement or tombstone does. *)
Lemma receive_Announce self from node app d sent now r :
  from ≠ self → IDFromBytes app = Some app → IDFromBytes node = Some node →
  is_int64 (Time.UnixMilli sent) →
  presence_receive self d now
    (mkGossipMsg from (Some (enc_presenceMsg (Announce node PresenceTTL sent app)))) r =
  (rt_Upsert now app node PresenceTTL r, [mkPeerEvent app node true]).
Proof.
  intros Hself Happ Hnode Hs. unfold presence_receive. cbn [ReceivedFrom Data mbind option_bind].
  rewrite decide_False by done. rewrite dec_enc_presenceMsg; [|by cbn|done].
  cbn [pm_PeerID pm_ViaNode pm_Tombstone pm_TTLSeconds Announce].
  by rewrite !Decode_String, effective_ttl_standard by done.
Qed.

Lemma receive_Tombstone self from node app d now r :
  from ≠ self → IDFromBytes app = Some app → IDFromBytes node = Some node →
  presence_receive self d now
    (mkGossipMsg from (Some (enc_presenceMsg (Tombstone node app)))) r =
  (rt_Remove app r, [mkPeerEvent app node false]).
Proof.
  intros Hself Happ Hnode. unfold presence_receive. cbn [ReceivedFrom Data mbind option_bind].
  rewrite decide_False by done. rewrite dec_enc_presenceMsg by done.
  cbn [pm_PeerID pm_ViaNode pm_Tombstone pm_TTLSeconds Tombstone].
  by rewrite !Decode_String by done.
Qed.

(** A message that the node does not act on changes nothing; any other only
    touches the entry of its subject. *)
Lemma receive_frame self d now msg r t other :
  subject self msg ≠ Some other →
  rt_Lookup t other (presence_receive self d now msg r).1 = rt_Lookup t other r.
Proof.
  unfold subject, presence_receive. case_decide; [done|].
  destruct (Data msg) as [v|]; cbn; [|done].
  destruct (dec_presenceMsg v) as [m|]; cbn; [|done].
  destruct (Decode (pm_PeerID m)) as [p|]; cbn; [|done].
  destruct (Decode (pm_ViaNode m)) as [n|]; cbn; [|done].
  intros Hne. assert (p ≠ other) by congruence.
  destruct (pm_Tombstone m); cbn; [by apply rt_remove_other|by apply rt_upsert_other].
Qed.

Lemma receive_no_subject self d now msg r :
  subject self msg = None → presence_receive self d now msg r = (r, []).
Proof.
  unfold subject, presence_receive. case_decide; [done|].
  destruct (Data msg) as [v|]; cbn; [|done].
  destruct (dec_presenceMsg v) as [m|]; cbn; [|done].
  destruct (Decode (pm_PeerID m)) as [p|]; cbn; [|done].
  by destruct (Decode (pm_ViaNode m)).
Qed.

Lemma subject_not_self self msg p : subject self msg = Some p → ReceivedFrom msg ≠ self.
Proof. unfold subject. by case_decide. Qed.

Lemma kept_alive_lookup self node app d h last r :
  IDFromBytes app = Some app → IDFromBytes node = Some node →
  timed last h →
  kept_alive self node app last h →
  (∀ t, last <= t <= last + PresenceTTL → rt_Lookup t app r = Some node) →
  ∀ t, ends last h <= t <= last_announced self app last h + PresenceTTL →
    rt_Lookup t app (presence_run self d h r) = Some node.
Proof.
  intros Happ Hnode.
  enough (Hgen : ∀ t0, timed t0 h → last <= t0 → kept_alive self node app last h →
    (∀ t, t0 <= t <= last + PresenceTTL → rt_Lookup t app r = Some node) →
    ∀ t, ends t0 h <= t <= last_announced self app last h + PresenceTTL →
      rt_Lookup t app (presence_run self d h r) = Some node).
  { intros. eapply Hgen; eauto. lia. }
  revert last r. induction h as [|[u msg] h IH]; intros last r t0 Htimed Hlast Hka Hr t Ht; [by apply Hr|].
  cbn in Htimed, Hka, Ht |- *. destruct Htimed as [Hu Htimed].
  destruct (decide (subject self msg = Some app)) as [Hs|Hs].
  - destruct Hka as ((sent & Hsent & Hdata) & Hgap & Hka).
    destruct msg as [from data]. cbn in Hdata. subst data.
    apply subject_not_self in Hs. cbn in Hs.
    apply (IH u _ u); try done. intros t' Ht'.
    rewrite receive_Announce by done. cbn. apply rt_hit. lia.
  - apply (IH last _ u); try done; [lia|]. intros t' Ht'.
    rewrite receive_frame by done. apply Hr. lia.
Qed.
End presence_lemmas.

(** ** Theorems *)

(** C19. Announcing works end to end: when another node receives what
    [Announce] published for [app] at [node], its table routes [app] to [node]
    for exactly [PresenceTTL], and the callback is told once; receiving the
    matching [Tombstone] unroutes [app] at once; and a node ignores its own
    messages. *)
Theorem announce_then_route `{L : PeerLib, !PeerLaws L, RT : RouteTable R}
    (self from node app : peerID) (d : Duration) (sent now t : Instant) (r : R)
    (Hfrom : from ≠ self)
    (Happ : IDFromBytes app = Some app) (Hnode : IDFromBytes node = Some node)
    (Hsent : is_int64 (Time.UnixMilli sent)) (Ht : now <= t) :
  let msg := mkGossipMsg from (Some (enc_presenceMsg (Announce node PresenceTTL sent app))) in
  let bye := mkGossipMsg from (Some (enc_presenceMsg (Tombstone node app))) in
  let r' := (presence_receive self d now msg r).1 in
  rt_Lookup t app r' = (if now + PresenceTTL <? t then None else Some node) ∧
  (presence_receive self d now msg r).2 = [mkPeerEvent app node true] ∧
  rt_Lookup t app (presence_receive self d now bye r').1 = None ∧
  (presence_receive self d now bye r').2 = [mkPeerEvent app node false] ∧
  presence_receive from d now msg r = (r, []).
Proof.
  cbn zeta. rewrite receive_Announce, receive_Tombstone by done. cbn [fst snd]. split_and!; try done.
  - guards; [apply rt_expired; zsolve|apply rt_hit; zsolve].
  - apply rt_removed.
  - unfold presence_receive. by rewrite decide_True.
Qed.


(** A gossip message, however malformed or hostile, can only touch the
    route of the one peer it names: every other lookup answers as before, and
    a message that does not decode, or is the node's own, has no effect at
    all. *)
Theorem gossip_touches_subject_only `{L : PeerLib, RT : RouteTable R}
    (self : peerID) (d : Duration) (now : Instant) (msg : gossipMsg) (r : R) :
  (subject self msg = None → presence_receive self d now msg r = (r, [])) ∧
  ∀ t other, subject self msg ≠ Some other →
    rt_Lookup t other (presence_receive self d now msg r).1 = rt_Lookup t other r.
Proof. split; [apply receive_no_subject|intros; by apply receive_frame]. Qed.


Lemma announce_then_route_witness :
  let msg := mkGossipMsg "n2" (Some (enc_presenceMsg (@Announce plain_peers "n2" PresenceTTL 5 "app"))) in
  let bye := mkGossipMsg "n2" (Some (enc_presenceMsg (@Tombstone plain_peers "n2" "app"))) in
  let r' := (@presence_receive plain_peers _ _ "n1" PresenceTTL 6 msg NewRouter).1 in
  Lookup 7 "app" r' = (if 6 + PresenceTTL <? 7 then None else Some "n2"%string) ∧
  (@presence_receive plain_peers _ _ "n1" PresenceTTL 6 msg NewRouter).2 = [mkPeerEvent "app" "n2" true] ∧
  Lookup 7 "app" (@presence_receive plain_peers _ _ "n1" PresenceTTL 6 bye r').1 = None ∧
  (@presence_receive plain_peers _ _ "n1" PresenceTTL 6 bye r').2 = [mkPeerEvent "app" "n2" false] ∧
  @presence_receive plain_peers _ _ "n2" PresenceTTL 6 msg NewRouter = (NewRouter, []).
Proof.
  apply (@announce_then_route plain_peers _ _ Router_table "n1" "n2" "n2" "app" PresenceTTL 5 6 7 NewRouter).
  - done.
  - done.
  - done.
  - by vm_compute.
  - lia.
Defined.

(** Two refreshes of ["app"] at ["n2"], with gossip about another app between. *)
Definition refreshes : list (Instant * gossipMsg) :=
  [(45 * Second, mkGossipMsg "n2" (Some (enc_presenceMsg (@Announce plain_peers "n2" PresenceTTL (45 * Second) "app"))));
   (50 * Second, mkGossipMsg "n3" (Some (enc_presenceMsg (@Tombstone plain_peers "n3" "other"))));
   (90 * Second, mkGossipMsg "n2" (Some (enc_presenceMsg (@Announce plain_peers "n2" PresenceTTL (90 * Second) "app"))))].


