(* ===== verification/Manager.v ===== *)
(** * The relay manager ([internal/relay/manager.go])

    Routes packets to locally connected apps, to other nodes or into the queue.
    Each method is a program over the state [Manager]: one section per lock
    region or external call, so that methods can be interleaved. *)

From S2P Require Import Prelude GoTime Prog Packet Dedup Router Queue Json Presence.

#[local] Open Scope Z_scope.

(** A [DeliverFunc] is a closure made by the API server; the manager only calls
    it, so it is known by a number. *)
Abbreviation DeliverFunc := nat (only parsing).

(** The context of a refresh loop: the app it was made for and a serial
    number. Its [CancelFunc] cancels that context. *)
Abbreviation refreshCtx := (prod peerID nat) (only parsing).

(** What the manager does to the outside world. *)
Inductive Event :=
| EvDeliver (deliver : DeliverFunc) (p : Packet)     (* [deliver(p)] *)
| EvSent (via : peerID) (b : bytes)                  (* a message written to a stream *)
| EvPublish (m : presenceMsg)                        (* a message published on the topic *)
| EvPeer (e : PeerEvent).                            (* a call of [onPeer] *)

(** [type Manager struct], the clock, and the state of the runtime objects it
    creates: contexts that are not cancelled, refresh loops running, streams
    opened so far, and the effects so far (oldest first). *)
Record Manager := mkManager {
  self : peerID;
  router : Router;
  dedup : DedupCache;
  queue : Queue;
  localApps : gmap peerID DeliverFunc;
  refreshers : gmap peerID refreshCtx;
  onPeer : bool;               (* whether a callback was given *)
  clock : Instant;
  live : gset refreshCtx;
  loops : gset refreshCtx;
  nextCtx : nat;
  streams : nat;
  trace : list Event
}.

(** Field updates. *)
Definition set_router (f : Router → Router) (m : Manager) : Manager :=
  mkManager (self m) (f (router m)) (dedup m) (queue m) (localApps m) (refreshers m) (onPeer m)
    (clock m) (live m) (loops m) (nextCtx m) (streams m) (trace m).
Definition set_dedup (f : DedupCache → DedupCache) (m : Manager) : Manager :=
  mkManager (self m) (router m) (f (dedup m)) (queue m) (localApps m) (refreshers m) (onPeer m)
    (clock m) (live m) (loops m) (nextCtx m) (streams m) (trace m).
Definition set_queue (f : Queue → Queue) (m : Manager) : Manager :=
  mkManager (self m) (router m) (dedup m) (f (queue m)) (localApps m) (refreshers m) (onPeer m)
    (clock m) (live m) (loops m) (nextCtx m) (streams m) (trace m).
Definition set_clock (t : Instant) (m : Manager) : Manager :=
  mkManager (self m) (router m) (dedup m) (queue m) (localApps m) (refreshers m) (onPeer m)
    t (live m) (loops m) (nextCtx m) (streams m) (trace m).
Definition set_loops (f : gset refreshCtx → gset refreshCtx) (m : Manager) : Manager :=
  mkManager (self m) (router m) (dedup m) (queue m) (localApps m) (refreshers m) (onPeer m)
    (clock m) (live m) (f (loops m)) (nextCtx m) (streams m) (trace m).
Definition set_apps (apps : gmap peerID DeliverFunc) (refs : gmap peerID refreshCtx)
    (ctxs : gset refreshCtx) (next : nat) (m : Manager) : Manager :=
  mkManager (self m) (router m) (dedup m) (queue m) apps refs (onPeer m)
    (clock m) ctxs (loops m) next (streams m) (trace m).
Definition count_stream (m : Manager) : Manager :=
  mkManager (self m) (router m) (dedup m) (queue m) (localApps m) (refreshers m) (onPeer m)
    (clock m) (live m) (loops m) (nextCtx m) (S (streams m)) (trace m).
Definition emit (e : Event) (m : Manager) : Manager :=
  mkManager (self m) (router m) (dedup m) (queue m) (localApps m) (refreshers m) (onPeer m)
    (clock m) (live m) (loops m) (nextCtx m) (streams m) (trace m ++ [e]).

(** [NewManager]: the state after the constructor. *)
Definition NewManager (h_ID : peerID) (hasOnPeer : bool) (now : Instant) : Manager :=
  mkManager h_ID NewRouter (NewDedupCache DedupCacheTTL) NewQueue ∅ ∅ hasOnPeer now ∅ ∅ 0 0 [].

(** The errors of [Route]; [ErrNoRoute] is declared by the package. *)
Inductive RouteError := ErrNoRoute | ErrInvalidRecipient.

#[export] Instance RouteError_eq_dec : EqDecision RouteError.
Proof. solve_decision. Defined.

Section manager.
Context `{PeerLib} `{Msgpack} `{StreamNet} `{MapRange}.

(** [forwardTo]: whether the packet was written to a stream to [via]. *)
Definition forwardTo (via : peerID) (p : Packet) : prog Manager bool :=
  match Marshal p with
  | None => mret false
  | Some b =>
      atomic (λ m,
        match stream_outcome (streams m) via with
        | OpenFailed => (count_stream m, false)
        | WriteFailed => (count_stream m, false)
        | Written => (emit (EvSent via b) (count_stream m), true)
        end)
  end.

(** [m.queue.Put(recipient, p)] *)
Definition queue_Put (recipient : peerID) (p : Packet) : prog Manager unit :=
  modify (λ m, set_queue (Put (clock m) recipient (Some p)) m).

(** [m.queue.Take(recipient)] *)
Definition queue_Take (recipient : peerID) : prog Manager (list Packet) :=
  atomic (λ m,
    let '(q, out) := Take (clock m) recipient (queue m) in
    (set_queue (λ _, q) m, out)).

(** [m.localApps[recipient]] under the read lock. *)
Definition lookup_local (recipient : peerID) : prog Manager (option DeliverFunc) :=
  gets (λ m, localApps m !! recipient).

(** [via, ok := m.router.Lookup(recipient)], and whether [!ok || via == m.self]. *)
Definition lookup_via (recipient : peerID) : prog Manager (option peerID) :=
  gets (λ m,
    match Lookup (clock m) recipient (router m) with
    | None => None
    | Some via => if decide (via = self m) then None else Some via
    end).

Definition call_deliver (deliver : DeliverFunc) (p : Packet) : prog Manager unit :=
  modify (emit (EvDeliver deliver p)).

Definition FlushQueued (recipient : peerID) : prog Manager unit :=
  pending ← queue_Take recipient;
  match pending with
  | [] => mret tt
  | _ =>
      deliver ← lookup_local recipient;
      match deliver with
      | Some deliver => for_each pending (call_deliver deliver)
      | None =>
          via ← lookup_via recipient;
          match via with
          | None => for_each pending (queue_Put recipient)
          | Some via =>
              for_each pending (λ p,
                ok ← forwardTo via p;
                if (ok : bool) then mret tt else queue_Put recipient p)
          end
      end
  end.

(** [m.presence.Announce(appPeer)] and [m.presence.Tombstone(appPeer)]: the
    error of publishing is only logged. *)
Definition presence_Announce (appPeer : peerID) : prog Manager unit :=
  modify (λ m, emit (EvPublish (Announce (self m) PresenceTTL (clock m) appPeer)) m).
Definition presence_Tombstone (appPeer : peerID) : prog Manager unit :=
  modify (λ m, emit (EvPublish (Tombstone (self m) appPeer)) m).

(** The locked region of [AppConnected]; the context it registers is created
    just before the lock is taken and is known to nobody else. *)
Definition register_app (appPeer : peerID) (deliver : DeliverFunc) : prog Manager refreshCtx :=
  atomic (λ m,
    let rctx := (appPeer, nextCtx m) in
    let ctxs := match refreshers m !! appPeer with
                | Some old => live m ∖ {[old]}
                | None => live m
                end in
    (set_apps (<[appPeer := deliver]> (localApps m)) (<[appPeer := rctx]> (refreshers m))
       ({[rctx]} ∪ ctxs) (S (nextCtx m)) m,
     rctx)).

Definition AppConnected (appPeer : peerID) (deliver : DeliverFunc) : prog Manager unit :=
  rctx ← register_app appPeer deliver;
  presence_Announce appPeer;;
  FlushQueued appPeer;;
  modify (set_loops (union {[rctx]})).     (* go m.refreshLoop(rctx, appPeer) *)

(** The locked region of [AppDisconnected]. *)
Definition unregister_app (appPeer : peerID) (m : Manager) : Manager :=
  match refreshers m !! appPeer with
  | Some rctx =>
      set_apps (delete appPeer (localApps m)) (delete appPeer (refreshers m))
        (live m ∖ {[rctx]}) (nextCtx m) m
  | None => set_apps (delete appPeer (localApps m)) (refreshers m) (live m) (nextCtx m) m
  end.

Definition AppDisconnected (appPeer : peerID) : prog Manager unit :=
  modify (unregister_app appPeer);;
  presence_Tombstone appPeer.

Definition forwardOrDeliver (p : Packet) : prog Manager (option RouteError) :=
  match IDFromBytes (RecipientID p) with
  | None => mret (Some ErrInvalidRecipient)
  | Some recipient =>
      deliver ← lookup_local recipient;
      match deliver with
      | Some deliver => call_deliver deliver p;; mret None
      | None =>
          via ← lookup_via recipient;
          match via with
          | None => queue_Put recipient p;; mret None
          | Some via =>
              ok ← forwardTo via p;
              if (ok : bool) then mret None else queue_Put recipient p;; mret None
          end
      end
  end.

Definition Route (p : Packet) : prog Manager (option RouteError) :=
  seen ← atomic (λ m,
    let '(d, seen) := SeenOrAdd (clock m) (ID p) (dedup m) in
    (set_dedup (λ _, d) m, seen));
  if (seen : bool) then mret None else forwardOrDeliver p.

(** [handleStream]: [read] is what [ReadMsg] returned. *)
Definition handleStream (read : option bytes) : prog Manager unit :=
  match read with
  | None => mret tt
  | Some b =>
      match UnmarshalPacket b with
      | None => mret tt
      | Some p => _ ← Route p; mret tt
      end
  end.

(** The callback [NewManager] wraps around [onPeer]. *)
Definition wrapped (e : PeerEvent) : prog Manager unit :=
  (if ev_online e then FlushQueued (ev_peer e) else mret tt);;
  modify (λ m, if onPeer m then emit (EvPeer e) m else m).

(** One message of the presence topic, with the callback of [NewManager]. *)
Definition on_presence (msg : gossipMsg) : prog Manager unit :=
  evs ← atomic (λ m,
    let '(r, evs) := presence_receive (self m) PresenceTTL (clock m) msg (router m) in
    (set_router (λ _, r) m, evs));
  for_each evs wrapped.

(** [Presence.readLoop], with that callback. *)
Definition presence_readLoop (next : list (option gossipMsg)) : prog Manager unit := read_loop on_presence next.

(** [d.evict()], [r.prune()] and [q.sweep()]: the time is read before the lock is
    taken; and the loops that call them. *)
Definition dedup_evict : prog Manager unit := now ← gets clock; modify (set_dedup (evict now)).
Definition router_prune : prog Manager unit := now ← gets clock; modify (set_router (prune now)).
Definition queue_sweep : prog Manager unit := now ← gets clock; modify (set_queue (sweep now)).

Definition evictLoop (sigs : list signal) : prog Manager unit := ticker_loop dedup_evict sigs.
Definition pruneLoop (sigs : list signal) : prog Manager unit := ticker_loop router_prune sigs.
Definition sweepLoop (sigs : list signal) : prog Manager unit := ticker_loop queue_sweep sigs.

(** ** The manager among its goroutines *)

(** The callback the API server registers for an app: a closure that
    captures the app's peer ID. *)
Variable closure : peerID → DeliverFunc.

(** Entry points: what the API server, the stream handler, the presence loop and
    the tickers start. *)
Inductive mgr_call : prog Manager unit → Prop :=
| call_flush r : mgr_call (FlushQueued r)
| call_connected a : mgr_call (AppConnected a (closure a))
| call_disconnected a : mgr_call (AppDisconnected a)
| call_route p : mgr_call (_ ← Route p; mret tt)
| call_stream b : mgr_call (handleStream b)
| call_presence msg : mgr_call (on_presence msg)
| call_evict : mgr_call dedup_evict
| call_prune : mgr_call router_prune
| call_sweep : mgr_call queue_sweep.

(** What happens by itself: time passes; a refresh loop announces; a loop whose
    context is cancelled ends. *)
Inductive mgr_env : Manager → Manager → Prop :=
| env_clock m t : clock m <= t → mgr_env m (set_clock t m)
| env_refresh m c :
    c ∈ loops m →
    mgr_env m (emit (EvPublish (Announce (self m) PresenceTTL (clock m) c.1)) m)
| env_stop m c : c ∈ loops m → c ∉ live m → mgr_env m (set_loops (λ l, l ∖ {[c]}) m).

(** ** The invariant of a manager running at [me] *)
Record mgr_wf (me : peerID) (m : Manager) : Prop := {
  wf_self : self m = me;
  wf_queue : queue_wf (queue m);
  (* packets are queued under their own recipient *)
  wf_recipient r s e : held (queue m) r s = Some e → RecipientID (pkt e) = r;
  (* an app is registered together with its refresh context *)
  wf_apps a : is_Some (localApps m !! a) ↔ is_Some (refreshers m !! a);
  wf_closure a d : localApps m !! a = Some d → d = closure a;
  (* the contexts that are not cancelled are the registered ones *)
  wf_live a c : refreshers m !! a = Some c ↔ c ∈ live m ∧ c.1 = a;
  wf_serial c : c ∈ live m → (c.2 < nextCtx m)%nat;
  wf_ttl : dedup_ttl (dedup m) = DedupCacheTTL;
  (* packets are delivered to their recipient, and never sent to the node itself *)
  wf_deliver d p : EvDeliver d p ∈ trace m → d = closure (RecipientID p);
  wf_sent via b : EvSent via b ∈ trace m → via ≠ me
}.
End manager.

(** ** The invariant holds under every interleaving *)

Section manager_invariant.
Context `{L : PeerLib} `{!PeerLaws L} `{Msgpack} `{StreamNet} `{MapRange}.
Context (closure : peerID → DeliverFunc) (me : peerID).

#[local] Abbreviation wf := (mgr_wf closure me).

Lemma NewManager_wf cb now : wf (NewManager me cb now).
Proof.
  split; cbn; try done.
  - intros a. split; by intros [].
  - intros a c. split; [done|]. by intros [?%not_elem_of_empty _].
  - by intros d p ?%not_elem_of_nil.
  - by intros via b ?%not_elem_of_nil.
Qed.

Lemma wf_set_queue f m :
  wf m → queue_wf (f (queue m)) →
  (∀ r s e, held (f (queue m)) r s = Some e → RecipientID (pkt e) = r) →
  wf (set_queue f m).
Proof. intros [] ? ?. by split. Qed.

Lemma wf_set_router f m : wf m → wf (set_router f m).
Proof. intros []. by split. Qed.

Lemma wf_set_loops f m : wf m → wf (set_loops f m).
Proof. intros []. by split. Qed.

Lemma wf_set_clock t m : wf m → wf (set_clock t m).
Proof. intros []. by split. Qed.

Lemma wf_count_stream m : wf m → wf (count_stream m).
Proof. intros []. by split. Qed.

Lemma wf_set_dedup f m :
  wf m → dedup_ttl (f (dedup m)) = dedup_ttl (dedup m) → wf (set_dedup f m).
Proof. intros [] ?. split; try done. cbn. congruence. Qed.

Lemma wf_emit e m :
  wf m →
  match e with
  | EvDeliver d p => d = closure (RecipientID p)
  | EvSent via _ => via ≠ me
  | _ => True
  end → wf (emit e m).
Proof.
  intros [] He. split; try done; cbn.
  - intros d p [?|Hin%list_elem_of_singleton]%elem_of_app; [eauto|by subst e].
  - intros via b [?|Hin%list_elem_of_singleton]%elem_of_app; [eauto|by subst e].
Qed.

Lemma wf_Put r p now m :
  wf m → RecipientID p = r → wf (set_queue (Put now r (Some p)) m).
Proof.
  intros Hwf Hp. apply wf_set_queue; [done|apply Put_wf, Hwf|].
  intros r' s e. rewrite held_Put. case_decide as Hd; [|apply Hwf].
  intros [= <-]. destruct Hd as (<- & _). done.
Qed.

Lemma wf_sweep now m : wf m → wf (set_queue (sweep now) m).
Proof.
  intros Hwf. apply wf_set_queue; [done|apply sweep_wf, Hwf|].
  intros r s e. rewrite held_sweep. destruct (held (queue m) r s) as [e'|] eqn:E; [|done].
  cbn. guards; [done|]. intros [= <-]. by eapply Hwf.
Qed.

Lemma wf_Take r m :
  wf m →
  wf (set_queue (λ _, (Take (clock m) r (queue m)).1) m) ∧
  Forall (λ p, RecipientID p = r) (Take (clock m) r (queue m)).2.
Proof.
  intros Hwf. split.
  - apply wf_set_queue; [done|apply Take_wf, Hwf|].
    intros r' s e. rewrite held_Take. case_decide; [done|]. apply Hwf.
  - apply Forall_forall. intros p Hp. apply in_Take in Hp as (s & e & He & <- & _).
    by eapply Hwf.
Qed.

(** The registered contexts when one is replaced or removed. *)
Lemma live_insert (refs : gmap peerID refreshCtx) (ctxs : gset refreshCtx) a n :
  (∀ a c, refs !! a = Some c ↔ c ∈ ctxs ∧ c.1 = a) → (a, n) ∉ ctxs →
  ∀ a' c, <[a := (a, n)]> refs !! a' = Some c ↔
    c ∈ {[(a, n)]} ∪ match refs !! a with Some old => ctxs ∖ {[old]} | None => ctxs end ∧ c.1 = a'.
Proof.
  intros Hl Hfresh a' c. rewrite lookup_insert. case_decide as Ha.
  - subst a'. split; [intros [= <-]; set_solver|].
    intros [[->%elem_of_singleton|Hc]%elem_of_union Hca]; [done|].
    destruct (refs !! a) as [old|] eqn:E.
    + apply elem_of_difference in Hc as [Hc Hne].
      rewrite (proj2 (Hl a c)) in E by done. set_solver.
    + rewrite (proj2 (Hl a c)) in E by done. done.
  - rewrite Hl. split.
    + intros [Hc <-]. split; [|done]. apply elem_of_union_r.
      destruct (refs !! a) as [old|] eqn:E; [|done].
      apply Hl in E as [_ Hold]. set_solver.
    + intros [[->%elem_of_singleton|Hc]%elem_of_union Hca]; [done|].
      destruct (refs !! a); set_solver.
Qed.

Lemma live_delete (refs : gmap peerID refreshCtx) (ctxs : gset refreshCtx) a c0 :
  (∀ a c, refs !! a = Some c ↔ c ∈ ctxs ∧ c.1 = a) → refs !! a = Some c0 →
  ∀ a' c, delete a refs !! a' = Some c ↔ c ∈ ctxs ∖ {[c0]} ∧ c.1 = a'.
Proof.
  intros Hl E a' c. rewrite lookup_delete. case_decide as Ha.
  - subst a'. split; [done|]. intros [Hc Hca]. exfalso.
    assert (Hr : refs !! a = Some c) by (apply Hl; set_solver). set_solver.
  - rewrite Hl. apply Hl in E as [_ E]. set_solver.
Qed.

Lemma wf_register a m :
  wf m → wf (run (register_app a (closure a)) m).1.
Proof.
  intros Hwf. unfold register_app. rewrite run_atomic. cbn.
  pose proof (wf_serial _ _ _ Hwf) as Hser. pose proof (wf_live _ _ _ Hwf) as Hl.
  destruct Hwf. split; try done; cbn.
  - intros a'. rewrite !lookup_insert. case_decide; [split; eauto|done].
  - intros a' d. rewrite lookup_insert. case_decide; [by intros [= <-]; subst|eauto].
  - apply live_insert; [done|]. intros Hin%Hser. cbn in Hin. lia.
  - intros c Hc. apply elem_of_union in Hc as [->%elem_of_singleton|Hc]; cbn; [lia|].
    assert (c ∈ live m) as ?%Hser by (destruct (refreshers m !! a); set_solver). lia.
Qed.

Lemma wf_unregister a m : wf m → wf (unregister_app a m).
Proof.
  intros Hwf. pose proof (wf_live _ _ _ Hwf) as Hl. unfold unregister_app.
  destruct (refreshers m !! a) as [c0|] eqn:E; destruct Hwf; split; try done; cbn.
  - intros a'. rewrite !lookup_delete. by case_decide.
  - intros a' d [_ ?]%lookup_delete_Some. eauto.
  - by apply live_delete.
  - intros c [? _]%elem_of_difference. eauto.
  - intros a'. rewrite lookup_delete. case_decide as Ha; [subst|done].
    rewrite E. split; by intros [].
  - intros a' d [_ ?]%lookup_delete_Some. eauto.
Qed.

(** ** Sections *)

#[local] Abbreviation safe := (Prog.safe wf).
#[local] Abbreviation stable := (Prog.stable wf).

Lemma queue_Take_safe r : safe (Forall (λ p, RecipientID p = r)) (queue_Take r).
Proof.
  apply safe_atomic. intros m Hwf. pose proof (wf_Take r m Hwf) as HT.
  by destruct (Take _ _ _).
Qed.

Lemma lookup_local_safe r :
  safe (λ od, ∀ d, od = Some d → d = closure r) (lookup_local r).
Proof. apply safe_gets. intros m Hwf d Hd. by eapply Hwf. Qed.

Lemma lookup_via_safe r : safe (λ ov, ov ≠ Some me) (lookup_via r).
Proof.
  apply safe_gets. intros m Hwf. rewrite (wf_self _ _ _ Hwf).
  destruct (Lookup _ _ _) as [v|]; [|done]. case_decide; [done|congruence].
Qed.

Lemma queue_Put_stable r p : RecipientID p = r → stable (queue_Put r p).
Proof. intros Hp. apply stable_modify. intros m Hwf. by apply wf_Put. Qed.

Lemma call_deliver_stable r d p :
  d = closure r → RecipientID p = r → stable (call_deliver d p).
Proof. intros -> <-. apply stable_modify. intros m Hwf. by apply wf_emit. Qed.

Lemma forwardTo_stable via p : via ≠ me → stable (forwardTo via p).
Proof.
  intros Hv. unfold forwardTo. destruct (Marshal p); [|apply stable_ret].
  apply stable_atomic. intros m Hwf.
  destruct (stream_outcome _ _); cbn; [by apply wf_count_stream..|].
  apply wf_emit; [by apply wf_count_stream|done].
Qed.

Lemma FlushQueued_stable r : stable (FlushQueued r).
Proof.
  eapply safe_bind; [apply queue_Take_safe|]. intros pending Hp.
  rewrite Forall_forall in Hp. destruct pending as [|p0 pending]; [apply stable_ret|].
  eapply safe_bind; [apply lookup_local_safe|]. intros [d|] Hd.
  - apply stable_for_each. intros p Hin. eapply call_deliver_stable; eauto.
  - eapply safe_bind; [apply lookup_via_safe|]. intros [via|] Hv.
    + apply stable_for_each. intros p Hin.
      apply stable_bind; [apply forwardTo_stable; congruence|].
      intros []; [apply stable_ret|]. apply queue_Put_stable; auto.
    + apply stable_for_each. intros p Hin. apply queue_Put_stable; auto.
Qed.

Lemma presence_Announce_stable a : stable (presence_Announce a).
Proof. apply stable_modify. intros. by apply wf_emit. Qed.

Lemma presence_Tombstone_stable a : stable (presence_Tombstone a).
Proof. apply stable_modify. intros. by apply wf_emit. Qed.

Lemma AppConnected_stable a : stable (AppConnected a (closure a)).
Proof.
  apply stable_bind.
  { apply stable_atomic. intros m Hwf. pose proof (wf_register a m Hwf) as Hr.
    unfold register_app in Hr. by rewrite run_atomic in Hr. }
  intros c. apply stable_bind; [apply presence_Announce_stable|intros _].
  apply stable_bind; [apply FlushQueued_stable|intros _].
  apply stable_modify. intros. by apply wf_set_loops.
Qed.

Lemma AppDisconnected_stable a : stable (AppDisconnected a).
Proof.
  apply stable_bind; [|intros _; apply presence_Tombstone_stable].
  apply stable_modify. intros. by apply wf_unregister.
Qed.

Lemma forwardOrDeliver_stable p : stable (forwardOrDeliver p).
Proof.
  unfold forwardOrDeliver. destruct (IDFromBytes (RecipientID p)) as [r|] eqn:Er; [|apply stable_ret].
  apply IDFromBytes_bytes in Er.
  eapply safe_bind; [apply lookup_local_safe|]. intros [d|] Hd.
  - apply stable_bind; [eapply call_deliver_stable; eauto|intros _; apply stable_ret].
  - eapply safe_bind; [apply lookup_via_safe|]. intros [via|] Hv.
    + apply stable_bind; [apply forwardTo_stable; congruence|].
      intros []; [apply stable_ret|].
      apply stable_bind; [by apply queue_Put_stable|intros _; apply stable_ret].
    + apply stable_bind; [by apply queue_Put_stable|intros _; apply stable_ret].
Qed.

Lemma SeenOrAdd_ttl now id d : dedup_ttl (SeenOrAdd now id d).1 = dedup_ttl d.
Proof. apply (dedup_step_ttl now (Offer id) d). Qed.

Lemma Route_stable p : stable (Route p).
Proof.
  apply stable_bind; [|intros []; [apply stable_ret|apply forwardOrDeliver_stable]].
  apply stable_atomic. intros m Hwf. pose proof (SeenOrAdd_ttl (clock m) (ID p) (dedup m)).
  destruct (SeenOrAdd _ _ _). by apply wf_set_dedup.
Qed.

Lemma handleStream_stable b : stable (handleStream b).
Proof.
  destruct b as [b|]; [|apply stable_ret]. unfold handleStream. destruct (UnmarshalPacket b); [|apply stable_ret].
  apply stable_bind; [apply Route_stable|intros _; apply stable_ret].
Qed.

Lemma wrapped_stable e : stable (wrapped e).
Proof.
  apply stable_bind.
  - destruct (ev_online e); [apply FlushQueued_stable|apply stable_ret].
  - intros _. apply stable_modify. intros m Hwf. destruct (onPeer m); [by apply wf_emit|done].
Qed.

Lemma on_presence_stable msg : stable (on_presence msg).
Proof.
  apply stable_bind; [|intros evs; apply stable_for_each; intros; apply wrapped_stable].
  apply stable_atomic. intros m Hwf. destruct (presence_receive _ _ _ _ _). by apply wf_set_router.
Qed.

Lemma mgr_call_stable p : mgr_call closure p → stable p.
Proof.
  intros [r|a|a|pk|b|msg| | |].
  - apply FlushQueued_stable.
  - apply AppConnected_stable.
  - apply AppDisconnected_stable.
  - apply stable_bind; [apply Route_stable|intros _; apply stable_ret].
  - apply handleStream_stable.
  - apply on_presence_stable.
  - apply stable_bind; [apply stable_gets|intros now; apply stable_modify; intros; by apply wf_set_dedup].
  - apply stable_bind; [apply stable_gets|intros now; apply stable_modify; intros; by apply wf_set_router].
  - apply stable_bind; [apply stable_gets|intros now; apply stable_modify; intros; by apply wf_sweep].
Qed.

Lemma mgr_env_wf m m' : mgr_env m m' → wf m → wf m'.
Proof.
  intros [] Hwf.
  - by apply wf_set_clock.
  - by apply wf_emit.
  - by apply wf_set_loops.
Qed.

(** The configurations a manager can get into, whatever is called when. *)
Definition reachable (cb : bool) (t0 : Instant) (c : config) : Prop :=
  rtc (cstep mgr_env (mgr_call closure)) (NewManager me cb t0, []) c.

Lemma reachable_wf cb t0 c : reachable cb t0 c → wf c.1.
Proof.
  intros Hr.
  apply (reachable_invariant mgr_env (mgr_call closure) wf _ _ mgr_env_wf mgr_call_stable Hr).
  - apply NewManager_wf.
  - constructor.
Qed.
End manager_invariant.
