(* ===== verification/RelaySpec.v ===== *)
(** * What the relay manager promises

    Theorems about Manager.v: its safety under every interleaving, the fate of
    a routed packet, what a flush keeps, and where interleavings and retries
    break the queue's documented contract. *)

From S2P Require Import Prelude GoTime Prog Packet Dedup Router Queue Json Presence Manager.

#[local] Open Scope Z_scope.

(** ** Running the programs alone *)

Section running.
Context `{L : PeerLib} `{Mp : Msgpack} `{SN : StreamNet} `{MR : MapRange}.
Implicit Types (m : Manager) (p : Packet) (r : peerID).

(** A packet was written to a stream. *)
Definition sent (p : Packet) (m : Manager) : Prop :=
  ∃ via b, Marshal p = Some b ∧ EvSent via b ∈ trace m.

(** Whether [forwardTo] would succeed now. *)
Definition would_send (via : peerID) (p : Packet) (m : Manager) : bool :=
  match Marshal p with
  | None => false
  | Some _ => match stream_outcome (streams m) via with Written => true | _ => false end
  end.

Lemma run_forwardTo_ok via p m b :
  Marshal p = Some b → stream_outcome (streams m) via = Written →
  run (forwardTo via p) m = (emit (EvSent via b) (count_stream m), true).
Proof. intros E E'. unfold forwardTo. by rewrite E, run_atomic, E'. Qed.

Lemma run_forwardTo_fail via p m :
  would_send via p m = false →
  ∃ m1, run (forwardTo via p) m = (m1, false) ∧
    queue m1 = queue m ∧ clock m1 = clock m ∧ trace m1 = trace m ∧ dedup m1 = dedup m.
Proof.
  unfold would_send, forwardTo. destruct (Marshal p); [|by exists m].
  intros E. rewrite run_atomic. destruct (stream_outcome _ _); by exists (count_stream m).
Qed.

Lemma would_send_true via p m :
  would_send via p m = true →
  ∃ b, Marshal p = Some b ∧ stream_outcome (streams m) via = Written.
Proof.
  unfold would_send. destruct (Marshal p) as [b|]; [|done].
  destruct (stream_outcome _ _) eqn:E; try done. by exists b.
Qed.

(** The route a manager would use: what [lookup_via] returns. *)
Definition next_hop m r : option peerID :=
  match Lookup (clock m) r (router m) with
  | None => None
  | Some via => if decide (via = self m) then None else Some via
  end.

Lemma run_queue_Take r m :
  run (queue_Take r) m =
    (set_queue (λ _, (Take (clock m) r (queue m)).1) m, (Take (clock m) r (queue m)).2).
Proof. unfold queue_Take. rewrite run_atomic. by destruct (Take _ _ _). Qed.

Lemma run_lookup_via r m : run (lookup_via r) m = (m, next_hop m r).
Proof. done. Qed.

(** ** The body of a flush: each packet is got rid of or put back

    [gone p m] says how a packet can be known to be gone: written to a
    stream, or, on a network where nothing gets through, not at all. *)
Definition lasting (gone : Packet → Manager → Prop) : Prop :=
  ∀ p m m', (∃ evs, trace m' = trace m ++ evs) → gone p m → gone p m'.

Definition puts_back (gone : Packet → Manager → Prop) (r : peerID)
    (body : Packet → prog Manager unit) : Prop :=
  ∀ m p, ∃ m1, queue m1 = queue m ∧ clock m1 = clock m ∧ (∃ evs, trace m1 = trace m ++ evs) ∧
    ((run (body p) m).1 = set_queue (Put (clock m) r (Some p)) m1 ∨
     ((run (body p) m).1 = m1 ∧ gone p m1)).

Definition forward_body (r via : peerID) (p : Packet) : prog Manager unit :=
  ok ← forwardTo via p; if (ok : bool) then mret tt else queue_Put r p.

Lemma sent_lasting : lasting sent.
Proof.
  intros p m m' [evs Ht] (via & b & Hb & Hin). exists via, b. split; [done|].
  rewrite Ht. apply elem_of_app. by left.
Qed.

Lemma put_body_puts_back gone r : puts_back gone r (queue_Put r).
Proof.
  intros m p. exists m. split_and!; try done; [by exists []; rewrite app_nil_r|]. by left.
Qed.

Lemma failing_body_puts_back r via :
  (∀ n via, stream_outcome n via ≠ Written) →
  puts_back (λ _ _, False) r (forward_body r via).
Proof.
  intros Hnet m p. unfold forward_body. rewrite run_bind.
  destruct (run_forwardTo_fail via p m) as (m1 & -> & Hq & Hc & Ht & _).
  { unfold would_send. destruct (Marshal p); [|done].
    specialize (Hnet (streams m) via). by destruct (stream_outcome _ _). }
  exists m1. split_and!; [done|done|by exists []; rewrite app_nil_r, Ht|]. left.
  cbn. by rewrite Hc.
Qed.

Lemma forward_body_puts_back r via : puts_back sent r (forward_body r via).
Proof.
  intros m p. unfold forward_body. rewrite run_bind. destruct (would_send via p m) eqn:Ew.
  - apply would_send_true in Ew as (b & Eb & Eo). rewrite (run_forwardTo_ok via p m b) by done.
    exists (emit (EvSent via b) (count_stream m)). split_and!; [done|done|by exists [EvSent via b]|]. right. split; [done|].
    exists via, b. split; [done|]. cbn. set_solver.
  - destruct (run_forwardTo_fail via p m Ew) as (m1 & -> & Hq & Hc & Ht & _).
    exists m1. split_and!; [done|done|by exists []; rewrite app_nil_r, Ht|]. left.
    cbn. by rewrite Hc.
Qed.

(** The loop of a flush, from a queue with room for what is left. *)
Lemma flush_loop gone r body (l : list Packet) m :
  lasting gone → puts_back gone r body →
  NoDup (SenderID <$> l) →
  (∀ p, p ∈ l → held (queue m) r (SenderID p) = None) →
  (Len r (queue m) + length l <= QueueMaxSenders)%nat →
  let m' := (run (for_each l body) m).1 in
  clock m' = clock m ∧ (∃ evs, trace m' = trace m ++ evs) ∧
  (∀ p, p ∈ l → gone p m' ∨ held (queue m') r (SenderID p) = Some (mkQueued p (clock m))) ∧
  (∀ r' s, r' ≠ r ∨ s ∉ SenderID <$> l → held (queue m') r' s = held (queue m) r' s).
Proof.
  intros Hlasting Hbody. cbn zeta. rewrite run_for_each. revert m.
  induction l as [|p l IH]; intros m Hnd Hfree Hroom; cbn [foldl].
  { split_and!; [done|by exists []; rewrite app_nil_r|by intros p ?%not_elem_of_nil|done]. }
  cbn in Hnd. apply NoDup_cons in Hnd as [Hnin Hnd].
  destruct (Hbody m p) as (m1 & Hq & Hc & [evs Ht] & Hrun).
  set (m2 := (run (body p) m).1) in *.
  assert (Hm2 : clock m2 = clock m ∧ (∃ evs, trace m2 = trace m ++ evs) ∧
    (Len r (queue m2) + length l <= QueueMaxSenders)%nat ∧
    (gone p m2 ∨ held (queue m2) r (SenderID p) = Some (mkQueued p (clock m))) ∧
    (∀ r' s, r' ≠ r ∨ s ≠ SenderID p → held (queue m2) r' s = held (queue m) r' s)).
  { rewrite length_cons in Hroom. destruct Hrun as [->|[-> Hgone]]; cbn [set_queue clock queue trace].
    - rewrite Hq, Hc.
      assert (Hacc : accepts (queue m) r (SenderID p) = true).
      { unfold accepts. rewrite Hfree by set_solver. apply Nat.ltb_lt. lia. }
      split_and!; [done|by exists evs|..].
      + pose proof (Len_Put_le (clock m) r p (queue m)). lia.
      + right. rewrite held_Put. by rewrite decide_True.
      + intros r' s Hne. rewrite held_Put, decide_False; [done|]. naive_solver.
    - rewrite Hq, Hc. split_and!; [done|by exists evs|lia|by left|done]. }
  destruct Hm2 as (Hc2 & [evs2 Ht2] & Hroom2 & Hp & Hframe).
  destruct (IH m2 Hnd) as (Hc' & [evs' Ht'] & Hall & Hframe'); [|done|].
  { intros p' Hp'. rewrite Hframe; [apply Hfree; set_solver|]. right. intros Heq.
    apply Hnin. rewrite <- Heq. by apply list_elem_of_fmap_2. }
  split_and!.
  - by rewrite Hc'.
  - exists (evs2 ++ evs'). by rewrite Ht', Ht2, app_assoc.
  - rewrite Hc2 in Hall. intros p' [->|Hp']%elem_of_cons; [|by apply Hall].
    destruct Hp as [Hgone|Hheld].
    + left. by eapply Hlasting; [exists evs'|].
    + right. by rewrite Hframe' by (right; done).
  - intros r' s Hne. rewrite Hframe', Hframe; [done|set_solver..].
Qed.

Lemma run_deliver_all d (l : list Packet) m :
  let m' := (run (for_each l (call_deliver d)) m).1 in
  queue m' = queue m ∧ ∀ p, p ∈ l → EvDeliver d p ∈ trace m'.
Proof.
  cbn zeta. rewrite run_for_each.
  assert (Hgen : ∀ m, let m' := foldl (λ m p, (run (call_deliver d p) m).1) m l in
    queue m' = queue m ∧ trace m' = trace m ++ (EvDeliver d <$> l)).
  { clear m. induction l as [|p l IH]; intros m; cbn; [by rewrite app_nil_r|].
    destruct (IH (emit (EvDeliver d p) m)) as [Hq Ht]. cbn in *.
    by rewrite Hq, Ht, <- app_assoc. }
  destruct (Hgen m) as [Hq Ht]. split; [done|]. intros p Hp.
  rewrite Ht. apply elem_of_app. right. by apply list_elem_of_fmap_2.
Qed.
End running.

(** ** The fate of a routed packet *)

(** What happened to [p], routed for [r] in state [m] and leaving [m']. *)
Inductive fate `{Msgpack} (p : Packet) (r : peerID) (m m' : Manager) : Prop :=
| Delivered d :
    localApps m !! r = Some d →
    trace m' = trace m ++ [EvDeliver d p] → queue m' = queue m → fate p r m m'
| Forwarded via b :
    localApps m !! r = None → next_hop m r = Some via → Marshal p = Some b →
    trace m' = trace m ++ [EvSent via b] → queue m' = queue m → fate p r m m'
| Queued :
    localApps m !! r = None → trace m' = trace m →
    accepts (queue m) r (SenderID p) = true →
    held (queue m') r (SenderID p) = Some (mkQueued p (clock m)) →
    (∀ r' s, r' ≠ r ∨ s ≠ SenderID p → held (queue m') r' s = held (queue m) r' s) →
    fate p r m m'
| Dropped :
    localApps m !! r = None → trace m' = trace m →
    accepts (queue m) r (SenderID p) = false →
    (∀ r' s, held (queue m') r' s = held (queue m) r' s) → fate p r m m'.

Section route.
Context `{L : PeerLib} `{Mp : Msgpack} `{SN : StreamNet} `{MR : MapRange}.

Lemma fate_of_Put p r m m1 :
  localApps m !! r = None → queue m1 = queue m → clock m1 = clock m → trace m1 = trace m →
  fate p r m (set_queue (Put (clock m) r (Some p)) m1).
Proof.
  intros Hl Hq Hc Ht. destruct (accepts (queue m) r (SenderID p)) eqn:Ea.
  - apply Queued; [done|done|done|cbn [set_queue queue]..].
    + by rewrite Hq, held_Put, decide_True.
    + intros r' s Hne. rewrite Hq, held_Put, decide_False; [done|]. naive_solver.
  - apply Dropped; [done|done|done|]. intros r' s. cbn [set_queue queue].
    rewrite Hq, held_Put, decide_False; [done|]. intros (_ & _ & ?). congruence.
Qed.

Lemma forwardOrDeliver_fate p r m :
  IDFromBytes (RecipientID p) = Some r →
  let '(m', res) := run (forwardOrDeliver p) m in
  res = None ∧ dedup m' = dedup m ∧ fate p r m m'.
Proof.
  intros Hr. unfold forwardOrDeliver. rewrite Hr, run_bind. cbn [lookup_local run gets fst snd id].
  destruct (localApps m !! r) as [d|] eqn:El.
  { cbn. split_and!; [done|done|]. by apply Delivered with d. }
  rewrite run_bind, run_lookup_via. cbn [fst snd].
  destruct (next_hop m r) as [via|] eqn:Ev.
  2:{ cbn. split_and!; [done|done|]. by apply fate_of_Put. }
  rewrite run_bind. destruct (would_send via p m) eqn:Ew.
  - apply would_send_true in Ew as (b & Eb & Eo). rewrite (run_forwardTo_ok via p m b) by done.
    cbn. split_and!; [done|done|]. by apply Forwarded with via b.
  - destruct (run_forwardTo_fail via p m Ew) as (m1 & -> & Hq & Hc & Ht & Hd).
    cbn. rewrite Hc. split_and!; [done|done|]. by apply fate_of_Put.
Qed.
End route.

(** What a flush does with each packet it takes. *)
Lemma flush_spec `{Mp : Msgpack, SN : StreamNet, MR : MapRange}
    (gone : Packet → Manager → Prop) (r : peerID) (m : Manager) :
  queue_wf (queue m) → lasting gone → (∀ via, puts_back gone r (forward_body r via)) →
  let m' := exec (FlushQueued r) m in
  (∀ s e, held (queue m) r s = Some e → expired_entry (clock m) e = false →
     (∃ d, localApps m !! r = Some d ∧ EvDeliver d (pkt e) ∈ trace m') ∨
     (localApps m !! r = None ∧
        (gone (pkt e) m' ∨ held (queue m') r s = Some (mkQueued (pkt e) (clock m))))) ∧
  (∀ r' s, r' ≠ r → held (queue m') r' s = held (queue m) r' s).
Proof.
  intros Hwf Hlasting Hfwd. cbn zeta. unfold exec, FlushQueued. rewrite run_bind, run_queue_Take. cbn [fst snd].
  pose proof (in_Take (clock m) r (queue m)) as Hin.
  pose proof (Take_NoDup_senders (clock m) r (queue m) Hwf) as Hnd.
  pose proof (held_Take (clock m) r (queue m)) as Hheld.
  pose proof (Take_length (clock m) r (queue m) Hwf) as [Hlen Hempty].
  assert (Hs : ∀ s e, held (queue m) r s = Some e → SenderID (pkt e) = s).
  { intros s e. unfold held. destruct (queue m !! r) as [b|] eqn:Eq; [|done]. apply (Hwf r b Eq). }
  destruct (Take (clock m) r (queue m)) as [q out]. cbn [fst snd] in *.
  set (m1 := set_queue (λ _, q) m).
  assert (Hother : ∀ r' s, r' ≠ r → held (queue m1) r' s = held (queue m) r' s).
  { intros r' s ?. cbn. rewrite Hheld, decide_False; done. }
  assert (Hout : ∀ s e, held (queue m) r s = Some e → expired_entry (clock m) e = false → pkt e ∈ out).
  { intros s e ? ?. apply Hin. eauto. }
  destruct out as [|p0 out'] eqn:Eo.
  { split; [|done]. intros s e ? ?. exfalso. by eapply not_elem_of_nil, Hout. }
  rewrite <- Eo in *. rewrite run_bind. cbn [lookup_local run gets fst snd id].
  destruct (localApps m1 !! r) as [d|] eqn:El; cbn in El; rewrite El.
  - destruct (run_deliver_all d out m1) as (Hq & Hall).
    split; [|by rewrite Hq]. intros s e He Hx. left. exists d. split; [done|]. apply Hall. eauto.
  - rewrite run_bind, run_lookup_via. cbn [fst snd].
    assert (Hfin : ∀ body, puts_back gone r body → let m' := (run (for_each out body) m1).1 in
      (∀ s e, held (queue m) r s = Some e → expired_entry (clock m) e = false →
        gone (pkt e) m' ∨ held (queue m') r s = Some (mkQueued (pkt e) (clock m))) ∧
      (∀ r' s, r' ≠ r → held (queue m') r' s = held (queue m) r' s)).
    { intros body Hbody. destruct (flush_loop gone r body out m1 Hlasting Hbody Hnd) as (_ & _ & Hall & Hframe).
      - intros p _. cbn. by rewrite Hheld, decide_True.
      - cbn [m1 set_queue queue]. lia.
      - split; [|intros r' s ?; rewrite Hframe by (by left); by apply Hother].
        intros s e He Hx. rewrite <- (Hs s e He). apply Hall. eauto. }
    destruct (next_hop m1 r) as [via|].
    + destruct (Hfin _ (Hfwd via)) as [H1' H2']. split; [|done].
      intros s e He Hx. right. split; [done|]. by apply H1'.
    + destruct (Hfin _ (put_body_puts_back gone r)) as [H1' H2']. split; [|done].
      intros s e He Hx. right. split; [done|]. by apply H1'.
Qed.

(** ** Theorems *)



(** Routing the same packet again is a no-op: as long as its ID is in the
    cache, [Route] and a stream that carries it change nothing at all. *)
Theorem route_duplicate_noop `{L : PeerLib, Mp : Msgpack, !MsgpackLaws Mp, SN : StreamNet, MR : MapRange}
    (p : Packet) (b : bytes) (m : Manager)
    (Hseen : is_Some (dedup_m (dedup m) !! ID p)) (Hb : Marshal p = Some b) :
  run (Route p) m = (m, None) ∧ run (handleStream (Some b)) m = (m, tt).
Proof.
  assert (HR : run (Route p) m = (m, None)).
  { unfold Route. rewrite run_bind, run_atomic. unfold SeenOrAdd.
    destruct Hseen as [t Ht]. rewrite Ht. by destruct m. }
  split; [done|]. unfold handleStream, UnmarshalPacket.
  rewrite (msgpack_roundtrip p b Hb), run_bind, HR. done.
Qed.

(** C4. A flush loses nothing: whatever its streams do, after [FlushQueued]
    every packet that was held for the recipient and is not past its time to
    live has been delivered to the local app, or been written to a stream, or
    is held again; what is held for other recipients is untouched. *)
Theorem flush_loses_nothing `{Mp : Msgpack, SN : StreamNet, MR : MapRange}
    (r : peerID) (m : Manager) (Hwf : queue_wf (queue m)) :
  let m' := exec (FlushQueued r) m in
  (∀ s e, held (queue m) r s = Some e → expired_entry (clock m) e = false →
     (∃ d, localApps m !! r = Some d ∧ EvDeliver d (pkt e) ∈ trace m') ∨
     (localApps m !! r = None ∧
        (sent (pkt e) m' ∨ held (queue m') r s = Some (mkQueued (pkt e) (clock m))))) ∧
  (∀ r' s, r' ≠ r → held (queue m') r' s = held (queue m) r' s).
Proof. by apply flush_spec; [|apply sent_lasting|intros; apply forward_body_puts_back]. Qed.

(** A failed flush restarts the clock of the packets it puts back: on a
    network where no stream succeeds, a packet flushed at [clock m] can still
    be taken until [QueueEntryTTL] after the flush, however long ago it was
    first queued. [QueueEntryTTL] bounds the time since the last attempt, not
    the time an undeliverable packet is held. *)
Theorem failed_flush_restarts_ttl `{Mp : Msgpack, SN : StreamNet, MR : MapRange}
    (r : peerID) (s : bytes) (e : queuedPacket) (m : Manager) (t : Instant)
    (Hnet : ∀ n via, stream_outcome n via ≠ Written)
    (Hwf : queue_wf (queue m)) (Hremote : localApps m !! r = None)
    (Hheld : held (queue m) r s = Some e) (Hfresh : expired_entry (clock m) e = false)
    (Ht : t <= clock m + QueueEntryTTL) :
  held (queue (exec (FlushQueued r) m)) r s = Some (mkQueued (pkt e) (clock m)) ∧
  pkt e ∈ (Take t r (queue (exec (FlushQueued r) m))).2.
Proof.
  destruct (flush_spec (λ _ _, False) r m Hwf) as [Hall _].
  - by intros ? ? ? _.
  - intros via. by apply failing_body_puts_back.
  - destruct (Hall s e Hheld Hfresh) as [(d & Hd & _)|(_ & [[]|Hh])]; [congruence|].
    split; [done|]. apply in_Take. exists s. eexists. split; [exact Hh|]. split; [done|].
    unfold expired_entry, Time.Before, Time.Add. apply Z.ltb_ge. cbn. lia.
Qed.

(** ** An interleaving in which the queue keeps the older packet *)

Module StaleFlush.
(** A network on which no stream can be opened. *)
#[local] Existing Instance none_open.
#[local] Existing Instance plain_peers.
#[local] Existing Instance plain_msgpack.

Definition older : Packet := mkPacket "packet-id-000001" "alice" "bob" "v1" 1.
Definition newer : Packet := mkPacket "packet-id-000002" "alice" "bob" "v2" 2.

(** The node ["relay2"] announces ["bob"]. *)
Definition bob_at_relay2 : gossipMsg :=
  mkGossipMsg "relay2" (Some (enc_presenceMsg (Announce "relay2" PresenceTTL 0 "bob"))).

Definition callback (a : peerID) : nat := String.length a.

(** The announcement arrives; [older] is routed and cannot be sent, so it is
    queued; the announcement is refreshed, which starts a flush; and [newer]
    is routed. *)
Definition goroutines : list (prog Manager unit) :=
  [on_presence bob_at_relay2; (_ ← Route older; mret tt);
   on_presence bob_at_relay2; (_ ← Route newer; mret tt)].

(** The last flush has taken [older] and failed to send it when [newer] is
    routed from start to end; then the flush puts [older] back. *)
Definition schedule : list nat :=
  [0; 0; 0; 1; 1; 1; 1; 1; 2; 2; 2; 2; 2; 3; 3; 3; 3; 3; 2; 2]%nat.

Definition outcome : config := sched schedule (NewManager "relay1" true 0, goroutines).

Lemma goroutines_reachable :
  reachable callback "relay1" true 0 (NewManager "relay1" true 0, goroutines).
Proof.
  apply (go_all _ _ _ []). repeat constructor.
Qed.
End StaleFlush.

(** C37. The queue's contract "a newer packet from the same sender replaces the
    older one" is broken by an interleaving: a flush that has taken [older] and
    fails to send it, while [newer] from the same sender is routed and queued,
    puts [older] back over [newer]. In a reachable state in which every call
    has returned the queue holds [older] and [newer] is lost: it has been
    neither delivered nor sent, and its ID is in the cache, so a retry of it
    would be ignored. *)
Theorem stale_flush_overwrites_newer :
  let c := StaleFlush.outcome in
  @reachable plain_peers plain_msgpack none_open _ StaleFlush.callback "relay1" true 0 c ∧
  c.2 = [Ret tt; Ret tt; Ret tt; Ret tt] ∧
  held (queue c.1) "bob" "alice" = Some (mkQueued StaleFlush.older 0) ∧
  Len "bob" (queue c.1) = 1%nat ∧
  trace c.1 = [EvPeer (mkPeerEvent "bob" "relay2" true); EvPeer (mkPeerEvent "bob" "relay2" true)] ∧
  is_Some (dedup_m (dedup c.1) !! ID StaleFlush.newer).
Proof.
  cbn zeta. split_and!; try (vm_compute; reflexivity).
  - unfold reachable. etrans; [apply StaleFlush.goroutines_reachable|apply sched_reachable].
  - vm_compute. eauto.
Qed.

(** ** The theorems at concrete inputs *)



Lemma route_duplicate_noop_witness :
  let m := exec (@Route plain_peers plain_msgpack all_written StaleFlush.older) (NewManager "relay1" true 0) in
  let b := default ""%string (@Marshal plain_msgpack StaleFlush.older) in
  run (@Route plain_peers plain_msgpack all_written StaleFlush.older) m = (m, None) ∧
  run (@handleStream plain_peers plain_msgpack all_written (Some b)) m = (m, tt).
Proof.
  apply (@route_duplicate_noop plain_peers plain_msgpack _ all_written _ StaleFlush.older).
  - vm_compute. eauto.
  - reflexivity.
Defined.

(** A manager that holds a packet for ["bob"], queued at time 0. *)
Definition holding (now : Instant) : Manager :=
  set_clock now (set_queue (Put 0 "bob" (Some StaleFlush.older)) (NewManager "relay1" true 0)).

Lemma holding_wf now : queue_wf (queue (holding now)).
Proof. apply Put_wf, NewQueue_wf. Qed.

Lemma flush_loses_nothing_witness :
  let m := holding 5 in
  let m' := exec (@FlushQueued plain_msgpack all_written _ "bob") m in
  (∀ s e, held (queue m) "bob" s = Some e → expired_entry (clock m) e = false →
     (∃ d, localApps m !! "bob"%string = Some d ∧ EvDeliver d (pkt e) ∈ trace m') ∨
     (localApps m !! "bob"%string = None ∧
        (@sent plain_msgpack (pkt e) m' ∨ held (queue m') "bob" s = Some (mkQueued (pkt e) (clock m))))) ∧
  (∀ r' s, r' ≠ "bob"%string → held (queue m') r' s = held (queue m) r' s).
Proof. apply (flush_loses_nothing (Mp := plain_msgpack) (SN := all_written) "bob" (holding 5)). apply holding_wf. Defined.

Lemma failed_flush_restarts_ttl_witness :
  let m := holding (6 * 24 * Hour) in
  let m' := exec (@FlushQueued plain_msgpack none_open _ "bob") m in
  held (queue m') "bob" "alice" = Some (mkQueued StaleFlush.older (6 * 24 * Hour)) ∧
  StaleFlush.older ∈ (Take (13 * 24 * Hour) "bob" (queue m')).2.
Proof.
  apply (failed_flush_restarts_ttl (SN := none_open) (Mp := plain_msgpack) "bob" "alice"
    (mkQueued StaleFlush.older 0) (holding (6 * 24 * Hour)) (13 * 24 * Hour)).
  - done.
  - apply holding_wf.
  - reflexivity.
  - reflexivity.
  - reflexivity.
  - by vm_compute.
Defined.
