(* ===== verification/Mesh.v ===== *)
(** * A mesh of relay nodes

    Several managers joined by the streams of [forwardTo]: a message written to
    a stream to a node is a message in flight until that node's [handleStream]
    reads it. The routing tables of the nodes are arbitrary, so packets may be
    routed in circles; the de-duplication caches are what stops them. *)

From S2P Require Import Prelude GoTime Prog Packet Dedup Router Queue Json Presence Manager RelaySpec.

(** The nodes, and the messages written to streams and not yet read. *)
Record Mesh := mkMesh { nodes : list Manager; inflight : list (peerID * bytes) }.

(** The messages a node wrote to streams between two of its states. *)
Definition written (m m' : Manager) : list (peerID * bytes) :=
  omap (λ e, match e with EvSent via b => Some (via, b) | _ => None end)
    (drop (length (trace m)) (trace m')).

Section mesh.
Context `{L : PeerLib} `{Mp : Msgpack} `{SN : StreamNet} `{MR : MapRange}.

(** The node a message is addressed to. *)
Definition node_index (dst : peerID) (ms : list Manager) : option nat :=
  fst <$> list_find (λ m, self m = dst) ms.

(** The [i]-th message in flight is read by its destination, which runs
    [handleStream] on it; a message to a node that is not there is lost. *)
Inductive mesh_step : Mesh → Mesh → Prop :=
| mesh_read w i dst b j m m' :
    inflight w !! i = Some (dst, b) →
    node_index dst (nodes w) = Some j → nodes w !! j = Some m →
    m' = exec (handleStream (Some b)) m →
    mesh_step w (mkMesh (<[j := m']> (nodes w)) (delete i (inflight w) ++ written m m'))
| mesh_lost w i dst b :
    inflight w !! i = Some (dst, b) →
    node_index dst (nodes w) = None →
    mesh_step w (mkMesh (nodes w) (delete i (inflight w))).

(** The IDs of the packets in flight. *)
Definition message_id (b : bytes) : option bytes := ID <$> UnmarshalPacket b.

Definition flying (w : Mesh) : gset bytes :=
  list_to_set (omap (λ '(_, b), message_id b) (inflight w)).

(** How many of the IDs [D] a node has not seen. *)
Definition unseen (D : gset bytes) (m : Manager) : nat :=
  size (D ∖ dom (dedup_m (dedup m))).

(** An upper bound on the number of messages the mesh can still read, while no
    packet outside [D] is in flight. *)
Definition fuel (D : gset bytes) (w : Mesh) : nat :=
  length (inflight w) + sum_list (unseen D <$> nodes w).

(** [is_path r d ms]: the routing tables of [ms] lead from the first node to the
    last, where [r] is connected with callback [d], over streams that work. *)
Fixpoint is_path (r : peerID) (d : nat) (ms : list Manager) : Prop :=
  match ms with
  | [] => False
  | m :: ms' =>
      match ms' with
      | [] => localApps m !! r = Some d
      | m' :: _ =>
          localApps m !! r = None ∧ next_hop m r = Some (self m') ∧
          stream_outcome (streams m) (self m') = Written ∧ is_path r d ms'
      end
  end.

(** The events by which a node dispatches the packet [i]. *)
Definition dispatches (i : bytes) (e : Event) : bool :=
  match e with
  | EvDeliver _ p => bool_decide (ID p = i)
  | EvSent _ b => bool_decide (message_id b = Some i)
  | _ => false
  end.

Definition dispatched (i : bytes) (m : Manager) : nat :=
  length (filter (λ e, dispatches i e = true) (trace m)).

(** How often a node may still dispatch the packet [i]: once, until it is seen. *)
Definition allowance (i : bytes) (m : Manager) : nat :=
  match dedup_m (dedup m) !! i with Some _ => 0 | None => 1 end.
End mesh.

(** ** Lemmas *)

Section mesh_lemmas.
Context `{L : PeerLib} `{Mp : Msgpack} `{!MsgpackLaws Mp} `{SN : StreamNet} `{MR : MapRange}.

(** What routing a packet that has not been seen appends to the trace. *)
Inductive one_dispatch (p : Packet) : list Event → Prop :=
| od_none : one_dispatch p []
| od_deliver d : one_dispatch p [EvDeliver d p]
| od_sent via b : Marshal p = Some b → one_dispatch p [EvSent via b].

Lemma Route_effect p m :
  (is_Some (dedup_m (dedup m) !! ID p) ∧ exec (Route p) m = m) ∨
  (dedup_m (dedup m) !! ID p = None ∧
   ∃ evs, trace (exec (Route p) m) = trace m ++ evs ∧ one_dispatch p evs ∧
     dedup_m (dedup (exec (Route p) m)) = <[ID p := clock m]> (dedup_m (dedup m))).
Proof using All.
  unfold exec, Route. rewrite run_bind, run_atomic. unfold SeenOrAdd.
  destruct (dedup_m (dedup m) !! ID p) as [t|] eqn:E; cbn [fst snd]; [left|right; split; [done|]].
  { split; [eauto|]. by destruct m. }
  set (m0 := set_dedup _ m).
  destruct (IDFromBytes (RecipientID p)) as [r|] eqn:Er.
  - pose proof (forwardOrDeliver_fate p r m0 Er) as Hf.
    destruct (run (forwardOrDeliver p) m0) as [m' res]. destruct Hf as (_ & Hd & Hfate).
    cbn [fst]. rewrite Hd.
    destruct Hfate as [d _ Ht _|via b _ _ Hb Ht _|_ Ht _ _ _|_ Ht _ _]; rewrite Ht.
    + eexists. split_and!; [done|constructor|done].
    + eexists. split_and!; [done|by constructor|done].
    + exists []. rewrite app_nil_r. split_and!; [done|constructor|done].
    + exists []. rewrite app_nil_r. split_and!; [done|constructor|done].
  - unfold forwardOrDeliver. rewrite Er. exists []. rewrite app_nil_r.
    split_and!; [done|constructor|done].
Qed.

Lemma handleStream_effect b m :
  exec (handleStream (Some b)) m =
    match UnmarshalPacket b with Some p => exec (Route p) m | None => m end.
Proof.
  unfold handleStream, exec. destruct (UnmarshalPacket b); [|done]. by rewrite run_bind.
Qed.

Lemma written_app m m' evs :
  trace m' = trace m ++ evs →
  written m m' = omap (λ e, match e with EvSent via b => Some (via, b) | _ => None end) evs.
Proof. intros Ht. unfold written. by rewrite Ht, drop_app_length. Qed.

Lemma written_self m : written m m = [].
Proof. rewrite (written_app m m []); [done|]. by rewrite app_nil_r. Qed.

Lemma message_id_Marshal p b : Marshal p = Some b → message_id b = Some (ID p).
Proof.
  unfold message_id, UnmarshalPacket. intros Hb. by rewrite (msgpack_roundtrip p b Hb).
Qed.

Lemma unseen_insert D m m' i t :
  i ∈ D → dedup_m (dedup m) !! i = None →
  dedup_m (dedup m') = <[i := t]> (dedup_m (dedup m)) →
  S (unseen D m') = unseen D m.
Proof.
  intros HD Hnone Heq. unfold unseen. rewrite Heq, dom_insert_L.
  assert (Hi : {[i]} ⊆ D ∖ dom (dedup_m (dedup m))).
  { apply singleton_subseteq_l, elem_of_difference. split; [done|]. by apply not_elem_of_dom. }
  replace (D ∖ ({[i]} ∪ dom (dedup_m (dedup m)))) with ((D ∖ dom (dedup_m (dedup m))) ∖ {[i]})
    by set_solver.
  rewrite size_difference, size_singleton by done.
  apply subseteq_size in Hi. rewrite size_singleton in Hi. lia.
Qed.

Lemma in_flying w i dst b p :
  inflight w !! i = Some (dst, b) → UnmarshalPacket b = Some p → ID p ∈ flying w.
Proof.
  intros Hi Hb. unfold flying. apply elem_of_list_to_set, list_elem_of_omap.
  exists (dst, b). split; [by eapply list_elem_of_lookup_2|].
  unfold message_id. by rewrite Hb.
Qed.

Lemma sum_list_insert (l : list nat) j x y :
  l !! j = Some x → sum_list (<[j := y]> l) + x = sum_list l + y.
Proof.
  revert j. induction l as [|z l IH]; intros [|j]; try done.
  - intros [= ->]. cbn. lia.
  - intros Hj. change (<[S j := y]> (z :: l)) with (z :: <[j := y]> l). cbn [sum_list].
    specialize (IH j Hj). lia.
Qed.

Lemma flying_app ns l1 l2 :
  flying (mkMesh ns (l1 ++ l2)) = flying (mkMesh ns l1) ∪ flying (mkMesh ns l2).
Proof. unfold flying. cbn. by rewrite omap_app, list_to_set_app_L. Qed.

Lemma flying_delete w ns i : flying (mkMesh ns (delete i (inflight w))) ⊆ flying w.
Proof.
  unfold flying. cbn. intros x. rewrite !elem_of_list_to_set, !list_elem_of_omap.
  intros ([dst b] & Hin & Hb). exists (dst, b). split; [|done].
  eapply elem_of_submseteq; [exact Hin|]. apply sublist_submseteq, sublist_delete.
Qed.

(** What a read writes: nothing that was not in flight, and nothing at all
    unless the node sees the packet for the first time. *)
Lemma handleStream_written w i dst b D m :
  inflight w !! i = Some (dst, b) → flying w ⊆ D →
  let m' := exec (handleStream (Some b)) m in
  flying (mkMesh (nodes w) (written m m')) ⊆ flying w ∧
  length (written m m') + unseen D m' <= unseen D m.
Proof using All.
  intros Hi HD. rewrite handleStream_effect. cbn zeta.
  destruct (UnmarshalPacket b) as [p|] eqn:Eb; [|rewrite written_self; cbn [length]; split; [set_solver|lia]].
  pose proof (in_flying w i dst b p Hi Eb) as Hin.
  destruct (Route_effect p m) as [[_ ->]|(Hnone & evs & Ht & Hod & Hdedup)].
  { rewrite written_self. cbn [length]. split; [set_solver|lia]. }
  pose proof (unseen_insert D m _ (ID p) _ (HD _ Hin) Hnone Hdedup) as Huns.
  rewrite (written_app _ _ _ Ht).
  destruct Hod as [|d|via b' Hb']; cbn [omap list_omap length]; [split; [set_solver|lia]..|].
  split; [|lia]. unfold flying at 1. cbn. rewrite (message_id_Marshal p b' Hb'). cbn. set_solver.
Qed.

(** Reading a message uses up fuel: either the packet was seen and the message
    disappears, or one node has one ID less to see and at most one message is
    written. *)
Lemma mesh_step_fuel D w w' :
  mesh_step w w' → flying w ⊆ D → flying w' ⊆ D ∧ fuel D w' < fuel D w.
Proof using All.
  intros [w0 i dst b j m m' Hi Hj Hm Hm'|w0 i dst b Hi Hj] HD; unfold fuel; cbn [nodes inflight].
  - destruct (handleStream_written w0 i dst b D m Hi HD) as [Hfly Hfuel].
    rewrite <- Hm' in Hfly, Hfuel. split.
    + rewrite flying_app. apply union_subseteq. split.
      * etrans; [apply (flying_delete w0)|done].
      * unfold flying in *. cbn in *. set_solver.
    + rewrite list_fmap_insert, length_app, length_delete by eauto.
      assert (Hlen : 0 < length (inflight w0)) by (apply lookup_lt_Some in Hi; lia).
      pose proof (sum_list_insert (unseen D <$> nodes w0) j (unseen D m) (unseen D m')) as Hsum.
      rewrite list_lookup_fmap, Hm in Hsum. specialize (Hsum eq_refl). lia.
  - split; [etrans; [apply (flying_delete w0)|done]|].
    rewrite length_delete by eauto. apply lookup_lt_Some in Hi. lia.
Qed.

(** Dispatching a packet uses up the node's allowance for it. *)
Lemma Route_allowance i p m :
  dispatched i (exec (Route p) m) + allowance i (exec (Route p) m) <= dispatched i m + allowance i m.
Proof using All.
  destruct (Route_effect p m) as [[_ ->]|(Hnone & evs & Ht & Hod & Hdedup)]; [done|].
  unfold dispatched, allowance. rewrite Ht, Hdedup, filter_app, length_app.
  assert (Hevs : length (filter (λ e, dispatches i e = true) evs) <= if decide (ID p = i) then 1 else 0).
  { destruct Hod as [|d|via b Hb]; [rewrite filter_nil; cbn; lia|..];
      rewrite filter_cons, filter_nil; cbn [dispatches];
      rewrite ?(message_id_Marshal p b Hb);
      case_decide as H1; destruct (decide (ID p = i)); cbn; try lia;
      apply bool_decide_eq_true in H1; congruence. }
  destruct (decide (ID p = i)) as [<-|Hne].
  - rewrite Hnone, lookup_insert_eq. lia.
  - rewrite lookup_insert_ne by done. lia.
Qed.

(** [allowed i w w']: between [w] and [w'] every node dispatched [i] no more
    often than it was allowed to. *)
Definition allowed (i : bytes) (w w' : Mesh) : Prop :=
  Forall2 (λ m m', dispatched i m' + allowance i m' <= dispatched i m + allowance i m)
    (nodes w) (nodes w').

Lemma mesh_step_allowed i w w' : mesh_step w w' → allowed i w w'.
Proof using All.
  intros [w0 k dst b j m m' Hk Hj Hm Hm'|w0 k dst b Hk Hj]; unfold allowed; cbn.
  - rewrite <- (list_insert_id (nodes w0) j m Hm) at 1.
    apply Forall2_insert; [apply Forall_Forall2_diag, Forall_true; lia|].
    subst m'. rewrite handleStream_effect.
    destruct (UnmarshalPacket b); [apply Route_allowance|lia].
  - apply Forall_Forall2_diag, Forall_true. lia.
Qed.

Lemma mesh_run_allowed i w w' : rtc mesh_step w w' → allowed i w w'.
Proof using All.
  induction 1 as [w|w1 w2 w3 Hstep _ IH].
  - apply Forall_Forall2_diag, Forall_true. lia.
  - pose proof (mesh_step_allowed i w1 w2 Hstep) as H12. unfold allowed in *.
    eapply Forall2_trans; [|exact H12|exact IH]. cbn. intros; lia.
Qed.

(** One hop: a node that has not seen [p] delivers it or passes it on. *)
Lemma handleStream_local r d p b m :
  UnmarshalPacket b = Some p → IDFromBytes (RecipientID p) = Some r →
  dedup_m (dedup m) !! ID p = None → localApps m !! r = Some d →
  let m' := exec (handleStream (Some b)) m in
  trace m' = trace m ++ [EvDeliver d p] ∧ self m' = self m.
Proof.
  intros Hb Hr Hid Hl. rewrite handleStream_effect, Hb. cbn zeta.
  unfold exec, Route. rewrite run_bind, run_atomic. unfold SeenOrAdd. rewrite Hid.
  cbn [fst snd]. unfold forwardOrDeliver. rewrite Hr, run_bind.
  unfold lookup_local. rewrite run_gets. cbn. by rewrite Hl.
Qed.

Lemma handleStream_hop r via p b m :
  UnmarshalPacket b = Some p → Marshal p = Some b → IDFromBytes (RecipientID p) = Some r →
  dedup_m (dedup m) !! ID p = None → localApps m !! r = None → next_hop m r = Some via →
  stream_outcome (streams m) via = Written →
  let m' := exec (handleStream (Some b)) m in
  written m m' = [(via, b)] ∧ self m' = self m.
Proof.
  intros Hb Hb' Hr Hid Hl Hv Ho. rewrite handleStream_effect, Hb. cbn zeta.
  unfold exec, Route. rewrite run_bind, run_atomic. unfold SeenOrAdd. rewrite Hid.
  cbn [fst snd]. unfold forwardOrDeliver. rewrite Hr, run_bind.
  unfold lookup_local. rewrite run_gets. cbn [fst snd].
  set (m0 := set_dedup _ m). change (localApps m0 !! r) with (localApps m !! r). rewrite Hl.
  rewrite run_bind, run_lookup_via. cbn [fst snd].
  change (next_hop m0 r) with (next_hop m r). rewrite Hv, run_bind.
  rewrite (run_forwardTo_ok via p m0 b) by done. cbn [fst snd].
  split; [|done]. by rewrite (written_app m _ [EvSent via b]).
Qed.

Lemma node_index_at pre m ms :
  NoDup (self <$> pre ++ m :: ms) → node_index (self m) (pre ++ m :: ms) = Some (length pre).
Proof.
  intros Hnd. unfold node_index.
  rewrite (proj2 (list_find_Some _ _ (length pre) m)); [done|]. split_and!.
  - by rewrite lookup_app_r, Nat.sub_diag by lia.
  - done.
  - intros j y Hj Hlt Hself. rewrite lookup_app_l in Hj by done.
    rewrite fmap_app, fmap_cons in Hnd. apply NoDup_app in Hnd as (_ & Hdisj & _).
    apply (Hdisj (self y)); [by eapply list_elem_of_fmap_2, list_elem_of_lookup_2|].
    rewrite Hself. by left.
Qed.

Lemma path_delivers r d p b ms pre :
  UnmarshalPacket b = Some p → Marshal p = Some b → IDFromBytes (RecipientID p) = Some r →
  NoDup (self <$> pre ++ ms) → is_path r d ms →
  Forall (λ m, dedup_m (dedup m) !! ID p = None) ms →
  ∃ w' m', rtc mesh_step (mkMesh (pre ++ ms) [(default no_peer (self <$> head ms), b)]) w' ∧
    inflight w' = [] ∧ last (nodes w') = Some m' ∧ EvDeliver d p ∈ trace m'.
Proof.
  intros Hb Hb' Hr. revert pre. induction ms as [|m ms IH]; intros pre Hnd Hpath Hfresh; [done|].
  apply Forall_cons in Hfresh as [Hid Hfresh]. cbn [head fmap option_fmap option_map default from_option].
  pose proof (node_index_at pre m ms Hnd) as Hidx.
  assert (Hlook : (pre ++ m :: ms) !! length pre = Some m).
  { by rewrite lookup_app_r, Nat.sub_diag by lia. }
  set (m1 := exec (handleStream (Some b)) m).
  assert (Hstep : mesh_step (mkMesh (pre ++ m :: ms) [(self m, b)])
    (mkMesh (pre ++ m1 :: ms) (written m m1))).
  { pose proof (mesh_read (mkMesh (pre ++ m :: ms) [(self m, b)]) 0 (self m) b (length pre) m m1
      eq_refl Hidx Hlook eq_refl) as Hr1. cbn in Hr1.
    rewrite insert_app_r_alt, Nat.sub_diag in Hr1 by lia. exact Hr1. }
  destruct ms as [|m2 ms].
  - destruct (handleStream_local r d p b m Hb Hr Hid Hpath) as [Ht _]. fold m1 in Ht.
    rewrite (written_app m m1 _ Ht) in Hstep. cbn in Hstep.
    eexists _, m1. split; [by apply rtc_once|]. split; [done|]. cbn.
    rewrite last_snoc, Ht. split; [done|]. set_solver.
  - destruct Hpath as (Hl & Hv & Ho & Hpath).
    destruct (handleStream_hop r (self m2) p b m Hb Hb' Hr Hid Hl Hv Ho) as [Hw Hself].
    fold m1 in Hw, Hself. rewrite Hw in Hstep.
    destruct (IH (pre ++ [m1])) as (w' & m' & Hrun & Hdone); [|done|done|].
    + rewrite <- app_assoc. cbn. rewrite fmap_app, fmap_cons in *. by rewrite Hself.
    + exists w', m'. split; [|done]. rewrite <- app_assoc in Hrun.
      eapply rtc_l; [exact Hstep|exact Hrun].
Qed.
End mesh_lemmas.

(** ** Theorems *)

(** C15. Relaying terminates: whatever the routing tables say, even if they
    send a packet in circles, reading the messages in flight goes on for at
    most as many steps as there are messages plus, for each packet in flight,
    nodes that have not seen it. (Evictions are not part of the run: a node
    keeps an ID for at least [DedupCacheTTL].) *)
Theorem relaying_terminates `{L : PeerLib, Mp : Msgpack, !MsgpackLaws Mp, SN : StreamNet, MR : MapRange}
    (w w' : Mesh) (k : nat) (Hrun : nsteps mesh_step k w w') :
  k + fuel (flying w) w' <= fuel (flying w) w.
Proof.
  assert (Hgen : ∀ D, flying w ⊆ D → k + fuel D w' <= fuel D w); [|by apply Hgen].
  intros D. induction Hrun as [w|k w1 w2 w3 Hstep _ IH]; intros HD; [lia|].
  destruct (mesh_step_fuel D w1 w2 Hstep HD) as [HD' Hlt]. specialize (IH HD'). lia.
Qed.


(** End to end delivery: a packet in flight to the first node of a path of
    distinct nodes, whose routing tables lead to the node its recipient is
    connected to and none of which has seen it, reaches the recipient's
    callback, and no copy of it is left in flight. *)
Theorem path_delivery `{L : PeerLib, Mp : Msgpack, !MsgpackLaws Mp, SN : StreamNet, MR : MapRange}
    (p : Packet) (b : bytes) (r : peerID) (d : nat) (m : Manager) (ms : list Manager)
    (Hb : Marshal p = Some b) (Hr : IDFromBytes (RecipientID p) = Some r)
    (Hnodes : NoDup (self <$> m :: ms)) (Hpath : is_path r d (m :: ms))
    (Hfresh : Forall (λ m, dedup_m (dedup m) !! ID p = None) (m :: ms)) :
  ∃ w' m', rtc mesh_step (mkMesh (m :: ms) [(self m, b)]) w' ∧
    inflight w' = [] ∧ last (nodes w') = Some m' ∧ EvDeliver d p ∈ trace m'.
Proof.
  apply (path_delivers r d p b (m :: ms) []); try done.
  unfold UnmarshalPacket. by rewrite (msgpack_roundtrip p b Hb).
Qed.

(** ** The theorems at concrete inputs *)

Module TwoNodes.
#[local] Existing Instance all_written.
#[local] Existing Instance plain_peers.
#[local] Existing Instance plain_msgpack.

Definition packet : Packet := mkPacket "packet-id-000001" "alice" "bob" "hello" 1.
Definition message : bytes := default ""%string (Marshal packet).

(** ["bob"] is connected to ["relay2"], and ["relay1"] knows it. *)
Definition relay1 : Manager :=
  set_router (Upsert 0 "bob" "relay2" PresenceTTL) (NewManager "relay1" true 0).
Definition relay2 : Manager := exec (AppConnected "bob" 7) (NewManager "relay2" true 0).

(** A third node that sends packets for ["bob"] back to ["relay1"]. *)
Definition relay3 : Manager :=
  set_router (Upsert 0 "bob" "relay1" PresenceTTL) (NewManager "relay2" true 0).

Definition start : Mesh := mkMesh [relay1; relay2] [("relay1"%string, message)].
Definition circle : Mesh := mkMesh [relay1; relay3] [("relay1"%string, message)].

Definition after : Manager := exec (handleStream (Some message)) relay1.

Lemma circle_step :
  mesh_step circle (mkMesh [after; relay3] [("relay2"%string, message)]).
Proof.
  replace [("relay2"%string, message)] with (written relay1 after) by (vm_compute; reflexivity).
  by apply (mesh_read circle 0 "relay1" message 0 relay1 after).
Qed.
End TwoNodes.

Lemma relaying_terminates_witness :
  1 + fuel (@flying plain_msgpack TwoNodes.circle) (mkMesh [TwoNodes.after; TwoNodes.relay3] [("relay2"%string, TwoNodes.message)])
  <= fuel (@flying plain_msgpack TwoNodes.circle) TwoNodes.circle.
Proof.
  apply (@relaying_terminates plain_peers plain_msgpack _ all_written _).
  apply nsteps_once, TwoNodes.circle_step.
Defined.


Lemma path_delivery_witness :
  ∃ w' m', rtc (mesh_step (L := plain_peers) (Mp := plain_msgpack) (SN := all_written)) TwoNodes.start w' ∧
    inflight w' = [] ∧ last (nodes w') = Some m' ∧ EvDeliver 7 TwoNodes.packet ∈ trace m'.
Proof.
  apply (@path_delivery plain_peers plain_msgpack _ all_written _ TwoNodes.packet TwoNodes.message
    "bob" 7 TwoNodes.relay1 [TwoNodes.relay2]).
  - reflexivity.
  - reflexivity.
  - vm_compute. repeat (constructor; [set_solver|]). constructor.
  - vm_compute. done.
  - repeat constructor.
Defined.
