(* ===== verification/Rendezvous.v ===== *)
(** * The rendezvous store ([internal/api/rendezvous.go])

    A bounded map from namespaces to records with an expiry, kept in a JSON
    file across restarts. The map is protected by one lock and the file by
    another, so the methods are programs whose sections can interleave. *)

From S2P Require Import Prelude GoTime Prog Json.

#[local] Open Scope string_scope.
#[local] Open Scope list_scope.
#[local] Open Scope Z_scope.

Definition rendezvousMaxEntries : nat := Z.to_nat 20000.
Definition rendezvousMaxRecordLen : Z := 8 * 1024.
Definition rendezvousMaxTTLSecs : Z := 3600.

Record rendezvousEntry := mkEntry { record : string; expiresAt : Instant; local : bool }.

Record persistedEntry := mkPersisted { pe_Record : string; pe_ExpiresAt : Z; pe_Local : bool }.

(** The file system: what a path holds; [None] as content is a file that is not
    JSON. *)
Abbreviation Disk := (gmap string (option json)).

(** The [n]-th attempt to replace the file: [os.WriteFile] of the temporary file
    may fail and leave it with any content, or [os.Rename] may fail. *)
Inductive PersistOutcome := WriteFails (junk : option json) | RenameFails | Replaced.

Class FileSystem := { persist_outcome : nat → PersistOutcome }.

(** [type rendezvousStore struct], with the disk and the clock. *)
Record rendezvousStore := mkStore {
  entries : gmap string rendezvousEntry;
  path : string;
  disk : Disk;
  rv_clock : Instant;
  persists : nat
}.

Definition set_entries (es : gmap string rendezvousEntry) (rs : rendezvousStore) : rendezvousStore :=
  mkStore es (path rs) (disk rs) (rv_clock rs) (persists rs).
Definition set_disk (d : Disk) (rs : rendezvousStore) : rendezvousStore :=
  mkStore (entries rs) (path rs) d (rv_clock rs) (S (persists rs)).
Definition set_rv_clock (t : Instant) (rs : rendezvousStore) : rendezvousStore :=
  mkStore (entries rs) (path rs) (disk rs) t (persists rs).

(** ** The file format *)

Definition enc_persisted (e : persistedEntry) : json :=
  JObj ([("record", JStr (pe_Record e)); ("expires_at", JInt (pe_ExpiresAt e))]
    ++ omitempty "local" (negb (pe_Local e)) (JBool (pe_Local e))).

Definition dec_persisted (v : json) : option persistedEntry :=
  dec_struct (mkPersisted "" 0 false) (λ kvs,
    r ← dec_string "record" kvs;
    x ← dec_int "expires_at" kvs;
    l ← dec_bool "local" kvs;
    Some (mkPersisted r x l)) v.

(** [json.Unmarshal] into a [map[string]persistedEntry]: the last duplicate of a
    key wins; one value that does not fit fails the whole file. *)
Definition dec_persisted_map (v : json) : option (gmap string persistedEntry) :=
  match v with
  | JNull => Some ∅
  | JObj kvs =>
      foldl (λ acc kv, m ← acc; e ← dec_persisted kv.2; Some (<[kv.1 := e]> m)) (Some ∅) kvs
  | _ => None
  end.

(** [json.Marshal] of such a map: an object with its keys in some order (the
    real one sorts them; decoding does not depend on it). *)
Definition enc_persisted_map `{MapRange} (m : gmap string persistedEntry) : json :=
  JObj ((λ '(k, e), (k, enc_persisted e)) <$> range m).

Definition persisted (e : rendezvousEntry) : persistedEntry :=
  mkPersisted (record e) (Time.Unix (expiresAt e)) (local e).

(** ** The methods *)

Section rendezvous.
Context `{MapRange} `{FileSystem}.

(** The loop of [load]: what a persisted entry becomes at instant [now]. *)
Definition restore (now : Instant) (e : persistedEntry) : option rendezvousEntry :=
  let exp := Time.of_Unix (pe_ExpiresAt e) in
  if negb (String.eqb (pe_Record e) "") && Time.After exp now
  then Some (mkEntry (pe_Record e) exp (pe_Local e)) else None.

Definition load (rs : rendezvousStore) : rendezvousStore :=
  if String.eqb (path rs) "" then rs
  else
    match disk rs !! path rs with
    | None => rs
    | Some content =>
        match (v ← content; dec_persisted_map v) with
        | None => rs
        | Some m => set_entries (omap (restore (rv_clock rs)) m ∪ entries rs) rs
        end
    end.

(** [newRendezvousStore], up to the start of the janitor. *)
Definition newRendezvousStore (path : string) (d : Disk) (now : Instant) : rendezvousStore :=
  load (mkStore ∅ path d now 0).

Definition snapshotLocked (rs : rendezvousStore) : option json :=
  if String.eqb (path rs) "" then None
  else Some (enc_persisted_map (persisted <$> entries rs)).

(** [persist]: the section of [fileMu]. *)
Definition persist (b : option json) : prog rendezvousStore unit :=
  modify (λ rs,
    if String.eqb (path rs) "" then rs
    else
      match b with
      | None => rs
      | Some b =>
          let tmp := (path rs ++ ".tmp")%string in
          match persist_outcome (persists rs) with
          | WriteFails junk => set_disk (<[tmp := junk]> (disk rs)) rs
          | RenameFails => set_disk (<[tmp := Some b]> (disk rs)) rs
          | Replaced => set_disk (<[path rs := Some b]> (delete tmp (disk rs))) rs
          end
      end).

(** One tick of [janitor]. *)
Definition janitor : prog rendezvousStore unit :=
  now ← gets rv_clock;
  snapshot ← atomic (λ rs,
    let kept := keep (λ e, negb (Time.After now (expiresAt e))) (entries rs) in
    let removed := (size (entries rs) - size kept)%nat in
    let rs := set_entries kept rs in
    (rs, if (0 <? removed)%nat then snapshotLocked rs else None));
  persist snapshot.

(** The locked region of [put]: the snapshot to persist, or [None] when the
    store is full. *)
Definition put_locked (namespace rec : string) (ttl : Duration) (rs : rendezvousStore) :
    rendezvousStore * option (option json) :=
  let add :=
    let rs := set_entries
      (<[namespace := mkEntry rec (Time.Add (rv_clock rs) ttl) true]> (entries rs)) rs in
    (rs, Some (snapshotLocked rs)) in
  match entries rs !! namespace with
  | None => if (rendezvousMaxEntries <=? size (entries rs))%nat then (rs, None) else add
  | Some _ => add
  end.

Definition put (namespace rec : string) (ttl : Duration) : prog rendezvousStore bool :=
  snapshot ← atomic (put_locked namespace rec ttl);
  match snapshot with
  | None => mret false
  | Some snapshot => persist snapshot;; mret true
  end.

(** The locked region of [putRemote]. *)
Definition putRemote_locked (namespace rec : string) (exp : Instant) (rs : rendezvousStore) :
    rendezvousStore * option (option json) :=
  let add (l : bool) :=
    let rs := set_entries (<[namespace := mkEntry rec exp l]> (entries rs)) rs in
    (rs, Some (snapshotLocked rs)) in
  match entries rs !! namespace with
  | Some cur => if negb (Time.Before (expiresAt cur) exp) then (rs, None) else add (local cur)
  | None => if (rendezvousMaxEntries <=? size (entries rs))%nat then (rs, None) else add false
  end.

Definition putRemote (namespace rec : string) (ttl : Duration) : prog rendezvousStore unit :=
  exp ← gets (λ rs, Time.Add (rv_clock rs) ttl);
  snapshot ← atomic (putRemote_locked namespace rec exp);
  match snapshot with
  | None => mret tt
  | Some snapshot => persist snapshot
  end.

Definition localEntries : prog rendezvousStore (list (string * string * Instant)) :=
  now ← gets rv_clock;
  gets (λ rs, omap (λ '(ns, e),
    if local e && Time.After (expiresAt e) now then Some (ns, record e, expiresAt e) else None)
    (range (entries rs))).

Definition get_locked (namespace : string) (rs : rendezvousStore) : rendezvousStore * option string :=
  match entries rs !! namespace with
  | None => (rs, None)
  | Some e =>
      if Time.After (rv_clock rs) (expiresAt e)
      then (set_entries (delete namespace (entries rs)) rs, None)
      else (rs, Some (record e))
  end.

Definition get (namespace : string) : prog rendezvousStore (option string) :=
  atomic (get_locked namespace).

(** ** The store among its callers *)

Inductive rv_call : prog rendezvousStore unit → Prop :=
| call_put ns rec ttl : rv_call (_ ← put ns rec ttl; mret tt)
| call_putRemote ns rec ttl : rv_call (putRemote ns rec ttl)
| call_get ns : rv_call (_ ← get ns; mret tt)
| call_localEntries : rv_call (_ ← localEntries; mret tt)
| call_janitor : rv_call janitor.

Inductive rv_env : rendezvousStore → rendezvousStore → Prop :=
| rv_env_clock rs t : rv_clock rs <= t → rv_env rs (set_rv_clock t rs).
End rendezvous.

(** [rendezvousPathFor]; [dir] is [filepath.Join(filepath.Dir(configPath),
    "rendezvous.json")]. *)
Definition rendezvousPathFor (dir : string → string) (configPath : string) : string :=
  if String.eqb configPath "" then "" else dir configPath.

(** ** Lemmas *)

Lemma dec_enc_persisted (e : persistedEntry) :
  is_int64 (pe_ExpiresAt e) → dec_persisted (enc_persisted e) = Some e.
Proof.
  destruct e as [r x l]. intros Hx. cbn in Hx. unfold enc_persisted, dec_persisted, omitempty.
  cbn [pe_Record pe_ExpiresAt pe_Local].
  destruct l; cbn [negb app dec_struct]; unfold dec_string, dec_int, dec_bool; json_keys;
    unfold fill; cbn -[to_int]; by rewrite to_int_in.
Qed.

(** Decoding an object whose values all fit gives the map of its entries. *)
Lemma dec_entries (kvs : list (string * persistedEntry)) (m0 : gmap string persistedEntry) :
  Forall (λ kv, is_int64 (pe_ExpiresAt kv.2)) kvs →
  foldl (λ acc kv, m ← acc; e ← dec_persisted kv.2; Some (<[kv.1 := e]> m)) (Some m0)
    ((λ '(k, e), (k, enc_persisted e)) <$> kvs) =
  Some (foldl (λ m kv, <[kv.1 := kv.2]> m) m0 kvs).
Proof.
  revert m0. induction kvs as [|[k e] kvs IH]; intros m0 Hall; [done|].
  apply Forall_cons in Hall as [He Hall]. cbn -[dec_persisted enc_persisted].
  rewrite dec_enc_persisted by done. cbn -[dec_persisted enc_persisted]. by apply IH.
Qed.

Lemma foldl_insert_lookup {V} (kvs : list (string * V)) (m0 : gmap string V) k :
  NoDup kvs.*1 →
  foldl (λ m kv, <[kv.1 := kv.2]> m) m0 kvs !! k =
    match (list_to_map kvs : gmap string V) !! k with Some v => Some v | None => m0 !! k end.
Proof.
  revert m0. induction kvs as [|[k' v] kvs IH]; intros m0 Hnd; cbn; [done|].
  cbn in Hnd. apply NoDup_cons in Hnd as [Hnin Hnd]. rewrite IH by done.
  rewrite !lookup_insert. case_decide as Hk; [|done]. subst k'.
  by rewrite (not_elem_of_list_to_map_1 kvs k).
Qed.

Section rendezvous_lemmas.
Context `{MR : MapRange}.

Lemma dec_enc_persisted_map (m : gmap string persistedEntry) :
  map_Forall (λ _ e, is_int64 (pe_ExpiresAt e)) m →
  dec_persisted_map (enc_persisted_map m) = Some m.
Proof.
  intros Hall. unfold dec_persisted_map, enc_persisted_map. rewrite dec_entries.
  - f_equal. apply map_eq. intros k. rewrite foldl_insert_lookup by apply NoDup_fst_range.
    rewrite lookup_empty.
    assert (Heq : (list_to_map (range m) : gmap string persistedEntry) = m).
    { rewrite <- (list_to_map_to_list m) at 2. apply list_to_map_proper; [apply NoDup_fst_range|].
      apply range_perm. }
    rewrite Heq. by destruct (m !! k).
  - apply Forall_forall. intros [k e] Hin%elem_of_range. cbn. by apply (Hall k).
Qed.

Lemma put_locked_entries ns rec ttl rs ns' :
  entries (put_locked ns rec ttl rs).1 !! ns' =
    if decide (ns = ns' ∧ (is_Some (entries rs !! ns) ∨ (size (entries rs) < rendezvousMaxEntries)%nat))
    then Some (mkEntry rec (Time.Add (rv_clock rs) ttl) true) else entries rs !! ns'.
Proof.
  unfold put_locked. destruct (entries rs !! ns) as [e|] eqn:E.
  - cbn [fst set_entries entries]. rewrite lookup_insert. repeat case_decide; naive_solver.
  - destruct (Nat.leb_spec rendezvousMaxEntries (size (entries rs))) as [Hf|Hf].
    + cbn [fst]. rewrite decide_False; [done|]. intros (_ & [[? ?]|?]); [done|lia].
    + cbn [fst set_entries entries]. rewrite lookup_insert. repeat case_decide; naive_solver.
Qed.

Lemma put_locked_size ns rec ttl rs :
  (size (entries rs) <= rendezvousMaxEntries)%nat →
  (size (entries (put_locked ns rec ttl rs).1) <= rendezvousMaxEntries)%nat.
Proof.
  intros Hsz. unfold put_locked. destruct (entries rs !! ns) eqn:E.
  - cbn [fst set_entries entries]. rewrite size_insert_present; eauto.
  - guards; cbn [fst set_entries entries]; [done|].
    pose proof (size_insert_le (entries rs) ns (mkEntry rec (Time.Add (rv_clock rs) ttl) true)).
    zsolve.
Qed.

Lemma putRemote_locked_size ns rec exp rs :
  (size (entries rs) <= rendezvousMaxEntries)%nat →
  (size (entries (putRemote_locked ns rec exp rs).1) <= rendezvousMaxEntries)%nat.
Proof.
  intros Hsz. unfold putRemote_locked. destruct (entries rs !! ns) eqn:E.
  - guards; cbn [fst set_entries entries]; [done|]. rewrite size_insert_present; eauto.
  - guards; cbn [fst set_entries entries]; [done|].
    pose proof (size_insert_le (entries rs) ns (mkEntry rec exp false)). zsolve.
Qed.

(** Remote records compete by expiry: the later one wins. *)
Definition later (e : rendezvousEntry) (a : Instant * string) : rendezvousEntry :=
  if expiresAt e <? a.1 then mkEntry a.2 a.1 (local e) else e.

Lemma putRemote_locked_present ns rec exp rs e :
  entries rs !! ns = Some e →
  entries (putRemote_locked ns rec exp rs).1 !! ns = Some (later e (exp, rec)).
Proof.
  intros E. unfold putRemote_locked, later, Time.Before. rewrite E. cbn [fst snd].
  destruct (expiresAt e <? exp); cbn [negb fst set_entries entries]; [|done].
  by rewrite lookup_insert_eq.
Qed.

Lemma putRemote_locked_other ns rec exp rs ns' :
  ns ≠ ns' → entries (putRemote_locked ns rec exp rs).1 !! ns' = entries rs !! ns'.
Proof.
  intros Hne. unfold putRemote_locked.
  destruct (entries rs !! ns); guards; cbn [fst set_entries entries];
    [done|by rewrite lookup_insert_ne|done|by rewrite lookup_insert_ne].
Qed.

(** The outcome of a competition: the entry with the latest expiry. *)
Lemma later_spec e l :
  let r := foldl later e l in
  local r = local e ∧ expiresAt e <= expiresAt r ∧
  (∀ a, a ∈ l → a.1 <= expiresAt r) ∧
  (r = e ∨ ∃ a, a ∈ l ∧ expiresAt e < a.1 ∧ r = mkEntry a.2 a.1 (local e)).
Proof.
  cbn zeta. revert e. induction l as [|a l IH]; intros e; cbn [foldl].
  { split_and!; [done|lia|by intros a ?%not_elem_of_nil|by left]. }
  destruct (IH (later e a)) as (Hl & Hge & Hall & Hwho). revert Hl Hge Hall Hwho.
  generalize (foldl later (later e a) l). intros r. unfold later.
  destruct (expiresAt e <? a.1) eqn:E; cbn [local expiresAt]; intros Hl Hge Hall Hwho.
  - split_and!; [done|zsolve| |].
    + intros b [->|Hb]%elem_of_cons; [done|by apply Hall].
    + right. destruct Hwho as [->|(b & Hb & Hlt & ->)].
      * exists a. split_and!; [by left|zsolve|done].
      * exists b. split_and!; [by right|zsolve|done].
  - split_and!; [done|done| |].
    + intros b [->|Hb]%elem_of_cons; [zsolve|by apply Hall].
    + destruct Hwho as [->|(b & Hb & Hlt & ->)]; [by left|right].
      exists b. split_and!; [by right|done|done].
Qed.
End rendezvous_lemmas.

(** ** The bound holds under every interleaving *)

Section rendezvous_invariant.
Context `{MR : MapRange} `{FS : FileSystem}.

Definition rv_bounded (rs : rendezvousStore) : Prop :=
  (size (entries rs) <= rendezvousMaxEntries)%nat.

#[local] Abbreviation stable := (Prog.stable rv_bounded).

Lemma persist_stable b : stable (persist b).
Proof.
  apply stable_modify. intros rs Hrs. guards; [done|]. destruct b as [b|]; [|done].
  by destruct (persist_outcome (persists rs)).
Qed.

Lemma put_stable ns rec ttl : stable (put ns rec ttl).
Proof.
  apply stable_bind; [|intros [b|]].
  - apply stable_atomic. intros rs Hrs. by apply put_locked_size.
  - apply stable_bind; [apply persist_stable|intros _; apply stable_ret].
  - apply stable_ret.
Qed.

Lemma putRemote_stable ns rec ttl : stable (putRemote ns rec ttl).
Proof.
  apply stable_bind; [apply stable_gets|intros exp]. apply stable_bind; [|intros [b|]].
  - apply stable_atomic. intros rs Hrs. by apply putRemote_locked_size.
  - apply persist_stable.
  - apply stable_ret.
Qed.

Lemma get_stable ns : stable (get ns).
Proof.
  apply stable_atomic. intros rs Hrs. unfold get_locked.
  destruct (entries rs !! ns); [|done]. guards; [|done]. unfold rv_bounded. cbn [fst set_entries entries].
  etrans; [apply map_subseteq_size, delete_subseteq|done].
Qed.

Lemma janitor_stable : stable janitor.
Proof.
  apply stable_bind; [apply stable_gets|intros now]. apply stable_bind; [|intros b; apply persist_stable].
  apply stable_atomic. intros rs Hrs. unfold rv_bounded. cbn [fst set_entries entries].
  etrans; [apply size_keep_le|done].
Qed.

Lemma rv_call_stable p : rv_call p → stable p.
Proof.
  intros [ns rec ttl|ns rec ttl|ns| |].
  - apply stable_bind; [apply put_stable|intros _; apply stable_ret].
  - apply putRemote_stable.
  - apply stable_bind; [apply get_stable|intros _; apply stable_ret].
  - apply stable_bind; [|intros _; apply stable_ret].
    apply stable_bind; [apply stable_gets|intros now; apply stable_gets].
  - apply janitor_stable.
Qed.

(** The configurations a store can get into from [rs0]. *)
Definition rv_reachable (rs0 : rendezvousStore) (c : config) : Prop :=
  rtc (cstep rv_env rv_call) (rs0, []) c.

Lemma rv_reachable_bounded rs0 c : rv_bounded rs0 → rv_reachable rs0 c → rv_bounded c.1.
Proof.
  intros H0 Hr. apply (reachable_invariant rv_env rv_call rv_bounded (rs0, []) c).
  - by intros s s' [].
  - apply rv_call_stable.
  - exact Hr.
  - done.
  - constructor.
Qed.
End rendezvous_invariant.

Section put_lemmas.
Context `{MR : MapRange} `{FS : FileSystem}.

(** Writing the file touches neither the entries nor the clock. *)
Lemma run_persist b rs : entries (run (persist b) rs).1 = entries rs ∧ rv_clock (run (persist b) rs).1 = rv_clock rs.
Proof. cbn. guards; [done|]. destruct b; [|done]. by destruct (persist_outcome _). Qed.

Lemma entries_put ns rec ttl rs : entries (exec (put ns rec ttl) rs) = entries (put_locked ns rec ttl rs).1.
Proof.
  unfold exec, put. rewrite run_bind, run_atomic. destruct (put_locked ns rec ttl rs) as [s [b|]]; cbn [fst snd]; [|done].
  rewrite run_bind. change (entries (run (persist b) s).1 = entries s). apply run_persist.
Qed.

Lemma put_full ns rec ttl rs :
  entries rs !! ns = None ∧ (rendezvousMaxEntries <= size (entries rs))%nat →
  run (put ns rec ttl) rs = (rs, false).
Proof.
  intros [E Hf]. unfold put, put_locked. rewrite run_bind, run_atomic, E.
  by rewrite (proj2 (Nat.leb_le _ _) Hf).
Qed.

Lemma put_done ns rec ttl rs :
  ¬ (entries rs !! ns = None ∧ (rendezvousMaxEntries <= size (entries rs))%nat) →
  result (put ns rec ttl) rs = true ∧
  entries (exec (put ns rec ttl) rs) = <[ns := mkEntry rec (rv_clock rs + ttl) true]> (entries rs) ∧
  rv_clock (exec (put ns rec ttl) rs) = rv_clock rs.
Proof.
  intros Hnf.
  assert (Hadd : put_locked ns rec ttl rs =
    let s := set_entries (<[ns := mkEntry rec (rv_clock rs + ttl) true]> (entries rs)) rs in (s, Some (snapshotLocked s))).
  { unfold put_locked. destruct (entries rs !! ns); [done|].
    destruct (Nat.leb_spec rendezvousMaxEntries (size (entries rs))); [|done]. by destruct Hnf. }
  rewrite entries_put, Hadd. unfold result, exec, put. rewrite run_bind, run_atomic, Hadd. cbn [fst snd].
  split_and!; [done|done|]. rewrite run_bind. set (s := set_entries _ rs).
  change (rv_clock (run (persist (snapshotLocked s)) s).1 = rv_clock s). apply run_persist.
Qed.
End put_lemmas.

(** ** Theorems *)

(** The store is bounded under every interleaving of registrations, gossip,
    lookups and janitor runs: it never holds more than [rendezvousMaxEntries]
    namespaces if it starts within that bound. *)
Theorem rendezvous_bounded `{MR : MapRange} `{FS : FileSystem} (rs0 : rendezvousStore) (c : config)
    (H0 : (size (entries rs0) <= rendezvousMaxEntries)%nat) (Hr : rv_reachable rs0 c) :
  (size (entries c.1) <= rendezvousMaxEntries)%nat.
Proof. by apply (rv_reachable_bounded rs0 c). Qed.

(** What is registered can be looked up until it expires: [put] is refused
    exactly when the store is full and the namespace is new, and then changes
    nothing; otherwise a lookup up to the expiry returns the record, a later
    one misses and removes the entry, and no other namespace is touched. *)
Theorem put_get `{MR : MapRange} `{FS : FileSystem}
    (rs : rendezvousStore) (ns rec : string) (ttl : Duration) (t : Instant) :
  let full := entries rs !! ns = None ∧ (rendezvousMaxEntries <= size (entries rs))%nat in
  let rs' := set_rv_clock t (exec (put ns rec ttl) rs) in
  (full → run (put ns rec ttl) rs = (rs, false)) ∧
  (¬ full →
    result (put ns rec ttl) rs = true ∧
    result (get ns) rs' = (if rv_clock rs + ttl <? t then None else Some rec) ∧
    (rv_clock rs + ttl < t → entries (exec (get ns) rs') !! ns = None)) ∧
  (∀ ns', ns' ≠ ns → entries (exec (put ns rec ttl) rs) !! ns' = entries rs !! ns').
Proof.
  cbn zeta. split_and!.
  - apply put_full.
  - intros Hnf. destruct (put_done ns rec ttl rs Hnf) as (Hres & Hent & _). split_and!; [done| |].
    + unfold result, get. rewrite run_atomic. unfold get_locked. cbn [set_rv_clock entries rv_clock].
      rewrite Hent, lookup_insert_eq. unfold Time.After. cbn [expiresAt record]. by guards.
    + intros Hexp. unfold exec at 1. unfold get. rewrite run_atomic. unfold get_locked.
      cbn [set_rv_clock entries rv_clock]. rewrite Hent, lookup_insert_eq. unfold Time.After. cbn [expiresAt].
      rewrite (proj2 (Z.ltb_lt _ _) Hexp). cbn [fst set_entries entries]. apply lookup_delete_eq.
  - intros ns' Hne. rewrite entries_put, put_locked_entries, decide_False; [done|]. naive_solver.
Qed.

(** Gossip converges: whatever the order in which remote records for a
    namespace arrive, if their expiries differ from each other and from the
    one held, the store ends up with the same entry, the one that expires
    last; the expiry never goes down, and whether the entry counts as local
    does not change. *)
Theorem putRemote_converges `{MR : MapRange} (ns : string) (rs : rendezvousStore) (e : rendezvousEntry)
    (l l' : list (Instant * string))
    (He : entries rs !! ns = Some e)
    (Hperm : l ≡ₚ l') (Hdistinct : NoDup (expiresAt e :: l.*1)) :
  let apply (rs : rendezvousStore) (a : Instant * string) := (putRemote_locked ns a.2 a.1 rs).1 in
  ∃ r, entries (foldl apply rs l) !! ns = Some r ∧ entries (foldl apply rs l') !! ns = Some r ∧
    local r = local e ∧ expiresAt e <= expiresAt r ∧ (∀ a, a ∈ l → a.1 <= expiresAt r).
Proof.
  cbn zeta.
  assert (Hfold : ∀ l rs e, entries rs !! ns = Some e →
    entries (foldl (λ rs a, (putRemote_locked ns a.2 a.1 rs).1) rs l) !! ns = Some (foldl later e l)).
  { clear. intros l. induction l as [|[exp rec] l IH]; intros rs e He; [done|]. cbn [foldl].
    apply IH. by apply putRemote_locked_present. }
  rewrite !(Hfold _ rs e He). exists (foldl later e l).
  destruct (later_spec e l) as (Hl & Hge & Hall & Hwho).
  destruct (later_spec e l') as (Hl' & Hge' & Hall' & Hwho').
  split_and!; [done| |done|done|done]. f_equal.
  apply NoDup_cons in Hdistinct as [Hne Hnd].
  assert (Hin : ∀ a, a ∈ l' → a ∈ l) by (intros a; by rewrite Hperm).
  assert (Hin' : ∀ a, a ∈ l → a ∈ l') by (intros a; by rewrite Hperm).
  destruct Hwho as [Hr|(a & Ha & Hlt & Hr)], Hwho' as [Hr'|(b & Hb & Hlt' & Hr')]; rewrite Hr, Hr'.
  - done.
  - exfalso. specialize (Hall b (Hin b Hb)). rewrite Hr in Hall. lia.
  - exfalso. specialize (Hall' a (Hin' a Ha)). rewrite Hr' in Hall'. lia.
  - assert (a.1 = b.1).
    { specialize (Hall b (Hin b Hb)). specialize (Hall' a (Hin' a Ha)).
      rewrite Hr in Hall. rewrite Hr' in Hall'. cbn in *. lia. }
    enough (a = b) as -> by done. apply Hin in Hb.
    apply list_elem_of_lookup in Ha as [i Hi]. apply list_elem_of_lookup in Hb as [j Hj].
    assert (i = j) as ->; [|congruence].
    eapply (NoDup_lookup l.*1); [done| |]; rewrite list_lookup_fmap; [by rewrite Hi|rewrite Hj; cbn; by f_equal].
Qed.

(** C33. Restarting: a store opened on the file another store has written holds
    exactly the entries that are still live, with their records and local
    marks, and with expiries rounded down to the second (an entry in the last
    second of its life may be dropped a little early, never kept too long). *)
Theorem restart_roundtrip `{MR : MapRange} (rs : rendezvousStore) (d : Disk) (now : Instant)
    (Hpath : path rs ≠ "") (Hfile : d !! path rs = snapshotLocked rs ≫= λ b, Some (Some b))
    (Hwidth : map_Forall (λ _ e, is_int64 (Time.Unix (expiresAt e)) ∧
                                 is_int64 (Time.Unix (expiresAt e) + Time.unixToInternal)) (entries rs)) :
  ∀ ns, entries (newRendezvousStore (path rs) d now) !! ns =
    e ← entries rs !! ns;
    let exp := expiresAt e / Second * Second in
    if negb (String.eqb (record e) "") && (now <? exp)
    then Some (mkEntry (record e) exp (local e)) else None.
Proof.
  intros ns. unfold newRendezvousStore, load. cbn [path disk rv_clock entries].
  unfold snapshotLocked in Hfile. rewrite (proj2 (String.eqb_neq _ _) Hpath) in Hfile |- *.
  cbn in Hfile. rewrite Hfile. cbn [mbind option_bind]. rewrite dec_enc_persisted_map.
  - cbn [set_entries entries]. rewrite (right_id_L ∅ union), lookup_omap, lookup_fmap.
    destruct (entries rs !! ns) as [e|] eqn:E; cbn; [|done].
    unfold restore, persisted. cbn [pe_Record pe_ExpiresAt pe_Local].
    rewrite of_Unix_Unix by (by apply (Hwidth ns e)). done.
  - intros k pe Hpe. rewrite lookup_fmap in Hpe. destruct (entries rs !! k) as [e|] eqn:E; [|done].
    cbn in Hpe. simplify_eq. cbn. by apply (Hwidth k e).
Qed.

(** ** Two registrations whose files are written in the wrong order *)

Module LateSnapshot.
Definition never_fails : FileSystem := {| persist_outcome _ := Replaced |}.
#[local] Existing Instance never_fails.

Definition fresh : rendezvousStore := mkStore ∅ "rendezvous.json" ∅ 0 0.

Definition goroutines : list (prog rendezvousStore unit) :=
  [(_ ← put "first" "r1" Hour; mret tt); (_ ← put "second" "r2" Hour; mret tt)].

(** The first [put] takes its snapshot, the second runs from start to end, and
    then the first writes its snapshot to the file. *)
Definition outcome : config := sched [0; 1; 1; 0]%nat (fresh, goroutines).
End LateSnapshot.

(** C40. The file can go backwards: snapshots are taken under one lock and
    written under another, so a [put] that is delayed between the two writes
    its older snapshot over a newer one. In a reachable state in which both
    registrations have succeeded, both are in memory, but a restart knows only
    the first: the second, acknowledged, registration is gone. *)
Theorem late_snapshot_loses_put :
  let c := LateSnapshot.outcome in
  @rv_reachable _ LateSnapshot.never_fails LateSnapshot.fresh c ∧
  c.2 = [Ret tt; Ret tt] ∧
  record <$> entries c.1 !! "second" = Some "r2" ∧
  let restarted := newRendezvousStore (path c.1) (disk c.1) (rv_clock c.1) in
  record <$> entries restarted !! "first" = Some "r1" ∧
  entries restarted !! "second" = None.
Proof.
  cbn zeta. split_and!; try (vm_compute; reflexivity).
  unfold rv_reachable. etrans; [|apply sched_reachable].
  apply (go_all _ _ _ [] LateSnapshot.goroutines). repeat constructor.
Qed.

(** ** The theorems at concrete inputs *)

Definition one_entry : rendezvousStore :=
  mkStore {["ns" := mkEntry "r0" (5 * Second) true]} "rv.json" ∅ 0 0.

Definition busy_store : config (S := rendezvousStore) :=
  sched [0; 0]%nat (one_entry, [_ ← @put _ LateSnapshot.never_fails "ns2" "r" Hour; mret tt]).

Lemma rendezvous_bounded_witness : (size (entries busy_store.1) <= rendezvousMaxEntries)%nat.
Proof.
  apply (@rendezvous_bounded _ LateSnapshot.never_fails one_entry).
  - unfold one_entry, rendezvousMaxEntries. cbn [entries]. rewrite map_size_singleton. lia.
  - unfold rv_reachable, busy_store. etrans; [|apply sched_reachable].
    apply (go_all _ _ _ [] [_]). repeat constructor.
Defined.

Lemma putRemote_converges_witness :
  let apply (rs : rendezvousStore) (a : Instant * string) := (putRemote_locked "ns" a.2 a.1 rs).1 in
  let e := mkEntry "r0" (5 * Second) true in
  let l := [(9, "a"); (7 * Second, "b")] in
  ∃ r, entries (foldl apply one_entry l) !! "ns" = Some r ∧
    entries (foldl apply one_entry [(7 * Second, "b"); (9, "a")]) !! "ns" = Some r ∧
    local r = local e ∧ expiresAt e <= expiresAt r ∧ (∀ a, a ∈ l → a.1 <= expiresAt r).
Proof.
  apply (putRemote_converges "ns" one_entry (mkEntry "r0" (5 * Second) true)
    [(9, "a"); (7 * Second, "b")] [(7 * Second, "b"); (9, "a")]).
  - reflexivity.
  - apply Permutation_swap.
  - apply (bool_decide_unpack _). by vm_compute.
Defined.

Lemma restart_roundtrip_witness :
  let file := Some (enc_persisted_map (persisted <$> entries one_entry)) in
  entries (newRendezvousStore "rv.json" {["rv.json" := file]} 7) !! "ns" =
    Some (mkEntry "r0" (5 * Second) true).
Proof.
  cbn zeta.
  etrans; [apply (restart_roundtrip one_entry)|reflexivity].
  - done.
  - by vm_compute.
  - intros k e Hk. unfold one_entry in Hk. cbn [entries] in Hk.
    apply lookup_singleton_Some in Hk as [<- <-]. by vm_compute.
Defined.
