(* ===== verification/RvGossip.v ===== *)
(** * Rendezvous gossip ([internal/relay/rendezvous.go]) and its wiring to the
    store ([internal/api/server.go])

    Records registered at one node are announced on a gossip topic; every other
    node filters what it receives and hands it to its own store. *)

From S2P Require Import Prelude GoTime Prog Packet Json Presence Rendezvous.

#[local] Open Scope string_scope.
#[local] Open Scope list_scope.
#[local] Open Scope Z_scope.

Definition rendezvousMaxNamespaceLen : Z := 128.
Definition rendezvousMaxRecordLen : Z := 8 * 1024.
Definition rendezvousMaxTTL : Duration := Hour.

(** [type rendezvousMsg struct] *)
Record rendezvousMsg := mkRendezvousMsg {
  rm_Namespace : string;
  rm_Record : string;
  rm_ExpiresAt : Z
}.

Definition enc_rendezvousMsg (m : rendezvousMsg) : json :=
  JObj [("namespace", JStr (rm_Namespace m)); ("record", JStr (rm_Record m));
        ("expires_at", JInt (rm_ExpiresAt m))].

Definition dec_rendezvousMsg (v : json) : option rendezvousMsg :=
  dec_struct (mkRendezvousMsg "" "" 0) (λ kvs,
    n ← dec_string "namespace" kvs;
    r ← dec_string "record" kvs;
    x ← dec_int "expires_at" kvs;
    Some (mkRendezvousMsg n r x)) v.

(** [RendezvousGossip.Announce]: the message published. *)
Definition rendezvous_Announce (namespace record : string) (expiresAt : Instant) : rendezvousMsg :=
  mkRendezvousMsg namespace record (Time.UnixMilli expiresAt).

(** One iteration of [readLoop]: the arguments [onRecord] is called with, if it
    is called. *)
Definition rendezvous_receive (self : peerID) (now : Instant) (msg : gossipMsg) :
    option (string * string * Duration) :=
  if decide (ReceivedFrom msg = self) then None
  else
    match v ← Data msg; dec_rendezvousMsg v with
    | None => None
    | Some m =>
        if String.eqb (rm_Namespace m) "" || (rendezvousMaxNamespaceLen <? slen (rm_Namespace m)) then None
        else if String.eqb (rm_Record m) "" || (rendezvousMaxRecordLen <? slen (rm_Record m)) then None
        else
          let ttl := Time.Until now (Time.of_UnixMilli (rm_ExpiresAt m)) in
          if ttl <=? 0 then None
          else Some (rm_Namespace m, rm_Record m, if rendezvousMaxTTL <? ttl then rendezvousMaxTTL else ttl)
    end.

Section wiring.
Context `{MapRange} `{FileSystem}.

(** [Server.OnRemoteRendezvous], the [onRecord] callback. *)
Definition OnRemoteRendezvous (namespace record : string) (ttl : Duration) : prog rendezvousStore unit :=
  putRemote namespace record ttl.

(** One iteration of [readLoop] with that callback. *)
Definition on_rendezvous (self : peerID) (msg : gossipMsg) : prog rendezvousStore unit :=
  now ← gets rv_clock;
  match rendezvous_receive self now msg with
  | None => mret tt
  | Some (namespace, record, ttl) => OnRemoteRendezvous namespace record ttl
  end.

(** One tick of [Server.RendezvousReannounceLoop]: the messages published;
    [gossip] is whether [SetRendezvousGossip] was called with a value that is
    not [nil]. *)
Definition reannounce (gossip : bool) : prog rendezvousStore (list rendezvousMsg) :=
  match gossip with
  | false => mret []
  | true =>
      es ← localEntries;
      mret (map (λ '(ns, rec, exp), rendezvous_Announce ns rec exp) es)
  end.
End wiring.

(** ** Lemmas *)

Lemma dec_enc_rendezvousMsg (m : rendezvousMsg) :
  is_int64 (rm_ExpiresAt m) → dec_rendezvousMsg (enc_rendezvousMsg m) = Some m.
Proof.
  destruct m as [n r x]. intros Hx. cbn in Hx. unfold enc_rendezvousMsg, dec_rendezvousMsg.
  cbn [rm_Namespace rm_Record rm_ExpiresAt dec_struct]. unfold dec_string, dec_int. json_keys.
  unfold fill. cbn -[to_int]. by rewrite to_int_in.
Qed.

(** The sizes the gossip accepts. *)
Definition gossipable (ns rec : string) : Prop :=
  ns ≠ "" ∧ slen ns <= rendezvousMaxNamespaceLen ∧ rec ≠ "" ∧ slen rec <= rendezvousMaxRecordLen.

(** The time to live of a received record: what is left, at most an hour. *)
Definition remaining (now exp : Instant) : Duration :=
  Z.min rendezvousMaxTTL (Time.of_UnixMilli (Time.UnixMilli exp) - now).

Lemma Until_cap now t :
  t - now >= minInt64 →
  (if rendezvousMaxTTL <? Time.Until now t then rendezvousMaxTTL else Time.Until now t) =
  Z.min rendezvousMaxTTL (t - now).
Proof.
  unfold Time.Until, Time.Sub, rendezvousMaxTTL, minInt64, maxInt64, Hour, Minute, Second, Millisecond.
  intros ?. destruct (Z.ltb_spec (t - now) (- 2 ^ 63)); [lia|].
  destruct (Z.ltb_spec (2 ^ 63 - 1) (t - now)); guards; zsolve.
Qed.

Lemma receive_announced self from now ns rec exp :
  from ≠ self → gossipable ns rec → is_int64 (Time.UnixMilli exp) →
  rendezvous_receive self now
    (mkGossipMsg from (Some (enc_rendezvousMsg (rendezvous_Announce ns rec exp)))) =
  if remaining now exp <=? 0 then None else Some (ns, rec, remaining now exp).
Proof.
  intros Hself (Hns & Hnl & Hrec & Hrl) Hexp. unfold rendezvous_receive.
  cbn [ReceivedFrom Data mbind option_bind]. rewrite decide_False by done.
  rewrite dec_enc_rendezvousMsg by done. cbn [rm_Namespace rm_Record rm_ExpiresAt rendezvous_Announce].
  rewrite (proj2 (String.eqb_neq _ _) Hns), (proj2 (String.eqb_neq _ _) Hrec). cbn [orb].
  rewrite (proj2 (Z.ltb_ge _ _) Hnl), (proj2 (Z.ltb_ge _ _) Hrl), Until_le_0.
  set (x := Time.of_UnixMilli (Time.UnixMilli exp)). unfold remaining. fold x.
  destruct (Z.leb_spec x now).
  - rewrite (proj2 (Z.leb_le _ _)); [done|]. lia.
  - rewrite Until_cap by (unfold minInt64; lia).
    rewrite (proj2 (Z.leb_gt _ _)); [done|].
    unfold rendezvousMaxTTL, Hour, Minute, Second, Millisecond. lia.
Qed.

Section gossip_lemmas.
Context `{MR : MapRange} `{FS : FileSystem}.

Lemma run_putRemote ns rec ttl rs :
  entries (run (putRemote ns rec ttl) rs).1 =
    entries (putRemote_locked ns rec (rv_clock rs + ttl) rs).1.
Proof.
  unfold putRemote. go_gets. rewrite run_bind, run_atomic.
  unfold Time.Add. destruct (putRemote_locked _ _ _ _) as [s [b|]]; cbn [fst snd]; [|done].
  apply run_persist.
Qed.

(** What receiving an announcement does to the store. *)
Lemma run_on_rendezvous self from ns rec exp rs :
  from ≠ self → gossipable ns rec → is_int64 (Time.UnixMilli exp) →
  let msg := mkGossipMsg from (Some (enc_rendezvousMsg (rendezvous_Announce ns rec exp))) in
  let left := remaining (rv_clock rs) exp in
  entries (exec (on_rendezvous self msg) rs) =
    if left <=? 0 then entries rs
    else entries (putRemote_locked ns rec (rv_clock rs + left) rs).1.
Proof.
  intros Hself Hg Hexp msg left. unfold exec, on_rendezvous. go_gets.
  subst msg. rewrite receive_announced by done. fold left.
  destruct (left <=? 0); [done|]. apply run_putRemote.
Qed.

(** An announcement that is news to the store. *)
Lemma on_rendezvous_new self from ns rec exp rs :
  from ≠ self → gossipable ns rec → is_int64 (Time.UnixMilli exp) →
  entries rs !! ns = None → (size (entries rs) < rendezvousMaxEntries)%nat →
  rv_clock rs < Time.of_UnixMilli (Time.UnixMilli exp) <= rv_clock rs + Hour →
  entries (exec (on_rendezvous self
      (mkGossipMsg from (Some (enc_rendezvousMsg (rendezvous_Announce ns rec exp))))) rs) =
    <[ns := mkEntry rec (Time.of_UnixMilli (Time.UnixMilli exp)) false]> (entries rs).
Proof.
  intros Hfrom Hsizes Hexp Hnew Hroom Hlive. set (x := Time.of_UnixMilli (Time.UnixMilli exp)) in *.
  rewrite run_on_rendezvous by done. unfold remaining. fold x.
  rewrite (proj2 (Z.leb_gt _ _)) by (unfold rendezvousMaxTTL, Hour, Minute, Second, Millisecond in *; lia).
  unfold putRemote_locked. rewrite Hnew, (proj2 (Nat.leb_gt _ _)) by done.
  cbn [fst set_entries entries]. rewrite Z.min_r by (unfold rendezvousMaxTTL in *; lia).
  by replace (rv_clock rs + (x - rv_clock rs)) with x by lia.
Qed.

(** An announcement of a size the gossip does not accept is dropped. *)
Lemma on_rendezvous_refused self from ns rec exp rs :
  ¬ gossipable ns rec → is_int64 (Time.UnixMilli exp) →
  exec (on_rendezvous self (mkGossipMsg from (Some (enc_rendezvousMsg (rendezvous_Announce ns rec exp))))) rs = rs.
Proof.
  intros Hsizes Hexp. unfold exec, on_rendezvous. go_gets.
  unfold rendezvous_receive. cbn [ReceivedFrom Data mbind option_bind].
  case_decide; [done|]. rewrite dec_enc_rendezvousMsg by done. cbn [rm_Namespace rm_Record rendezvous_Announce].
  destruct (String.eqb ns "" || _) eqn:En; [done|]. destruct (String.eqb rec "" || _) eqn:Er; [done|].
  destruct Hsizes. unfold gossipable. zbool. done.
Qed.
End gossip_lemmas.

(** ** Theorems *)

Section gossip_theorems.
Context `{MR : MapRange} `{FS : FileSystem}.

(** C34. Hostile gossip is contained: whatever message arrives, the only entry it
    can touch is that of a namespace of 1 to 128 bytes, with a record of 1 to
    8192 bytes that expires after now and within the hour, and with the local
    mark the entry had; a message of the node itself does nothing. *)
Theorem gossip_contained (self : peerID) (msg : gossipMsg) (rs : rendezvousStore) (ns : string) :
  let now := rv_clock rs in
  let rs' := exec (on_rendezvous self msg) rs in
  (ReceivedFrom msg = self → rs' = rs) ∧
  (entries rs' !! ns = entries rs !! ns ∨
   ∃ e, entries rs' !! ns = Some e ∧ gossipable ns (record e) ∧
     now < expiresAt e <= now + rendezvousMaxTTL ∧
     local e = match entries rs !! ns with Some e0 => local e0 | None => false end).
Proof.
  cbn zeta. unfold exec, on_rendezvous. go_gets.
  unfold rendezvous_receive. case_decide as Hself; [by split; [|left]|]. split; [done|].
  destruct (v ← Data msg; dec_rendezvousMsg v) as [[n r x]|]; [|by left].
  cbn [rm_Namespace rm_Record rm_ExpiresAt].
  destruct (String.eqb n "" || _) eqn:En; [by left|]. destruct (String.eqb r "" || _) eqn:Er; [by left|].
  destruct (_ <=? 0) eqn:Et; [by left|]. cbn [fst snd].
  assert (Hg : gossipable n r) by (unfold gossipable; zbool; done).
  set (ttl := if rendezvousMaxTTL <? _ then _ else _).
  assert (Httl : 0 < ttl <= rendezvousMaxTTL).
  { subst ttl. destruct (Z.ltb_spec rendezvousMaxTTL (Time.Until (rv_clock rs) (Time.of_UnixMilli x))); [|zsolve].
    unfold rendezvousMaxTTL, Hour, Minute, Second, Millisecond. lia. }
  clearbody ttl. unfold OnRemoteRendezvous. rewrite run_putRemote.
  destruct (decide (n = ns)) as [->|Hne]; [|left; by apply putRemote_locked_other].
  unfold putRemote_locked. destruct (entries rs !! ns) as [e0|] eqn:E.
  - guards; cbn [fst set_entries entries]; [by left|right].
    rewrite lookup_insert_eq. eexists. split; [done|]. cbn [expiresAt record local]. split; [done|]. split; [lia|done].
  - guards; cbn [fst set_entries entries]; [by left|right].
    rewrite lookup_insert_eq. eexists. split; [done|]. cbn [expiresAt record local]. split; [done|]. split; [lia|done].
Qed.

(** Records replicate: when a node that does not know the namespace and has
    room receives an announcement, lookups there return the record until the
    announced expiry, rounded down to the millisecond; receiving the same
    announcement again, as the five-minute loop sends it, changes nothing,
    whatever the time. *)
Theorem gossip_replicates (self from : peerID) (ns rec : string) (exp t : Instant)
    (rs : rendezvousStore)
    (Hfrom : from ≠ self) (Hsizes : gossipable ns rec) (Hexp : is_int64 (Time.UnixMilli exp))
    (Hnew : entries rs !! ns = None) (Hroom : (size (entries rs) < rendezvousMaxEntries)%nat)
    (Hlive : rv_clock rs < Time.of_UnixMilli (Time.UnixMilli exp) <= rv_clock rs + Hour) :
  let msg := mkGossipMsg from (Some (enc_rendezvousMsg (rendezvous_Announce ns rec exp))) in
  let rs' := set_rv_clock t (exec (on_rendezvous self msg) rs) in
  let until := Time.of_UnixMilli (Time.UnixMilli exp) in
  result (get ns) rs' = (if until <? t then None else Some rec) ∧
  exp - Millisecond < until <= exp ∧
  entries (exec (on_rendezvous self msg) rs') = entries rs'.
Proof.
  cbn zeta.
  set (x := Time.of_UnixMilli (Time.UnixMilli exp)) in *.
  pose proof (on_rendezvous_new self from ns rec exp rs Hfrom Hsizes Hexp Hnew Hroom Hlive) as Hent. fold x in Hent.
  split_and!.
  - unfold result, get. rewrite run_atomic. unfold get_locked. cbn [set_rv_clock entries rv_clock].
    rewrite Hent, lookup_insert_eq. unfold Time.After. cbn [expiresAt record]. by destruct (x <? t).
  - pose proof (UnixMilli_bounds exp). fold x in H. lia.
  - pose proof (UnixMilli_bounds exp). fold x in H. lia.
  - rewrite run_on_rendezvous by done. unfold remaining. fold x.
    cbn [set_rv_clock rv_clock]. destruct (_ <=? 0) eqn:El; [done|].
    unfold putRemote_locked. cbn [set_rv_clock entries]. rewrite Hent, lookup_insert_eq.
    unfold Time.Before. cbn [expiresAt]. rewrite (proj2 (Z.ltb_ge _ _)); [by cbn [negb fst entries set_rv_clock]|lia].
Qed.

(** The five-minute loop announces exactly the node's own live records, each
    namespace once and with the expiry it was registered with, and changes
    nothing; without a gossip it announces nothing. *)
Theorem reannounce_spec (rs : rendezvousStore) :
  (run (reannounce true) rs).1 = rs ∧
  (∀ m, m ∈ result (reannounce true) rs ↔
     ∃ ns e, entries rs !! ns = Some e ∧ local e = true ∧ rv_clock rs < expiresAt e ∧
       m = rendezvous_Announce ns (record e) (expiresAt e)) ∧
  NoDup (rm_Namespace <$> result (reannounce true) rs) ∧
  run (reannounce false) rs = (rs, []).
Proof.
  assert (Hrun : run (reannounce true) rs = (rs, omap (λ '(ns, e),
    if local e && Time.After (expiresAt e) (rv_clock rs)
    then Some (rendezvous_Announce ns (record e) (expiresAt e)) else None) (range (entries rs)))).
  { unfold reannounce, localEntries. rewrite !run_bind, !run_gets. cbn [fst snd run mret prog_ret].
    f_equal. generalize (range (entries rs)) as l. intros l.
    induction l as [|[ns e] l IH]; [done|]. cbn. destruct (local e && _); cbn; by rewrite IH. }
  unfold result. rewrite Hrun. cbn [fst snd]. split_and!; [done| | |done].
  - intros m. rewrite list_elem_of_omap. split.
    + intros ([ns e] & Hin & Heq). apply elem_of_range in Hin.
      destruct (local e && _) eqn:Eg in Heq; [|done].
      zbool. unfold Time.After in *. exists ns, e. simplify_eq. split_and!; [done|done|zsolve|done].
    + intros (ns & e & He & Hl & Hlt & ->). exists (ns, e). rewrite elem_of_range. split; [done|].
      rewrite Hl. unfold Time.After. by rewrite (proj2 (Z.ltb_lt _ _) Hlt).
  - eapply sublist_NoDup; [apply (NoDup_fst_range (entries rs))|].
    generalize (range (entries rs)) as l. intros l. induction l as [|[ns e] l IH]; [done|].
    cbn. destruct (local e && _); cbn; by constructor.
Qed.
End gossip_theorems.

Definition fresh_b : rendezvousStore := mkStore ∅ "" ∅ Second 0.

Lemma gossip_replicates_witness :
  let msg := mkGossipMsg "n1" (Some (enc_rendezvousMsg (rendezvous_Announce "ns" "rec" (Minute + 7)))) in
  let rs' := set_rv_clock (30 * Second) (exec (@on_rendezvous _ LateSnapshot.never_fails "n2" msg) fresh_b) in
  result (get "ns") rs' = Some "rec".
Proof.
  apply (@gossip_replicates _ LateSnapshot.never_fails "n2" "n1" "ns" "rec" (Minute + 7) (30 * Second) fresh_b).
  - done.
  - unfold gossipable. split_and!; by vm_compute.
  - by vm_compute.
  - done.
  - unfold fresh_b, rendezvousMaxEntries. cbn [entries]. rewrite map_size_empty. lia.
  - by vm_compute.
Defined.
