(* ===== verification/Config.v ===== *)
(** * Configuration ([internal/config/config.go])

    Loading, repairing, checking and saving the node's configuration. *)

From S2P Require Import Prelude Prog Files.

#[local] Open Scope string_scope.
#[local] Open Scope list_scope.
#[local] Open Scope Z_scope.

Definition ModePublic : string := "public".
Definition ModePrivate : string := "private".
Definition ModeCustomPublic : string := "custom_public".

Definition DefaultAPIPort : Z := 7523.

(** [type Config struct]. The program never tells a [nil] list from an empty
    one in it. *)
Record Config := mkConfig {
  KeypairPath : string;
  NetworkMode : string;
  PSKPath : string;
  NetworkID : string;
  BootstrapPeers : list string;
  DirectoryURL : string;
  APIHost : string;
  APIPort : Z;
  APIToken : string;
  ListenAddrs : list string;
  AnnounceAddrs : list string;
  RelayEnabled : bool;
  MaxPeers : Z;
  MaxAppConnections : Z
}.

#[export] Instance Config_eq_dec : EqDecision Config.
Proof. solve_decision. Defined.

Definition Default : Config := {|
  KeypairPath := "./node.key";
  NetworkMode := ModePublic;
  PSKPath := "./network.psk";
  NetworkID := "";
  BootstrapPeers := [];
  DirectoryURL := "";
  APIHost := "127.0.0.1";
  APIPort := DefaultAPIPort;
  APIToken := "";
  ListenAddrs := ["/ip4/0.0.0.0/tcp/4001"; "/ip4/0.0.0.0/udp/4001/quic-v1"];
  AnnounceAddrs := [];
  RelayEnabled := true;
  MaxPeers := 200;
  MaxAppConnections := 5000
|}.

(** The fields other functions assign to. *)
Definition set_APIToken (t : string) (c : Config) : Config :=
  {| KeypairPath := KeypairPath c; NetworkMode := NetworkMode c; PSKPath := PSKPath c;
     NetworkID := NetworkID c; BootstrapPeers := BootstrapPeers c; DirectoryURL := DirectoryURL c;
     APIHost := APIHost c; APIPort := APIPort c; APIToken := t; ListenAddrs := ListenAddrs c;
     AnnounceAddrs := AnnounceAddrs c; RelayEnabled := RelayEnabled c; MaxPeers := MaxPeers c;
     MaxAppConnections := MaxAppConnections c |}.
Definition set_network (mode psk id : string) (peers : list string) (c : Config) : Config :=
  {| KeypairPath := KeypairPath c; NetworkMode := mode; PSKPath := psk;
     NetworkID := id; BootstrapPeers := peers; DirectoryURL := DirectoryURL c;
     APIHost := APIHost c; APIPort := APIPort c; APIToken := APIToken c; ListenAddrs := ListenAddrs c;
     AnnounceAddrs := AnnounceAddrs c; RelayEnabled := RelayEnabled c; MaxPeers := MaxPeers c;
     MaxAppConnections := MaxAppConnections c |}.

(** The errors of [Validate]. *)
Inductive ValidateError :=
| PrivateNeedsPSK | PrivateNeedsBootstrap | CustomNeedsID | InvalidMode (mode : string)
| PortOutOfRange (port : Z) | NoListenAddr | MaxPeersNotPositive | MaxAppsNotPositive.

(** [Config.Validate]; [None] is a [nil] error. *)
Definition Validate (c : Config) : option ValidateError :=
  let mode_error :=
    if String.eqb (NetworkMode c) ModePublic then None
    else if String.eqb (NetworkMode c) ModePrivate then
      if String.eqb (PSKPath c) "" then Some PrivateNeedsPSK
      else if (length (BootstrapPeers c) =? 0)%nat then Some PrivateNeedsBootstrap
      else None
    else if String.eqb (NetworkMode c) ModeCustomPublic then
      if String.eqb (NetworkID c) "" then Some CustomNeedsID else None
    else Some (InvalidMode (NetworkMode c)) in
  match mode_error with
  | Some e => Some e
  | None =>
      if (APIPort c <=? 0) || (65535 <? APIPort c) then Some (PortOutOfRange (APIPort c))
      else if (length (ListenAddrs c) =? 0)%nat then Some NoListenAddr
      else if MaxPeers c <=? 0 then Some MaxPeersNotPositive
      else if MaxAppConnections c <=? 0 then Some MaxAppsNotPositive
      else None
  end.

(** The YAML library at this type; [yaml_Unmarshal data c] fills [c]. *)
Class Yaml := {
  yaml_Marshal : Config → option bytes;
  yaml_Unmarshal : bytes → Config → option Config
}.

(** What the code relies on: every field is written, so reading back gives the
    configuration whatever the target held. *)
Class YamlLaws (Y : Yaml) := {
  yaml_roundtrip c b c0 : yaml_Marshal c = Some b → yaml_Unmarshal b c0 = Some c
}.

Inductive SaveError := MarshalConfig | WriteConfig.
Inductive LoadError :=
| ReadConfig | WriteInitial (e : SaveError) | ParseConfig | ClearToken (e : SaveError)
| Invalid (e : ValidateError).

Section config.
Context `{OSEnv} `{Yaml}.

Definition Save (cfg : Config) (path : string) : prog FS (res SaveError unit) :=
  match yaml_Marshal cfg with
  | None => mret (Err MarshalConfig)
  | Some out => r ← WriteFile path out; mret (wrap_err (λ _, WriteConfig) r)
  end.

(** [if err := cfg.Validate(); err != nil { return nil, false, err }; return
    cfg, firstRun, nil] *)
Definition checked (cfg : Config) (firstRun : bool) : prog FS (res LoadError (Config * bool)) :=
  match Validate cfg with
  | Some e => mret (Err (Invalid e))
  | None => mret (Ok (cfg, firstRun))
  end.

Definition Load (path : string) : prog FS (res LoadError (Config * bool)) :=
  data ← ReadFile path;
  match data with
  | Err OtherReadError => mret (Err ReadConfig)
  | Err NotExist =>
      let cfg := Default in
      saved ← Save cfg path;
      _ ←? mret (wrap_err WriteInitial saved);
      checked cfg true
  | Ok data =>
      match yaml_Unmarshal data Default with
      | None => mret (Err ParseConfig)
      | Some cfg =>
          if String.eqb (NetworkMode cfg) ModePublic && negb (String.eqb (APIToken cfg) "") then
            let cfg := set_APIToken "" cfg in
            saved ← Save cfg path;
            _ ←? mret (wrap_err ClearToken saved);
            checked cfg false
          else checked cfg false
      end
  end.
End config.

(** ** What a valid configuration is *)

(** The requirements of each network mode. *)
Inductive mode_ok (c : Config) : Prop :=
| public_ok : NetworkMode c = ModePublic → mode_ok c
| private_ok : NetworkMode c = ModePrivate → PSKPath c ≠ "" → BootstrapPeers c ≠ [] → mode_ok c
| custom_ok : NetworkMode c = ModeCustomPublic → NetworkID c ≠ "" → mode_ok c.

Definition valid (c : Config) : Prop :=
  mode_ok c ∧ 1 <= APIPort c <= 65535 ∧ ListenAddrs c ≠ [] ∧ 0 < MaxPeers c ∧ 0 < MaxAppConnections c.

Lemma length_zero {A} (l : list A) : (length l =? 0)%nat = true ↔ l = [].
Proof. by destruct l. Qed.

Lemma validate_iff (c : Config) : Validate c = None ↔ valid c.
Proof.
  unfold Validate, valid. split.
  - intros Hv. assert (Hm : mode_ok c).
    { destruct (String.eqb_spec (NetworkMode c) ModePublic); [by apply public_ok|].
      destruct (String.eqb_spec (NetworkMode c) ModePrivate).
      { destruct (String.eqb_spec (PSKPath c) ""); [done|].
        destruct (length (BootstrapPeers c) =? 0)%nat eqn:El; [done|]. apply private_ok; [done|done|].
        intros Hb. by rewrite Hb in El. }
      destruct (String.eqb_spec (NetworkMode c) ModeCustomPublic); [|done].
      destruct (String.eqb_spec (NetworkID c) ""); [done|]. by apply custom_ok. }
    split; [done|]. destruct (if String.eqb _ _ then _ else _) as [e|]; [done|].
    destruct ((APIPort c <=? 0) || _) eqn:E1; [done|].
    destruct (length (ListenAddrs c) =? 0)%nat eqn:E2; [done|].
    destruct (MaxPeers c <=? 0) eqn:E3; [done|]. destruct (MaxAppConnections c <=? 0) eqn:E4; [done|].
    zbool. split_and!; try lia. by destruct (ListenAddrs c).
  - intros (Hm & Hp & Hl & Hmp & Hma).
    assert (Hmode : (if String.eqb (NetworkMode c) ModePublic then None
      else if String.eqb (NetworkMode c) ModePrivate then
        if String.eqb (PSKPath c) "" then Some PrivateNeedsPSK
        else if (length (BootstrapPeers c) =? 0)%nat then Some PrivateNeedsBootstrap else None
      else if String.eqb (NetworkMode c) ModeCustomPublic then
        if String.eqb (NetworkID c) "" then Some CustomNeedsID else None
      else Some (InvalidMode (NetworkMode c))) = None).
    { destruct Hm as [Hm|Hm Hpsk Hb|Hm Hid]; rewrite Hm; [done| |].
      - cbn. rewrite (proj2 (String.eqb_neq _ _) Hpsk). by destruct (BootstrapPeers c).
      - cbn. by rewrite (proj2 (String.eqb_neq _ _) Hid). }
    rewrite Hmode. rewrite (proj2 (Z.leb_gt _ _)) by lia. rewrite (proj2 (Z.ltb_ge _ _)) by lia.
    cbn [orb]. destruct (ListenAddrs c); [done|]. cbn [length Nat.eqb].
    rewrite !(proj2 (Z.leb_gt _ _)) by lia. done.
Qed.

Section config_lemmas.
Context `{OSEnv} `{Y : Yaml} `{!YamlLaws Y}.

Lemma Save_ok cfg path fs fs' :
  run (Save cfg path) fs = (fs', Ok tt) →
  ∃ out, yaml_Marshal cfg = Some out ∧ files fs' = <[path := out]> (files fs).
Proof.
  unfold Save. destruct (yaml_Marshal cfg) as [out|]; [|done]. rewrite run_bind.
  destruct (run (WriteFile path out) fs) as [s [[]|[]]] eqn:Ew; cbn; intros [= <-].
  exists out. split; [done|]. by eapply WriteFile_ok.
Qed.

Lemma run_checked cfg b fs :
  run (checked cfg b) fs = (fs, match Validate cfg with Some e => Err (Invalid e) | None => Ok (cfg, b) end).
Proof. unfold checked. by destruct (Validate cfg). Qed.

(** The three ways [Load] can succeed. *)
Lemma Load_ok path fs fs' cfg first :
  run (Load path) fs = (fs', Ok (cfg, first)) →
  Validate cfg = None ∧
  ((files fs !! path = None ∧ first = true ∧ cfg = Default ∧
    ∃ out, yaml_Marshal cfg = Some out ∧ files fs' = <[path := out]> (files fs)) ∨
   (∃ data c, files fs !! path = Some data ∧ first = false ∧ yaml_Unmarshal data Default = Some c ∧
     ((NetworkMode c = ModePublic ∧ APIToken c ≠ "" ∧ cfg = set_APIToken "" c ∧
       ∃ out, yaml_Marshal cfg = Some out ∧ files fs' = <[path := out]> (files fs)) ∨
      (¬ (NetworkMode c = ModePublic ∧ APIToken c ≠ "") ∧ cfg = c ∧ files fs' = files fs)))).
Proof.
  unfold Load. go_read.
  destruct (files fs !! path) as [data|] eqn:Ef.
  - destruct (read_fails _ _); [done|]. destruct (yaml_Unmarshal data Default) as [c|] eqn:Eu; [|done].
    destruct (String.eqb (NetworkMode c) ModePublic && _) eqn:Ec.
    + rewrite run_bind. destruct (run (Save _ _) _) as [s [[]|e]] eqn:Es; rewrite run_try; [|done].
      cbn [wrap_err run mret prog_ret fst snd]. rewrite run_checked.
      destruct (Validate (set_APIToken "" c)) eqn:Ev; [done|]. intros [= <- <- <-]. split; [done|]. right.
      exists data, c. split_and!; try done. left. zbool. split_and!; [done|done|done|].
      apply Save_ok in Es. by cbn [files] in Es.
    + rewrite run_checked. destruct (Validate c) eqn:Ev; [done|]. intros [= <- <- <-].
      split; [done|]. right. exists data, c. split_and!; try done. right. split; [|done].
      intros [Hm Ht]. by rewrite Hm, (proj2 (String.eqb_neq _ _) Ht) in Ec.
  - rewrite run_bind. destruct (run (Save _ _) _) as [s [[]|e]] eqn:Es; rewrite run_try; [|done].
    cbn [wrap_err run mret prog_ret fst snd]. rewrite run_checked.
    destruct (Validate Default) eqn:Ev; [done|]. intros [= <- <- <-]. split; [done|]. left.
    split_and!; try done. apply Save_ok in Es. by cbn [files] in Es.
Qed.
(** What [Load] leaves on the disk. *)
Lemma Load_file_after path fs fs' cfg first :
  run (Load path) fs = (fs', Ok (cfg, first)) →
  ∃ data, files fs' !! path = Some data ∧ yaml_Unmarshal data Default = Some cfg ∧ valid cfg ∧
    (NetworkMode cfg = ModePublic → APIToken cfg = "") ∧
    (∀ other, other ≠ path → files fs' !! other = files fs !! other).
Proof.
  intros (Hv%validate_iff & Hcases)%Load_ok.
  assert (Hnew : ∀ out, yaml_Marshal cfg = Some out → files fs' = <[path := out]> (files fs) →
    ∃ data, files fs' !! path = Some data ∧ yaml_Unmarshal data Default = Some cfg ∧
    (∀ other, other ≠ path → files fs' !! other = files fs !! other)).
  { intros out Ho Hf. exists out. rewrite Hf, lookup_insert_eq. split_and!; [done|by eapply yaml_roundtrip|].
    intros other Hne. by rewrite lookup_insert_ne. }
  destruct Hcases as [(_ & _ & Hdef & out & Ho & Hf)
                     |(data & c & Hd & _ & Hu & [(_ & _ & Hc & out & Ho & Hf)|(Hn & Hc & Hf)])].
  - destruct (Hnew out Ho Hf) as (data & ? & ? & ?). exists data. split_and!; try done; by subst cfg.
  - destruct (Hnew out Ho Hf) as (data' & ? & ? & ?). exists data'. split_and!; try done; by subst cfg.
  - exists data. subst c. rewrite Hf. split_and!; try done. intros Hm.
    destruct (String.eqb_spec (APIToken cfg) ""); [done|]. by destruct Hn.
Qed.

(** A file that [Load] has nothing to repair in. *)
Lemma Load_settled path fs data cfg :
  files fs !! path = Some data → yaml_Unmarshal data Default = Some cfg → valid cfg →
  (NetworkMode cfg = ModePublic → APIToken cfg = "") →
  run (Load path) fs =
    (mkFS (files fs) (S (ops fs)), if read_fails (ops fs) path then Err ReadConfig else Ok (cfg, false)).
Proof.
  intros Hd Hu Hv%validate_iff Htok. unfold Load. go_read. cbn [files ops]. rewrite Hd. destruct (read_fails _ path); [done|]. rewrite Hu.
  destruct (String.eqb_spec (NetworkMode cfg) ModePublic) as [Hm|Hm].
  - rewrite (Htok Hm). cbn [String.eqb andb negb]. by rewrite run_checked, Hv.
  - cbn [andb]. by rewrite run_checked, Hv.
Qed.
End config_lemmas.

(** ** Theorems *)

(** [Validate] accepts exactly the valid configurations: those with a known
    network mode and what that mode needs (a key path and a bootstrap peer for
    a private network, an identifier for a custom one), a TCP port, somewhere to
    listen, and positive limits. In particular the defaults are valid, and
    checking reads nothing else. *)
Theorem validate_spec (c : Config) :
  (Validate c = None ↔ valid c) ∧ Validate Default = None ∧
  (∀ tok, Validate (set_APIToken tok c) = Validate c).
Proof. split; [apply validate_iff|]. done. Qed.

(** C32. A loaded configuration is valid, and never has a token on the public
    network, whatever the file held; and the file and the configuration agree
    from then on: loading again, with any file operation failing or not in
    between, either reports a read error or returns the same configuration,
    and no longer writes. *)
Theorem load_heals `{OSEnv} `{Y : Yaml, !YamlLaws Y} (path : string) (fs fs' : FS)
    (cfg : Config) (first : bool)
    (Hload : run (Load path) fs = (fs', Ok (cfg, first))) :
  valid cfg ∧ (NetworkMode cfg = ModePublic → APIToken cfg = "") ∧
  (∀ other, other ≠ path → files fs' !! other = files fs !! other) ∧
  ∀ n, run (Load path) (mkFS (files fs') n) =
    (mkFS (files fs') (S n), if read_fails n path then Err ReadConfig else Ok (cfg, false)).
Proof.
  destruct (Load_file_after _ _ _ _ _ Hload) as (data & Hd & Hu & Hv & Htok & Hother).
  split_and!; [done|done|done|]. intros n. by apply (Load_settled _ (mkFS (files fs') n) data).
Qed.

(** Every way [Load] goes wrong is reported as what it is, and a file that
    cannot be read or parsed, or holds an invalid configuration, is left as it
    was; only a public configuration with a token may have been rewritten. *)
Theorem load_errors `{OSEnv} `{Y : Yaml} (path : string) (fs : FS) :
  match run (Load path) fs with
  | (_, Ok _) => True
  | (fs', Err ReadConfig) => files fs' = files fs ∧ is_Some (files fs !! path)
  | (fs', Err ParseConfig) =>
      files fs' = files fs ∧ ∃ data, files fs !! path = Some data ∧ yaml_Unmarshal data Default = None
  | (_, Err (WriteInitial _)) => files fs !! path = None
  | (_, Err (ClearToken _)) =>
      ∃ data c, files fs !! path = Some data ∧ yaml_Unmarshal data Default = Some c ∧
        NetworkMode c = ModePublic ∧ APIToken c ≠ ""
  | (fs', Err (Invalid e)) =>
      ∃ data c, files fs !! path = Some data ∧ yaml_Unmarshal data Default = Some c ∧
        Validate c = Some e ∧ ¬ valid c ∧
        (¬ (NetworkMode c = ModePublic ∧ APIToken c ≠ "") → files fs' = files fs)
  end.
Proof.
  unfold Load. go_read.
  destruct (files fs !! path) as [data|] eqn:Ef.
  - destruct (read_fails _ _); [by split; [|eexists]|].
    destruct (yaml_Unmarshal data Default) as [c|] eqn:Eu; [|by split; [|eexists]].
    assert (Hinv : ∀ e, Validate c = Some e → ¬ valid c) by (intros e He Hv%validate_iff; congruence).
    destruct (String.eqb (NetworkMode c) ModePublic && _) eqn:Ec.
    + zbool. rewrite run_bind. destruct (run (Save _ _) _) as [s [[]|e]] eqn:Es; rewrite run_try.
      * cbn [wrap_err run mret prog_ret fst snd]. rewrite run_checked.
        change (Validate (set_APIToken "" c)) with (Validate c).
        destruct (Validate c) as [e|] eqn:Ev; [|done]. exists data, c. split_and!; try done; [by eapply Hinv|].
        intros Hn. by destruct Hn.
      * exists data, c. done.
    + rewrite run_checked. destruct (Validate c) as [e|] eqn:Ev; [|done].
      exists data, c. split_and!; try done. by eapply Hinv.
  - rewrite run_bind. destruct (run (Save _ _) _) as [s [[]|e]] eqn:Es; rewrite run_try; [|done].
    cbn [wrap_err run mret prog_ret fst snd]. by rewrite run_checked.
Qed.

(** ** A concrete encoding, to evaluate the model *)

Definition config_rows (c : Config) : list (list string) :=
  [[KeypairPath c; NetworkMode c; PSKPath c; NetworkID c; DirectoryURL c; APIHost c; APIToken c;
    pack (APIPort c); pack (RelayEnabled c); pack (MaxPeers c); pack (MaxAppConnections c)];
   BootstrapPeers c; ListenAddrs c; AnnounceAddrs c].

Definition config_of_rows (rows : list (list string)) : option Config :=
  match rows with
  | [[k; m; p; i; d; h; tok; port; r; mp; ma]; b; l; a] =>
      port ← unpack port; r ← unpack r; mp ← unpack mp; ma ← unpack ma;
      Some (mkConfig k m p i b d h port tok l a r mp ma)
  | _ => None
  end.

Definition plain_yaml : Yaml := {|
  yaml_Marshal c := Some (pack (config_rows c));
  yaml_Unmarshal b _ := rows ← unpack b; config_of_rows rows
|}.

#[export] Instance plain_yaml_laws : YamlLaws plain_yaml.
Proof.
  split. intros c b c0 [= <-]. cbn [yaml_Unmarshal plain_yaml].
  rewrite unpack_pack. cbn -[pack unpack]. rewrite !unpack_pack. by destruct c.
Qed.

(** A public configuration with a token. *)
Definition locked_out : Config := set_APIToken "secret" Default.
Definition locked_out_file : FS := mkFS {["config.yaml" := pack (config_rows locked_out)]} 0.

Lemma load_heals_witness :
  let fs' := exec (@Load reliable plain_yaml "config.yaml") locked_out_file in
  valid Default ∧ (NetworkMode Default = ModePublic → APIToken Default = "") ∧
  (∀ other, other ≠ "config.yaml" → files fs' !! other = files locked_out_file !! other) ∧
  ∀ n, run (@Load reliable plain_yaml "config.yaml") (mkFS (files fs') n) =
    (mkFS (files fs') (S n),
     if @read_fails reliable n "config.yaml" then Err ReadConfig else Ok (Default, false)).
Proof.
  apply (@load_heals reliable plain_yaml _ "config.yaml" locked_out_file _ Default false).
  by vm_compute.
Defined.
