(* ===== verification/Network.v ===== *)
(** * Network scope and keys ([internal/network/network.go])

    What a configuration says about the network the node joins. *)

From S2P Require Import Prelude Prog GoStrings Files Config.

#[local] Open Scope string_scope.
#[local] Open Scope list_scope.

Definition GlobalScope : string := "global".

Definition DefaultBootstrapPeers : list string :=
  ["/dns4/pluralstar.dedyn.io/tcp/4001/p2p/12D3KooWL4A25M2sWt1HoFY3r8hWn2idbc4yVdsdBqpFitRTNyfz"].

Definition Scope (cfg : Config) : string :=
  if String.eqb (NetworkMode cfg) ModeCustomPublic then NetworkID cfg else GlobalScope.

Definition DHTPrefix (cfg : Config) : string := String.append "/plural-star/" (Scope cfg).

Definition GossipPrefix (cfg : Config) : string :=
  String.append "plural-star:" (String.append (Scope cfg) ":").

(** [network.BootstrapPeers]; the field of [Config] has the same name. *)
Definition NetworkBootstrapPeers (cfg : Config) : list string :=
  if (0 <? length (BootstrapPeers cfg))%nat then BootstrapPeers cfg
  else if String.eqb (NetworkMode cfg) ModePublic then DefaultBootstrapPeers
  else [].

Inductive PSKError := ReadPSK | PSKLength (n : nat).

Definition LoadPSK `{OSEnv} (path : string) : prog FS (res PSKError bytes) :=
  data ← ReadFile path;
  match data with
  | Err _ => mret (Err ReadPSK)
  | Ok data =>
      if negb (String.length data =? 32)%nat then mret (Err (PSKLength (String.length data)))
      else mret (Ok data)
  end.

(** ** Lemmas *)

Section psk_lemmas.
Context `{OSEnv}.

(** A key file in order, and what a success says about it. *)
Lemma LoadPSK_file path fs psk :
  files fs !! path = Some psk → String.length psk = 32%nat → read_fails (ops fs) path = false →
  result (LoadPSK path) fs = Ok psk.
Proof.
  intros Hf Hl Hr. unfold result, LoadPSK. go_read.
  rewrite Hf, Hr. by rewrite Hl.
Qed.

Lemma LoadPSK_Ok path fs fs' psk :
  run (LoadPSK path) fs = (fs', Ok psk) →
  files fs !! path = Some psk ∧ String.length psk = 32%nat ∧ files fs' = files fs.
Proof.
  unfold LoadPSK. go_read.
  destruct (files fs !! path) as [data|]; [|done]. destruct (read_fails _ _); [done|].
  destruct (Nat.eqb_spec (String.length data) 32) as [Hl|]; [|done]. by intros [= <- <-].
Qed.
End psk_lemmas.

(** ** Theorems *)

(** Two nodes share their overlay networks exactly when they have the same
    scope: the prefix of the DHT protocol and the prefix of the gossip topics
    identify it, and so keep custom networks apart from each other; the global
    one is shared by the public mode and the private mode, which a key
    protects. A custom network that calls itself ["global"] is not kept
    apart. *)
Theorem scope_isolation (c1 c2 : Config) :
  (DHTPrefix c1 = DHTPrefix c2 ↔ Scope c1 = Scope c2) ∧
  (GossipPrefix c1 = GossipPrefix c2 ↔ Scope c1 = Scope c2) ∧
  (Scope c1 = Scope c2 ↔
     (NetworkMode c1 = ModeCustomPublic ∧ NetworkMode c2 = ModeCustomPublic ∧ NetworkID c1 = NetworkID c2) ∨
     (NetworkMode c1 ≠ ModeCustomPublic ∧ NetworkMode c2 ≠ ModeCustomPublic) ∨
     (NetworkMode c1 = ModeCustomPublic ∧ NetworkMode c2 ≠ ModeCustomPublic ∧ NetworkID c1 = GlobalScope) ∨
     (NetworkMode c1 ≠ ModeCustomPublic ∧ NetworkMode c2 = ModeCustomPublic ∧ NetworkID c2 = GlobalScope)).
Proof.
  split_and!.
  - unfold DHTPrefix. split; [apply append_inj_l|by intros ->].
  - unfold GossipPrefix. split; [|by intros ->]. by intros ?%append_inj_l%append_inj_r.
  - unfold Scope. destruct (String.eqb_spec (NetworkMode c1) ModeCustomPublic),
      (String.eqb_spec (NetworkMode c2) ModeCustomPublic); naive_solver.
Qed.
