(* ===== verification/Invite.v ===== *)
(** * Invites ([internal/network/invite.go], [invite_apply.go])

    The text that carries a private network's key and entry points: a scheme,
    then base58 of a version byte, a count byte, the addresses with two-byte
    lengths, the 32-byte key and the label. *)

From S2P Require Import Prelude Prog GoStrings Multiaddr Files Config Network.
From Stdlib Require Import Ascii.

#[local] Open Scope string_scope.
#[local] Open Scope list_scope.
#[local] Open Scope nat_scope.

Definition inviteScheme : string := "psnode://v1/".
Definition inviteVersion : N := 1.
Definition pskLen : nat := 32.

(** mr-tron/base58 *)
Class Base58 := {
  base58_Encode : bytes → string;
  base58_Decode : string → option bytes
}.

Definition base58_alphabet : string := "123456789ABCDEFGHJKLMNPQRSTUVWXYZabcdefghijkmnopqrstuvwxyz".

(** What the code relies on: decoding undoes encoding, and the encoding uses
    the alphabet only. *)
Class Base58Laws (B : Base58) := {
  base58_roundtrip b : base58_Decode (base58_Encode b) = Some b;
  base58_chars b :
    Forall (λ a, a ∈ String.list_ascii_of_string base58_alphabet)
      (String.list_ascii_of_string (base58_Encode b))
}.

(** [type Invite struct] *)
Record Invite `{MultiaddrLib} := mkInvite {
  Multiaddrs : list Multiaddr;
  PSK : bytes;
  Label : string
}.

(** The errors; [Truncated] says where. *)
Inductive InvitePart := PartVersion | PartAddrCount | PartAddrLength | PartAddrBytes | PartPSK | PartLabel.
Inductive InviteError :=
| BadPSK (len : nat) | NoMultiaddr | TooManyMultiaddrs | MultiaddrTooLong
| BadScheme | BadBase58 | Truncated (part : InvitePart) | BadVersion (v : ascii) | BadMultiaddr (i : nat).

Section invite.
Context `{MultiaddrLib} `{Base58}.

(** The loop over the addresses: what is written to the buffer. *)
Fixpoint encode_addrs (l : list Multiaddr) : res InviteError bytes :=
  match l with
  | [] => Ok ""
  | a :: l =>
      let ab := ma_Bytes a in
      if (65535 <? N.of_nat (String.length ab))%N then Err MultiaddrTooLong
      else
        match encode_addrs l with
        | Err e => Err e
        | Ok rest => Ok (PutUint16 (N.of_nat (String.length ab)) +:+ ab +:+ rest)
        end
  end.

Definition EncodeInvite (inv : Invite) : res InviteError string :=
  if negb (String.length (PSK inv) =? pskLen) then Err (BadPSK (String.length (PSK inv)))
  else if length (Multiaddrs inv) =? 0 then Err NoMultiaddr
  else if 255 <? length (Multiaddrs inv) then Err TooManyMultiaddrs
  else
    match encode_addrs (Multiaddrs inv) with
    | Err e => Err e
    | Ok addrs =>
        let buf := String (to_byte inviteVersion) (String (to_byte (N.of_nat (length (Multiaddrs inv))))
          (addrs +:+ PSK inv +:+ Label inv)) in
        Ok (inviteScheme +:+ base58_Encode buf)
    end.

(** [bytes.Reader]: the state is what is left to read. *)
Definition ReadByte (e : InviteError) : prog bytes (res InviteError ascii) :=
  atomic (λ r, match r with "" => (r, Err e) | String a r => (r, Ok a) end).

(** [io.ReadFull] into a buffer of [n] bytes. *)
Definition ReadFull (n : nat) (e : InviteError) : prog bytes (res InviteError bytes) :=
  atomic (λ r, match split_at n r with Some (x, r) => (r, Ok x) | None => ("", Err e) end).

(** The loop over the addresses, from the [i]-th, with [k] left to read. *)
Fixpoint decode_addrs (k i : nat) : prog bytes (res InviteError (list Multiaddr)) :=
  match k with
  | O => mret (Ok [])
  | S k =>
      lenBuf ←? ReadFull 2 (Truncated PartAddrLength);
      match lenBuf with
      | String hi (String lo _) =>
          ab ←? ReadFull (N.to_nat (Uint16 hi lo)) (Truncated PartAddrBytes);
          match NewMultiaddrBytes ab with
          | None => mret (Err (BadMultiaddr i))
          | Some a =>
              l ←? decode_addrs k (S i);
              mret (Ok (a :: l))
          end
      | _ => mret (Err (Truncated PartAddrLength))
      end
  end.

Definition decode_payload : prog bytes (res InviteError Invite) :=
  version ←? ReadByte (Truncated PartVersion);
  if negb (of_byte version =? inviteVersion)%N then mret (Err (BadVersion version))
  else
    numAddrs ←? ReadByte (Truncated PartAddrCount);
    addrs ←? decode_addrs (N.to_nat (of_byte numAddrs)) 0;
    psk ←? ReadFull pskLen (Truncated PartPSK);
    left ← gets String.length;
    label ←? ReadFull left (Truncated PartLabel);
    mret (Ok (mkInvite _ addrs psk label)).

Definition DecodeInvite (s : string) : res InviteError Invite :=
  match cut_prefix inviteScheme (TrimSpace s) with
  | None => Err BadScheme
  | Some rest =>
      match base58_Decode rest with
      | None => Err BadBase58
      | Some raw => result decode_payload raw
      end
  end.
End invite.

(** ** [invite_apply.go] *)

Definition containsString (list : list string) (s : string) : bool :=
  existsb (λ v, String.eqb v s) list.

Inductive ApplyError := ApplyBadPSK | WritePSK.

(** The loop over the addresses. *)
Fixpoint merge_addrs (addrs : list string) (peers : list string) : list string :=
  match addrs with
  | [] => peers
  | s :: addrs => merge_addrs addrs (if containsString peers s then peers else peers ++ [s])
  end.

(** The new configuration is returned; the code assigns it through the pointer. *)
Definition ApplyInvite `{OSEnv} `{MultiaddrLib} (cfg : Config) (inv : Invite) (pskPath : string) :
    prog FS (res ApplyError Config) :=
  let pskPath := if String.eqb pskPath "" then "./network.psk" else pskPath in
  if negb (String.length (PSK inv) =? pskLen) then mret (Err ApplyBadPSK)
  else
    w ← WriteFile pskPath (PSK inv);
    match w with
    | Err _ => mret (Err WritePSK)
    | Ok _ =>
        mret (Ok (set_network ModePrivate pskPath
          (if String.eqb (Label inv) "" then NetworkID cfg else Label inv)
          (merge_addrs (ma_String <$> Multiaddrs inv) (BootstrapPeers cfg)) cfg))
    end.

(** ** Lemmas *)

Section invite_lemmas.
Context `{M : MultiaddrLib} `{B : Base58}.

Lemma run_ReadByte e a r : run (ReadByte e) (String a r) = (r, Ok a).
Proof. done. Qed.

Lemma run_ReadFull s e r : run (ReadFull (String.length s) e) (s +:+ r) = (r, Ok s).
Proof. unfold ReadFull. by rewrite run_atomic, split_at_append. Qed.

Lemma run_ReadFull_2 a b e r : run (ReadFull 2 e) (String a (String b r)) = (r, Ok (String a (String b ""))).
Proof. done. Qed.

Lemma decode_encode_addrs l i enc r :
  Forall addr_ok l → encode_addrs l = Ok enc →
  run (decode_addrs (length l) i) (enc +:+ r) = (r, Ok l).
Proof.
  revert i enc. induction l as [|a l IH]; intros i enc Hl He; cbn in He; [by simplify_eq|].
  apply Forall_cons in Hl as [Ha Hl]. destruct (_ <? _)%N eqn:El in He; [done|].
  destruct (encode_addrs l) as [rest|] eqn:Er; [|done]. simplify_eq. apply N.ltb_ge in El.
  cbn [length decode_addrs]. unfold PutUint16. rewrite !append_assoc, !append_cons.
  rewrite run_try, run_ReadFull_2, Uint16_PutUint16, Nat2N.id by done.
  change ("" +:+ ?x) with x. rewrite run_try, run_ReadFull, Ha, run_try, IH by done. done.
Qed.

Lemma decode_encode_payload n addrs inv :
  Forall addr_ok (Multiaddrs inv) → encode_addrs (Multiaddrs inv) = Ok addrs →
  String.length (PSK inv) = pskLen → length (Multiaddrs inv) <= 255 → n = N.of_nat (length (Multiaddrs inv)) →
  result decode_payload
    (String (to_byte inviteVersion) (String (to_byte n) (addrs +:+ PSK inv +:+ Label inv))) = Ok inv.
Proof.
  intros Hok He Hpsk Hlen ->. unfold result, decode_payload.
  rewrite run_try, run_ReadByte, of_to_byte by done. rewrite N.eqb_refl. cbn [negb].
  rewrite run_try, run_ReadByte, of_to_byte by lia. rewrite run_try, Nat2N.id.
  rewrite (decode_encode_addrs _ _ _ _ Hok He), <- Hpsk, run_try, run_ReadFull, run_bind, run_gets.
  cbn [fst snd]. rewrite run_try.
  rewrite <- (append_empty_r (Label inv)) at 2. rewrite run_ReadFull. by destruct inv.
Qed.

(** The text of an invite has no white space at its ends. *)
Lemma alphabet_printable a :
  a ∈ String.list_ascii_of_string base58_alphabet → printable a = true.
Proof.
  assert (Hall : forallb printable (String.list_ascii_of_string base58_alphabet) = true) by reflexivity.
  rewrite forallb_forall in Hall. intros Hin. by apply Hall, list_elem_of_In.
Qed.

Lemma invite_text_trimmed `{!Base58Laws B} ws1 ws2 b :
  Forall (λ w, is_space w = true) ws1 → Forall (λ w, is_space w = true) ws2 →
  TrimSpace (concat_strings ws1 +:+ (inviteScheme +:+ base58_Encode b) +:+ concat_strings ws2)
    = inviteScheme +:+ base58_Encode b.
Proof.
  intros H1 H2.
  set (m := String.list_ascii_of_string "snode://v1/" ++ String.list_ascii_of_string (base58_Encode b)).
  assert (Hlast : ∃ z, last (ascii_of_nat 112 :: m) = Some z ∧ printable z = true).
  { pose proof (base58_chars b) as Hc. subst m.
    destruct (String.list_ascii_of_string (base58_Encode b)) as [|x l] eqn:E using rev_ind.
    - exists (ascii_of_nat 47). done.
    - clear IHl. rewrite app_comm_cons, (assoc_L app), last_snoc. exists x. split; [done|].
      apply alphabet_printable. rewrite Forall_forall in Hc. apply Hc. set_solver. }
  destruct Hlast as (z & Hz & Hp).
  apply (TrimSpace_around ws1 ws2 _ (ascii_of_nat 112) z m); [done|done| |done|done|done].
  by rewrite list_of_append.
Qed.
End invite_lemmas.

Section decode_lemmas.
Context `{M : MultiaddrLib} `{B : Base58}.

(** The addresses as they are framed in the payload. *)
Definition frames (bs : list bytes) : bytes :=
  concat_strings ((λ b, PutUint16 (N.of_nat (String.length b)) +:+ b) <$> bs).

Lemma run_ReadByte_Ok e r r' a : run (ReadByte e) r = (r', Ok a) → r = String a r'.
Proof. unfold ReadByte. rewrite run_atomic. by destruct r; intros [= -> ->]. Qed.

Lemma run_ReadFull_Ok n e r r' x :
  run (ReadFull n e) r = (r', Ok x) → r = x +:+ r' ∧ String.length x = n.
Proof.
  unfold ReadFull. rewrite run_atomic. destruct (split_at n r) as [[y z]|] eqn:E; [|done].
  intros [= -> ->]. by apply split_at_Some.
Qed.

Lemma decode_addrs_Ok k i r r' l :
  run (decode_addrs k i) r = (r', Ok l) →
  ∃ bs, Forall2 (λ b a, NewMultiaddrBytes b = Some a) bs l ∧ length l = k ∧ r = frames bs +:+ r'.
Proof.
  revert i r l. induction k as [|k IH]; intros i r l; cbn [decode_addrs].
  { intros [= -> <-]. by exists []. }
  rewrite run_try. destruct (run (ReadFull 2 _) r) as [r1 [lb|]] eqn:E1; [|done].
  apply run_ReadFull_Ok in E1 as [-> Hlb].
  destruct lb as [|hi [|lo [|? ?]]]; [done|done| |done].
  rewrite run_try. destruct (run (ReadFull _ _) r1) as [r2 [ab|]] eqn:E2; [|done].
  apply run_ReadFull_Ok in E2 as [-> Hab].
  destruct (NewMultiaddrBytes ab) as [a|] eqn:Ea; [|done].
  rewrite run_try. destruct (run (decode_addrs k (S i)) r2) as [r3 [l'|]] eqn:E3; [|done].
  intros [= <- <-]. apply IH in E3 as (bs & Hbs & Hlen & ->).
  exists (ab :: bs). split_and!; [by constructor|by cbn; f_equal|].
  unfold frames. rewrite fmap_cons. cbn [concat_strings].
  rewrite Hab, N2Nat.id, PutUint16_Uint16, !append_cons, !append_assoc. done.
Qed.

Lemma decode_payload_Ok raw inv :
  result decode_payload raw = Ok inv →
  ∃ bs, Forall2 (λ b a, NewMultiaddrBytes b = Some a) bs (Multiaddrs inv) ∧
    length (Multiaddrs inv) <= 255 ∧ String.length (PSK inv) = pskLen ∧
    raw = String (to_byte inviteVersion) (String (to_byte (N.of_nat (length (Multiaddrs inv))))
      (frames bs +:+ PSK inv +:+ Label inv)).
Proof.
  unfold result, decode_payload. rewrite run_try.
  destruct (run (ReadByte _) raw) as [r1 [v|]] eqn:E1; [|done]. apply run_ReadByte_Ok in E1 as ->.
  destruct (N.eqb_spec (of_byte v) inviteVersion) as [Hv|]; [|done]. cbn [negb]. rewrite run_try.
  destruct (run (ReadByte _) r1) as [r2 [n|]] eqn:E2; [|done]. apply run_ReadByte_Ok in E2 as ->.
  rewrite run_try. destruct (run (decode_addrs _ _) r2) as [r3 [l|]] eqn:E3; [|done].
  apply decode_addrs_Ok in E3 as (bs & Hbs & Hlen & ->). rewrite run_try.
  destruct (run (ReadFull _ _) r3) as [r4 [psk|]] eqn:E4; [|done]. apply run_ReadFull_Ok in E4 as [-> Hpsk].
  go_gets. rewrite run_try.
  destruct (run (ReadFull _ _) r4) as [r5 [label|]] eqn:E5; [|done].
  apply run_ReadFull_Ok in E5 as [-> Hlabel]. intros [= <-]. cbn [Multiaddrs PSK Label].
  exists bs. split_and!; [done| |done|].
  - pose proof (of_byte_lt n). lia.
  - rewrite Hlen, N2Nat.id, <- Hv, !to_of_byte. do 4 f_equal.
    rewrite length_append in Hlabel. destruct r5; [by rewrite append_empty_r|]. cbn in Hlabel. lia.
Qed.
End decode_lemmas.

(** ** Theorems *)

(** An invite survives the trip: what [EncodeInvite] produced decodes to the
    same addresses, key and label, even with white space pasted around it. *)
Lemma invite_roundtrip `{M : MultiaddrLib} `{B : Base58, !Base58Laws B} (inv : Invite) (s : string)
    (ws1 ws2 : list string)
    (Haddrs : Forall addr_ok (Multiaddrs inv)) (Henc : EncodeInvite inv = Ok s)
    (H1 : Forall (λ w, is_space w = true) ws1) (H2 : Forall (λ w, is_space w = true) ws2) :
  DecodeInvite (concat_strings ws1 +:+ s +:+ concat_strings ws2) = Ok inv.
Proof.
  unfold EncodeInvite in Henc. destruct (Nat.eqb_spec (String.length (PSK inv)) pskLen); [|done].
  cbn [negb] in Henc. destruct (length (Multiaddrs inv) =? 0) eqn:E0; [done|].
  destruct (Nat.ltb_spec 255 (length (Multiaddrs inv))); [done|].
  destruct (encode_addrs (Multiaddrs inv)) as [addrs|] eqn:Ea; [|done].
  injection Henc as <-. unfold DecodeInvite. rewrite invite_text_trimmed, cut_prefix_append by done.
  rewrite base58_roundtrip. by apply decode_encode_payload.
Qed.

(** [EncodeInvite] succeeds exactly on what fits the format: a key of 32 bytes
    and between 1 and 255 addresses of at most 65535 bytes each; otherwise it
    names the first thing that does not fit. *)
Theorem encode_invite_spec `{M : MultiaddrLib} `{B : Base58} (inv : Invite) :
  let psk_ok := String.length (PSK inv) = pskLen in
  let fits := Forall (λ a, (N.of_nat (String.length (ma_Bytes a)) <= 65535)%N) (Multiaddrs inv) in
  match EncodeInvite inv with
  | Ok s => psk_ok ∧ 1 <= length (Multiaddrs inv) <= 255 ∧ fits ∧ ∃ b, s = inviteScheme +:+ base58_Encode b
  | Err (BadPSK n) => n = String.length (PSK inv) ∧ ¬ psk_ok
  | Err NoMultiaddr => psk_ok ∧ Multiaddrs inv = []
  | Err TooManyMultiaddrs => psk_ok ∧ 255 < length (Multiaddrs inv)
  | Err MultiaddrTooLong => psk_ok ∧ 1 <= length (Multiaddrs inv) <= 255 ∧ ¬ fits
  | Err _ => False
  end.
Proof.
  cbn zeta. unfold EncodeInvite. destruct (Nat.eqb_spec (String.length (PSK inv)) pskLen) as [Hk|]; [|done].
  cbn [negb]. destruct (Multiaddrs inv) as [|a0 l0] eqn:El; [done|]. rewrite <- El.
  assert (Hlen : 1 <= length (Multiaddrs inv)) by (rewrite El; cbn; lia).
  rewrite (proj2 (Nat.eqb_neq _ _)) by lia.
  destruct (Nat.ltb_spec 255 (length (Multiaddrs inv))); [done|]. clear El a0 l0.
  assert (Henc : match encode_addrs (Multiaddrs inv) with
    | Ok _ => Forall (λ a, (N.of_nat (String.length (ma_Bytes a)) <= 65535)%N) (Multiaddrs inv)
    | Err e => e = MultiaddrTooLong ∧
        ¬ Forall (λ a, (N.of_nat (String.length (ma_Bytes a)) <= 65535)%N) (Multiaddrs inv)
    end).
  { clear. induction (Multiaddrs inv) as [|a l IH]; [by constructor|]. cbn.
    destruct (N.ltb_spec 65535 (N.of_nat (String.length (ma_Bytes a)))).
    - split; [done|]. intros [? ?]%Forall_cons. lia.
    - destruct (encode_addrs l) as [r|e]; [by constructor|]. destruct IH as [-> IH]. split; [done|].
      by intros [? ?]%Forall_cons. }
  destruct (encode_addrs (Multiaddrs inv)) as [addrs|e].
  - split_and!; eauto.
  - destruct Henc as [-> Hn]. split_and!; done.
Qed.

(** [DecodeInvite] is exact: it accepts a text only if, trimmed, it is the scheme
    followed by base58 of the version, a count, that many framed addresses the
    address library accepts, a 32-byte key and a label; nothing is skipped and
    nothing is left over. *)
Theorem decode_invite_exact `{M : MultiaddrLib} `{B : Base58} (s : string) (inv : Invite)
    (Hdec : DecodeInvite s = Ok inv) :
  ∃ text raw bs,
    TrimSpace s = inviteScheme +:+ text ∧ base58_Decode text = Some raw ∧
    Forall2 (λ b a, NewMultiaddrBytes b = Some a) bs (Multiaddrs inv) ∧
    length (Multiaddrs inv) <= 255 ∧ String.length (PSK inv) = pskLen ∧
    raw = String (to_byte inviteVersion) (String (to_byte (N.of_nat (length (Multiaddrs inv))))
      (frames bs +:+ PSK inv +:+ Label inv)).
Proof.
  unfold DecodeInvite in Hdec. destruct (cut_prefix inviteScheme (TrimSpace s)) as [text|] eqn:Ec; [|done].
  destruct (base58_Decode text) as [raw|] eqn:Eb; [|done].
  apply cut_prefix_Some in Ec. apply decode_payload_Ok in Hdec as (bs & ? & ? & ? & ?).
  exists text, raw, bs. done.
Qed.

(** ** Applying an invite *)

Lemma containsString_spec l s : containsString l s = true ↔ s ∈ l.
Proof.
  unfold containsString. rewrite existsb_exists. split.
  - intros (x & Hin & ->%String.eqb_eq). by apply list_elem_of_In.
  - intros ?. exists s. split; [by apply list_elem_of_In|apply String.eqb_refl].
Qed.

(** What merging adds: the old list stays in front, everything is there, and
    nothing twice. *)
Lemma merge_addrs_spec addrs peers :
  peers `prefix_of` merge_addrs addrs peers ∧
  (∀ s, s ∈ merge_addrs addrs peers ↔ s ∈ peers ∨ s ∈ addrs) ∧
  (NoDup peers → NoDup (merge_addrs addrs peers)).
Proof.
  revert peers. induction addrs as [|s addrs IH]; intros peers; cbn [merge_addrs]; [set_solver|].
  destruct (containsString peers s) eqn:E.
  - apply containsString_spec in E. destruct (IH peers) as (? & ? & ?). set_solver.
  - destruct (IH (peers ++ [s])) as (Hp & Hin & Hnd). split_and!.
    + etrans; [by apply prefix_app_r|done].
    + set_solver.
    + intros Hnp. apply Hnd. apply NoDup_app. split_and!; [done| |apply NoDup_singleton].
      intros x Hx ->%list_elem_of_singleton. apply containsString_spec in Hx. congruence.
Qed.

Lemma merge_addrs_present addrs peers : (∀ s, s ∈ addrs → s ∈ peers) → merge_addrs addrs peers = peers.
Proof.
  revert peers. induction addrs as [|s addrs IH]; intros peers Hin; [done|]. cbn [merge_addrs].
  rewrite (proj2 (containsString_spec peers s)) by set_solver. apply IH. set_solver.
Qed.

(** The path [ApplyInvite] writes the key to. *)
Definition psk_target (pskPath : string) : string := if String.eqb pskPath "" then "./network.psk" else pskPath.

Lemma ApplyInvite_ok `{OSEnv} `{M : MultiaddrLib} cfg inv pskPath fs fs' cfg' :
  run (ApplyInvite cfg inv pskPath) fs = (fs', Ok cfg') →
  String.length (PSK inv) = pskLen ∧ files fs' = <[psk_target pskPath := PSK inv]> (files fs) ∧
  cfg' = set_network ModePrivate (psk_target pskPath)
    (if String.eqb (Label inv) "" then NetworkID cfg else Label inv)
    (merge_addrs (ma_String <$> Multiaddrs inv) (BootstrapPeers cfg)) cfg.
Proof.
  unfold ApplyInvite. fold (psk_target pskPath).
  destruct (Nat.eqb_spec (String.length (PSK inv)) pskLen); [|done]. cbn [negb]. rewrite run_bind.
  destruct (run (WriteFile _ _) fs) as [s [[]|]] eqn:E; [|done]. intros [= -> <-].
  split; [done|]. split; [by eapply WriteFile_ok|done].
Qed.

(** Joining keeps a configuration valid exactly when there is an entry point. *)
Lemma joined_valid_iff cfg psk id addrs :
  valid cfg → psk ≠ "" →
  (valid (set_network ModePrivate psk id (merge_addrs addrs (BootstrapPeers cfg)) cfg) ↔
     BootstrapPeers cfg ≠ [] ∨ addrs ≠ []).
Proof.
  intros (_ & Hp & Hl & Hmp & Hma) Hpsk. destruct (merge_addrs_spec addrs (BootstrapPeers cfg)) as (_ & Hin & _).
  set (peers := merge_addrs _ _) in *.
  assert (Hne : peers ≠ [] ↔ BootstrapPeers cfg ≠ [] ∨ addrs ≠ []).
  { destruct peers as [|x l]; [|split; [intros _|done]].
    - split; [done|]. destruct (BootstrapPeers cfg) as [|x l]; [|set_solver]. destruct addrs; set_solver.
    - destruct (BootstrapPeers cfg); [|by left]. right. intros ->. set_solver. }
  rewrite <- Hne. unfold valid. cbn [set_network APIPort ListenAddrs MaxPeers MaxAppConnections]. split.
  - intros (Hm & _). by destruct Hm.
  - intros Hne'. split; [by apply private_ok|done].
Qed.

Lemma psk_target_ne path : psk_target path ≠ "".
Proof. unfold psk_target. by destruct (String.eqb_spec path ""). Qed.

(** Accepting an invite makes the configuration join its network: the key file
    read back is the invite's key; the mode is private; the network is the
    label, if there is one; the entry points are the old ones followed by the
    invite's, none lost and none twice; the result is valid exactly when there is
    an entry point and the rest was in order; and accepting it again changes
    nothing but the number of writes. *)
Theorem apply_invite_spec `{OSEnv} `{M : MultiaddrLib} (cfg cfg' : Config) (inv : Invite)
    (pskPath : string) (fs fs' : FS)
    (Happly : run (ApplyInvite cfg inv pskPath) fs = (fs', Ok cfg')) :
  (∀ n, read_fails n (PSKPath cfg') = false →
     run (LoadPSK (PSKPath cfg')) (mkFS (files fs') n) = (mkFS (files fs') (S n), Ok (PSK inv))) ∧
  NetworkMode cfg' = ModePrivate ∧
  (Label inv ≠ "" → NetworkID cfg' = Label inv) ∧
  BootstrapPeers cfg `prefix_of` BootstrapPeers cfg' ∧
  (∀ s, s ∈ BootstrapPeers cfg' ↔ s ∈ BootstrapPeers cfg ∨ s ∈ ma_String <$> Multiaddrs inv) ∧
  (NoDup (BootstrapPeers cfg) → NoDup (BootstrapPeers cfg')) ∧
  (valid cfg → (valid cfg' ↔ BootstrapPeers cfg ≠ [] ∨ Multiaddrs inv ≠ [])) ∧
  (∀ fs1 fs2 cfg2, run (ApplyInvite cfg' inv (PSKPath cfg')) fs1 = (fs2, Ok cfg2) → cfg2 = cfg').
Proof.
  apply ApplyInvite_ok in Happly as (Hpsk & Hfile & ->).
  destruct (merge_addrs_spec (ma_String <$> Multiaddrs inv) (BootstrapPeers cfg)) as (Hpre & Hin & Hnd).
  pose proof (psk_target_ne pskPath) as Hpath.
  cbn [set_network PSKPath NetworkMode NetworkID BootstrapPeers]. split_and!; try done.
  - intros n Hn. unfold LoadPSK. go_read. cbn [files ops].
    rewrite Hfile, lookup_insert_eq, Hn. by rewrite Hpsk.
  - intros Hl. by rewrite (proj2 (String.eqb_neq _ _) Hl).
  - intros Hv. rewrite joined_valid_iff by done. destruct (Multiaddrs inv); naive_solver.
  - intros fs1 fs2 cfg2 Hagain. apply ApplyInvite_ok in Hagain as (_ & _ & ->).
    cbn [set_network PSKPath NetworkMode NetworkID BootstrapPeers].
    assert (Htgt : psk_target (psk_target pskPath) = psk_target pskPath).
    { unfold psk_target at 1. by rewrite (proj2 (String.eqb_neq _ _) Hpath). }
    rewrite Htgt, (merge_addrs_present _ (merge_addrs _ _)).
    + unfold set_network. cbn. f_equal. by destruct (String.eqb (Label inv) "").
    + intros s Hs. apply Hin. by right.
Qed.


(** ** Concrete libraries and inputs *)

(** The bits of the bytes, in two letters of the alphabet. *)
Definition bit_char (b : bool) : ascii := if b then ascii_of_nat 50 else ascii_of_nat 49.
Definition char_bit (a : ascii) : bool := Ascii.eqb a (ascii_of_nat 50).

Fixpoint bits58 (s : string) : string :=
  match s with
  | "" => ""
  | String (Ascii a b c d e f g h) s =>
      String (bit_char a) (String (bit_char b) (String (bit_char c) (String (bit_char d)
        (String (bit_char e) (String (bit_char f) (String (bit_char g) (String (bit_char h) (bits58 s))))))))
  end.

Fixpoint unbits58 (s : string) : option string :=
  match s with
  | "" => Some ""
  | String a (String b (String c (String d (String e (String f (String g (String h s))))))) =>
      r ← unbits58 s;
      Some (String (Ascii (char_bit a) (char_bit b) (char_bit c) (char_bit d)
                      (char_bit e) (char_bit f) (char_bit g) (char_bit h)) r)
  | _ => None
  end.

Definition plain_base58 : Base58 := {| base58_Encode := bits58; base58_Decode := unbits58 |}.

Lemma char_bit_char b : char_bit (bit_char b) = b.
Proof. by destruct b. Qed.

#[export] Instance plain_base58_laws : Base58Laws plain_base58.
Proof.
  split.
  - intros b. cbn [base58_Decode base58_Encode plain_base58].
    induction b as [|[a b c d e f g h] s IH]; [done|]. cbn [bits58 unbits58].
    by rewrite IH, !char_bit_char.
  - intros b. cbn [base58_Encode plain_base58].
    assert (Hb : ∀ x, bit_char x ∈ String.list_ascii_of_string base58_alphabet).
    { intros x. apply (bool_decide_unpack _). by destruct x; vm_compute. }
    induction b as [|[a b c d e f g h] s IH]; [constructor|]. cbn [bits58 String.list_ascii_of_string].
    repeat (constructor; [apply Hb|]). exact IH.
Qed.

Definition some_psk : bytes := "0123456789abcdef0123456789abcdef".
Definition some_invite : @Invite plain_multiaddr :=
  @mkInvite plain_multiaddr ["/dns4/a/tcp/1"; "/dns4/b/tcp/2"] some_psk "home".
Definition some_text : string :=
  match @EncodeInvite plain_multiaddr plain_base58 some_invite with Ok s => s | Err _ => "" end.

Lemma decode_invite_exact_witness :
  ∃ text raw bs,
    TrimSpace some_text = inviteScheme +:+ text ∧ @base58_Decode plain_base58 text = Some raw ∧
    Forall2 (λ b a, @NewMultiaddrBytes plain_multiaddr b = Some a) bs (Multiaddrs some_invite) ∧
    length (Multiaddrs some_invite) <= 255 ∧ String.length (PSK some_invite) = pskLen ∧
    raw = String (to_byte inviteVersion) (String (to_byte (N.of_nat (length (Multiaddrs some_invite))))
      (frames bs +:+ PSK some_invite +:+ Label some_invite)).
Proof. apply (@decode_invite_exact plain_multiaddr plain_base58 some_text some_invite). by vm_compute. Defined.

Lemma apply_invite_spec_witness :
  let fs := mkFS ∅ 0 in
  let fs' := exec (@ApplyInvite reliable plain_multiaddr Default some_invite "") fs in
  let cfg' := set_network ModePrivate "./network.psk" "home" ["/dns4/a/tcp/1"; "/dns4/b/tcp/2"] Default in
  run (@LoadPSK reliable "./network.psk") (mkFS (files fs') 0) = (mkFS (files fs') 1, Ok some_psk) ∧
  (valid Default → (valid cfg' ↔ BootstrapPeers Default ≠ [] ∨ Multiaddrs some_invite ≠ [])).
Proof.
  cbn zeta.
  destruct (@apply_invite_spec reliable plain_multiaddr Default
    (set_network ModePrivate "./network.psk" "home" ["/dns4/a/tcp/1"; "/dns4/b/tcp/2"] Default)
    some_invite "" (mkFS ∅ 0) _ eq_refl) as (Hpsk & _ & _ & _ & _ & _ & Hvalid & _).
  split; [by apply (Hpsk 0)|exact Hvalid].
Defined.

