(* ===== verification/Card.v ===== *)
(** * Network cards ([internal/network/card.go], [store.go], [networks.go])

    Signed descriptions of networks: signing and checking them, the database
    they are kept in, and how they arrive, by gossip and from a directory. *)

From S2P Require Import Prelude GoTime Prog GoStrings Packet Json JsonCodec Encoding Presence.

#[local] Open Scope string_scope.
#[local] Open Scope list_scope.
#[local] Open Scope Z_scope.

(** [type NetworkCard struct]; a [nil] list ([None]) and an empty one encode
    differently. *)
Record NetworkCard := mkCard {
  card_ID : string;
  card_Name : string;
  card_Description : string;
  card_BootstrapPeers : option (list string);
  card_NodeCountHint : Z;
  card_CreatedBy : string;
  card_CreatedAt : Z;
  card_Signature : string
}.

#[export] Instance NetworkCard_eq_dec : EqDecision NetworkCard.
Proof. solve_decision. Defined.

Definition zero_card : NetworkCard := mkCard "" "" "" None 0 "" 0 "".

Definition enc_card (c : NetworkCard) : json :=
  JObj [("id", JStr (card_ID c)); ("name", JStr (card_Name c));
        ("description", JStr (card_Description c));
        ("bootstrap_peers", enc_slice (card_BootstrapPeers c));
        ("node_count_hint", JInt (card_NodeCountHint c)); ("created_by", JStr (card_CreatedBy c));
        ("created_at", JInt (card_CreatedAt c)); ("signature", JStr (card_Signature c))].

Definition dec_card (v : json) : option NetworkCard :=
  dec_struct zero_card (λ kvs,
    i ← dec_string "id" kvs; n ← dec_string "name" kvs; d ← dec_string "description" kvs;
    b ← dec_slice "bootstrap_peers" kvs; h ← dec_int "node_count_hint" kvs;
    cb ← dec_string "created_by" kvs; ca ← dec_int "created_at" kvs; s ← dec_string "signature" kvs;
    Some (mkCard i n d b h cb ca s)) v.

(** go-libp2p: [core/crypto], and the functions of [core/peer] on keys. *)
Class Crypto := {
  PrivKey : Type;
  PubKey : Type;
  IDFromPrivateKey : PrivKey → option peerID;
  ExtractPublicKey : peerID → option PubKey;
  Sign : PrivKey → bytes → option bytes;
  Verify : PubKey → bytes → bytes → option bool
}.

(** What the code relies on, for the Ed25519 keys it uses: the identifier of a
    key is one, the public key can be extracted from it, and a signature is
    accepted. *)
Class CryptoLaws (L : PeerLib) (C : Crypto) := {
  key_id_valid k i : IDFromPrivateKey k = Some i → IDFromBytes i = Some i;
  key_verifies k i m s :
    IDFromPrivateKey k = Some i → Sign k m = Some s →
    ∃ pub, ExtractPublicKey i = Some pub ∧ Verify pub m s = Some true;
  sign_nonempty k m s : Sign k m = Some s → s ≠ ""
}.

Definition set_Signature (s : string) (c : NetworkCard) : NetworkCard :=
  mkCard (card_ID c) (card_Name c) (card_Description c) (card_BootstrapPeers c)
    (card_NodeCountHint c) (card_CreatedBy c) (card_CreatedAt c) s.
Definition set_CreatedBy (p : string) (c : NetworkCard) : NetworkCard :=
  mkCard (card_ID c) (card_Name c) (card_Description c) (card_BootstrapPeers c)
    (card_NodeCountHint c) p (card_CreatedAt c) (card_Signature c).

Inductive SignError := DeriveID | SignFails.
Inductive VerifyError :=
| NoSignature | BadCreatedBy | NoPublicKey | BadSignatureEncoding | VerifyFails | WrongSignature.

Section card.
Context `{PeerLib} `{Crypto}.

Definition signingBytes (c : NetworkCard) : bytes := json_Marshal (enc_card (set_Signature "" c)).

(** The card is returned; the code assigns its fields through the pointer. *)
Definition SignNetworkCard (c : NetworkCard) (priv : PrivKey) : res SignError NetworkCard :=
  match IDFromPrivateKey priv with
  | None => Err DeriveID
  | Some pid =>
      let c := set_CreatedBy (IDString pid) c in
      match Sign priv (signingBytes c) with
      | None => Err SignFails
      | Some sig => Ok (set_Signature (base64_EncodeToString sig) c)
      end
  end.

(** [None] is a [nil] error. *)
Definition VerifyNetworkCard (c : NetworkCard) : option VerifyError :=
  if String.eqb (card_Signature c) "" then Some NoSignature
  else
    match Decode (card_CreatedBy c) with
    | None => Some BadCreatedBy
    | Some pid =>
        match ExtractPublicKey pid with
        | None => Some NoPublicKey
        | Some pub =>
            match base64_DecodeString (card_Signature c) with
            | None => Some BadSignatureEncoding
            | Some sig =>
                match Verify pub (signingBytes c) sig with
                | None => Some VerifyFails
                | Some false => Some WrongSignature
                | Some true => None
                end
            end
        end
    end.
End card.

(** ** The store *)

(** The bucket of the database, and the number of transactions so far. A value
    is the JSON text that was put ([None] if it is not JSON). *)
Record NetStore := mkNetStore { bucket : gmap string (option json); txs : nat }.

(** bbolt: the [n]-th transaction, a put of this key or a view, fails. *)
Class Bolt := {
  put_fails : nat → string → bool;
  view_fails : nat → bool
}.

Inductive StoreError := StoreIO | StoreDecode.

(** [bucket.ForEach] goes through the keys in byte order. *)
Definition key_le (a b : string * option json) : Prop := String.le a.1 b.1.
#[export] Instance key_le_dec : RelDecision key_le := λ a b, decide (String.le a.1 b.1).

Definition ForEach (m : gmap string (option json)) : list (string * option json) :=
  merge_sort key_le (map_to_list m).

Section store.
Context `{Bolt}.

Definition store_Get (id : string) : prog NetStore (NetworkCard * bool * option StoreError) :=
  atomic (λ st,
    (mkNetStore (bucket st) (S (txs st)),
     if view_fails (txs st) then (zero_card, false, Some StoreIO)
     else
       match bucket st !! id with
       | None => (zero_card, false, None)
       | Some v =>
           match v ≫= dec_card with
           | Some card => (card, true, None)
           | None => (zero_card, true, Some StoreDecode)
           end
       end)).

Definition store_Put (card : NetworkCard) : prog NetStore (option StoreError) :=
  atomic (λ st,
    if put_fails (txs st) (card_ID card)
    then (mkNetStore (bucket st) (S (txs st)), Some StoreIO)
    else (mkNetStore (<[card_ID card := Some (enc_card card)]> (bucket st)) (S (txs st)), None)).

(** The loop of [List]: it stops at the first value that does not decode. *)
Fixpoint list_values (kvs : list (string * option json)) : list NetworkCard * option StoreError :=
  match kvs with
  | [] => ([], None)
  | (_, v) :: kvs =>
      match v ≫= dec_card with
      | None => ([], Some StoreDecode)
      | Some card => let '(out, e) := list_values kvs in (card :: out, e)
      end
  end.

Definition store_List : prog NetStore (list NetworkCard * option StoreError) :=
  atomic (λ st,
    (mkNetStore (bucket st) (S (txs st)),
     if view_fails (txs st) then ([], Some StoreIO) else list_values (ForEach (bucket st)))).
End store.

(** ** Cards arriving *)

(** The answer of the directory server: no answer, or a status and a body. *)
Inductive HttpAnswer := NoAnswer | Answer (status : Z) (body : option json).
Inductive FetchError := FetchFails | BadStatus (status : Z) | BadDirectory.
Inductive AnnounceError := CardInvalid (e : VerifyError) | CardNotStored (e : StoreError).

(** [json.Decoder.Decode] into a [[]NetworkCard]. *)
Definition dec_cards (v : json) : option (list NetworkCard) :=
  match v with
  | JNull => Some []
  | JArr l => mapM dec_card l
  | _ => None
  end.

Section discovery.
Context `{PeerLib} `{Crypto} `{Bolt}.

(** [NetworkDiscovery.Announce]: the card published, if none of the steps
    fails. *)
Definition discovery_Announce (card : NetworkCard) : prog NetStore (res AnnounceError NetworkCard) :=
  match VerifyNetworkCard card with
  | Some e => mret (Err (CardInvalid e))
  | None =>
      r ← store_Put card;
      match r with
      | Some e => mret (Err (CardNotStored e))
      | None => mret (Ok card)
      end
  end.

(** One iteration of [readLoop]: the card published again, if one is. *)
Definition discovery_receive (self : peerID) (msg : gossipMsg) : prog NetStore (option NetworkCard) :=
  if decide (ReceivedFrom msg = self) then mret None
  else
    match v ← Data msg; dec_card v with
    | None => mret None
    | Some card =>
        match VerifyNetworkCard card with
        | Some _ => mret None
        | None =>
            got ← store_Get (card_ID card);
            let '(existing, found, err) := got in
            match err with
            | Some _ => mret None
            | None =>
                if found && (card_CreatedAt card <=? card_CreatedAt existing) then mret None
                else
                  r ← store_Put card;
                  match r with
                  | Some _ => mret None
                  | None => mret (Some card)
                  end
            end
        end
    end.

(** The loop of [FetchDirectory]: the number of cards stored. *)
Fixpoint store_cards (cards : list NetworkCard) (stored : Z) : prog NetStore Z :=
  match cards with
  | [] => mret stored
  | card :: cards =>
      match VerifyNetworkCard card with
      | Some _ => store_cards cards stored
      | None =>
          r ← store_Put card;
          match r with
          | None => store_cards cards (stored + 1)
          | Some _ => store_cards cards stored
          end
      end
  end.

(** [answer] is what requesting the URL gives. *)
Definition FetchDirectory (url : string) (answer : HttpAnswer) : prog NetStore (res FetchError Z) :=
  if String.eqb url "" then mret (Ok 0)
  else
    match answer with
    | NoAnswer => mret (Err FetchFails)
    | Answer status body =>
        if negb (status =? 200) then mret (Err (BadStatus status))
        else
          match v ← body; dec_cards v with
          | None => mret (Err BadDirectory)
          | Some cards => n ← store_cards cards 0; mret (Ok n)
          end
    end.
End discovery.

(** ** Lemmas *)

(** The strings of a card are valid UTF-8. *)
Definition card_utf8 (c : NetworkCard) : bool :=
  forallb utf8_Valid
    ([card_ID c; card_Name c; card_Description c; card_CreatedBy c; card_Signature c] ++
     default [] (card_BootstrapPeers c)).

(** The integers of a card are 64 bits wide. *)
Definition card_wf (c : NetworkCard) : Prop :=
  is_int64 (card_NodeCountHint c) ∧ is_int64 (card_CreatedAt c).

Lemma dec_enc_card (c : NetworkCard) : card_wf c → dec_card (enc_card c) = Some c.
Proof.
  destruct c as [i n d b h cb ca s]. intros [Hh Hca]. cbn in Hh, Hca.
  unfold enc_card, dec_card.
  cbn [card_ID card_Name card_Description card_BootstrapPeers card_NodeCountHint card_CreatedBy
       card_CreatedAt card_Signature dec_struct].
  unfold dec_string, dec_int, dec_slice. json_keys. unfold fill, enc_slice.
  destruct b as [b|]; cbn -[to_int mapM]; rewrite ?mapM_elements, ?to_int_in by done; cbn -[to_int mapM];
    by rewrite ?to_int_in by done.
Qed.

Lemma enc_slice_inj b b' : enc_slice b = enc_slice b' → b = b'.
Proof.
  destruct b as [b|], b' as [b'|]; cbn; intros Heq; try done. f_equal. injection Heq as Heq.
  revert b' Heq. induction b as [|x b IH]; intros [|y b'] Heq; try done. cbn in Heq.
  injection Heq as -> Heq. f_equal. by apply IH.
Qed.

Lemma enc_card_inj c c' : enc_card c = enc_card c' → c = c'.
Proof.
  destruct c, c'. unfold enc_card. cbn -[enc_slice]. intros Heq. injection Heq as ??? Hb ????.
  apply enc_slice_inj in Hb. by subst.
Qed.

Lemma fill_int_range (vs : list json) z : fill 0 to_int vs = Some z → is_int64 z.
Proof.
  unfold fill. assert (H0 : is_int64 0) by (by vm_compute). revert H0. generalize 0 as z0.
  induction vs as [|v vs IH]; intros z0 H0; cbn [foldl]; [by intros [= <-]|].
  cbn [mbind option_bind].
  assert (Hstep : ∀ r, (match v with JNull => Some z0 | _ => to_int v end) = Some r → is_int64 r).
  { intros r Hr. destruct v; try done; [by simplify_eq|]. cbn in Hr.
    destruct (_ && _) eqn:E; [|done]. simplify_eq. zbool. done. }
  destruct (match v with JNull => Some z0 | _ => to_int v end) as [r|] eqn:E.
  - apply IH. by apply Hstep.
  - assert (Hnone : ∀ l, foldl (λ acc v, cur ← acc; match v with JNull => Some cur | _ => to_int v end) None l = None).
    { induction l as [|x l IHl]; [done|]. by cbn. }
    by rewrite Hnone.
Qed.

Lemma dec_card_wf v c : dec_card v = Some c → card_wf c.
Proof.
  unfold dec_card, dec_struct. destruct v; try done; [by intros [= <-]; vm_compute|].
  unfold dec_int. intros Hc.
  repeat match type of Hc with
  | (?x ≫= _) = Some _ => destruct x eqn:?; cbn [mbind option_bind] in Hc; [|done]
  end.
  injection Hc as <-. split; cbn [card_NodeCountHint card_CreatedAt]; by eapply fill_int_range.
Qed.

(** *** Cards as text *)

Lemma integers_enc_card c : integers (enc_card c) = true.
Proof.
  destruct c as [? ? ? [b|] ? ? ? ?]; [|done]. cbn.
  rewrite !andb_true_r. by induction b.
Qed.

Lemma wf_strings d l : forallb (wf_json d) (JStr <$> l) = forallb utf8_Valid l.
Proof. induction l as [|x l IH]; [done|]. cbn [forallb fmap list_fmap wf_json]. by rewrite <- IH. Qed.

Lemma wf_enc_card c : card_utf8 c = true → wf_json maxNestingDepth (enc_card c) = true.
Proof.
  unfold card_utf8. rewrite forallb_app. cbn [forallb]. rewrite !andb_true_iff.
  intros [(Hi & Hn & Hd & Hb & Hs & _) Hp].
  assert (Hpeers : wf_json (N.pred maxNestingDepth) (enc_slice (card_BootstrapPeers c)) = true).
  { destruct (card_BootstrapPeers c) as [b|]; [|done]. cbn [enc_slice wf_json default] in *.
    rewrite wf_strings. apply andb_true_iff. by split. }
  unfold enc_card. cbn [wf_json forallb fst snd]. rewrite Hi, Hn, Hd, Hb, Hs, Hpeers. by vm_compute.
Qed.

Lemma fill_utf8 d vs z :
  forallb (wf_json d) vs = true → utf8_Valid z = true → ∀ r, fill z to_string vs = Some r → utf8_Valid r = true.
Proof.
  unfold fill. revert z. induction vs as [|v vs IH]; intros z Hvs Hz r; cbn [foldl]; [by intros [= <-]|].
  cbn [forallb] in Hvs. apply andb_true_iff in Hvs as [Hv Hvs]. cbn [mbind option_bind].
  assert (Hnone : ∀ l, foldl (λ acc v, cur ← acc; match v with JNull => Some cur | _ => to_string v end) None l = None).
  { induction l as [|x l IHl]; [done|]. by cbn. }
  destruct v; cbn [to_string]; try (by rewrite Hnone); by apply IH.
Qed.

Lemma unsigned_utf8 c : card_utf8 c = true → card_utf8 (set_Signature "" c) = true.
Proof.
  unfold card_utf8. rewrite !forallb_app. cbn [forallb set_Signature card_ID card_Name card_Description card_CreatedBy card_Signature card_BootstrapPeers].
  rewrite !andb_true_iff. naive_solver.
Qed.

(** The members of an object as it is read. *)
Definition wf_members (d : N) (kvs : list (string * json)) : Prop :=
  forallb (λ kv, utf8_Valid kv.1 && wf_json d kv.2) kvs = true.

Lemma wf_obj_values d name kvs : wf_members d kvs → forallb (wf_json d) (obj_values name kvs) = true.
Proof.
  unfold wf_members, obj_values. induction kvs as [|[k v] kvs IH]; [done|]. cbn [forallb fst snd].
  rewrite !andb_true_iff. intros [[_ Hv] Hkvs]. cbn [omap list_omap].
  destruct (String.eqb _ _); cbn [forallb]; [|by apply IH]. by rewrite Hv, IH.
Qed.

Lemma dec_string_utf8 d name kvs r : wf_members d kvs → dec_string name kvs = Some r → utf8_Valid r = true.
Proof. intros Hkvs. unfold dec_string. eapply fill_utf8; [by apply wf_obj_values|done]. Qed.

Lemma elements_utf8 d l r : forallb (wf_json d) l = true → mapM to_element l = Some r → forallb utf8_Valid r = true.
Proof.
  intros Hl Hr%mapM_Some. revert Hl. induction Hr as [|v x l r Hx _ IH]; [done|]. cbn [forallb].
  rewrite !andb_true_iff. intros [Hv Hl]. split; [|by apply IH]. by destruct v; simplify_eq/=.
Qed.

Lemma dec_slice_utf8 d name kvs r :
  wf_members d kvs → dec_slice name kvs = Some r → forallb utf8_Valid (default [] r) = true.
Proof.
  intros Hkvs%(wf_obj_values d name). unfold dec_slice. revert Hkvs.
  induction (obj_values name kvs) as [|v vs IH] using rev_ind; [by intros _ [= <-]|].
  rewrite forallb_app, andb_true_iff. intros [Hvs Hv]. rewrite foldl_snoc.
  destruct (foldl _ _ vs) as [cur|]; [|done]. cbn [mbind option_bind].
  destruct v as [| | | | |l|]; try done; [by intros [= <-]|]. cbn [to_strings fmap option_fmap].
  destruct (mapM to_element l) as [x|] eqn:E; [|done]. intros [= <-]. cbn [forallb wf_json default] in *.
  rewrite !andb_true_iff in Hv. destruct Hv as [[_ Hl] _]. by eapply elements_utf8.
Qed.

(** A card that is read off the wire. *)
Lemma read_card_utf8 s c : json_Unmarshal s ≫= dec_card = Some c → card_utf8 c = true.
Proof.
  destruct (json_Unmarshal s) as [v|] eqn:Es; [|done]. apply unmarshal_wf in Es. cbn [mbind option_bind].
  unfold dec_card, dec_struct. destruct v as [| | | | | |kvs]; try done; [by intros [= <-]; vm_compute|].
  cbn [wf_json] in Es. apply andb_true_iff in Es as [_ Hkvs]. intros Hc.
  repeat match type of Hc with
  | (?x ≫= _) = Some _ => destruct x eqn:?; cbn [mbind option_bind] in Hc; [|done]
  end.
  injection Hc as <-. unfold card_utf8. cbn [card_ID card_Name card_Description card_CreatedBy card_Signature card_BootstrapPeers].
  rewrite forallb_app, andb_true_iff. split; [|by eapply dec_slice_utf8]. cbn [forallb].
  repeat match goal with H : dec_string _ _ = Some _ |- _ => apply (dec_string_utf8 _ _ _ _ Hkvs) in H; rewrite H end. done.
Qed.

(** A signature covers every field of the card. *)
Lemma signature_covers `{L : PeerLib} `{C : Crypto} c c'
    (Hone : ∀ pub m m' s, Verify pub m s = Some true → Verify pub m' s = Some true → m = m') :
  card_utf8 c = true → card_utf8 c' = true → VerifyNetworkCard c = None → VerifyNetworkCard c' = None →
  card_CreatedBy c = card_CreatedBy c' → card_Signature c = card_Signature c' → c = c'.
Proof.
  intros Hu%unsigned_utf8 Hu'%unsigned_utf8 Hver Hver' Hby Hsig. revert Hver Hver'. unfold VerifyNetworkCard. rewrite Hby, Hsig.
  destruct (String.eqb _ _); [done|]. destruct (Decode _) as [pid|]; [|done].
  destruct (ExtractPublicKey pid) as [pub|]; [|done].
  destruct (base64_DecodeString _) as [sig|]; [|done].
  destruct (Verify pub (signingBytes c) sig) as [[]|] eqn:E1; [|done|done].
  destruct (Verify pub (signingBytes c') sig) as [[]|] eqn:E2; [|done|done]. intros _ _.
  pose proof (Hone _ _ _ _ E1 E2) as Hbytes. unfold signingBytes in Hbytes.
  apply marshal_inj, enc_card_inj in Hbytes;
    [|by apply wf_enc_card|apply integers_enc_card|by apply wf_enc_card|apply integers_enc_card].
  unfold set_Signature in Hbytes. destruct c, c'. cbn in *. congruence.
Qed.

(** A card whose strings are text is read as it was sent. *)
Lemma read_print_card c : card_utf8 c = true → card_wf c → json_Unmarshal (json_Marshal (enc_card c)) ≫= dec_card = Some c.
Proof.
  intros Hu Hw. rewrite marshal_unmarshal; [by apply dec_enc_card|by apply wf_enc_card|apply integers_enc_card].
Qed.

Section card_lemmas.
Context `{L : PeerLib} `{C : Crypto} `{BT : Bolt}.

Lemma sign_verify `{!PeerLaws L} `{!CryptoLaws L C} c priv c' :
  SignNetworkCard c priv = Ok c' → VerifyNetworkCard c' = None.
Proof.
  unfold SignNetworkCard. intros Hs. destruct (IDFromPrivateKey priv) as [pid|] eqn:Eid; [|done].
  destruct (Sign priv _) as [sig|] eqn:Esig; [|done]. simplify_eq.
  pose proof (key_id_valid _ _ Eid) as Hvalid.
  destruct (key_verifies _ _ _ _ Eid Esig) as (pub & Hpub & Hver).
  unfold VerifyNetworkCard. cbn [set_Signature card_Signature card_CreatedBy set_CreatedBy].
  destruct (String.eqb_spec (base64_EncodeToString sig) "") as [He|_].
  { exfalso. pose proof (base64_roundtrip sig) as Hb. rewrite He in Hb. cbn in Hb. simplify_eq. by apply sign_nonempty in Esig. }
  rewrite Decode_String by done. rewrite Hpub, base64_roundtrip.
  match goal with |- context [signingBytes ?x] => change (signingBytes x) with (signingBytes (set_CreatedBy (IDString pid) c)) end.
  by rewrite Hver.
Qed.

(** A stored value is the encoding of a card that verifies, under its key. *)
Definition genuine (id : string) (v : option json) : Prop :=
  ∃ c, v = Some (enc_card c) ∧ card_wf c ∧ card_ID c = id ∧ VerifyNetworkCard c = None.

Definition store_ok (st : NetStore) : Prop := map_Forall genuine (bucket st).

#[local] Abbreviation stable := (Prog.stable store_ok).

Lemma store_Get_stable id : stable (store_Get id).
Proof. apply stable_atomic. intros st Hst. exact Hst. Qed.

Lemma store_Put_stable card : card_wf card → VerifyNetworkCard card = None → stable (store_Put card).
Proof.
  intros Hwf Hv. apply stable_atomic. intros st Hst. destruct (put_fails _ _); [exact Hst|].
  unfold store_ok. cbn [fst bucket]. apply map_Forall_insert_2; [|done]. by exists card.
Qed.

Lemma store_cards_stable cards n : Forall card_wf cards → stable (store_cards cards n).
Proof.
  intros Hall. revert n. induction Hall as [|c l Hc _ IH]; intros n; cbn [store_cards]; [apply stable_ret|].
  destruct (VerifyNetworkCard c) eqn:E; [apply IH|].
  apply stable_bind; [by apply store_Put_stable|]. intros [?|]; apply IH.
Qed.

Lemma dec_cards_wf v cards : dec_cards v = Some cards → Forall card_wf cards.
Proof.
  destruct v; try done; cbn; [intros [= <-]; constructor|].
  intros Hm%mapM_Some. induction Hm as [|? ? ? ? Hx _ IH]; constructor; [by eapply dec_card_wf|done].
Qed.

Lemma discovery_receive_stable self msg : stable (discovery_receive self msg).
Proof.
  unfold discovery_receive. case_decide; [apply stable_ret|].
  destruct (v ← Data msg; dec_card v) as [c|] eqn:E; [|apply stable_ret].
  destruct (VerifyNetworkCard c) eqn:Ev; [apply stable_ret|].
  assert (Hwf : card_wf c).
  { destruct (Data msg); cbn in E; [by eapply dec_card_wf|done]. }
  apply stable_bind; [apply store_Get_stable|]. intros [[existing found] [?|]]; [apply stable_ret|].
  destruct (found && _); [apply stable_ret|].
  apply stable_bind; [by apply store_Put_stable|]. intros [?|]; apply stable_ret.
Qed.

Lemma FetchDirectory_stable url answer : stable (FetchDirectory url answer).
Proof.
  unfold FetchDirectory. destruct (String.eqb url ""); [apply stable_ret|].
  destruct answer as [|status body]; [apply stable_ret|].
  destruct (negb _); [apply stable_ret|].
  destruct (v ← body; dec_cards v) as [cards|] eqn:E; [|apply stable_ret].
  apply stable_bind; [|intros; apply stable_ret]. apply store_cards_stable.
  destruct body; cbn in E; [by eapply dec_cards_wf|done].
Qed.

Lemma discovery_Announce_stable card : card_wf card → stable (discovery_Announce card).
Proof.
  intros Hwf. unfold discovery_Announce. destruct (VerifyNetworkCard card) eqn:E; [apply stable_ret|].
  apply stable_bind; [by apply store_Put_stable|]. intros [?|]; apply stable_ret.
Qed.

(** What may run on the store, at any time: the node's own announcements,
    messages, a directory fetch, readers. *)
Inductive card_call (self : peerID) : prog NetStore unit → Prop :=
| call_announce card : card_wf card → card_call self (_ ← discovery_Announce card; mret tt)
| call_receive msg : card_call self (_ ← discovery_receive self msg; mret tt)
| call_fetch url answer : card_call self (_ ← FetchDirectory url answer; mret tt)
| call_list : card_call self (_ ← store_List; mret tt).

Lemma card_call_stable self p : card_call self p → stable p.
Proof.
  intros [card Hwf|msg|url answer|]; (apply stable_bind; [|intros; apply stable_ret]).
  - by apply discovery_Announce_stable.
  - apply discovery_receive_stable.
  - apply FetchDirectory_stable.
  - apply stable_atomic. intros st Hst. exact Hst.
Qed.

(** Reading a sound store. *)
Lemma run_store_Get st id :
  store_ok st → view_fails (txs st) = false →
  (run (store_Get id) st).2 =
    match bucket st !! id ≫= λ v, v ≫= dec_card with
    | Some c => (c, true, None) | None => (zero_card, false, None) end.
Proof.
  intros Hst Hv. unfold store_Get. rewrite run_atomic, Hv. cbn [snd].
  destruct (bucket st !! id) as [v|] eqn:E; [|done]. destruct (Hst id v E) as (c & -> & Hwf & _).
  cbn [mbind option_bind]. by rewrite dec_enc_card.
Qed.

Lemma list_values_ok kvs :
  Forall (λ kv, genuine kv.1 kv.2) kvs →
  (list_values kvs).2 = None ∧
  Forall2 (λ kv c, kv.1 = card_ID c ∧ kv.2 = Some (enc_card c)) kvs (list_values kvs).1.
Proof.
  induction 1 as [|[k v] kvs (c & Hv & Hwf & Hid & _) _ IH]; [by split; [|constructor]|].
  cbn in Hv. subst v. cbn [list_values mbind option_bind]. rewrite dec_enc_card by done.
  destruct (list_values kvs) as [out e]. cbn [fst snd] in IH |- *. destruct IH as [-> IH].
  split; [done|]. by constructor.
Qed.
End card_lemmas.

(** ** Histories of gossip *)

Section card_history.
Context `{L : PeerLib} `{C : Crypto} `{BT : Bolt}.

(** The store after a sequence of messages, and the cards published on the
    way, oldest first. *)
Fixpoint receive_all (self : peerID) (msgs : list gossipMsg) (st : NetStore) : NetStore * list NetworkCard :=
  match msgs with
  | [] => (st, [])
  | msg :: msgs =>
      let '(st, p) := run (discovery_receive self msg) st in
      let '(st, ps) := receive_all self msgs st in
      (st, match p with Some c => c :: ps | None => ps end)
  end.

(** The card a message brings, if the node considers it. *)
Definition offered (self : peerID) (msg : gossipMsg) : option NetworkCard :=
  if decide (ReceivedFrom msg = self) then None
  else
    c ← (v ← Data msg; dec_card v);
    match VerifyNetworkCard c with Some _ => None | None => Some c end.

(** The card stored under an identifier. *)
Definition held (st : NetStore) (id : string) : option NetworkCard :=
  bucket st !! id ≫= λ v, v ≫= dec_card.

Definition newer_than (c : NetworkCard) (o : option NetworkCard) : Prop :=
  match o with Some e => card_CreatedAt e < card_CreatedAt c | None => True end.

Lemma receive_not_offered self msg st : offered self msg = None → run (discovery_receive self msg) st = (st, None).
Proof.
  unfold offered, discovery_receive. case_decide; [done|].
  destruct (v ← Data msg; dec_card v) as [c|]; cbn [mbind option_bind]; [|done].
  by destruct (VerifyNetworkCard c).
Qed.

(** One message: either nothing is stored and nothing published, or the card
    offered is newer than what was held, is stored and published. *)
Lemma receive_cases self msg st st' p :
  store_ok st → run (discovery_receive self msg) st = (st', p) →
  (p = None ∧ bucket st' = bucket st) ∨
  ∃ c, p = Some c ∧ offered self msg = Some c ∧ card_wf c ∧ newer_than c (held st (card_ID c)) ∧
    bucket st' = <[card_ID c := Some (enc_card c)]> (bucket st).
Proof.
  intros Hst Hrun. destruct (offered self msg) as [c|] eqn:Eo.
  2: { rewrite receive_not_offered in Hrun by done. left. by simplify_eq. }
  revert Hrun. unfold offered in Eo. unfold discovery_receive. case_decide; [done|].
  destruct (v ← Data msg; dec_card v) as [c'|] eqn:Ed; cbn [mbind option_bind] in Eo; [|done].
  destruct (VerifyNetworkCard c') eqn:Ev; [done|]. injection Eo as ->. rewrite run_bind.
  assert (Hwf : card_wf c).
  { destruct (Data msg); cbn in Ed; [by eapply dec_card_wf|done]. }
  assert (Hb : bucket (run (store_Get (card_ID c)) st).1 = bucket st) by done.
  destruct (view_fails (txs st)) eqn:Evf.
  { unfold store_Get. rewrite run_atomic, Evf. cbn [fst snd]. intros [= <- <-]. by left. }
  pose proof (run_store_Get st (card_ID c) Hst Evf) as Hget. fold (held st (card_ID c)) in Hget.
  destruct (run (store_Get (card_ID c)) st) as [st1 r]. cbn [fst snd] in *. subst r.
  assert (Hfin : ∀ st2 q, run (r ← store_Put c; match r with Some _ => mret None | None => mret (Some c) end) st1 = (st2, q) →
    newer_than c (held st (card_ID c)) →
    (q = None ∧ bucket st2 = bucket st) ∨
    ∃ c0, q = Some c0 ∧ Some c = Some c0 ∧ card_wf c0 ∧ newer_than c0 (held st (card_ID c0)) ∧
      bucket st2 = <[card_ID c0 := Some (enc_card c0)]> (bucket st)).
  { intros st2 q. rewrite run_bind. unfold store_Put. rewrite run_atomic.
    destruct (put_fails _ _); intros [= <- <-] Hnew; cbn [bucket]; [by left|right].
    exists c. by rewrite Hb. }
  destruct (held st (card_ID c)) as [e|] eqn:Eh; cbn [andb].
  - destruct (Z.leb_spec (card_CreatedAt c) (card_CreatedAt e)).
    + intros [= <- <-]. by left.
    + intros Hr. by apply Hfin.
  - intros Hr. by apply Hfin.
Qed.

Lemma receive_store_ok self msg st st' p :
  store_ok st → run (discovery_receive self msg) st = (st', p) → store_ok st'.
Proof.
  intros Hst Hrun. pose proof (run_safe store_ok _ _ st (discovery_receive_stable self msg) Hst) as [Hok _].
  by rewrite Hrun in Hok.
Qed.

Lemma card_held_insert st c id v :
  card_wf c → held (mkNetStore (<[card_ID c := Some (enc_card c)]> (bucket st)) v) id =
    if decide (card_ID c = id) then Some c else held st id.
Proof.
  intros Hwf. unfold held. cbn [bucket]. rewrite lookup_insert. case_decide; [|done].
  cbn [mbind option_bind]. by rewrite dec_enc_card.
Qed.

Lemma held_bucket st st' id : bucket st' = bucket st → held st' id = held st id.
Proof. unfold held. by intros ->. Qed.

Lemma held_after st st' c id :
  card_wf c → bucket st' = <[card_ID c := Some (enc_card c)]> (bucket st) →
  held st' id = if decide (card_ID c = id) then Some c else held st id.
Proof. intros Hwf Hb. rewrite <- (card_held_insert st c id (txs st')) by done. by apply held_bucket. Qed.

(** Ages go up: each card published is newer than the one held before, and the
    ones published for an identifier are in order of age. *)
Lemma receive_all_increasing self msgs st st' ps id :
  store_ok st → receive_all self msgs st = (st', ps) →
  Forall (λ c, newer_than c (held st id)) (filter (λ c, card_ID c = id) ps) ∧
  StronglySorted (λ c c', card_CreatedAt c < card_CreatedAt c') (filter (λ c, card_ID c = id) ps) ∧
  (∀ e, held st id = Some e → ∃ e', held st' id = Some e' ∧ card_CreatedAt e <= card_CreatedAt e').
Proof.
  revert st ps. induction msgs as [|msg msgs IH]; intros st ps Hst; cbn [receive_all].
  { intros [= <- <-]. split_and!; [constructor|constructor|]. intros e He. exists e. split; [done|lia]. }
  destruct (run (discovery_receive self msg) st) as [st1 p] eqn:E1.
  destruct (receive_all self msgs st1) as [st2 ps2] eqn:E2. intros [= <- <-].
  pose proof (receive_store_ok _ _ _ _ _ Hst E1) as Hst1.
  destruct (IH st1 ps2 Hst1 E2) as (Hnew & Hsort & Hge).
  destruct (receive_cases _ _ _ _ _ Hst E1) as [[-> Hb]|(c & -> & _ & Hwf & Hnewer & Hb)].
  { by rewrite (held_bucket st st1 id Hb) in *. }
  pose proof (held_after st st1 c id Hwf Hb) as Hheld. rewrite Hheld in Hnew, Hge.
  destruct (decide (card_ID c = id)) as [Hid|Hid].
  - rewrite filter_cons_True by done. subst id.
    assert (Hall : Forall (λ c', newer_than c' (held st (card_ID c))) (filter (λ c0, card_ID c0 = card_ID c) ps2)).
    { eapply Forall_impl; [exact Hnew|]. intros c' Hc'. cbn in Hc'.
      destruct (held st (card_ID c)); cbn in *; [lia|done]. }
    split_and!; [by constructor|by constructor|]. intros e He. rewrite He in Hnewer. cbn in Hnewer.
    destruct (Hge c eq_refl) as (e' & He' & Hle). exists e'. split; [done|lia].
  - rewrite filter_cons_False by done. done.
Qed.

(** What is held in the end is the newest of what was held and what was
    offered, when the database works. *)
Lemma receive_all_newest self msgs st st' ps id :
  (∀ n k, put_fails n k = false) → (∀ n, view_fails n = false) →
  store_ok st → receive_all self msgs st = (st', ps) →
  ∀ c, offered self c.1 = Some c.2 → c.1 ∈ msgs → card_ID c.2 = id →
  ∃ e, held st' id = Some e ∧ card_CreatedAt c.2 <= card_CreatedAt e.
Proof.
  intros Hput Hview. revert st ps. induction msgs as [|msg msgs IH]; intros st ps Hst; cbn [receive_all].
  { intros _ [m c] _ Hin. by apply not_elem_of_nil in Hin. }
  destruct (run (discovery_receive self msg) st) as [st1 p] eqn:E1.
  destruct (receive_all self msgs st1) as [st2 ps2] eqn:E2. intros [= <- <-].
  pose proof (receive_store_ok _ _ _ _ _ Hst E1) as Hst1. intros [m c] Ho Hin Hid. cbn [fst snd] in *.
  apply elem_of_cons in Hin as [->|Hin]; [|by apply (IH st1 ps2 Hst1 E2 (m, c))].
  destruct (receive_all_increasing self msgs st1 st2 ps2 id Hst1 E2) as (_ & _ & Hge).
  enough (∃ e, held st1 id = Some e ∧ card_CreatedAt c <= card_CreatedAt e) as (e & He & Hle).
  { destruct (Hge e He) as (e' & He' & Hle'). exists e'. split; [done|lia]. }
  revert E1. unfold offered in Ho. unfold discovery_receive. case_decide; [done|].
  destruct (v ← Data msg; dec_card v) as [c'|] eqn:Ed; cbn [mbind option_bind] in Ho; [|done].
  destruct (VerifyNetworkCard c') eqn:Ev; [done|]. injection Ho as ->. rewrite run_bind.
  assert (Hwf : card_wf c).
  { destruct (Data msg); cbn in Ed; [by eapply dec_card_wf|done]. }
  pose proof (run_store_Get st (card_ID c) Hst (Hview _)) as Hget. fold (held st (card_ID c)) in Hget.
  assert (Hb : bucket (run (store_Get (card_ID c)) st).1 = bucket st) by done.
  destruct (run (store_Get (card_ID c)) st) as [s1 r]. cbn [fst snd] in *. subst r.
  assert (Hstore : ∀ s2 q, run (r ← store_Put c; match r with Some _ => mret None | None => mret (Some c) end) s1 = (s2, q) →
    held s2 id = Some c).
  { intros s2 q. rewrite run_bind. unfold store_Put. rewrite run_atomic, Hput. intros [= <- <-].
    rewrite card_held_insert by done. by rewrite decide_True. }
  destruct (held st (card_ID c)) as [e|] eqn:Eh; cbn [andb].
  - destruct (Z.leb_spec (card_CreatedAt c) (card_CreatedAt e)).
    + intros [= <- <-]. exists e. split; [|done]. rewrite <- Hid. rewrite <- Eh. by apply held_bucket.
    + intros Hr. exists c. split; [by eapply Hstore|lia].
  - intros Hr. exists c. split; [by eapply Hstore|lia].
Qed.

(** Whatever is held was held before or was offered. *)
Lemma receive_all_source self msgs st st' ps id e :
  store_ok st → receive_all self msgs st = (st', ps) → held st' id = Some e →
  held st id = Some e ∨ (card_ID e = id ∧ ∃ msg, msg ∈ msgs ∧ offered self msg = Some e).
Proof.
  revert st ps. induction msgs as [|msg msgs IH]; intros st ps Hst; cbn [receive_all].
  { intros [= <- <-]. by left. }
  destruct (run (discovery_receive self msg) st) as [st1 p] eqn:E1.
  destruct (receive_all self msgs st1) as [st2 ps2] eqn:E2. intros [= <- <-] He.
  pose proof (receive_store_ok _ _ _ _ _ Hst E1) as Hst1.
  destruct (IH st1 ps2 Hst1 E2 He) as [He1|(Hid & m & Hm & Ho)].
  2: { right. split; [done|]. exists m. split; [by right|done]. }
  destruct (receive_cases _ _ _ _ _ Hst E1) as [[-> Hb]|(c & -> & Ho & Hwf & _ & Hb)].
  - left. by rewrite <- (held_bucket st st1 id Hb).
  - rewrite (held_after st st1 c id Hwf Hb) in He1. case_decide as Hid; [|by left]. simplify_eq.
    right. split; [done|]. exists msg. split; [by left|done].
Qed.
End card_history.

(** ** Theorems *)


(** C30. The store only ever holds genuine cards: in every state reachable by any
    interleaving of announcements, received messages, directory fetches and
    readers, from a sound store, listing it succeeds when the database does,
    and gives exactly the cards in it, each accepted by the check and stored
    under its own identifier, no identifier twice. *)
Theorem store_only_verified `{L : PeerLib} `{C : Crypto} `{BT : Bolt}
    (self : peerID) (st0 : NetStore) (c : config)
    (H0 : store_ok st0) (Hr : rtc (cstep (λ _ _, False) (card_call self)) (st0, []) c)
    (Hview : view_fails (txs c.1) = false) :
  let out := (result store_List c.1).1 in
  (result store_List c.1).2 = None ∧
  Forall (λ card, VerifyNetworkCard card = None ∧ held c.1 (card_ID card) = Some card) out ∧
  (∀ id card, held c.1 id = Some card → card ∈ out) ∧
  NoDup (card_ID <$> out).
Proof.
  assert (Hok : store_ok c.1).
  { apply (reachable_invariant (λ _ _, False) (card_call self) store_ok (st0, []) c);
      [done|apply card_call_stable|done|done|constructor]. }
  cbn zeta. unfold result, store_List. rewrite run_atomic, Hview. cbn [snd].
  assert (Hperm : ForEach (bucket c.1) ≡ₚ map_to_list (bucket c.1)) by apply merge_sort_Permutation.
  destruct (list_values_ok (ForEach (bucket c.1))) as [-> Hvals].
  { apply Forall_forall. intros [k v] Hin. rewrite Hperm, elem_of_map_to_list in Hin. by apply Hok. }
  set (out := (list_values _).1) in *.
  assert (Hin : ∀ card, card ∈ out → bucket c.1 !! card_ID card = Some (Some (enc_card card))).
  { intros card Hc. apply list_elem_of_lookup in Hc as [i Hi].
    destruct (Forall2_lookup_r _ _ _ _ _ Hvals Hi) as ([k v] & Hk & Hid & Hv). cbn in Hid, Hv. subst k v.
    apply list_elem_of_lookup_2 in Hk. by rewrite Hperm, elem_of_map_to_list in Hk. }
  split_and!; [done| | |].
  - apply Forall_forall. intros card Hc%Hin. destruct (Hok _ _ Hc) as (c1 & Henc & Hwf & _ & Hver).
    assert (card = c1) as -> by (apply enc_card_inj; congruence).
    split; [done|]. unfold held. rewrite Hc. cbn [mbind option_bind]. by apply dec_enc_card.
  - intros id card Hheld. unfold held in Hheld. destruct (bucket c.1 !! id) as [v|] eqn:Ev; [|done].
    destruct (Hok _ _ Ev) as (c1 & -> & Hwf & Hid & _). cbn [mbind option_bind] in Hheld.
    rewrite dec_enc_card in Hheld by done. injection Hheld as <-.
    assert (Hk : (id, Some (enc_card c1)) ∈ ForEach (bucket c.1)) by (by rewrite Hperm, elem_of_map_to_list).
    apply list_elem_of_lookup in Hk as [i Hi].
    destruct (Forall2_lookup_l _ _ _ _ _ Hvals Hi) as (card & Hc & Hid' & Henc). cbn in Hid', Henc.
    apply list_elem_of_lookup_2 in Hc. by assert (c1 = card) as -> by (apply enc_card_inj; congruence).
  - assert (Hids : card_ID <$> out = (ForEach (bucket c.1)).*1).
    { clear -Hvals. induction Hvals as [|kv card kvs out [Hk _] _ IH]; [done|]. cbn. by rewrite Hk, IH. }
    rewrite Hids, Hperm. apply NoDup_fst_map_to_list.
Qed.

(** Flooding ends: whatever messages arrive, the cards a node passes on for one
    identifier get strictly newer, and newer than the one it held to begin
    with; so it never passes the same card on twice, and what it holds never
    gets older. *)
Theorem flooding_ends `{L : PeerLib} `{C : Crypto} `{BT : Bolt}
    (self : peerID) (msgs : list gossipMsg) (st st' : NetStore) (ps : list NetworkCard) (id : string)
    (Hst : store_ok st) (Hrun : receive_all self msgs st = (st', ps)) :
  let published := filter (λ c, card_ID c = id) ps in
  StronglySorted (λ c c', card_CreatedAt c < card_CreatedAt c') published ∧
  NoDup published ∧
  Forall (λ c, newer_than c (held st id)) published ∧
  (∀ e, held st id = Some e → ∃ e', held st' id = Some e' ∧ card_CreatedAt e <= card_CreatedAt e').
Proof.
  destruct (receive_all_increasing self msgs st st' ps id Hst Hrun) as (Hnew & Hsort & Hge).
  cbn zeta. split_and!; [done| |done|done].
  clear -Hsort. induction Hsort as [|c l Hl IH Hall]; constructor; [|done].
  intros Hin. rewrite Forall_forall in Hall. specialize (Hall c Hin). lia.
Qed.

(** C31. Gossip about a network converges: two nodes with a working database that
    were offered the same cards for an identifier, in any order and any number
    of times, no two of the same age, and held none before, hold the same card:
    the newest. *)
Theorem card_gossip_converges `{L : PeerLib} `{C : Crypto} `{BT : Bolt}
    (n1 n2 : peerID) (msgs1 msgs2 : list gossipMsg) (st1 st2 : NetStore) (id : string)
    (Hput : ∀ n k, put_fails n k = false) (Hview : ∀ n, view_fails n = false)
    (H1 : store_ok st1) (H2 : store_ok st2) (Hnone1 : held st1 id = None) (Hnone2 : held st2 id = None)
    (Hsame : ∀ c, card_ID c = id →
       Some c ∈ offered n1 <$> msgs1 ↔ Some c ∈ offered n2 <$> msgs2)
    (Hages : ∀ c c', card_ID c = id → card_ID c' = id → Some c ∈ offered n1 <$> msgs1 →
       Some c' ∈ offered n1 <$> msgs1 → card_CreatedAt c = card_CreatedAt c' → c = c') :
  held (receive_all n1 msgs1 st1).1 id = held (receive_all n2 msgs2 st2).1 id ∧
  ∀ c, card_ID c = id → Some c ∈ offered n1 <$> msgs1 →
    ∃ e, held (receive_all n1 msgs1 st1).1 id = Some e ∧ card_CreatedAt c <= card_CreatedAt e.
Proof.
  destruct (receive_all n1 msgs1 st1) as [s1 p1] eqn:E1. destruct (receive_all n2 msgs2 st2) as [s2 p2] eqn:E2.
  cbn [fst].
  pose proof (receive_all_newest n1 msgs1 st1 s1 p1 id Hput Hview H1 E1) as Hnew1.
  pose proof (receive_all_newest n2 msgs2 st2 s2 p2 id Hput Hview H2 E2) as Hnew2.
  pose proof (λ e, receive_all_source n1 msgs1 st1 s1 p1 id e H1 E1) as Hsrc1.
  pose proof (λ e, receive_all_source n2 msgs2 st2 s2 p2 id e H2 E2) as Hsrc2.
  rewrite Hnone1 in Hsrc1. rewrite Hnone2 in Hsrc2.
  assert (Hof : ∀ n (msgs : list gossipMsg) c, Some c ∈ offered n <$> msgs ↔ ∃ m, m ∈ msgs ∧ offered n m = Some c).
  { intros n msgs c. rewrite list_elem_of_fmap. naive_solver. }
  assert (Hmax1 : ∀ c, card_ID c = id → Some c ∈ offered n1 <$> msgs1 →
    ∃ e, held s1 id = Some e ∧ card_CreatedAt c <= card_CreatedAt e).
  { intros c Hid (m & Hm & Ho)%Hof. by apply (Hnew1 (m, c)). }
  assert (Hmax2 : ∀ c, card_ID c = id → Some c ∈ offered n1 <$> msgs1 →
    ∃ e, held s2 id = Some e ∧ card_CreatedAt c <= card_CreatedAt e).
  { intros c Hid Hin. apply Hsame in Hin as (m & Hm & Ho)%Hof; [|done]. by apply (Hnew2 (m, c)). }
  split; [|done].
  assert (Hin1 : ∀ e, held s1 id = Some e → card_ID e = id ∧ Some e ∈ offered n1 <$> msgs1).
  { intros e He. destruct (Hsrc1 e He) as [|[Hid Hm]]; [done|]. split; [done|]. by apply Hof. }
  assert (Hin2 : ∀ e, held s2 id = Some e → card_ID e = id ∧ Some e ∈ offered n1 <$> msgs1).
  { intros e He. destruct (Hsrc2 e He) as [|[Hid Hm]]; [done|]. split; [done|]. apply Hsame; [done|]. by apply Hof. }
  destruct (held s1 id) as [e1|] eqn:Eh1.
  - destruct (Hin1 e1 eq_refl) as [Hid Hin]. destruct (Hmax2 e1 Hid Hin) as (e2 & He2 & Hle).
    rewrite He2. f_equal. destruct (Hin2 e2 He2) as [Hid2 Hin2'].
    destruct (Hmax1 e2 Hid2 Hin2') as (e1' & [= <-] & Hle'). apply Hages; try done. lia.
  - destruct (held s2 id) as [e2|] eqn:Eh2; [|done].
    destruct (Hin2 e2 eq_refl) as [Hid Hin]. by destruct (Hmax1 e2 Hid Hin) as (? & ? & _).
Qed.

Section directory.
Context `{L : PeerLib} `{C : Crypto} `{BT : Bolt}.

(** The cards of a list that are accepted. *)
Definition accepted (cards : list NetworkCard) : list NetworkCard :=
  filter (λ c, VerifyNetworkCard c = None) cards.

Lemma run_store_cards cards n st :
  (∀ n k, put_fails n k = false) →
  (run (store_cards cards n) st).2 = n + Z.of_nat (length (accepted cards)) ∧
  bucket (run (store_cards cards n) st).1 =
    foldl (λ m c, <[card_ID c := Some (enc_card c)]> m) (bucket st) (accepted cards).
Proof.
  intros Hput. revert n st. induction cards as [|c cards IH]; intros n st; cbn [store_cards].
  { cbn. split; [lia|done]. }
  unfold accepted. destruct (VerifyNetworkCard c) eqn:E.
  - rewrite filter_cons_False by (by rewrite E). apply IH.
  - rewrite filter_cons_True by done. rewrite run_bind. unfold store_Put. rewrite run_atomic, Hput.
    cbn [fst snd length foldl]. fold (accepted cards). destruct (IH (n + 1) (mkNetStore
      (<[card_ID c:=Some (enc_card c)]> (bucket st)) (S (txs st)))) as [-> ->]. split; [lia|done].
Qed.
End directory.

(** What a directory does: with a working database, every card of it that is
    accepted is stored, whatever is held under its identifier, the last one
    winning; the rest of the store stays; and the count returned is the number
    of accepted cards. In particular an older card of the directory replaces a
    newer one that gossip brought. *)
Theorem fetch_directory_spec `{L : PeerLib} `{C : Crypto} `{BT : Bolt}
    (url : string) (cards : list NetworkCard) (st : NetStore)
    (Hurl : url ≠ "") (Hwf : Forall card_wf cards) (Hput : ∀ n k, put_fails n k = false) :
  let body := Some (JArr (enc_card <$> cards)) in
  let st' := exec (FetchDirectory url (Answer 200 body)) st in
  result (FetchDirectory url (Answer 200 body)) st = Ok (Z.of_nat (length (accepted cards))) ∧
  (∀ id, held st' id =
     match last (filter (λ c, card_ID c = id) (accepted cards)) with
     | Some c => Some c | None => held st id
     end) ∧
  ∀ old new, card_wf old → card_ID old = card_ID new → card_CreatedAt old < card_CreatedAt new →
    VerifyNetworkCard old = None → held st (card_ID new) = Some new → cards = [old] →
    held st' (card_ID new) = Some old.
Proof.
  assert (Hdec : dec_cards (JArr (enc_card <$> cards)) = Some cards).
  { clear -Hwf. cbn. induction Hwf as [|c l Hc _ IH]; [done|].
    rewrite fmap_cons. cbn [mapM]. rewrite dec_enc_card by done. cbn [mbind option_bind]. by rewrite IH. }
  destruct (run_store_cards cards 0 st Hput) as [Hcount Hbucket].
  assert (Hrun : run (FetchDirectory url (Answer 200 (Some (JArr (enc_card <$> cards))))) st =
    ((run (store_cards cards 0) st).1, Ok (Z.of_nat (length (accepted cards))))).
  { unfold FetchDirectory. rewrite (proj2 (String.eqb_neq _ _) Hurl). cbn [negb Z.eqb Pos.eqb mbind option_bind].
    rewrite Hdec. rewrite run_bind, Hcount. done. }
  cbn zeta. unfold result, exec. rewrite Hrun. cbn [fst snd].
  assert (Hheld : ∀ id, held (run (store_cards cards 0) st).1 id =
     match last (filter (λ c, card_ID c = id) (accepted cards)) with
     | Some c => Some c | None => held st id
     end).
  { intros id. unfold held. rewrite Hbucket.
    assert (Hacc : Forall card_wf (accepted cards)).
    { unfold accepted. apply Forall_forall. intros x [_ Hx]%list_elem_of_filter.
      rewrite Forall_forall in Hwf. by apply Hwf. }
    clear -Hacc. induction (accepted cards) as [|c l IH] using rev_ind; [done|].
    apply Forall_app in Hacc as [Hl [Hc _]%Forall_cons]. rewrite foldl_snoc, lookup_insert, filter_app.
    case_decide as Hid.
    - rewrite filter_cons_True, filter_nil, last_snoc by done. cbn [mbind option_bind]. by apply dec_enc_card.
    - rewrite filter_cons_False, filter_nil, app_nil_r by done. by apply IH. }
  split_and!; [done|done|]. intros old new Hold Hid Hage Hver Hnew ->. rewrite Hheld. unfold accepted.
  rewrite filter_cons_True, filter_nil, filter_cons_True by done. done.
Qed.

(** ** Concrete libraries and inputs *)

(** A key is its identifier, and signing is putting both in front. *)
Definition plain_crypto : Crypto := {|
  PrivKey := string; PubKey := string;
  IDFromPrivateKey := plain_id; ExtractPublicKey i := Some i;
  Sign k m := Some (String one_char (String.append k m));
  Verify pub m s := Some (String.eqb s (String one_char (String.append pub m)))
|}.

#[export] Instance plain_crypto_laws : CryptoLaws plain_peers plain_crypto.
Proof.
  split; cbn.
  - intros k i [_ Hk]%plain_id_Some. exact Hk.
  - intros k i m s Hk [= <-]. exists i. split; [done|].
    apply plain_id_Some in Hk as [-> _]. by rewrite String.eqb_refl.
  - by intros k m s [= <-].
Qed.

Definition working : Bolt := {| put_fails _ _ := false; view_fails _ := false |}.

Definition draft (age : Z) : NetworkCard := mkCard "net" "Net" "" None 3 "" age "".
Definition signed (k : string) (age : Z) : NetworkCard :=
  match @SignNetworkCard plain_peers plain_crypto (draft age) k with Ok c => c | Err _ => zero_card end.

Lemma plain_signatures pub m m' s :
  @Verify plain_crypto pub m s = Some true → @Verify plain_crypto pub m' s = Some true → m = m'.
Proof.
  cbn [Verify plain_crypto]. intros [= ->%String.eqb_eq] [= Hs%String.eqb_eq]. by apply append_inj_l in Hs.
Qed.


(** A name that is not valid UTF-8 breaks a card: its signer accepts it, and
    whoever reads it from its text, where the bytes are replaced, does not. *)
Definition damaged : NetworkCard :=
  match @SignNetworkCard plain_peers plain_crypto (mkCard "net" (String (byte 255) "") "" None 3 "" 7 "") "k" with
  | Ok c => c | Err _ => zero_card
  end.

Example damaged_card_rejected :
  @VerifyNetworkCard plain_peers plain_crypto damaged = None ∧
  (json_Unmarshal (json_Marshal (enc_card damaged)) ≫= dec_card) ≫= @VerifyNetworkCard plain_peers plain_crypto
    = Some WrongSignature.
Proof. split; by vm_compute. Qed.

(** A message with a card, and the same card twice with an older one between. *)
Definition card_msg (c : NetworkCard) : gossipMsg := mkGossipMsg "other" (Some (enc_card c)).
Definition some_msgs : list gossipMsg :=
  [card_msg (signed "k" 7); card_msg (signed "k" 5); card_msg (signed "k" 7); card_msg (signed "k" 9)].
Definition no_cards : NetStore := mkNetStore ∅ 0.

Lemma no_cards_ok : @store_ok plain_peers plain_crypto no_cards.
Proof. by apply map_Forall_empty. Qed.

Lemma flooding_ends_witness :
  let run := @receive_all plain_peers plain_crypto working "me" some_msgs no_cards in
  StronglySorted (λ c c', card_CreatedAt c < card_CreatedAt c') (filter (λ c, card_ID c = "net") run.2) ∧
  card_CreatedAt <$> filter (λ c, card_ID c = "net") run.2 = [7; 9].
Proof.
  cbn zeta. split; [|by vm_compute].
  apply (@flooding_ends plain_peers plain_crypto working "me" some_msgs no_cards
    (@receive_all plain_peers plain_crypto working "me" some_msgs no_cards).1 _ "net").
  - apply no_cards_ok.
  - apply surjective_pairing.
Defined.

Lemma signed_ages : card_CreatedAt (signed "k" 7) ≠ card_CreatedAt (signed "k" 9).
Proof. by vm_compute. Qed.

Lemma card_gossip_converges_witness :
  let m7 := card_msg (signed "k" 7) in let m9 := card_msg (signed "k" 9) in
  held (@receive_all plain_peers plain_crypto working "n1" [m7; m9] no_cards).1 "net" =
  held (@receive_all plain_peers plain_crypto working "n2" [m9; m7; m9] no_cards).1 "net".
Proof.
  cbn zeta.
  assert (E : ∀ n, n = "n1" ∨ n = "n2" →
    @offered plain_peers plain_crypto n (card_msg (signed "k" 7)) = Some (signed "k" 7) ∧
    @offered plain_peers plain_crypto n (card_msg (signed "k" 9)) = Some (signed "k" 9)).
  { intros n [->| ->]; split; vm_compute; reflexivity. }
  destruct (E "n1") as [E17 E19]; [by left|]. destruct (E "n2") as [E27 E29]; [by right|].
  pose proof signed_ages as Hne.
  apply (@card_gossip_converges plain_peers plain_crypto working "n1" "n2"
    [card_msg (signed "k" 7); card_msg (signed "k" 9)]
    [card_msg (signed "k" 9); card_msg (signed "k" 7); card_msg (signed "k" 9)] no_cards no_cards "net").
  - intros n k. reflexivity.
  - intros n. reflexivity.
  - apply no_cards_ok.
  - apply no_cards_ok.
  - reflexivity.
  - reflexivity.
  - intros c _. cbn [fmap list_fmap]. rewrite E17, E19, E27, E29, !elem_of_cons, !elem_of_nil. clear. tauto.
  - intros c c' _ _. cbn [fmap list_fmap]. rewrite E17, E19, !elem_of_cons, !elem_of_nil. clear -Hne.
    revert Hne. generalize (signed "k" 7) as c7, (signed "k" 9) as c9.
    intros c7 c9 Hne [Hc|[Hc|[]]] [Hc'|[Hc'|[]]] Hage; congruence.
Defined.

Lemma store_only_verified_witness :
  let c : config := sched [0; 0]%nat (no_cards,
    [_ ← @discovery_receive plain_peers plain_crypto working "me" (card_msg (signed "k" 7)); mret tt]) in
  Forall (λ card, @VerifyNetworkCard plain_peers plain_crypto card = None ∧ held c.1 (card_ID card) = Some card)
    (result (@store_List working) c.1).1.
Proof.
  cbn zeta.
  apply (@store_only_verified plain_peers plain_crypto working "me" no_cards).
  - apply no_cards_ok.
  - etrans; [|apply sched_reachable]. apply (go_all _ _ _ [] [_]). repeat constructor.
  - done.
Defined.

Lemma fetch_directory_spec_witness :
  let st := exec (@discovery_receive plain_peers plain_crypto working "me" (card_msg (signed "k" 9))) no_cards in
  let body := Some (JArr (enc_card <$> [signed "k" 5])) in
  result (@FetchDirectory plain_peers plain_crypto working "url" (Answer 200 body)) st = Ok 1 ∧
  held st "net" = Some (signed "k" 9).
Proof.
  cbn zeta. split; [|by vm_compute].
  apply (@fetch_directory_spec plain_peers plain_crypto working "url" [signed "k" 5]).
  - done.
  - repeat constructor; by vm_compute.
  - done.
Defined.
