(* ===== verification/PeerMemory.v ===== *)
(** * Remembered peers ([internal/host/peers.go])

    The node peers this node was connected to, kept in a file, so that it can
    redial the mesh it last saw. *)

From S2P Require Import Prelude GoTime GoStrings Packet Json Multiaddr.

#[local] Open Scope string_scope.
#[local] Open Scope list_scope.
#[local] Open Scope Z_scope.

Definition peerMemoryMaxPeers : nat := 64.
Definition peerMemoryMaxAddrs : nat := 8.
Definition peerMemoryTTL : Duration := 30 * 24 * Hour.

(** [type rememberedPeer struct] *)
Record rememberedPeer := mkRemembered { rp_ID : string; rp_Addrs : list string; rp_LastSeen : Z }.

#[export] Instance rememberedPeer_eq_dec : EqDecision rememberedPeer.
Proof. solve_decision. Defined.

(** [type PeerMemory struct]. [file] is what [path] holds: [None] is a file that
    is missing or cannot be read, [Some None] one that is not JSON. *)
Record PeerMemory := mkPeerMemory {
  pm_peers : gmap peerID rememberedPeer;
  pm_dirty : bool;
  pm_file : option (option json)
}.

Definition enc_remembered (rp : rememberedPeer) : json :=
  JObj [("id", JStr (rp_ID rp)); ("addrs", JArr (JStr <$> rp_Addrs rp)); ("last_seen", JInt (rp_LastSeen rp))].

(** A list that is absent or [null] is [nil], which is as empty as an empty one. *)
Definition dec_remembered (v : json) : option rememberedPeer :=
  dec_struct (mkRemembered "" [] 0) (λ kvs,
    i ← dec_string "id" kvs; a ← dec_slice "addrs" kvs; l ← dec_int "last_seen" kvs;
    Some (mkRemembered i (default [] a) l)) v.

Definition dec_remembered_list (v : json) : option (list rememberedPeer) :=
  match v with
  | JNull => Some []
  | JArr l => mapM dec_remembered l
  | _ => None
  end.

(** [time.Now().Add(-peerMemoryTTL).Unix()] *)
Definition cutoff (now : Instant) : Z := Time.Unix (Time.Add now (- peerMemoryTTL)).

(** The order of [sort.Slice]: most recently seen first, then by identifier. As
    identifiers are distinct, any sorting gives the same list. *)
Definition fresher (a b : rememberedPeer) : Prop :=
  rp_LastSeen b < rp_LastSeen a ∨ (rp_LastSeen a = rp_LastSeen b ∧ String.le (rp_ID a) (rp_ID b)).
#[export] Instance fresher_dec : RelDecision fresher := λ a b, decide (_ ∨ _).

Section peer_memory.
Context `{PeerLib} `{MultiaddrLib} `{MapRange}.

(** The loop of [LoadPeerMemory]. *)
Definition remember (now : Instant) (m : gmap peerID rememberedPeer) (rp : rememberedPeer) :
    gmap peerID rememberedPeer :=
  match Decode (rp_ID rp) with
  | None => m
  | Some id =>
      if (rp_LastSeen rp <? cutoff now) || (length (rp_Addrs rp) =? 0)%nat then m
      else <[id := rp]> m
  end.

Definition LoadPeerMemory (now : Instant) (file : option (option json)) : PeerMemory :=
  match v ← mjoin file; dec_remembered_list v with
  | None => mkPeerMemory ∅ false file
  | Some l => mkPeerMemory (foldl (remember now) ∅ l) false file
  end.

(** The inner loop of [Snapshot]: old addresses behind the new one. *)
Definition merge_old (s : string) (old : list string) : list string :=
  foldl (λ merged a,
    if negb (String.eqb a s) && (length merged <? peerMemoryMaxAddrs)%nat then merged ++ [a] else merged)
    [s] old.

(** One connection: the peer it leads to and its address ([None] is [nil]). *)
Definition snapshot_conn (self : peerID) (now : Z) (pm : PeerMemory) (c : peerID * option Multiaddr) : PeerMemory :=
  let '(id, addr) := c in
  if decide (id = self) then pm
  else
    match addr with
    | None => pm
    | Some addr =>
        if Contains (ma_String addr) "p2p-circuit" then pm
        else
          let s := ma_String addr in
          let old := match pm_peers pm !! id with Some rp => rp_Addrs rp | None => [] end in
          mkPeerMemory (<[id := mkRemembered (IDString id) (merge_old s old) now]> (pm_peers pm)) true (pm_file pm)
    end.

Definition PeerMemory_Snapshot (self : peerID) (conns : list (peerID * option Multiaddr)) (now : Instant)
    (pm : PeerMemory) : PeerMemory :=
  foldl (snapshot_conn self (Time.Unix now)) pm conns.

(** [Save]; [written] is whether [os.WriteFile] succeeds, and [junk] what the
    file holds if it does not. *)
Definition PeerMemory_Save (now : Instant) (written : bool) (junk : option (option json)) (pm : PeerMemory) : PeerMemory :=
  if negb (pm_dirty pm) then pm
  else
    let kept := keep (λ rp, negb (rp_LastSeen rp <? cutoff now)) (pm_peers pm) in
    let list := merge_sort fresher (range kept).*2 in
    let list := if (peerMemoryMaxPeers <? length list)%nat then take peerMemoryMaxPeers list else list in
    let out := JArr (enc_remembered <$> list) in
    if written then mkPeerMemory kept false (Some (Some out))
    else mkPeerMemory kept true junk.

(** The loop of [DialTargets] over the sorted list. *)
Definition dial_target (rp : rememberedPeer) : option AddrInfo :=
  match Decode (rp_ID rp) with
  | None => None
  | Some id =>
      let addrs := omap NewMultiaddr (rp_Addrs rp) in
      if (0 <? length addrs)%nat then Some (mkAddrInfo _ id addrs) else None
  end.

Definition DialTargets (self : peerID) (now : Instant) (pm : PeerMemory) : list AddrInfo :=
  let list := omap (λ '(id, rp),
    if bool_decide (id = self) || (rp_LastSeen rp <? cutoff now) then None else Some rp)
    (range (pm_peers pm)) in
  omap dial_target (merge_sort fresher list).

(** One pass of the loops of [MergeTargets]. *)
Definition merge_target (acc : gset peerID * list AddrInfo) (ai : AddrInfo) : gset peerID * list AddrInfo :=
  let '(seen, out) := acc in
  if decide (ai_ID ai ∈ seen) then (seen, out) else ({[ai_ID ai]} ∪ seen, out ++ [ai]).

Definition MergeTargets (bootstrap remembered : list AddrInfo) : list AddrInfo :=
  (foldl merge_target (foldl merge_target (∅, []) bootstrap) remembered).2.
End peer_memory.

(** ** Lemmas: the order, the file format *)

#[export] Instance fresher_total : Total fresher.
Proof.
  intros a b. unfold fresher. destruct (Z.lt_trichotomy (rp_LastSeen a) (rp_LastSeen b)) as [?|[?|?]]; [right| |left]; try by left.
  destruct (total String.le (rp_ID a) (rp_ID b)); [left|right]; by right.
Qed.

#[export] Instance fresher_trans : Transitive fresher.
Proof.
  intros a b c [?|[? ?]] [?|[? ?]]; unfold fresher; [left; lia..|right]. split; [congruence|]. by etrans.
Qed.

Lemma dec_enc_remembered rp : is_int64 (rp_LastSeen rp) → dec_remembered (enc_remembered rp) = Some rp.
Proof.
  destruct rp as [i a l]. intros Hl. cbn in Hl. unfold enc_remembered, dec_remembered.
  cbn [rp_ID rp_Addrs rp_LastSeen dec_struct]. unfold dec_string, dec_int, dec_slice. json_keys.
  unfold fill. cbn -[to_int mapM]. rewrite mapM_elements. cbn -[to_int]. by rewrite to_int_in.
Qed.

Lemma dec_enc_list l :
  Forall (λ rp, is_int64 (rp_LastSeen rp)) l → dec_remembered_list (JArr (enc_remembered <$> l)) = Some l.
Proof.
  intros Hall. cbn [dec_remembered_list]. induction Hall as [|rp l Hrp _ IH]; [done|].
  rewrite fmap_cons. cbn [mapM]. rewrite dec_enc_remembered by done. cbn [mbind option_bind].
  by rewrite IH.
Qed.

Lemma cutoff_mono now now2 : now <= now2 → cutoff now <= cutoff now2.
Proof.
  intros ?. unfold cutoff, Time.Unix, Time.Add. apply Z.div_le_mono; [|lia].
  unfold Second, Millisecond. lia.
Qed.

Section peer_memory_lemmas.
Context `{L : PeerLib} `{M : MultiaddrLib} `{MR : MapRange}.

(** A sound memory: the text of an entry names its key, there is an address, and
    the time is a 64-bit one. *)
Definition entry_ok (id : peerID) (rp : rememberedPeer) : Prop :=
  Decode (rp_ID rp) = Some id ∧ rp_Addrs rp ≠ [] ∧ is_int64 (rp_LastSeen rp).
Definition pm_ok (pm : PeerMemory) : Prop := map_Forall entry_ok (pm_peers pm).

(** An entry of the file that is loaded under [id]. *)
Definition loads (now : Instant) (id : peerID) (rp : rememberedPeer) : Prop :=
  Decode (rp_ID rp) = Some id ∧ cutoff now <= rp_LastSeen rp ∧ rp_Addrs rp ≠ [].
#[export] Instance loads_dec now id rp : Decision (loads now id rp).
Proof. unfold loads. apply _. Defined.

Lemma lookup_remember now m rp id :
  remember now m rp !! id = if decide (loads now id rp) then Some rp else m !! id.
Proof.
  unfold remember. destruct (Decode (rp_ID rp)) as [i|] eqn:Ed.
  2: { rewrite decide_False; [done|]. intros [? _]. congruence. }
  destruct (Z.ltb_spec (rp_LastSeen rp) (cutoff now)); cbn [orb].
  { rewrite decide_False; [done|]. intros (_ & ? & _). lia. }
  destruct (rp_Addrs rp) eqn:Ea; cbn [length Nat.eqb].
  { rewrite decide_False; [done|]. by intros (_ & _ & ?). }
  rewrite lookup_insert. case_decide as Hi.
  - subst i. rewrite decide_True; [done|]. unfold loads. by rewrite Ea.
  - rewrite decide_False; [done|]. intros [? _]. congruence.
Qed.

Lemma lookup_foldl_remember now l m id :
  foldl (remember now) m l !! id =
    match last (filter (loads now id) l) with Some rp => Some rp | None => m !! id end.
Proof.
  induction l as [|rp l IH] using rev_ind; [done|].
  rewrite foldl_snoc, lookup_remember, filter_app. case_decide as Hl.
  - by rewrite filter_cons_True, filter_nil, last_snoc.
  - by rewrite filter_cons_False, filter_nil, app_nil_r.
Qed.

(** Entries that do not clash are all loaded. *)
Lemma load_distinct now l id rp :
  (∀ a b, a ∈ l → b ∈ l → loads now id a → loads now id b → a = b) →
  foldl (remember now) ∅ l !! id = Some rp ↔ rp ∈ l ∧ loads now id rp.
Proof.
  intros Hdist. rewrite lookup_foldl_remember, lookup_empty. split.
  - intros Hl. destruct (last _) as [b|] eqn:Eb; [|done]. simplify_eq.
    apply last_Some_elem_of in Eb. by apply list_elem_of_filter in Eb as [? ?].
  - intros [Hin Hload]. destruct (last (filter (loads now id) l)) as [b|] eqn:Eb.
    + apply last_Some_elem_of, list_elem_of_filter in Eb as [Hb Hbin]. f_equal. by apply Hdist.
    + apply last_None in Eb. assert (Hf : rp ∈ filter (loads now id) l) by (by apply list_elem_of_filter).
      rewrite Eb in Hf. by apply not_elem_of_nil in Hf.
Qed.

(** What [Save] writes: the freshest of the entries that have not expired. *)
Definition unexpired (now : Instant) (pm : PeerMemory) : gmap peerID rememberedPeer :=
  keep (λ rp, negb (rp_LastSeen rp <? cutoff now)) (pm_peers pm).
Definition saved (now : Instant) (pm : PeerMemory) : list rememberedPeer :=
  take peerMemoryMaxPeers (merge_sort fresher (range (unexpired now pm)).*2).

Lemma lookup_unexpired now pm id rp :
  unexpired now pm !! id = Some rp ↔ pm_peers pm !! id = Some rp ∧ cutoff now <= rp_LastSeen rp.
Proof. unfold unexpired. rewrite lookup_keep, negb_true_iff, Z.ltb_ge. done. Qed.

Lemma elem_of_sorted now pm rp :
  rp ∈ merge_sort fresher (range (unexpired now pm)).*2 ↔ ∃ id, unexpired now pm !! id = Some rp.
Proof.
  rewrite merge_sort_Permutation, list_elem_of_fmap. split.
  - intros ([id r] & -> & Hin). exists id. by apply elem_of_range.
  - intros (id & Hid). exists (id, rp). by rewrite elem_of_range.
Qed.

Lemma Save_file now junk pm :
  pm_dirty pm = true →
  PeerMemory_Save now true junk pm =
    mkPeerMemory (unexpired now pm) false (Some (Some (JArr (enc_remembered <$> saved now pm)))).
Proof.
  intros Hd. unfold PeerMemory_Save. rewrite Hd. cbn [negb]. fold (unexpired now pm). do 5 f_equal.
  unfold saved. set (l := merge_sort _ _). destruct (Nat.ltb_spec peerMemoryMaxPeers (length l)); [done|].
  by rewrite take_ge by lia.
Qed.

(** Two saved entries under one key are one. *)
Lemma saved_distinct now now2 pm id a b :
  pm_ok pm → a ∈ saved now pm → b ∈ saved now pm → loads now2 id a → loads now2 id b → a = b.
Proof.
  intros Hok Ha Hb (Hda & _) (Hdb & _).
  assert (Hkey : ∀ r, r ∈ saved now pm → Decode (rp_ID r) = Some id → pm_peers pm !! id = Some r).
  { intros r Hr Hd. unfold saved in Hr. apply (elem_of_take r peerMemoryMaxPeers) in Hr as (i & Hi & _).
    apply list_elem_of_lookup_2, elem_of_sorted in Hi as (k & Hk). apply lookup_unexpired in Hk as [Hk _].
    destruct (Hok k r Hk) as (Hdk & _). congruence. }
  assert (Some a = Some b) as [= ->]; [|done].
  by rewrite <- (Hkey a Ha Hda), <- (Hkey b Hb Hdb).
Qed.

Lemma saved_ints now pm : pm_ok pm → Forall (λ rp, is_int64 (rp_LastSeen rp)) (saved now pm).
Proof.
  intros Hok. apply Forall_take, Forall_forall. intros rp (id & Hid)%elem_of_sorted.
  apply lookup_unexpired in Hid as [Hid _]. by apply (Hok id rp).
Qed.
End peer_memory_lemmas.

(** ** Lemmas: snapshots, targets *)

Section snapshot_lemmas.
Context `{L : PeerLib} `{M : MultiaddrLib} `{MR : MapRange}.

Lemma merge_old_spec s old :
  (length (merge_old s old) <= peerMemoryMaxAddrs)%nat ∧ head (merge_old s old) = Some s ∧
  (∀ a, a ∈ merge_old s old → a = s ∨ a ∈ old) ∧
  ((length old < peerMemoryMaxAddrs)%nat → ∀ a, a ∈ old → a ∈ merge_old s old).
Proof.
  unfold merge_old.
  enough (Hgen : ∀ acc, (length acc <= peerMemoryMaxAddrs)%nat → head acc = Some s →
    let r := foldl (λ merged a, if negb (String.eqb a s) && (length merged <? peerMemoryMaxAddrs)%nat
                                then merged ++ [a] else merged) acc old in
    (length r <= peerMemoryMaxAddrs)%nat ∧ head r = Some s ∧ (∀ a, a ∈ r → a ∈ acc ∨ a ∈ old) ∧
    (∀ a, a ∈ acc → a ∈ r) ∧
    ((length acc + length old <= peerMemoryMaxAddrs)%nat → ∀ a, a ∈ old → a ∈ r)).
  { destruct (Hgen [s]) as (? & ? & Hin & _ & Hall); [unfold peerMemoryMaxAddrs; cbn; lia|done|].
    split_and!; [done|done| |].
    - intros a Ha. specialize (Hin a Ha). set_solver.
    - intros Hlen. apply Hall. cbn. unfold peerMemoryMaxAddrs in *. lia. }
  induction old as [|x old IH]; intros acc Hlen Hhd; cbn [foldl].
  { split_and!; [done|done|by left|done|]. by intros _ a ?%not_elem_of_nil. }
  set (acc' := if negb _ && _ then _ else _).
  assert (Hacc' : (length acc' <= peerMemoryMaxAddrs)%nat ∧ head acc' = Some s ∧
    (∀ a, a ∈ acc' → a ∈ acc ∨ a = x) ∧ (∀ a, a ∈ acc → a ∈ acc') ∧ (length acc' <= S (length acc))%nat ∧
    ((length acc < peerMemoryMaxAddrs)%nat → x ∈ acc')).
  { subst acc'. destruct (String.eqb_spec x s) as [->|Hne]; cbn [negb andb].
    - split_and!; [done|done|by left|done|lia|]. intros _. destruct acc; [done|]. cbn in Hhd. simplify_eq. by left.
    - destruct (Nat.ltb_spec (length acc) peerMemoryMaxAddrs).
      + rewrite length_app. cbn [length]. split_and!; [lia| |set_solver|set_solver|lia|set_solver].
        by destruct acc.
      + split_and!; [done|done|by left|done|lia|]. intros ?. lia. }
  destruct Hacc' as (Hl' & Hh' & Hin' & Hsub' & Hle' & Hx).
  destruct (IH acc' Hl' Hh') as (Hl & Hh & Hin & Hsub & Hall). split_and!; [done|done| | |].
  - intros a Ha. destruct (Hin a Ha) as [Ha'|?]; [|set_solver]. destruct (Hin' a Ha') as [?| ->]; set_solver.
  - auto.
  - cbn [length]. intros Hlen2 a [->|Ha]%elem_of_cons; [apply Hsub, Hx; lia|apply Hall; [lia|done]].
Qed.

(** The address a connection makes the memory record, if it does. *)
Definition direct (self : peerID) (c : peerID * option Multiaddr) : option (peerID * string) :=
  if decide (c.1 = self) then None
  else a ← c.2; if Contains (ma_String a) "p2p-circuit" then None else Some (c.1, ma_String a).

Lemma direct_fst self c id s : direct self c = Some (id, s) → c.1 = id.
Proof.
  unfold direct. case_decide; [done|]. destruct c.2 as [a|]; [|done]. cbn [mbind option_bind].
  destruct (Contains _ _); [done|]. by intros [= <- _].
Qed.

Lemma snapshot_conn_direct self now pm c :
  snapshot_conn self now pm c =
    match direct self c with
    | None => pm
    | Some (id, s) =>
        mkPeerMemory (<[id := mkRemembered (IDString id)
          (merge_old s (match pm_peers pm !! id with Some rp => rp_Addrs rp | None => [] end)) now]> (pm_peers pm))
          true (pm_file pm)
    end.
Proof.
  destruct c as [id addr]. unfold snapshot_conn, direct. cbn [fst snd].
  case_decide; [done|]. destruct addr as [a|]; [|done]. cbn [mbind option_bind]. by destruct (Contains _ _).
Qed.

Lemma snapshot_snoc self conns c now pm :
  PeerMemory_Snapshot self (conns ++ [c]) now pm =
    snapshot_conn self (Time.Unix now) (PeerMemory_Snapshot self conns now pm) c.
Proof. unfold PeerMemory_Snapshot. by rewrite foldl_snoc. Qed.

Lemma dial_target_Some rp ai :
  dial_target rp = Some ai ↔
    Decode (rp_ID rp) = Some (ai_ID ai) ∧ ai_Addrs ai = omap NewMultiaddr (rp_Addrs rp) ∧ ai_Addrs ai ≠ [].
Proof.
  unfold dial_target. destruct (Decode (rp_ID rp)) as [id|]; [|split; [done|by intros [? _]]].
  destruct (omap NewMultiaddr (rp_Addrs rp)) as [|x l]; cbn [length Nat.ltb Nat.leb].
  - split; [done|]. intros (_ & Ha & Hne). by rewrite Ha in Hne.
  - split.
    + by intros [= <-].
    + intros ([= ->] & Ha & _). destruct ai as [i a]. cbn in *. by subst.
Qed.

(** The entries [DialTargets] considers. *)
Definition dialable (self : peerID) (now : Instant) (pm : PeerMemory) : list rememberedPeer :=
  omap (λ '(id, rp), if bool_decide (id = self) || (rp_LastSeen rp <? cutoff now) then None else Some rp)
    (range (pm_peers pm)).

Lemma elem_of_dialable self now pm rp :
  rp ∈ dialable self now pm ↔ ∃ id, pm_peers pm !! id = Some rp ∧ id ≠ self ∧ cutoff now <= rp_LastSeen rp.
Proof.
  unfold dialable. rewrite list_elem_of_omap. split.
  - intros ([id r] & Hin & Heq). apply elem_of_range in Hin.
    destruct (bool_decide_reflect (id = self)); [done|]. cbn [orb] in Heq.
    destruct (Z.ltb_spec (rp_LastSeen r) (cutoff now)); [done|]. simplify_eq. eauto.
  - intros (id & Hid & Hne & Hc). exists (id, rp). rewrite elem_of_range. split; [done|].
    rewrite bool_decide_eq_false_2 by done. cbn [orb]. by rewrite (proj2 (Z.ltb_ge _ _) Hc).
Qed.

Lemma NoDup_dialable self now pm : pm_ok pm → NoDup ((λ rp, Decode (rp_ID rp)) <$> dialable self now pm).
Proof.
  intros Hok. unfold dialable.
  assert (Hall : Forall (λ kv, Decode (rp_ID kv.2) = Some kv.1) (range (pm_peers pm))).
  { apply Forall_forall. intros [id rp] Hin. apply elem_of_range in Hin. cbn. by apply (Hok id rp). }
  assert (Hnd : NoDup (Some <$> (range (pm_peers pm)).*1)).
  { apply (NoDup_fmap_2 _), NoDup_fst_range. }
  eapply sublist_NoDup; [exact Hnd|]. clear Hnd.
  induction Hall as [|[id rp] l Hd _ IH]; [done|]. cbn in Hd |- *.
  destruct (bool_decide (id = self) || _); cbn; [by constructor|]. rewrite Hd. by constructor.
Qed.

Lemma sublist_length_eq {A} (l1 l2 : list A) :
  l1 `sublist_of` l2 → (length l2 <= length l1)%nat → l1 = l2.
Proof.
  induction 1 as [|x l1 l2 _ IH|x l1 l2 Hsub _]; cbn; intros Hlen; [done|f_equal; apply IH; lia|].
  apply sublist_length in Hsub. lia.
Qed.

(** Sublists keep sortedness. *)
Lemma StronglySorted_sublist {A} (R : A → A → Prop) l1 l2 :
  l1 `sublist_of` l2 → StronglySorted R l2 → StronglySorted R l1.
Proof.
  induction 1 as [|x l1 l2 Hsub IH|x l1 l2 Hsub IH]; intros Hs; [done|..]; inversion_clear Hs as [|? ? Hs' Hall].
  - constructor; [by apply IH|]. rewrite Forall_forall in Hall |- *. intros y Hy. apply Hall.
    by eapply elem_of_sublist.
  - by apply IH.
Qed.

Lemma merge_target_spec l acc out :
  let '(seen, r) := foldl merge_target (acc, out) l in
  seen = acc ∪ list_to_set (ai_ID <$> l) ∧
  ∃ new, r = out ++ new ∧ new `sublist_of` l ∧
    (∀ ai, ai ∈ new ↔ ∃ l1 l2, l = l1 ++ ai :: l2 ∧ (ai_ID ai ∉ acc) ∧ (ai_ID ai ∉ (ai_ID <$> l1))) ∧
    NoDup (ai_ID <$> new).
Proof.
  revert acc out. induction l as [|a l IH]; intros acc out; cbn [foldl].
  { split; [set_solver|]. exists []. rewrite app_nil_r. split_and!; [done|done| |constructor].
    intros ai. split; [by intros ?%not_elem_of_nil|]. intros (l1 & l2 & Heq & _). by destruct l1. }
  unfold merge_target at 2. case_decide as Ha.
  - specialize (IH acc out). destruct (foldl merge_target (acc, out) l) as [seen r].
    destruct IH as (-> & new & -> & Hsub & Hin & Hnd). split; [set_solver|]. exists new.
    split_and!; [done|by constructor| |done]. intros ai. rewrite Hin. split.
    + intros (l1 & l2 & -> & Hn & Hn1). exists (a :: l1), l2. split_and!; [done|done|].
      rewrite fmap_cons. intros [Heq|?]%elem_of_cons; [by rewrite Heq in Hn|done].
    + intros (l1 & l2 & Heq & Hn & Hn1). destruct l1 as [|a1 l1]; cbn in Heq; injection Heq as -> Heq.
      * done.
      * exists l1, l2. split_and!; [done|done|]. rewrite fmap_cons in Hn1. set_solver.
  - specialize (IH ({[ai_ID a]} ∪ acc) (out ++ [a])).
    destruct (foldl merge_target ({[ai_ID a]} ∪ acc, out ++ [a]) l) as [seen r].
    destruct IH as (-> & new & -> & Hsub & Hin & Hnd). split; [set_solver|]. exists (a :: new).
    split_and!; [by rewrite <- app_assoc|by constructor| |].
    + intros ai. rewrite elem_of_cons, Hin. split.
      * intros [->|(l1 & l2 & -> & Hn & Hn1)].
        { exists [], l. split_and!; [done|done|set_solver]. }
        exists (a :: l1), l2. rewrite fmap_cons. set_solver.
      * intros (l1 & l2 & Heq & Hn & Hn1). destruct l1 as [|a1 l1]; cbn in Heq; injection Heq as -> Heq; [by left|].
        right. exists l1, l2. rewrite fmap_cons in Hn1. set_solver.
    + rewrite fmap_cons. constructor; [|done]. intros (ai & Heq & Hai)%list_elem_of_fmap.
      apply Hin in Hai as (l1 & l2 & _ & Hn & _). set_solver.
Qed.
End snapshot_lemmas.

(** ** What saving, loading, snapshots and targets do *)

Section peer_memory_theorems.
Context `{L : PeerLib} `{M : MultiaddrLib} `{MR : MapRange}.

(** Remembered peers survive a restart: a file saved at [now] and loaded at
    [now2] gives back, under the same identifiers and unchanged, peers that had
    not expired, at most 64 of them and all of them if there were no more; those
    left out are never fresher than those kept. A load is sound again, and
    saving without changes writes nothing. *)
Lemma save_load (pm : PeerMemory) (now now2 : Instant) (junk : option (option json))
    (Hok : pm_ok pm) (Hdirty : pm_dirty pm = true) (Htime : now <= now2) :
  let pm' := PeerMemory_Save now true junk pm in
  let pm2 := LoadPeerMemory now2 (pm_file pm') in
  pm_ok pm2 ∧ pm_peers pm2 ⊆ unexpired now2 pm ∧
  (size (pm_peers pm2) <= peerMemoryMaxPeers)%nat ∧
  ((size (unexpired now pm) <= peerMemoryMaxPeers)%nat → pm_peers pm2 = unexpired now2 pm) ∧
  (∀ id rp id2 rp2, unexpired now2 pm !! id = Some rp → pm_peers pm2 !! id = None →
     pm_peers pm2 !! id2 = Some rp2 → fresher rp2 rp) ∧
  PeerMemory_Save now2 true junk pm' = pm'.
Proof.
  cbn zeta. rewrite Save_file by done. cbn [pm_file]. unfold LoadPeerMemory. cbn [mjoin option_join mbind option_bind].
  rewrite dec_enc_list by (by apply saved_ints). cbn [pm_peers].
  pose proof (cutoff_mono now now2 Htime) as Hcut.
  assert (Hlook : ∀ id rp, foldl (remember now2) ∅ (saved now pm) !! id = Some rp ↔
    rp ∈ saved now pm ∧ unexpired now2 pm !! id = Some rp).
  { intros id rp. rewrite load_distinct by (intros a b ? ?; by apply (saved_distinct now now2 pm id)).
    rewrite lookup_unexpired. split.
    - intros [Hin (Hd & Hc & Ha)]. split; [done|]. split; [|done].
      assert (Hin' := Hin). unfold saved in Hin. apply (elem_of_take rp peerMemoryMaxPeers) in Hin as (i & Hi & _).
      apply list_elem_of_lookup_2, elem_of_sorted in Hi as (k & Hk). apply lookup_unexpired in Hk as [Hk _].
      destruct (Hok k rp Hk) as (Hdk & _). congruence.
    - intros (Hin & Hid & Hc). split; [done|]. destruct (Hok id rp Hid) as (Hd & Ha & _). done. }
  assert (Hsub : foldl (remember now2) ∅ (saved now pm) ⊆ unexpired now2 pm).
  { apply map_subseteq_spec. intros id rp Hl%Hlook. by destruct Hl. }
  assert (Hlive : ∀ id rp, unexpired now2 pm !! id = Some rp → unexpired now pm !! id = Some rp).
  { intros id rp. rewrite !lookup_unexpired. intros [? ?]. split; [done|lia]. }
  split_and!; [|done| | | |done].
  - intros id rp Hl%Hlook. destruct Hl as [_ Hl]. apply lookup_unexpired in Hl as [Hl _]. by apply Hok.
  - assert (Hlen : (length (saved now pm) <= peerMemoryMaxPeers)%nat) by (unfold saved; rewrite length_take; lia).
    enough (size (foldl (remember now2) ∅ (saved now pm)) <= length (saved now pm))%nat by lia.
    generalize (saved now pm) as l. clear. intros l.
    induction l as [|rp l IH] using rev_ind; [by cbn|]. rewrite foldl_snoc, length_app. cbn [length].
    unfold remember at 1. destruct (Decode (rp_ID rp)); [|lia]. destruct (_ || _); [lia|].
    pose proof (size_insert_le (foldl (remember now2) ∅ l) s rp). lia.
  - intros Hsz. apply (anti_symm (⊆)); [done|]. apply map_subseteq_spec. intros id rp Hid.
    apply Hlook. split; [|done]. unfold saved. rewrite take_ge.
    + apply elem_of_sorted. exists id. by apply Hlive.
    + rewrite merge_sort_Permutation, length_fmap, length_range. done.
  - intros id rp id2 rp2 Hid Hno Hid2. apply Hlook in Hid2 as [Hin2 _].
    assert (Hnin : rp ∉ saved now pm).
    { intros Hin. assert (Hs : foldl (remember now2) ∅ (saved now pm) !! id = Some rp) by (by apply Hlook). congruence. }
    assert (Hall : rp ∈ merge_sort fresher (range (unexpired now pm)).*2).
    { apply elem_of_sorted. exists id. by apply Hlive. }
    unfold saved in Hnin, Hin2. set (l := merge_sort _ _) in *.
    assert (Hsorted : StronglySorted fresher l) by apply (StronglySorted_merge_sort fresher).
    rewrite <- (take_drop peerMemoryMaxPeers l) in Hall, Hsorted.
    apply elem_of_app in Hall as [?|Hdrop]; [done|].
    by eapply StronglySorted_app_1_elem_of.
Qed.

(** A snapshot records what is connected: every peer with a connection that
    does not go through a relay gets an entry seen now, with its own identifier,
    the address of its latest connection first, at most eight addresses, each
    one used now or remembered before; every other entry is as it was; and the
    memory stays sound, and is marked for saving exactly when something was
    recorded. *)
Lemma snapshot_records `{!PeerLaws L} (self : peerID) (conns : list (peerID * option Multiaddr))
    (now : Instant) (pm : PeerMemory)
    (Hok : pm_ok pm) (Hids : Forall (λ c, IDFromBytes c.1 = Some c.1) conns)
    (Hnow : is_int64 (Time.Unix now)) :
  let pm' := PeerMemory_Snapshot self conns now pm in
  let seen := omap (direct self) conns in
  pm_ok pm' ∧
  (∀ id, id ∉ seen.*1 → pm_peers pm' !! id = pm_peers pm !! id) ∧
  (∀ id, id ∈ seen.*1 → ∃ rp s,
     pm_peers pm' !! id = Some rp ∧ rp_ID rp = IDString id ∧ rp_LastSeen rp = Time.Unix now ∧
     (length (rp_Addrs rp) <= peerMemoryMaxAddrs)%nat ∧
     head (rp_Addrs rp) = Some s ∧ last (filter (λ c, c.1 = id) seen) = Some (id, s) ∧
     (∀ a, a ∈ rp_Addrs rp → (id, a) ∈ seen ∨ ∃ rp0, pm_peers pm !! id = Some rp0 ∧ a ∈ rp_Addrs rp0)) ∧
  pm_dirty pm' = pm_dirty pm || bool_decide (seen ≠ []).
Proof.
  cbn zeta. induction conns as [|c conns IH] using rev_ind.
  { cbn. split_and!; [done|done| |by rewrite orb_false_r]. by intros id ?%not_elem_of_nil. }
  apply Forall_app in Hids as [Hids [Hc _]%Forall_cons]. destruct (IH Hids) as (Hok' & Hother & Hseen & Hdirty). clear IH.
  rewrite snapshot_snoc, snapshot_conn_direct, omap_app. cbn [omap list_omap].
  destruct (direct self c) as [[id s]|] eqn:Ed; cbn [app]; [|by rewrite app_nil_r].
  pose proof (direct_fst _ _ _ _ Ed) as Hid. subst id. set (pm1 := PeerMemory_Snapshot self conns now pm) in *. set (seen := omap (direct self) conns) in *.
  set (old := match pm_peers pm1 !! c.1 with Some rp => rp_Addrs rp | None => [] end).
  destruct (merge_old_spec s old) as (Hlen & Hhead & Hin & _).
  cbn [pm_peers pm_dirty pm_file]. split_and!.
  - apply map_Forall_insert_2; [|exact Hok']. unfold entry_ok. cbn [rp_ID rp_Addrs rp_LastSeen].
    split_and!; [by apply Decode_String| |done]. by destruct (merge_old s old).
  - intros id. rewrite fmap_app. intros [Hn1 Hn2]%not_elem_of_app. cbn in Hn2.
    rewrite lookup_insert_ne by set_solver. by apply Hother.
  - intros id. rewrite fmap_app, elem_of_app, filter_app. intros Hor.
    destruct (decide (c.1 = id)) as [Heq|Hne].
    + subst id. rewrite lookup_insert_eq. eexists _, s. split; [done|]. cbn [rp_ID rp_Addrs rp_LastSeen].
      rewrite filter_cons_True, filter_nil, last_snoc by done. split_and!; try done.
      intros a [->|Ha]%Hin; [left; set_solver|]. subst old.
      destruct (pm_peers pm1 !! c.1) as [rp|] eqn:E1; [|by apply not_elem_of_nil in Ha].
      destruct (decide (c.1 ∈ seen.*1)) as [Hs|Hs].
      * destruct (Hseen c.1 Hs) as (rp' & s' & Hrp' & _ & _ & _ & _ & _ & Hsrc). simplify_eq.
        destruct (Hsrc a Ha) as [?|?]; [left; set_solver|by right].
      * right. rewrite (Hother c.1 Hs) in E1. eauto.
    + rewrite lookup_insert_ne, filter_cons_False, filter_nil, app_nil_r by done.
      destruct Hor as [Hs|Hs]; [|set_solver]. destruct (Hseen id Hs) as (rp & s' & ? & ? & ? & ? & ? & ? & Hsrc).
      exists rp, s'. split_and!; try done. intros a Ha. destruct (Hsrc a Ha); [left; set_solver|by right].
  - rewrite bool_decide_eq_true_2; [by rewrite orb_true_r|]. by destruct seen.
Qed.

(** The targets to dial are exactly the remembered peers that are not this node,
    have not expired and have an address that parses, each once, with those
    addresses, the freshest first. So they do not depend on the order in which
    the map is visited. *)
Lemma dial_targets_spec (self : peerID) (now : Instant) (pm : PeerMemory) (Hok : pm_ok pm) :
  let ts := DialTargets self now pm in
  (∀ ai, ai ∈ ts ↔ ∃ rp, pm_peers pm !! ai_ID ai = Some rp ∧ ai_ID ai ≠ self ∧
     cutoff now <= rp_LastSeen rp ∧ ai_Addrs ai = omap NewMultiaddr (rp_Addrs rp) ∧ ai_Addrs ai ≠ []) ∧
  NoDup (ai_ID <$> ts) ∧
  (∀ l1 a l2 b l3 ra rb, ts = l1 ++ a :: l2 ++ b :: l3 →
     pm_peers pm !! ai_ID a = Some ra → pm_peers pm !! ai_ID b = Some rb → fresher ra rb).
Proof.
  cbn zeta. unfold DialTargets. fold (dialable self now pm).
  set (l := merge_sort fresher (dialable self now pm)).
  assert (Hperm : l ≡ₚ dialable self now pm) by apply merge_sort_Permutation.
  assert (Hin : ∀ rp, rp ∈ l → pm_peers pm !! (default "" (Decode (rp_ID rp))) = Some rp).
  { intros rp. rewrite Hperm, elem_of_dialable. intros (id & Hid & _). destruct (Hok id rp Hid) as (-> & _). done. }
  split_and!.
  - intros ai. rewrite list_elem_of_omap. split.
    + intros (rp & Hrp & (Hd & Ha & Hne)%dial_target_Some). rewrite Hperm, elem_of_dialable in Hrp.
      destruct Hrp as (id & Hid & Hself & Hc). destruct (Hok id rp Hid) as (Hd' & _).
      assert (ai_ID ai = id) as -> by congruence. exists rp. done.
    + intros (rp & Hid & Hself & Hc & Ha & Hne). exists rp. rewrite Hperm, elem_of_dialable.
      split; [by exists (ai_ID ai)|]. apply dial_target_Some. destruct (Hok _ _ Hid) as (Hd & _). done.
  - assert (Hnd : NoDup ((λ rp, Decode (rp_ID rp)) <$> l)) by (rewrite Hperm; by apply NoDup_dialable).
    apply (NoDup_fmap_1 Some). eapply sublist_NoDup; [exact Hnd|]. clear -l.
    induction l as [|rp l IH]; [done|]. cbn. destruct (dial_target rp) as [ai|] eqn:E; cbn; [|by constructor].
    apply dial_target_Some in E as [-> _]. by constructor.
  - intros l1 a l2 b l3 ra rb Heq Hra Hrb.
    assert (Hsorted : StronglySorted fresher l) by apply (StronglySorted_merge_sort fresher).
    assert (Hsplit : ∀ k xs ai ys, omap dial_target k = xs ++ ai :: ys →
      ∃ k1 rp k2, k = k1 ++ rp :: k2 ∧ dial_target rp = Some ai ∧ omap dial_target k2 = ys).
    { clear. induction k as [|r k IH]; intros xs ai ys Heq; [by destruct xs|]. cbn in Heq.
      destruct (dial_target r) as [x|] eqn:Er.
      - destruct xs as [|x' xs]; cbn in Heq; injection Heq as -> Heq.
        + exists [], r, k. done.
        + destruct (IH _ _ _ Heq) as (k1 & rp & k2 & -> & ? & ?). by exists (r :: k1), rp, k2.
      - destruct (IH _ _ _ Heq) as (k1 & rp & k2 & -> & ? & ?). by exists (r :: k1), rp, k2. }
    apply Hsplit in Heq as (k1 & rpa & k2 & Hl & Hda & Heq2).
    apply Hsplit in Heq2 as (k3 & rpb & k4 & -> & Hdb & _).
    assert (Hentry : ∀ rp ai r, rp ∈ l → dial_target rp = Some ai → pm_peers pm !! ai_ID ai = Some r → r = rp).
    { intros rp ai r Hrp (Hd & _)%dial_target_Some Hr. apply Hin in Hrp. rewrite Hd in Hrp. cbn in Hrp. congruence. }
    rewrite (Hentry rpa a ra), (Hentry rpb b rb); try done; [|rewrite Hl; set_solver..].
    rewrite Hl in Hsorted. apply (StronglySorted_app_1_elem_of _ (k1 ++ [rpa]) (k3 ++ rpb :: k4)).
    + by rewrite <- app_assoc.
    + set_solver.
    + set_solver.
Qed.

(** Merging target lists keeps, in order, the first entry of each peer, and so
    the bootstrap entry of a peer that is in both; no peer is lost and none is
    dialled twice. *)
Lemma merge_targets_spec (bootstrap remembered : list AddrInfo) :
  let out := MergeTargets bootstrap remembered in
  let all := bootstrap ++ remembered in
  out `sublist_of` all ∧ NoDup (ai_ID <$> out) ∧
  (∀ ai, ai ∈ out ↔ ∃ l1 l2, all = l1 ++ ai :: l2 ∧ ai_ID ai ∉ (ai_ID <$> l1)) ∧
  (∀ id, id ∈ (ai_ID <$> all) → id ∈ (ai_ID <$> out)) ∧
  (NoDup (ai_ID <$> bootstrap) → bootstrap `prefix_of` out).
Proof.
  cbn zeta. unfold MergeTargets. rewrite <- foldl_app.
  pose proof (merge_target_spec (bootstrap ++ remembered) ∅ []) as Hspec.
  pose proof (merge_target_spec bootstrap ∅ []) as Hboot.
  pose proof (merge_target_spec remembered) as Hrest.
  rewrite foldl_app in Hspec |- *. destruct (foldl merge_target (∅, []) bootstrap) as [seen0 r0].
  destruct Hboot as (Hseen0 & new0 & Hr0 & Hsub0 & Hin0 & Hnd0).
  specialize (Hrest seen0 r0). destruct (foldl merge_target (seen0, r0) remembered) as [seen r].
  destruct Hrest as (_ & rest & Hr & _). destruct Hspec as (_ & new & Hnew & Hsub & Hin & Hnd). cbn in Hr0, Hnew. subst r0.
  cbn [snd]. rewrite Hnew in Hr |- *. split_and!; [done|done| | |].
  - intros ai. rewrite Hin. set_solver.
  - intros id Hid.
    assert (Hfirst : ∀ l, id ∈ (ai_ID <$> l) → ∃ l1 ai l2, l = l1 ++ ai :: l2 ∧ ai_ID ai = id ∧ id ∉ (ai_ID <$> l1)).
    { clear. induction l as [|a l IH]; [by intros ?%not_elem_of_nil|]. rewrite fmap_cons. intros Hin.
      destruct (decide (ai_ID a = id)) as [Ha|Ha].
      - exists [], a, l. split_and!; [done|done|set_solver].
      - destruct IH as (l1 & ai & l2 & -> & ? & ?); [set_solver|]. exists (a :: l1), ai, l2.
        split_and!; [done|done|]. rewrite fmap_cons. set_solver. }
    destruct (Hfirst _ Hid) as (l1 & ai & l2 & Heq & Hai & Hn). apply list_elem_of_fmap. exists ai.
    split; [done|]. apply Hin. exists l1, l2. rewrite Hai. set_solver.
  - intros Hndb. assert (new0 = bootstrap) as ->; [|by exists rest].
    assert (Hall : ∀ ai, ai ∈ bootstrap → ai ∈ new0).
    { intros ai Hai. apply Hin0. apply list_elem_of_split in Hai as (l1 & l2 & Heq). exists l1, l2.
      split_and!; [done|set_solver|]. rewrite Heq, fmap_app, fmap_cons in Hndb.
      apply NoDup_app in Hndb as (_ & Hd & _). intros Hc. by apply (Hd _ Hc); left. }
    assert (Hlen : (length bootstrap <= length new0)%nat).
    { apply submseteq_length, NoDup_submseteq; [by eapply NoDup_fmap_1|done]. }
    by apply sublist_length_eq.
Qed.
End peer_memory_theorems.

(** ** Concrete inputs *)

Definition day : Instant := 24 * Hour.
Definition one_remembered : PeerMemory :=
  mkPeerMemory {["bob" := mkRemembered "bob" ["/dns4/b/tcp/1"] 0]} true None.

Lemma one_remembered_ok : @pm_ok plain_peers one_remembered.
Proof.
  intros id rp Hid. unfold one_remembered in Hid. cbn [pm_peers] in Hid.
  apply lookup_singleton_Some in Hid as [<- <-]. by vm_compute.
Qed.

Definition two_conns : list (peerID * option (@Multiaddr plain_multiaddr)) :=
  [("bob", Some "/ip4/1.2.3.4/tcp/5"); ("carol", Some "/p2p/x/p2p-circuit")].
