(* ===== verification/Host.v ===== *)
(** * The libp2p host ([internal/host/host.go]) and reconnecting
    ([cmd/node/main.go], [persistentReconnectLoop])

    The node's identity, the options its host is built with, and dialling the
    peers it should be connected to. *)

From S2P Require Import Prelude GoTime Prog GoStrings Files Packet Multiaddr Json Config Presence Card PeerMemory.

#[local] Open Scope string_scope.
#[local] Open Scope list_scope.
#[local] Open Scope Z_scope.

(** ** Identity *)

(** go-libp2p's [core/crypto]: keys as bytes, and the [n]-th key generated. *)
Class KeyCodec `{Crypto} := {
  MarshalPrivateKey : PrivKey → option bytes;
  UnmarshalPrivateKey : bytes → option PrivKey;
  GenerateEd25519Key : nat → option PrivKey
}.

Class KeyCodecLaws `{Crypto} (K : KeyCodec) := {
  key_roundtrip k b : MarshalPrivateKey k = Some b → UnmarshalPrivateKey b = Some k
}.

Inductive IdentityError := ParseKeypair | ReadKeypair | GenerateKeypair | MarshalKeypair | WriteKeypair.

Definition LoadOrCreateIdentity `{OSEnv} `{KeyCodec} (path : string) : prog FS (res IdentityError PrivKey) :=
  data ← ReadFile path;
  match data with
  | Ok data => mret (match UnmarshalPrivateKey data with Some priv => Ok priv | None => Err ParseKeypair end)
  | Err OtherReadError => mret (Err ReadKeypair)
  | Err NotExist =>
      n ← gets ops;
      match GenerateEd25519Key n with
      | None => mret (Err GenerateKeypair)
      | Some priv =>
          match MarshalPrivateKey priv with
          | None => mret (Err MarshalKeypair)
          | Some out =>
              w ← WriteFile path out;
              mret (match w with Ok _ => Ok priv | Err _ => Err WriteKeypair end)
          end
      end
  end.

(** ** Building the host *)

Section host.
Context `{MultiaddrLib}.

Fixpoint parseMultiaddrs (addrs : list string) : res string (list Multiaddr) :=
  match addrs with
  | [] => Ok []
  | s :: addrs =>
      match NewMultiaddr s with
      | None => Err s
      | Some a => match parseMultiaddrs addrs with Ok l => Ok (a :: l) | Err e => Err e end
      end
  end.

Definition dropQUIC (addrs : list Multiaddr) : list Multiaddr :=
  filter (λ a, Contains (ma_String a) "quic" = false) addrs.

(** The [libp2p.Option]s the code uses. *)
Inductive HostOption :=
| OptIdentity | OptListenAddrs (l : list Multiaddr) | OptTCP | OptNoise | OptYamux
| OptConnectionManager (low high : Z) | OptNATService | OptHolePunching | OptRelay
| OptQUIC | OptRelayService | OptAddrsFactory (l : list Multiaddr) | OptPrivateNetwork (psk : bytes).

Inductive HostError := BadListenAddr (s : string) | BadConnManager | BadAnnounceAddr (s : string) | BuildHost.

(** The options [New] collects; a [nil] key is [None]. [connmgr low high] is
    whether the connection manager accepts its limits. *)
Definition host_options (connmgr : Z → Z → bool) (cfg : Config) (psk : option bytes) : res HostError (list HostOption) :=
  match parseMultiaddrs (ListenAddrs cfg) with
  | Err s => Err (BadListenAddr s)
  | Ok listen =>
      let low := Z.quot (MaxPeers cfg) 2 in
      if negb (connmgr low (MaxPeers cfg)) then Err BadConnManager
      else
        let listen := match psk with Some _ => dropQUIC listen | None => listen end in
        let opts := [OptIdentity; OptListenAddrs listen; OptTCP; OptNoise; OptYamux;
                     OptConnectionManager low (MaxPeers cfg); OptNATService; OptHolePunching; OptRelay] in
        let opts := match psk with None => opts ++ [OptQUIC] | Some _ => opts end in
        let opts := if RelayEnabled cfg then opts ++ [OptRelayService] else opts in
        let announced :=
          if (0 <? length (AnnounceAddrs cfg))%nat then
            match parseMultiaddrs (AnnounceAddrs cfg) with
            | Err s => Err (BadAnnounceAddr s)
            | Ok announce => Ok (opts ++ [OptAddrsFactory announce])
            end
          else Ok opts in
        match announced with
        | Err e => Err e
        | Ok opts => Ok (match psk with Some psk => opts ++ [OptPrivateNetwork psk] | None => opts end)
        end
  end.

Inductive AddrError := ParseAddr (s : string) | MissingP2p (s : string).

Fixpoint ParsePeerAddrs (addrs : list string) : res AddrError (list AddrInfo) :=
  match addrs with
  | [] => Ok []
  | s :: addrs =>
      match NewMultiaddr s with
      | None => Err (ParseAddr s)
      | Some maddr =>
          match AddrInfoFromP2pAddr maddr with
          | None => Err (MissingP2p s)
          | Some (id, l) =>
              match ParsePeerAddrs addrs with Ok out => Ok (mkAddrInfo _ id l :: out) | Err e => Err e end
          end
      end
  end.

(** ** Dialling *)

(** The network: the peers this host is connected to, and how often it
    dialled. *)
Record Net := mkNet { connected : gset peerID; dials : nat }.

(** Whether the [n]-th dial, of this target, succeeds. *)
Class Dialer := { dial_ok : nat → AddrInfo → bool }.

Section dialling.
Context `{Dialer}.

(** [h.Connect] *)
Definition Connect (ai : AddrInfo) : prog Net bool :=
  atomic (λ net,
    let ok := dial_ok (dials net) ai in
    (mkNet (if ok then {[ai_ID ai]} ∪ connected net else connected net) (S (dials net)), ok)).

(** The loop of [ConnectPeers]; the error is that of the first dial that
    failed. *)
Fixpoint connect_loop (self : peerID) (infos : list AddrInfo) (n : Z) (firstErr : option peerID) :
    prog Net (Z * option peerID) :=
  match infos with
  | [] => mret (n, firstErr)
  | ai :: infos =>
      if decide (ai_ID ai = self) then connect_loop self infos n firstErr
      else
        live ← gets (λ net, bool_decide (ai_ID ai ∈ connected net));
        if (live : bool) then connect_loop self infos n firstErr
        else
          ok ← Connect ai;
          if (ok : bool) then connect_loop self infos (n + 1) firstErr
          else connect_loop self infos n (match firstErr with None => Some (ai_ID ai) | Some e => Some e end)
  end.

Definition ConnectPeers (self : peerID) (infos : list AddrInfo) : prog Net (Z * option peerID) :=
  connect_loop self infos 0 None.

Definition ConnectBootstrap (self : peerID) (addrs : list string) : prog Net (res AddrError (Z * option peerID)) :=
  match ParsePeerAddrs addrs with
  | Err e => mret (Err e)
  | Ok infos => r ← ConnectPeers self infos; mret (Ok r)
  end.
End dialling.
End host.

(** One tick of [persistentReconnectLoop]: the new memory, and the targets it
    dials. [conns] is what [h.Network().Conns()] returns. *)
Definition reconnect_tick `{PeerLib} `{MultiaddrLib} `{MapRange} (self : peerID) (bootstrap : list AddrInfo)
    (conns : list (peerID * option Multiaddr)) (now : Instant) (written : bool) (junk : option (option json))
    (pm : PeerMemory) : PeerMemory * list AddrInfo :=
  let pm := PeerMemory_Save now written junk (PeerMemory_Snapshot self conns now pm) in
  (pm, MergeTargets bootstrap (DialTargets self now pm)).

(** ** Lemmas *)

Section host_lemmas.
Context `{M : MultiaddrLib} `{D : !Dialer}.

Lemma run_Connect ai net :
  run (Connect ai) net =
    (mkNet (if dial_ok (dials net) ai then {[ai_ID ai]} ∪ connected net else connected net) (S (dials net)),
     dial_ok (dials net) ai).
Proof. unfold Connect. by rewrite run_atomic. Qed.

(** What a run of the loop over [infos] reports: from a count and a first error
    to a count and a first error, and what it did to the network. *)
Record dial_report (self : peerID) (infos : list AddrInfo) (n : Z) (e : option peerID) (net net' : Net) (n' : Z)
    (e' : option peerID) : Prop := {
  report_keeps : connected net ⊆ connected net';
  report_new id : id ∈ connected net' → id ∈ connected net ∨ (id ≠ self ∧ id ∈ (ai_ID <$> infos));
  report_count : n' = n + Z.of_nat (size (connected net') - size (connected net));
  report_none : e' = None → e = None ∧ ∀ ai, ai ∈ infos → ai_ID ai ≠ self → ai_ID ai ∈ connected net';
  report_all : NoDup (ai_ID <$> infos) → e = None →
    (∀ ai, ai ∈ infos → ai_ID ai ≠ self → ai_ID ai ∈ connected net') → e' = None;
  report_idle : (∀ ai, ai ∈ infos → ai_ID ai = self ∨ ai_ID ai ∈ connected net) → dials net' = dials net
}.

(** The three ways through the body: nothing to do, a dial that succeeds, one that
    fails. *)
Lemma report_skip self ai infos n e net net' n' e' :
  ai_ID ai = self ∨ ai_ID ai ∈ connected net →
  dial_report self infos n e net net' n' e' → dial_report self (ai :: infos) n e net net' n' e'.
Proof.
  intros Hcase [Hsub Hin Hn Hnone Hall Hd]. split; rewrite ?fmap_cons; try done.
  - set_solver.
  - intros He. destruct (Hnone He) as [-> Hc]. split; [done|].
    intros a [->|Ha]%elem_of_cons Hne; [|by apply Hc]. destruct Hcase as [?|Hc']; [done|by apply Hsub].
  - intros [_ Hnd]%NoDup_cons -> Hc. apply Hall; [done|done|]. intros a Ha. apply Hc. by right.
  - intros Hc. apply Hd. intros a Ha. apply Hc. by right.
Qed.

Lemma report_connected self ai infos n e net net' n' e' :
  ai_ID ai ≠ self → ai_ID ai ∉ connected net →
  dial_report self infos (n + 1) e (mkNet ({[ai_ID ai]} ∪ connected net) (S (dials net))) net' n' e' →
  dial_report self (ai :: infos) n e net net' n' e'.
Proof.
  intros Hself Hdead [Hsub Hin Hn Hnone Hall Hd]. cbn [connected dials] in *. split; rewrite ?fmap_cons.
  - set_solver.
  - set_solver.
  - rewrite Hn, size_union, size_singleton by set_solver.
    assert (size (connected net) < size (connected net'))%nat; [|lia].
    apply subset_size. split; [set_solver|]. intros Hno. apply Hdead, Hno. set_solver.
  - intros He. destruct (Hnone He) as [-> Hc]. split; [done|].
    intros a [->|Ha]%elem_of_cons Hne; [set_solver|by apply Hc].
  - intros [_ Hnd]%NoDup_cons -> Hc. apply Hall; [done|done|]. intros a Ha. apply Hc. by right.
  - intros Hc. destruct (Hc ai) as [?|?]; [by left|done|done].
Qed.

Lemma report_failed self ai infos n e e1 net net' n' e' :
  ai_ID ai ≠ self → ai_ID ai ∉ connected net → e1 ≠ None →
  dial_report self infos n e1 (mkNet (connected net) (S (dials net))) net' n' e' →
  dial_report self (ai :: infos) n e net net' n' e'.
Proof.
  intros Hself Hdead He1 [Hsub Hin Hn Hnone Hall Hd]. cbn [connected dials] in *. split; rewrite ?fmap_cons; try done.
  - set_solver.
  - intros He. by destruct (Hnone He) as [Hbad _].
  - intros [Hnin Hnd]%NoDup_cons -> Hc. exfalso.
    destruct (Hin (ai_ID ai)) as [?|[_ ?]]; [apply Hc; [by left|done]|done|done].
  - intros Hc. destruct (Hc ai) as [?|?]; [by left|done|done].
Qed.

Lemma connect_loop_spec self infos n e net :
  let '(net', (n', e')) := run (connect_loop self infos n e) net in dial_report self infos n e net net' n' e'.
Proof.
  revert n e net. induction infos as [|ai infos IH]; intros n e net; cbn [connect_loop].
  { cbn. split; try done; [by left|lia|]. intros ->. split; [done|]. by intros ai ?%not_elem_of_nil. }
  pose proof (IH n e net) as Hskip.
  case_decide as Hself; [destruct (run _ net) as [? [? ?]]; by apply report_skip; [left|]|].
  go_gets.
  destruct (bool_decide_reflect (ai_ID ai ∈ connected net)) as [Hlive|Hdead];
    [destruct (run _ net) as [? [? ?]]; by apply report_skip; [right|]|].
  clear Hskip. rewrite run_bind, run_Connect. cbn [fst snd].
  destruct (dial_ok (dials net) ai); cbn [fst snd].
  - specialize (IH (n + 1) e (mkNet ({[ai_ID ai]} ∪ connected net) (S (dials net)))).
    destruct (run _ _) as [? [? ?]]. by apply report_connected.
  - specialize (IH n (match e with None => Some (ai_ID ai) | Some e => Some e end)
      (mkNet (connected net) (S (dials net)))).
    destruct (run _ _) as [? [? ?]]. eapply report_failed; [done|done| |exact IH]. by destruct e.
Qed.

Lemma parseMultiaddrs_Ok l out :
  parseMultiaddrs l = Ok out → Forall2 (λ s a, NewMultiaddr s = Some a) l out.
Proof.
  revert out. induction l as [|s l IH]; intros out; cbn; [intros [= <-]; constructor|].
  destruct (NewMultiaddr s) as [a|] eqn:E; [|done].
  destruct (parseMultiaddrs l) as [r|]; [|done]. intros [= <-]. constructor; [done|by apply IH].
Qed.
End host_lemmas.

(** The options: the key decides about the private network and about QUIC, which
    cannot be protected by it. *)
Lemma host_options_spec `{M : MultiaddrLib} (connmgr : Z → Z → bool) (cfg : Config)
    (psk : option bytes) (opts : list HostOption) (Hopts : host_options connmgr cfg psk = Ok opts) :
  (∀ k, OptPrivateNetwork k ∈ opts ↔ psk = Some k) ∧
  (OptQUIC ∈ opts ↔ psk = None) ∧
  (OptRelayService ∈ opts ↔ RelayEnabled cfg = true) ∧
  ∃ listen, parseMultiaddrs (ListenAddrs cfg) = Ok listen ∧
    ∀ l, OptListenAddrs l ∈ opts ↔
      l = match psk with Some _ => filter (λ a, Contains (ma_String a) "quic" = false) listen | None => listen end.
Proof.
  unfold host_options in Hopts. destruct (parseMultiaddrs (ListenAddrs cfg)) as [listen|]; [|done].
  destruct (negb _); [done|].
  assert (Hann : ∃ extra, (extra = [] ∨ ∃ l, extra = [OptAddrsFactory l]) ∧ opts =
    (([OptIdentity; OptListenAddrs (match psk with Some _ => dropQUIC listen | None => listen end); OptTCP; OptNoise;
       OptYamux; OptConnectionManager (Z.quot (MaxPeers cfg) 2) (MaxPeers cfg); OptNATService; OptHolePunching; OptRelay]
      ++ (match psk with None => [OptQUIC] | Some _ => [] end) ++ (if RelayEnabled cfg then [OptRelayService] else []))
      ++ extra ++ match psk with Some k => [OptPrivateNetwork k] | None => [] end)).
  { destruct (0 <? length (AnnounceAddrs cfg))%nat.
    - destruct (parseMultiaddrs (AnnounceAddrs cfg)) as [ann|]; [|done]. injection Hopts as <-.
      exists [OptAddrsFactory ann]. split; [by right; eexists|]. by destruct psk, (RelayEnabled cfg).
    - injection Hopts as <-. exists []. split; [by left|]. by destruct psk, (RelayEnabled cfg). }
  destruct Hann as (extra & Hextra & ->). clear Hopts. split_and!.
  - intros k. destruct Hextra as [->|[l ->]], psk, (RelayEnabled cfg); set_solver.
  - destruct Hextra as [->|[l ->]], psk, (RelayEnabled cfg); set_solver.
  - destruct Hextra as [->|[l ->]], psk, (RelayEnabled cfg); set_solver.
  - exists listen. split; [done|]. intros l. unfold dropQUIC.
    destruct Hextra as [->|[l' ->]], psk, (RelayEnabled cfg); set_solver.
Qed.

Section identity_lemmas.
Context `{OSEnv} `{C : Crypto} `{K : @KeyCodec C}.

(** What [LoadOrCreateIdentity] leaves on the disk: the key, and every other
    file, also its own if there was one. *)
Lemma identity_file `{!KeyCodecLaws K} path fs fs' k :
  run (LoadOrCreateIdentity path) fs = (fs', Ok k) →
  ∃ b, files fs' !! path = Some b ∧ UnmarshalPrivateKey b = Some k ∧
    ∀ other, is_Some (files fs !! path) ∨ other ≠ path → files fs' !! other = files fs !! other.
Proof.
  unfold LoadOrCreateIdentity. go_read.
  destruct (files fs !! path) as [b|] eqn:Ef.
  - destruct (read_fails _ _); [done|]. cbn. destruct (UnmarshalPrivateKey b) as [k'|] eqn:Eu; [|done].
    intros [= <- <-]. by exists b.
  - rewrite run_bind, run_gets. cbn [fst snd ops].
    destruct (GenerateEd25519Key _) as [k'|]; [|done]. destruct (MarshalPrivateKey k') as [out|] eqn:Em; [|done].
    rewrite run_bind. destruct (run (WriteFile path out) _) as [s [[]|]] eqn:Ew; [|done].
    cbn. intros [= <- <-]. apply WriteFile_ok in Ew. cbn [files] in Ew. exists out. rewrite Ew, lookup_insert_eq.
    split_and!; [done|by apply key_roundtrip|]. intros other [[? ?]|Hne]; [done|]. by rewrite lookup_insert_ne.
Qed.

Lemma identity_settled path fs b k :
  files fs !! path = Some b → UnmarshalPrivateKey b = Some k →
  run (LoadOrCreateIdentity path) fs =
    (mkFS (files fs) (S (ops fs)), if read_fails (ops fs) path then Err ReadKeypair else Ok k).
Proof.
  intros Hb Hu. unfold LoadOrCreateIdentity. go_read. cbn [files ops].
  rewrite Hb. destruct (read_fails _ path); [done|]. cbn. by rewrite Hu.
Qed.
End identity_lemmas.

(** ** Theorems *)

(** A node keeps its identity: the key it starts with is the one it will start
    with from then on. After a success, whether the key was read or made,
    loading it again reads the same key and writes nothing; and no other file is
    touched. *)
Theorem identity_stable `{OSEnv} `{C : Crypto} `{K : @KeyCodec C, !KeyCodecLaws K} (path : string)
    (fs fs' : FS) (k : PrivKey) (Hrun : run (LoadOrCreateIdentity path) fs = (fs', Ok k)) :
  (∀ n, run (LoadOrCreateIdentity path) (mkFS (files fs') n) =
     (mkFS (files fs') (S n), if read_fails n path then Err ReadKeypair else Ok k)) ∧
  (∀ other, other ≠ path → files fs' !! other = files fs !! other).
Proof.
  destruct (identity_file _ _ _ _ Hrun) as (b & Hb & Hu & Hother). split.
  - intros n. by apply (identity_settled _ (mkFS (files fs') n) b).
  - intros other Hne. by apply Hother; right.
Qed.

(** Dialling reports what it did: no connection is lost, new ones only lead to
    targets other than this node, and the count is the number of new ones;
    there is no error only if every target other than this node is connected in
    the end, and for targets without duplicates exactly then; and when nothing
    is missing, nothing is dialled. *)
Theorem connect_peers_spec `{M : MultiaddrLib} `{D : !Dialer} (self : peerID) (infos : list AddrInfo) (net : Net) :
  let net' := exec (ConnectPeers self infos) net in
  let '(n, err) := result (ConnectPeers self infos) net in
  let reached := ∀ ai, ai ∈ infos → ai_ID ai ≠ self → ai_ID ai ∈ connected net' in
  connected net ⊆ connected net' ∧
  (∀ id, id ∈ connected net' ∖ connected net → id ≠ self ∧ id ∈ (ai_ID <$> infos)) ∧
  n = Z.of_nat (size (connected net' ∖ connected net)) ∧
  (err = None → reached) ∧
  (NoDup (ai_ID <$> infos) → (err = None ↔ reached)) ∧
  ((∀ ai, ai ∈ infos → ai_ID ai = self ∨ ai_ID ai ∈ connected net) → dials net' = dials net).
Proof.
  pose proof (connect_loop_spec self infos 0 None net) as Hspec. unfold exec, result, ConnectPeers.
  destruct (run (connect_loop self infos 0 None) net) as [net' [n e]].
  destruct Hspec as [Hsub Hin Hn Hnone Hall Hd]. cbn [fst snd]. split_and!; try done.
  - set_solver.
  - by rewrite size_difference.
  - intros ->. by apply Hnone.
  - intros Hnd. split; [by intros ->; apply Hnone|by apply Hall].
Qed.


(** ** Concrete libraries and inputs *)

Definition plain_keys : @KeyCodec plain_crypto :=
  @Build_KeyCodec plain_crypto (λ k, Some k) (λ b, Some b) (λ _, Some "key").

#[export] Instance plain_keys_laws : KeyCodecLaws plain_keys.
Proof. split. by intros k b [= ->]. Qed.

Lemma identity_stable_witness :
  let fs' := exec (@LoadOrCreateIdentity reliable plain_crypto plain_keys "node.key") (mkFS ∅ 0) in
  (∀ n, run (@LoadOrCreateIdentity reliable plain_crypto plain_keys "node.key") (mkFS (files fs') n) =
     (mkFS (files fs') (S n), Ok "key")) ∧
  (∀ other, other ≠ "node.key" → files fs' !! other = files (mkFS ∅ 0) !! other).
Proof.
  apply (@identity_stable reliable plain_crypto plain_keys _ "node.key" (mkFS ∅ 0)). reflexivity.
Defined.

Definition no_memory : PeerMemory := mkPeerMemory ∅ false None.

