(* ===== verification/Ping.v ===== *)
(** * Round-trip times of the connected nodes ([internal/ping/manager.go])

    A measurement per new connection, forgotten when the last connection to
    the peer closes. *)

From S2P Require Import Prelude GoTime Prog Packet Multiaddr.

#[local] Open Scope Z_scope.

(** [type NodeInfo struct] *)
Record NodeInfo := mkNodeInfo { ni_PeerID : string; ni_Multiaddr : string; ni_RTTms : Z }.

(** A call of [onEvent]. *)
Record NodeEvent := mkNodeEvent { ne_peer : peerID; ne_rttMs : Z; ne_connected : bool }.

(** [res.RTT.Milliseconds()] *)
Definition Milliseconds (d : Duration) : Z := Z.quot d Millisecond.

Section ping.
Context `{PeerLib} `{MultiaddrLib}.

(** [type Manager struct], with the connections of the host (the addresses of
    those to each peer, first one first), in the order of [Peers()], and the
    events sent so far. *)
Record PingManager := mkPing {
  rtts : gmap peerID Duration;
  conns : list (peerID * list Multiaddr);
  events : list NodeEvent
}.

Definition set_rtts (f : gmap peerID Duration → gmap peerID Duration) (m : PingManager) : PingManager :=
  mkPing (f (rtts m)) (conns m) (events m).
Definition set_conns (cs : list (peerID * list Multiaddr)) (m : PingManager) : PingManager :=
  mkPing (rtts m) cs (events m).
Definition on_event (e : NodeEvent) (m : PingManager) : PingManager :=
  mkPing (rtts m) (conns m) (events m ++ [e]).

(** [ConnsToPeer] *)
Definition ConnsToPeer (p : peerID) (m : PingManager) : list Multiaddr :=
  mjoin ((λ '(q, l), if decide (q = p) then l else []) <$> conns m).

(** The [DisconnectedF] callback. *)
Definition disconnected (p : peerID) : prog PingManager unit :=
  n ← gets (λ m, length (ConnsToPeer p m));
  if (0 <? n)%nat then mret tt
  else modify (set_rtts (delete p));; modify (on_event (mkNodeEvent p 0 false)).

(** [measure]; [res] is what the ping gave: [None] is an error or the timeout. *)
Definition measure (p : peerID) (res : option Duration) : prog PingManager unit :=
  match res with
  | None => mret tt
  | Some rtt =>
      modify (set_rtts <[p := rtt]>);;
      modify (on_event (mkNodeEvent p (Milliseconds rtt) true))
  end.

(** [Nodes]: the host's lists are read as one; only [rtts] has a lock. *)
Definition Nodes : prog PingManager (list NodeInfo) :=
  gets (λ m, omap (λ '(p, _),
    match ConnsToPeer p m with
    | [] => None
    | a :: _ => Some (mkNodeInfo (IDString p) (ma_String a) (Milliseconds (default 0 (rtts m !! p))))
    end) (conns m)).

(** [Count] *)
Definition Count : prog PingManager nat := gets (λ m, length (conns m)).

(** The host calls the callbacks; the network changes on its own. *)
Inductive ping_call : prog PingManager unit → Prop :=
| call_measure p res : ping_call (measure p res)
| call_disconnected p : ping_call (disconnected p)
| call_nodes : ping_call (_ ← Nodes; mret tt).

Inductive ping_env : PingManager → PingManager → Prop :=
| ping_env_conns m cs : ping_env m (set_conns cs m).
End ping.

(** ** Theorems *)

(** What [/nodes] shows: with each peer listed once by the host, one entry for
    each peer with a connection, in the host's order, with the address of its
    first connection and the last round trip measured, or zero before the first
    one; the reading changes nothing, and [Count] counts the host's peers. *)
Theorem nodes_spec `{L : PeerLib} `{M : MultiaddrLib} (m : PingManager) (Hnd : NoDup (conns m).*1) :
  run Nodes m = (m,
    omap (λ '(p, l), a ← head l;
      Some (mkNodeInfo (IDString p) (ma_String a) (Milliseconds (default 0 (rtts m !! p))))) (conns m)) ∧
  run Count m = (m, length (conns m)).
Proof.
  split; [|done]. unfold Nodes. rewrite run_gets. f_equal.
  assert (Hone : ∀ p l, (p, l) ∈ conns m → ConnsToPeer p m = l).
  { intros p l. unfold ConnsToPeer. clear -Hnd. induction (conns m) as [|[q k] cs IH]; [by intros ?%not_elem_of_nil|].
    cbn in Hnd. apply NoDup_cons in Hnd as [Hq Hnd]. rewrite fmap_cons. cbn [mjoin list_join].
    intros [[= -> ->]|Hin]%elem_of_cons.
    - rewrite decide_True by done. rewrite <- (app_nil_r k) at 2. f_equal.
      clear -Hq. induction cs as [|[r j] cs IH]; [done|]. cbn in Hq |- *.
      rewrite decide_False by set_solver. apply IH. set_solver.
    - rewrite decide_False.
      + cbn [app]. by apply IH.
      + intros ->. apply Hq, list_elem_of_fmap. by exists (p, l). }
  assert (Hsub : conns m ⊆ conns m) by done. revert Hsub. generalize (conns m) at 1 3 4 as cs.
  induction cs as [|[p l] cs IH]; intros Hsub; [done|]. cbn.
  rewrite (Hone p l) by (apply Hsub; by left).
  rewrite IH by (intros x Hx; apply Hsub; by right). by destruct l.
Qed.

Module Race.
Definition bob : peerID := "bob"%string.
Definition empty_ping : @PingManager plain_multiaddr := @mkPing plain_multiaddr ∅ [] [].

(** A measurement that has its result, and the callback of the only
    connection's closing. *)
Definition goroutines : list (prog (@PingManager plain_multiaddr) unit) :=
  [measure bob (Some (30 * Millisecond)); disconnected bob].

(** The callback runs from start to end, then the measurement stores what it
    got. *)
Definition outcome : config := sched [1; 1; 1; 0; 0]%nat (empty_ping, goroutines).
End Race.

(** A measurement that finishes late brings a closed node back: there is a
    reachable state, with nothing left to run, in which the peer has no
    connection, but its round-trip time is kept and the last event the apps
    were sent says it is connected. *)
Theorem late_measure_revives :
  let c := Race.outcome in
  rtc (cstep ping_env (@ping_call plain_peers plain_multiaddr)) (Race.empty_ping, []) c ∧
  c.2 = [Ret tt; Ret tt] ∧
  ConnsToPeer Race.bob c.1 = [] ∧ rtts c.1 !! Race.bob = Some (30 * Millisecond) ∧
  events c.1 = [mkNodeEvent Race.bob 0 false; mkNodeEvent Race.bob 30 true].
Proof.
  cbn zeta. split_and!; try reflexivity.
  unfold Race.outcome. etrans; [|apply sched_reachable].
  apply (go_all _ _ _ [] Race.goroutines). repeat constructor.
Qed.

Definition one_conn : @PingManager plain_multiaddr :=
  @mkPing plain_multiaddr ∅ [("bob"%string, ["/dns4/b"%string])] [].

Lemma nodes_spec_witness :
  run (@Nodes plain_peers plain_multiaddr) one_conn = (one_conn, [mkNodeInfo "bob" "/dns4/b" 0]) ∧
  run Count one_conn = (one_conn, 1%nat).
Proof. apply (@nodes_spec plain_peers plain_multiaddr one_conn). repeat constructor. by intros ?%not_elem_of_nil. Defined.
