(* ===== verification/Server.v ===== *)
(** * WebSocket clients ([internal/api/wsclient.go], [server.go], [events.go],
    [handleWS] of [handlers.go])

    The sockets apps keep open, the channel of each, and how the server adds,
    removes and reaches them. A client is an object that several goroutines
    hold; it lives in a store under a number, and the server's set of clients
    holds the numbers. Sending on a closed channel, or closing one twice, would
    crash the node: the model has that as a state, and proves it unreachable. *)

From S2P Require Import Prelude GoTime Prog Packet Json Encoding Config.

#[local] Open Scope string_scope.
#[local] Open Scope list_scope.
#[local] Open Scope Z_scope.

(** ** Events ([events.go]), as the JSON they are sent as *)

Definition peerOnlineEvent (peer via : string) : json :=
  JObj [("type", JStr "peer_online"); ("peer_id", JStr peer); ("via_node", JStr via)].
Definition peerOfflineEvent (peer : string) : json :=
  JObj [("type", JStr "peer_offline"); ("peer_id", JStr peer)].
Definition nodeConnectedEvent (node : string) (rtt : Z) : json :=
  JObj [("type", JStr "node_connected"); ("node_peer_id", JStr node); ("rtt_ms", JInt rtt)].
Definition nodeDisconnectedEvent (node : string) : json :=
  JObj [("type", JStr "node_disconnected"); ("node_peer_id", JStr node)].
Definition packetReceivedEvent (sender payload : string) (timestamp : Z) : json :=
  JObj [("type", JStr "packet_received"); ("sender_peer_id", JStr sender);
        ("payload", JStr payload); ("timestamp", JInt timestamp)].
Definition errorEvent (code message : string) : json :=
  JObj [("type", JStr "error"); ("code", JStr code); ("message", JStr message)].

(** ** A client *)

Definition wsSendBuffer : nat := 64.

(** A buffered Go channel. *)
Record chan := mkChan { chan_buf : list json; chan_closed : bool }.

(** [select { case ch <- b: default: }] and [close(ch)]; [None] is a panic. *)
Definition chan_trySend (b : json) (ch : chan) : option chan :=
  if chan_closed ch then None
  else if (length (chan_buf ch) <? wsSendBuffer)%nat then Some (mkChan (chan_buf ch ++ [b]) false)
  else Some ch.
Definition chan_close (ch : chan) : option chan :=
  if chan_closed ch then None else Some (mkChan (chan_buf ch) true).

(** [type wsClient struct], with what has been written to its socket, whether
    [writePump] runs, and, for the statements, all it was offered while open. *)
Record wsClient := mkClient {
  wc_appPeer : peerID;
  wc_send : chan;
  wc_closed : bool;
  wc_written : list json;
  wc_pump : bool;
  wc_offered : list json
}.

Definition newWSClient (appPeer : peerID) : wsClient :=
  mkClient appPeer (mkChan [] false) false [] true [].

(** [trySend] and [close]; [None] is a panic. *)
Definition wc_trySend (b : json) (c : wsClient) : option wsClient :=
  if wc_closed c then Some c
  else
    match chan_trySend b (wc_send c) with
    | None => None
    | Some ch => Some (mkClient (wc_appPeer c) ch (wc_closed c) (wc_written c) (wc_pump c) (wc_offered c ++ [b]))
    end.

Definition wc_close (c : wsClient) : option wsClient :=
  if wc_closed c then Some c
  else
    match chan_close (wc_send c) with
    | None => None
    | Some ch => Some (mkClient (wc_appPeer c) ch true (wc_written c) (wc_pump c) (wc_offered c))
    end.

(** One iteration of [writePump], when it takes from the channel: [ok] is
    whether writing to the socket succeeds. Nothing happens while the channel is
    open and empty, nor after the pump has ended. *)
Definition writePump (ok : bool) (c : wsClient) : wsClient :=
  if negb (wc_pump c) then c
  else
    match chan_buf (wc_send c) with
    | msg :: buf =>
        let ch := mkChan buf (chan_closed (wc_send c)) in
        if ok then mkClient (wc_appPeer c) ch (wc_closed c) (wc_written c ++ [msg]) true (wc_offered c)
        else mkClient (wc_appPeer c) ch (wc_closed c) (wc_written c) false (wc_offered c)
    | [] =>
        if chan_closed (wc_send c)
        then mkClient (wc_appPeer c) (wc_send c) (wc_closed c) (wc_written c) false (wc_offered c)
        else c
    end.

(** The other case of its loop, a tick of the ping ticker: a ping that cannot be
    written ends the pump, too. *)
Definition pingPump (ok : bool) (c : wsClient) : wsClient :=
  if negb (wc_pump c) || ok then c
  else mkClient (wc_appPeer c) (wc_send c) (wc_closed c) (wc_written c) false (wc_offered c).

(** [readPump]: messages are read and dropped until one cannot be read, for what
    the reads gave so far ([true] is a message). *)
Fixpoint readPump {S} (reads : list bool) (onClose : prog S unit) : prog S unit :=
  match reads with
  | [] => Ret tt
  | true :: reads => readPump reads onClose
  | false :: _ => onClose
  end.

Lemma readPump_cases {S} reads (onClose : prog S unit) :
  readPump reads onClose = onClose ∨ readPump reads onClose = Ret tt.
Proof. induction reads as [|[] reads IH]; [by right|done|by left]. Qed.

(** ** The server *)

(** [type Server struct], as far as it concerns clients: [relayed] are the app
    peers registered with the relay manager (the keys of its [localApps], see
    [AppConnected] and [AppDisconnected] there), [crashed] is whether a
    goroutine has panicked. *)
Record Server := mkServer {
  MaxApps : Z;                     (* cfg.MaxAppConnections *)
  selfID : string;                 (* s.h.ID().String() *)
  objs : gmap nat wsClient;
  clients : gmap nat unit;
  appPeer : peerID;
  nextClient : nat;
  relayed : gset peerID;
  crashed : bool
}.

Definition set_objs (f : gmap nat wsClient → gmap nat wsClient) (s : Server) : Server :=
  mkServer (MaxApps s) (selfID s) (f (objs s)) (clients s) (appPeer s) (nextClient s) (relayed s) (crashed s).
Definition set_clients (cs : gmap nat unit) (app : peerID) (s : Server) : Server :=
  mkServer (MaxApps s) (selfID s) (objs s) cs app (nextClient s) (relayed s) (crashed s).
Definition set_relayed (f : gset peerID → gset peerID) (s : Server) : Server :=
  mkServer (MaxApps s) (selfID s) (objs s) (clients s) (appPeer s) (nextClient s) (f (relayed s)) (crashed s).
Definition crash (s : Server) : Server :=
  mkServer (MaxApps s) (selfID s) (objs s) (clients s) (appPeer s) (nextClient s) (relayed s) true.

(** A method of the client object [id], under its mutex. *)
Definition on_client (f : wsClient → option wsClient) (id : nat) (s : Server) : Server :=
  match objs s !! id with
  | None => s
  | Some c => match f c with Some c => set_objs <[id := c]> s | None => crash s end
  end.

Section server.
Context `{MapRange}.

(** Whether client [id] has this peer ID; the field never changes. *)
Definition client_of (s : Server) (p : peerID) (id : nat) : bool :=
  match objs s !! id with Some c => bool_decide (wc_appPeer c = p) | None => false end.

Definition trySend (b : json) (id : nat) : prog Server unit := modify (on_client (wc_trySend b) id).
Definition close (id : nat) : prog Server unit := modify (on_client wc_close id).

(** The clients are those of the set when the read lock was taken; while the
    lock is held none is added or removed, but the clients' own mutexes are
    taken one after the other. *)
Definition broadcast (ev : json) : prog Server unit :=
  ids ← gets (λ s, (range (clients s)).*1);
  for_each ids (trySend ev).

Definition sendToApp (p : peerID) (ev : json) : prog Server unit :=
  ids ← gets (λ s, filter (λ id, client_of s p id = true) (range (clients s)).*1);
  for_each ids (trySend ev).

(** [newWSClient] and [addClient]. *)
Definition addClient (p : peerID) : prog Server nat :=
  atomic (λ s,
    let id := nextClient s in
    (mkServer (MaxApps s) (selfID s) (<[id := newWSClient p]> (objs s)) (<[id := tt]> (clients s)) p (S id)
       (relayed s) (crashed s), id)).

Definition removeClient (id : nat) : prog Server unit :=
  modify (λ s,
    let cs := delete id (clients s) in
    let app :=
      match objs s !! id with
      | None => appPeer s
      | Some c =>
          if decide (appPeer s = wc_appPeer c) then
            if existsb (client_of s (wc_appPeer c)) (range cs).*1 then wc_appPeer c else ""
          else appPeer s
      end in
    set_clients cs app s).

Definition hasClientFor (p : peerID) : prog Server bool :=
  gets (λ s, existsb (client_of s p) (range (clients s)).*1).

Definition currentAppPeer : prog Server peerID := gets appPeer.

(** The locked region of [Shutdown]. *)
Definition Shutdown : prog Server unit :=
  modify (λ s, set_clients ∅ (appPeer s) (foldl (λ s id, on_client wc_close id s) s (range (clients s)).*1)).

Definition OnAppPeerEvent (peer via : string) (online : bool) : prog Server unit :=
  if online then broadcast (peerOnlineEvent peer via) else broadcast (peerOfflineEvent peer).

Definition OnNodeEvent (node : string) (rtt : Z) (connected : bool) : prog Server unit :=
  if connected then broadcast (nodeConnectedEvent node rtt) else broadcast (nodeDisconnectedEvent node).

(** The relay manager's side of [AppConnected] and [AppDisconnected]. *)
Definition relay_AppConnected (p : peerID) : prog Server unit := modify (set_relayed (union {[p]})).
Definition relay_AppDisconnected (p : peerID) : prog Server unit := modify (set_relayed (λ r, r ∖ {[p]})).

Inductive WSError := AtCapacity | UpgradeFailed.

(** [handleWS], up to the pumps; [text] prints a peer ID, [upgraded] is whether
    the upgrade to a WebSocket succeeds. *)
Definition ws_open (text : peerID → string) (p : peerID) (upgraded : bool) : prog Server (res WSError nat) :=
  full ← gets (λ s, (0 <? MaxApps s) && (MaxApps s <=? Z.of_nat (size (clients s))));
  if (full : bool) then mret (Err AtCapacity)
  else if negb upgraded then mret (Err UpgradeFailed)
  else
    id ← addClient p;
    me ← gets selfID;
    broadcast (peerOnlineEvent (text p) me);;
    relay_AppConnected p;;
    mret (Ok id).

(** [onClose] of client [id], when [readPump] returns. *)
Definition ws_close (text : peerID → string) (p : peerID) (id : nat) : prog Server unit :=
  removeClient id;;
  close id;;
  more ← hasClientFor p;
  if (more : bool) then mret tt
  else relay_AppDisconnected p;; broadcast (peerOfflineEvent (text p)).

(** ** The server among its goroutines *)

Inductive sv_call (text : peerID → string) : prog Server unit → Prop :=
| call_open p up : sv_call text (_ ← ws_open text p up; mret tt)
| call_close p id : sv_call text (ws_close text p id)
| call_broadcast ev : sv_call text (broadcast ev)
| call_send p ev : sv_call text (sendToApp p ev)
| call_shutdown : sv_call text Shutdown.

(** A pump takes from its channel, or its ping ticker fires. *)
Inductive sv_env : Server → Server → Prop :=
| sv_env_pump s id ok : sv_env s (on_client (λ c, Some (writePump ok c)) id s)
| sv_env_ping s id ok : sv_env s (on_client (λ c, Some (pingPump ok c)) id s).

(** ** The invariant *)

(** A client in order: the flag tells whether the channel is closed; the
    channel holds at most what fits; and what was written and what waits are,
    in order, some of what was offered. *)
Record client_ok (c : wsClient) : Prop := {
  ok_closed : chan_closed (wc_send c) = wc_closed c;
  ok_bound : (length (chan_buf (wc_send c)) <= wsSendBuffer)%nat;
  ok_order : wc_written c ++ chan_buf (wc_send c) `sublist_of` wc_offered c
}.

Record server_ok (s : Server) : Prop := {
  ok_alive : crashed s = false;
  ok_objs id c : objs s !! id = Some c → client_ok c ∧ (id < nextClient s)%nat;
  ok_clients id : is_Some (clients s !! id) → is_Some (objs s !! id);
  ok_app : appPeer s ≠ "" → clients s ≠ ∅ →
    ∃ id c, is_Some (clients s !! id) ∧ objs s !! id = Some c ∧ wc_appPeer c = appPeer s
}.
End server.

(** ** Lemmas: one client *)

Lemma wc_trySend_ok b c :
  client_ok c → ∃ c', wc_trySend b c = Some c' ∧ client_ok c' ∧ wc_appPeer c' = wc_appPeer c.
Proof.
  intros Hok. pose proof Hok as [Hc Hb Ho]. unfold wc_trySend, chan_trySend. destruct (wc_closed c) eqn:Ec; [by exists c|].
  rewrite Hc. destruct (Nat.ltb_spec (length (chan_buf (wc_send c))) wsSendBuffer).
  - eexists. split; [done|]. split; [|done]. split; cbn; [done|rewrite length_app; cbn; lia|].
    rewrite (assoc_L app). by apply sublist_app.
  - eexists. split; [done|]. split; [|done]. split; cbn; [done|done|]. by apply sublist_inserts_r.
Qed.

Lemma wc_close_ok c : client_ok c → ∃ c', wc_close c = Some c' ∧ client_ok c' ∧ wc_appPeer c' = wc_appPeer c.
Proof.
  intros Hok. pose proof Hok as [Hc Hb Ho]. unfold wc_close, chan_close. destruct (wc_closed c) eqn:Ec; [by exists c|].
  rewrite Hc. eexists. split; [done|]. by split.
Qed.

Lemma writePump_ok ok c : client_ok c → client_ok (writePump ok c) ∧ wc_appPeer (writePump ok c) = wc_appPeer c.
Proof.
  intros Hok. pose proof Hok as [Hc Hb Ho]. unfold writePump. destruct (negb (wc_pump c)); [by split|].
  destruct (chan_buf (wc_send c)) as [|msg buf] eqn:Eb.
  - destruct (chan_closed (wc_send c)) eqn:Ecl; [|by split].
    split; [|done]. split; cbn; rewrite ?Eb; [congruence|done|done].
  - cbn in Hb. destruct ok; (split; [|done]); split; cbn; try done; try lia.
    + by rewrite <- (assoc_L app).
    + etrans; [|exact Ho]. apply sublist_app; [done|]. by apply sublist_cons.
Qed.

Lemma pingPump_ok ok c : client_ok c → client_ok (pingPump ok c) ∧ wc_appPeer (pingPump ok c) = wc_appPeer c.
Proof. intros [Hc Hb Ho]. unfold pingPump. by destruct (_ || _). Qed.

(** ** Lemmas: the server *)

Section server_lemmas.
Context `{MR : MapRange}.

Definition keeps (f : wsClient → option wsClient) : Prop :=
  ∀ c, client_ok c → ∃ c', f c = Some c' ∧ client_ok c' ∧ wc_appPeer c' = wc_appPeer c.

Lemma keeps_trySend b : keeps (wc_trySend b).
Proof. intros c. apply wc_trySend_ok. Qed.
Lemma keeps_close : keeps wc_close.
Proof. intros c. apply wc_close_ok. Qed.
Lemma keeps_pump ok : keeps (λ c, Some (writePump ok c)).
Proof. intros c Hc. eexists. split; [done|]. by apply writePump_ok. Qed.
Lemma keeps_ping ok : keeps (λ c, Some (pingPump ok c)).
Proof. intros c Hc. eexists. split; [done|]. by apply pingPump_ok. Qed.

Lemma on_client_clients f id s : clients (on_client f id s) = clients s.
Proof. unfold on_client. destruct (objs s !! id); [|done]. by destruct (f _). Qed.

Lemma on_client_ok f id s : keeps f → server_ok s → server_ok (on_client f id s).
Proof.
  intros Hf [Ha Ho Hc Happ]. unfold on_client. destruct (objs s !! id) as [c|] eqn:E; [|by split].
  destruct (Ho id c E) as [Hcok Hlt]. destruct (Hf c Hcok) as (c' & -> & Hc' & Hp).
  split; cbn [crashed objs clients appPeer nextClient set_objs]; [done| | |].
  - intros id' c0. rewrite lookup_insert. case_decide; [|by apply Ho]. intros [= <-]. by subst.
  - intros id' Hid. rewrite lookup_insert. case_decide; [by eexists|]. by apply Hc.
  - intros Hne Hcl. destruct (Happ Hne Hcl) as (i & ci & Hi & Hoi & Hpi). exists i.
    rewrite lookup_insert. case_decide as Hd; [|by exists ci]. subst i. exists c'. split_and!; [done|done|].
    congruence.
Qed.

Lemma fold_clients_ok f ids s : keeps f → server_ok s → server_ok (foldl (λ s id, on_client f id s) s ids).
Proof.
  intros Hf. revert s. induction ids as [|id ids IH]; intros s Hs; [done|]. cbn. by apply IH, on_client_ok.
Qed.

#[local] Abbreviation stable := (Prog.stable server_ok).

Lemma trySend_stable b id : stable (trySend b id).
Proof. apply stable_modify. intros s. apply on_client_ok, keeps_trySend. Qed.

Lemma close_stable id : stable (close id).
Proof. apply stable_modify. intros s. apply on_client_ok, keeps_close. Qed.

Lemma broadcast_stable ev : stable (broadcast ev).
Proof.
  apply stable_bind; [apply stable_gets|intros ids]. apply stable_for_each. intros. apply trySend_stable.
Qed.

Lemma sendToApp_stable p ev : stable (sendToApp p ev).
Proof.
  apply stable_bind; [apply stable_gets|intros ids]. apply stable_for_each. intros. apply trySend_stable.
Qed.

Lemma addClient_stable p : stable (addClient p).
Proof.
  apply stable_atomic. intros s [Ha Ho Hc Happ]. split; cbn; [done| | |].
  - intros id c. rewrite lookup_insert. case_decide as Hd.
    + intros [= <-]. subst id. split; [|lia]. split; cbn; [done|lia|done].
    + intros Hid. destruct (Ho id c Hid). split; [done|lia].
  - intros id. rewrite !lookup_insert. case_decide; [by eexists|]. apply Hc.
  - intros _ _. exists (nextClient s), (newWSClient p). by rewrite !lookup_insert_eq.
Qed.

Lemma client_of_true s p id : client_of s p id = true ↔ ∃ c, objs s !! id = Some c ∧ wc_appPeer c = p.
Proof.
  unfold client_of. destruct (objs s !! id) as [c|].
  - rewrite bool_decide_eq_true. naive_solver.
  - split; [done|]. by intros (? & ? & _).
Qed.

Lemma exists_client s p (cs : gmap nat unit) :
  existsb (client_of s p) (range cs).*1 = true ↔
  ∃ id c, is_Some (cs !! id) ∧ objs s !! id = Some c ∧ wc_appPeer c = p.
Proof.
  rewrite existsb_exists. split.
  - intros (id & Hin%list_elem_of_In & Hc). apply fst_in_range in Hin. apply client_of_true in Hc as (c & ? & ?). eauto.
  - intros (id & c & Hid & Hc & Hp). exists id. split; [by apply list_elem_of_In, fst_in_range|].
    apply client_of_true. eauto.
Qed.

Lemma removeClient_stable id : stable (removeClient id).
Proof.
  apply stable_modify. intros s [Ha Ho Hc Happ].
  split; cbn [crashed objs clients appPeer nextClient set_clients]; [done|done| |].
  - intros i. destruct (decide (id = i)) as [->|Hne]; [by rewrite lookup_delete_eq; intros []|].
    rewrite lookup_delete_ne by done. apply Hc.
  - destruct (objs s !! id) as [c|] eqn:E.
    + case_decide as Hd.
      * destruct (existsb _ _) eqn:Ex; [|done]. intros _ _. by apply exists_client in Ex.
      * intros Hne Hcl. destruct Happ as (i & ci & Hi & Hoi & Hpi); [done| |].
        { intros He. apply Hcl. by rewrite He, delete_empty. }
        exists i, ci. split_and!; [|done|done]. rewrite lookup_delete_ne; [done|]. intros ->. congruence.
    + intros Hne Hcl. destruct Happ as (i & ci & Hi & Hoi & Hpi); [done| |].
      { intros He. apply Hcl. by rewrite He, delete_empty. }
      exists i, ci. split_and!; [|done|done]. rewrite lookup_delete_ne; [done|]. intros ->. congruence.
Qed.

Lemma fold_clients_clients f ids s : clients (foldl (λ s id, on_client f id s) s ids) = clients s.
Proof. revert s. induction ids as [|id ids IH]; intros s; [done|]. cbn. by rewrite IH, on_client_clients. Qed.

Lemma Shutdown_stable : stable Shutdown.
Proof.
  apply stable_modify. intros s Hs.
  destruct (fold_clients_ok wc_close (range (clients s)).*1 s keeps_close Hs) as [Ha Ho _ _].
  split; cbn [crashed objs clients appPeer nextClient set_clients]; [done|done| |done].
  intros id. by rewrite lookup_empty; intros [].
Qed.

Lemma set_relayed_stable f : stable (modify (set_relayed f)).
Proof. apply stable_modify. intros s [Ha Ho Hc Happ]. by split. Qed.

Lemma sv_call_stable text p : sv_call text p → stable p.
Proof.
  intros [p' up|p' id|ev|p' ev|].
  - apply stable_bind; [|intros; apply stable_ret]. apply stable_bind; [apply stable_gets|intros full].
    destruct full; [apply stable_ret|]. destruct (negb up); [apply stable_ret|].
    apply stable_bind; [apply addClient_stable|intros id]. apply stable_bind; [apply stable_gets|intros me].
    apply stable_bind; [apply broadcast_stable|intros []].
    apply stable_bind; [apply set_relayed_stable|intros []]. apply stable_ret.
  - apply stable_bind; [apply removeClient_stable|intros []]. apply stable_bind; [apply close_stable|intros []].
    apply stable_bind; [apply stable_gets|intros []]; [apply stable_ret|].
    apply stable_bind; [apply set_relayed_stable|intros []]. apply broadcast_stable.
  - apply broadcast_stable.
  - apply sendToApp_stable.
  - apply Shutdown_stable.
Qed.

Lemma sv_env_ok s s' : sv_env s s' → server_ok s → server_ok s'.
Proof. intros [s0 id ok|s0 id ok]; apply on_client_ok; [apply keeps_pump|apply keeps_ping]. Qed.

Lemma sv_reachable_ok text s0 c :
  server_ok s0 → rtc (cstep sv_env (sv_call text)) (s0, []) c → server_ok c.1.
Proof.
  intros H0 Hr. apply (reachable_invariant sv_env (sv_call text) server_ok (s0, []) c).
  - apply sv_env_ok.
  - apply sv_call_stable.
  - exact Hr.
  - exact H0.
  - constructor.
Qed.

(** One pass over distinct clients. *)
Lemma lookup_fold_clients f ids s id c :
  NoDup ids → keeps f → server_ok s → objs s !! id = Some c →
  objs (foldl (λ s id, on_client f id s) s ids) !! id = if decide (id ∈ ids) then f c else Some c.
Proof.
  intros Hnd Hf. revert s c. induction ids as [|i ids IH]; intros s c Hs Hc; [done|].
  apply NoDup_cons in Hnd as [Hni Hnd]. cbn [foldl].
  assert (Hs' : server_ok (on_client f i s)) by (by apply on_client_ok).
  destruct (decide (i = id)) as [->|Hne].
  - rewrite decide_True by set_solver. destruct (ok_objs _ Hs id c Hc) as [Hcok _].
    destruct (Hf c Hcok) as (c' & Hfc & _). unfold on_client at 2. rewrite Hc, Hfc.
    rewrite (IH Hnd (set_objs <[id := c']> s) c').
    + by rewrite decide_False.
    + unfold on_client in Hs'. by rewrite Hc, Hfc in Hs'.
    + cbn. by rewrite lookup_insert_eq.
  - rewrite (IH Hnd (on_client f i s) c Hs').
    + destruct (decide (id ∈ ids)), (decide (id ∈ i :: ids)); set_solver.
    + unfold on_client. destruct (objs s !! i); [|done]. destruct (f _); [|done].
      cbn. by rewrite lookup_insert_ne.
Qed.
End server_lemmas.

(** ** One connection after the other *)

Definition NewServer (max : Z) (self : string) : Server := mkServer max self ∅ ∅ "" 0 ∅ false.

Inductive ws_op := OpOpen (p : peerID) (upgraded : bool) | OpClose (id : nat).

Section sequential.
Context `{MR : MapRange} (text : peerID → string).

(** A socket opens, or an open one closes. *)
Definition ws_exec (s : Server) (op : ws_op) : Server :=
  match op with
  | OpOpen p up => exec (ws_open text p up) s
  | OpClose id =>
      match objs s !! id with
      | Some c => exec (ws_close text (wc_appPeer c) id) s
      | None => s
      end
  end.

(** The relay has exactly the apps that have a socket. *)
Definition registered (s : Server) : Prop :=
  ∀ p, p ∈ relayed s ↔ ∃ id, is_Some (clients s !! id) ∧ client_of s p id = true.

(** Two states that differ in channels only. *)
Record same_book (s s' : Server) : Prop := {
  sb_max : MaxApps s' = MaxApps s;
  sb_clients : clients s' = clients s;
  sb_next : nextClient s' = nextClient s;
  sb_relayed : relayed s' = relayed s;
  sb_peers p id : client_of s' p id = client_of s p id;
  sb_ok : server_ok s'
}.

Lemma same_book_registered s s' : same_book s s' → registered s → registered s'.
Proof. intros [_ Hc _ Hr Hp _] Hreg p. rewrite Hr, Hc, (Hreg p). f_equiv. intros i. by rewrite Hp. Qed.

Lemma same_book_refl s : server_ok s → same_book s s.
Proof. by split. Qed.

Lemma same_book_on_client f id s s' :
  keeps f → same_book s s' → same_book s (on_client f id s').
Proof.
  intros Hf [? ? ? ? Hp Hok]. pose proof (on_client_ok f id s' Hf Hok) as Hok'. revert Hok'. unfold on_client.
  destruct (objs s' !! id) as [c|] eqn:E; [|by split]. destruct (ok_objs _ Hok id c E) as [Hc _].
  destruct (Hf c Hc) as (c' & -> & _ & Hpeer). intros Hok'. split; try done. intros p i. rewrite <- Hp.
  unfold client_of. cbn [objs set_objs]. rewrite lookup_insert. case_decide as Hd; [|done]. subst i.
  by rewrite E, Hpeer.
Qed.

Lemma same_book_each ev ids s s' :
  same_book s s' → same_book s (foldl (λ s x, (run (trySend ev x) s).1) s' ids).
Proof.
  revert s'. induction ids as [|id ids IH]; intros s' Hs; [done|]. cbn [foldl]. apply IH.
  apply (same_book_on_client (wc_trySend ev) id); [apply keeps_trySend|done].
Qed.

Lemma same_book_broadcast ev s s' : same_book s s' → same_book s (run (broadcast ev) s').1.
Proof. intros Hs. unfold broadcast. go_gets. rewrite run_for_each. by apply same_book_each. Qed.

Lemma set_relayed_ok f s : server_ok s → server_ok (set_relayed f s).
Proof. intros [? ? ? ?]. by split. Qed.

(** What opening and closing do to the books. *)
Lemma ws_open_spec p up s :
  server_ok s →
  let full := (0 <? MaxApps s) && (MaxApps s <=? Z.of_nat (size (clients s))) in
  let id := nextClient s in
  if full then run (ws_open text p up) s = (s, Err AtCapacity)
  else if up then
    result (ws_open text p up) s = Ok id ∧
    let s' := exec (ws_open text p up) s in
    server_ok s' ∧ MaxApps s' = MaxApps s ∧ clients s' = <[id := tt]> (clients s) ∧
    relayed s' = {[p]} ∪ relayed s ∧
    (∀ q i, client_of s' q i = if decide (i = id) then bool_decide (p = q) else client_of s q i)
  else run (ws_open text p up) s = (s, Err UpgradeFailed).
Proof.
  intros Hok. cbn zeta. unfold result, exec, ws_open. go_gets.
  destruct (_ && _); [done|]. destruct up; cbn [negb]; [|done].
  set (s1 := (run (addClient p) s).1).
  assert (Hs1 : server_ok s1) by (by apply (run_safe server_ok _ _ s (addClient_stable p) Hok)).
  assert (Hrun : run (addClient p) s = (s1, nextClient s)).
  { subst s1. unfold addClient. by rewrite run_atomic. }
  assert (Hc1 : clients s1 = <[nextClient s := tt]> (clients s) ∧ relayed s1 = relayed s ∧ MaxApps s1 = MaxApps s ∧
    ∀ q i, client_of s1 q i = if decide (i = nextClient s) then bool_decide (p = q) else client_of s q i).
  { subst s1. unfold addClient. rewrite run_atomic. cbn [fst clients relayed MaxApps]. split_and!; [done..|].
    intros q i. unfold client_of. cbn [objs]. rewrite lookup_insert.
    destruct (decide (i = nextClient s)) as [->|Hne]; [by rewrite decide_True|by rewrite decide_False]. }
  clearbody s1. rewrite run_bind, Hrun. cbn [fst snd]. go_gets. rewrite run_bind.
  pose proof (same_book_broadcast (peerOnlineEvent (text p) (selfID s1)) s1 s1 (same_book_refl s1 Hs1)) as Hsb.
  set (s2 := (run (broadcast _) s1).1) in *. clearbody s2. rewrite run_bind. cbn [relay_AppConnected run modify fst snd].
  rewrite run_ret. cbn [fst snd]. destruct Hsb as [Hm Hc _ Hr Hp Hs2], Hc1 as (Hcl & Hrel & Hmax & Hpeer).
  split; [done|]. split_and!; [by apply set_relayed_ok| | | |]; cbn [MaxApps clients relayed set_relayed].
  - congruence.
  - congruence.
  - congruence.
  - intros q i. rewrite <- Hpeer, <- Hp. done.
Qed.

Lemma ws_close_spec p id s :
  server_ok s → client_of s p id = true →
  let s' := exec (ws_close text p id) s in
  let more := existsb (client_of s p) (range (delete id (clients s))).*1 in
  server_ok s' ∧ MaxApps s' = MaxApps s ∧ clients s' = delete id (clients s) ∧
  relayed s' = (if more then relayed s else relayed s ∖ {[p]}) ∧
  (∀ q i, client_of s' q i = client_of s q i).
Proof.
  intros Hok Hid. cbn zeta. unfold exec, ws_close. rewrite run_bind.
  set (s1 := (run (removeClient id) s).1).
  assert (Hs1 : server_ok s1) by (by apply (run_safe server_ok _ _ s (removeClient_stable id) Hok)).
  assert (Hc1 : clients s1 = delete id (clients s) ∧ relayed s1 = relayed s ∧ MaxApps s1 = MaxApps s ∧
    ∀ q i, client_of s1 q i = client_of s q i) by done.
  clearbody s1. rewrite run_bind.
  pose proof (same_book_on_client wc_close id s1 s1 keeps_close (same_book_refl s1 Hs1)) as Hsb.
  change (run (close id) s1).1 with (on_client wc_close id s1).
  set (s2 := on_client wc_close id s1) in *. clearbody s2. rewrite run_bind. unfold hasClientFor. rewrite run_gets.
  cbn [fst snd]. destruct Hsb as [Hm Hc _ Hr Hp Hs2], Hc1 as (Hcl & Hrel & Hmax & Hpeer).
  assert (Hmore : existsb (client_of s2 p) (range (clients s2)).*1 =
    existsb (client_of s p) (range (delete id (clients s))).*1).
  { rewrite Hc, Hcl. induction (range (delete id (clients s))).*1 as [|i l IH]; [done|]. cbn. by rewrite Hp, Hpeer, IH. }
  rewrite Hmore. clear Hmore. destruct (existsb (client_of s p) (range (delete id (clients s))).*1).
  - cbn [run mret prog_ret fst]. split_and!; try done; [congruence..|]. intros q i. by rewrite Hp, Hpeer.
  - rewrite run_bind. cbn [relay_AppDisconnected run modify fst snd].
    set (s3 := set_relayed (λ r, r ∖ {[p]}) s2).
    assert (Hs3 : server_ok s3) by (by apply set_relayed_ok).
    pose proof (same_book_broadcast (peerOfflineEvent (text p)) s3 s3 (same_book_refl s3 Hs3)) as [Hm3 Hc3 _ Hr3 Hp3 Hs3'].
    split_and!; [done| | | |].
    + rewrite Hm3. cbn. congruence.
    + rewrite Hc3. cbn. congruence.
    + rewrite Hr3. cbn. congruence.
    + intros q i. rewrite Hp3. change (client_of s3 q i) with (client_of s2 q i). by rewrite Hp, Hpeer.
Qed.

Definition books (s : Server) : Prop :=
  server_ok s ∧ registered s ∧ (0 < MaxApps s → Z.of_nat (size (clients s)) <= MaxApps s).

Lemma registered_open s s' p :
  server_ok s → registered s → relayed s' = {[p]} ∪ relayed s → clients s' = <[nextClient s := tt]> (clients s) →
  (∀ q i, client_of s' q i = if decide (i = nextClient s) then bool_decide (p = q) else client_of s q i) →
  registered s'.
Proof.
  intros Hok Hreg Hr Hc Hp q. rewrite Hr, Hc, elem_of_union, elem_of_singleton, (Hreg q). split.
  - intros [->|(i & Hi & Hq)].
    { exists (nextClient s). rewrite lookup_insert_eq, Hp, decide_True by done. by rewrite bool_decide_eq_true_2. }
    assert (i ≠ nextClient s).
    { apply client_of_true in Hq as (c & Hci & _). apply (ok_objs _ Hok) in Hci as [_ ?]. lia. }
    exists i. by rewrite lookup_insert_ne, Hp, decide_False by done.
  - intros (i & Hi & Hq). rewrite Hp in Hq. case_decide as Hd.
    { left. by apply bool_decide_eq_true in Hq. }
    right. exists i. by rewrite lookup_insert_ne in Hi by done.
Qed.

Lemma registered_close s s' id c :
  registered s → objs s !! id = Some c → clients s' = delete id (clients s) →
  relayed s' = (if existsb (client_of s (wc_appPeer c)) (range (delete id (clients s))).*1
                then relayed s else relayed s ∖ {[wc_appPeer c]}) →
  (∀ q i, client_of s' q i = client_of s q i) → registered s'.
Proof.
  intros Hreg E Hc Hr Hp q. rewrite Hr, Hc. setoid_rewrite Hp.
  assert (Hone : ∀ q', client_of s q' id = true → q' = wc_appPeer c).
  { intros q' (c' & Hc' & Hq')%client_of_true. congruence. }
  destruct (existsb _ _) eqn:Ex.
  - apply exists_client in Ex as (i0 & c0 & Hi0 & Hc0 & Hp0). rewrite (Hreg q). split.
    { intros (i & Hi & Hq). destruct (decide (i = id)) as [->|Hne].
      - apply Hone in Hq as ->. exists i0. split; [done|]. apply client_of_true. eauto.
      - exists i. by rewrite lookup_delete_ne. }
    intros (i & Hi & Hq). exists i. split; [|done]. rewrite lookup_delete_is_Some in Hi. by destruct Hi.
  - rewrite elem_of_difference, elem_of_singleton, (Hreg q). split.
    { intros [(i & Hi & Hq) Hne]. exists i. split; [|done]. rewrite lookup_delete_ne; [done|]. intros ->.
      by apply Hne, Hone. }
    intros (i & Hi & Hq). split.
    { exists i. split; [|done]. rewrite lookup_delete_is_Some in Hi. by destruct Hi. }
    intros ->. assert (existsb (client_of s (wc_appPeer c)) (range (delete id (clients s))).*1 = true); [|congruence].
    apply client_of_true in Hq as (ci & Hci & Hpi). apply exists_client. eauto.
Qed.

Lemma ws_exec_books s op : books s → books (ws_exec s op) ∧ MaxApps (ws_exec s op) = MaxApps s.
Proof.
  intros (Hok & Hreg & Hcap). destruct op as [p up|id]; cbn [ws_exec].
  - pose proof (ws_open_spec p up s Hok) as Hspec. cbn zeta in Hspec.
    destruct ((0 <? MaxApps s) && (MaxApps s <=? Z.of_nat (size (clients s)))) eqn:Efull.
    { unfold exec. rewrite Hspec. done. }
    destruct up; [|unfold exec; by rewrite Hspec].
    destruct Hspec as (_ & Hok' & Hm & Hc & Hr & Hp). set (s' := exec _ s) in *. clearbody s'.
    split; [|done]. split_and!; [done|by apply (registered_open s s' p)|].
    rewrite Hm, Hc. intros Hpos. pose proof (size_insert_le (clients s) (nextClient s) tt). zbool.
    rewrite andb_false_iff, Z.ltb_ge, Z.leb_gt in Efull. lia.
  - destruct (objs s !! id) as [c|] eqn:E; [|done].
    assert (Hid : client_of s (wc_appPeer c) id = true) by (apply client_of_true; eauto).
    pose proof (ws_close_spec (wc_appPeer c) id s Hok Hid) as (Hok' & Hm & Hc & Hr & Hp).
    set (s' := exec _ s) in *. clearbody s'. split; [|done]. split_and!; [done|by eapply registered_close|].
    rewrite Hm, Hc. intros Hpos.
    pose proof (map_subseteq_size _ _ (delete_subseteq (clients s) id)). specialize (Hcap Hpos). lia.
Qed.
End sequential.

(** A delivery reaches every socket of the app and no other: each open one gets
    the event behind what it has waiting, unless its queue is full, when it is
    dropped for that socket only. *)
Lemma sendToApp_spec `{MR : MapRange} (p : peerID) (ev : json) (s : Server) (id : nat) (c : wsClient)
    (Hok : server_ok s) (Hc : objs s !! id = Some c) :
  let s' := exec (sendToApp p ev) s in
  let room := (length (chan_buf (wc_send c)) < wsSendBuffer)%nat in
  ∃ c', objs s' !! id = Some c' ∧
    (is_Some (clients s !! id) → wc_appPeer c = p → wc_closed c = false →
       (room → chan_buf (wc_send c') = chan_buf (wc_send c) ++ [ev]) ∧
       (¬ room → chan_buf (wc_send c') = chan_buf (wc_send c))) ∧
    (¬ (is_Some (clients s !! id) ∧ wc_appPeer c = p ∧ wc_closed c = false) → c' = c) ∧
    clients s' = clients s.
Proof.
  cbn zeta. unfold exec, sendToApp. go_gets. rewrite run_for_each.
  set (ids := filter _ _).
  assert (Hfold : foldl (λ s x, (run (trySend ev x) s).1) s ids = foldl (λ s id, on_client (wc_trySend ev) id s) s ids) by done.
  rewrite Hfold.
  assert (Hnd : NoDup ids) by apply NoDup_filter, NoDup_fst_range.
  rewrite (lookup_fold_clients _ _ _ _ _ Hnd (keeps_trySend ev) Hok Hc), fold_clients_clients.
  assert (Hin : id ∈ ids ↔ is_Some (clients s !! id) ∧ wc_appPeer c = p).
  { subst ids. rewrite list_elem_of_filter, fst_in_range, client_of_true. split.
    - intros [(c' & Hc' & Hp) Hid]. split; [done|congruence].
    - intros [Hid Hp]. split; [|done]. eauto. }
  destruct (ok_objs _ Hok id c Hc) as [[Hcl Hb _] _].
  destruct (decide (id ∈ ids)) as [Hi|Hi].
  - apply Hin in Hi as [Hid Hp]. unfold wc_trySend, chan_trySend. rewrite Hcl.
    destruct (wc_closed c) eqn:Ecl.
    + exists c. split_and!; done.
    + destruct (Nat.ltb_spec (length (chan_buf (wc_send c))) wsSendBuffer); (eexists; split; [done|]); cbn; split_and!; try done.
      * intros Hno. by destruct Hno.
      * intros _ _ _. split; [lia|done].
      * intros Hno. by destruct Hno.
  - exists c. split; [done|]. split_and!; [|done|done]. intros Hid Hp _. destruct Hi. by apply Hin.
Qed.

(** ** Theorems *)

(** C25. No socket can crash the node: in every state reachable by any interleaving
    of connections opening and closing, broadcasts, deliveries, a shutdown and
    the write pumps, no goroutine has sent on a closed channel or closed one
    twice; no client's queue holds more than [wsSendBuffer] messages; what a
    client has been sent and still has waiting are, in order, messages it was
    offered; and the app peer new packets are attributed to, if there is one and
    any socket is open, has an open socket. *)
Theorem ws_safe `{MR : MapRange} (text : peerID → string) (max : Z) (self : string) (c : config)
    (Hr : rtc (cstep sv_env (sv_call text)) (NewServer max self, []) c) :
  crashed c.1 = false ∧
  (∀ id cl, objs c.1 !! id = Some cl →
     chan_closed (wc_send cl) = wc_closed cl ∧
     (length (chan_buf (wc_send cl)) <= wsSendBuffer)%nat ∧
     wc_written cl ++ chan_buf (wc_send cl) `sublist_of` wc_offered cl) ∧
  (appPeer c.1 ≠ "" → clients c.1 ≠ ∅ →
     ∃ id cl, is_Some (clients c.1 !! id) ∧ objs c.1 !! id = Some cl ∧ wc_appPeer cl = appPeer c.1).
Proof.
  assert (Hok : server_ok c.1).
  { apply (sv_reachable_ok text (NewServer max self)); [|done]. split; cbn; try done. by intros id []. }
  split_and!; [apply Hok| |apply Hok]. intros id cl Hcl. destruct (ok_objs _ Hok id cl Hcl) as [[? ? ?] _]. done.
Qed.

(** As long as sockets open and close one after the other, the relay knows an
    app exactly while the app has a socket, whichever of its sockets closes
    first; and there are never more sockets than the configuration allows. *)
Theorem ws_registered `{MR : MapRange} (text : peerID → string) (max : Z) (self : string) (ops : list ws_op) :
  let s := foldl (ws_exec text) (NewServer max self) ops in
  (∀ p, p ∈ relayed s ↔ ∃ id c, is_Some (clients s !! id) ∧ objs s !! id = Some c ∧ wc_appPeer c = p) ∧
  (0 < max → Z.of_nat (size (clients s)) <= max).
Proof.
  cbn zeta. assert (Hbooks : books (foldl (ws_exec text) (NewServer max self) ops) ∧
    MaxApps (foldl (ws_exec text) (NewServer max self) ops) = max).
  { induction ops as [|op ops IH] using rev_ind.
    - split; [|done]. split_and!.
      + split; cbn; try done. by intros id [].
      + intros p. cbn. split; [set_solver|]. intros (id & [? Hid] & _). by rewrite lookup_empty in Hid.
      + cbn. rewrite map_size_empty. lia.
    - rewrite foldl_snoc. destruct IH as [IH Hm]. destruct (ws_exec_books text _ op IH) as [? ->]. done. }
  destruct Hbooks as [(Hok & Hreg & Hcap) Hm]. rewrite Hm in Hcap. split; [|done].
  intros p. rewrite (Hreg p). split.
  - intros (id & Hid & (c & Hc & Hp)%client_of_true). eauto.
  - intros (id & c & Hid & Hc & Hp). exists id. rewrite client_of_true. eauto.
Qed.

(** ** Sockets that open and close at the same time *)

Module WSRace.
Definition name : peerID → string := id.
Definition open_bob : prog Server unit := _ ← ws_open name "bob" true; mret tt.

(** Bob's first socket is open; it closes while a second one opens: the closing
    side finds no other socket, the opening side runs from start to end, and
    then the closing side goes on. *)
Definition reconnect : config :=
  sched (replicate 10 0 ++ [1; 1; 1] ++ replicate 10 2 ++ replicate 10 1)%nat
    (NewServer 100 "self", [open_bob; ws_close name "bob" 0; open_bob]).

(** Two sockets open on a server that allows one: both look before either is
    added. *)
Definition crowd : config :=
  sched ([0; 1] ++ replicate 10 0 ++ replicate 10 1)%nat
    (NewServer 1 "self", [open_bob; _ ← ws_open name "carol" true; mret tt]).
End WSRace.

(** A reconnecting app can be lost: in a reachable state with nothing left to
    run, the app has an open socket, but the relay does not know it, so packets
    for it are not delivered; it stays so until it reconnects. *)
Theorem reconnect_unregisters :
  let c := WSRace.reconnect in
  rtc (cstep sv_env (sv_call WSRace.name)) (NewServer 100 "self", []) c ∧
  c.2 = [Ret tt; Ret tt; Ret tt] ∧
  (is_Some (clients c.1 !! 1%nat) ∧ client_of c.1 "bob" 1 = true) ∧
  "bob" ∉ relayed c.1.
Proof.
  cbn zeta. split_and!.
  - unfold WSRace.reconnect. etrans; [|apply sched_reachable].
    apply (go_all _ _ _ [] [_; _; _]). repeat constructor.
  - vm_compute. reflexivity.
  - vm_compute. eauto.
  - vm_compute. reflexivity.
  - apply (bool_decide_unpack _). vm_compute. exact I.
Qed.

(** The limit on sockets can be passed: [max_app_connections] is compared with
    the number of clients before the upgrade, and the client is added
    afterwards, so two connections can both find room for one. *)
Theorem limit_can_be_passed :
  let c := WSRace.crowd in
  rtc (cstep sv_env (sv_call WSRace.name)) (NewServer 1 "self", []) c ∧
  MaxApps c.1 = 1 ∧ size (clients c.1) = 2%nat.
Proof.
  cbn zeta. split_and!.
  - unfold WSRace.crowd. etrans; [|apply sched_reachable].
    apply (go_all _ _ _ [] [_; _]). repeat constructor.
  - vm_compute. reflexivity.
  - vm_compute. reflexivity.
Qed.

Lemma ws_safe_witness : crashed WSRace.reconnect.1 = false.
Proof.
  refine (proj1 (ws_safe WSRace.name 100 "self" WSRace.reconnect _)). unfold WSRace.reconnect.
  etrans; [|apply sched_reachable]. apply (go_all _ _ _ [] [_; _; _]). repeat constructor.
Defined.

(** Two sockets of one app. *)
Definition two_sockets : Server :=
  foldl (ws_exec WSRace.name) (NewServer 100 "self") [OpOpen "bob" true; OpOpen "bob" true].

Lemma NewServer_books max self : books (NewServer max self).
Proof.
  split_and!.
  - split; cbn; try done. by intros id [].
  - intros p. cbn. split; [set_solver|]. intros (id & [? Hid] & _). by rewrite lookup_empty in Hid.
  - cbn. rewrite map_size_empty. lia.
Qed.

Lemma two_sockets_ok : server_ok two_sockets.
Proof.
  apply (ws_exec_books WSRace.name _ (OpOpen "bob" true)).
  by apply (ws_exec_books WSRace.name _ (OpOpen "bob" true)), NewServer_books.
Qed.
