(* ===== verification/Node.v ===== *)
(** * Starting a node ([cmd/node/main.go], [internal/network/discovery.go]) and
    making a card ([cmd/gencard/main.go])

    What [run] reads, which parts of the node it brings up in which mode, and
    whom it dials. The libraries it starts (libp2p, the DHT, pubsub, bbolt) are
    parameters that say whether they start. *)

From S2P Require Import Prelude GoTime Prog GoStrings Files Packet Multiaddr Json Config Network Presence Card PeerMemory Host.

#[local] Open Scope string_scope.
#[local] Open Scope list_scope.
#[local] Open Scope Z_scope.

Definition DiscoveryTopic : string := "plural-star:discovery:networks".
Definition DefaultDirectoryURL : string := "".
Definition NetworkDBDefault : string := "./networks.db".

(** What the libraries can start: [connmgr_ok low high] is about the connection
    manager, [joins topic] about a gossip topic, [opens path] about the store. *)
Class Runtime `{MultiaddrLib} := {
  connmgr_ok : Z → Z → bool;
  host_builds : list HostOption → bool;
  dht_starts : string → bool;
  gossipsub_starts : bool;
  joins : string → bool;
  opens : string → bool
}.

Inductive StartError :=
| StartConfig (e : LoadError) | StartIdentity (e : IdentityError) | StartPSK (e : PSKError) | StartHost (e : HostError)
| StartDHT | StartGossip | StartRelay | StartRendezvous | StartStore | StartDiscovery | StartBootstrap (e : AddrError).

Section run.
Context `{MultiaddrLib} `{!Runtime} `{OSEnv} `{Yaml} `{C : Crypto} `{@KeyCodec C}.

(** [type node struct], and what its parts were given: the options of the host,
    the prefix the DHT was started and the host is advertised with, if it was;
    the topics joined; the path of the card store and the URL of the directory
    asked, if any; and the bootstrap peers. *)
Record Started := mkStarted {
  nd_cfg : Config;
  nd_priv : PrivKey;
  nd_options : list HostOption;
  nd_dht : option string;
  nd_topics : list string;
  nd_store : option string;
  nd_directory : option string;
  nd_bootstrap : list AddrInfo
}.

(** [psnhost.New] *)
Definition host_New (cfg : Config) (psk : option bytes) : res HostError (list HostOption) :=
  match host_options connmgr_ok cfg psk with
  | Err e => Err e
  | Ok opts => if host_builds opts then Ok opts else Err BuildHost
  end.

(** [if ok { k } else return the error] *)
Definition started {A} (ok : bool) (e : StartError) (k : res StartError A) : res StartError A :=
  if ok then k else Err e.

(** The part of [run] behind the reading of the files. *)
Definition bring_up (cfg : Config) (priv : PrivKey) (psk : option bytes) : res StartError Started :=
  match host_New cfg psk with
  | Err e => Err (StartHost e)
  | Ok opts =>
      let public := negb (String.eqb (NetworkMode cfg) ModePrivate) in
      let dht := if public then Some (DHTPrefix cfg) else None in
      started (match dht with Some prefix => dht_starts prefix | None => true end) StartDHT (
      started gossipsub_starts StartGossip (
      let presence := GossipPrefix cfg +:+ "presence" in
      started (joins presence) StartRelay (
      let rendezvous := GossipPrefix cfg +:+ "rendezvous" in
      started (joins rendezvous) StartRendezvous (
      started (if public then opens NetworkDBDefault else true) StartStore (
      started (if public then joins DiscoveryTopic else true) StartDiscovery (
      match ParsePeerAddrs (NetworkBootstrapPeers cfg) with
      | Err e => Err (StartBootstrap e)
      | Ok infos =>
          Ok (mkStarted cfg priv opts dht
            ([presence; rendezvous] ++ if public then [DiscoveryTopic] else [])
            (if public then Some NetworkDBDefault else None)
            (if public then Some (if String.eqb (DirectoryURL cfg) "" then DefaultDirectoryURL else DirectoryURL cfg)
             else None)
            infos)
      end))))))
  end.

(** [run], up to the first dial. *)
Definition start (configPath : string) : prog FS (res StartError Started) :=
  loaded ← Load configPath;
  c ←? mret (wrap_err StartConfig loaded);
  let cfg := c.1 in
  identity ← LoadOrCreateIdentity (KeypairPath cfg);
  priv ←? mret (wrap_err StartIdentity identity);
  if String.eqb (NetworkMode cfg) ModePrivate then
    key ← LoadPSK (PSKPath cfg);
    psk ←? mret (wrap_err StartPSK key);
    mret (bring_up cfg priv (Some psk))
  else mret (bring_up cfg priv None).

(** The initial dial of [run]: the targets, and the memory behind it. *)
Definition first_dial `{PeerLib} `{MapRange} (self : peerID) (bootstrap : list AddrInfo) (now : Instant) (pm : PeerMemory)
    (conns : list (peerID * option Multiaddr)) (written : bool) (junk : option (option json)) : PeerMemory * list AddrInfo :=
  let targets := MergeTargets bootstrap (DialTargets self now pm) in
  if (0 <? length targets)%nat
  then (PeerMemory_Save now written junk (PeerMemory_Snapshot self conns now pm), targets)
  else (pm, targets).

(** The end of [run], when the context is done. *)
Definition shut_down `{PeerLib} `{MapRange} (self : peerID) (conns : list (peerID * option Multiaddr)) (now : Instant)
    (written : bool) (junk : option (option json)) (pm : PeerMemory) : PeerMemory :=
  PeerMemory_Save now written junk (PeerMemory_Snapshot self conns now pm).

(** ** Peers found by the DHT and by mDNS *)

Section discovery.
Context `{!Dialer}.

(** The loop of [findAndConnect] over the peers found. *)
Fixpoint connect_found (self : peerID) (found : list AddrInfo) : prog Net unit :=
  match found with
  | [] => mret tt
  | ai :: found =>
      if bool_decide (ai_ID ai = self) || (length (ai_Addrs ai) =? 0)%nat then connect_found self found
      else
        live ← gets (λ net, bool_decide (ai_ID ai ∈ connected net));
        if (live : bool) then connect_found self found
        else Connect ai;; connect_found self found
  end.

(** [findAndConnect]: what [FindPeers] found, if it did not fail; and the loop of
    [AdvertiseAndDiscover] for the rounds so far. *)
Definition findAndConnect (self : peerID) (found : option (list AddrInfo)) : prog Net unit :=
  match found with None => mret tt | Some found => connect_found self found end.
Definition discoverLoop (self : peerID) (rounds : list (option (list AddrInfo))) : prog Net unit :=
  for_each rounds (findAndConnect self).

(** [mdnsNotifee.HandlePeerFound] *)
Definition HandlePeerFound (self : peerID) (pi : AddrInfo) : prog Net unit :=
  if decide (ai_ID pi = self) then mret tt else Connect pi;; mret tt.
End discovery.
End run.

(** ** [cmd/gencard] *)

Inductive CardError := MissingFlags | CardIdentity (e : IdentityError) | CardSign (e : SignError) | CardVerify (e : VerifyError).

(** [strings.Split(s, ",")] *)
Fixpoint split_commas (s : string) : list string :=
  match s with
  | "" => [""]
  | String a s =>
      if Ascii.eqb a (byte 44) then "" :: split_commas s
      else match split_commas s with x :: l => String a x :: l | [] => [String a ""] end
  end.

(** [main]: the card printed; [desc], [boot] and [ncount] are the other flags. *)
Definition gencard `{L : PeerLib} `{C : Crypto} `{OSEnv} `{@KeyCodec C}
    (key id name desc boot : string) (ncount : Z) (now : Instant) : prog FS (res CardError NetworkCard) :=
  if String.eqb id "" || String.eqb name "" then mret (Err MissingFlags)
  else
    identity ← LoadOrCreateIdentity key;
    priv ←? mret (wrap_err CardIdentity identity);
    let peers := filter (λ s, s ≠ "") (TrimSpace <$> split_commas boot) in
    let card := mkCard id name desc (match peers with [] => None | _ => Some peers end) ncount "" (Time.Unix now) "" in
    match SignNetworkCard card priv with
    | Err e => mret (Err (CardSign e))
    | Ok card => match VerifyNetworkCard card with Some e => mret (Err (CardVerify e)) | None => mret (Ok card) end
    end.

(** ** Lemmas *)

Section node_lemmas.
Context `{M : MultiaddrLib} `{R : !Runtime} `{OS : OSEnv} `{Y : Yaml} `{C : Crypto} `{K : @KeyCodec C}.

Lemma started_Ok {A} ok e (k : res StartError A) a : started ok e k = Ok a → ok = true ∧ k = Ok a.
Proof. by destruct ok. Qed.

(** What came up, when all did. *)
Lemma bring_up_Ok cfg priv psk nd :
  bring_up cfg priv psk = Ok nd →
  nd_cfg nd = cfg ∧ nd_priv nd = priv ∧ host_options connmgr_ok cfg psk = Ok (nd_options nd) ∧
  ParsePeerAddrs (NetworkBootstrapPeers cfg) = Ok (nd_bootstrap nd) ∧
  let topics := [GossipPrefix cfg +:+ "presence"; GossipPrefix cfg +:+ "rendezvous"] in
  if String.eqb (NetworkMode cfg) ModePrivate
  then nd_dht nd = None ∧ nd_topics nd = topics ∧ nd_store nd = None ∧ nd_directory nd = None
  else nd_dht nd = Some (DHTPrefix cfg) ∧ nd_topics nd = topics ++ [DiscoveryTopic] ∧
       nd_store nd = Some NetworkDBDefault ∧ nd_directory nd = Some (DirectoryURL cfg).
Proof.
  unfold bring_up, host_New. destruct (host_options _ _ _) as [opts|e]; [|done].
  destruct (host_builds opts); [|done]. intros H. repeat apply started_Ok in H as [_ H].
  destruct (ParsePeerAddrs _) as [infos|]; [|done]. injection H as <-.
  destruct (String.eqb (NetworkMode cfg) ModePrivate); split_and!; try done. cbn.
  by destruct (String.eqb_spec (DirectoryURL cfg) "") as [->|].
Qed.

(** The steps of a start that succeeds; [psk] is the key it runs with. *)
Lemma start_Ok path fs fs' nd :
  run (start path) fs = (fs', Ok nd) →
  ∃ fs1 first fs2 psk,
    run (Load path) fs = (fs1, Ok (nd_cfg nd, first)) ∧
    run (LoadOrCreateIdentity (KeypairPath (nd_cfg nd))) fs1 = (fs2, Ok (nd_priv nd)) ∧
    bring_up (nd_cfg nd) (nd_priv nd) psk = Ok nd ∧
    if String.eqb (NetworkMode (nd_cfg nd)) ModePrivate
    then ∃ k, psk = Some k ∧ run (LoadPSK (PSKPath (nd_cfg nd))) fs2 = (fs', Ok k)
    else psk = None ∧ fs' = fs2.
Proof.
  unfold start. rewrite run_bind. destruct (run (Load path) fs) as [fs1 [[cfg first]|]] eqn:El; rewrite run_try; [|done].
  cbn [run mret prog_ret wrap_err fst snd].
  rewrite run_bind. destruct (run (LoadOrCreateIdentity _) fs1) as [fs2 [priv|]] eqn:Ei; rewrite run_try; [|done].
  cbn [run mret prog_ret wrap_err fst snd].
  destruct (String.eqb (NetworkMode cfg) ModePrivate) eqn:Em.
  - rewrite run_bind. destruct (run (LoadPSK _) fs2) as [fs3 [k|]] eqn:Ek; rewrite run_try; [|done].
    cbn [run mret prog_ret wrap_err]. intros [= <- Hup]. pose proof (bring_up_Ok _ _ _ _ Hup) as (Hc & Hp & _).
    rewrite Hc, Hp. exists fs1, first, fs2, (Some k). rewrite Em. split_and!; [done|done|done|]. by exists k.
  - cbn [run mret prog_ret]. intros [= <- Hup]. pose proof (bring_up_Ok _ _ _ _ Hup) as (Hc & Hp & _).
    rewrite Hc, Hp. exists fs1, first, fs2, None. by rewrite Em.
Qed.
End node_lemmas.

(** ** Theorems *)

Section node_theorems.
Context `{M : MultiaddrLib} `{R : !Runtime} `{OS : OSEnv} `{Y : Yaml, !YamlLaws Y} `{C : Crypto} `{K : @KeyCodec C, !KeyCodecLaws K}.


(** C23. A restart gives the same node: once a node has started, starting it again
    gives the same configuration, identity, key, topics and bootstrap peers, and
    writes nothing, if the files can be read; and the first start wrote at most
    the configuration and the identity. *)
Theorem restart_same_node (path : string) (fs fs' : FS) (nd : Started) (n : nat)
    (Hstart : run (start path) fs = (fs', Ok nd)) (Hread : ∀ k p, read_fails k p = false) :
  (∃ n', run (start path) (mkFS (files fs') n) = (mkFS (files fs') n', Ok nd)) ∧
  (∀ other, other ≠ path → other ≠ KeypairPath (nd_cfg nd) → files fs' !! other = files fs !! other).
Proof.
  destruct (start_Ok _ _ _ _ Hstart) as (fs1 & first & fs2 & psk & Hload & Hid & Hup & Hpsk).
  destruct (Load_file_after _ _ _ _ _ Hload) as (data & Hd & Hu & Hv & Htok & Hother1).
  destruct (identity_file _ _ _ _ Hid) as (b & Hb & Hub & Hother2).
  assert (Hf' : files fs' = files fs2).
  { destruct (String.eqb (NetworkMode _) _); [|by destruct Hpsk as [_ ->]].
    destruct Hpsk as (k & _ & Hk). by apply LoadPSK_Ok in Hk as (_ & _ & ->). }
  assert (Hd2 : files fs2 !! path = Some data).
  { rewrite Hother2; [done|]. destruct (decide (path = KeypairPath (nd_cfg nd))) as [<-|]; [left; by eexists|by right]. }
  rewrite Hf'. split.
  - assert (Hrun : ∀ A p (k : res LoadError (Config * bool) → prog FS A),
      run (l ← Load path; k l) (mkFS (files fs2) p) = run (k (Ok (nd_cfg nd, false))) (mkFS (files fs2) (S p))).
    { intros A p k. rewrite run_bind, (Load_settled _ _ data (nd_cfg nd)) by done. by rewrite Hread. }
    unfold start. rewrite Hrun, run_try. cbn [run mret prog_ret wrap_err fst snd].
    rewrite run_bind, (identity_settled _ _ b (nd_priv nd)) by done. rewrite Hread, run_try.
    cbn [run mret prog_ret wrap_err files ops fst snd].
    destruct (String.eqb (NetworkMode (nd_cfg nd)) ModePrivate).
    + destruct Hpsk as (k & -> & Hk). apply LoadPSK_Ok in Hk as (Hkf & Hkl & _).
      rewrite run_bind. unfold LoadPSK. go_read. cbn [files ops].
      rewrite Hkf, Hread, Hkl. cbn [negb Nat.eqb run mret prog_ret fst snd wrap_err].
      rewrite run_try. cbn [run mret prog_ret]. rewrite Hup. by eexists.
    + destruct Hpsk as [-> _]. cbn [run mret prog_ret]. rewrite Hup. by eexists.
  - intros other Hne1 Hne2. rewrite Hother2 by (by right). by apply Hother1.
Qed.

(** Peers found by the DHT are dialled like the others: no connection is lost, and
    each new one leads to another node that was found with an address. *)
Theorem discovery_contained `{D : !Dialer} (self : peerID) (found : list AddrInfo) (net : Net) :
  let net' := exec (findAndConnect self (Some found)) net in
  connected net ⊆ connected net' ∧
  (∀ id, id ∈ connected net' ∖ connected net →
     id ≠ self ∧ ∃ ai, ai ∈ found ∧ ai_ID ai = id ∧ ai_Addrs ai ≠ []) ∧
  ((∀ ai, ai ∈ found → ai_ID ai = self ∨ ai_Addrs ai = [] ∨ ai_ID ai ∈ connected net) → net' = net).
Proof.
  cbn zeta. unfold exec. revert net. induction found as [|ai found IH]; intros net; cbn [findAndConnect connect_found].
  { split_and!; [done|set_solver|done]. }
  assert (Hskip : let net' := (run (connect_found self found) net).1 in
    connected net ⊆ connected net' ∧
    (∀ id, id ∈ connected net' ∖ connected net →
       id ≠ self ∧ ∃ a, a ∈ ai :: found ∧ ai_ID a = id ∧ ai_Addrs a ≠ []) ∧
    ((∀ a, a ∈ ai :: found → ai_ID a = self ∨ ai_Addrs a = [] ∨ ai_ID a ∈ connected net) → net' = net)).
  { destruct (IH net) as (Hsub & Hnew & Hsame). split_and!; [done| |intros Hall; apply Hsame; set_solver].
    intros id Hid. destruct (Hnew id Hid) as (? & a & ? & ? & ?). split; [done|]. exists a. set_solver. }
  destruct (bool_decide_reflect (ai_ID ai = self)) as [|Hself]; cbn [orb]; [exact Hskip|].
  destruct (ai_Addrs ai) as [|a0 l0] eqn:Ea; cbn [length Nat.eqb]; [exact Hskip|].
  go_gets. destruct (bool_decide_reflect (ai_ID ai ∈ connected net)); [exact Hskip|].
  clear Hskip. rewrite run_bind, run_Connect. cbn [fst snd].
  set (net1 := mkNet _ _). destruct (IH net1) as (Hsub & Hnew & _).
  assert (Hc1 : connected net ⊆ connected net1 ∧ ∀ id, id ∈ connected net1 → id ∈ connected net ∨ id = ai_ID ai).
  { unfold net1. cbn [connected]. destruct (dial_ok _ _); set_solver. }
  destruct Hc1 as [Hc1 Hc2]. split_and!; [by etrans| |].
  - intros id [Hin Hnin]%elem_of_difference. destruct (decide (id ∈ connected net1)) as [H1|H1].
    + destruct (Hc2 id H1) as [?| ->]; [done|]. split; [done|]. exists ai. rewrite Ea. set_solver.
    + destruct (Hnew id) as (? & a & ? & ? & ?); [set_solver|]. split; [done|]. exists a. set_solver.
  - intros Hall. destruct (Hall ai) as [?|[He|?]]; [by left|done|by rewrite Ea in He|done].
Qed.
End node_theorems.

(** The card tool never prints a card that other nodes would refuse, and its own
    check cannot fail: a card it prints names the network asked for, is signed by
    the key in the key file, is accepted, and lists the bootstrap addresses that
    are not blank. *)
Theorem gencard_prints_valid `{L : PeerLib, !PeerLaws L} `{OS : OSEnv} `{C : Crypto, !CryptoLaws L C}
    `{K : @KeyCodec C, !KeyCodecLaws K} (key id name desc boot : string) (ncount : Z) (now : Instant) (fs : FS) :
  match run (gencard key id name desc boot ncount now) fs with
  | (fs', Ok card) =>
      VerifyNetworkCard card = None ∧ card_ID card = id ∧ id ≠ "" ∧ name ≠ "" ∧
      (∀ s, s ∈ default [] (card_BootstrapPeers card) ↔ s ≠ "" ∧ s ∈ (TrimSpace <$> split_commas boot)) ∧
      ∃ b priv pid, files fs' !! key = Some b ∧ UnmarshalPrivateKey b = Some priv ∧
        IDFromPrivateKey priv = Some pid ∧ card_CreatedBy card = IDString pid
  | (_, Err (CardVerify _)) => False
  | (fs', Err MissingFlags) => fs' = fs ∧ (id = "" ∨ name = "")
  | (_, Err _) => True
  end.
Proof.
  unfold gencard. destruct (String.eqb_spec id ""); [by split; [|left]|].
  destruct (String.eqb_spec name ""); [by split; [|right]|]. cbn [orb].
  rewrite run_bind. destruct (run (LoadOrCreateIdentity key) fs) as [fs' [priv|e]] eqn:Ei; rewrite run_try; [|done].
  cbn [run mret prog_ret wrap_err fst snd]. set (peers := filter _ _). set (card := mkCard _ _ _ _ _ _ _ _).
  destruct (SignNetworkCard card priv) as [c|] eqn:Es; [|done].
  rewrite (sign_verify _ _ _ Es). cbn [run mret prog_ret].
  destruct (identity_file _ _ _ _ Ei) as (b & Hb & Hu & _).
  assert (Hp : default [] (card_BootstrapPeers card) = peers) by (unfold card; cbn; by destruct peers).
  pose proof (sign_verify _ _ _ Es) as Hv. unfold SignNetworkCard in Es.
  destruct (IDFromPrivateKey priv) as [pid|] eqn:Epid; [|done]. destruct (Sign priv _); [|done]. injection Es as <-.
  split_and!; [done|done|done|done| |by exists b, priv, pid].
  cbn [card_BootstrapPeers set_Signature set_CreatedBy]. rewrite Hp. intros x. unfold peers. by rewrite list_elem_of_filter.
Qed.

(** ** Concrete inputs *)

Section witnesses.
#[local] Existing Instances plain_multiaddr reliable plain_yaml plain_crypto plain_keys.

(** Everything starts. *)
Definition all_up : Runtime := {|
  connmgr_ok _ _ := true; host_builds _ := true; dht_starts _ := true; gossipsub_starts := true;
  joins _ := true; opens _ := true
|}.
#[local] Existing Instance all_up.

(** A disk with the configuration and the key of a private network. *)
Definition private_config : Config := set_network ModePrivate "./network.psk" "home" ["/dns4/old"] Default.
Definition private_disk : FS :=
  mkFS {["config.yaml" := pack (config_rows private_config); "./network.psk" := "0123456789abcdef0123456789abcdef"]} 0.


Lemma restart_same_node_witness :
  match run (start "config.yaml") (mkFS ∅ 0) with
  | (fs', Ok nd) => ∃ n', run (start "config.yaml") (mkFS (files fs') 7) = (mkFS (files fs') n', Ok nd)
  | (_, Err _) => False
  end.
Proof.
  assert (Hm : match (run (start "config.yaml") (mkFS ∅ 0)).2 with Ok _ => True | Err _ => False end) by (vm_compute; exact I).
  destruct (run (start "config.yaml") (mkFS ∅ 0)) as [fs' [nd|e]] eqn:E; [|done].
  exact (proj1 (restart_same_node "config.yaml" (mkFS ∅ 0) fs' nd 7 E (λ _ _, eq_refl))).
Defined.

Lemma gencard_prints_valid_witness :
  match run (gencard (L := plain_peers) "node.key" "net" "Net" "" "/dns4/a, ,/dns4/b" 3 Hour) (mkFS ∅ 0) with
  | (_, Ok card) => @VerifyNetworkCard plain_peers plain_crypto card = None
  | (_, Err _) => False
  end.
Proof.
  pose proof (gencard_prints_valid (L := plain_peers) "node.key" "net" "Net" "" "/dns4/a, ,/dns4/b" 3 Hour
    (mkFS ∅ 0)) as H.
  assert (Hm : match (run (gencard (L := plain_peers) "node.key" "net" "Net" "" "/dns4/a, ,/dns4/b" 3 Hour)
    (mkFS ∅ 0)).2 with Ok _ => True | Err _ => False end) by (vm_compute; exact I).
  destruct (run _ _) as [fs' [card|e]]; [apply H|done].
Defined.
End witnesses.
