(* ===== verification/Lifecycle.v ===== *)
(** * Starting and stopping ([cmd/node/main.go], the constructors of the packages)

    [run] as the sequence of what it does with the libraries: what it opens,
    which topics it joins, which goroutines it starts and what its deferred
    calls close, on every path out of it. Node.v says what a started node is
    given; here is how it gets there, and [run_is_start] that it is the
    same. *)

From S2P Require Import Prelude GoTime Prog Compose GoStrings Files Packet Multiaddr Json Config Network Presence Card PeerMemory Host Node.
From stdpp Require Import pretty.

#[local] Open Scope string_scope.
#[local] Open Scope list_scope.
#[local] Open Scope Z_scope.

(** ** What [run] does *)

(** Things that are opened and have to be closed. *)
Inductive Resource := RHost | RSignals | RDHT (prefix : string) | RMdns | RStore (path : string) | RApi.

(** Goroutines. *)
Inductive Task :=
| TPrune | TEvict | TSweep | TJanitor                    (* tickers of the tables *)
| TReadPresence | TReadRendezvous | TReadCards           (* read loops of topics *)
| TReannounce | TDirectory (url : string) | TApi | TReconnect | TMonitor
| TDiscover (prefix : string) | TReadvertise (prefix : string).

(** The parts of the server that are set after it is made. *)
Inductive ServerPart := PPing | PRelay | PGossip | PNetworks.

Inductive Act `{MultiaddrLib} :=
| Opened (r : Resource) | Closed (r : Resource)
| Joined (topic : string) | Go (t : Task)
| Notified                                (* [Network().Notify] of the ping manager *)
| Handles                                 (* [SetStreamHandler] of the relay manager *)
| Set_part (p : ServerPart)
| Advertised (prefix : string)
| Printed (lines : list string)
| Dialled (targets : list AddrInfo)
| Remembered                              (* [peerMem.Snapshot(h)] and [Save] *)
| Ran.                                    (* until the context is done *)

(** The libraries, by whether each call succeeds. *)
Class Libs `{MultiaddrLib} := {
  lib_connmgr : Z → Z → bool;
  lib_host : list HostOption → bool;
  dht_New : string → bool;
  dht_Bootstrap : string → bool;
  pubsub_New : bool;
  topic_Join : string → bool;
  topic_Subscribe : string → bool;
  mdns_Start : bool;
  bolt_Open : string → bool;
  bolt_Init : string → bool
}.

Section lifecycle.
Context `{MultiaddrLib}.

(** The program writes down what it does. *)
Definition Acts : Type := list Act.
Definition act (a : Act) : prog Acts unit := modify (λ w, w ++ [a]).

(** [defer cleanup; body] *)
Definition deferring {A} (cleanup : prog Acts unit) (body : prog Acts A) : prog Acts A :=
  r ← body; cleanup;; mret r.

(** A call of a library that succeeds or not. *)
Definition lib (ok : bool) (e : StartError) : prog Acts (res StartError unit) := mret (if ok then Ok tt else Err e).

Context `{!Libs}.

(** *** Constructors *)

(** [psnhost.NewDHT]: if it does not bootstrap it is left open. *)
Definition NewDHT (prefix : string) : prog Acts (res StartError unit) :=
  _ ←? lib (dht_New prefix) StartDHT;
  act (Opened (RDHT prefix));;
  lib (dht_Bootstrap prefix) StartDHT.

(** [NewGossipSub]: whether there is a routing discovery ([rd != nil]). *)
Definition NewGossipSub (kdht : bool) : prog Acts (res StartError bool) :=
  _ ←? lib pubsub_New StartGossip;
  mret (Ok kdht).

(** [AdvertiseAndDiscover]; the loop it starts is [findAndConnect], again and
    again. *)
Definition AdvertiseAndDiscover (rd : bool) (rendezvous : string) : prog Acts unit :=
  if rd then act (Advertised rendezvous);; act (Go (TDiscover rendezvous)) else mret tt.

(** [SetupMDNS]: whether the service runs. *)
Definition SetupMDNS : prog Acts bool :=
  if mdns_Start then act (Opened RMdns);; mret true else mret false.

(** [api.NewServer], with [newRendezvousStore] inside. *)
Definition start_server : prog Acts unit := act (Go TJanitor).

(** [ping.NewManager] *)
Definition start_ping : prog Acts unit := act Notified.

(** Joining a topic and reading from it; the topic stays joined if it cannot
    be subscribed to. *)
Definition join_and_read (topic : string) (t : Task) (e : StartError) : prog Acts (res StartError unit) :=
  _ ←? lib (topic_Join topic) e;
  act (Joined topic);;
  _ ←? lib (topic_Subscribe topic) e;
  act (Go t);;
  mret (Ok tt).

Definition NewPresence (topic : string) : prog Acts (res StartError unit) := join_and_read topic TReadPresence StartRelay.

(** [relay.NewManager], with [NewRouter], [NewDedupCache] and [NewQueue]. *)
Definition start_relay (gossipPrefix : string) : prog Acts (res StartError unit) :=
  act (Go TPrune);; act (Go TEvict);; act (Go TSweep);;
  _ ←? NewPresence (String.append gossipPrefix "presence");
  act Handles;;
  mret (Ok tt).

Definition NewRendezvousGossip (topic : string) : prog Acts (res StartError unit) :=
  join_and_read topic TReadRendezvous StartRendezvous.

Definition NewNetworkDiscovery : prog Acts (res StartError unit) :=
  join_and_read DiscoveryTopic TReadCards StartDiscovery.

(** [OpenStore] closes the database it cannot prepare. *)
Definition OpenStore (path : string) : prog Acts (res StartError unit) :=
  _ ←? lib (bolt_Open path) StartStore;
  act (Opened (RStore path));;
  if bolt_Init path then mret (Ok tt) else act (Closed (RStore path));; mret (Err StartStore).

(** [SetPing], [SetRelay], [SetNetworks] and [SetRendezvousGossip] of the server. *)
Definition SetPing : prog Acts unit := act (Set_part PPing).
Definition SetRelay : prog Acts unit := act (Set_part PRelay).
Definition SetNetworks : prog Acts unit := act (Set_part PNetworks).
Definition SetRendezvousGossip : prog Acts unit := act (Set_part PGossip).

(** [singleNodeAdvertise], for the signals so far. *)
Definition singleNodeAdvertise (rendezvous : string) (sigs : list signal) : prog Acts unit :=
  ticker_loop (act (Advertised rendezvous)) sigs.

(** The lines [printFirstRun] prints. *)
Definition printFirstRun (configPath token : string) : list string :=
  let rule := "=====================================================" in
  [rule; " Plural Star Node — first run"; String.append " Wrote default config to: " configPath] ++
  (if String.eqb token "" then
     [" API auth is open, which is correct for a public node: apps on the";
      " default network have no token. api_token is for private and";
      " custom_public networks only, and is ignored here."]
   else [" API token (configure this in your Plural Star app):"; String.append "   " token]) ++
  [rule].

(** *** The HTTP server *)

Inductive ServeOutcome := ErrServerClosed | ServeFails.

(** [Server.Start]: the address it listens on; it returns an error unless it was
    closed. *)
Definition listen_addr (cfg : Config) : string :=
  let host := if String.eqb (APIHost cfg) "" then "127.0.0.1" else APIHost cfg in
  String.append host (String.append ":" (pretty (APIPort cfg))).
Definition server_Start (cfg : Config) (outcome : string → ServeOutcome) : res string unit :=
  match outcome (listen_addr cfg) with ServeFails => Err (listen_addr cfg) | ErrServerClosed => Ok tt end.

(** *** [run] *)

Context `{Crypto}.

(** [run] behind the reading of the files, for a node that is stopped by a
    signal; [remembered] are the targets of the peer memory. *)
Definition run_node (cfg : Config) (priv : PrivKey) (psk : option bytes) (remembered : list AddrInfo) :
    prog Acts (res StartError Started) :=
  match host_options lib_connmgr cfg psk with
  | Err e => mret (Err (StartHost e))
  | Ok opts =>
      if negb (lib_host opts) then mret (Err (StartHost BuildHost))
      else
        act (Opened RHost);;
        deferring (act (Closed RHost)) (
        act (Opened RSignals);;
        deferring (act (Closed RSignals)) (
        let public := negb (String.eqb (NetworkMode cfg) ModePrivate) in
        _ ←? (if public then NewDHT (DHTPrefix cfg) else mret (Ok tt));
        deferring (if public then act (Closed (RDHT (DHTPrefix cfg))) else mret tt) (
        rd ←? NewGossipSub public;
        (if (rd : bool) then AdvertiseAndDiscover rd (DHTPrefix cfg) else mret tt);;
        mdns ← SetupMDNS;
        deferring (if (mdns : bool) then act (Closed RMdns) else mret tt) (
        start_server;;
        start_ping;; SetPing;;
        _ ←? start_relay (GossipPrefix cfg);
        SetRelay;;
        _ ←? NewRendezvousGossip (String.append (GossipPrefix cfg) "rendezvous");
        SetRendezvousGossip;; act (Go TReannounce);;
        _ ←? (if public then OpenStore NetworkDBDefault else mret (Ok tt));
        deferring (if public then act (Closed (RStore NetworkDBDefault)) else mret tt) (
        let directory := if String.eqb (DirectoryURL cfg) "" then DefaultDirectoryURL else DirectoryURL cfg in
        _ ←? (if public then
                SetNetworks;;
                _ ←? NewNetworkDiscovery;
                act (Go (TDirectory directory));; mret (Ok tt)
              else mret (Ok tt));
        act (Go TApi);; act (Opened RApi);;
        deferring (act (Closed RApi)) (
        match ParsePeerAddrs (NetworkBootstrapPeers cfg) with
        | Err e => mret (Err (StartBootstrap e))
        | Ok infos =>
            let targets := MergeTargets infos remembered in
            (if (0 <? length targets)%nat then act (Dialled targets);; act Remembered else mret tt);;
            act (Go TReconnect);; act (Go TMonitor);;
            (if rd then act (Go (TReadvertise (DHTPrefix cfg))) else mret tt);;
            act Ran;;
            act Remembered;;
            mret (Ok (mkStarted cfg priv opts
              (if public then Some (DHTPrefix cfg) else None)
              ([String.append (GossipPrefix cfg) "presence"; String.append (GossipPrefix cfg) "rendezvous"] ++
               if public then [DiscoveryTopic] else [])
              (if public then Some NetworkDBDefault else None)
              (if public then Some directory else None)
              infos))
        end))))))
  end.

(** [run], over the files and what it does. *)
Definition files_part : lens (FS * Acts) FS := mkLens fst (λ fs w, (fs, w.2)).
Definition acts_part : lens (FS * Acts) Acts := mkLens snd (λ a w, (w.1, a)).

#[export] Instance files_part_laws : LensLaws files_part.
Proof. by split. Qed.
#[export] Instance acts_part_laws : LensLaws acts_part.
Proof. by split. Qed.

Definition run_main `{OSEnv} `{Yaml} `{!KeyCodec} (configPath : string) (remembered : list AddrInfo) :
    prog (FS * Acts) (res StartError Started) :=
  loaded ← zoom files_part (Load configPath);
  c ←? mret (wrap_err StartConfig loaded);
  let cfg := c.1 in
  (if (c.2 : bool) then zoom acts_part (act (Printed (printFirstRun configPath (APIToken cfg)))) else mret tt);;
  identity ← zoom files_part (LoadOrCreateIdentity (KeypairPath cfg));
  priv ←? mret (wrap_err StartIdentity identity);
  if String.eqb (NetworkMode cfg) ModePrivate then
    key ← zoom files_part (LoadPSK (PSKPath cfg));
    psk ←? mret (wrap_err StartPSK key);
    zoom acts_part (run_node cfg priv (Some psk) remembered)
  else zoom acts_part (run_node cfg priv None remembered).

(** What Node.v asks of the libraries. *)
Definition runtime_of : Runtime := {|
  connmgr_ok := lib_connmgr;
  host_builds := lib_host;
  dht_starts prefix := dht_New prefix && dht_Bootstrap prefix;
  gossipsub_starts := pubsub_New;
  joins topic := topic_Join topic && topic_Subscribe topic;
  opens path := bolt_Open path && bolt_Init path
|}.
End lifecycle.

(** ** Lemmas *)

Section lifecycle_lemmas.
Context `{M : MultiaddrLib} `{Lb : !Libs} `{C : Crypto}.
Implicit Types (w : Acts).

(** What is opened is closed, later things first, except what [leak] allows. *)
Inductive balanced (leak : Resource → Prop) : Acts → Prop :=
| bal_nil : balanced leak []
| bal_other a l : (∀ r, a ≠ Opened r ∧ a ≠ Closed r) → balanced leak l → balanced leak (a :: l)
| bal_scope r l l' : balanced leak l → balanced leak l' → balanced leak (Opened r :: l ++ Closed r :: l')
| bal_leak r l : leak r → balanced leak l → balanced leak (Opened r :: l).

(** Only the API server's parts that were set before it starts are there when
    it does. *)
Fixpoint served_with (parts : list ServerPart) (l : Acts) : option (list ServerPart) :=
  match l with
  | [] => None
  | Go TApi :: _ => Some parts
  | Set_part p :: l => served_with (p :: parts) l
  | _ :: l => served_with parts l
  end.

Lemma balanced_app leak l l' : balanced leak l → balanced leak l' → balanced leak (l ++ l').
Proof.
  induction 1 as [|a l Ha _ IH|r l l1 Hl _ _ IH|r l Hr _ IH]; intros Hl'; cbn; [done|..].
  - constructor; [done|by apply IH].
  - rewrite <- (assoc_L app). cbn. constructor; [done|by apply IH].
  - apply bal_leak; [done|by apply IH].
Qed.

(** *** Programs that leave nothing open *)

Section balance.
Context (leak : Resource → Prop).

Definition closes {A} (p : prog Acts A) : Prop := ∀ w, ∃ l, (run p w).1 = w ++ l ∧ balanced leak l.

(** A constructor of the resource [r]. *)
Definition opens_one {E A} (r : Resource) (p : prog Acts (res E A)) : Prop :=
  ∀ w, ∃ l, (run p w).1 = w ++ l ∧ match (run p w).2 with Ok _ => l = [Opened r] | Err _ => balanced leak l end.

Lemma closes_ret {A} (a : A) : closes (mret a).
Proof. intros w. exists []. rewrite app_nil_r. by split; [|constructor]. Qed.

Lemma closes_act a : (∀ r, a ≠ Opened r ∧ a ≠ Closed r) → closes (act a).
Proof. intros Ha w. exists [a]. split; [done|]. constructor; [done|constructor]. Qed.

Lemma closes_bind {A X} (p : prog Acts A) (K : A → prog Acts X) :
  closes p → (∀ a, closes (K a)) → closes (p ≫= K).
Proof.
  intros Hp HK w. destruct (Hp w) as (l & Hl & Hb). destruct (HK (run p w).2 (run p w).1) as (l' & Hl' & Hb').
  exists (l ++ l'). rewrite run_bind, Hl', Hl, (assoc_L app). split; [done|]. by apply balanced_app.
Qed.

Lemma closes_try {E A X} (p : prog Acts (res E A)) (K : A → prog Acts (res E X)) :
  closes p → (∀ a, closes (K a)) → closes (try p K).
Proof. intros Hp HK. apply closes_bind; [done|]. intros [a|e]; [done|apply closes_ret]. Qed.

Lemma closes_defer {A} (p : prog Acts A) : closes p → closes (deferring (mret tt) p).
Proof. intros Hp. apply closes_bind; [done|]. intros a. apply closes_bind; [apply closes_ret|intros; apply closes_ret]. Qed.

(** [defer x.Close()] after opening [x]. *)
Lemma closes_scope {A} r (p : prog Acts A) :
  closes p → closes (act (Opened r);; deferring (act (Closed r)) p).
Proof.
  intros Hp w. destruct (Hp (w ++ [Opened r])) as (l & Hl & Hb).
  exists (Opened r :: l ++ [Closed r]). split; [|constructor; [done|constructor]].
  unfold deferring. rewrite run_bind. cbn [run act modify fst snd]. rewrite run_bind, run_bind. cbn [run act modify fst snd].
  by rewrite Hl, <- !(assoc_L app).
Qed.

Lemma closes_try_scope {E A X} r (p : prog Acts (res E A)) (body : prog Acts (res E X)) :
  opens_one r p → closes body → closes (try p (λ _, deferring (act (Closed r)) body)).
Proof.
  intros Hp Hb w. unfold try. rewrite run_bind. destruct (Hp w) as (l & Hl & Hres). rewrite Hl.
  destruct (run p w).2 as [a|e]; [subst l|by exists l]. exact (closes_scope r body Hb w).
Qed.
End balance.

(** Alone, [run_main] does to the files what [start] does. *)
Lemma run_files {A} (p : prog FS A) (s : FS * Acts) :
  run (zoom files_part p) s = (((run p s.1).1, s.2), (run p s.1).2).
Proof. rewrite (run_zoom files_part); [done|by destruct s]. Qed.
Lemma run_acts {A} (p : prog Acts A) (s : FS * Acts) :
  run (zoom acts_part p) s = ((s.1, (run p s.2).1), (run p s.2).2).
Proof. rewrite (run_zoom acts_part); [done|by destruct s]. Qed.

(** The constructors. *)
#[local] Abbreviation leaked := (λ r, ∃ prefix, r = RDHT prefix ∧ dht_Bootstrap prefix = false).

Lemma opens_DHT prefix : opens_one leaked (RDHT prefix) (NewDHT prefix).
Proof.
  intros w. unfold NewDHT, lib. destruct (dht_New prefix).
  - exists [Opened (RDHT prefix)]. split; [done|]. cbn. destruct (dht_Bootstrap prefix) eqn:E; [done|].
    apply bal_leak; [eauto|constructor].
  - exists []. by rewrite app_nil_r; split; [|constructor].
Qed.

Lemma opens_store path : opens_one leaked (RStore path) (OpenStore path).
Proof.
  intros w. unfold OpenStore, lib. destruct (bolt_Open path).
  - cbn. destruct (bolt_Init path); cbn; [by exists [Opened (RStore path)]|].
    exists [Opened (RStore path); Closed (RStore path)]. rewrite <- (assoc_L app). split; [done|].
    apply (bal_scope _ _ [] []); constructor.
  - exists []. by rewrite app_nil_r; split; [|constructor].
Qed.

Lemma closes_mdns {A} (body : bool → prog Acts A) :
  (∀ m, closes leaked (body m)) →
  closes leaked (m ← SetupMDNS; deferring (if (m : bool) then act (Closed RMdns) else mret tt) (body m)).
Proof.
  intros Hb. unfold SetupMDNS. destruct mdns_Start.
  - intros w. exact (closes_scope leaked RMdns (body true) (Hb true) w).
  - intros w. exact (closes_defer leaked (body false) (Hb false) w).
Qed.

Lemma closes_lib ok e : closes leaked (lib ok e).
Proof. apply closes_ret. Qed.

(** Step by step through a program. *)
Ltac closes_step :=
  match goal with
  | |- closes _ (mret _) => apply closes_ret
  | |- closes _ (lib _ _) => apply closes_lib
  | |- closes _ (act _) => apply closes_act; by intros ?
  | |- closes _ (m ← SetupMDNS; _) => apply closes_mdns; intros ?
  | |- closes _ (deferring (mret tt) _) => apply closes_defer
  | |- closes _ (act (Opened ?r);; deferring (act (Closed ?r)) _) => apply closes_scope
  | |- closes _ (try (NewDHT _) _) => apply closes_try_scope; [apply opens_DHT|]
  | |- closes _ (try (OpenStore _) _) => apply closes_try_scope; [apply opens_store|]
  | |- closes _ (try _ _) => apply closes_try; [|intros ?]
  | |- closes _ (match ?x with _ => _ end) => destruct x
  | |- closes _ (_ ≫= _) => apply closes_bind; [|intros ?]
  end.

Lemma closes_run cfg priv psk remembered : closes leaked (run_node cfg priv psk remembered).
Proof.
  unfold run_node. destruct (host_options _ _ _) as [opts|e]; [|apply closes_ret].
  destruct (negb (lib_host opts)); [apply closes_ret|].
  destruct (String.eqb (NetworkMode cfg) ModePrivate); cbn [negb];
    unfold start_server, start_ping, start_relay, NewPresence, NewRendezvousGossip, NewNetworkDiscovery, join_and_read,
      NewGossipSub, AdvertiseAndDiscover, SetPing, SetRelay, SetNetworks, SetRendezvousGossip; repeat closes_step.
Qed.
End lifecycle_lemmas.

(** ** Theorems *)

Section lifecycle_theorems.
Context `{M : MultiaddrLib} `{Lb : !Libs} `{C : Crypto}.

Definition is_public (cfg : Config) : bool := negb (String.eqb (NetworkMode cfg) ModePrivate).

(** A call of a library: if it fails, both sides are known. *)
Ltac call x := destruct x; [|reflexivity].
Ltac subscribed topic := call (topic_Join topic); call (topic_Subscribe topic).
Ltac unfold_run := unfold NewDHT, NewGossipSub, SetupMDNS, start_server, start_ping, start_relay, NewPresence, NewRendezvousGossip,
    NewNetworkDiscovery, OpenStore, join_and_read, lib.

Lemma run_node_result cfg priv psk remembered w :
  (run (run_node cfg priv psk remembered) w).2 = bring_up (H0 := runtime_of) cfg priv psk.
Proof.
  unfold run_node, bring_up, host_New, is_public. cbn [connmgr_ok runtime_of host_builds].
  destruct (host_options _ _ _) as [opts|e]; [|done]. call (lib_host opts). cbn [negb]. unfold_run.
  destruct (String.eqb (NetworkMode cfg) ModePrivate); cbn [negb dht_starts gossipsub_starts joins opens runtime_of].
  - call pubsub_New.
    destruct mdns_Start; (subscribed (String.append (GossipPrefix cfg) "presence");
      subscribed (String.append (GossipPrefix cfg) "rendezvous"); call (ParsePeerAddrs (NetworkBootstrapPeers cfg));
      cbn; destruct (0 <? length _)%nat; reflexivity).
  - call (dht_New (DHTPrefix cfg)). call (dht_Bootstrap (DHTPrefix cfg)). call pubsub_New.
    destruct mdns_Start; (subscribed (String.append (GossipPrefix cfg) "presence");
      subscribed (String.append (GossipPrefix cfg) "rendezvous"); call (bolt_Open NetworkDBDefault);
      call (bolt_Init NetworkDBDefault); subscribed DiscoveryTopic; call (ParsePeerAddrs (NetworkBootstrapPeers cfg));
      cbn; destruct (0 <? length _)%nat; reflexivity).
Qed.

(** The parts of the server are set before it starts to serve. *)
Ltac survives x := destruct x; [|by intros [=]].
Ltac survives_topic topic := survives (topic_Join topic); survives (topic_Subscribe topic).

Lemma run_node_serves cfg priv psk remembered parts :
  served_with [] (run (run_node cfg priv psk remembered) []).1 = Some parts →
  parts = if is_public cfg then [PNetworks; PGossip; PRelay; PPing] else [PGossip; PRelay; PPing].
Proof.
  unfold run_node, is_public.
  destruct (host_options _ _ _) as [opts|e]; [|by intros [=]]. survives (lib_host opts). cbn [negb]. unfold_run.
  destruct (String.eqb (NetworkMode cfg) ModePrivate); cbn [negb].
  - survives pubsub_New.
    destruct mdns_Start; (survives_topic (String.append (GossipPrefix cfg) "presence");
      survives_topic (String.append (GossipPrefix cfg) "rendezvous"); destruct (ParsePeerAddrs _);
      [destruct (0 <? length _)%nat|]; by intros [= <-]).
  - survives (dht_New (DHTPrefix cfg)). survives (dht_Bootstrap (DHTPrefix cfg)). survives pubsub_New.
    destruct mdns_Start; (survives_topic (String.append (GossipPrefix cfg) "presence");
      survives_topic (String.append (GossipPrefix cfg) "rendezvous"); survives (bolt_Open NetworkDBDefault);
      survives (bolt_Init NetworkDBDefault); survives_topic DiscoveryTopic; destruct (ParsePeerAddrs _);
      [destruct (0 <? length _)%nat|]; by intros [= <-]).
Qed.


(** C21. [run] cleans up on every way out: whichever call fails, and when a signal
    stops a node that runs, everything it opened is closed, each thing once,
    later ones first - but for a DHT that does not bootstrap, which is left
    open; and when the API starts to serve, the parts that its handlers use are
    all there: ping, relay and gossip, and the card store unless the node is
    private. *)
Theorem run_cleans_up (cfg : Config) (priv : PrivKey) (psk : option bytes) (remembered : list AddrInfo) :
  let acts := (run (run_node cfg priv psk remembered) []).1 in
  balanced (λ r, ∃ prefix, r = RDHT prefix ∧ dht_Bootstrap prefix = false) acts ∧
  (∀ parts, served_with [] acts = Some parts →
     (∀ p, p ∈ parts ↔ p = PPing ∨ p = PRelay ∨ p = PGossip ∨ (p = PNetworks ∧ NetworkMode cfg ≠ ModePrivate))).
Proof.
  cbn zeta. destruct (closes_run cfg priv psk remembered []) as (l & Hl & Hb). split; [by rewrite Hl|].
  intros parts Hparts. apply run_node_serves in Hparts as ->. unfold is_public. intros p.
  destruct (String.eqb_spec (NetworkMode cfg) ModePrivate); cbn [negb]; rewrite !elem_of_cons, elem_of_nil; naive_solver.
Qed.
End lifecycle_theorems.
