(* ===== verification/Handlers.v ===== *)
(** * The HTTP API ([internal/api/auth.go], [handlers.go], the handlers of
    [rendezvous.go])

    Requests, who may make them, and what each endpoint does to the node. A
    handler is a function from the node to the new node and the response: it is
    run alone here; what its parts do when they interleave is the subject of
    the files that model them. *)

From S2P Require Import Prelude GoTime Prog GoStrings Encoding Multiaddr Files Packet Dedup Router Queue Json Presence Manager Rendezvous RvGossip Config Network Invite Card PeerMemory Ping Server.

#[local] Open Scope string_scope.
#[local] Open Scope list_scope.
#[local] Open Scope Z_scope.

(** ** Requests and responses *)

(** What the handlers read of an [http.Request]: [Header] and [Query] are
    [r.Header.Get] and [r.URL.Query().Get]; [Body] is the first JSON value of
    the body, [None] if there is none within the size limit. *)
Record Request := mkRequest {
  Method : string;
  Header : string → string;
  Query : string → string;
  Host : string;
  RemoteAddr : string;
  Body : option json
}.

Record Response := mkResponse { Status : Z; Answer : json }.

Definition writeError (status : Z) (msg : string) : Response := mkResponse status (JObj [("error", JStr msg)]).

(** The parsers of [net], [net/url] and [mime], and [strings.EqualFold]: their
    text formats are left open, the decisions taken on their results are not.
    [url_Parse] gives the scheme and [Hostname()]; [ParseIP] whether the address
    is a loopback one; [ParseMediaType] the media type it returns, also next to an
    error. *)
Class NetLib := {
  url_Parse : string → option (string * string);
  SplitHostPort : string → option string;
  ParseIP : string → option bool;
  ParseMediaType : string → string;
  EqualFold : string → string → bool
}.

(** ** [auth.go] *)

Section auth.
Context `{NetLib}.

Definition originLocal (r : Request) : bool :=
  let origin := Header r "Origin" in
  if String.eqb origin "" || String.eqb origin "null" then true
  else
    match url_Parse origin with
    | None => false
    | Some (scheme, host) =>
        if bool_decide (scheme ∈ ["http"; "https"; "ws"; "wss"]) then
          if String.eqb host "localhost" then true
          else match ParseIP host with Some loopback => loopback | None => false end
        else true
    end.

(** [strings.Trim(s, "[]")] *)
Fixpoint trim_brackets_left (l : list Ascii.ascii) : list Ascii.ascii :=
  match l with
  | a :: l' => if (of_byte a =? 91)%N || (of_byte a =? 93)%N then trim_brackets_left l' else l
  | [] => []
  end.
Definition trim_brackets (s : string) : string :=
  String.string_of_list_ascii
    (reverse (trim_brackets_left (reverse (trim_brackets_left (String.list_ascii_of_string s))))).

Definition originAllowed (r : Request) : bool :=
  if originLocal r then true
  else
    match url_Parse (Header r "Origin") with
    | None => false
    | Some (_, host) =>
        if String.eqb host "" then false
        else
          let reqHost := match SplitHostPort (Host r) with Some h => h | None => Host r end in
          EqualFold host (trim_brackets reqHost)
    end.

(** [subtle.ConstantTimeCompare] is equality. *)
Definition checkAuth (cfg : Config) (r : Request) : bool :=
  if String.eqb (APIToken cfg) "" then true
  else
    match cut_prefix "Bearer " (Header r "Authorization") with
    | Some got => String.eqb got (APIToken cfg)
    | None => false
    end
    || (let q := Query r "token" in if String.eqb q "" then false else String.eqb q (APIToken cfg)).

(** [None] if the operator is calling, else the error written. *)
Definition operatorOnly (cfg : Config) (r : Request) (requireJSON : bool) : option Response :=
  if negb (originLocal r) then Some (writeError 403 "cross-site requests are not accepted")
  else if requireJSON && negb (String.eqb (ParseMediaType (Header r "Content-Type")) "application/json")
  then Some (writeError 415 "Content-Type must be application/json")
  else if negb (String.eqb (APIToken cfg) "") then None
  else
    let host := match SplitHostPort (RemoteAddr r) with Some h => h | None => RemoteAddr r end in
    match ParseIP host with
    | Some true => None
    | _ => Some (writeError 403 "only the local machine may call this endpoint on a node without api_token")
    end.

(** [Server.authed] *)
Definition authed {N} (cfg : Config) (next : Request → N → N * Response) (r : Request) (n : N) : N * Response :=
  if negb (checkAuth cfg r) then (n, writeError 401 "unauthorized")
  else if negb (originAllowed r) then (n, writeError 403 "cross-site requests are not accepted")
  else next r n.
End auth.

(** ** The node *)

(** What the handlers act on: the configuration and its path, the files, the
    relay manager, the sockets, the rendezvous store, what was published on the
    rendezvous topic ([None] without gossip), the card store ([None] on a
    private node), and the ping manager. *)
Record Node `{MultiaddrLib} := mkNode {
  n_cfg : Config;
  n_configPath : string;
  n_fs : FS;
  n_mgr : Manager;
  n_srv : Server;
  n_rv : rendezvousStore;
  n_published : option (list rendezvousMsg);
  n_networks : option NetStore;
  n_ping : PingManager;
  n_addrs : list Multiaddr;       (* the p2p addresses of the host *)
  n_startedAt : Instant
}.

Section handlers.
Context `{MultiaddrLib} `{PeerLib} `{Msgpack} `{StreamNet} `{MapRange} `{FileSystem} `{OSEnv} `{Yaml}
        `{Base58} `{Bolt} `{NetLib}.

Definition set_n_cfg (c : Config) (fs : FS) (n : Node) : Node :=
  mkNode _ c (n_configPath n) fs (n_mgr n) (n_srv n) (n_rv n) (n_published n) (n_networks n) (n_ping n) (n_addrs n) (n_startedAt n).
Definition set_n_relay (m : Manager) (s : Server) (n : Node) : Node :=
  mkNode _ (n_cfg n) (n_configPath n) (n_fs n) m s (n_rv n) (n_published n) (n_networks n) (n_ping n) (n_addrs n) (n_startedAt n).
Definition set_n_rv (rs : rendezvousStore) (pub : option (list rendezvousMsg)) (n : Node) : Node :=
  mkNode _ (n_cfg n) (n_configPath n) (n_fs n) (n_mgr n) (n_srv n) rs pub (n_networks n) (n_ping n) (n_addrs n) (n_startedAt n).
Definition set_n_networks (s : NetStore) (n : Node) : Node :=
  mkNode _ (n_cfg n) (n_configPath n) (n_fs n) (n_mgr n) (n_srv n) (n_rv n) (n_published n) (Some s) (n_ping n) (n_addrs n) (n_startedAt n).

(** *** Status endpoints *)

(** The uptime goes through a [float64] in the code, which is exact for months. *)

Definition handleHealth (r : Request) (n : Node) : Node * Response :=
  let networkID :=
    if String.eqb (NetworkID (n_cfg n)) "" && String.eqb (NetworkMode (n_cfg n)) ModePublic
    then "plural-star-global" else NetworkID (n_cfg n) in
  (n, mkResponse 200 (JObj
    [("connected_apps", JInt (Z.of_nat (size (clients (n_srv n)))));
     ("connected_nodes", JInt (Z.of_nat (result Count (n_ping n))));
     ("network_id", JStr networkID);
     ("network_mode", JStr (NetworkMode (n_cfg n)));
     ("peer_id", JStr (selfID (n_srv n)));
     ("status", JStr "ok");
     ("uptime_seconds", JInt (Z.quot (Time.Sub (clock (n_mgr n)) (n_startedAt n)) Second))])).

Definition enc_NodeInfo (i : NodeInfo) : json :=
  JObj [("peer_id", JStr (ni_PeerID i)); ("multiaddr", JStr (ni_Multiaddr i)); ("rtt_ms", JInt (ni_RTTms i))].

Definition handleNodes (r : Request) (n : Node) : Node * Response :=
  (n, mkResponse 200 (JArr (enc_NodeInfo <$> result Nodes (n_ping n)))).

(** The two loops of [handlePeers]: those with a socket, then those in the
    routing table, each identifier once. *)
Fixpoint list_peers (seen : gset string) (l : list (string * string)) : list json :=
  match l with
  | [] => []
  | (id, via) :: l =>
      if decide (id ∈ seen) then list_peers seen l
      else JObj [("peer_id", JStr id); ("via_node", JStr via)] :: list_peers ({[id]} ∪ seen) l
  end.

Definition peers_here (n : Node) : list (string * string) :=
  omap (λ id, c ← objs (n_srv n) !! id; Some (IDString (wc_appPeer c), selfID (n_srv n)))
    (range (clients (n_srv n))).*1.
Definition peers_known (n : Node) : list (string * string) :=
  (λ pr, (IDString (Peer pr), IDString (Via pr))) <$> Snapshot (clock (n_mgr n)) (router (n_mgr n)).

Definition handlePeers (r : Request) (n : Node) : Node * Response :=
  (n, mkResponse 200 (JArr (list_peers ∅ (peers_here n ++ peers_known n)))).

Definition handleNetworks (r : Request) (n : Node) : Node * Response :=
  match n_networks n with
  | None => (n, mkResponse 200 (JArr []))
  | Some st =>
      let '(st', (cards, err)) := run store_List st in
      (set_n_networks st' n,
       match err with
       | Some _ => writeError 500 "could not read networks"
       | None => mkResponse 200 (JArr (enc_card <$> cards))
       end)
  end.

(** The JSON of a configuration. *)
Definition enc_config (c : Config) : json :=
  JObj [("keypair_path", JStr (KeypairPath c)); ("network_mode", JStr (NetworkMode c));
        ("psk_path", JStr (PSKPath c)); ("network_id", JStr (NetworkID c));
        ("bootstrap_peers", JArr (JStr <$> BootstrapPeers c)); ("directory_url", JStr (DirectoryURL c));
        ("api_host", JStr (APIHost c)); ("api_port", JInt (APIPort c)); ("api_token", JStr (APIToken c));
        ("listen_addrs", JArr (JStr <$> ListenAddrs c)); ("announce_addrs", JArr (JStr <$> AnnounceAddrs c));
        ("relay_enabled", JBool (RelayEnabled c)); ("max_peers", JInt (MaxPeers c));
        ("max_app_connections", JInt (MaxAppConnections c))].

Definition handleConfig (r : Request) (n : Node) : Node * Response :=
  match operatorOnly (n_cfg n) r false with
  | Some err => (n, err)
  | None => (n, mkResponse 200 (enc_config (set_APIToken "***redacted***" (n_cfg n))))
  end.

(** *** Sending *)

(** The closure [handleWS] registers for an app: what it does with a packet. *)
Definition deliver_event (p : Packet) : json :=
  packetReceivedEvent
    (match IDFromBytes (SenderID p) with Some sid => IDString sid | None => "" end)
    (base64_EncodeToString (Payload p)) (Timestamp p).

(** What the server does when the relay manager calls it: a closure delivers to
    the sockets of its app ([app_of] tells which app it was made for), and
    [onPeer] is [OnAppPeerEvent]. *)
Definition relay_event (app_of : DeliverFunc → peerID) (ev : Event) : prog Server unit :=
  match ev with
  | EvDeliver d p => sendToApp (app_of d) (deliver_event p)
  | EvPeer e => OnAppPeerEvent (IDString (ev_peer e)) (IDString (ev_via e)) (ev_online e)
  | _ => mret tt
  end.

Definition run_deliveries (app_of : DeliverFunc → peerID) (evs : list Event) (s : Server) : Server :=
  foldl (λ s ev, exec (relay_event app_of ev) s) s evs.

(** A call of the relay manager: what it does reaches the sockets. *)
Definition call_relay {A} (app_of : DeliverFunc → peerID) (p : prog Manager A) (n : Node) : Node * A :=
  let '(m, a) := run p (n_mgr n) in
  let evs := drop (length (trace (n_mgr n))) (trace m) in
  (set_n_relay m (run_deliveries app_of evs (n_srv n)) n, a).

Record sendRequest := mkSend { sr_SenderID : string; sr_Recipient : string; sr_Payload : string; sr_PacketID : string }.

Definition dec_sendRequest (v : json) : option sendRequest :=
  dec_struct (mkSend "" "" "" "") (λ kvs,
    s ← dec_string "sender_peer_id" kvs; r ← dec_string "recipient_peer_id" kvs;
    p ← dec_string "payload" kvs; i ← dec_string "packet_id" kvs;
    Some (mkSend s r p i)) v.

(** The identifier of the packet: from the request, or drawn ([rand]). *)
Definition packet_id (req : sendRequest) (rand : option bytes) : bytes + Response :=
  if negb (String.eqb (sr_PacketID req) "") then
    match hex_DecodeString (sr_PacketID req) with
    | Some raw =>
        if (String.length raw =? 16)%nat then inl raw
        else inr (writeError 400 "packet_id must be 32 hex characters (16 bytes)")
    | None => inr (writeError 400 "packet_id must be 32 hex characters (16 bytes)")
    end
  else
    match NewPacketID rand with
    | Some id => inl id
    | None => inr (writeError 500 "could not generate packet id")
    end.

(** The sender: from the request, or the current app. *)
Definition packet_sender (req : sendRequest) (s : Server) : peerID + Response :=
  if negb (String.eqb (sr_SenderID req) "") then
    match Decode (sr_SenderID req) with
    | Some p => inl p
    | None => inr (writeError 400 "invalid sender_peer_id")
    end
  else inl (result currentAppPeer s).

Definition handleSend (app_of : DeliverFunc → peerID) (rand : option bytes) (r : Request) (n : Node) : Node * Response :=
  if negb (String.eqb (Method r) "POST") then (n, writeError 405 "POST required")
  else
    match v ← Body r; dec_sendRequest v with
    | None => (n, writeError 400 "invalid JSON body")
    | Some req =>
        match Decode (sr_Recipient req) with
        | None => (n, writeError 400 "invalid recipient_peer_id")
        | Some recipient =>
            match base64_DecodeString (sr_Payload req) with
            | None => (n, writeError 400 "payload must be base64")
            | Some payload =>
                match packet_id req rand with
                | inr e => (n, e)
                | inl id =>
                    match packet_sender req (n_srv n) with
                    | inr e => (n, e)
                    | inl sender =>
                        let pkt := mkPacket id sender recipient payload (Time.UnixMilli (clock (n_mgr n))) in
                        let '(n, rErr) := call_relay app_of (Route pkt) n in
                        let n :=
                          match rErr with
                          | Some e =>
                              if negb (String.eqb sender "") then
                                let msg := if bool_decide (e = ErrNoRoute) then "Recipient not found in routing table"
                                           else "Could not forward to recipient's node" in
                                set_n_relay (n_mgr n) (exec (sendToApp sender (errorEvent "SEND_FAILED" msg)) (n_srv n)) n
                              else n
                          | None => n
                          end in
                        (n, mkResponse 200 (JObj [("packet_id", JStr (hex_EncodeToString id)); ("status", JStr "queued")]))
                    end
                end
            end
        end
    end.

(** *** Invites *)

Definition handleInviteGenerate (r : Request) (n : Node) : Node * Response :=
  if negb (String.eqb (Method r) "POST") then (n, writeError 405 "POST required")
  else
    match operatorOnly (n_cfg n) r false with
    | Some err => (n, err)
    | None =>
        if negb (String.eqb (NetworkMode (n_cfg n)) ModePrivate)
        then (n, writeError 400 "invites are only available in private network mode")
        else
          let '(fs, psk) := run (LoadPSK (PSKPath (n_cfg n))) (n_fs n) in
          let n := set_n_cfg (n_cfg n) fs n in
          match psk with
          | Err _ => (n, writeError 500 "could not load psk")
          | Ok psk =>
              if (length (n_addrs n) =? 0)%nat then (n, writeError 500 "node has no advertisable addresses")
              else
                match EncodeInvite (mkInvite _ (n_addrs n) psk (NetworkID (n_cfg n))) with
                | Err _ => (n, writeError 500 "invite")
                | Ok invite => (n, mkResponse 200 (JObj [("invite", JStr invite)]))
                end
          end
    end.

Definition dec_invite_request (v : json) : option string :=
  dec_struct "" (λ kvs, dec_string "invite" kvs) v.

Definition handleInviteAccept (r : Request) (n : Node) : Node * Response :=
  if negb (String.eqb (Method r) "POST") then (n, writeError 405 "POST required")
  else
    match operatorOnly (n_cfg n) r true with
    | Some err => (n, err)
    | None =>
        match v ← Body r; dec_invite_request v with
        | None => (n, writeError 400 "invalid JSON body")
        | Some text =>
            match DecodeInvite text with
            | Err _ => (n, writeError 400 "invalid invite")
            | Ok inv =>
                let '(fs, applied) := run (ApplyInvite (n_cfg n) inv (PSKPath (n_cfg n))) (n_fs n) in
                match applied with
                | Err _ => (set_n_cfg (n_cfg n) fs n, writeError 500 "write psk")
                | Ok cfg =>
                    let '(fs, saved) := run (Save cfg (n_configPath n)) fs in
                    (set_n_cfg cfg fs n,
                     match saved with
                     | Err _ => writeError 500 "could not persist config"
                     | Ok _ => mkResponse 200 (JObj [("restart_required", JBool true); ("status", JStr "accepted")])
                     end)
                end
            end
        end
    end.

(** *** Rendezvous *)

Record registerRequest := mkRegister { rr_Namespace : string; rr_Record : string; rr_TTLSecs : Z }.

Definition dec_registerRequest (v : json) : option registerRequest :=
  dec_struct (mkRegister "" "" 0) (λ kvs,
    ns ← dec_string "namespace" kvs; rec ← dec_string "record" kvs; ttl ← dec_int "ttl_seconds" kvs;
    Some (mkRegister ns rec ttl)) v.

Definition handleRendezvousRegister (r : Request) (n : Node) : Node * Response :=
  if negb (String.eqb (Method r) "POST") then (n, writeError 405 "method not allowed")
  else
    match v ← Body r; dec_registerRequest v with
    | None => (n, writeError 400 "invalid JSON")
    | Some req =>
        if String.eqb (rr_Namespace req) "" || String.eqb (rr_Record req) ""
        then (n, writeError 400 "namespace and record required")
        else if Rendezvous.rendezvousMaxRecordLen <? slen (rr_Record req) then (n, writeError 400 "record too large")
        else
          let ttl := if (rr_TTLSecs req <=? 0) || (rendezvousMaxTTLSecs <? rr_TTLSecs req)
                     then rendezvousMaxTTLSecs else rr_TTLSecs req in
          let '(rs, stored) := run (put (rr_Namespace req) (rr_Record req) (seconds ttl)) (n_rv n) in
          if negb stored then (set_n_rv rs (n_published n) n, writeError 503 "rendezvous full")
          else
            let pub := match n_published n with
                       | None => None
                       | Some l => Some (l ++ [rendezvous_Announce (rr_Namespace req) (rr_Record req)
                                                 (Time.Add (rv_clock rs) (seconds ttl))])
                       end in
            (set_n_rv rs pub n, mkResponse 200 (JObj [("ok", JBool true)]))
    end.

Definition handleRendezvousLookup (r : Request) (n : Node) : Node * Response :=
  if negb (String.eqb (Method r) "GET") then (n, writeError 405 "method not allowed")
  else
    let ns := Query r "namespace" in
    if String.eqb ns "" then (n, writeError 400 "namespace required")
    else
      let '(rs, rec) := run (get ns) (n_rv n) in
      (set_n_rv rs (n_published n) n,
       match rec with
       | None => writeError 404 "not found"
       | Some rec => mkResponse 200 (JObj [("record", JStr rec)])
       end).

(** *** Sockets and routing of requests *)

(** [handleWS], up to the pumps; [upgraded] is whether the upgrade succeeds (if
    not, the upgrader has answered). *)
Definition handleWS (app_of : DeliverFunc → peerID) (closure : peerID → DeliverFunc) (upgraded : bool)
    (r : Request) (n : Node) : Node * Response :=
  match Decode (Query r "peer_id") with
  | None => (n, writeError 400 "missing or invalid peer_id query parameter")
  | Some p =>
      let '(s, opened) := run (ws_open IDString p upgraded) (n_srv n) in
      match opened with
      | Err AtCapacity => (n, writeError 503 "max_app_connections reached")
      | Err UpgradeFailed => (n, mkResponse 400 JNull)
      | Ok _ =>
          let n := set_n_relay (n_mgr n) s n in
          let '(n, _) := call_relay app_of (AppConnected p (closure p)) n in
          (n, mkResponse 101 JNull)
      end
  end.

(** The table of [routes]: the handler of a path, as the multiplexer cleans it,
    and the multiplexer. *)
Definition routes (app_of : DeliverFunc → peerID) (closure : peerID → DeliverFunc) (rand : option bytes)
    (upgraded : bool) (path : string) : option (Request → Node → Node * Response) :=
  if String.eqb path "/health" then Some handleHealth
  else if String.eqb path "/nodes" then Some handleNodes
  else if String.eqb path "/peers" then Some handlePeers
  else if String.eqb path "/networks" then Some handleNetworks
  else if String.eqb path "/send" then Some (handleSend app_of rand)
  else if String.eqb path "/invite/generate" then Some handleInviteGenerate
  else if String.eqb path "/invite/accept" then Some handleInviteAccept
  else if String.eqb path "/config" then Some handleConfig
  else if String.eqb path "/rendezvous/register" then Some handleRendezvousRegister
  else if String.eqb path "/rendezvous/lookup" then Some handleRendezvousLookup
  else if String.eqb path "/ws" then Some (handleWS app_of closure upgraded)
  else None.

Definition serve (app_of : DeliverFunc → peerID) (closure : peerID → DeliverFunc) (rand : option bytes)
    (upgraded : bool) (path : string) (r : Request) (n : Node) : Node * Response :=
  match routes app_of closure rand upgraded path with
  | Some h => authed (n_cfg n) h r n
  | None => (n, mkResponse 404 JNull)
  end.
End handlers.

(** ** Lemmas *)

Section handler_lemmas.
Context `{M : MultiaddrLib} `{L : PeerLib} `{Mp : Msgpack} `{SN : StreamNet} `{MR : MapRange}
  `{FS0 : FileSystem} `{OS : OSEnv} `{Y : Yaml} `{B : Base58} `{BT : Bolt} `{NL : NetLib}.

Lemma checkAuth_true cfg r :
  checkAuth cfg r = true ↔
    APIToken cfg = "" ∨ Header r "Authorization" = "Bearer " +:+ APIToken cfg ∨ Query r "token" = APIToken cfg.
Proof.
  unfold checkAuth. destruct (String.eqb_spec (APIToken cfg) "") as [He|Hne]; [split; [by left|done]|].
  rewrite orb_true_iff. cbn zeta. split.
  - intros [Hh|Hq].
    + destruct (cut_prefix "Bearer " (Header r "Authorization")) as [got|] eqn:E; [|done].
      apply cut_prefix_Some in E. apply String.eqb_eq in Hh as ->. right; by left.
    + destruct (String.eqb (Query r "token") ""); [done|]. apply String.eqb_eq in Hq. right; by right.
  - intros [?|[Hh|Hq]]; [done|left|right].
    + rewrite Hh, cut_prefix_append. apply String.eqb_refl.
    + rewrite Hq, (proj2 (String.eqb_neq _ _) Hne). apply String.eqb_refl.
Qed.

Lemma originAllowed_true r :
  originAllowed r = true ↔
    originLocal r = true ∨
    ∃ scheme host, url_Parse (Header r "Origin") = Some (scheme, host) ∧ host ≠ "" ∧
      EqualFold host (trim_brackets (match SplitHostPort (Host r) with Some h => h | None => Host r end)) = true.
Proof.
  unfold originAllowed. destruct (originLocal r); [split; [by left|done]|].
  destruct (url_Parse _) as [[scheme host]|]; [|split; [done|intros [?|(? & ? & ? & _)]; done]].
  destruct (String.eqb_spec host "").
  - split; [done|]. intros [?|(? & ? & [= <- <-] & ? & _)]; done.
  - split; [intros ?; right; by exists scheme, host|]. intros [?|(? & ? & [= <- <-] & _ & ?)]; done.
Qed.

(** A caller who is not the operator is answered with 403 or 415. *)
Lemma operatorOnly_status cfg r js err :
  operatorOnly cfg r js = Some err → Status err = 403 ∨ Status err = 415.
Proof.
  unfold operatorOnly. destruct (originLocal r); cbn [negb]; [|intros [= <-]; by left].
  destruct (js && _); [intros [= <-]; by right|]. destruct (negb _); [done|].
  destruct (ParseIP _) as [[]|]; intros [= <-]; by left.
Qed.

(** Delivering to a local app: one event, for the app's closure. *)
Lemma run_Route_local p d r m :
  (SeenOrAdd (clock m) (ID p) (dedup m)).2 = false →
  IDFromBytes (RecipientID p) = Some r → localApps m !! r = Some d →
  run (Route p) m = (emit (EvDeliver d p) (set_dedup (λ _, (SeenOrAdd (clock m) (ID p) (dedup m)).1) m), None).
Proof.
  intros Hseen Hid Hd. unfold Route. rewrite run_bind, run_atomic.
  destruct (SeenOrAdd (clock m) (ID p) (dedup m)) as [dd seen]. cbn [fst snd] in *. subst seen.
  unfold forwardOrDeliver. rewrite Hid, run_bind. unfold lookup_local. rewrite run_gets. cbn [fst snd localApps set_dedup].
  rewrite Hd. done.
Qed.

Lemma call_relay_local app_of p d r n :
  (SeenOrAdd (clock (n_mgr n)) (ID p) (dedup (n_mgr n))).2 = false →
  IDFromBytes (RecipientID p) = Some r → localApps (n_mgr n) !! r = Some d →
  ∃ m, call_relay app_of (Route p) n =
    (set_n_relay m (exec (sendToApp (app_of d) (deliver_event p)) (n_srv n)) n, None) ∧
    clock m = clock (n_mgr n).
Proof.
  intros Hseen Hid Hd. unfold call_relay. rewrite (run_Route_local p d r) by done.
  cbv beta iota zeta. change (trace (emit _ _)) with (trace (n_mgr n) ++ [EvDeliver d p]).
  rewrite drop_app_length. eexists. split; [reflexivity|done].
Qed.
End handler_lemmas.

(** ** Theorems *)

Section handler_theorems.
Context `{M : MultiaddrLib} `{L : PeerLib} `{Mp : Msgpack} `{SN : StreamNet} `{MR : MapRange}
  `{FS0 : FileSystem} `{OS : OSEnv} `{Y : Yaml} `{B : Base58} `{BT : Bolt} `{NL : NetLib}.



(** The token does not leak: what [/config] answers to a caller it does not
    refuse is the same whatever the token is. *)
Theorem config_hides_token (r : Request) (n : Node) (tok : string)
    (Hcall : operatorOnly (n_cfg n) r false = None)
    (Hcall' : operatorOnly (set_APIToken tok (n_cfg n)) r false = None) :
  handleConfig r n = (n, mkResponse 200 (enc_config (set_APIToken "***redacted***" (n_cfg n)))) ∧
  (handleConfig r (set_n_cfg (set_APIToken tok (n_cfg n)) (n_fs n) n)).2 = (handleConfig r n).2.
Proof.
  unfold handleConfig. cbn [n_cfg set_n_cfg]. rewrite Hcall, Hcall'. split; [done|]. done.
Qed.

(** Sending works end to end: an accepted request for an app with sockets on this
    node, with a packet identifier not seen before, is answered with the
    identifier, and each open socket of the app with room gets the packet, with
    the sender's text and a payload that decodes to the one sent. *)
Theorem send_reaches_sockets `{!PeerLaws L} (app_of : DeliverFunc → peerID) (rand : option bytes) (r : Request) (n : Node)
    (v : json) (req : sendRequest) (rcp sender : peerID) (payload pid : bytes) (d : DeliverFunc) (sock : nat) (c : wsClient)
    (Hmethod : Method r = "POST") (Hbody : Body r = Some v) (Hreq : dec_sendRequest v = Some req)
    (Hrcp : Decode (sr_Recipient req) = Some rcp) (Hpay : base64_DecodeString (sr_Payload req) = Some payload)
    (Hpid : packet_id req rand = inl pid) (Hsender : packet_sender req (n_srv n) = inl sender)
    (Hnew : (SeenOrAdd (clock (n_mgr n)) pid (dedup (n_mgr n))).2 = false)
    (Hlocal : localApps (n_mgr n) !! rcp = Some d) (Hclosure : app_of d = rcp)
    (Hok : server_ok (n_srv n)) (Hsock : is_Some (clients (n_srv n) !! sock))
    (Hc : objs (n_srv n) !! sock = Some c) (Hpeer : wc_appPeer c = rcp) (Hopen : wc_closed c = false)
    (Hroom : (length (chan_buf (wc_send c)) < wsSendBuffer)%nat) :
  let '(n', resp) := handleSend app_of rand r n in
  resp = mkResponse 200 (JObj [("packet_id", JStr (hex_EncodeToString pid)); ("status", JStr "queued")]) ∧
  ∃ c' text, objs (n_srv n') !! sock = Some c' ∧
    chan_buf (wc_send c') = chan_buf (wc_send c) ++
      [packetReceivedEvent (match IDFromBytes sender with Some i => IDString i | None => "" end) text
         (Time.UnixMilli (clock (n_mgr n)))] ∧
    base64_DecodeString text = Some payload.
Proof.
  unfold handleSend. rewrite Hmethod, Hbody. cbn [String.eqb Ascii.eqb Bool.eqb negb mbind option_bind].
  rewrite Hreq, Hrcp, Hpay, Hpid, Hsender.
  set (pkt := mkPacket pid sender rcp payload (Time.UnixMilli (clock (n_mgr n)))).
  destruct (call_relay_local app_of pkt d rcp n) as (m & -> & _); [done|by eapply Decode_valid|done|].
  split; [done|]. cbn [n_srv set_n_relay]. rewrite Hclosure.
  destruct (sendToApp_spec rcp (deliver_event pkt) (n_srv n) sock c Hok Hc) as (c' & Hc' & Hsent & _).
  exists c', (base64_EncodeToString payload). split; [done|]. split; [|apply base64_roundtrip].
  by apply Hsent.
Qed.
End handler_theorems.

(** ** Concrete libraries and inputs *)

(** An origin is a host, and an address an IP. *)
Definition plain_net : NetLib := {|
  url_Parse o := Some ("http", o);
  SplitHostPort _ := None;
  ParseIP h := if String.eqb h "127.0.0.1" then Some true else if String.eqb h "10.0.0.9" then Some false else None;
  ParseMediaType := id;
  EqualFold := String.eqb
|}.

Module Sample.
#[local] Existing Instances plain_multiaddr plain_peers plain_msgpack all_written reliable plain_yaml plain_base58
  working plain_net LateSnapshot.never_fails.

(** A node with a socket of ["bob"], which has the deliver closure 7. *)
Definition bob_online : Manager := exec (AppConnected "bob" 7) (NewManager "me" true 0).
Definition one_socket : Server := ws_exec WSRace.name (NewServer 100 "me") (OpOpen "bob" true).
Definition app_of (d : DeliverFunc) : peerID := "bob".
Definition closure (p : peerID) : DeliverFunc := 7%nat.

Definition node (cfg : Config) (fs : gmap string bytes) : Node :=
  mkNode _ cfg "config.yaml" (mkFS fs 0) bob_online one_socket (mkStore ∅ "" ∅ Second 0) (Some [])
    (Some (mkNetStore ∅ 0)) (mkPing ∅ [("n2", ["/dns4/n2"])] []) ["/dns4/me/tcp/1"] 0.
Definition public : Node := node Default ∅.
Definition locked : Node := node (set_APIToken "secret" Default) ∅.

(** A request of this machine, or of another, with a JSON body and one query
    parameter. *)
Definition request (method from : string) (key val : string) (body : option json) : Request :=
  mkRequest method (λ h, if String.eqb h "Content-Type" then "application/json" else "")
    (λ q, if String.eqb q key then val else "") "node" from body.

Definition local (method : string) (body : option json) : Request := request method "127.0.0.1" "" "" body.

(** Sixteen zero bytes, the identifier of the packet sent below. *)
Definition zeros : bytes :=
  match hex_DecodeString "00000000000000000000000000000000" with Some b => b | None => "" end.
Definition send_body : json :=
  JObj [("sender_peer_id", JStr "carol"); ("recipient_peer_id", JStr "bob");
        ("payload", JStr (base64_EncodeToString "hello")); ("packet_id", JStr "00000000000000000000000000000000")].
End Sample.

Section witnesses.
Import Sample.
#[local] Existing Instances plain_multiaddr plain_peers plain_msgpack all_written reliable plain_yaml plain_base58
  working plain_net LateSnapshot.never_fails.



Lemma config_hides_token_witness :
  handleConfig (local "GET" None) public = (public, mkResponse 200 (enc_config (set_APIToken "***redacted***" Default))) ∧
  (handleConfig (local "GET" None) (set_n_cfg (set_APIToken "secret" Default) (n_fs public) public)).2 =
    (handleConfig (local "GET" None) public).2.
Proof. apply (config_hides_token (local "GET" None) public "secret"); reflexivity. Defined.

Lemma one_socket_ok : server_ok one_socket.
Proof. apply (ws_exec_books WSRace.name _ (OpOpen "bob" true)), NewServer_books. Qed.

Lemma send_reaches_sockets_witness :
  let '(n', resp) := handleSend app_of None (local "POST" (Some send_body)) public in
  resp = mkResponse 200 (JObj [("packet_id", JStr (hex_EncodeToString zeros)); ("status", JStr "queued")]) ∧
  ∃ c' text, objs (n_srv n') !! 0%nat = Some c' ∧
    chan_buf (wc_send c') = [peerOnlineEvent "bob" "me"] ++ [packetReceivedEvent "carol" text 0] ∧
    base64_DecodeString text = Some "hello".
Proof.
  assert (Hc : ∃ c, objs one_socket !! 0%nat = Some c ∧ wc_appPeer c = "bob" ∧ wc_closed c = false ∧
    chan_buf (wc_send c) = [peerOnlineEvent "bob" "me"]).
  { eexists. split; [vm_compute; reflexivity|]. done. }
  destruct Hc as (c & Hc & Hp & Ho & Hb).
  assert (Hclock : Time.UnixMilli (clock (n_mgr public)) = 0) by (vm_compute; reflexivity).
  pose proof (send_reaches_sockets app_of None (local "POST" (Some send_body)) public send_body
    (mkSend "carol" "bob" (base64_EncodeToString "hello") "00000000000000000000000000000000")
    "bob" "carol" "hello" zeros 7 0 c) as Hsend.
  rewrite Hclock, Hb in Hsend. apply Hsend; clear Hsend; try (vm_compute; reflexivity); try done.
  - apply one_socket_ok.
  - unfold wsSendBuffer. cbn. lia.
Defined.
End witnesses.
