(* ===== verification/ApiSpec.v ===== *)
(** * What callers of the HTTP API get, end to end

    Theorems that follow a request through several components, and from one node
    to another: an invite generated here and accepted there, a record registered
    here and looked up there, and what a refused request leaves behind. *)

From S2P Require Import Prelude GoTime Prog GoStrings Encoding Multiaddr Files Packet Dedup Router Queue Json Presence Manager Rendezvous RvGossip Config Network Invite Card PeerMemory Ping Server Handlers.

#[local] Open Scope string_scope.
#[local] Open Scope list_scope.
#[local] Open Scope Z_scope.

Section api_lemmas.
Context `{M : MultiaddrLib} `{L : PeerLib} `{Mp : Msgpack} `{SN : StreamNet} `{MR : MapRange}
  `{FS0 : FileSystem} `{OS : OSEnv} `{Y : Yaml} `{B : Base58} `{BT : Bolt} `{NL : NetLib}.

(** ** Lemmas: invites *)

(** What an accepted request for an invite went through. *)
Lemma handleInviteGenerate_ok r n n' resp :
  handleInviteGenerate r n = (n', resp) → Status resp = 200 →
  ∃ fs psk text, run (LoadPSK (PSKPath (n_cfg n))) (n_fs n) = (fs, Ok psk) ∧
    n' = set_n_cfg (n_cfg n) fs n ∧
    EncodeInvite (mkInvite _ (n_addrs n) psk (NetworkID (n_cfg n))) = Ok text ∧
    resp = mkResponse 200 (JObj [("invite", JStr text)]).
Proof.
  unfold handleInviteGenerate. destruct (negb _); [by intros [= <- <-]|].
  destruct (operatorOnly _ _ _) as [err|] eqn:Eop.
  { intros [= <- <-]. by destruct (operatorOnly_status _ _ _ _ Eop) as [->| ->]. }
  destruct (negb _); [by intros [= <- <-]|].
  destruct (run (LoadPSK _) _) as [fs [psk|]]; [|by intros [= <- <-]].
  destruct (_ =? 0)%nat; [by intros [= <- <-]|]. cbn [n_addrs n_cfg set_n_cfg].
  destruct (EncodeInvite _) as [text|] eqn:Ee; intros [= <- <-] Hs; [|done]. by exists fs, psk, text.
Qed.

(** What an accepted invite went through. *)
Lemma handleInviteAccept_ok r n n' resp :
  handleInviteAccept r n = (n', resp) → Status resp = 200 →
  ∃ text inv fs fs' cfg,
    (v ← Body r; dec_invite_request v) = Some text ∧ DecodeInvite text = Ok inv ∧
    run (ApplyInvite (n_cfg n) inv (PSKPath (n_cfg n))) (n_fs n) = (fs, Ok cfg) ∧
    run (Save cfg (n_configPath n)) fs = (fs', Ok tt) ∧ n' = set_n_cfg cfg fs' n.
Proof.
  unfold handleInviteAccept. destruct (negb _); [by intros [= <- <-]|].
  destruct (operatorOnly _ _ _) as [err|] eqn:Eop.
  { intros [= <- <-]. by destruct (operatorOnly_status _ _ _ _ Eop) as [->| ->]. }
  destruct (v ← Body r; dec_invite_request v) as [text|] eqn:Eb; [|by intros [= <- <-]].
  destruct (DecodeInvite text) as [inv|] eqn:Ed; [|by intros [= <- <-]].
  destruct (run (ApplyInvite _ _ _) _) as [fs [cfg|]] eqn:Ea; [|by intros [= <- <-]].
  destruct (run (Save _ _) _) as [fs' [[]|]] eqn:Es; intros [= <- <-] Hs; [|done].
  by exists text, inv, fs, fs', cfg.
Qed.

(** The body of an accept request. *)
Lemma dec_invite_body text : dec_invite_request (JObj [("invite", JStr text)]) = Some text.
Proof. unfold dec_invite_request, dec_struct, dec_string. json_keys. done. Qed.

Lemma DecodeInvite_psk text inv : DecodeInvite text = Ok inv → String.length (PSK inv) = pskLen.
Proof.
  unfold DecodeInvite. destruct (cut_prefix _ _); [|done]. destruct (base58_Decode _); [|done].
  by intros (_ & _ & _ & ? & _)%decode_payload_Ok.
Qed.

(** Applying an invite when the key can be written. *)
Lemma run_ApplyInvite cfg inv path fs :
  path ≠ "" → String.length (PSK inv) = pskLen → write_fails (ops fs) path = None →
  run (ApplyInvite cfg inv path) fs =
    (mkFS (<[path := PSK inv]> (files fs)) (S (ops fs)),
     Ok (set_network ModePrivate path (if String.eqb (Label inv) "" then NetworkID cfg else Label inv)
           (merge_addrs (ma_String <$> Multiaddrs inv) (BootstrapPeers cfg)) cfg)).
Proof.
  intros Hne Hlen Hw. unfold ApplyInvite. rewrite (proj2 (String.eqb_neq _ _) Hne), Hlen. cbn [negb Nat.eqb pskLen].
  by rewrite run_bind, run_WriteFile, Hw.
Qed.

(** Saving when the file cannot be opened for writing. *)
Lemma run_Save_untouched cfg path fs :
  write_fails (ops fs) path = Some Untouched →
  ∃ fs' e, run (Save cfg path) fs = (fs', Err e) ∧ files fs' = files fs.
Proof.
  intros Hw. unfold Save. destruct (yaml_Marshal cfg) as [out|]; [|by eexists _, _].
  rewrite run_bind, run_WriteFile, Hw. by eexists _, _.
Qed.

(** Loading a private configuration that is in order changes nothing. *)
Lemma Load_private path fs cfg first :
  result (Load path) fs = Ok (cfg, first) → NetworkMode cfg = ModePrivate →
  valid cfg ∧ ∃ data, files fs !! path = Some data ∧ yaml_Unmarshal data Default = Some cfg.
Proof.
  intros Hload Hm. unfold result in Hload. destruct (run (Load _) _) as [fs' x] eqn:E. cbn in Hload. subst x.
  apply Load_ok in E as (Hv & Hc). apply validate_iff in Hv. split; [done|].
  destruct Hc as [(_ & _ & -> & _)|(data & c & Hf & _ & Hu & [(Hp & _ & -> & _)|(_ & -> & _)])].
  - by vm_compute in Hm.
  - cbn in Hm. by rewrite Hp in Hm.
  - by exists data.
Qed.

(** ** Lemmas: rendezvous *)

Definition register_ttl (ttl : Z) : Duration :=
  seconds (if (ttl <=? 0) || (rendezvousMaxTTLSecs <? ttl) then rendezvousMaxTTLSecs else ttl).

Lemma register_ttl_range ttl : 0 < register_ttl ttl <= Hour.
Proof.
  unfold register_ttl, seconds. set (x := if (_ : bool) then (_ : Z) else (_ : Z)).
  assert (Hx : 0 < x <= 3600).
  { unfold x, rendezvousMaxTTLSecs. destruct ((ttl <=? 0) || (3600 <? ttl)) eqn:E; zbool; lia. }
  rewrite wrap64_id; unfold is_int64, minInt64, maxInt64, Hour, Minute, Second, Millisecond; lia.
Qed.

(** What an accepted registration went through. *)
Lemma handleRendezvousRegister_ok r n :
  Status (handleRendezvousRegister r n).2 = 200 →
  ∃ req rs, (v ← Body r; dec_registerRequest v) = Some req ∧
    let ns := rr_Namespace req in let rec := rr_Record req in
    let exp := rv_clock (n_rv n) + register_ttl (rr_TTLSecs req) in
    ns ≠ "" ∧ rec ≠ "" ∧ slen rec <= Rendezvous.rendezvousMaxRecordLen ∧
    entries rs = <[ns := mkEntry rec exp true]> (entries (n_rv n)) ∧ rv_clock rs = rv_clock (n_rv n) ∧
    (handleRendezvousRegister r n).1 =
      set_n_rv rs ((λ l, l ++ [rendezvous_Announce ns rec exp]) <$> n_published n) n.
Proof.
  unfold handleRendezvousRegister. destruct (negb _); [done|].
  destruct (v ← Body r; dec_registerRequest v) as [req|]; [|done]. destruct (_ || _) eqn:E1; [done|].
  destruct (_ <? _) eqn:E2; [done|]. fold (register_ttl (rr_TTLSecs req)). set (ttl := register_ttl _).
  destruct (decide (entries (n_rv n) !! rr_Namespace req = None ∧ (rendezvousMaxEntries <= size (entries (n_rv n)))%nat))
    as [Hfull|Hroom]; [by rewrite put_full|].
  destruct (put_done (rr_Namespace req) (rr_Record req) ttl _ Hroom) as (Hres & Hent & Hclk).
  unfold result, exec in *. destruct (run (put _ _ _) _) as [rs stored]. cbn [fst snd] in *. subst stored.
  intros _. exists req, rs. zbool. split_and!; try done. cbn [negb fst]. unfold Time.Add. rewrite Hclk.
  by destruct (n_published n).
Qed.

Lemma run_lookup q n ns e :
  Method q = "GET" → Query q "namespace" = ns → ns ≠ "" → entries (n_rv n) !! ns = Some e →
  rv_clock (n_rv n) <= expiresAt e →
  (handleRendezvousLookup q n).2 = mkResponse 200 (JObj [("record", JStr (record e))]).
Proof.
  intros Hm Hq Hne He Ht. unfold handleRendezvousLookup. rewrite Hm, Hq. cbn [String.eqb Ascii.eqb Bool.eqb negb].
  rewrite (proj2 (String.eqb_neq _ _) Hne). unfold get. rewrite run_atomic. unfold get_locked. rewrite He.
  unfold Time.After. by rewrite (proj2 (Z.ltb_ge _ _) Ht).
Qed.

(** ** Lemmas: refusals *)

(** Nothing happened but reading: what is stored, and what the node knows and
    said, is the same; the numbers of reads may differ. *)
Record unchanged (n n' : Node) : Prop := {
  same_cfg : n_cfg n' = n_cfg n;
  same_files : files (n_fs n') = files (n_fs n);
  same_mgr : n_mgr n' = n_mgr n;
  same_srv : n_srv n' = n_srv n;
  same_rv : n_rv n' = n_rv n;
  same_published : n_published n' = n_published n;
  same_networks : bucket <$> n_networks n' = bucket <$> n_networks n;
  same_ping : n_ping n' = n_ping n
}.

#[export] Instance unchanged_refl : Reflexive unchanged.
Proof. by split. Qed.

(** A handler that leaves nothing behind when it fails, but for these statuses. *)
Definition clean (except : list Z) (h : Request → Node → Node * Response) : Prop :=
  ∀ r n, 400 <= Status (h r n).2 → Status (h r n).2 ∉ except → unchanged n (h r n).1.

Lemma run_LoadPSK_files path fs : files (run (LoadPSK path) fs).1 = files fs.
Proof.
  unfold LoadPSK. go_read.
  destruct (files fs !! path); [|done]. destruct (read_fails _ _); [done|]. by destruct (negb _).
Qed.

Lemma clean_send app_of rand : clean [] (handleSend app_of rand).
Proof.
  intros r n. unfold handleSend. destruct (negb _); [done|].
  destruct (v ← Body r; dec_sendRequest v) as [req|]; [|done].
  destruct (Decode _) as [rcp|]; [|done]. destruct (base64_DecodeString _) as [payload|]; [|done].
  destruct (packet_id req rand) as [pid|e]; [|done]. destruct (packet_sender req _) as [sender|e]; [|done].
  destruct (call_relay _ _ n) as [n1 rErr]. cbn [snd Status]. lia.
Qed.

Lemma clean_generate : clean [] handleInviteGenerate.
Proof.
  intros r n. unfold handleInviteGenerate. destruct (negb _); [done|]. destruct (operatorOnly _ _ _); [done|].
  destruct (negb _); [done|]. pose proof (run_LoadPSK_files (PSKPath (n_cfg n)) (n_fs n)) as Hf.
  destruct (run (LoadPSK _) _) as [fs psk]. cbn [fst] in Hf. intros _ _.
  destruct psk as [psk|]; [|by split]. destruct (_ =? 0)%nat; [by split|]. destruct (EncodeInvite _); by split.
Qed.

Lemma clean_accept : clean [500] handleInviteAccept.
Proof.
  intros r n. unfold handleInviteAccept. destruct (negb _); [done|]. destruct (operatorOnly _ _ _); [done|].
  destruct (v ← Body r; dec_invite_request v); [|done]. destruct (DecodeInvite _); [|done].
  destruct (run (ApplyInvite _ _ _) _) as [fs [cfg|]]; [|cbn; set_solver].
  destruct (run (Save _ _) _) as [fs' [u|]]; cbn [snd Status writeError]; [lia|set_solver].
Qed.

Lemma clean_register : clean [] handleRendezvousRegister.
Proof.
  intros r n. unfold handleRendezvousRegister. destruct (negb _); [done|].
  destruct (v ← Body r; dec_registerRequest v) as [req|]; [|done]. destruct (_ || _); [done|].
  destruct (_ <? _); [done|]. set (ttl := seconds _).
  destruct (decide (entries (n_rv n) !! rr_Namespace req = None ∧ (rendezvousMaxEntries <= size (entries (n_rv n)))%nat))
    as [Hfull|Hroom].
  - rewrite put_full by done. cbn [negb fst]. intros _ _. by split.
  - destruct (put_done (rr_Namespace req) (rr_Record req) ttl _ Hroom) as (Hres & _ & _). unfold result in Hres.
    destruct (run (put _ _ _) _) as [rs stored]. cbn [snd] in Hres. subst stored. cbn [negb snd Status]. lia.
Qed.

Lemma clean_networks : clean [] handleNetworks.
Proof.
  intros r n. unfold handleNetworks. destruct (n_networks n) as [st|] eqn:En; [|done].
  destruct (run store_List st) as [st' [cards err]] eqn:E. intros _ _.
  unfold store_List in E. rewrite run_atomic in E. injection E as <- _. split; try done.
  cbn [fst n_networks set_n_networks]. by rewrite En.
Qed.

Lemma clean_lookup : clean [404] handleRendezvousLookup.
Proof.
  intros r n. unfold handleRendezvousLookup. destruct (negb _); [done|]. cbn zeta. destruct (String.eqb _ _); [done|].
  destruct (run (get _) _) as [rs [rec|]]; cbn [snd Status]; [lia|set_solver].
Qed.

Lemma clean_ws app_of closure up : clean [] (handleWS app_of closure up).
Proof.
  intros r n. unfold handleWS. destruct (Decode _) as [p|]; [|done].
  destruct (run (ws_open _ _ _) _) as [s [id|[]]]; [|done..].
  destruct (call_relay _ _ _) as [n1 u]. cbn [snd Status]. lia.
Qed.
End api_lemmas.

(** ** Theorems *)

Section api_theorems.
Context `{M : MultiaddrLib} `{L : PeerLib} `{Mp : Msgpack} `{SN : StreamNet} `{MR : MapRange}
  `{FS0 : FileSystem} `{OS : OSEnv} `{Y : Yaml} `{B : Base58} `{BT : Bolt} `{NL : NetLib}.

(** C10. An invite brings a node into the network. When node [a] answers a request
    for an invite and node [b] accepts that text, with white space pasted around
    it or not, then [b] holds [a]'s key, is in private mode, lists all of
    [a]'s addresses as entry points and has [a]'s network identifier if [a] has
    one; and if [b]'s configuration was valid and is not kept in the key's file,
    the next start of [b] loads that configuration and that key. *)
Theorem invite_joins `{!Base58Laws B} `{!YamlLaws Y} (a a' b b' : Node) (ra rb : Request) (respa respb : Response)
    (text : string) (ws1 ws2 : list string)
    (Haddrs : Forall addr_ok (n_addrs a))
    (Hgen : handleInviteGenerate ra a = (a', respa))
    (Hans : respa = mkResponse 200 (JObj [("invite", JStr text)]))
    (H1 : Forall (λ w, is_space w = true) ws1) (H2 : Forall (λ w, is_space w = true) ws2)
    (Hbody : Body rb = Some (JObj [("invite", JStr (concat_strings ws1 +:+ text +:+ concat_strings ws2))]))
    (Hacc : handleInviteAccept rb b = (b', respb)) (Hok : Status respb = 200)
    (Hvalid : valid (n_cfg b)) (Hpath : n_configPath b ≠ psk_target (PSKPath (n_cfg b))) :
  let restart n := run (Load (n_configPath b)) (mkFS (files (n_fs b')) n) in
  ∃ psk, result (LoadPSK (PSKPath (n_cfg a))) (n_fs a) = Ok psk ∧
    NetworkMode (n_cfg b') = ModePrivate ∧
    (NetworkID (n_cfg a) ≠ "" → NetworkID (n_cfg b') = NetworkID (n_cfg a)) ∧
    (∀ x, x ∈ n_addrs a → ma_String x ∈ BootstrapPeers (n_cfg b')) ∧
    BootstrapPeers (n_cfg b) `prefix_of` BootstrapPeers (n_cfg b') ∧
    ∀ n, read_fails n (n_configPath b) = false → read_fails (S n) (PSKPath (n_cfg b')) = false →
      (restart n).2 = Ok (n_cfg b', false) ∧
      result (LoadPSK (PSKPath (n_cfg b'))) (restart n).1 = Ok psk.
Proof.
  intros restart. destruct (handleInviteGenerate_ok _ _ _ _ Hgen) as (fa & psk & t & Hpsk & _ & Henc & Ht); [by rewrite Hans|].
  assert (t = text) as -> by congruence. clear Ht.
  destruct (handleInviteAccept_ok _ _ _ _ Hacc Hok) as (s & inv & fs & fs' & cfg & Hs & Hdec & Happ & Hsave & ->).
  rewrite Hbody in Hs. cbn [mbind option_bind] in Hs. rewrite dec_invite_body in Hs. injection Hs as <-.
  rewrite (invite_roundtrip (mkInvite _ (n_addrs a) psk (NetworkID (n_cfg a))) text ws1 ws2 Haddrs Henc H1 H2) in Hdec.
  injection Hdec as <-.
  apply ApplyInvite_ok in Happ as (Hlen & Hf & ->). cbn [PSK Label Multiaddrs] in *.
  apply Save_ok in Hsave as (out & Hout & Hf'). cbn [n_cfg set_n_cfg n_fs] in *.
  exists psk. destruct (merge_addrs_spec (ma_String <$> n_addrs a) (BootstrapPeers (n_cfg b))) as (Hpre & Hin & _).
  cbn [set_network NetworkMode NetworkID BootstrapPeers PSKPath] in *. split_and!; try done.
  - unfold result. by rewrite Hpsk.
  - intros Hne. by rewrite (proj2 (String.eqb_neq _ _) Hne).
  - intros x Hx. apply Hin. right. apply list_elem_of_fmap. by exists x.
  - intros n Hr1 Hr2. rewrite Hf in Hf'.
    set (cfg := set_network _ _ _ _ _) in *.
    assert (Hv : valid cfg).
    { apply joined_valid_iff; [done|apply psk_target_ne|]. right. intros He.
      apply fmap_nil_inv in He. rewrite He in Henc. unfold EncodeInvite in Henc. by destruct (negb _) in Henc. }
    assert (Hload : restart n = (mkFS (files fs') (S n), Ok (cfg, false))).
    { unfold restart. cbn [n_fs set_n_cfg]. rewrite (Load_settled _ _ out cfg); [by cbn; rewrite Hr1| |by eapply yaml_roundtrip|done|done].
      cbn [files]. by rewrite Hf', lookup_insert_eq. }
    rewrite Hload. split; [done|]. apply LoadPSK_file; [|done..]. cbn [fst files n_fs set_n_cfg].
    by rewrite Hf', lookup_insert_ne, lookup_insert_eq.
Qed.

(** C28. A request that fails changes nothing: whatever the endpoint and the request,
    an answer with an error status leaves the configuration, the files, the
    relay, the sockets, the rendezvous store and what was published on its
    topic, the cards and the measurements as they were. The exceptions are a
    lookup that finds nothing, which may drop the expired record, and an
    accepted invite that could not be written. *)
Theorem errors_change_nothing (app_of : DeliverFunc → peerID) (closure : peerID → DeliverFunc) (rand : option bytes)
    (upgraded : bool) (path : string) (r : Request) (n : Node)
    (Herr : 400 <= Status (serve app_of closure rand upgraded path r n).2)
    (Hlookup : path = "/rendezvous/lookup" → Status (serve app_of closure rand upgraded path r n).2 ≠ 404)
    (Haccept : path = "/invite/accept" → Status (serve app_of closure rand upgraded path r n).2 ≠ 500) :
  unchanged n (serve app_of closure rand upgraded path r n).1.
Proof.
  unfold serve in *. destruct (routes app_of closure rand upgraded path) as [h|] eqn:Eh; [|done].
  assert (Hclean : ∃ l, clean l h ∧ Status (authed (n_cfg n) h r n).2 ∉ l).
  { revert Eh. unfold routes.
    repeat match goal with
    | |- (if String.eqb path ?x then _ else _) = _ → _ => destruct (String.eqb_spec path x) as [Heq|_]
    end; intros [= <-].
    - exists []. split; [done|set_solver].
    - exists []. split; [done|set_solver].
    - exists []. split; [done|set_solver].
    - exists []. split; [apply clean_networks|set_solver].
    - exists []. split; [apply clean_send|set_solver].
    - exists []. split; [apply clean_generate|set_solver].
    - exists [500]. split; [apply clean_accept|set_solver].
    - exists []. split; [|set_solver]. intros r' n'. unfold handleConfig. by destruct (operatorOnly _ _ _).
    - exists []. split; [apply clean_register|set_solver].
    - exists [404]. split; [apply clean_lookup|set_solver].
    - exists []. split; [apply clean_ws|set_solver]. }
  destruct Hclean as (l & Hclean & Hnot). revert Herr Hnot. unfold authed.
  destruct (negb (checkAuth _ _)); [done|]. destruct (negb (originAllowed _)); [done|]. apply Hclean.
Qed.
(** C38. An invite that is accepted but cannot be saved leaves the node between two
    networks. If the key is written and the configuration is not, the answer is
    500, but the running configuration has joined the new network, and the file
    of the configuration still describes the old one, next to the new network's
    key: a node of a private network that is restarted after the error loads its
    old configuration with a key that is not its network's any more. *)
Theorem accept_failure_loses_key (r : Request) (n : Node) (text : string) (inv : Invite) (oldpsk : bytes)
    (Hop : operatorOnly (n_cfg n) r true = None) (Hpost : Method r = "POST")
    (Hbody : Body r = Some (JObj [("invite", JStr text)])) (Hdec : DecodeInvite text = Ok inv)
    (Hold : result (Load (n_configPath n)) (n_fs n) = Ok (n_cfg n, false))
    (Hmode : NetworkMode (n_cfg n) = ModePrivate)
    (Hpsk : result (LoadPSK (PSKPath (n_cfg n))) (n_fs n) = Ok oldpsk) (Hnew : PSK inv ≠ oldpsk)
    (Hpath : n_configPath n ≠ PSKPath (n_cfg n))
    (Hkey : write_fails (ops (n_fs n)) (PSKPath (n_cfg n)) = None)
    (Hcfg : write_fails (S (ops (n_fs n))) (n_configPath n) = Some Untouched)
    (Hread : ∀ k p, read_fails k p = false) :
  let '(n', resp) := handleInviteAccept r n in
  Status resp = 500 ∧
  (∀ x, x ∈ Multiaddrs inv → ma_String x ∈ BootstrapPeers (n_cfg n')) ∧
  result (Load (n_configPath n)) (n_fs n') = Ok (n_cfg n, false) ∧
  result (LoadPSK (PSKPath (n_cfg n))) (n_fs n') = Ok (PSK inv) ∧
  result (LoadPSK (PSKPath (n_cfg n))) (n_fs n') ≠ result (LoadPSK (PSKPath (n_cfg n))) (n_fs n).
Proof.
  destruct (Load_private _ _ _ _ Hold Hmode) as (Hv & data & Hf & Hu).
  assert (Hne : PSKPath (n_cfg n) ≠ "").
  { destruct Hv as ([Hm|_ ? _|Hm _] & _); [|done|]; by rewrite Hm in Hmode. }
  pose proof (DecodeInvite_psk _ _ Hdec) as Hlen.
  unfold handleInviteAccept. rewrite Hpost, Hop, Hbody. cbn [String.eqb Ascii.eqb Bool.eqb negb mbind option_bind].
  rewrite dec_invite_body, Hdec, run_ApplyInvite by done.
  set (joined := set_network _ _ _ _ _). set (fs := mkFS _ _).
  destruct (run_Save_untouched joined (n_configPath n) fs Hcfg) as (fs' & e & -> & Hfs').
  cbn [n_cfg n_fs set_n_cfg].
  assert (Hkeynew : result (LoadPSK (PSKPath (n_cfg n))) fs' = Ok (PSK inv)).
  { apply LoadPSK_file; [|done..]. rewrite Hfs'. cbn [files fs]. by rewrite lookup_insert_eq. }
  split_and!; [done| | |done|rewrite Hkeynew, Hpsk; congruence].
  - intros x Hx. apply (merge_addrs_spec (ma_String <$> Multiaddrs inv) (BootstrapPeers (n_cfg n))).
    right. apply list_elem_of_fmap. by exists x.
  - unfold result. rewrite (Load_settled _ _ data (n_cfg n)); [by rewrite Hread| |done|done|by rewrite Hmode].
    rewrite Hfs'. cbn [files fs]. by rewrite lookup_insert_ne.
Qed.
End api_theorems.

(** ** Concrete inputs *)

Section witnesses.
Import Sample.
#[local] Existing Instances plain_multiaddr plain_peers plain_msgpack all_written reliable plain_yaml plain_base58
  working plain_net LateSnapshot.never_fails.

(** A node of a private network, and one that is not. *)
Definition home : Config := set_network ModePrivate "./network.psk" "home" ["/dns4/old"] Default.
Definition host_a : Node := node home {["./network.psk" := some_psk]}.
Definition guest : Node := node Default ∅.

Definition body_of (text : string) : option json := Some (JObj [("invite", JStr text)]).

(** The text [host_a] answers with. *)
Definition answer_text : string :=
  match Answer (handleInviteGenerate (local "POST" None) host_a).2 with
  | JObj [(_, JStr t)] => t | _ => "" end.

Lemma invite_joins_witness :
  let b' := (handleInviteAccept (local "POST" (body_of (" " +:+ answer_text))) guest).1 in
  NetworkMode (n_cfg b') = ModePrivate ∧ "/dns4/me/tcp/1" ∈ BootstrapPeers (n_cfg b').
Proof.
  cbn zeta.
  destruct (invite_joins host_a (handleInviteGenerate (local "POST" None) host_a).1 guest
    (handleInviteAccept (local "POST" (body_of (" " +:+ answer_text))) guest).1
    (local "POST" None) (local "POST" (body_of (" " +:+ answer_text)))
    (handleInviteGenerate (local "POST" None) host_a).2
    (handleInviteAccept (local "POST" (body_of (" " +:+ answer_text))) guest).2 answer_text [" "] [])
    as (psk & _ & Hmode & _ & Hin & _).
  - repeat constructor.
  - by destruct (handleInviteGenerate _ _).
  - vm_compute. reflexivity.
  - repeat constructor.
  - constructor.
  - vm_compute. reflexivity.
  - by destruct (handleInviteAccept _ _).
  - vm_compute. reflexivity.
  - by apply validate_iff.
  - discriminate.
  - split; [exact Hmode|]. apply (Hin "/dns4/me/tcp/1"). by left.
Defined.

Lemma errors_change_nothing_witness :
  unchanged public (serve app_of closure None true "/send" (local "GET" None) public).1.
Proof.
  apply (errors_change_nothing app_of closure None true "/send" (local "GET" None) public).
  - vm_compute. discriminate.
  - discriminate.
  - discriminate.
Defined.

Definition long_ns : Request := request "GET" "127.0.0.1" "namespace" "ns" None.
Definition register_body : option json := Some (JObj [("namespace", JStr "ns"); ("record", JStr "rec"); ("ttl_seconds", JInt 60)]).

End witnesses.

Section failure.
Import Sample.

(** A disk on which everything can be read, and everything written but the
    configuration. *)
Definition config_read_only : OSEnv := {|
  read_fails _ _ := false;
  write_fails _ p := if String.eqb p "config.yaml" then Some Untouched else None;
  rename_fails _ := false
|}.

#[local] Existing Instances plain_multiaddr plain_peers plain_msgpack all_written config_read_only plain_yaml plain_base58
  working plain_net LateSnapshot.never_fails.

Definition other_psk : bytes := "fedcba9876543210fedcba9876543210".
Definition member : Node :=
  node home {["./network.psk" := other_psk; "config.yaml" := pack (config_rows home)]}.

Lemma accept_failure_loses_key_witness :
  let '(n', resp) := handleInviteAccept (local "POST" (body_of some_text)) member in
  Status resp = 500 ∧ result (LoadPSK "./network.psk") (n_fs n') = Ok some_psk.
Proof.
  pose proof (accept_failure_loses_key (local "POST" (body_of some_text)) member some_text some_invite other_psk) as H.
  destruct (handleInviteAccept _ member) as [n' resp].
  destruct H as (Hs & _ & _ & Hk & _); try (vm_compute; reflexivity); try done.
Defined.
End failure.
