(* ===== verification/System.v ===== *)
(** * The whole node

    Everything a node runs, as goroutines over one state: requests, sockets that
    close, streams, gossip messages and tickers. The handlers of Handlers.v are
    given again section by section, with the shared configuration read and
    written where the code does it and the relay manager calling back into the
    server; [serve_alone] shows that they are the same handlers, and the
    projections that each component gets only where it can get alone. *)

From S2P Require Import Prelude GoTime Prog Compose GoStrings Encoding Multiaddr Files Packet Dedup Router Queue Json Presence Manager Rendezvous RvGossip Config Network Invite Card PeerMemory Ping Server Handlers.

#[local] Open Scope string_scope.
#[local] Open Scope list_scope.
#[local] Open Scope Z_scope.

(** ** The parts of a node *)

Section parts.
Context `{M : MultiaddrLib}.

Definition set_n_ping (p : PingManager) (n : Node) : Node :=
  mkNode _ (n_cfg n) (n_configPath n) (n_fs n) (n_mgr n) (n_srv n) (n_rv n) (n_published n) (n_networks n) p (n_addrs n) (n_startedAt n).

Definition cfg_part : lens Node Config := mkLens n_cfg (λ c n, set_n_cfg c (n_fs n) n).
Definition fs_part : lens Node FS := mkLens n_fs (λ fs n, set_n_cfg (n_cfg n) fs n).
Definition mgr_part : lens Node Manager := mkLens n_mgr (λ m n, set_n_relay m (n_srv n) n).
Definition srv_part : lens Node Server := mkLens n_srv (λ s n, set_n_relay (n_mgr n) s n).
Definition rv_part : lens Node rendezvousStore := mkLens n_rv (λ rs n, set_n_rv rs (n_published n) n).
Definition ping_part : lens Node PingManager := mkLens n_ping set_n_ping.
(** Used only when there is a card store. *)
Definition net_part : lens Node NetStore := mkLens (λ n, default (mkNetStore ∅ 0) (n_networks n)) set_n_networks.

#[export] Instance cfg_part_laws : LensLaws cfg_part.
Proof. by split. Qed.
#[export] Instance fs_part_laws : LensLaws fs_part.
Proof. by split. Qed.
#[export] Instance mgr_part_laws : LensLaws mgr_part.
Proof. by split. Qed.
#[export] Instance srv_part_laws : LensLaws srv_part.
Proof. by split. Qed.
#[export] Instance rv_part_laws : LensLaws rv_part.
Proof. by split. Qed.
#[export] Instance ping_part_laws : LensLaws ping_part.
Proof. by split. Qed.
#[export] Instance net_part_laws : LensLaws net_part.
Proof. by split. Qed.

End parts.

(** Different parts are apart. *)
#[export] Hint Extern 0 (Apart (T := Node) _ _) => by split : typeclass_instances.

Section system.
Context `{MultiaddrLib} `{PeerLib} `{Msgpack} `{StreamNet} `{MapRange} `{FileSystem} `{OSEnv} `{Yaml}
        `{Base58} `{Bolt} `{NetLib} `{Crypto}.
Context (me : peerID) (app_of : DeliverFunc → peerID) (closure : peerID → DeliverFunc).

(** A call of the relay manager, which calls the server back. *)
Definition relay {A} (p : prog Manager A) : prog Node A :=
  weave mgr_part trace (λ ev, zoom srv_part (relay_event app_of ev)) p.

(** A call of the ping manager, whose [onEvent] is [OnNodeEvent]. *)
Definition pinging {A} (p : prog PingManager A) : prog Node A :=
  weave ping_part events
    (λ e, zoom srv_part (OnNodeEvent (IDString (ne_peer e)) (ne_rttMs e) (ne_connected e))) p.

(** [g.Announce(m)] on the rendezvous topic, if there is gossip. *)
Definition publish (msg : Node → rendezvousMsg) : prog Node unit :=
  modify (λ n, set_n_rv (n_rv n) ((λ l, l ++ [msg n]) <$> n_published n) n).

(** ** The handlers, section by section *)

Definition go_authed (next : Request → prog Node Response) (r : Request) : prog Node Response :=
  cfg ← gets n_cfg;
  if negb (checkAuth cfg r) then mret (writeError 401 "unauthorized")
  else if negb (originAllowed r) then mret (writeError 403 "cross-site requests are not accepted")
  else next r.

Definition go_handleHealth (r : Request) : prog Node Response :=
  cfg ← gets n_cfg;
  let networkID :=
    if String.eqb (NetworkID cfg) "" && String.eqb (NetworkMode cfg) ModePublic
    then "plural-star-global" else NetworkID cfg in
  apps ← gets (λ n, size (clients (n_srv n)));
  nodes ← zoom ping_part Count;
  n ← gets id;
  mret (mkResponse 200 (JObj
    [("connected_apps", JInt (Z.of_nat apps));
     ("connected_nodes", JInt (Z.of_nat nodes));
     ("network_id", JStr networkID);
     ("network_mode", JStr (NetworkMode cfg));
     ("peer_id", JStr (selfID (n_srv n)));
     ("status", JStr "ok");
     ("uptime_seconds", JInt (Z.quot (Time.Sub (clock (n_mgr n)) (n_startedAt n)) Second))])).

Definition go_handleNodes (r : Request) : prog Node Response :=
  nodes ← zoom ping_part Nodes;
  mret (mkResponse 200 (JArr (enc_NodeInfo <$> nodes))).

(** The first loop of [handlePeers] holds the server's lock. *)
Definition go_handlePeers (r : Request) : prog Node Response :=
  here ← gets peers_here;
  known ← gets peers_known;
  mret (mkResponse 200 (JArr (list_peers ∅ (here ++ known)))).

Definition go_handleNetworks (r : Request) : prog Node Response :=
  st ← gets n_networks;
  match st with
  | None => mret (mkResponse 200 (JArr []))
  | Some _ =>
      listed ← zoom net_part store_List;
      mret (match listed.2 with
            | Some _ => writeError 500 "could not read networks"
            | None => mkResponse 200 (JArr (enc_card <$> listed.1))
            end)
  end.

Definition go_handleConfig (r : Request) : prog Node Response :=
  cfg ← gets n_cfg;
  match operatorOnly cfg r false with
  | Some err => mret err
  | None =>
      cfg ← gets n_cfg;
      mret (mkResponse 200 (enc_config (set_APIToken "***redacted***" cfg)))
  end.

(** What [handleSend] does once the request is read: the sender may be the
    current app. *)
Definition go_send (req : sendRequest) (recipient : peerID) (payload id : bytes) (sender : peerID) : prog Node Response :=
  now ← gets (λ n, clock (n_mgr n));
  rErr ← relay (Route (mkPacket id sender recipient payload (Time.UnixMilli now)));
  match rErr with
  | Some e =>
      if negb (String.eqb sender "") then
        let msg := if bool_decide (e = ErrNoRoute) then "Recipient not found in routing table"
                   else "Could not forward to recipient's node" in
        zoom srv_part (sendToApp sender (errorEvent "SEND_FAILED" msg))
      else mret tt
  | None => mret tt
  end;;
  mret (mkResponse 200 (JObj [("packet_id", JStr (hex_EncodeToString id)); ("status", JStr "queued")])).

Definition go_handleSend (rand : option bytes) (r : Request) : prog Node Response :=
  if negb (String.eqb (Method r) "POST") then mret (writeError 405 "POST required")
  else
    match v ← Body r; dec_sendRequest v with
    | None => mret (writeError 400 "invalid JSON body")
    | Some req =>
        match Decode (sr_Recipient req) with
        | None => mret (writeError 400 "invalid recipient_peer_id")
        | Some recipient =>
            match base64_DecodeString (sr_Payload req) with
            | None => mret (writeError 400 "payload must be base64")
            | Some payload =>
                match packet_id req rand with
                | inr e => mret e
                | inl id =>
                    if negb (String.eqb (sr_SenderID req) "") then
                      match Decode (sr_SenderID req) with
                      | Some p => go_send req recipient payload id p
                      | None => mret (writeError 400 "invalid sender_peer_id")
                      end
                    else
                      p ← zoom srv_part currentAppPeer;
                      go_send req recipient payload id p
                end
            end
        end
    end.

Definition go_handleInviteGenerate (r : Request) : prog Node Response :=
  if negb (String.eqb (Method r) "POST") then mret (writeError 405 "POST required")
  else
    cfg ← gets n_cfg;
    match operatorOnly cfg r false with
    | Some err => mret err
    | None =>
        cfg ← gets n_cfg;
        if negb (String.eqb (NetworkMode cfg) ModePrivate)
        then mret (writeError 400 "invites are only available in private network mode")
        else
          psk ← zoom fs_part (LoadPSK (PSKPath cfg));
          match psk with
          | Err _ => mret (writeError 500 "could not load psk")
          | Ok psk =>
              n ← gets id;
              if (length (n_addrs n) =? 0)%nat then mret (writeError 500 "node has no advertisable addresses")
              else
                match EncodeInvite (mkInvite _ (n_addrs n) psk (NetworkID (n_cfg n))) with
                | Err _ => mret (writeError 500 "invite")
                | Ok invite => mret (mkResponse 200 (JObj [("invite", JStr invite)]))
                end
          end
    end.

(** [ApplyInvite] on the configuration all handlers share: nothing guards its
    assignments, each of which is a section of its own. *)
Definition assign_cfg (f : Config → Config) : prog Node unit :=
  modify (λ n, set_n_cfg (f (n_cfg n)) (n_fs n) n).

Definition go_ApplyInvite (inv : Invite) (pskPath : string) : prog Node (res ApplyError unit) :=
  let pskPath := if String.eqb pskPath "" then "./network.psk" else pskPath in
  if negb (String.length (PSK inv) =? pskLen)%nat then mret (Err ApplyBadPSK)
  else
    w ← zoom fs_part (WriteFile pskPath (PSK inv));
    match w with
    | Err _ => mret (Err WritePSK)
    | Ok _ =>
        assign_cfg (λ c, set_network ModePrivate (PSKPath c) (NetworkID c) (BootstrapPeers c) c);;
        assign_cfg (λ c, set_network (NetworkMode c) pskPath (NetworkID c) (BootstrapPeers c) c);;
        (if String.eqb (Label inv) "" then mret tt
         else assign_cfg (λ c, set_network (NetworkMode c) (PSKPath c) (Label inv) (BootstrapPeers c) c));;
        for_each (ma_String <$> Multiaddrs inv) (λ s,
          assign_cfg (λ c, set_network (NetworkMode c) (PSKPath c) (NetworkID c)
            (if containsString (BootstrapPeers c) s then BootstrapPeers c else BootstrapPeers c ++ [s]) c));;
        mret (Ok tt)
    end.

Definition go_handleInviteAccept (r : Request) : prog Node Response :=
  if negb (String.eqb (Method r) "POST") then mret (writeError 405 "POST required")
  else
    cfg ← gets n_cfg;
    match operatorOnly cfg r true with
    | Some err => mret err
    | None =>
        match v ← Body r; dec_invite_request v with
        | None => mret (writeError 400 "invalid JSON body")
        | Some text =>
            match DecodeInvite text with
            | Err _ => mret (writeError 400 "invalid invite")
            | Ok inv =>
                cfg ← gets n_cfg;
                applied ← go_ApplyInvite inv (PSKPath cfg);
                match applied with
                | Err _ => mret (writeError 500 "write psk")
                | Ok _ =>
                    n ← gets id;
                    saved ← zoom fs_part (Save (n_cfg n) (n_configPath n));
                    mret (match saved with
                          | Err _ => writeError 500 "could not persist config"
                          | Ok _ => mkResponse 200 (JObj [("restart_required", JBool true); ("status", JStr "accepted")])
                          end)
                end
            end
        end
    end.

Definition go_handleRendezvousRegister (r : Request) : prog Node Response :=
  if negb (String.eqb (Method r) "POST") then mret (writeError 405 "method not allowed")
  else
    match v ← Body r; dec_registerRequest v with
    | None => mret (writeError 400 "invalid JSON")
    | Some req =>
        if String.eqb (rr_Namespace req) "" || String.eqb (rr_Record req) ""
        then mret (writeError 400 "namespace and record required")
        else if Rendezvous.rendezvousMaxRecordLen <? slen (rr_Record req) then mret (writeError 400 "record too large")
        else
          let ttl := if (rr_TTLSecs req <=? 0) || (rendezvousMaxTTLSecs <? rr_TTLSecs req)
                     then rendezvousMaxTTLSecs else rr_TTLSecs req in
          stored ← zoom rv_part (put (rr_Namespace req) (rr_Record req) (seconds ttl));
          if negb stored then mret (writeError 503 "rendezvous full")
          else
            publish (λ n, rendezvous_Announce (rr_Namespace req) (rr_Record req)
                            (Time.Add (rv_clock (n_rv n)) (seconds ttl)));;
            mret (mkResponse 200 (JObj [("ok", JBool true)]))
    end.

Definition go_handleRendezvousLookup (r : Request) : prog Node Response :=
  if negb (String.eqb (Method r) "GET") then mret (writeError 405 "method not allowed")
  else
    let ns := Query r "namespace" in
    if String.eqb ns "" then mret (writeError 400 "namespace required")
    else
      rec ← zoom rv_part (get ns);
      mret (match rec with
            | None => writeError 404 "not found"
            | Some rec => mkResponse 200 (JObj [("record", JStr rec)])
            end).

(** [handleWS], up to the pumps. *)
Definition go_handleWS (upgraded : bool) (r : Request) : prog Node Response :=
  match Decode (Query r "peer_id") with
  | None => mret (writeError 400 "missing or invalid peer_id query parameter")
  | Some p =>
      opened ← zoom srv_part (ws_open IDString p upgraded);
      match opened with
      | Err AtCapacity => mret (writeError 503 "max_app_connections reached")
      | Err UpgradeFailed => mret (mkResponse 400 JNull)
      | Ok _ => relay (AppConnected p (closure p));; mret (mkResponse 101 JNull)
      end
  end.

(** Its [onClose], for the socket [id] of app [p]; [relay_AppDisconnected] is
    the server's record of what the relay manager is told next. *)
Definition go_ws_close (p : peerID) (id : nat) : prog Node unit :=
  zoom srv_part (removeClient id);;
  zoom srv_part (close id);;
  more ← zoom srv_part (hasClientFor p);
  if (more : bool) then mret tt
  else
    zoom srv_part (relay_AppDisconnected p);;
    relay (AppDisconnected p);;
    zoom srv_part (broadcast (peerOfflineEvent (IDString p))).

Definition go_routes (rand : option bytes) (upgraded : bool) (path : string) : option (Request → prog Node Response) :=
  if String.eqb path "/health" then Some go_handleHealth
  else if String.eqb path "/nodes" then Some go_handleNodes
  else if String.eqb path "/peers" then Some go_handlePeers
  else if String.eqb path "/networks" then Some go_handleNetworks
  else if String.eqb path "/send" then Some (go_handleSend rand)
  else if String.eqb path "/invite/generate" then Some go_handleInviteGenerate
  else if String.eqb path "/invite/accept" then Some go_handleInviteAccept
  else if String.eqb path "/config" then Some go_handleConfig
  else if String.eqb path "/rendezvous/register" then Some go_handleRendezvousRegister
  else if String.eqb path "/rendezvous/lookup" then Some go_handleRendezvousLookup
  else if String.eqb path "/ws" then Some (go_handleWS upgraded)
  else None.

Definition go_serve (rand : option bytes) (upgraded : bool) (path : string) (r : Request) : prog Node Response :=
  match go_routes rand upgraded path with
  | Some h => go_authed h r
  | None => mret (mkResponse 404 JNull)
  end.

(** ** What else runs *)

(** One tick of [RendezvousReannounceLoop], and the loop. *)
Definition go_reannounce : prog Node unit :=
  pub ← gets n_published;
  match pub with
  | None => mret tt
  | Some _ =>
      msgs ← zoom rv_part (reannounce true);
      for_each msgs (λ m, publish (λ _, m))
  end.

(** What works on the card store runs only when there is one. *)
Definition with_store (p : prog NetStore unit) : prog Node unit :=
  st ← gets n_networks;
  match st with None => mret tt | Some _ => zoom net_part p end.

Definition RendezvousReannounceLoop (sigs : list signal) : prog Node unit := ticker_loop go_reannounce sigs.

(** The read loops of the three gossip topics. *)
Definition presence_loop (next : list (option gossipMsg)) : prog Node unit := relay (presence_readLoop next).
Definition rendezvous_loop (next : list (option gossipMsg)) : prog Node unit :=
  zoom rv_part (read_loop (on_rendezvous me) next).
Definition discovery_loop (next : list (option gossipMsg)) : prog Node unit :=
  with_store (read_loop (λ msg, _ ← discovery_receive me msg; mret tt) next).

(** The goroutines a node starts by itself: the reading of a socket, the loops that
    read from topics and wait for tickers, and what the ping service starts. *)
Inductive own_call : prog Node unit → Prop :=
| call_socket reads p id : own_call (readPump reads (go_ws_close p id))
| call_presence_loop next : own_call (presence_loop next)
| call_rendezvous_loop next : own_call (rendezvous_loop next)
| call_discovery_loop next : own_call (discovery_loop next)
| call_evict_loop sigs : own_call (relay (evictLoop sigs))
| call_prune_loop sigs : own_call (relay (pruneLoop sigs))
| call_sweep_loop sigs : own_call (relay (sweepLoop sigs))
| call_reannounce_loop sigs : own_call (RendezvousReannounceLoop sigs)
| call_janitor_loop sigs : own_call (zoom rv_part (ticker_loop janitor sigs))
| call_directory url answer : own_call (with_store (_ ← FetchDirectory url answer; mret tt))
| call_ping p rtt : own_call (pinging (measure p rtt))
| call_lost p : own_call (pinging (disconnected p))
| call_stop : own_call (zoom srv_part Shutdown).

(** All goroutines of a node: these, a request, and a stream another node opened. *)
Inductive sys_call : prog Node unit → Prop :=
| call_request rand up path r : sys_call (_ ← go_serve rand up path r; mret tt)
| call_own p : own_call p → sys_call p
| call_stream b : sys_call (relay (handleStream b)).

(** What happens by itself, to one part at a time; each reads its own clock. *)
Inductive sys_env : Node → Node → Prop :=
| env_relay n m : mgr_env (n_mgr n) m → sys_env n (set_n_relay m (n_srv n) n)
| env_sockets n s : sv_env (n_srv n) s → sys_env n (set_n_relay (n_mgr n) s n)
| env_rendezvous n rs : rv_env (n_rv n) rs → sys_env n (set_n_rv rs (n_published n) n)
| env_ping n p : ping_env (n_ping n) p → sys_env n (set_n_ping p n).
End system.

(** ** Running alone *)

(** Proving of every section of a program that it only adds to the log. *)
Ltac appends_step :=
  match goal with
  | |- all_sections _ (mret _) => apply all_ret
  | |- all_sections _ (Ret _) => apply all_ret
  | |- all_sections _ (_ ≫= _) => apply all_bind; [|intros ?]
  | |- all_sections _ (for_each _ _) => apply all_for_each; intros ?
  | |- all_sections _ (gets _) => apply all_gets; apply appends_same; by intros
  | |- all_sections _ (modify _) => apply all_modify
  | |- all_sections _ (atomic _) => apply all_atomic
  | |- all_sections _ (match ?x with _ => _ end) => destruct x
  | |- all_sections _ _ => solve [eauto with sections]
  | |- appends _ (emit ?e) => intros ?; by exists [e]
  end.

Section alone.
Context `{M : MultiaddrLib} `{L : PeerLib} `{Mp : Msgpack} `{SN : StreamNet} `{MR : MapRange}
  `{FS0 : FileSystem} `{OS : OSEnv} `{Y : Yaml} `{B : Base58} `{BT : Bolt} `{NL : NetLib} `{C : Crypto}.
Context (app_of : DeliverFunc → peerID) (closure : peerID → DeliverFunc).

#[local] Abbreviation logs := (all_sections (appends trace)).

Lemma logs_forwardTo via p : logs (forwardTo via p).
Proof.
  unfold forwardTo. repeat appends_step. intros m.
  destruct (stream_outcome _ _); cbn; [by exists []; rewrite app_nil_r..|by eexists].
Qed.

Lemma logs_queue_Put r p : logs (queue_Put r p).
Proof. unfold queue_Put. repeat appends_step. by apply appends_same. Qed.
#[local] Hint Resolve logs_forwardTo logs_queue_Put : sections.

Lemma logs_FlushQueued r : logs (FlushQueued r).
Proof.
  unfold FlushQueued, queue_Take, lookup_local, lookup_via, call_deliver. repeat appends_step.
  apply appends_same. intros m. by destruct (Take _ _ _).
Qed.
#[local] Hint Resolve logs_FlushQueued : sections.

Lemma logs_Route p : logs (Route p).
Proof.
  unfold Route, forwardOrDeliver, lookup_local, lookup_via, call_deliver. repeat appends_step.
  apply appends_same. intros m. by destruct (SeenOrAdd _ _ _).
Qed.

Lemma logs_AppConnected a d : logs (AppConnected a d).
Proof.
  unfold AppConnected, register_app, presence_Announce. repeat appends_step; [by apply appends_same| |by apply appends_same].
  intros m. by eexists.
Qed.

Lemma logs_AppDisconnected a : logs (AppDisconnected a).
Proof.
  unfold AppDisconnected, presence_Tombstone. repeat appends_step; [|intros m; by eexists].
  apply appends_same. intros m. unfold unregister_app. by destruct (refreshers m !! a).
Qed.
#[local] Hint Resolve logs_Route : sections.

Lemma logs_handleStream b : logs (handleStream b).
Proof. unfold handleStream. repeat appends_step. Qed.

Lemma logs_on_presence msg : logs (on_presence msg).
Proof.
  unfold on_presence, wrapped. repeat appends_step.
  - apply appends_same. intros m. by destruct (presence_receive _ _ _ _ _).
  - intros m. destruct (onPeer m); [by eexists|exists []; by rewrite app_nil_r].
Qed.

Lemma logs_readLoop next : logs (presence_readLoop next).
Proof. apply all_reader, logs_on_presence. Qed.

(** The tickers do nothing to the outside. *)
Lemma logs_tick f sigs : (∀ now m, trace (f now m) = trace m) → logs (ticker_loop (now ← gets clock; modify (f now)) sigs).
Proof. intros Hf. apply all_ticker. repeat appends_step. by apply appends_same. Qed.

Lemma logs_evictLoop sigs : logs (evictLoop sigs).
Proof. by apply (logs_tick (λ now, set_dedup (evict now))). Qed.
Lemma logs_pruneLoop sigs : logs (pruneLoop sigs).
Proof. by apply (logs_tick (λ now, set_router (prune now))). Qed.
Lemma logs_sweepLoop sigs : logs (sweepLoop sigs).
Proof. by apply (logs_tick (λ now, set_queue (sweep now))). Qed.

(** Methods of one part, alone. *)
Lemma node_eta (n : Node) :
  mkNode _ (n_cfg n) (n_configPath n) (n_fs n) (n_mgr n) (n_srv n) (n_rv n) (n_published n) (n_networks n) (n_ping n)
    (n_addrs n) (n_startedAt n) = n.
Proof. by destruct n. Qed.

Lemma run_on_srv {A} (p : prog Server A) n :
  run (zoom srv_part p) n = (set_n_relay (n_mgr n) (run p (n_srv n)).1 n, (run p (n_srv n)).2).
Proof. apply (run_zoom srv_part). apply node_eta. Qed.
Lemma run_on_rv {A} (p : prog rendezvousStore A) n :
  run (zoom rv_part p) n = (set_n_rv (run p (n_rv n)).1 (n_published n) n, (run p (n_rv n)).2).
Proof. apply (run_zoom rv_part). apply node_eta. Qed.
Lemma run_on_fs {A} (p : prog FS A) n :
  run (zoom fs_part p) n = (set_n_cfg (n_cfg n) (run p (n_fs n)).1 n, (run p (n_fs n)).2).
Proof. apply (run_zoom fs_part). apply node_eta. Qed.
Lemma run_on_ping {A} (p : prog PingManager A) n :
  run (zoom ping_part p) n = (set_n_ping (run p (n_ping n)).1 n, (run p (n_ping n)).2).
Proof. apply (run_zoom ping_part). apply node_eta. Qed.
Lemma run_on_net {A} (p : prog NetStore A) n st :
  n_networks n = Some st → run (zoom net_part p) n = (set_n_networks (run p st).1 n, (run p st).2).
Proof. intros E. rewrite (run_zoom net_part); [cbn; by rewrite E|]. destruct n. cbn in *. by subst. Qed.

(** A call of the relay manager, alone, is [call_relay]. *)
Lemma run_relay {A} (p : prog Manager A) n : logs p → run (relay app_of p) n = call_relay app_of p n.
Proof.
  intros Hp. unfold relay. rewrite (run_weave mgr_part); [|apply zoom_beside; apply _|done|apply node_eta].
  unfold call_relay. cbn [view put_in mgr_part]. unfold news.
  destruct (run p (n_mgr n)) as [m a]. cbn [fst snd]. f_equal.
  set (evs := drop _ _). clearbody evs. unfold run_deliveries, callbacks.
  generalize (n_srv n) as s. induction evs as [|ev evs IH]; intros s; [done|]. cbn [foldl].
  rewrite run_on_srv. exact (IH _).
Qed.
End alone.

#[export] Hint Resolve logs_Route logs_AppConnected logs_AppDisconnected logs_handleStream logs_readLoop logs_evictLoop logs_pruneLoop logs_sweepLoop
  : sections.

(** Running a handler section by section. *)
Ltac go_run :=
  repeat first [rewrite run_bind | rewrite run_gets | rewrite run_modify | rewrite run_on_srv | rewrite run_on_rv
               | rewrite run_on_fs | rewrite run_on_ping | rewrite run_relay by eauto with sections];
  cbn [fst snd].

Section handlers_alone.
Context `{M : MultiaddrLib} `{L : PeerLib} `{Mp : Msgpack} `{SN : StreamNet} `{MR : MapRange}
  `{FS0 : FileSystem} `{OS : OSEnv} `{Y : Yaml} `{B : Base58} `{BT : Bolt} `{NL : NetLib} `{C : Crypto}.
Context (app_of : DeliverFunc → peerID) (closure : peerID → DeliverFunc).

(** [P] is the handler [h], section by section. *)
Definition same_alone (P : Request → prog Node Response) (h : Request → Node → Node * Response) : Prop :=
  ∀ r n, run (P r) n = h r n.

Lemma alone_authed P h r n :
  same_alone P h → run (go_authed P r) n = authed (n_cfg n) h r n.
Proof.
  intros Hh. unfold go_authed, authed. go_run. destruct (negb (checkAuth _ _)); [done|].
  destruct (negb (originAllowed _)); [done|]. apply Hh.
Qed.

Lemma alone_health : same_alone go_handleHealth handleHealth.
Proof.
  intros r n. unfold go_handleHealth, handleHealth. go_run. by destruct n.
Qed.

Lemma alone_nodes : same_alone go_handleNodes handleNodes.
Proof. intros r n. unfold go_handleNodes, handleNodes. go_run. by destruct n. Qed.

Lemma alone_peers : same_alone go_handlePeers handlePeers.
Proof. intros r n. unfold go_handlePeers. by go_run. Qed.

Lemma alone_networks : same_alone go_handleNetworks handleNetworks.
Proof.
  intros r n. unfold go_handleNetworks, handleNetworks. go_run. destruct (n_networks n) as [st|] eqn:E; [|done].
  rewrite run_bind, (run_on_net _ _ _ E). by destruct (run store_List st) as [st' [cards err]].
Qed.

Lemma alone_config : same_alone go_handleConfig handleConfig.
Proof. intros r n. unfold go_handleConfig, handleConfig. go_run. by destruct (operatorOnly _ _ _). Qed.

Lemma alone_send rand : same_alone (go_handleSend app_of rand) (handleSend app_of rand).
Proof.
  intros r n. unfold go_handleSend, handleSend. destruct (negb _); [done|].
  destruct (v ← Body r; dec_sendRequest v) as [req|]; [|done]. destruct (Decode _) as [recipient|]; [|done].
  destruct (base64_DecodeString _) as [payload|]; [|done]. destruct (packet_id _ _) as [id|e]; [|done].
  unfold packet_sender.
  assert (Hsend : ∀ sender, run (go_send app_of req recipient payload id sender) n =
    let '(n, rErr) := call_relay app_of (Route (mkPacket id sender recipient payload (Time.UnixMilli (clock (n_mgr n))))) n in
    let n :=
      match rErr with
      | Some e =>
          if negb (String.eqb sender "") then
            let msg := if bool_decide (e = ErrNoRoute) then "Recipient not found in routing table"
                       else "Could not forward to recipient's node" in
            set_n_relay (n_mgr n) (exec (sendToApp sender (errorEvent "SEND_FAILED" msg)) (n_srv n)) n
          else n
      | None => n
      end in
    (n, mkResponse 200 (JObj [("packet_id", JStr (hex_EncodeToString id)); ("status", JStr "queued")]))).
  { intros sender. unfold go_send. go_run.
    destruct (call_relay _ _ _) as [n1 [e|]]; cbn [fst snd]; go_run; [|done].
    destruct (negb (String.eqb sender "")); go_run; done. }
  destruct (negb (String.eqb (sr_SenderID req) "")).
  - destruct (Decode (sr_SenderID req)); [apply Hsend|done].
  - go_run. unfold result, currentAppPeer at 1 2. rewrite run_gets. cbn [fst snd]. unfold set_n_relay at 1. rewrite node_eta.
    apply Hsend.
Qed.

Lemma alone_generate : same_alone go_handleInviteGenerate handleInviteGenerate.
Proof.
  intros r n. unfold go_handleInviteGenerate, handleInviteGenerate. destruct (negb _); [done|]. go_run.
  destruct (operatorOnly _ _ _); [done|]. go_run. destruct (negb _); [done|]. go_run.
  destruct (run (LoadPSK _) _) as [fs [psk|e]]; [|done]. cbn [fst snd]. go_run. cbn [n_addrs n_cfg set_n_cfg].
  destruct (_ =? _)%nat; [done|]. by destruct (EncodeInvite _).
Qed.

(** The assignments of [ApplyInvite], alone. *)
Lemma run_assign f n : run (assign_cfg f) n = (set_n_cfg (f (n_cfg n)) (n_fs n) n, tt).
Proof. done. Qed.

Lemma run_merge l n :
  (run (for_each l (λ s, assign_cfg (λ c, set_network (NetworkMode c) (PSKPath c) (NetworkID c)
            (if containsString (BootstrapPeers c) s then BootstrapPeers c else BootstrapPeers c ++ [s]) c))) n).1 =
  set_n_cfg (set_network (NetworkMode (n_cfg n)) (PSKPath (n_cfg n)) (NetworkID (n_cfg n))
    (merge_addrs l (BootstrapPeers (n_cfg n))) (n_cfg n)) (n_fs n) n.
Proof.
  rewrite run_for_each. revert n. induction l as [|s l IH]; intros n; [by destruct n as [[]]|].
  cbn [foldl merge_addrs]. rewrite run_assign, IH. done.
Qed.

Lemma run_go_ApplyInvite inv path n :
  run (go_ApplyInvite inv path) n =
    let '(fs, applied) := run (ApplyInvite (n_cfg n) inv path) (n_fs n) in
    match applied with
    | Err e => (set_n_cfg (n_cfg n) fs n, Err e)
    | Ok cfg => (set_n_cfg cfg fs n, Ok tt)
    end.
Proof.
  unfold go_ApplyInvite, ApplyInvite. destruct (negb _); [cbn; by destruct n|]. go_run.
  destruct (run (WriteFile _ _) _) as [fs [[]|[]]]; [|done]. cbn [fst snd]. rewrite !run_bind, !run_assign. cbn [fst snd].
  set (n1 := set_n_cfg _ _ _).
  assert (Hid : (run (if String.eqb (Label inv) "" then mret tt
         else assign_cfg (λ c, set_network (NetworkMode c) (PSKPath c) (Label inv) (BootstrapPeers c) c)) n1).1 =
    set_n_cfg (set_network (NetworkMode (n_cfg n1)) (PSKPath (n_cfg n1))
      (if String.eqb (Label inv) "" then NetworkID (n_cfg n1) else Label inv) (BootstrapPeers (n_cfg n1)) (n_cfg n1)) (n_fs n1) n1).
  { by destruct (String.eqb (Label inv) ""). }
  rewrite Hid, run_merge. done.
Qed.

Lemma alone_accept : same_alone go_handleInviteAccept handleInviteAccept.
Proof.
  intros r n. unfold go_handleInviteAccept, handleInviteAccept. destruct (negb _); [done|]. go_run.
  destruct (operatorOnly _ _ _); [done|]. destruct (v ← Body r; dec_invite_request v) as [text|]; [|done].
  destruct (DecodeInvite text) as [inv|]; [|done]. go_run. rewrite run_go_ApplyInvite.
  destruct (run (ApplyInvite _ _ _) _) as [fs [cfg|e]]; cbn [fst snd]; [|done]. go_run.
  cbn [n_cfg n_fs n_configPath set_n_cfg]. by destruct (run (Save _ _) _) as [fs' [|]].
Qed.

Lemma alone_register : same_alone go_handleRendezvousRegister handleRendezvousRegister.
Proof.
  intros r n. unfold go_handleRendezvousRegister, handleRendezvousRegister. destruct (negb _); [done|].
  destruct (v ← Body r; dec_registerRequest v) as [req|]; [|done]. destruct (_ || _); [done|].
  destruct (_ <? _); [done|]. go_run. destruct (run (put _ _ _) _) as [rs [|]]; cbn [fst snd negb]; [|done].
  go_run. unfold publish. go_run. by destruct n as [? ? ? ? ? ? [] ? ? ? ?].
Qed.

Lemma alone_lookup : same_alone go_handleRendezvousLookup handleRendezvousLookup.
Proof.
  intros r n. unfold go_handleRendezvousLookup, handleRendezvousLookup. destruct (negb _); [done|].
  destruct (String.eqb _ ""); [done|]. go_run. by destruct (run (get _) _).
Qed.

Lemma ws_open_refused text p up s s' e : run (ws_open text p up) s = (s', Err e) → s' = s.
Proof.
  unfold ws_open. rewrite run_bind, run_gets. cbn [fst snd].
  destruct (_ && _); [by intros [= <- _]|]. destruct (negb up); [by intros [= <- _]|].
  repeat first [rewrite run_bind | progress cbn [fst snd]]. done.
Qed.

Lemma alone_ws up : same_alone (go_handleWS app_of closure up) (handleWS app_of closure up).
Proof.
  intros r n. unfold go_handleWS, handleWS. destruct (Decode _) as [p|]; [|done]. go_run.
  destruct (run (ws_open IDString p up) (n_srv n)) as [s [id|[]]] eqn:E; cbn [fst snd].
  - go_run. by destruct (call_relay _ _ _).
  - apply ws_open_refused in E as ->. unfold set_n_relay. by rewrite node_eta.
  - apply ws_open_refused in E as ->. unfold set_n_relay. by rewrite node_eta.
Qed.
End handlers_alone.

(** ** Theorems *)

Section system_theorems.
Context `{M : MultiaddrLib} `{L : PeerLib} `{Mp : Msgpack} `{SN : StreamNet} `{MR : MapRange}
  `{FS0 : FileSystem} `{OS : OSEnv} `{Y : Yaml} `{B : Base58} `{BT : Bolt} `{NL : NetLib} `{C : Crypto}.

Lemma run_serve (app_of : DeliverFunc → peerID) (closure : peerID → DeliverFunc) rand up path r n :
  run (go_serve app_of closure rand up path r) n = serve app_of closure rand up path r n.
Proof.
  unfold go_serve, serve, go_routes, routes.
  repeat (destruct (String.eqb path _);
    [apply alone_authed; auto using alone_health, alone_nodes, alone_peers, alone_networks, alone_config, alone_send,
       alone_generate, alone_accept, alone_register, alone_lookup, alone_ws|]). done.
Qed.
End system_theorems.
