(* ===== verification/SystemSpec.v ===== *)
(** * What holds of the whole node

    Theorems about System.v: each component, inside the node, gets only where it
    gets alone, so its invariants hold whatever interleaves; what reaches the
    sockets; and what handlers that interleave can do to each other. *)

From S2P Require Import Prelude GoTime Prog Compose GoStrings Encoding Multiaddr Files Packet Dedup Router Queue Json Presence Manager Rendezvous RvGossip Config Network Invite Card PeerMemory Ping Server Handlers System.

#[local] Open Scope string_scope.
#[local] Open Scope list_scope.
#[local] Open Scope Z_scope.

(** Proving that a program of the node makes only calls of one part: sections
    of other parts are skipped, the calls are found by [sim]. *)
Create HintDb sim.
Ltac sim_step :=
  match goal with
  | |- sim _ _ (mret _) _ => apply sim_ret
  | |- sim _ _ (Ret _) _ => apply sim_ret
  | |- sim _ _ (match ?x with _ => _ end) _ => destruct x
  | |- sim _ _ (gets _ ≫= _) _ => apply sim_away_bind; [apply all_gets; by intros ?|intros ?]
  | |- sim _ _ (publish _ ≫= _) _ => apply sim_away_bind; [apply all_modify; by intros ?|intros ?]
  | |- sim _ _ (zoom _ _ ≫= _) _ => apply sim_away_bind; [by apply zoom_away; apply _|intros ?]
  | |- sim _ _ (zoom _ _) _ => apply sim_away_all; by apply zoom_away; apply _
  | |- sim _ _ (publish _) _ => apply sim_away_all, all_modify; by intros ?
  | |- sim _ _ (assign_cfg _) _ => apply sim_away_all, all_modify; by intros ?
  | |- sim _ _ (for_each _ _) _ => apply sim_for_each; intros ?
  | |- sim _ _ (ticker_loop _ _) _ => apply sim_ticker
  | |- sim _ _ (readPump ?reads ?q) _ => destruct (readPump_cases reads q) as [-> | ->]
  | |- sim _ _ (read_loop _ _) _ => apply sim_reader; intros ?
  | |- sim _ _ _ _ => solve [eauto 3 with sim]
  | |- sim _ _ (_ ≫= _) _ => apply sim_bind; [|intros ?]
  end.

(** The handlers that call no part with a contract of its own. *)
Ltac unfold_handlers :=
  unfold go_authed, go_handleHealth, go_handleNodes, go_handlePeers, go_handleNetworks, go_handleConfig,
    go_handleSend, go_send, go_handleInviteGenerate, go_handleInviteAccept, go_ApplyInvite,
    go_handleRendezvousRegister, go_handleRendezvousLookup, go_handleWS.

Ltac serve_sim path :=
  unfold go_serve, go_routes;
  repeat (destruct (String.eqb path _); [unfold_handlers; repeat sim_step|]); apply sim_ret.

Section projections.
Context `{M : MultiaddrLib} `{L : PeerLib} `{Mp : Msgpack} `{SN : StreamNet} `{MR : MapRange}
  `{FS0 : FileSystem} `{OS : OSEnv} `{Y : Yaml} `{B : Base58} `{BT : Bolt} `{NL : NetLib} `{C : Crypto}.
Context (me : peerID) (app_of : DeliverFunc → peerID) (closure : peerID → DeliverFunc).

(** *** The relay manager *)

Section relay.
#[local] Abbreviation on_mgr := (sim (view mgr_part) (mgr_call closure)).

Lemma relay_sim {A} (p : prog Manager A) :
  sim (λ m, m) (mgr_call closure) p None → on_mgr (relay app_of p) None.
Proof. intros Hp. apply (sim_weave mgr_part); [|done]. intros ev. apply (zoom_away mgr_part srv_part). Qed.

Lemma relay_call (p : prog Manager unit) : mgr_call closure p → on_mgr (relay app_of p) None.
Proof. intros Hp. by apply relay_sim, sim_self_unit. Qed.

Lemma relay_Route p : on_mgr (relay app_of (Route p)) None.
Proof. apply relay_sim, sim_self_value. constructor. Qed.

Lemma relay_Connected p : on_mgr (relay app_of (AppConnected p (closure p))) None.
Proof. apply relay_call. constructor. Qed.

Lemma pinging_mgr {A} (p : prog PingManager A) : on_mgr (pinging p) None.
Proof.
  apply sim_away_all, (weave_away mgr_part ping_part). intros e. apply (zoom_away mgr_part srv_part).
Qed.

Lemma relay_Disconnected p : on_mgr (relay app_of (AppDisconnected p)) None.
Proof. apply relay_call. constructor. Qed.

Lemma relay_stream b : on_mgr (relay app_of (handleStream b)) None.
Proof. apply relay_call. constructor. Qed.

Lemma relay_reads next : on_mgr (relay app_of (presence_readLoop next)) None.
Proof. apply relay_sim, sim_reader. intros msg. apply sim_self_unit. constructor. Qed.

Lemma relay_ticks body sigs : mgr_call closure body → on_mgr (relay app_of (ticker_loop body sigs)) None.
Proof. intros Hb. by apply relay_sim, sim_ticker, sim_self_unit. Qed.
#[local] Hint Resolve relay_Route relay_Connected pinging_mgr relay_Disconnected relay_stream relay_reads : sim.
#[local] Hint Extern 1 (sim _ _ (relay _ (_ _)) _) => apply relay_ticks; constructor : sim.

Lemma serve_mgr rand up path r : on_mgr (go_serve app_of closure rand up path r) None.
Proof. serve_sim path. Qed.

Lemma calls_mgr P : sys_call me app_of closure P → on_mgr P None.
Proof.
  intros [|Q []|]; unfold go_ws_close, presence_loop, rendezvous_loop, discovery_loop, RendezvousReannounceLoop, go_reannounce,
    with_store;
    repeat first [apply serve_mgr | sim_step].
Qed.
End relay.

(** *** The sockets *)

Section sockets.
#[local] Abbreviation on_srv := (sim (view srv_part) (sv_call IDString)).

Lemma zoom_srv (p : prog Server unit) : sv_call IDString p → on_srv (zoom srv_part p) None.
Proof. intros Hp. unfold zoom. apply (sim_weave srv_part); [intros; constructor|]. by apply sim_self_unit. Qed.

Lemma zoom_srv_sim {A X} (p : prog Server A) (K : A → prog Node X) o :
  sim (λ s, s) (sv_call IDString) p o → (∀ a, on_srv (K a) None) → on_srv (zoom srv_part p ≫= K) o.
Proof. intros Hp HK. unfold zoom. apply (sim_weave_bind srv_part); [intros; constructor|done|done]. Qed.

Lemma zoom_srv_step {A X} (p : prog Server A) (K : A → prog Node X) (g : A → prog Server unit) :
  (∀ a, on_srv (K a) (Some (g a))) → on_srv (zoom srv_part p ≫= K) (Some (p ≫= g)).
Proof. intros HK. unfold zoom. apply (sim_weave_step srv_part); [intros; constructor|done]. Qed.

Lemma callback_srv ev : on_srv (zoom srv_part (relay_event app_of ev)) None.
Proof.
  destruct ev as [d p|via b|m|e]; cbn [relay_event]; [apply zoom_srv; constructor|constructor..|].
  apply zoom_srv. unfold OnAppPeerEvent. destruct (ev_online e); constructor.
Qed.

Lemma relay_srv {A} (p : prog Manager A) : on_srv (relay app_of p) None.
Proof. apply (sim_callbacks srv_part mgr_part), callback_srv. Qed.

Lemma pinging_srv {A} (p : prog PingManager A) : on_srv (pinging p) None.
Proof.
  apply (sim_callbacks srv_part ping_part). intros e. apply zoom_srv. unfold OnNodeEvent.
  destruct (ne_connected e); constructor.
Qed.

Lemma send_srv p ev : on_srv (zoom srv_part (sendToApp p ev)) None.
Proof. apply zoom_srv. constructor. Qed.

Lemma current_srv {X} (K : peerID → prog Node X) : (∀ p, on_srv (K p) None) → on_srv (zoom srv_part currentAppPeer ≫= K) None.
Proof. intros HK. apply zoom_srv_sim; [apply sim_gets|done]. Qed.

Lemma open_srv {X} p up (K : res WSError nat → prog Node X) :
  (∀ o, on_srv (K o) None) → on_srv (zoom srv_part (ws_open IDString p up) ≫= K) None.
Proof. intros HK. apply zoom_srv_sim; [|done]. apply sim_self_value. constructor. Qed.
#[local] Hint Resolve relay_srv pinging_srv send_srv : sim.

Ltac srv_step :=
  match goal with
  | |- sim _ _ (zoom srv_part currentAppPeer ≫= _) _ => apply current_srv; intros ?
  | |- sim _ _ (zoom srv_part (ws_open _ _ _) ≫= _) _ => apply open_srv; intros ?
  | _ => sim_step
  end.

Lemma serve_srv rand up path r : on_srv (go_serve app_of closure rand up path r) None.
Proof.
  unfold go_serve, go_routes.
  repeat (destruct (String.eqb path _); [unfold_handlers; repeat srv_step|]). apply sim_ret.
Qed.

(** The end of a socket is the server's [ws_close], with the relay manager
    told in the middle. *)
Lemma close_srv p id : on_srv (go_ws_close app_of p id) None.
Proof.
  apply (sim_call _ _ _ (ws_close IDString p id)); [constructor|]. unfold go_ws_close, ws_close.
  apply zoom_srv_step. intros _. apply zoom_srv_step. intros _. apply zoom_srv_step. intros [|]; [apply sim_ret|].
  apply zoom_srv_step. intros _. apply sim_any, sim_bind; [apply relay_srv|]. intros _. apply zoom_srv. constructor.
Qed.

Lemma calls_srv P : sys_call me app_of closure P → on_srv P None.
Proof.
  intros [|Q []|]; [apply sim_bind; [apply serve_srv|intros; apply sim_ret]|sim_step; [apply close_srv|apply sim_ret]|..];
    unfold presence_loop, rendezvous_loop, discovery_loop, RendezvousReannounceLoop, go_reannounce, with_store;
    repeat sim_step. apply zoom_srv. constructor.
Qed.
End sockets.

(** *** The rendezvous store *)

(** The relay and the ping manager call nobody but the server. *)
Lemma relay_away {S A} (l : lens Node S) `{!Apart l mgr_part, !Apart l srv_part} (p : prog Manager A) call o :
  sim (view l) call (relay app_of p) o.
Proof. apply sim_away_all, (weave_away l mgr_part). intros ev. apply (zoom_away l srv_part). Qed.

Lemma pinging_away {S A} (l : lens Node S) `{!Apart l ping_part, !Apart l srv_part} (p : prog PingManager A) call o :
  sim (view l) call (pinging p) o.
Proof. apply sim_away_all, (weave_away l ping_part). intros e. apply (zoom_away l srv_part). Qed.

(** A program of the part itself. *)
Lemma zoom_sim {S A} (l : lens Node S) `{!LensLaws l} call (p : prog S A) :
  sim (λ s, s) call p None → sim (view l) call (zoom l p) None.
Proof. intros Hp. apply (sim_weave l); [intros; constructor|done]. Qed.

Section rendezvous.
#[local] Abbreviation on_rv := (sim (view rv_part) rv_call).

Lemma zoom_rv {A} (p : prog rendezvousStore A) : sim (λ s, s) rv_call p None → on_rv (zoom rv_part p) None.
Proof. apply zoom_sim. apply _. Qed.

Lemma put_rv ns rec ttl : on_rv (zoom rv_part (put ns rec ttl)) None.
Proof. apply zoom_rv, sim_self_value. constructor. Qed.

Lemma get_rv ns : on_rv (zoom rv_part (get ns)) None.
Proof. apply zoom_rv, sim_self_value. constructor. Qed.

Lemma on_rendezvous_rv next : on_rv (rendezvous_loop me next) None.
Proof.
  apply zoom_rv, sim_reader. intros msg. apply sim_bind; [apply sim_gets|]. intros now.
  destruct (rendezvous_receive me now msg) as [[[ns rec] ttl]|]; [|apply sim_ret]. apply sim_self_unit. constructor.
Qed.

Lemma reannounce_rv g : on_rv (zoom rv_part (reannounce g)) None.
Proof.
  apply zoom_rv. destruct g; [|apply sim_ret]. apply sim_bind; [|intros; apply sim_ret].
  apply sim_self_value. constructor.
Qed.

Lemma janitor_rv sigs : on_rv (zoom rv_part (ticker_loop janitor sigs)) None.
Proof. apply zoom_rv, sim_ticker, sim_self_unit. constructor. Qed.

Lemma relay_rv {A} (p : prog Manager A) : on_rv (relay app_of p) None.
Proof. apply (relay_away rv_part). Qed.
Lemma pinging_rv {A} (p : prog PingManager A) : on_rv (pinging p) None.
Proof. apply (pinging_away rv_part). Qed.
#[local] Hint Resolve put_rv get_rv on_rendezvous_rv reannounce_rv janitor_rv relay_rv pinging_rv : sim.

Lemma serve_rv rand up path r : on_rv (go_serve app_of closure rand up path r) None.
Proof. serve_sim path. Qed.

Lemma calls_rv P : sys_call me app_of closure P → on_rv P None.
Proof.
  intros [|Q []|]; [apply sim_bind; [apply serve_rv|intros; apply sim_ret]|..];
    unfold go_ws_close, presence_loop, rendezvous_loop, discovery_loop, RendezvousReannounceLoop, go_reannounce,
      with_store; repeat sim_step.
Qed.
End rendezvous.

(** *** The card store *)

Section cards.
#[local] Abbreviation on_net := (sim (view net_part) (card_call me)).

Lemma zoom_net {A} (p : prog NetStore A) : card_call me (_ ← p; mret tt) → on_net (zoom net_part p) None.
Proof. intros Hp. by apply zoom_sim, sim_self_value; [apply _|]. Qed.

Lemma zoom_net_unit (p : prog NetStore unit) : card_call me p → on_net (zoom net_part p) None.
Proof. intros Hp. by apply zoom_sim, sim_self_unit; [apply _|]. Qed.

Lemma list_net : on_net (zoom net_part store_List) None.
Proof. apply zoom_net. constructor. Qed.
Lemma receive_net next : on_net (zoom net_part (read_loop (λ msg, _ ← discovery_receive me msg; mret tt) next)) None.
Proof. apply zoom_sim, sim_reader; [apply _|]. intros msg. apply sim_self_unit. constructor. Qed.
Lemma fetch_net url answer : on_net (zoom net_part (_ ← FetchDirectory url answer; mret tt)) None.
Proof. apply zoom_net_unit. constructor. Qed.
Lemma relay_net {A} (p : prog Manager A) : on_net (relay app_of p) None.
Proof. apply (relay_away net_part). Qed.
Lemma pinging_net {A} (p : prog PingManager A) : on_net (pinging p) None.
Proof. apply (pinging_away net_part). Qed.
#[local] Hint Resolve list_net receive_net fetch_net relay_net pinging_net : sim.

Lemma serve_net rand up path r : on_net (go_serve app_of closure rand up path r) None.
Proof. serve_sim path. Qed.

Lemma calls_net P : sys_call me app_of closure P → on_net P None.
Proof.
  intros [|Q []|]; [apply sim_bind; [apply serve_net|intros; apply sim_ret]|..];
    unfold go_ws_close, presence_loop, rendezvous_loop, discovery_loop, RendezvousReannounceLoop, go_reannounce,
      with_store; repeat sim_step.
Qed.
End cards.
End projections.

(** ** Theorems *)

Section system_spec.
Context `{M : MultiaddrLib} `{L : PeerLib} `{Mp : Msgpack} `{SN : StreamNet} `{MR : MapRange}
  `{FS0 : FileSystem} `{OS : OSEnv} `{Y : Yaml} `{B : Base58} `{BT : Bolt} `{NL : NetLib} `{C : Crypto}.

(** The configurations a node can get into from [n0]. *)
Definition sys_reachable (me : peerID) (app_of : DeliverFunc → peerID) (closure : peerID → DeliverFunc)
    (n0 : Node) (c : config) : Prop :=
  rtc (cstep sys_env (sys_call me app_of closure)) (n0, []) c.

(** What each part does inside the node, it can do alone. *)
Section one_run.
Context (me : peerID) (app_of : DeliverFunc → peerID) (closure : peerID → DeliverFunc) (n0 n : Node) (ts : list (prog Node unit)).
Context (Hr : sys_reachable me app_of closure n0 (n, ts)).

Lemma project_mgr : ∃ ts, rtc (cstep mgr_env (mgr_call closure)) (n_mgr n0, []) (n_mgr n, ts).
Proof.
  apply (cstep_project (view mgr_part) sys_env (sys_call me app_of closure) mgr_env (mgr_call closure))
    with (t0 := n0) (Ts := ts); [|apply calls_mgr|done|exact Hr].
  intros t t' []; [by right|by left..].
Qed.

Lemma project_srv : ∃ ts, rtc (cstep sv_env (sv_call IDString)) (n_srv n0, []) (n_srv n, ts).
Proof.
  apply (cstep_project (view srv_part) sys_env (sys_call me app_of closure) sv_env (sv_call IDString))
    with (t0 := n0) (Ts := ts); [|apply calls_srv|done|exact Hr].
  intros t t' []; [by left|by right|by left..].
Qed.

Lemma project_rv : ∃ ts, rv_reachable (n_rv n0) (n_rv n, ts).
Proof.
  apply (cstep_project (view rv_part) sys_env (sys_call me app_of closure) rv_env rv_call)
    with (t0 := n0) (Ts := ts); [|apply calls_rv|done|exact Hr].
  intros t t' []; [by left|by left|by right|by left].
Qed.

Lemma project_net :
  ∃ ts, rtc (cstep (λ _ _, False) (card_call me)) (view net_part n0, []) (view net_part n, ts).
Proof.
  apply (cstep_project (view net_part) sys_env (sys_call me app_of closure) (λ _ _, False) (card_call me))
    with (t0 := n0) (Ts := ts); [|apply calls_net|done|exact Hr].
  intros t t' []; by left.
Qed.
End one_run.


(** A node as [run] sets it up. *)
Record fresh_node (me : peerID) (n : Node) : Prop := {
  fresh_mgr : ∃ t, n_mgr n = NewManager me true t;
  fresh_srv : ∃ max, n_srv n = NewServer max (IDString me);
  fresh_rv : (size (entries (n_rv n)) <= rendezvousMaxEntries)%nat;
  fresh_net st : n_networks n = Some st → store_ok st
}.

(** C6. All invariants hold at once: in every configuration a fresh node can get
    into, whatever interleaves, packets were dispatched only to the closure of
    their recipient and never to the node itself, the manager's tables agree
    with each other and hold no more than they may, no goroutine has used a
    closed channel and each socket's queue is in order and within its bound, the
    rendezvous store is within its limit, and every card in the card store
    was verified. *)
Theorem node_safe `{!PeerLaws L} (me : peerID) (app_of : DeliverFunc → peerID) (closure : peerID → DeliverFunc)
    (n0 n : Node) (ts : list (prog Node unit))
    (Hfresh : fresh_node me n0) (Hr : sys_reachable me app_of closure n0 (n, ts)) :
  mgr_wf closure me (n_mgr n) ∧ server_ok (n_srv n) ∧
  (size (entries (n_rv n)) <= rendezvousMaxEntries)%nat ∧
  (∀ st, n_networks n = Some st → store_ok st).
Proof.
  destruct Hfresh as [[t Hm] [max Hs] Hrv Hnet]. split_and!.
  - destruct (project_mgr _ _ _ _ _ _ Hr) as [us Hus]. rewrite Hm in Hus. by apply reachable_wf in Hus.
  - destruct (project_srv _ _ _ _ _ _ Hr) as [us Hus]. rewrite Hs in Hus.
    apply (sv_reachable_ok _ _ _) in Hus; [done|apply NewServer_books].
  - destruct (project_rv _ _ _ _ _ _ Hr) as [us Hus]. by apply rv_reachable_bounded in Hus.
  - destruct (project_net _ _ _ _ _ _ Hr) as [us Hus]. intros st Hst.
    assert (Hok : store_ok (view net_part n)).
    { apply (reachable_invariant (λ _ _, False) (card_call me) store_ok _ _ (λ _ _ HF, match HF with end) (card_call_stable me) Hus);
        [|constructor]. cbn. destruct (n_networks n0) as [st0|]; [by apply Hnet|apply map_Forall_empty]. }
    cbn in Hok. by rewrite Hst in Hok.
Qed.
End system_spec.

(** ** Concrete nodes *)

Module Fresh.
#[local] Existing Instances plain_multiaddr plain_peers plain_msgpack all_written reliable plain_yaml plain_base58
  working plain_net LateSnapshot.never_fails plain_crypto.

(** Closures known by the code of their app. *)
Definition closure (p : peerID) : DeliverFunc := Pos.to_nat (encode p).
Definition app_of (d : DeliverFunc) : peerID := default "" (decode (Pos.of_nat d)).

Lemma app_of_closure p : app_of (closure p) = p.
Proof. unfold app_of, closure. rewrite Pos2Nat.id, decode_encode. done. Qed.

Definition node (cfg : Config) (fs : FS) : Node :=
  mkNode _ cfg "config.yaml" fs (NewManager "a" true 0) (NewServer 5000 "a") (mkStore ∅ "" ∅ 0 0)
    (Some []) (Some (mkNetStore ∅ 0)) (mkPing ∅ [] []) ["/dns4/a"] 0.
Definition public : Node := node Default (mkFS ∅ 0).

Lemma node_fresh cfg fs : fresh_node "a" (node cfg fs).
Proof. split; [by eexists|by eexists|cbn; rewrite map_size_empty; unfold rendezvousMaxEntries; lia|intros st [= <-]; apply map_Forall_empty]. Qed.

(** Requests of apps and operators of this machine. *)
Definition connect (p : string) : prog Node unit :=
  _ ← go_serve app_of closure None true "/ws" (Sample.request "GET" "127.0.0.1" "peer_id" p None); mret tt.
Definition send_body (from to : string) : json :=
  JObj [("sender_peer_id", JStr from); ("recipient_peer_id", JStr to);
        ("payload", JStr (base64_EncodeToString "hello")); ("packet_id", JStr "00000000000000000000000000000000")].
Definition send (from to : string) : prog Node unit :=
  _ ← go_serve app_of closure None true "/send" (Sample.local "POST" (Some (send_body from to))); mret tt.

(** The goroutines started on a node, and a schedule. *)
Definition goes (ps : list (prog Node unit)) (order : list nat) (n : Node) : config := sched order (n, ps).

Lemma goes_reachable ps order n :
  Forall (sys_call "a" app_of closure) ps → sys_reachable "a" app_of closure n (goes ps order n).
Proof. intros Hps. unfold sys_reachable, goes. etrans; [apply (go_all _ _ _ [] ps Hps)|apply sched_reachable]. Qed.

(** An app connects while a packet for it is sent: the send finds the app
    registered. *)
Definition served : config := goes [connect "b"; send "c" "b"] (replicate 9 0 ++ replicate 12 1 ++ replicate 12 0)%nat public.
End Fresh.

Section witnesses.
Import Fresh.
#[local] Existing Instances plain_multiaddr plain_peers plain_msgpack all_written reliable plain_yaml plain_base58
  working plain_net LateSnapshot.never_fails plain_crypto.

Lemma served_reachable : sys_reachable "a" app_of closure public (served.1, served.2).
Proof. rewrite <- surjective_pairing. apply goes_reachable. repeat constructor. Qed.


Lemma node_safe_witness : mgr_wf closure "a" (n_mgr served.1) ∧ server_ok (n_srv served.1).
Proof.
  destruct (node_safe "a" app_of closure public served.1 served.2 (node_fresh _ _) served_reachable) as (Hm & Hs & _).
  split; [exact Hm|exact Hs].
Defined.
End witnesses.
