(* ===== verification/Delivery.v ===== *)
(** * What reaches the sockets of a node

    The events the server offers to its sockets, in the whole node of System.v:
    a packet event on a socket comes from a packet that the relay manager
    dispatched to the app of that socket, whatever interleaves. *)

From S2P Require Import Prelude GoTime Prog Compose GoStrings Encoding Multiaddr Files Packet Dedup Router Queue Json Presence Manager Rendezvous RvGossip Config Network Invite Card PeerMemory Ping Server Handlers System SystemSpec.

#[local] Open Scope string_scope.
#[local] Open Scope list_scope.
#[local] Open Scope Z_scope.

(** The events of [events.go] other than packets. *)
Inductive notice : json → Prop :=
| notice_online p v : notice (peerOnlineEvent p v)
| notice_offline p : notice (peerOfflineEvent p)
| notice_connected p rtt : notice (nodeConnectedEvent p rtt)
| notice_disconnected p : notice (nodeDisconnectedEvent p)
| notice_error code msg : notice (errorEvent code msg).

(** ** The server: which events its sections offer, and to whom *)

Section server.
Context `{MR : MapRange}.

Definition numbered (s : Server) : Prop := ∀ id, is_Some (objs s !! id) → (id < nextClient s)%nat.

(** From [s] to [s'], no client is lost or changes its app, and what a client is
    offered that it was not offered before satisfies [Q]. *)
Record offers (Q : peerID → json → Prop) (s s' : Server) : Prop := {
  off_kept id c : objs s !! id = Some c → ∃ c', objs s' !! id = Some c' ∧ wc_appPeer c' = wc_appPeer c;
  off_new id c' ev : objs s' !! id = Some c' → ev ∈ wc_offered c' →
    (∃ c, objs s !! id = Some c ∧ wc_appPeer c = wc_appPeer c' ∧ ev ∈ wc_offered c) ∨ Q (wc_appPeer c') ev;
  off_numbered : numbered s'
}.

Lemma offers_same Q s s' : objs s' = objs s → nextClient s' = nextClient s → numbered s → offers Q s s'.
Proof. intros Ho Hn Hnum. split; [rewrite Ho; eauto|rewrite Ho; eauto|]. intros id. rewrite Ho, Hn. apply Hnum. Qed.

Lemma offers_trans Q s1 s2 s3 : offers Q s1 s2 → offers Q s2 s3 → offers Q s1 s3.
Proof.
  intros [Hk Hn _] [Hk' Hn' Hnum]. split; [| |done].
  - intros id c Hc. destruct (Hk id c Hc) as (c2 & Hc2 & Hp). destruct (Hk' id c2 Hc2) as (c3 & ? & ?).
    exists c3. split; [done|congruence].
  - intros id c3 ev Hc3 Hev. destruct (Hn' id c3 ev Hc3 Hev) as [(c2 & Hc2 & Hp & Hev2)|?]; [|by right].
    rewrite <- Hp. destruct (Hn id c2 ev Hc2 Hev2) as [(c & ? & ? & ?)|?]; [|by right].
    left. exists c. split_and!; [done|congruence|done].
Qed.

(** A method of one client object. *)
Lemma offers_on_client Q f id s :
  numbered s →
  (∀ c c', objs s !! id = Some c → f c = Some c' →
     wc_appPeer c' = wc_appPeer c ∧ ∀ ev, ev ∈ wc_offered c' → ev ∈ wc_offered c ∨ Q (wc_appPeer c) ev) →
  offers Q s (on_client f id s).
Proof.
  intros Hnum Hf. unfold on_client. destruct (objs s !! id) as [c|] eqn:E; [|by apply offers_same].
  destruct (f c) as [c'|] eqn:Ef; [|by apply offers_same]. destruct (Hf c c' eq_refl Ef) as [Hp Hev].
  split; cbn [objs set_objs nextClient].
  - intros i c0 Hi. rewrite lookup_insert. case_decide as Hd; [|by exists c0]. subst i.
    exists c'. split; [done|congruence].
  - intros i c0 ev. rewrite lookup_insert. case_decide as Hd; [|eauto]. intros [= <-] Hin. subst i.
    rewrite Hp. destruct (Hev ev Hin); [left; by exists c|by right].
  - intros i. cbn. rewrite lookup_insert. case_decide; [|apply Hnum]. subst i. intros _. apply Hnum. by eexists.
Qed.

Lemma wc_trySend_offered b c c' :
  wc_trySend b c = Some c' → wc_appPeer c' = wc_appPeer c ∧ ∀ ev, ev ∈ wc_offered c' → ev ∈ wc_offered c ∨ ev = b.
Proof.
  unfold wc_trySend. destruct (wc_closed c); [intros [= <-]; auto|]. destruct (chan_trySend _ _); [|done].
  intros [= <-]. split; [done|]. cbn. intros ev [?| ->%list_elem_of_singleton]%elem_of_app; auto.
Qed.

Lemma wc_close_offered c c' : wc_close c = Some c' → wc_appPeer c' = wc_appPeer c ∧ wc_offered c' = wc_offered c.
Proof.
  unfold wc_close. destruct (wc_closed c); [intros [= <-]; auto|]. destruct (chan_close _); [|done]. by intros [= <-].
Qed.

Lemma pumps_offered ok c :
  (wc_appPeer (writePump ok c) = wc_appPeer c ∧ wc_offered (writePump ok c) = wc_offered c) ∧
  (wc_appPeer (pingPump ok c) = wc_appPeer c ∧ wc_offered (pingPump ok c) = wc_offered c).
Proof.
  split.
  - unfold writePump. destruct (negb _); [done|]. destruct (chan_buf _); [by destruct (chan_closed _)|by destruct ok].
  - unfold pingPump. by destruct (_ || _).
Qed.

Lemma offers_close Q id s : numbered s → offers Q s (on_client wc_close id s).
Proof.
  intros Hnum. apply offers_on_client; [done|]. intros c c' _ Hc. apply wc_close_offered in Hc as [Hp Ho].
  split; [done|]. rewrite Ho. auto.
Qed.

Lemma offers_env Q s s' : numbered s → sv_env s s' → offers Q s s'.
Proof.
  intros Hnum Henv. destruct Henv as [s id ok|s id ok]; (apply offers_on_client; [done|]); intros c c' _ [= <-];
    destruct (pumps_offered ok c) as [[Hp Ho] [Hp' Ho']].
  - split; [done|]. rewrite Ho. auto.
  - split; [done|]. rewrite Ho'. auto.
Qed.

(** The sections that offer nothing but notices. *)
Definition notifies (f : Server → Server) : Prop := ∀ s, numbered s → offers (λ _, notice) s (f s).

#[local] Abbreviation quiet := (all_sections notifies).

Lemma quiet_gets {A} (g : Server → A) : quiet (gets g).
Proof. apply all_gets. intros s Hs. by apply offers_same. Qed.

Lemma quiet_trySend b id : notice b → quiet (trySend b id).
Proof.
  intros Hb. apply all_modify. intros s Hs. apply offers_on_client; [done|]. intros c c' _ Hc.
  apply wc_trySend_offered in Hc as [Hp Hev]. split; [done|]. intros ev Hin. destruct (Hev ev Hin) as [?| ->]; auto.
Qed.

Lemma quiet_broadcast ev : notice ev → quiet (broadcast ev).
Proof. intros Hev. apply all_bind; [apply quiet_gets|]. intros ids. apply all_for_each. intros. by apply quiet_trySend. Qed.

Lemma quiet_sendToApp p ev : notice ev → quiet (sendToApp p ev).
Proof. intros Hev. apply all_bind; [apply quiet_gets|]. intros ids. apply all_for_each. intros. by apply quiet_trySend. Qed.

Lemma quiet_addClient p : quiet (addClient p).
Proof.
  apply all_atomic. intros s Hs. split; cbn.
  - intros id c Hc. rewrite lookup_insert. case_decide as Hd; [|by exists c]. subst id.
    assert (nextClient s < nextClient s)%nat by (apply Hs; by eexists). lia.
  - intros id c' ev. rewrite lookup_insert. case_decide; [by intros [= <-] ?%not_elem_of_nil|eauto].
  - intros id. cbn. rewrite lookup_insert. case_decide; [lia|]. intros Hid. specialize (Hs id Hid). lia.
Qed.

Lemma quiet_same f : (∀ s, objs (f s) = objs s ∧ nextClient (f s) = nextClient s) → quiet (modify f).
Proof. intros Hf. apply all_modify. intros s Hs. by apply offers_same; [apply Hf..|]. Qed.

Lemma quiet_close id : quiet (close id).
Proof. apply all_modify. intros s Hs. by apply offers_close. Qed.

Lemma quiet_Shutdown : quiet Shutdown.
Proof.
  apply all_modify. intros s Hs.
  assert (Hfold : ∀ ids s, numbered s → offers (λ _, notice) s (foldl (λ s id, on_client wc_close id s) s ids)).
  { clear s Hs. induction ids as [|id ids IH]; intros s Hs; [by apply offers_same|]. cbn [foldl].
    pose proof (offers_close (λ _, notice) id s Hs) as Hc. eapply offers_trans; [exact Hc|]. apply IH, Hc. }
  eapply offers_trans; [by apply Hfold|]. apply offers_same; [done|done|]. by eapply off_numbered, Hfold.
Qed.

Lemma quiet_ws_open text p up : quiet (ws_open text p up).
Proof.
  apply all_bind; [apply quiet_gets|intros []]; [apply all_ret|]. destruct (negb up); [apply all_ret|].
  apply all_bind; [apply quiet_addClient|intros id]. apply all_bind; [apply quiet_gets|intros me].
  apply all_bind; [apply quiet_broadcast; constructor|intros []].
  apply all_bind; [by apply quiet_same|intros []]. apply all_ret.
Qed.
End server.

(** ** The node *)

Section node.
Context `{M : MultiaddrLib} `{L : PeerLib} `{Mp : Msgpack} `{SN : StreamNet} `{MR : MapRange}
  `{FS0 : FileSystem} `{OS : OSEnv} `{Y : Yaml} `{B : Base58} `{BT : Bolt} `{NL : NetLib} `{C : Crypto}.
Context (me : peerID) (app_of : DeliverFunc → peerID) (closure : peerID → DeliverFunc).

(** An event that a socket of [p] may be offered: a notice, or a packet that was
    dispatched to a closure of [p]. *)
Definition justified (m : Manager) (p : peerID) (ev : json) : Prop :=
  notice ev ∨ ∃ d pk, EvDeliver d pk ∈ trace m ∧ app_of d = p ∧ ev = deliver_event pk.

Record events_ok (n : Node) : Prop := {
  eo_numbered : numbered (n_srv n);
  eo_justified id c ev : objs (n_srv n) !! id = Some c → ev ∈ wc_offered c → justified (n_mgr n) (wc_appPeer c) ev
}.

(** What lasts: dispatched packets stay dispatched, clients keep their app. *)
Record after (n n' : Node) : Prop := {
  aft_trace : ∃ evs, trace (n_mgr n') = trace (n_mgr n) ++ evs;
  aft_client id c : objs (n_srv n) !! id = Some c → ∃ c', objs (n_srv n') !! id = Some c' ∧ wc_appPeer c' = wc_appPeer c
}.

#[export] Instance after_preorder : PreOrder after.
Proof.
  split.
  - intros n. split; [exists []; by rewrite app_nil_r|eauto].
  - intros n1 n2 n3 [[e Ht] Hc] [[e' Ht'] Hc']. split; [exists (e ++ e'); by rewrite Ht', Ht, (assoc_L app)|].
    intros id c Hid. destruct (Hc id c Hid) as (c2 & Hc2 & ?). destruct (Hc' id c2 Hc2) as (c3 & ? & ?).
    exists c3. split; [done|congruence].
Qed.

Lemma justified_grows m m' p ev evs : trace m' = trace m ++ evs → justified m p ev → justified m' p ev.
Proof.
  intros Ht [?|(d & pk & Hd & ? & ?)]; [by left|]. right. exists d, pk. split_and!; [|done|done].
  rewrite Ht. apply elem_of_app. by left.
Qed.

Lemma server_section n s :
  events_ok n → offers (justified (n_mgr n)) (n_srv n) s →
  events_ok (set_n_relay (n_mgr n) s n) ∧ after n (set_n_relay (n_mgr n) s n).
Proof.
  intros [Hnum Hj] [Hk Hn Hnum']. split; split; cbn; [done| |exists []; by rewrite app_nil_r|exact Hk].
  intros id c ev Hc Hev. destruct (Hn id c ev Hc Hev) as [(c0 & Hc0 & <- & Hev0)|?]; [by eapply Hj|done].
Qed.

Lemma manager_section n m evs :
  events_ok n → trace m = trace (n_mgr n) ++ evs →
  events_ok (set_n_relay m (n_srv n) n) ∧ after n (set_n_relay m (n_srv n) n).
Proof.
  intros [Hnum Hj] Ht. split; split; cbn; [done| |by exists evs|eauto].
  intros id c ev Hc Hev. eapply justified_grows; [exact Ht|]. by eapply Hj.
Qed.

#[local] Abbreviation keeps := (keeps_on events_ok after).
#[local] Abbreviation from := (Compose.from events_ok after).

Lemma node_bind {A X} n0 (p : prog Node A) (K : A → prog Node X) :
  from n0 p → (∀ a n, after n0 n → from n (K a)) → from n0 (p ≫= K).
Proof. exact (Compose.from_bind events_ok after n0 p K). Qed.

Lemma node_for_each {X} n0 (l : list X) (body : X → prog Node unit) :
  (∀ x n, x ∈ l → after n0 n → from n (body x)) → from n0 (for_each l body).
Proof. exact (Compose.from_for_each events_ok after n0 l body). Qed.

Lemma node_ticker n0 (body : prog Node unit) sigs : (∀ n, from n body) → from n0 (ticker_loop body sigs).
Proof.
  intros Hb. revert n0. induction sigs as [|[] sigs IH]; intros n0; [constructor| |constructor].
  apply node_bind; [apply Hb|intros; apply IH].
Qed.

Lemma node_gets {X} n0 (g : Node → X) : from n0 (gets g).
Proof. exact (Compose.from_gets events_ok after n0 g). Qed.

Lemma other_section f : (∀ n, n_mgr (f n) = n_mgr n ∧ n_srv (f n) = n_srv n) → keeps f.
Proof.
  intros Hf n [Hnum Hj]. destruct (Hf n) as [Hm Hs]. split; split; rewrite ?Hm, ?Hs; [done|done| |eauto].
  exists []. by rewrite app_nil_r.
Qed.

Lemma from_other {S A} (l : lens Node S) `{!Apart mgr_part l, !Apart srv_part l} n0 (p : prog S A) : from n0 (zoom l p).
Proof.
  apply from_all. unfold zoom. induction p as [a|f k IH]; [constructor|].
  constructor; [|intros t; apply IH]. apply other_section. intros n.
  split; [apply (view_other (l := mgr_part))|apply (view_other (l := srv_part))].
Qed.

(** The server's own sections. *)
Lemma from_server {A} n0 (p : prog Server A) : all_sections notifies p → from n0 (zoom srv_part p).
Proof.
  intros Hp. apply from_all. unfold zoom. induction Hp as [a|f k Hf _ IH]; [constructor|].
  constructor; [|intros n; apply IH]. intros n Hn. apply server_section; [done|].
  destruct (Hf (n_srv n) (eo_numbered _ Hn)) as [Hk Hnew Hnum]. split; [done| |done].
  intros id c' ev Hc' Hev. destruct (Hnew id c' ev Hc' Hev); [by left|right; by left].
Qed.

(** Offering a dispatched packet to a client known to be of its app. *)
Lemma offer_section d pk id n1 n :
  EvDeliver d pk ∈ trace (n_mgr n1) → client_of (n_srv n1) (app_of d) id = true → after n1 n → events_ok n →
  let n' := set_n_relay (n_mgr n) (on_client (wc_trySend (deliver_event pk)) id (n_srv n)) n in
  events_ok n' ∧ after n n'.
Proof.
  intros Hd Hid [[evs Ht] Hcl] Hok. apply server_section; [done|]. apply offers_on_client; [apply Hok|].
  intros c c' Hc Hs. apply wc_trySend_offered in Hs as [Hp Hev]. split; [done|].
  intros ev Hi. destruct (Hev ev Hi) as [?| ->]; [by left|]. right. right. exists d, pk.
  split_and!; [rewrite Ht; apply elem_of_app; by left| |done].
  apply client_of_true in Hid as (c1 & Hc1 & Hp1). destruct (Hcl id c1 Hc1) as (c2 & Hc2 & Hp2). congruence.
Qed.

Lemma from_offers d pk ids n1 n2 :
  EvDeliver d pk ∈ trace (n_mgr n1) → (∀ id, id ∈ ids → client_of (n_srv n1) (app_of d) id = true) → after n1 n2 →
  from n2 (zoom srv_part (for_each ids (trySend (deliver_event pk)))).
Proof.
  intros Hd. revert n2. induction ids as [|id ids IH]; intros n2 Hin H12; [constructor|].
  assert (Hsec : ∀ n, after n2 n → events_ok n →
    let n' := set_n_relay (n_mgr n) (on_client (wc_trySend (deliver_event pk)) id (n_srv n)) n in
    events_ok n' ∧ after n n').
  { intros n Hn. apply (offer_section d pk id n1); [done|apply Hin; by left|by etrans]. }
  apply from_Step; [intros n Hn Hok; by apply Hsec|intros n Hn Hok; by apply Hsec|].
  intros n Hn Hok. apply IH; [intros i Hi; apply Hin; by right|].
  etrans; [exact H12|]. etrans; [exact Hn|]. by apply Hsec.
Qed.

(** A closure of an app, called for a packet that was dispatched to it. *)
Lemma from_deliver n0 d pk :
  EvDeliver d pk ∈ trace (n_mgr n0) → from n0 (zoom srv_part (sendToApp (app_of d) (deliver_event pk))).
Proof.
  intros Hd. assert (Hid : ∀ n, set_n_relay (n_mgr n) (n_srv n) n = n) by (intros n; by destruct n).
  apply from_Step; cbn; [intros n _; by rewrite Hid|intros n _ _; by rewrite Hid|]. intros n1 [[evs Ht] _] Hn1.
  rewrite Hid. apply (from_offers d pk _ n1); [rewrite Ht; apply elem_of_app; by left| |done].
  by intros id [? _]%list_elem_of_filter.
Qed.

(** A call of the relay manager. *)
Lemma from_callback n0 ev : ev ∈ trace (n_mgr n0) → from n0 (zoom srv_part (relay_event app_of ev)).
Proof.
  destruct ev as [d p|via b|m|e]; cbn [relay_event]; intros Hev; [by apply from_deliver|constructor..|].
  apply from_server. unfold OnAppPeerEvent. destruct (ev_online e); apply quiet_broadcast; constructor.
Qed.

Lemma from_relay {A} n0 (p : prog Manager A) : all_sections (appends trace) p → from n0 (relay app_of p).
Proof.
  intros Hp. revert n0. induction Hp as [a|f k Hf _ IH]; intros n0; [constructor|].
  apply from_Step.
  - intros n _ Hn. destruct (Hf (n_mgr n)) as [evs He]. by eapply manager_section.
  - intros n _ Hn. destruct (Hf (n_mgr n)) as [evs He]. by eapply manager_section.
  - intros n _ _. apply node_bind; [|intros _ ? _; apply IH].
    apply node_for_each. intros ev s Hev [[evs Ht] _]. apply from_callback. rewrite Ht. apply elem_of_app. left.
    cbn [n_mgr put_in mgr_part set_n_relay view] in *. unfold news in Hev.
    rewrite <- (take_drop (length (trace (n_mgr n))) (trace (f _))). apply elem_of_app. by right.
Qed.

(** A call of the ping manager. *)
Lemma from_pinging {A} n0 (p : prog PingManager A) : from n0 (pinging p).
Proof.
  revert n0. induction p as [a|f k IH]; intros n0; [constructor|].
  assert (Ho : keeps (λ n, set_n_ping (f (n_ping n)) n)) by (apply other_section; by intros).
  apply from_Step; [intros n _ Hn; by apply Ho|intros n _ Hn; by apply Ho|].
  intros n _ _. apply node_bind; [|intros _ ? _; apply IH].
  apply node_for_each. intros e s _ _. apply from_server. unfold OnNodeEvent.
  destruct (ne_connected e); apply quiet_broadcast; constructor.
Qed.

(** The sections of the handlers. *)
Ltac node_step :=
  match goal with
  | |- Compose.from _ _ _ (mret _) => apply from_Ret
  | |- Compose.from _ _ _ (Ret _) => apply from_Ret
  | |- Compose.from _ _ _ (match ?x with _ => _ end) => destruct x
  | |- Compose.from _ _ _ (gets _) => apply node_gets
  | |- Compose.from _ _ _ (publish _) => apply from_all, all_modify, other_section; by intros
  | |- Compose.from _ _ _ (assign_cfg _) => apply from_all, all_modify, other_section; by intros
  | |- Compose.from _ _ _ (zoom srv_part _) =>
      apply from_server; first [apply quiet_gets | apply quiet_ws_open | apply quiet_close | apply quiet_Shutdown
        | apply quiet_broadcast; constructor | apply quiet_sendToApp; constructor | by apply quiet_same]
  | |- Compose.from _ _ _ (zoom _ _) => apply from_other; apply _
  | |- Compose.from _ _ _ (relay _ _) => apply from_relay; by auto with sections
  | |- Compose.from _ _ _ (pinging _) => apply from_pinging
  | |- Compose.from _ _ _ (for_each _ _) => apply node_for_each; intros ? ? _ _
  | |- Compose.from _ _ _ (readPump ?reads ?q) => destruct (readPump_cases reads q) as [-> | ->]
  | |- Compose.from _ _ _ (ticker_loop _ _) => apply node_ticker; intros ?
  | |- Compose.from _ _ _ (_ ≫= _) => apply node_bind; [|intros ? ? _]
  end.

Lemma from_serve n0 rand up path r : from n0 (go_serve app_of closure rand up path r).
Proof.
  unfold go_serve, go_routes.
  repeat (destruct (String.eqb path _); [unfold_handlers; repeat node_step|]). apply from_Ret.
Qed.

Lemma from_call n0 P : sys_call me app_of closure P → from n0 P.
Proof.
  intros [|Q []|]; [apply node_bind; [apply from_serve|intros; apply from_Ret]|..];
    unfold go_ws_close, presence_loop, rendezvous_loop, discovery_loop, RendezvousReannounceLoop, go_reannounce,
      with_store; repeat node_step.
Qed.

Lemma from_env n n' : sys_env n n' → events_ok n → events_ok n' ∧ after n n'.
Proof.
  intros [n0 m He|n0 s He|n0 rs _|n0 p _] Hn.
  - assert (Ht : ∃ evs, trace m = trace (n_mgr n0) ++ evs).
    { destruct He; cbn; eauto using app_nil_r; try (exists []; by rewrite app_nil_r). }
    destruct Ht as [evs Ht]. by eapply manager_section.
  - apply server_section; [done|]. apply offers_env; [apply Hn|done].
  - by apply (other_section (set_n_rv rs (n_published n0))).
  - by apply (other_section (set_n_ping p)).
Qed.
End node.

(** ** Theorems *)

Section delivery.
Context `{M : MultiaddrLib} `{L : PeerLib} `{Mp : Msgpack} `{SN : StreamNet} `{MR : MapRange}
  `{FS0 : FileSystem} `{OS : OSEnv} `{Y : Yaml} `{B : Base58} `{BT : Bolt} `{NL : NetLib} `{C : Crypto}.

(** Every event of a socket is justified. *)
Lemma own_packets `{!PeerLaws L} (me : peerID) (app_of : DeliverFunc → peerID) (closure : peerID → DeliverFunc)
    (n0 n : Node) (ts : list (prog Node unit)) (id : nat) (c : wsClient) (ev : json)
    (Hclosure : ∀ p, app_of (closure p) = p) (Hfresh : fresh_node me n0)
    (Hr : sys_reachable me app_of closure n0 (n, ts))
    (Hc : objs (n_srv n) !! id = Some c)
    (Hev : ev ∈ wc_written c ∨ ev ∈ chan_buf (wc_send c) ∨ ev ∈ wc_offered c) :
  notice ev ∨
  ∃ pk, EvDeliver (closure (wc_appPeer c)) pk ∈ trace (n_mgr n) ∧ RecipientID pk = wc_appPeer c ∧ ev = deliver_event pk.
Proof.
  pose proof Hfresh as [[t Hm] [max Hs] _ _].
  assert (Hok : events_ok app_of n).
  { apply (reachable_from (events_ok app_of) after sys_env (sys_call me app_of closure) n0 n ts);
      [apply from_env|apply (λ P n, from_call me app_of closure n P)| |exact Hr].
    split; rewrite Hs; [by intros ? [? ?]|done]. }
  destruct (project_mgr _ _ _ _ _ _ Hr) as [us Hus]. rewrite Hm in Hus. apply reachable_wf in Hus.
  destruct (project_srv _ _ _ _ _ _ Hr) as [vs Hvs]. rewrite Hs in Hvs.
  apply (sv_reachable_ok _ _ _) in Hvs as Hsrv; [|apply NewServer_books].
  assert (Hoff : ev ∈ wc_offered c).
  { destruct (ok_objs _ Hsrv id c Hc) as [[_ _ Hsub] _]. destruct Hev as [?|[?|?]]; [| |done];
      (eapply elem_of_sublist; [|exact Hsub]); apply elem_of_app; auto. }
  destruct (eo_justified _ _ Hok id c ev Hc Hoff) as [?|(d & pk & Hd & Hp & ->)]; [by left|]. right. exists pk.
  pose proof (wf_deliver _ _ _ Hus d pk Hd) as ->. rewrite Hclosure in Hp. rewrite <- Hp. done.
Qed.
(** C7. An app gets its own packets and nobody else's: in every configuration a fresh
    node can get into, whatever interleaves, each event that a socket was
    offered - so each that waits in its queue and each that was written to it -
    is a notice or the text of a packet for the app of that socket that the
    relay manager dispatched. *)
Theorem sockets_get_own_packets `{!PeerLaws L} (me : peerID) (app_of : DeliverFunc → peerID) (closure : peerID → DeliverFunc)
    (n0 n : Node) (ts : list (prog Node unit)) (id : nat) (c : wsClient) (ev : json)
    (Hclosure : ∀ p, app_of (closure p) = p) (Hfresh : fresh_node me n0)
    (Hr : sys_reachable me app_of closure n0 (n, ts))
    (Hc : objs (n_srv n) !! id = Some c)
    (Hev : ev ∈ wc_written c ∨ ev ∈ chan_buf (wc_send c) ∨ ev ∈ wc_offered c) :
  notice ev ∨
  ∃ pk, EvDeliver (closure (wc_appPeer c)) pk ∈ trace (n_mgr n) ∧ RecipientID pk = wc_appPeer c ∧ ev = deliver_event pk.
Proof. by eapply own_packets. Qed.
End delivery.

(** ** A concrete run *)

Section witnesses.
Import Fresh.
#[local] Existing Instances plain_multiaddr plain_peers plain_msgpack all_written reliable plain_yaml plain_base58
  working plain_net LateSnapshot.never_fails plain_crypto.

(** The packet sent while its app connects is on the socket of the app. *)
Lemma sockets_get_own_packets_witness :
  match objs (n_srv served.1) !! 0%nat with
  | Some c =>
      let ev := packetReceivedEvent "c" "aGVsbG8=" 0 in
      ev ∈ wc_offered c ∧
      (notice ev ∨ ∃ pk, EvDeliver (closure (wc_appPeer c)) pk ∈ trace (n_mgr served.1) ∧ RecipientID pk = wc_appPeer c ∧
         ev = deliver_event pk)
  | None => False
  end.
Proof.
  assert (Hc : match objs (n_srv served.1) !! 0%nat with
    | Some c => wc_offered c = [peerOnlineEvent "b" "a"; packetReceivedEvent "c" "aGVsbG8=" 0]
    | None => False end) by (vm_compute; reflexivity).
  destruct (objs (n_srv served.1) !! 0%nat) as [c|] eqn:E; [|exact Hc]. cbn zeta.
  assert (Hin : packetReceivedEvent "c" "aGVsbG8=" 0 ∈ wc_offered c) by (rewrite Hc; apply list_elem_of_further, list_elem_of_here).
  split; [exact Hin|].
  apply (sockets_get_own_packets "a" app_of closure public served.1 served.2 0 c _ app_of_closure (node_fresh _ _)).
  - exact served_reachable.
  - exact E.
  - right; right. exact Hin.
Defined.
End witnesses.
