(* ===== verification/Nodes.v ===== *)
(** * Many whole nodes

    Nodes of System.v, joined by the streams they open to each other. Where a
    packet that reaches a socket comes from, whatever the nodes and the
    schedule; and that a packet posted at one node reaches the sockets at
    another. *)

From S2P Require Import Prelude GoTime Prog Compose GoStrings Encoding Multiaddr Files Packet Dedup Router Queue Json Presence Manager RelaySpec Rendezvous RvGossip Config Network Invite Card PeerMemory Ping Server Handlers System SystemSpec Delivery.

#[local] Open Scope string_scope.
#[local] Open Scope list_scope.
#[local] Open Scope Z_scope.

(** ** The packets a relay manager holds and passes on *)

Section provenance.
Context `{L : PeerLib} `{Mp : Msgpack} `{!MsgpackLaws Mp} `{SN : StreamNet} `{MR : MapRange}.
Context (G : Packet → Prop).

(** A message that is no packet, or one of these packets. *)
Definition carries (b : bytes) : Prop := ∀ p, UnmarshalPacket b = Some p → G p.

(** Everything the manager holds, delivered or sent is one of these packets. *)
Record only (m : Manager) : Prop := {
  only_held r s e : Queue.held (queue m) r s = Some e → G (pkt e);
  only_delivered d p : EvDeliver d p ∈ trace m → G p;
  only_sent via b : EvSent via b ∈ trace m → carries b
}.

Definition event_only (e : Event) : Prop :=
  match e with EvDeliver _ p => G p | EvSent _ b => carries b | _ => True end.

Lemma only_emit e m : only m → event_only e → only (emit e m).
Proof.
  intros [] He. split; [done|..]; cbn.
  - intros d p [?|Hin%list_elem_of_singleton]%elem_of_app; [eauto|by subst e].
  - intros via b [?|Hin%list_elem_of_singleton]%elem_of_app; [eauto|by subst e].
Qed.

Lemma only_queue f m : only m → (∀ r s e, Queue.held (f (queue m)) r s = Some e → G (pkt e)) → only (set_queue f m).
Proof. intros [] ?. by split. Qed.

Lemma only_same m m' : only m → queue m' = queue m → trace m' = trace m → only m'.
Proof. intros [] Hq Ht. split; rewrite ?Hq, ?Ht; done. Qed.

#[local] Abbreviation safe := (Prog.safe only).
#[local] Abbreviation stable := (Prog.stable only).

Lemma only_Take r : safe (Forall G) (queue_Take r).
Proof.
  apply safe_atomic. intros m Hm. pose proof (held_Take (clock m) r (queue m)) as Hh.
  pose proof (in_Take (clock m) r (queue m)) as Hin. destruct (Take _ _ _) as [q out]. cbn in *. split.
  - apply only_queue; [done|]. intros r' s e. rewrite Hh. case_decide; [done|]. apply Hm.
  - apply Forall_forall. intros p (s & e & He & <- & _)%Hin. by eapply only_held.
Qed.

Lemma only_Put r p : G p → stable (queue_Put r p).
Proof.
  intros Hp. apply stable_modify. intros m Hm. apply only_queue; [done|]. intros r' s e.
  rewrite held_Put. case_decide; [by intros [= <-]|apply Hm].
Qed.

Lemma only_deliver d p : G p → stable (call_deliver d p).
Proof. intros Hp. apply stable_modify. intros. by apply only_emit. Qed.

Lemma carries_marshal p b : Marshal p = Some b → G p → carries b.
Proof.
  intros Hb Hp q. unfold UnmarshalPacket. rewrite (msgpack_roundtrip p b Hb). by intros [= <-].
Qed.

Lemma only_forwardTo via p : G p → stable (forwardTo via p).
Proof.
  intros Hp. unfold forwardTo. destruct (Marshal p) as [b|] eqn:Eb; [|apply stable_ret].
  apply stable_atomic. intros m Hm. destruct (stream_outcome _ _); cbn; [by eapply only_same..|].
  apply only_emit; [by eapply only_same|]. by eapply carries_marshal.
Qed.

Lemma only_FlushQueued r : stable (FlushQueued r).
Proof.
  eapply safe_bind; [apply only_Take|]. intros pending Hp. rewrite Forall_forall in Hp.
  destruct pending as [|p0 pending]; [apply stable_ret|].
  apply stable_bind; [apply stable_gets|]. intros [d|]; [|apply stable_bind; [apply stable_gets|intros [via|]]].
  - apply stable_for_each. intros p Hin. by apply only_deliver, Hp.
  - apply stable_for_each. intros p Hin. apply stable_bind; [by apply only_forwardTo, Hp|].
    intros []; [apply stable_ret|by apply only_Put, Hp].
  - apply stable_for_each. intros p Hin. by apply only_Put, Hp.
Qed.

Lemma only_AppConnected a d : stable (AppConnected a d).
Proof.
  apply stable_bind; [apply stable_atomic; intros; by eapply only_same|intros c].
  apply stable_bind; [apply stable_modify; intros; by apply only_emit|intros _].
  apply stable_bind; [apply only_FlushQueued|intros _]. apply stable_modify. intros. by eapply only_same.
Qed.

Lemma only_AppDisconnected a : stable (AppDisconnected a).
Proof.
  apply stable_bind; [|intros _; apply stable_modify; intros; by apply only_emit].
  apply stable_modify. intros m Hm. unfold unregister_app. destruct (refreshers m !! a); by eapply only_same.
Qed.

Lemma only_Route p : G p → stable (Route p).
Proof.
  intros Hp. apply stable_bind.
  { apply stable_atomic. intros m Hm. destruct (SeenOrAdd _ _ _). by eapply only_same. }
  intros []; [apply stable_ret|]. unfold forwardOrDeliver.
  destruct (IDFromBytes (RecipientID p)) as [r|]; [|apply stable_ret].
  apply stable_bind; [apply stable_gets|]. intros [d|].
  { apply stable_bind; [by apply only_deliver|intros _; apply stable_ret]. }
  apply stable_bind; [apply stable_gets|]. intros [via|].
  - apply stable_bind; [by apply only_forwardTo|]. intros []; [apply stable_ret|].
    apply stable_bind; [by apply only_Put|intros _; apply stable_ret].
  - apply stable_bind; [by apply only_Put|intros _; apply stable_ret].
Qed.

Lemma only_handleStream b : (∀ x, b = Some x → carries x) → stable (handleStream b).
Proof.
  intros Hb. destruct b as [b|]; [|apply stable_ret]. unfold handleStream.
  destruct (UnmarshalPacket b) as [p|] eqn:E; [|apply stable_ret].
  apply stable_bind; [by apply only_Route, (Hb b)|intros _; apply stable_ret].
Qed.

Lemma only_on_presence msg : stable (on_presence msg).
Proof.
  apply stable_bind.
  { apply stable_atomic. intros m Hm. destruct (presence_receive _ _ _ _ _). by eapply only_same. }
  intros evs. apply stable_for_each. intros e _. apply stable_bind.
  - destruct (ev_online e); [apply only_FlushQueued|apply stable_ret].
  - intros _. apply stable_modify. intros m Hm. destruct (onPeer m); [by apply only_emit|done].
Qed.

Lemma only_loops next sigs :
  stable (presence_readLoop next) ∧ stable (evictLoop sigs) ∧ stable (pruneLoop sigs) ∧ stable (sweepLoop sigs).
Proof.
  split_and!; [apply stable_reader, only_on_presence|..]; apply stable_ticker;
    (apply stable_bind; [apply stable_gets|intros now; apply stable_modify; intros m Hm]).
  - by eapply only_same.
  - by eapply only_same.
  - apply only_queue; [done|]. intros r s e. rewrite held_sweep.
    destruct (Queue.held (queue m) r s) as [e'|] eqn:E; [|done]. cbn. destruct (expired_entry now e'); [done|].
    intros [= <-]. by eapply only_held.
Qed.

Lemma only_env m m' : mgr_env m m' → only m → only m'.
Proof. intros [] Hm; [by eapply only_same|by apply only_emit|by eapply only_same]. Qed.
End provenance.

(** ** A node *)

Section node.
Context `{M : MultiaddrLib} `{L : PeerLib} `{Mp : Msgpack} `{!MsgpackLaws Mp} `{SN : StreamNet} `{MR : MapRange}
  `{FS0 : FileSystem} `{OS : OSEnv} `{Y : Yaml} `{B : Base58} `{BT : Bolt} `{NL : NetLib} `{C : Crypto}.
Context (me : peerID) (app_of : DeliverFunc → peerID) (closure : peerID → DeliverFunc).

(** The packets that a request to [/send] asks for: its recipient, its payload and
    its identifier, and its sender if it names one. *)
Definition asks (rand : option bytes) (path : string) (r : Request) (p : Packet) : Prop :=
  path = "/send" ∧ Method r = "POST" ∧
  ∃ v req, Body r = Some v ∧ dec_sendRequest v = Some req ∧
    Decode (sr_Recipient req) = Some (RecipientID p) ∧ base64_DecodeString (sr_Payload req) = Some (Payload p) ∧
    packet_id req rand = inl (ID p) ∧ (sr_SenderID req ≠ "" → Decode (sr_SenderID req) = Some (SenderID p)).

Context (G : Packet → Prop).

Definition node_only (n : Node) : Prop := only G (n_mgr n).

#[local] Abbreviation stable := (Prog.stable node_only).

Lemma stable_relay {A} (p : prog Manager A) : Prog.stable (only G) p → stable (relay app_of p).
Proof. intros Hp. apply (safe_weave mgr_part); [|done]. intros ev. apply (zoom_away mgr_part srv_part). Qed.

Lemma stable_zoom {S A} (l : lens Node S) `{!Apart mgr_part l} (p : prog S A) : stable (zoom l p).
Proof. apply (stable_away mgr_part), zoom_away, _. Qed.

Lemma stable_pinging {A} (p : prog PingManager A) : stable (pinging p).
Proof. apply (stable_away mgr_part), (weave_away mgr_part ping_part). intros e. apply (zoom_away mgr_part srv_part). Qed.

Lemma stable_other f : (∀ n, n_mgr (f n) = n_mgr n) → stable (modify f).
Proof. intros Hf. apply stable_modify. intros n. unfold node_only. by rewrite Hf. Qed.

Ltac only_step :=
  match goal with
  | |- Prog.stable _ (mret _) => apply stable_ret
  | |- Prog.stable _ (Ret _) => apply stable_ret
  | |- Prog.stable _ (match ?x with _ => _ end) => destruct x
  | |- Prog.stable _ (gets _) => apply stable_gets
  | |- Prog.stable _ (publish _) => by apply stable_other
  | |- Prog.stable _ (assign_cfg _) => by apply stable_other
  | |- Prog.stable _ (zoom _ _) => apply stable_zoom; apply _
  | |- Prog.stable _ (pinging _) => apply stable_pinging
  | |- Prog.stable _ (relay _ _) => apply stable_relay; solve [auto using only_AppConnected, only_AppDisconnected]
  | |- Prog.stable _ (for_each _ _) => apply stable_for_each; intros ? ?
  | |- Prog.stable _ (ticker_loop _ _) => apply stable_ticker
  | |- Prog.stable _ (readPump ?reads ?q) => destruct (readPump_cases reads q) as [-> | ->]
  | |- Prog.stable _ (_ ≫= _) => apply stable_bind; [|intros ?]
  end.

Lemma stable_send req rcp payload id sender :
  (∀ t, G (mkPacket id sender rcp payload t)) → stable (go_send app_of req rcp payload id sender).
Proof.
  intros HG. unfold go_send. apply stable_bind; [apply stable_gets|intros now].
  apply stable_bind; [by apply stable_relay, only_Route|intros e]. repeat only_step.
Qed.

Lemma stable_handleSend rand r :
  (∀ p, asks rand "/send" r p → G p) → stable (go_handleSend app_of rand r).
Proof.
  intros HG. unfold go_handleSend. destruct (String.eqb_spec (Method r) "POST") as [Hm|]; [|apply stable_ret].
  cbn [negb]. destruct (Body r) as [v|] eqn:Eb; [|apply stable_ret]. cbn [mbind option_bind].
  destruct (dec_sendRequest v) as [req|] eqn:Er; [|apply stable_ret].
  destruct (Decode (sr_Recipient req)) as [rcp|] eqn:Ercp; [|apply stable_ret].
  destruct (base64_DecodeString (sr_Payload req)) as [payload|] eqn:Ep; [|apply stable_ret].
  destruct (packet_id req rand) as [id|] eqn:Eid; [|apply stable_ret].
  assert (Hasks : ∀ sender t, (sr_SenderID req ≠ "" → Decode (sr_SenderID req) = Some sender) →
    G (mkPacket id sender rcp payload t)).
  { intros sender t Hs. apply HG. split_and!; [done|done|]. by exists v, req. }
  destruct (String.eqb_spec (sr_SenderID req) "") as [He|He]; cbn [negb].
  - apply stable_bind; [apply stable_zoom; apply _|]. intros p. apply stable_send. by intros t; apply Hasks.
  - destruct (Decode (sr_SenderID req)) as [p|] eqn:Es; [|apply stable_ret]. apply stable_send. by intros t; apply Hasks.
Qed.

Lemma stable_serve rand up path r :
  (∀ p, asks rand path r p → G p) → stable (go_serve app_of closure rand up path r).
Proof.
  intros HG. unfold go_serve, go_routes. destruct (String.eqb_spec path "/send") as [->|Hne].
  - cbn [String.eqb Ascii.eqb Bool.eqb]. unfold go_authed. apply stable_bind; [apply stable_gets|intros cfg].
    repeat (destruct (negb _); [apply stable_ret|]). by apply stable_handleSend.
  - repeat (destruct (String.eqb path _); [unfold_handlers; repeat only_step|]). apply stable_ret.
Qed.

Lemma stable_own P : own_call me app_of P → stable P.
Proof.
  pose proof (only_loops G) as Hloops.
  intros []; unfold go_ws_close, presence_loop, rendezvous_loop, discovery_loop, RendezvousReannounceLoop, go_reannounce,
    with_store; try (apply stable_relay; apply Hloops; exact []); repeat only_step.
Qed.
End node.

(** ** The world *)

(** Where a packet can come from: a request to a node, or a stream that somebody
    opened who is none of the nodes ([None] if reading it failed). *)
Inductive origin :=
| Posted (rand : option bytes) (path : string) (r : Request)
| Outside (b : option bytes).

Section world.
Context `{M : MultiaddrLib} `{L : PeerLib} `{Mp : Msgpack} `{SN : StreamNet} `{MR : MapRange}
  `{FS0 : FileSystem} `{OS : OSEnv} `{Y : Yaml} `{B : Base58} `{BT : Bolt} `{NL : NetLib} `{C : Crypto}.
Context (app_of : DeliverFunc → peerID) (closure : peerID → DeliverFunc).

Definition gives (o : origin) (p : Packet) : Prop :=
  match o with
  | Posted rand path r => asks rand path r p
  | Outside b => b ≫= UnmarshalPacket = Some p
  end.

(** The nodes with their goroutines, by their identifiers, and what was asked of
    them from outside so far. *)
Record World := mkWorld { members : list (peerID * config (S := Node)); origins : list origin }.

Definition genuine (w : World) (p : Packet) : Prop := ∃ o, o ∈ origins w ∧ gives o p.

(** A goroutine more. *)
Definition go (P : prog Node unit) (c : config (S := Node)) : config := (c.1, c.2 ++ [P]).

(** A node takes a step of its own, gets a request, or a stream: one another node
    wrote to, as often and as late as the network likes, or one from outside.
    Gossip is arbitrary: the loops that read it are given any messages. *)
Inductive world_step : World → World → Prop :=
| world_local w i me c c' :
    members w !! i = Some (me, c) → cstep sys_env (own_call me app_of) c c' →
    world_step w (mkWorld (<[i := (me, c')]> (members w)) (origins w))
| world_request w i me c rand up path r :
    members w !! i = Some (me, c) →
    world_step w (mkWorld (<[i := (me, go (_ ← go_serve app_of closure rand up path r; mret tt) c)]> (members w))
                    (Posted rand path r :: origins w))
| world_stream w i src c0 j me c b :
    members w !! i = Some (src, c0) → EvSent me b ∈ trace (n_mgr c0.1) → members w !! j = Some (me, c) →
    world_step w (mkWorld (<[j := (me, go (relay app_of (handleStream (Some b))) c)]> (members w)) (origins w))
| world_outside w j me c b :
    members w !! j = Some (me, c) →
    world_step w (mkWorld (<[j := (me, go (relay app_of (handleStream b)) c)]> (members w)) (Outside b :: origins w)).

Section invariant.
Context `{!MsgpackLaws Mp}.

(** What holds of a member while [G] are the genuine packets. *)
Record member_ok (G : Packet → Prop) (mc : peerID * config (S := Node)) : Prop := {
  mem_reachable : ∃ n0, fresh_node mc.1 n0 ∧ sys_reachable mc.1 app_of closure n0 mc.2;
  mem_only : node_only G mc.2.1;
  mem_goes G' : (∀ p, G p → G' p) → Forall (Prog.stable (node_only G')) mc.2.2
}.

Lemma node_only_mono (G G' : Packet → Prop) n : (∀ p, G p → G' p) → node_only G n → node_only G' n.
Proof.
  intros HG [Hh Hd Hs]. split.
  - intros r s e He. eapply HG, Hh, He.
  - intros d p Hp. eapply HG, Hd, Hp.
  - intros via b Hb p Hp. eapply HG, Hs; done.
Qed.

Lemma member_mono (G G' : Packet → Prop) mc : (∀ p, G p → G' p) → member_ok G mc → member_ok G' mc.
Proof.
  intros HG [Hr Ho Hg]. split; [done|by eapply node_only_mono|]. intros G'' HG'. apply Hg. auto.
Qed.

Lemma member_go G me c P :
  member_ok G (me, c) → sys_call me app_of closure P → (∀ G', (∀ p, G p → G' p) → Prog.stable (node_only G') P) →
  member_ok G (me, go P c).
Proof.
  intros [(n0 & Hf & Hr) Ho Hg] HP Hs. split; cbn [fst snd go] in *; [|done|].
  - exists n0. split; [done|]. eapply rtc_r; [exact Hr|]. destruct c. by apply cstep_go.
  - intros G' HG. apply Forall_app. split; [by apply Hg|]. constructor; [by apply Hs|constructor].
Qed.

Lemma member_local G me c c' :
  member_ok G (me, c) → cstep sys_env (own_call me app_of) c c' → member_ok G (me, c').
Proof.
  intros Hok Hstep. destruct Hok as [(n0 & Hf & Hr) Ho Hg]. cbn [fst snd] in *.
  assert (Hr' : sys_reachable me app_of closure n0 c').
  { eapply rtc_r; [exact Hr|]. destruct Hstep; [by apply cstep_env|by apply cstep_go, call_own|by apply cstep_section with (f := f) (k := k)]. }
  assert (Hkeep : ∀ G', (∀ p, G p → G' p) → node_only G' c'.1 ∧ Forall (Prog.stable (node_only G')) c'.2).
  { intros G' HG.
    apply (reachable_invariant sys_env (own_call me app_of) (node_only G') c c').
    - intros s s' [n m He|n s0 _|n rs _|n p _] Hn; [by eapply only_env|done..].
    - apply stable_own.
    - by apply rtc_once.
    - by eapply node_only_mono.
    - by apply Hg. }
  split; cbn [fst snd]; [by exists n0|by apply Hkeep|]. intros G' HG. by apply Hkeep.
Qed.

Lemma world_step_genuine w w' p : world_step w w' → genuine w p → genuine w' p.
Proof.
  intros Hs (o & Ho & Hp). destruct Hs; exists o; (split; [|done]); cbn; try done; by apply list_elem_of_further.
Qed.

Definition world_ok (w : World) : Prop := Forall (member_ok (genuine w)) (members w).

Lemma world_step_ok w w' : world_step w w' → world_ok w → world_ok w'.
Proof.
  intros Hs Hok. pose proof (λ p, world_step_genuine w w' p Hs) as Hgen.
  assert (Hold : Forall (member_ok (genuine w')) (members w)).
  { eapply Forall_impl; [exact Hok|]. intros mc. by apply member_mono. }
  assert (Hat : ∀ i me c, members w !! i = Some (me, c) → member_ok (genuine w') (me, c)).
  { intros i me c Hi. by eapply (Forall_lookup_1 _ _ _ _ Hold). }
  destruct Hs as [w i me c c' Hi Hstep|w i me c rand up path r Hi|w i src c0 j me c b Hi Hb Hj|w j me c b Hj];
    unfold world_ok; cbn [members]; (apply Forall_insert; [exact Hold|]).
  - eapply member_local; [by eapply Hat|done].
  - apply member_go; [by eapply Hat|apply call_request|]. intros G' HG. apply stable_bind; [|intros _; apply stable_ret].
    apply stable_serve. intros p Hp. apply HG. exists (Posted rand path r). split; [by apply list_elem_of_here|done].
  - apply member_go; [by eapply Hat|apply call_stream|]. intros G' HG. apply stable_relay, only_handleStream.
    intros x [= <-] p Hp. apply HG. eapply (only_sent _ _ (mem_only _ _ (Hat i src c0 Hi))); [exact Hb|done].
  - apply member_go; [by eapply Hat|apply call_stream|]. intros G' HG. apply stable_relay, only_handleStream.
    intros x -> p Hp. apply HG. exists (Outside (Some x)). split; [by apply list_elem_of_here|done].
Qed.

(** A world of nodes that were just started. *)
Definition fresh_world (w : World) : Prop :=
  Forall (λ mc, fresh_node mc.1 mc.2.1 ∧ mc.2.2 = []) (members w) ∧ origins w = [].

Lemma fresh_world_ok w : fresh_world w → world_ok w.
Proof.
  intros [Hw _]. eapply Forall_impl; [exact Hw|]. intros [me [n ts]] [Hf Hts]. cbn [fst snd] in *. subst ts.
  split; cbn [fst snd]; [exists n; split; [done|apply rtc_refl]| |by intros; constructor].
  destruct Hf as [[t Ht] _ _ _]. unfold node_only. rewrite Ht. split; cbn.
  - intros r s e. unfold Queue.held, NewQueue. by rewrite lookup_empty.
  - by intros d p ?%not_elem_of_nil.
  - by intros via b ?%not_elem_of_nil.
Qed.

Lemma world_reachable_ok w0 w : fresh_world w0 → rtc world_step w0 w → world_ok w.
Proof.
  intros Hf Hr. eapply (rtc_ind_r world_ok); [by apply fresh_world_ok| |exact Hr].
  intros w1 w2 _ Hs. by apply world_step_ok.
Qed.
End invariant.
End world.

(** ** Runs *)

Section runs.
Context `{M : MultiaddrLib} `{L : PeerLib} `{Mp : Msgpack} `{!MsgpackLaws Mp} `{SN : StreamNet} `{MR : MapRange}
  `{FS0 : FileSystem} `{OS : OSEnv} `{Y : Yaml} `{B : Base58} `{BT : Bolt} `{NL : NetLib} `{C : Crypto}.
Context (app_of : DeliverFunc → peerID) (closure : peerID → DeliverFunc).

#[local] Abbreviation step := (world_step app_of closure).

Lemma world_locals w i me c c' :
  members w !! i = Some (me, c) → rtc (cstep sys_env (own_call me app_of)) c c' →
  rtc step w (mkWorld (<[i := (me, c')]> (members w)) (origins w)).
Proof.
  intros Hi Hr. revert w Hi. induction Hr as [c|c c1 c' Hs _ IH]; intros w Hi.
  - rewrite list_insert_id by done. by destruct w.
  - eapply rtc_l; [by eapply world_local|].
    assert (Hi' : <[i:=(me, c1)]> (members w) !! i = Some (me, c1)).
    { apply list_lookup_insert_eq. by eapply lookup_lt_Some. }
    pose proof (IH (mkWorld (<[i:=(me, c1)]> (members w)) (origins w)) Hi') as Hr1. cbn [members origins] in Hr1.
    by rewrite list_insert_insert_eq in Hr1.
Qed.

(** A goroutine that was just started runs to its end, alone. *)
Lemma world_run w i me n ts P os :
  members w !! i = Some (me, (n, ts)) →
  step w (mkWorld (<[i := (me, go P (n, ts))]> (members w)) os) →
  rtc step w (mkWorld (<[i := (me, ((run P n).1, ts ++ [Ret tt]))]> (members w)) os).
Proof.
  intros Hi Hs. eapply rtc_l; [exact Hs|].
  set (w1 := mkWorld (<[i:=(me, go P (n, ts))]> (members w)) os).
  assert (Hi' : members w1 !! i = Some (me, go P (n, ts))).
  { apply list_lookup_insert_eq. by eapply lookup_lt_Some. }
  pose proof (world_locals w1 i me _ _ Hi' (run_reachable sys_env (own_call me app_of) P n ts [])) as Hr.
  cbn [members origins w1] in Hr. destruct (run P n).2. by rewrite list_insert_insert_eq in Hr.
Qed.

(** A packet a node has not seen, for an app that is not there, over a stream that
    works. *)
Lemma call_relay_hop p r via b n :
  dedup_m (dedup (n_mgr n)) !! ID p = None → IDFromBytes (RecipientID p) = Some r →
  localApps (n_mgr n) !! r = None → next_hop (n_mgr n) r = Some via →
  stream_outcome (streams (n_mgr n)) via = Written → Marshal p = Some b →
  ∃ m, call_relay app_of (Route p) n = (set_n_relay m (n_srv n) n, None) ∧ EvSent via b ∈ trace m.
Proof.
  intros Hid Hr Hl Hv Ho Hb. unfold call_relay, Route. rewrite run_bind, run_atomic. unfold SeenOrAdd. rewrite Hid.
  cbn [fst snd]. unfold forwardOrDeliver. rewrite Hr, run_bind. unfold lookup_local. rewrite run_gets. cbn [fst snd].
  set (m0 := set_dedup _ (n_mgr n)). change (localApps m0 !! r) with (localApps (n_mgr n) !! r). rewrite Hl.
  rewrite run_bind, run_lookup_via. cbn [fst snd]. change (next_hop m0 r) with (next_hop (n_mgr n) r). rewrite Hv, run_bind.
  rewrite (run_forwardTo_ok via p m0 b) by done. cbn [fst snd]. eexists. split.
  - cbn [run mret prog_ret]. change (trace (emit _ _)) with (trace (n_mgr n) ++ [EvSent via b]). by rewrite drop_app_length.
  - change (trace (emit _ _)) with (trace (n_mgr n) ++ [EvSent via b]). apply elem_of_app. right. by apply list_elem_of_here.
Qed.

(** A stream with a packet is a call of [Route]. *)
Lemma run_stream b p n :
  UnmarshalPacket b = Some p → (run (relay app_of (handleStream (Some b))) n).1 = (call_relay app_of (Route p) n).1.
Proof.
  intros Hb. rewrite run_relay by auto with sections. unfold call_relay, handleStream. rewrite Hb, run_bind.
  destruct (run (Route p) (n_mgr n)) as [m e]. done.
Qed.

(** The members [js] route packets for [r] along, to the callback [d] at the last,
    and have not seen the packet [i]. *)
Fixpoint leads (ms : list (peerID * config (S := Node))) (i : bytes) (r : peerID) (d : DeliverFunc) (js : list nat) : Prop :=
  match js with
  | [] => False
  | j :: js' =>
      ∃ me n ts, ms !! j = Some (me, (n, ts)) ∧ dedup_m (dedup (n_mgr n)) !! i = None ∧
      match js' with
      | [] => localApps (n_mgr n) !! r = Some d
      | j' :: _ =>
          localApps (n_mgr n) !! r = None ∧
          (∃ mc, ms !! j' = Some mc ∧ next_hop (n_mgr n) r = Some mc.1 ∧
             stream_outcome (streams (n_mgr n)) mc.1 = Written) ∧
          leads ms i r d js'
      end
  end.

Lemma leads_insert ms i r d js k x : k ∉ js → leads ms i r d js → leads (<[k := x]> ms) i r d js.
Proof.
  induction js as [|j js IH]; [done|]. intros Hk (me & n & ts & Hj & Hd & Hrest).
  rewrite not_elem_of_cons in Hk. destruct Hk as [Hkj Hk].
  exists me, n, ts. split_and!; [by rewrite list_lookup_insert_ne|done|].
  destruct js as [|j' js]; [done|]. destruct Hrest as (Hl & (mc & Hmc & Hhop) & Hleads).
  split_and!; [done| |by apply IH]. exists mc. split; [|done]. rewrite list_lookup_insert_ne; [done|].
  intros ->. by apply Hk, list_elem_of_here.
Qed.

Lemma leads_last ms i r d js jl me n ts :
  leads ms i r d js → last js = Some jl → ms !! jl = Some (me, (n, ts)) → localApps (n_mgr n) !! r = Some d.
Proof.
  induction js as [|j js IH]; [done|]. intros (me' & n' & ts' & Hj & _ & Hrest) Hlast Hjl.
  destruct js as [|j' js].
  - injection Hlast as <-. rewrite Hj in Hjl. by injection Hjl as <- <- <-.
  - rewrite last_cons_cons in Hlast. destruct Hrest as (_ & _ & Hrest). by apply IH.
Qed.

(** The invariants of a member. *)
Lemma member_invariants `{!PeerLaws L} w0 w i me n ts :
  fresh_world w0 → rtc step w0 w → members w !! i = Some (me, (n, ts)) →
  mgr_wf closure me (n_mgr n) ∧ server_ok (n_srv n).
Proof.
  intros Hf Hr Hi. pose proof (world_reachable_ok app_of closure w0 w Hf Hr) as Hok.
  pose proof (Forall_lookup_1 _ _ _ _ Hok Hi) as [(n0 & [[t Ht] [max Hmax] _ _] & Hreach) _ _]. cbn [fst snd] in *.
  destruct (project_srv _ _ _ _ _ _ Hreach) as [us Hus]. rewrite Hmax in Hus.
  destruct (project_mgr _ _ _ _ _ _ Hreach) as [vs Hvs]. rewrite Ht in Hvs.
  split; [by apply reachable_wf in Hvs|]. apply (sv_reachable_ok _ _ _) in Hus; [done|apply NewServer_books].
Qed.

Lemma Route_no_error p r m : IDFromBytes (RecipientID p) = Some r → (run (Route p) m).2 = None.
Proof.
  intros Hr. unfold Route. rewrite run_bind, run_atomic. destruct (SeenOrAdd _ _ _) as [dd []]; cbn [fst snd]; [done|].
  pose proof (forwardOrDeliver_fate p r (set_dedup (λ _, dd) m) Hr) as Hf.
  destruct (run (forwardOrDeliver p) _) as [m' res]. by destruct Hf as (-> & _).
Qed.

(** A request to [/send] that is accepted routes its packet. *)
Lemma run_send rand up r n v req rcp sender payload pid :
  checkAuth (n_cfg n) r = true → originAllowed r = true →
  Method r = "POST" → Body r = Some v → dec_sendRequest v = Some req →
  Decode (sr_Recipient req) = Some rcp → IDFromBytes rcp = Some rcp → base64_DecodeString (sr_Payload req) = Some payload →
  packet_id req rand = inl pid → packet_sender req (n_srv n) = inl sender →
  run (go_serve app_of closure rand up "/send" r) n =
    ((call_relay app_of (Route (mkPacket pid sender rcp payload (Time.UnixMilli (clock (n_mgr n))))) n).1,
     mkResponse 200 (JObj [("packet_id", JStr (hex_EncodeToString pid)); ("status", JStr "queued")])).
Proof.
  intros Hauth Horigin Hmethod Hbody Hreq Hrcp Hid Hpay Hpid Hsender.
  rewrite run_serve. unfold serve, routes. cbn [String.eqb Ascii.eqb Bool.eqb]. unfold authed. rewrite Hauth, Horigin.
  cbn [negb]. unfold handleSend. rewrite Hmethod, Hbody. cbn [String.eqb Ascii.eqb Bool.eqb negb mbind option_bind].
  rewrite Hreq, Hrcp, Hpay, Hpid, Hsender. set (pkt := mkPacket _ _ _ _ _).
  pose proof (Route_no_error pkt rcp (n_mgr n) Hid) as Hno.
  unfold call_relay. destruct (run (Route pkt) (n_mgr n)) as [m e]. cbn [snd] in Hno. by subst e.
Qed.

Section along.
Context (p : Packet) (r : peerID) (d : DeliverFunc) (b : bytes).
Context (Hr : IDFromBytes (RecipientID p) = Some r) (Hb : Marshal p = Some b).

(** A goroutine that routes [p] at the first member of a path, and the streams it
    starts, take it to the sockets at the last. *)
Lemma along js : ∀ w os j P me n ts jl mel nl tsl,
  members w !! j = Some (me, (n, ts)) →
  step w (mkWorld (<[j := (me, go P (n, ts))]> (members w)) os) →
  (run P n).1 = (call_relay app_of (Route p) n).1 →
  leads (members w) (ID p) r d (j :: js) → NoDup (j :: js) →
  last (j :: js) = Some jl → members w !! jl = Some (mel, (nl, tsl)) →
  ∃ w' n' ts', rtc step w w' ∧ members w' !! jl = Some (mel, (n', ts')) ∧
    n_srv n' = exec (sendToApp (app_of d) (deliver_event p)) (n_srv nl).
Proof using Hr Hb MsgpackLaws0.
  induction js as [|j' js IH]; intros w os j P me n ts jl mel nl tsl Hj Hstep Hrun Hleads Hnd Hlast Hjl.
  - destruct Hleads as (me' & n' & ts' & Hj' & Hid & Hl). rewrite Hj in Hj'. injection Hj' as <- <- <-.
    injection Hlast as <-. rewrite Hj in Hjl. injection Hjl as <- <- <-.
    pose proof (world_run w j me n ts P os Hj Hstep) as Hw.
    destruct (call_relay_local app_of p d r n) as (m & Hc & _); [by unfold SeenOrAdd; rewrite Hid|done|done|].
    eexists _, _, _. split; [exact Hw|]. cbn [members].
    split; [by rewrite list_lookup_insert_eq by (by eapply lookup_lt_Some)|]. by rewrite Hrun, Hc.
  - destruct Hleads as (me' & n' & ts' & Hj' & Hid & Hl & ([me2 [n2 ts2]] & Hmc & Hv & Ho) & Hleads).
    rewrite Hj in Hj'. injection Hj' as <- <- <-. cbn [fst] in *.
    pose proof (world_run w j me n ts P os Hj Hstep) as Hw.
    destruct (call_relay_hop p r me2 b n) as (m & Hc & Hsent); try done. rewrite Hrun, Hc in Hw. cbn [fst] in Hw.
    set (w1 := mkWorld _ os) in Hw. apply NoDup_cons in Hnd as [Hnotin Hnd].
    assert (Hne : j ≠ j') by (intros ->; by apply Hnotin, list_elem_of_here).
    assert (Hsrc : ∃ ts1, members w1 !! j = Some (me, (set_n_relay m (n_srv n) n, ts1))).
    { eexists. apply list_lookup_insert_eq. by eapply lookup_lt_Some. }
    destruct Hsrc as [ts1 Hsrc].
    assert (Hdst : members w1 !! j' = Some (me2, (n2, ts2))) by (unfold w1; cbn [members]; by rewrite list_lookup_insert_ne).
    rewrite last_cons_cons in Hlast.
    assert (Hjl1 : members w1 !! jl = Some (mel, (nl, tsl))).
    { unfold w1; cbn [members]. rewrite list_lookup_insert_ne; [done|]. intros ->.
      by apply Hnotin, last_Some_elem_of. }
    destruct (IH w1 os j' (relay app_of (handleStream (Some b))) me2 n2 ts2 jl mel nl tsl) as (w' & n' & ts' & Hr' & Hres);
      try done.
    + apply (world_stream app_of closure w1 j me (set_n_relay m (n_srv n) n, ts1) j' me2 (n2, ts2) b); done.
    + apply run_stream. unfold UnmarshalPacket. by rewrite (msgpack_roundtrip p b Hb).
    + by apply leads_insert.
    + exists w', n', ts'. split; [|done]. by etrans.
Qed.
End along.
End runs.

(** ** Theorems *)

Section theorems.
Context `{M : MultiaddrLib} `{L : PeerLib} `{!PeerLaws L} `{Mp : Msgpack} `{!MsgpackLaws Mp} `{SN : StreamNet} `{MR : MapRange}
  `{FS0 : FileSystem} `{OS : OSEnv} `{Y : Yaml} `{B : Base58} `{BT : Bolt} `{NL : NetLib} `{C : Crypto}.

(** C1. No packet comes from nowhere: in a world of any number of nodes that were
    just started, whatever requests, gossip, streams and failures follow and
    however everything interleaves, each event on a socket is a notice or the
    text of a packet for the app of that socket that somebody asked for: a
    request to [/send] at some node named this recipient, this payload and
    this identifier, or a stream from outside the world carried this packet. So
    the nodes neither make up packets nor change them nor deliver them to
    others, over any number of hops, queues and retries. *)
Theorem packets_have_origins (app_of : DeliverFunc → peerID) (closure : peerID → DeliverFunc)
    (w0 w : World) (i : nat) (me : peerID) (n : Node) (ts : list (prog Node unit)) (id : nat) (c : wsClient) (ev : json)
    (Hclosure : ∀ p, app_of (closure p) = p) (Hfresh : fresh_world w0)
    (Hr : rtc (world_step app_of closure) w0 w)
    (Hi : members w !! i = Some (me, (n, ts))) (Hc : objs (n_srv n) !! id = Some c)
    (Hev : ev ∈ wc_written c ∨ ev ∈ chan_buf (wc_send c) ∨ ev ∈ wc_offered c) :
  notice ev ∨
  ∃ pk o, o ∈ origins w ∧ gives o pk ∧ RecipientID pk = wc_appPeer c ∧ ev = deliver_event pk.
Proof.
  pose proof (world_reachable_ok app_of closure w0 w Hfresh Hr) as Hok.
  pose proof (Forall_lookup_1 _ _ _ _ Hok Hi) as [(n0 & Hf & Hreach) Honly _]. cbn [fst snd] in *.
  destruct (own_packets me app_of closure n0 n ts id c ev Hclosure Hf Hreach Hc Hev) as [?|(pk & Hpk & Hrcp & ->)]; [by left|].
  right. destruct (only_delivered _ _ Honly _ _ Hpk) as (o & Ho & Hgives). by exists pk, o.
Qed.

(** C2. Sending works across nodes: a request to [/send] that the first node of a path
    accepts, for an app with a socket at the last, with an identifier that none
    of them has seen, is answered with that identifier, and there is a way on from
    there - the request and the streams it starts, each run to its end - after
    which the open sockets of the app with room have the packet, with a payload
    that decodes to the one posted. The path may be a single node. *)
Theorem send_across_nodes (app_of : DeliverFunc → peerID) (closure : peerID → DeliverFunc)
    (w0 w : World) (j : nat) (js : list nat) (me : peerID) (n : Node) (ts : list (prog Node unit))
    (jl : nat) (mel : peerID) (nl : Node) (tsl : list (prog Node unit)) (rand : option bytes) (up : bool) (r : Request)
    (v : json) (req : sendRequest) (rcp sender : peerID) (payload pid b : bytes) (d : DeliverFunc) (sock : nat) (c : wsClient)
    (Hclosure : ∀ p, app_of (closure p) = p) (Hfresh : fresh_world w0) (Hr : rtc (world_step app_of closure) w0 w)
    (Hj : members w !! j = Some (me, (n, ts))) (Hjl : members w !! jl = Some (mel, (nl, tsl)))
    (Hauth : checkAuth (n_cfg n) r = true) (Horigin : originAllowed r = true)
    (Hmethod : Method r = "POST") (Hbody : Body r = Some v) (Hreq : dec_sendRequest v = Some req)
    (Hrcp : Decode (sr_Recipient req) = Some rcp) (Hpay : base64_DecodeString (sr_Payload req) = Some payload)
    (Hpid : packet_id req rand = inl pid) (Hsender : packet_sender req (n_srv n) = inl sender) :
  let pkt := mkPacket pid sender rcp payload (Time.UnixMilli (clock (n_mgr n))) in
  Marshal pkt = Some b → leads (members w) pid rcp d (j :: js) → NoDup (j :: js) → last (j :: js) = Some jl →
  is_Some (clients (n_srv nl) !! sock) → objs (n_srv nl) !! sock = Some c →
  wc_appPeer c = rcp → wc_closed c = false → (length (chan_buf (wc_send c)) < wsSendBuffer)%nat →
  (run (go_serve app_of closure rand up "/send" r) n).2 =
    mkResponse 200 (JObj [("packet_id", JStr (hex_EncodeToString pid)); ("status", JStr "queued")]) ∧
  ∃ w' n' ts' c', rtc (world_step app_of closure) w w' ∧ members w' !! jl = Some (mel, (n', ts')) ∧
    objs (n_srv n') !! sock = Some c' ∧
    ∃ text, chan_buf (wc_send c') = chan_buf (wc_send c) ++
        [packetReceivedEvent (match IDFromBytes sender with Some i => IDString i | None => "" end) text (Timestamp pkt)] ∧
      base64_DecodeString text = Some payload.
Proof.
  cbn zeta. set (pkt := mkPacket pid sender rcp payload _). intros Hb Hleads Hnd Hlast Hsock Hc Hpeer Hopen Hroom.
  assert (Hid : IDFromBytes (RecipientID pkt) = Some rcp) by (by eapply Decode_valid).
  pose proof (run_send app_of closure rand up r n v req rcp sender payload pid Hauth Horigin Hmethod Hbody Hreq Hrcp Hid
    Hpay Hpid Hsender) as Hserve. fold pkt in Hserve.
  split; [by rewrite Hserve|].
  destruct (along app_of closure pkt rcp d b Hid Hb js w (Posted rand "/send" r :: origins w) j
    (_ ← go_serve app_of closure rand up "/send" r; mret tt) me n ts jl mel nl tsl) as (w' & n' & ts' & Hw & Hn & Hsrv);
    try done.
  { by apply world_request. }
  { rewrite run_bind, Hserve. done. }
  destruct (member_invariants app_of closure w0 w jl mel nl tsl Hfresh Hr Hjl) as [Hmgr Hsok].
  pose proof (wf_closure _ _ _ Hmgr _ _ (leads_last _ _ _ _ _ _ _ _ _ Hleads Hlast Hjl)) as ->.
  destruct (sendToApp_spec (app_of (closure rcp)) (deliver_event pkt) (n_srv nl) sock c Hsok Hc) as (c' & Hc' & Hsent & _).
  rewrite <- Hsrv in Hc'. exists w', n', ts', c'. split_and!; [done|done|done|].
  exists (base64_EncodeToString payload). split; [|apply base64_roundtrip].
  apply Hsent; [done|by rewrite Hclosure|done|done].
Qed.
End theorems.

(** ** Two nodes *)

Module TwoWhole.
#[local] Existing Instances plain_multiaddr plain_peers plain_msgpack all_written reliable plain_yaml plain_base58
  working plain_net LateSnapshot.never_fails plain_crypto.
Import Fresh.

Definition node_at (me : peerID) : Node :=
  mkNode _ Default "config.yaml" (mkFS ∅ 0) (NewManager me true 0) (NewServer 5000 me) (mkStore ∅ "" ∅ 0 0)
    (Some []) (Some (mkNetStore ∅ 0)) (mkPing ∅ [] []) ["/dns4/a"] 0.

Definition world0 : World := mkWorld [("a", (node_at "a", [])); ("z", (node_at "z", []))] [].

Lemma fresh_at me : fresh_node me (node_at me).
Proof.
  split; [by eexists|by eexists|cbn; rewrite map_size_empty; unfold rendezvousMaxEntries; lia|].
  intros st [= <-]. apply map_Forall_empty.
Qed.

Lemma world0_fresh : fresh_world world0.
Proof.
  split; [|reflexivity]. apply Forall_cons. split; [split; [apply fresh_at|reflexivity]|].
  apply Forall_cons. split; [split; [apply fresh_at|reflexivity]|apply Forall_nil_2].
Qed.

Definition ws_request : Request := Sample.request "GET" "127.0.0.1" "peer_id" "b" None.
Definition send_request : Request := Sample.local "POST" (Some (send_body "c" "b")).
Definition announcement : gossipMsg := mkGossipMsg "z" (Some (enc_presenceMsg (Announce "z" PresenceTTL 0 "b"))).
Definition hello : Packet := mkPacket (String.concat "" (replicate 16 (String (Ascii.ascii_of_nat 0) ""))) "c" "b" "hello" 0.
Definition message : bytes := default "" (Marshal hello).

(** The app ["b"] connects to ["z"]; the announcement arrives at ["a"]; the app ["c"] posts
    a packet at ["a"]; the stream arrives at ["z"]. *)
Definition z1 : Node := (run (connect "b") (node_at "z")).1.
Definition a1 : Node := (run (presence_loop app_of [Some announcement]) (node_at "a")).1.
Definition a2 : Node := (run (send "c" "b") a1).1.
Definition z2 : Node := (run (relay app_of (handleStream (Some message))) z1).1.

Definition world2 : World :=
  mkWorld [("a", (a1, [Ret tt])); ("z", (z1, [Ret tt]))] [Posted None "/ws" ws_request].
Definition world4 : World :=
  mkWorld [("a", (a2, [Ret tt; Ret tt])); ("z", (z2, [Ret tt; Ret tt]))]
    [Posted None "/send" send_request; Posted None "/ws" ws_request].

#[local] Abbreviation steps := (rtc (world_step app_of closure)).

Lemma world2_reached : steps world0 world2.
Proof.
  etrans; [exact (world_run app_of closure world0 1 "z" (node_at "z") [] (connect "b") _ eq_refl
    (world_request app_of closure world0 1 "z" (node_at "z", []) None true "/ws" ws_request eq_refl))|].
  set (w1 := mkWorld _ _).
  assert (H0 : members w1 !! 0%nat = Some ("a", (node_at "a", []))) by reflexivity.
  exact (world_run app_of closure w1 0 "a" (node_at "a") [] (presence_loop app_of [Some announcement]) _ H0
    (world_local app_of closure w1 0 "a" (node_at "a", []) _ H0
       (cstep_go _ _ _ _ _ (call_presence_loop "a" app_of [Some announcement])))).
Qed.

Lemma a2_sent : EvSent "z" message ∈ trace (n_mgr a2).
Proof.
  assert (Ht : last (trace (n_mgr a2)) = Some (EvSent "z" message)) by (vm_compute; reflexivity).
  by apply last_Some_elem_of.
Qed.

Lemma world4_reached : steps world0 world4.
Proof.
  etrans; [exact world2_reached|].
  etrans; [exact (world_run app_of closure world2 0 "a" a1 [Ret tt] (send "c" "b") _ eq_refl
    (world_request app_of closure world2 0 "a" (a1, [Ret tt]) None true "/send" send_request eq_refl))|].
  set (w3 := mkWorld _ _).
  assert (H0 : members w3 !! 0%nat = Some ("a", (a2, [Ret tt; Ret tt]))) by reflexivity.
  assert (H1 : members w3 !! 1%nat = Some ("z", (z1, [Ret tt]))) by reflexivity.
  exact (world_run app_of closure w3 1 "z" z1 [Ret tt] (relay app_of (handleStream (Some message))) _ H1
    (world_stream app_of closure w3 0 "a" (a2, [Ret tt; Ret tt]) 1 "z" (z1, [Ret tt]) message H0 a2_sent H1)).
Qed.

(** The socket of ["b"] at ["z"] before and after. *)
Definition socket (n : Node) : wsClient := default (newWSClient "") (objs (n_srv n) !! 0%nat).
End TwoWhole.

Section witnesses.
Import Fresh TwoWhole.
#[local] Existing Instances plain_multiaddr plain_peers plain_msgpack all_written reliable plain_yaml plain_base58
  working plain_net LateSnapshot.never_fails plain_crypto.

Lemma packets_have_origins_witness :
  let ev := packetReceivedEvent "c" "aGVsbG8=" 0 in
  ev ∈ wc_offered (socket z2) ∧
  (notice ev ∨ ∃ pk o, o ∈ origins world4 ∧ gives o pk ∧ RecipientID pk = wc_appPeer (socket z2) ∧ ev = deliver_event pk).
Proof.
  cbn zeta. assert (Hin : last (wc_offered (socket z2)) = Some (packetReceivedEvent "c" "aGVsbG8=" 0)) by (vm_compute; reflexivity).
  apply last_Some_elem_of in Hin. split; [exact Hin|].
  apply (packets_have_origins app_of closure world0 world4 1 "z" z2 [Ret tt; Ret tt] 0 (socket z2)).
  - exact app_of_closure.
  - exact world0_fresh.
  - exact world4_reached.
  - reflexivity.
  - unfold socket. destruct (objs (n_srv z2) !! 0%nat) eqn:E; [reflexivity|]. exfalso. revert E. by vm_compute.
  - right. right. exact Hin.
Defined.

Lemma send_across_nodes_witness :
  (run (go_serve app_of closure None true "/send" send_request) a1).2 =
    mkResponse 200 (JObj [("packet_id", JStr (hex_EncodeToString (ID hello))); ("status", JStr "queued")]) ∧
  ∃ w' n' ts' c', rtc (world_step app_of closure) world2 w' ∧ members w' !! 1%nat = Some ("z", (n', ts')) ∧
    objs (n_srv n') !! 0%nat = Some c' ∧
    ∃ text, chan_buf (wc_send c') = chan_buf (wc_send (socket z1)) ++ [packetReceivedEvent (match IDFromBytes "c" with Some i => IDString i | None => "" end) text
          (Timestamp (mkPacket (ID hello) "c" "b" "hello" (Time.UnixMilli (clock (n_mgr a1)))))] ∧
      base64_DecodeString text = Some "hello".
Proof.
  apply (send_across_nodes app_of closure world0 world2 0 [1%nat] "a" a1 [Ret tt] 1 "z" z1 [Ret tt] None true send_request
    (send_body "c" "b") (mkSend "c" "b" "aGVsbG8=" "00000000000000000000000000000000") "b" "c" "hello" (ID hello) message
    (closure "b") 0 (socket z1)).
  - exact app_of_closure.
  - exact world0_fresh.
  - exact world2_reached.
  - reflexivity.
  - reflexivity.
  - by vm_compute.
  - by vm_compute.
  - reflexivity.
  - reflexivity.
  - by vm_compute.
  - by vm_compute.
  - by vm_compute.
  - by vm_compute.
  - by vm_compute.
  - by vm_compute.
  - exists "a", a1, [Ret tt]. split_and!; [reflexivity|by vm_compute|by vm_compute| |].
    + exists ("z", (z1, [Ret tt])). split_and!; [reflexivity|by vm_compute|by vm_compute].
    + exists "z", z1, [Ret tt]. split_and!; [reflexivity|by vm_compute|by vm_compute].
  - repeat constructor; set_solver.
  - reflexivity.
  - vm_compute. by eexists.
  - unfold socket. destruct (objs (n_srv z1) !! 0%nat) eqn:E; [reflexivity|]. exfalso. revert E. by vm_compute.
  - by vm_compute.
  - by vm_compute.
  - apply Nat.ltb_lt. by vm_compute.
Defined.
End witnesses.
