(* ===== verification/Races.v ===== *)
(** * What handlers that interleave do to each other

    Two schedules of the whole node of System.v in which every goroutine runs to
    its end, every caller is told that all went well, and the node is left in a
    state that no order of the same calls leads to. *)

From S2P Require Import Prelude GoTime Prog Compose GoStrings Encoding Multiaddr Files Packet Dedup Router Queue Json Presence Manager Rendezvous RvGossip Config Network Invite Card PeerMemory Ping Server Handlers System SystemSpec.

#[local] Open Scope string_scope.
#[local] Open Scope list_scope.

Section races.
Import Fresh.
#[local] Existing Instances plain_multiaddr plain_peers plain_msgpack all_written reliable plain_yaml plain_base58
  working plain_net LateSnapshot.never_fails plain_crypto.

(** The goroutines that have ended. *)
Definition ended (c : config (S := Node)) : bool :=
  forallb (λ p, match p with Ret _ => true | Step _ _ => false end) c.2.

(** *** Invites *)

Definition invite_to (net key : string) : string :=
  match EncodeInvite (mkInvite _ [String.append "/dns4/" net] key net) with Ok s => s | Err _ => "" end.
Definition key_a : bytes := "aaaaaaaaaaaaaaaaaaaaaaaaaaaaaaaa".
Definition key_b : bytes := "bbbbbbbbbbbbbbbbbbbbbbbbbbbbbbbb".

Definition accept (text : string) : prog Node unit :=
  _ ← go_serve app_of closure None true "/invite/accept" (Sample.local "POST" (Some (JObj [("invite", JStr text)]))); mret tt.
Definition accept_a : prog Node unit := accept (invite_to "net-a" key_a).
Definition accept_b : prog Node unit := accept (invite_to "net-b" key_b).

(** The invite of a second network is accepted while the answer to the first is
    under way: the first has read the configuration it will save. *)
Definition mixed : config := goes [accept_a; accept_b] (replicate 9 0 ++ replicate 20 1 ++ replicate 20 0)%nat public.

(** What the next start finds: the key, the network and the bootstrap peers. *)
Definition at_restart (n : Node) : option (bytes * string * list string) :=
  match run (Load (n_configPath n)) (n_fs n) with
  | (fs, Ok (cfg, _)) => key ← files fs !! PSKPath cfg; Some (key, NetworkID cfg, BootstrapPeers cfg)
  | (_, Err _) => None
  end.

(** *** Sockets *)

(** The socket of an app closes while the app opens another, and then a packet
    is sent to it. *)
Definition lost : config :=
  goes [connect "b"; readPump [true; false] (go_ws_close app_of "b" 0); connect "b"; send "c" "b"]
    (replicate 20 0 ++ replicate 3 1 ++ replicate 20 2 ++ replicate 10 1 ++ replicate 20 3)%nat public.

(** ** Theorems *)

(** C35. Two invites accepted at the same time can leave the node in neither network.
    Nothing orders the assignments, the key file and the configuration file of
    one call with those of the other: there is a run in which both calls end,
    after which the node starts with the key of one network and with only the
    bootstrap peers, and the name, of the other - whose nodes it cannot talk to.
    One after the other, in either order, the key is that of the last one and
    its bootstrap peers are there. *)
Theorem concurrent_accepts_split :
  sys_reachable "a" app_of closure public (mixed.1, mixed.2) ∧ ended mixed = true ∧
  at_restart mixed.1 = Some (key_b, "net-a", ["/dns4/net-a"]) ∧
  at_restart (exec accept_b (exec accept_a public)) = Some (key_b, "net-b", ["/dns4/net-a"; "/dns4/net-b"]) ∧
  at_restart (exec accept_a (exec accept_b public)) = Some (key_a, "net-a", ["/dns4/net-b"; "/dns4/net-a"]).
Proof.
  split; [rewrite <- surjective_pairing; apply goes_reachable; repeat constructor|].
  repeat split; vm_compute; reflexivity.
Qed.

(** C36. An app that reconnects can be cut off from its packets: there is a run of the
    whole node, with nothing left to do, after which the app has an open
    socket, the relay manager does not know it, its devices have been told that
    it is offline, and a packet sent to it waits in the queue of its own node
    instead of going to the socket. *)
Theorem reconnect_loses_packets :
  sys_reachable "a" app_of closure public (lost.1, lost.2) ∧ ended lost = true ∧
  is_Some (clients (n_srv lost.1) !! 1%nat) ∧
  (∃ c, objs (n_srv lost.1) !! 1%nat = Some c ∧ wc_appPeer c = "b" ∧ wc_closed c = false ∧
     wc_offered c = [peerOnlineEvent "b" "a"; peerOfflineEvent "b"]) ∧
  localApps (n_mgr lost.1) !! "b" = None ∧ Len "b" (queue (n_mgr lost.1)) = 1%nat.
Proof.
  split; [rewrite <- surjective_pairing; apply goes_reachable; repeat constructor|].
  split; [vm_compute; reflexivity|]. split; [vm_compute; by eexists|].
  split; [|split; vm_compute; reflexivity].
  eexists. split; [vm_compute; reflexivity|]. repeat split.
Qed.
End races.
